(* ===== verification/_CoqProject ===== *)
-Q . S2P
Prelude.v
Nonce.v
ReleaseStore.v
Chain.v
ReleaseConfig.v
Scheduler.v
Progress.v
Reconciler.v
Coordinator.v
SendErrors.v
StuckNonce.v
Effects.v
GoText.v
TxClient.v
BlobTx.v
ChainReads.v
JobTypes.v
Cursor.v
Scan.v
JobWatcher.v
SessionWatcher.v
Checkpoint.v
JobCalls.v
Ollama.v
Deadline.v
Stream.v
Inference.v
Pipeline.v
Answer.v
Keystore.v
Gateway.v
Registration.v
Sidecars.v
Lifecycle.v
Operator.v
Settlement.v
Dial.v
EnvText.v
RedisUrl.v
Preflight.v
Watch.v
AccountReads.v
Config.v
Models.v
Metrics.v
OperatorConfig.v
Init.v
Construct.v
Loops.v
Payment.v
Commands.v
