(* ===== verification/Prelude.v ===== *)
(** * A formal model of the LightChain worker

    The worker (Go, under [src/]) claims inference sessions on a chain, answers
    the jobs of those sessions with a language model, puts the encrypted answer
    into a blob, settles the job on chain and later releases its payment. This
    library translates the code that decides what the worker does into
    executable definitions, and proves what makes that code correct. A
    definition keeps the name of the function it translates, in a Module named
    after the Go type or file.

    ** How effects are written

    Three styles, each where the code has that shape. A part that owns its
    state ([NonceManager], [SubpoolCoordinator], the release store on a file
    system) is a record with one function per method, and a step relation where
    several callers interleave. The release loop threads a store, a chain and a
    trace of what it did through an error monad ([Scheduler.world],
    [Reconciler.world]). Everything else is a program ([Effects.prog]): a tree
    of typed calls to what is outside of it, every answer of which is possible.
    [runs p tr r] says that [p] makes the calls of [tr] and returns [r];
    [always p Q] that every run satisfies [Q]; [walk] proves such a statement
    branch by branch; [interp] evaluates a program against a handler, which is
    how the concrete runs of the witnesses are obtained. [lift] embeds the calls
    of a part into those of the whole, so that [Construct], [Init] and
    [Commands] are built from the other files' programs and inherit their
    lemmas.

    ** The files

    - [Prelude]: integers at their width, results and errors (a Go error is its
      message, the sentinels it wraps and its code), the tactics shared by all.
    - [Effects]: programs, their runs, [defer], and the tactic [walk].
      [GoText], [EnvText]: the standard library's text functions the code uses,
      the second those that read settings: numbers, durations, hexadecimal.
    - [Config] ([internal/config/config.go], [ConfigFromEnv] of
      [internal/release/config.go], [buildReleaseConfig]), [OperatorConfig]
      ([registration.go], [watch.go]) and [Models] (model ids and the tables the
      sidecar makes of them): every setting loaded and validated. [RedisUrl]
      (also [config.go]): the one setting that may hold a password.
    - [Nonce] ([internal/chain/nonce.go]): nonces leased to senders.
      [Coordinator] ([subpool_coordinator.go]): blob and ordinary transactions
      excluding each other. [SendErrors] ([send_errors.go], [pause.go]) and
      [StuckNonce] ([stuck_nonce.go]): classes of send failures, counts of hits.
      [TxClient] ([client.go]): preparing, sending and awaiting a transaction.
      [BlobTx] ([internal/blob/blob_tx.go]): the same for blobs, with
      replacement of a stuck nonce.
    - [Chain] ([interfaces.go]), [Dial] ([dial.go], the endpoints and the
      transport that fails over between them) and [ChainReads] ([client.go]):
      what is read from the contracts, and its caches; [AccountReads]: what the
      operator's commands and the watch daemon read. Contract bindings,
      addresses and ABI decoding are class parameters.
    - [ReleaseStore] ([internal/release/store.go]): the durable state, over a
      file system with crashes. [ReleaseConfig], [Scheduler], [Reconciler]
      ([config.go], [scheduler.go], [reconciler.go]) run over the class [Store]
      with its laws [StoreLaws], which the file store is proved to satisfy.
      [Progress]: what a cycle of the scheduler does for each job it may release.
      [Settlement] ([internal/cli/settlement.go]): the [release] command, the
      two composed.
    - [Cursor], [Scan], [JobWatcher], [SessionWatcher] ([internal/sortition]):
      reading the chain in chunks, claiming sessions and starting jobs.
    - [JobTypes], [Checkpoint], [JobCalls], [Deadline], [Stream], [Inference],
      [Pipeline] ([internal/pipeline]): one job, from its prompt to its
      completion, with the checkpoint that lets another attempt resume it.
      [Ollama] ([internal/ollama]): the model's client; [Answer]: client,
      streaming and pipeline composed.
    - [Keystore] ([internal/keystore]): key files and the session key store.
      [Gateway] ([internal/gateway]): the HTTP client, the response stream and
      the job stream. [Sidecars] ([internal/voice], [internal/search]).
    - [Registration] ([internal/registration]), [Operator] ([internal/cli]):
      the handlers that register, stake, reinstate and withdraw. [Preflight],
      [Watch], [Init] ([internal/cli]): the go-live checks, the alerting daemon
      and the guided setup. [Commands] ([cmd/cli]): the commands around them,
      from their arguments to the exit code.
    - [Lifecycle] ([internal/service], [internal/heartbeat],
      [internal/cli/drain.go]): heartbeats, the drain marker, and the order in
      which the process starts and stops its parts. [Construct] ([New] and
      [Main] of [internal/service/service.go], [NewChainClient],
      [NewJobHandler]): building these parts, in every mode. [Loops]: the
      goroutines that repeat a pass on a ticker, from the files of the passes.
      [Payment]: the runs of the pipeline, call by call, beside the scheduler
      and whoever else uses the release store, one operation at a time.
      [Metrics] ([internal/metrics]): the labels under which jobs are counted.

    ** What the theorems show

    - One job: a completed job was acknowledged, and what was settled is one
      ciphertext, the one delivered; attempts on the same checkpoint converge;
      within one run an error frame excludes an answer and is the last thing
      sent; a job read as unable to settle in time costs nothing (a failed
      reading stops none); what the consumer was shown is what is settled.
    - Payment: a recorded job survives crashes and other processes; a cycle
      releases only eligible jobs, submits all of those among its candidates
      (a full batch can starve the jobs behind it) and loses none; a pass of the
      reconciler reads every block once or leaves its cursor behind the gap, and
      ends.
      The command that composes the two loses no job either. End to end
      ([Payment]): an answered job that the tracker recorded stays owed until
      the scheduler settles it, whatever the others do with the store between
      any two of its operations; a failing job's back-off is exact.
    - Transactions: no nonce is leased twice between two seeds of the counter,
      every outcome of a send is
      accounted for, the two classes of transactions exclude each other and no
      waiter sleeps for ever, a blob's replacement is sent only when justified.
    - Chain watching: no job is skipped, claims are within capacity and for
      requests the worker covers, or whose mask could not be read; a cursor file
      is old or new.
    - Settings: what a configuration that loads and validates guarantees, and
      which settings nothing checks; the sidecar's loader and the release
      command's agree where both load, and the operator's commands load what the
      sidecar loads exactly when two settings of theirs are readable; model ids
      survive printing and are derived alike.
    - The process: what is opened while the worker is built is closed once, by
      the failure or by the shutdown, and how the two exceptions end; a built
      worker is registered, has the parts of its mode and starts its intake; the
      shutdown's order, and which parts end with their context instead; a
      request reaches a live endpoint and a body that cannot be made again is
      sent once; keys reopen; frames keep the order in which the stream takes
      them, and only a terminal frame posted over HTTP overtakes; jobs of the
      gateway are acknowledged first; a loop makes one pass per tick and none
      after it is stopped, and a loaded configuration starts every loop; a
      failed job is counted under the stage that failed; no error shows the
      Redis password.
    - The operator: what a registration leaves on chain, a first part of the
      models included when an errored transaction or the rollback leaves it; a
      fresh worker's seed hides no job, [init] spends only after its checks, a preflight without a failure
      vouches for the worker, the watch tells what it knows, and each command
      sends only transactions of its kind and exits with 0 only when it did what
      it is for, or found it done.

    Not every theorem is a claim of its own: the files also prove that a cycle
    accounts for every job, the pause gate, the cursor files, the errors of the sidecars and
    of transcription, the stake commands' checks and the synchronisation of
    capabilities, among others.

    ** Bounds and fuel

    The reconciler's loop and the block scans recurse on fuel, one unit a chunk;
    one unit per block is enough ([pass_terminates]; [Scan] asks for
    [last - lo < fuel]). A background loop recurses on the list of what its
    select receives. Sums of block numbers wrap at 64 bits as in Go; the
    theorems that need no wrap say so ([scan_fits], a chunk's end below
    [u64_max]). Every other loop of the code is structural on its list, or is
    given a number of turns ([StreamPublisher.pump] and [StreamPublisher.Run],
    whose theorem holds for every number), or the messages of the session
    ([JobStream.receive]).

    ** What is not modelled

    Log lines and the values of metrics, except where a metric is what a theorem is about;
    the text of messages beyond what the code inspects, and the values quoted
    in them. JSON, cryptography (Keccak256 and key files among it), contract
    bindings, go-ethereum, go-redis, asynq and the organisation's own packages
    (prompt envelopes, blob submission, addresses of Redis keys) are
    parameters, with the laws used as named hypotheses; so are
    [strconv.ParseFloat], [net/url], [net.SplitHostPort] and the flag package.
    Hexadecimal and durations are modelled, the fractions of a duration with
    the IEEE arithmetic of [SpecFloat]. [strings.TrimSpace] and
    [strings.ToLower] are their ASCII part. Other floating-point values only
    pass through, as integers. Deadlines are answers of calls: a call may fail
    for any reason at any time.

    Loops that run beside each other are related through the stores they share:
    [ReleaseStore] proves that every interleaving of its operations is one of
    whole operations, taking [flock] to exclude operations that hold it
    exclusively, and [Payment] runs the scheduler against any such interleaving
    with the pipeline's runs and other parties. [StreamPublisher] interleaves
    its own loop and publishers. There is no one global interleaving of the
    process. The
    Prometheus collectors, the test harness ([workertest/]) and the files that
    only re-export another package hold no logic of the worker's own. *)
From stdpp Require Export base tactics option list gmap strings numbers sets.
From Stdlib Require Export ZArith Lia.

#[global] Open Scope Z_scope.

(** * Machine integers

    Go's [uint64] and [int64] are integers of [Z] with the wrap-around written
    out; [time.Duration] is an [int64] count of nanoseconds. *)

Definition u64_max : Z := 2 ^ 64 - 1.
Definition i64_max : Z := 2 ^ 63 - 1.
Definition i64_min : Z := - 2 ^ 63.

Definition u64_wrap (z : Z) : Z := z mod 2 ^ 64.
Definition i64_wrap (z : Z) : Z := (z + 2 ^ 63) mod 2 ^ 64 - 2 ^ 63.

Definition is_u64 (z : Z) : Prop := 0 <= z <= u64_max.
Definition is_i64 (z : Z) : Prop := i64_min <= z <= i64_max.

Definition Second : Z := 1000000000.
Definition Minute : Z := 60 * Second.
Definition Hour : Z := 60 * Minute.

(** [int64(d / time.Second)]: Go's integer division truncates towards zero. *)
Definition dur_secs (d : Z) : Z := Z.quot d Second.

Lemma u64_wrap_id z : is_u64 z -> u64_wrap z = z.
Proof. unfold is_u64, u64_max, u64_wrap. intros. apply Z.mod_small. lia. Qed.

Lemma u64_wrap_range z : is_u64 (u64_wrap z).
Proof.
  unfold is_u64, u64_max, u64_wrap.
  pose proof (Z.mod_pos_bound z (2 ^ 64)). lia.
Qed.

Lemma i64_wrap_id z : is_i64 z -> i64_wrap z = z.
Proof.
  unfold is_i64, i64_min, i64_max, i64_wrap. intros.
  rewrite Z.mod_small; lia.
Qed.

Lemma i64_wrap_range z : is_i64 (i64_wrap z).
Proof.
  unfold is_i64, i64_min, i64_max, i64_wrap.
  pose proof (Z.mod_pos_bound (z + 2 ^ 63) (2 ^ 64)). lia.
Qed.

Create HintDb go discriminated.
#[export] Hint Resolve u64_wrap_range i64_wrap_range : go.

(** * Errors

    A Go [error] is observed by the program in three ways: its rendered text
    ([err.Error()], searched with [strings.Contains]), the sentinels
    [errors.Is] finds in its tree, and the JSON-RPC code [errors.As] finds in
    it. [fmt.Errorf] with [%w] keeps the last two and prepends text to the
    first. Formatted numbers and addresses are left out of the text. *)

Inductive sentinel : Type :=
  | ErrContractPaused | ErrSessionNotActive | ErrJobDoomed | SkipRetry
  | ErrAnswerDelivered | ErrIdentityMismatch | ErrSchemaVersionMismatch
  | ErrEmptySnapshot | ErrNotExist | Canceled | DeadlineExceeded
  | ErrCiphertextTooLarge | ErrEmptyGeneration | ErrInvalidSelfContained
  | ErrBadAudio | ErrSTTUnavailable | ErrEmptyTranscript.

#[global] Instance sentinel_eq_dec : EqDecision sentinel.
Proof. solve_decision. Defined.

Record error : Type := MkError {
  err_msg : string;
  err_is : list sentinel;
  err_code : option Z;
}.

#[global] Instance error_eq_dec : EqDecision error.
Proof. solve_decision. Defined.

(** [errors.New] / [fmt.Errorf] without [%w]. *)
Definition errorf (s : string) : error := MkError s [] None.

(** A package-level sentinel [var X = errors.New(s)]. *)
Definition errors_New (x : sentinel) (s : string) : error := MkError s [x] None.

(** [fmt.Errorf("p: %w", e)]. *)
Definition wrap (p : string) (e : error) : error :=
  MkError (p +:+ ": " +:+ err_msg e) (err_is e) (err_code e).

(** [fmt.Errorf("%w: %w", e1, e2)] (and [errors.Join], up to the separator). *)
Definition join (e1 e2 : error) : error :=
  MkError (err_msg e1 +:+ ": " +:+ err_msg e2) (err_is e1 ++ err_is e2)
    (match err_code e1 with Some c => Some c | None => err_code e2 end).

Definition errors_Is (e : error) (x : sentinel) : bool :=
  bool_decide (x ∈ err_is e).

(** [strings.Contains(s, sub)]. *)
Definition str_contains (s sub : string) : bool :=
  match String.index 0 sub s with Some _ => true | None => false end.

(** [strings.ToLower] on ASCII. *)
Definition ascii_lower (c : Ascii.ascii) : Ascii.ascii :=
  let n := Ascii.nat_of_ascii c in
  if (65 <=? n)%nat && (n <=? 90)%nat then Ascii.ascii_of_nat (n + 32) else c.

Fixpoint to_lower (s : string) : string :=
  match s with
  | EmptyString => EmptyString
  | String c s' => String (ascii_lower c) (to_lower s')
  end.

Arguments MkError _%_string _ _.
Arguments errorf _%_string.
Arguments errors_New _ _%_string.
Arguments wrap _%_string _.
Arguments str_contains _%_string _%_string.

Lemma errors_Is_wrap p e x : errors_Is (wrap p e) x = errors_Is e x.
Proof. done. Qed.

Lemma errors_Is_join e1 e2 x :
  errors_Is (join e1 e2) x = errors_Is e1 x || errors_Is e2 x.
Proof.
  unfold errors_Is, join; simpl.
  apply eq_true_iff_eq. rewrite orb_true_iff, !bool_decide_eq_true.
  set_solver.
Qed.

Create Rewrite HintDb go.
#[export] Hint Rewrite errors_Is_wrap errors_Is_join : go.

(** * Results and effects

    [result A] is a Go [(A, error)] pair. [st W A] is code that reads and
    writes a state [W]; [io W A] is such code that may return an error, which
    [let?] propagates unchanged and [wrapping] propagates with a prefix. *)

Inductive result (A : Type) : Type :=
  | Ok (a : A)
  | Err (e : error).
Arguments Ok {A} a.
Arguments Err {A} e.

#[global] Instance result_eq_dec {A} `{EqDecision A} : EqDecision (result A).
Proof. solve_decision. Defined.

Definition is_ok {A} (r : result A) : bool :=
  match r with Ok _ => true | Err _ => false end.

Definition st (W A : Type) : Type := W -> A * W.
Definition io (W A : Type) : Type := W -> result A * W.

Definition st_ret {W A} (a : A) : st W A := fun w => (a, w).
Definition st_bind {W A B} (c : st W A) (f : A -> st W B) : st W B :=
  fun w => let '(a, w') := c w in f a w'.

Definition io_ret {W A} (a : A) : io W A := fun w => (Ok a, w).
Definition io_err {W A} (e : error) : io W A := fun w => (Err e, w).
Definition io_bind {W A B} (c : io W A) (f : A -> io W B) : io W B :=
  fun w => match c w with
           | (Ok a, w') => f a w'
           | (Err e, w') => (Err e, w')
           end.
Definition io_wrap {W A} (p : string) (c : io W A) : io W A :=
  fun w => match c w with
           | (Ok a, w') => (Ok a, w')
           | (Err e, w') => (Err (wrap p e), w')
           end.

Arguments io_wrap {W A} p%_string c _.

(** The state an operation leaves behind, and what it returned. *)
Definition final {W A} (c : st W A) (w : W) : W := snd (c w).
Definition value {W A} (c : st W A) (w : W) : A := fst (c w).

Declare Scope go_scope.
Delimit Scope go_scope with go.
Notation "'let!' x ':=' c 'in' k" := (st_bind c (fun x => k))
  (at level 10, x binder, c at level 100, k at level 200,
   format "'let!'  x  ':='  c  'in' '//' k") : go_scope.
Notation "'let?' x ':=' c 'in' k" := (io_bind c (fun x => k))
  (at level 10, x binder, c at level 100, k at level 200,
   format "'let?'  x  ':='  c  'in' '//' k") : go_scope.
Notation "'let?' x ':=' c 'wrapping' p 'in' k" := (io_bind (io_wrap p c) (fun x => k))
  (at level 10, x binder, c at level 100, p at level 100, k at level 200,
   format "'let?'  x  ':='  c  'wrapping'  p  'in' '//' k") : go_scope.
#[global] Open Scope go_scope.

(** Run an operation of a component on the part [get w] of a larger state. *)
Definition zoom {W V A} (get : W -> V) (put : V -> W -> W) (c : st V A) : st W A :=
  fun w => let '(a, v) := c (get w) in (a, put v w).

Create HintDb monads.
#[export] Hint Unfold st_ret st_bind io_ret io_err io_bind io_wrap zoom final value : monads.

(** * Invariants of stateful operations

    [safe acc c]: whatever [c] is answered, it leaves [acc] as it found it. *)
Section Safe.
Context {W : Type} (acc : W -> Prop).
Definition safe {A} (c : st W A) : Prop := forall w, acc w -> acc (final c w).

Lemma safe_ret {A} (a : A) : safe (st_ret a).
Proof. by intros w. Qed.
Lemma safe_bind {A B} (c : st W A) (f : A -> st W B) : safe c -> (forall a, safe (f a)) -> safe (st_bind c f).
Proof. intros Hc Hf w Hw. specialize (Hc w Hw). unfold final, st_bind in *. destruct (c w) as [a w1]. by apply Hf. Qed.
Lemma safe_io_bind {A B} (c : io W A) (f : A -> io W B) : safe c -> (forall a, safe (f a)) -> safe (io_bind c f).
Proof. intros Hc Hf w Hw. specialize (Hc w Hw). unfold final, io_bind in *. destruct (c w) as [[a|e] w1]; [by apply Hf|done]. Qed.
Lemma safe_wrap {A} s (c : io W A) : safe c -> safe (io_wrap s c).
Proof. intros Hc w Hw. specialize (Hc w Hw). unfold final, io_wrap in *. by destruct (c w) as [[a|e] w1]. Qed.
Lemma safe_then {A} (c : st W A) w : acc w -> safe c -> acc (c w).2.
Proof. intros Hw Hc. by apply Hc. Qed.
Lemma safe_run {A} (c : st W A) w a w' : safe c -> c w = (a, w') -> acc w -> acc w'.
Proof. intros Hc E Hw. specialize (Hc w Hw). unfold final in Hc. by rewrite E in Hc. Qed.
End Safe.

Create HintDb safe.
#[export] Hint Resolve safe_ret : safe.

(** Follow a program's binds and branches; its steps are hints. *)
Ltac safely := repeat lazymatch goal with
  | |- safe _ (st_bind _ _) => apply safe_bind
  | |- safe _ (io_bind _ _) => apply safe_io_bind
  | |- safe _ (io_wrap _ _) => apply safe_wrap
  | |- forall _, _ => intro
  | |- safe _ (match ?x with _ => _ end) => destruct x
  | |- safe _ _ => solve [eauto 3 with safe]
  end.
(** The rest of a program that has come to a safe world. *)
Ltac carry_on := apply safe_then; [done|safely].

(** * Tactics *)

(** Case analysis on the innermost scrutinee of a [match] or [if]. *)
Ltac destruct_scrut t :=
  lazymatch t with
  | context [match ?s with _ => _ end] => destruct_scrut s
  | _ => let E := fresh "E" in destruct t eqn:E
  end.

Ltac break_step :=
  match goal with
  | H : context [match ?s with _ => _ end] |- _ => destruct_scrut s
  | |- context [match ?s with _ => _ end] => destruct_scrut s
  end.

Ltac simpl_go :=
  repeat (autounfold with monads in *; cbn [fst snd] in *; simplify_eq/=).

(** Symbolic execution: unfold the monads, split every branch, keep the
    equations, and discharge the branches that contradict one another. *)
Ltac run_go := simpl_go; repeat (break_step; simpl_go); try done.

(** Boolean comparisons of [Z] as propositions. *)
Ltac reflect_Z :=
  repeat match goal with
  | H : (_ <? _) = true |- _ => apply Z.ltb_lt in H
  | H : (_ <? _) = false |- _ => apply Z.ltb_ge in H
  | H : (_ <=? _) = true |- _ => apply Z.leb_le in H
  | H : (_ <=? _) = false |- _ => apply Z.leb_gt in H
  | H : (_ =? _) = true |- _ => apply Z.eqb_eq in H
  | H : (_ =? _) = false |- _ => apply Z.eqb_neq in H
  | H : (_ && _) = true |- _ => apply andb_true_iff in H as [? ?]
  | H : (_ && _) = false |- _ => apply andb_false_iff in H as [?|?]
  | H : (_ || _) = true |- _ => apply orb_true_iff in H as [?|?]
  | H : (_ || _) = false |- _ => apply orb_false_iff in H as [? ?]
  | H : negb _ = true |- _ => apply negb_true_iff in H
  | H : negb _ = false |- _ => apply negb_false_iff in H
  | H : bool_decide _ = true |- _ => apply bool_decide_eq_true in H
  | H : bool_decide _ = false |- _ => apply bool_decide_eq_false in H
  end.

(** * Lists *)

Lemma filter_id {A} (P : A -> Prop) `{forall x, Decision (P x)} (l : list A) :
  (forall x, x ∈ l -> P x) -> filter P l = l.
Proof.
  induction l as [|x l IH]; [done|]. intros Hp.
  rewrite filter_cons_True by (apply Hp; left). f_equal. apply IH. intros; apply Hp; by right.
Qed.

(** * Reachability

    [reachable step init s]: [s] is reached from an initial state by finitely
    many transitions. [always_holds] is the induction rule every component's
    invariant theorem uses. *)

Section Reachability.
Context {S : Type} (init : S -> Prop) (step : S -> S -> Prop).

Inductive reachable : S -> Prop :=
  | reach_init s : init s -> reachable s
  | reach_step s s' : reachable s -> step s s' -> reachable s'.

Lemma always_holds (P : S -> Prop) :
  (forall s, init s -> P s) ->
  (forall s s', reachable s -> P s -> step s s' -> P s') ->
  forall s, reachable s -> P s.
Proof. intros Hi Hs s Hr. induction Hr; eauto. Qed.
End Reachability.

(** * Addresses

    [common.Address] of go-ethereum and the three functions of it the worker
    uses: [Address.Hex], [common.IsHexAddress], [common.HexToAddress]. *)

Class AddressOps := {
  Address : Type;
  Address_eq_dec :: EqDecision Address;
  zero_address : Address;
  Hex : Address -> string;
  IsHexAddress : string -> bool;
  HexToAddress : string -> Address;
}.

(** The documented behaviour the worker relies on: the rendering of an address
    is a valid one and parses back. *)
Class AddressLaws (A : AddressOps) : Prop := {
  IsHex_Hex a : IsHexAddress (Hex a) = true;
  HexToAddress_Hex a : HexToAddress (Hex a) = a;
}.

(** An instance for concrete runs: an address is its own rendering. *)
Definition plain_addresses : AddressOps :=
  {| Address := string; zero_address := EmptyString; Hex := fun a => a;
     IsHexAddress := fun _ => true; HexToAddress := fun s => s |}.

Lemma plain_addresses_laws : AddressLaws plain_addresses.
Proof. by split. Qed.
