(* ===== verification/Nonce.v ===== *)
(** The nonce manager of [internal/chain/nonce.go]: one counter per signing
    key, nonces handed out as leases, and re-seeding deferred until every
    lease is back. *)
From S2P Require Import Prelude.

(** What the manager needs of the chain: [NonceFetcher] of nonce.go. *)
Class NonceFetcher (F : Type) := PendingNonceAt : F -> result Z * F.

Module NonceManager.

Record t : Type := NewNonceManager {
  pendingNonce : Z;
  initialized : bool;
  outstanding : nat;
  resetPending : bool;
}.

Definition fresh : t := NewNonceManager 0 false 0 false.

Section Operations.
Context {F : Type} `{NonceFetcher F}.

(** [NextNonce]: fetch on first use, then count locally. *)
Definition NextNonce : io (t * F) Z := fun '(nm, f) =>
  let seeded :=
    if initialized nm then (Ok nm, f)
    else match PendingNonceAt f with
         | (Err e, f') => (Err (wrap "fetch initial pending nonce" e), f')
         | (Ok nonce, f') =>
             (Ok (NewNonceManager nonce true (outstanding nm) (resetPending nm)), f')
         end in
  match seeded with
  | (Err e, f') => (Err e, (nm, f'))
  | (Ok nm1, f') =>
      let nonce := pendingNonce nm1 in
      (Ok nonce,
       (NewNonceManager (u64_wrap (nonce + 1)) (initialized nm1)
          (S (outstanding nm1)) (resetPending nm1), f'))
  end.
End Operations.

(** [applyPendingResetLocked]. *)
Definition applyPendingResetLocked (nm : t) : t :=
  if negb (resetPending nm) || (0 <? outstanding nm)%nat then nm
  else NewNonceManager 0 false (outstanding nm) false.

(** [ReleaseNonce]: give a lease back; an unsent nonce is either returned to
    the counter or leaves a hole that a reset has to close. *)
Definition ReleaseNonce (nonce : Z) (consumed : bool) (nm : t) : t :=
  let nm1 :=
    if (0 <? outstanding nm)%nat
    then NewNonceManager (pendingNonce nm) (initialized nm) (pred (outstanding nm)) (resetPending nm)
    else nm in
  let nm2 :=
    if consumed then nm1
    else if initialized nm1 && (0 <? pendingNonce nm1) && (nonce =? u64_wrap (pendingNonce nm1 - 1))
    then NewNonceManager (u64_wrap (pendingNonce nm1 - 1)) (initialized nm1) (outstanding nm1) (resetPending nm1)
    else NewNonceManager (pendingNonce nm1) (initialized nm1) (outstanding nm1) true in
  applyPendingResetLocked nm2.

(** [ResetNonce]. *)
Definition ResetNonce (nm : t) : t :=
  applyPendingResetLocked
    (NewNonceManager (pendingNonce nm) (initialized nm) (outstanding nm) true).

(** ** The lease protocol

    Callers take a lease with [NextNonce], give it back exactly once with
    [ReleaseNonce], and may ask for a reset at any time. [leases] and [spent]
    are ghost state: the nonces now held, and the ones reported consumed since
    the counter was last seeded at [base]. EIP-2681 keeps account nonces below
    2^64-1, so the counter does not wrap. *)
Section Protocol.
Context {F : Type} `{NonceFetcher F}.

Record config : Type := Config {
  cfg_nm : t;
  cfg_fetcher : F;
  leases : list Z;
  spent : gset Z;
  base : Z;
}.

Definition initial (c : config) : Prop :=
  cfg_nm c = fresh /\ leases c = [] /\ spent c = ∅.

Inductive step (c : config) : config -> Prop :=
  | step_next n nm' f' :
      NextNonce (cfg_nm c, cfg_fetcher c) = (Ok n, (nm', f')) ->
      0 <= n < u64_max ->
      step c (Config nm' f' (n :: leases c)
               (if initialized (cfg_nm c) then spent c else ∅)
               (if initialized (cfg_nm c) then base c else n))
  | step_next_err e nm' f' :
      NextNonce (cfg_nm c, cfg_fetcher c) = (Err e, (nm', f')) ->
      step c (Config nm' f' (leases c) (spent c) (base c))
  | step_release l1 n l2 consumed :
      leases c = l1 ++ n :: l2 ->
      step c (Config (ReleaseNonce n consumed (cfg_nm c)) (cfg_fetcher c) (l1 ++ l2)
               (if consumed : bool then {[n]} ∪ spent c else spent c) (base c))
  | step_reset :
      step c (Config (ResetNonce (cfg_nm c)) (cfg_fetcher c) (leases c) (spent c) (base c)).

(** What holds while the counter is seeded: leases are distinct and below
    the counter, a consumed nonce is not held, and unless a reset is pending
    every nonce since the seed is accounted for. *)
Record seeded (c : config) : Prop := {
  sd_range : 0 <= base c <= pendingNonce (cfg_nm c) /\ pendingNonce (cfg_nm c) <= u64_max;
  sd_nodup : NoDup (leases c);
  sd_leases : forall n, n ∈ leases c -> base c <= n < pendingNonce (cfg_nm c) /\ n ∉ spent c;
  sd_spent : forall n, n ∈ spent c -> base c <= n < pendingNonce (cfg_nm c);
  sd_full : resetPending (cfg_nm c) = false ->
    forall n, base c <= n < pendingNonce (cfg_nm c) -> n ∈ leases c \/ n ∈ spent c;
}.

Record Inv (c : config) : Prop := {
  inv_count : outstanding (cfg_nm c) = length (leases c);
  inv_unseeded : initialized (cfg_nm c) = false -> leases c = [] /\ resetPending (cfg_nm c) = false;
  inv_pending : resetPending (cfg_nm c) = true -> leases c <> [];
  inv_seeded : initialized (cfg_nm c) = true -> seeded c;
}.

Lemma initial_Inv c : initial c -> Inv c.
Proof. intros (Hn & Hl & Hs). split; rewrite ?Hn, ?Hl; done. Qed.

Lemma NextNonce_spec nm f n nm' f' :
  NextNonce (nm, f) = (Ok n, (nm', f')) ->
  pendingNonce nm' = u64_wrap (n + 1) /\ initialized nm' = true /\
  outstanding nm' = S (outstanding nm) /\ resetPending nm' = resetPending nm /\
  (initialized nm = true -> n = pendingNonce nm /\ f' = f).
Proof. unfold NextNonce. intros. run_go; destruct (initialized nm); naive_solver. Qed.

Lemma NextNonce_err nm f e nm' f' :
  NextNonce (nm, f) = (Err e, (nm', f')) -> nm' = nm /\ initialized nm = false.
Proof. unfold NextNonce. intros. run_go; naive_solver. Qed.
Lemma Inv_next c n nm' f' :
  Inv c ->
  NextNonce (cfg_nm c, cfg_fetcher c) = (Ok n, (nm', f')) ->
  0 <= n < u64_max ->
  Inv (Config nm' f' (n :: leases c)
         (if initialized (cfg_nm c) then spent c else ∅)
         (if initialized (cfg_nm c) then base c else n)).
Proof.
  intros [Hc Hu Hp Hs] Hn Hr.
  apply NextNonce_spec in Hn as (Hpn & Hin & Hout & Hrp & Hold).
  rewrite u64_wrap_id in Hpn by (unfold is_u64; lia).
  split; simpl; rewrite ?Hpn, ?Hin, ?Hout, ?Hrp, ?Hc; try done.
  intros _. destruct (initialized (cfg_nm c)) eqn:Hi.
  - destruct (Hold eq_refl) as [-> ->]. destruct (Hs eq_refl) as [R N L S Fl].
    split; simpl; rewrite ?Hpn, ?Hrp.
    + lia.
    + constructor; [|done]. intros (? & ?)%L; lia.
    + set_unfold. intros m [->|Hm]; [|destruct (L m Hm); split; [lia|done]].
      split; [lia|]. intros ?%S; lia.
    + intros m ?%S; lia.
    + intros Hrp' m Hm. set_unfold. destruct (decide (m = pendingNonce (cfg_nm c))); [auto|].
      destruct (Fl Hrp' m) as [?|?]; [lia|auto|auto].
  - destruct (Hu eq_refl) as [-> Hrp']. split; simpl; rewrite ?Hpn.
    + lia.
    + apply NoDup_singleton.
    + intros m ->%list_elem_of_singleton. split; [lia|]. set_solver.
    + set_solver.
    + intros _ m Hm. left. apply list_elem_of_singleton. lia.
Qed.

(** A release either leaves the counter alone, hands the top nonce back, or
    asks for a reset. *)
Lemma ReleaseNonce_cases n consumed nm :
  (0 < outstanding nm)%nat ->
  let nm' := ReleaseNonce n consumed nm in
  exists nm1, nm' = applyPendingResetLocked nm1 /\
    outstanding nm1 = pred (outstanding nm) /\ initialized nm1 = initialized nm /\
    ((pendingNonce nm1 = pendingNonce nm /\ consumed = true /\ resetPending nm1 = resetPending nm)
     \/ (pendingNonce nm1 = pendingNonce nm /\ consumed = false /\ resetPending nm1 = true)
     \/ (pendingNonce nm1 = n /\ n = u64_wrap (pendingNonce nm - 1) /\ 0 < pendingNonce nm /\
          consumed = false /\ resetPending nm1 = resetPending nm)).
Proof.
  intros Ho. simpl. unfold ReleaseNonce.
  apply Nat.ltb_lt in Ho. rewrite Ho. simpl.
  destruct consumed; [eexists; split; [done|]; naive_solver|].
  destruct (_ && _) eqn:E; reflect_Z; eexists; (split; [done|]); naive_solver.
Qed.

(** Applying a pending reset re-establishes the whole invariant, from the
    part of it that does not depend on the reset. *)
Lemma Inv_applyPending nm f ls sp b :
  outstanding nm = length ls ->
  initialized nm = true ->
  seeded (Config nm f ls sp b) ->
  Inv (Config (applyPendingResetLocked nm) f ls sp b).
Proof.
  intros Hc Hi Hsd. unfold applyPendingResetLocked.
  destruct (resetPending nm) eqn:Hrp; simpl.
  - destruct (Nat.ltb_spec 0 (outstanding nm)) as [Hlt|Hle].
    + split; simpl; try done; [congruence|].
      intros _ ->; simpl in *; lia.
    + destruct ls as [|? ?]; simpl in Hc; [|lia].
      split; simpl; done.
  - split; simpl; try done; congruence.
Qed.

Lemma Inv_release c l1 n l2 (consumed : bool) :
  Inv c -> leases c = l1 ++ n :: l2 ->
  Inv (Config (ReleaseNonce n consumed (cfg_nm c)) (cfg_fetcher c) (l1 ++ l2)
         (if consumed then {[n]} ∪ spent c else spent c) (base c)).
Proof.
  intros [Hc Hu Hp Hs] Hl.
  destruct (initialized (cfg_nm c)) eqn:Hi; 
    [|destruct (Hu eq_refl) as [Hn _]; rewrite Hn in Hl; by destruct l1].
  destruct (Hs eq_refl) as [R N L S Fl]; clear Hs Hu Hp. rewrite Hl in *.
  rewrite length_app in Hc; simpl in Hc.
  destruct (ReleaseNonce_cases n consumed (cfg_nm c)) as (nm1 & -> & Ho & Hi1 & Hcase); [lia|].
  assert (n ∉ l1 ++ l2 /\ NoDup (l1 ++ l2)) as [Hn Hnd].
  { apply NoDup_cons. by rewrite Permutation_middle. }
  assert (forall m, m ∈ l1 ++ n :: l2 <-> m = n \/ m ∈ l1 ++ l2) as Hmem by set_solver.
  setoid_rewrite Hmem in L. setoid_rewrite Hmem in Fl.
  destruct (L n) as [Hnr Hns]; [auto|].
  apply Inv_applyPending; [rewrite Ho, Hc, length_app; lia | congruence | ].
  destruct Hcase as [(Hpn & -> & Hrp)|[(Hpn & -> & Hrp)|(Hpn & Hn1 & Hpos & -> & Hrp)]];
    split; simpl; rewrite ?Hpn, ?Hrp; try done.
  - intros m Hm. destruct (L m) as [? ?]; [auto|]. split; [lia|]. set_solver.
  - intros m [->%elem_of_singleton|?%S]%elem_of_union; lia.
  - intros Hf m Hm. destruct (Fl Hf m Hm) as [[->|?]|?]; set_solver.
  - intros m Hm. apply L; auto.
  - rewrite u64_wrap_id in Hn1 by (unfold is_u64; lia). lia.
  - rewrite u64_wrap_id in Hn1 by (unfold is_u64; lia).
    intros m Hm. destruct (L m) as [? ?]; [auto|]. split; [|done].
    assert (m <> n) by (intros ->; done). lia.
  - rewrite u64_wrap_id in Hn1 by (unfold is_u64; lia).
    intros m Hm. pose proof (S m Hm). assert (m <> n) by (intros ->; done). lia.
  - intros Hf m Hm. destruct (Fl Hf m) as [[->|?]|?]; auto; lia.
Qed.

Lemma Inv_reset c : Inv c ->
  Inv (Config (ResetNonce (cfg_nm c)) (cfg_fetcher c) (leases c) (spent c) (base c)).
Proof.
  intros [Hc Hu Hp Hs]. unfold ResetNonce.
  destruct (initialized (cfg_nm c)) eqn:Hi.
  - destruct (Hs eq_refl) as [R N L S Fl].
    apply Inv_applyPending; [done|done|]. split; simpl; done.
  - destruct (Hu eq_refl) as [Hl _]. rewrite Hl in *. simpl in Hc.
    unfold applyPendingResetLocked. simpl. rewrite Hc. simpl. by split.
Qed.

Lemma reachable_Inv c : reachable initial step c -> Inv c.
Proof.
  apply always_holds; [apply initial_Inv|].
  intros s s' _ HI Hstep. destruct Hstep as [n nm' f' Hn Hr|e nm' f' Hn| |].
  - by apply Inv_next.
  - destruct HI as [? ? ? ?]. apply NextNonce_err in Hn as [-> ?]. split; simpl; [done|done|done|congruence].
  - by eapply Inv_release.
  - by apply Inv_reset.
Qed.

(** C15. No two holders of the key's nonces collide while the counter is
    seeded: at any such time the leased nonces are distinct, none of them was
    reported consumed since the last seed, and the nonce the next call hands
    out is neither leased nor reported consumed since then. What was consumed
    before the seed is up to the pending nonce the node answered it with. *)
Theorem leases_exclusive c :
  reachable initial step c -> initialized (cfg_nm c) = true ->
  NoDup (leases c) /\ (forall n, n ∈ leases c -> n ∉ spent c) /\
  (forall n s', NextNonce (cfg_nm c, cfg_fetcher c) = (Ok n, s') -> n ∉ leases c /\ n ∉ spent c).
Proof.
  intros [_ _ _ Hs]%reachable_Inv Hi. destruct (Hs Hi) as [R N L S _].
  split; [done|]. split; [intros n Hn; by apply L|].
  intros n [nm' f'] Hn. apply NextNonce_spec in Hn as (_ & _ & _ & _ & Hold).
  destruct (Hold Hi) as [-> _]. split; [intros (? & _)%L; lia|intros ?%S; lia].
Qed.

(** The sequence broadcast to the network has no hole unless a re-seed
    is already scheduled: every nonce between the seed and the counter is
    held by somebody or was consumed. *)
Theorem sequence_contiguous c :
  reachable initial step c ->
  initialized (cfg_nm c) = true -> resetPending (cfg_nm c) = false ->
  forall n, base c <= n < pendingNonce (cfg_nm c) <-> n ∈ leases c \/ n ∈ spent c.
Proof.
  intros [_ _ _ Hs]%reachable_Inv Hi Hrp n. destruct (Hs Hi) as [R N L S Fl].
  split; [by apply Fl|]. intros [(? & _)%L|?%S]; lia.
Qed.
End Protocol.

(** Give back a list of leases, each with its [consumed] flag. *)
Definition drain (rs : list (Z * bool)) (nm : t) : t :=
  fold_left (fun nm '(n, consumed) => ReleaseNonce n consumed nm) rs nm.

Lemma ReleaseNonce_pending n consumed nm :
  (1 < outstanding nm)%nat -> resetPending nm = true ->
  outstanding (ReleaseNonce n consumed nm) = pred (outstanding nm) /\
  initialized (ReleaseNonce n consumed nm) = initialized nm /\
  resetPending (ReleaseNonce n consumed nm) = true.
Proof.
  intros Ho Hrp. destruct (ReleaseNonce_cases n consumed nm) as (nm1 & -> & Ho1 & Hi1 & Hc); [lia|].
  assert (resetPending nm1 = true) as Hrp1 by naive_solver.
  unfold applyPendingResetLocked. rewrite Hrp1, Ho1.
  destruct (Nat.ltb_spec 0 (pred (outstanding nm))); [|lia]. by simpl.
Qed.

(** A requested reset is deferred exactly until the leases are back: while
    some but not all of them have been returned the counter stays seeded, and
    returning the last one un-seeds it, so the next call refetches the chain's
    nonce — whatever nonces and outcomes the holders report. *)
Theorem deferred_reset_applies nm rs r :
  resetPending nm = true -> outstanding nm = length (rs ++ [r]) ->
  initialized (drain rs nm) = initialized nm /\
  initialized (drain (rs ++ [r]) nm) = false /\ resetPending (drain (rs ++ [r]) nm) = false.
Proof.
  revert nm. induction rs as [|[n consumed] rs IH]; intros nm Hrp Ho.
  - split; [done|]. destruct r as [n consumed]. simpl in *.
    destruct (ReleaseNonce_cases n consumed nm) as (nm1 & -> & Ho1 & Hi1 & Hc); [lia|].
    assert (resetPending nm1 = true) as Hrp1 by naive_solver.
    unfold applyPendingResetLocked. rewrite Hrp1, Ho1, Ho. done.
  - simpl in Ho. rewrite length_app in Ho; simpl in Ho.
    destruct (ReleaseNonce_pending n consumed nm) as (Ho1 & Hi1 & Hrp1); [lia|done|].
    simpl. rewrite <- Hi1. apply IH; [done|]. rewrite Ho1, Ho, length_app; simpl; lia.
Qed.

(** A scripted fetcher: the answers still to come, most recent first. *)
#[local] Instance scripted_fetcher : NonceFetcher (list Z) := fun f =>
  match f with n :: f' => (Ok n, f') | [] => (Err (errorf "no answer"), []) end.

Definition demo0 : @config (list Z) := Config fresh [42] [] ∅ 0.
Definition demo1 : @config (list Z) := Config (NewNonceManager 43 true 1 false) [] [42] ∅ 42.
Definition demo2 : @config (list Z) := Config (NewNonceManager 44 true 2 false) [] [43; 42] ∅ 42.

Lemma demo2_reachable : reachable initial step demo2.
Proof.
  apply reach_step with demo1; [apply reach_step with demo0|].
  - by apply reach_init.
  - apply (step_next demo0 42); [done|unfold u64_max; lia].
  - apply (step_next demo1 43); [done|unfold u64_max; lia].
Qed.

Lemma leases_exclusive_witness :
  NoDup (leases demo2) /\ (forall n, n ∈ leases demo2 -> n ∉ spent demo2) /\
  (forall n s', NextNonce (cfg_nm demo2, cfg_fetcher demo2) = (Ok n, s') ->
    n ∉ leases demo2 /\ n ∉ spent demo2).
Proof. apply (leases_exclusive demo2 demo2_reachable). reflexivity. Defined.

Lemma sequence_contiguous_witness :
  42 <= 43 < 44 <-> 43 ∈ [43; 42] \/ 43 ∈ (∅ : gset Z).
Proof. exact (sequence_contiguous demo2 demo2_reachable eq_refl eq_refl 43). Defined.

Lemma deferred_reset_applies_witness :
  initialized (drain ([(42, true)] ++ [(43, false)]) (ResetNonce (cfg_nm demo2))) = false.
Proof.
  apply (deferred_reset_applies (ResetNonce (cfg_nm demo2)) [(42, true)] (43, false)); reflexivity.
Defined.

End NonceManager.
