(* ===== verification/ReleaseStore.v ===== *)
(** The release store of [internal/release/store.go] and [tracker.go]: the
    jobs that are completed but not yet released, the reconciler's cursor and
    the scheduler's two timestamps, kept in one JSON file that several
    processes share.

    [Store] is the interface the scheduler, the reconciler and the tracker use;
    [StoreLaws] says what it promises in terms of an abstract [view]; and
    [Module FileStore] is the implementation, down to the system calls. *)
From S2P Require Import Prelude.
From stdpp Require Import sorting.

#[local] Open Scope Z_scope.

(** * Data *)

Record PendingJob : Type := MkPendingJob {
  JobID : Z;
  CompletedAt : Z;
  FailCount : Z;
  BackoffUntil : Z;
}.

#[global] Instance PendingJob_eq_dec : EqDecision PendingJob.
Proof. solve_decision. Defined.

(** [sort.Slice(out, func(i, j) bool { return out[i].JobID < out[j].JobID })]. *)
Definition by_JobID (p q : PendingJob) : Prop := JobID p <= JobID q.

#[global] Instance by_JobID_dec p q : Decision (by_JobID p q).
Proof. unfold by_JobID. apply _. Defined.
#[global] Instance by_JobID_total : Total by_JobID.
Proof. intros p q. unfold by_JobID. lia. Qed.
#[global] Instance by_JobID_trans : Transitive by_JobID.
Proof. intros p q r. unfold by_JobID. lia. Qed.

Definition sort_by_JobID (l : list PendingJob) : list PendingJob := merge_sort by_JobID l.

Definition has_job (id : Z) (l : list PendingJob) : bool :=
  existsb (fun p => JobID p =? id) l.

(** The loop of [RecordFailure]: the first entry with the id, if there is one. *)
Fixpoint bump_failure (id until : Z) (l : list PendingJob) : option (list PendingJob) :=
  match l with
  | [] => None
  | p :: l' =>
      if JobID p =? id
      then Some (MkPendingJob (JobID p) (CompletedAt p) (i64_wrap (FailCount p + 1)) until :: l')
      else cons p <$> bump_failure id until l'
  end.

(** * The interface *)

Class Store (W : Type) := {
  AddEligible : Z -> Z -> io W unit;
  Pending : io W (list PendingJob);
  Remove : list Z -> io W unit;
  RecordFailure : Z -> Z -> io W unit;
  GetReconcileBlock : io W Z;
  SetReconcileBlock : Z -> io W unit;
  GetLastReleaseTs : io W Z;
  SetLastReleaseTs : Z -> io W unit;
  GetNextAllowedAttempt : io W Z;
  SetNextAllowedAttempt : Z -> io W unit;
}.

(** [Tracker.MarkEligible]. *)
Definition MarkEligible {W} `{Store W} (jobID completedAt : Z) : io W unit :=
  AddEligible jobID completedAt.

(** ** What the interface promises

    A store holds a [view]; each operation has a specification on views. An
    operation that reports success has done exactly what its specification
    says, one that reports an error has changed nothing, and in a healthy
    store only the refusals of the specification are errors. *)

Record view : Type := View {
  v_pending : list PendingJob;
  v_cursor : Z;
  v_last : Z;
  v_gate : Z;
}.

Definition v_jobs (v : view) : list Z := JobID <$> v_pending v.

Definition spec_AddEligible (id t : Z) (v : view) : option (unit * view) :=
  Some (tt, if has_job id (v_pending v) then v
            else View (v_pending v ++ [MkPendingJob id t 0 0]) (v_cursor v) (v_last v) (v_gate v)).
Definition spec_Pending (v : view) : option (list PendingJob * view) :=
  Some (sort_by_JobID (v_pending v), v).
Definition spec_Remove (ids : list Z) (v : view) : option (unit * view) :=
  Some (tt, View (filter (fun p => JobID p ∉ ids) (v_pending v)) (v_cursor v) (v_last v) (v_gate v)).
Definition spec_RecordFailure (id until : Z) (v : view) : option (unit * view) :=
  Some (tt, match bump_failure id until (v_pending v) with
            | Some l => View l (v_cursor v) (v_last v) (v_gate v)
            | None => v
            end).
Definition spec_GetReconcileBlock (v : view) : option (Z * view) := Some (v_cursor v, v).
Definition spec_SetReconcileBlock (b : Z) (v : view) : option (unit * view) :=
  if b <? v_cursor v then None else Some (tt, View (v_pending v) b (v_last v) (v_gate v)).
Definition spec_SeedReconcileBlock (b : Z) (v : view) : option (bool * view) :=
  Some (if negb (v_cursor v =? 0) then (false, v)
        else (true, View (v_pending v) b (v_last v) (v_gate v))).
Definition spec_GetLastReleaseTs (v : view) : option (Z * view) := Some (v_last v, v).
Definition spec_SetLastReleaseTs (t : Z) (v : view) : option (unit * view) :=
  Some (tt, View (v_pending v) (v_cursor v) t (v_gate v)).
Definition spec_GetNextAllowedAttempt (v : view) : option (Z * view) := Some (v_gate v, v).
Definition spec_SetNextAllowedAttempt (t : Z) (v : view) : option (unit * view) :=
  Some (tt, View (v_pending v) (v_cursor v) (v_last v) t).

Class StoreView (W : Type) := {
  store_view : W -> option view;
  store_healthy : W -> Prop;
}.

Section Implements.
Context {W : Type} `{StoreView W}.

Definition implements {A} (op : io W A) (spec : view -> option (A * view)) : Prop :=
  forall w v, store_view w = Some v ->
    match op w with
    | (Ok a, w') => exists v', spec v = Some (a, v') /\ store_view w' = Some v'
    | (Err _, w') => store_view w' = Some v
    end /\
    (store_healthy w -> store_healthy (final op w) /\
       (is_Some (spec v) -> is_ok (value op w) = true)).

Lemma implements_ok {A} (op : io W A) spec w v a w' :
  implements op spec -> store_view w = Some v -> op w = (Ok a, w') ->
  exists v', spec v = Some (a, v') /\ store_view w' = Some v'.
Proof. intros Hi Hv Ho. destruct (Hi w v Hv) as [Hc _]. by rewrite Ho in Hc. Qed.

Lemma implements_err {A} (op : io W A) spec w v e w' :
  implements op spec -> store_view w = Some v -> op w = (Err e, w') -> store_view w' = Some v.
Proof. intros Hi Hv Ho. destruct (Hi w v Hv) as [Hc _]. by rewrite Ho in Hc. Qed.
End Implements.

Class StoreLaws (W : Type) `{Store W, StoreView W} : Prop := {
  law_AddEligible id t : implements (AddEligible id t) (spec_AddEligible id t);
  law_Pending : implements Pending spec_Pending;
  law_Remove ids : implements (Remove ids) (spec_Remove ids);
  law_RecordFailure id u : implements (RecordFailure id u) (spec_RecordFailure id u);
  law_GetReconcileBlock : implements GetReconcileBlock spec_GetReconcileBlock;
  law_SetReconcileBlock b : implements (SetReconcileBlock b) (spec_SetReconcileBlock b);
  law_GetLastReleaseTs : implements GetLastReleaseTs spec_GetLastReleaseTs;
  law_SetLastReleaseTs t : implements (SetLastReleaseTs t) (spec_SetLastReleaseTs t);
  law_GetNextAllowedAttempt : implements GetNextAllowedAttempt spec_GetNextAllowedAttempt;
  law_SetNextAllowedAttempt t : implements (SetNextAllowedAttempt t) (spec_SetNextAllowedAttempt t);
}.

(** * The file store *)

Module FileStore.

Definition SchemaVersion : Z := 2.

Record Snapshot : Type := MkSnapshot {
  snap_SchemaVersion : Z;
  snap_ChainID : Z;
  snap_JobRegistry : string;
  snap_WorkerAddress : string;
  snap_Pending : list PendingJob;
  snap_LastReconciledBlock : Z;
  snap_LastReleaseTs : Z;
  snap_NextAllowedAttempt : Z;
}.

(** ** The file system

    The bytes of a file are empty, not JSON of the schema, or a snapshot. A
    file is [synced] when its bytes are known to survive a power loss. The
    [script] lists the outcomes of the system calls still to come: [Some msg]
    is a failure, and past its end every call succeeds. [history] is ghost
    state: the data file as a crash right after each system call leaves it. *)
Inductive content : Type := Zero | Garbage | Json (s : Snapshot).

Record file : Type := MkFile { bytes : content; synced : bool }.

Record fs : Type := MkFS {
  data : option file;
  temp : option file;
  script : list (option string);
  history : list (option file);
}.

Definition set_data (d : option file) (w : fs) : fs := MkFS d (temp w) (script w) (history w).
Definition set_temp (t : option file) (w : fs) : fs := MkFS (data w) t (script w) (history w).

Definition noop (w : fs) : fs := w.

Definition syscall (effect on_failure : fs -> fs) : io fs unit := fun w =>
  let log w' := MkFS (data w') (temp w') (tl (script w)) (data w' :: history w) in
  match hd None (script w) with
  | None => (Ok tt, log (effect w))
  | Some msg => (Err (errorf msg), log (on_failure w))
  end.

Definition sys_create : io fs unit :=
  syscall (set_temp (Some (MkFile Zero false))) noop.
Definition sys_write (c : content) : io fs unit :=
  syscall (set_temp (Some (MkFile c false))) (set_temp (Some (MkFile Garbage false))).
Definition sys_chmod : io fs unit := syscall noop noop.
Definition sys_fsync : io fs unit :=
  syscall (fun w => set_temp ((fun f => MkFile (bytes f) true) <$> temp w) w) noop.
Definition sys_close : io fs unit := syscall noop noop.
Definition sys_rename : io fs unit :=
  syscall (fun w => set_temp None (set_data (temp w) w)) noop.
Definition sys_remove : io fs unit := syscall (set_temp None) noop.

(** [flock] touches no file; the kind of the lock says who may hold it at the
    same time. *)
Inductive lock : Type := LOCK_SH | LOCK_EX | LOCK_UN.
Definition lock_number (l : lock) : string :=
  match l with LOCK_SH => "1" | LOCK_EX => "2" | LOCK_UN => "8" end.
Definition sys_flock (lockType : lock) : io fs unit := syscall noop noop.


(** [os.ReadFile]. *)
Definition sys_read : io fs content :=
  let? _ := syscall noop noop in
  fun w => match data w with
           | None => (Err (errors_New ErrNotExist "file does not exist"), w)
           | Some f => (Ok (bytes f), w)
           end.

(** [_ = c()]. *)
Definition ignoring (c : io fs unit) : st fs unit := fun w => (tt, snd (c w)).

(** Run [undo] when [c] fails; the error stays [c]'s. *)
Definition or_undo (undo : st fs unit) (c : io fs unit) : io fs unit := fun w =>
  match c w with
  | (Err e, w') => (Err e, snd (undo w'))
  | r => r
  end.

Definition cleanup : st fs unit := let! _ := ignoring sys_close in ignoring sys_remove.

Section Operations.
Context `{AddressOps}.

Record StoreIdentity : Type := MkIdentity {
  id_ChainID : Z;
  id_JobRegistry : Address;
  id_WorkerAddress : Address;
}.

Record FileStore : Type := MkStore {
  identity : StoreIdentity;
  lockFile : bool;
  closed : bool;
  disk : fs;
}.

Definition set_disk (d : fs) (s : FileStore) : FileStore :=
  MkStore (identity s) (lockFile s) (closed s) d.

(** *** Reading *)

Definition addrEqualHex (stored : string) (want : Address) : bool :=
  if negb (IsHexAddress stored) then false
  else bool_decide (HexToAddress stored = want).

Definition readSnapshotLocked : io fs Snapshot :=
  let? data := sys_read in
  match data with
  | Zero => io_err (errors_New ErrEmptySnapshot "release store snapshot is empty")
  | Garbage => io_err (errorf "unmarshal release state")
  | Json snap => io_ret snap
  end.

Definition verifyIdentityLocked (id : StoreIdentity) (snap : Snapshot) : result unit :=
  if negb (snap_SchemaVersion snap =? SchemaVersion)
  then Err (errors_New ErrSchemaVersionMismatch "release store schema version mismatch")
  else if negb (snap_ChainID snap =? id_ChainID id)
  then Err (errors_New ErrIdentityMismatch "release store identity mismatch: chain_id")
  else if negb (addrEqualHex (snap_JobRegistry snap) (id_JobRegistry id))
  then Err (errors_New ErrIdentityMismatch "release store identity mismatch: job_registry")
  else if negb (addrEqualHex (snap_WorkerAddress snap) (id_WorkerAddress id))
  then Err (errors_New ErrIdentityMismatch "release store identity mismatch: worker_address")
  else Ok tt.

Definition io_lift {W A} (r : result A) : io W A := fun w => (r, w).

Definition loadVerifiedLocked (id : StoreIdentity) : io fs Snapshot :=
  let? snap := readSnapshotLocked in
  let? _ := io_lift (verifyIdentityLocked id snap) in
  io_ret snap.

(** *** Writing *)

Definition emptySnapshot (id : StoreIdentity) : Snapshot :=
  MkSnapshot SchemaVersion (id_ChainID id) (Hex (id_JobRegistry id)) (Hex (id_WorkerAddress id))
    [] 0 0 0.

Definition pinned (id : StoreIdentity) (snap : Snapshot) : Snapshot :=
  MkSnapshot SchemaVersion (id_ChainID id) (Hex (id_JobRegistry id)) (Hex (id_WorkerAddress id))
    (snap_Pending snap) (snap_LastReconciledBlock snap)
    (snap_LastReleaseTs snap) (snap_NextAllowedAttempt snap).

Definition writeSnapshotLocked (id : StoreIdentity) (snap0 : Snapshot) : io fs unit :=
  let snap := pinned id snap0 in
  let? _ := sys_create wrapping "create temp release state" in
  let? _ := or_undo cleanup (sys_write (Json snap)) wrapping "write temp release state" in
  let? _ := or_undo cleanup sys_chmod wrapping "chmod temp release state" in
  let? _ := or_undo cleanup sys_fsync wrapping "sync temp release state" in
  let? _ := or_undo (ignoring sys_remove) sys_close wrapping "close temp release state" in
  let? _ := or_undo (ignoring sys_remove) sys_rename wrapping "rename release state" in
  let! _ := ignoring (syscall noop noop) in
  io_ret tt.

(** *** Locking *)

Definition withLock {A} (lockType : lock) (fn : StoreIdentity -> io fs A) : io FileStore A := fun s =>
  if closed s || negb (lockFile s) then (Err (errorf "release store closed"), s)
  else match sys_flock lockType (disk s) with
       | (Err e, d) => (Err (wrap ("flock(" +:+ lock_number lockType +:+ ")") e), set_disk d s)
       | (Ok _, d) =>
           let '(r, d') := fn (identity s) d in
           (r, set_disk (snd (ignoring (sys_flock LOCK_UN) d')) s)
       end.
Definition withSharedLock {A} (fn : StoreIdentity -> io fs A) : io FileStore A := withLock LOCK_SH fn.
Definition withExclusiveLock {A} (fn : StoreIdentity -> io fs A) : io FileStore A := withLock LOCK_EX fn.

(** *** The methods *)

Definition upd_pending (l : list PendingJob) (s : Snapshot) : Snapshot :=
  MkSnapshot (snap_SchemaVersion s) (snap_ChainID s) (snap_JobRegistry s) (snap_WorkerAddress s)
    l (snap_LastReconciledBlock s) (snap_LastReleaseTs s) (snap_NextAllowedAttempt s).
Definition upd_cursor (b : Z) (s : Snapshot) : Snapshot :=
  MkSnapshot (snap_SchemaVersion s) (snap_ChainID s) (snap_JobRegistry s) (snap_WorkerAddress s)
    (snap_Pending s) b (snap_LastReleaseTs s) (snap_NextAllowedAttempt s).
Definition upd_last (t : Z) (s : Snapshot) : Snapshot :=
  MkSnapshot (snap_SchemaVersion s) (snap_ChainID s) (snap_JobRegistry s) (snap_WorkerAddress s)
    (snap_Pending s) (snap_LastReconciledBlock s) t (snap_NextAllowedAttempt s).
Definition upd_gate (t : Z) (s : Snapshot) : Snapshot :=
  MkSnapshot (snap_SchemaVersion s) (snap_ChainID s) (snap_JobRegistry s) (snap_WorkerAddress s)
    (snap_Pending s) (snap_LastReconciledBlock s) (snap_LastReleaseTs s) t.

Definition AddEligible (jobID completedAt : Z) : io FileStore unit :=
  withExclusiveLock (fun id =>
    let? snap := loadVerifiedLocked id in
    if has_job jobID (snap_Pending snap) then io_ret tt
    else writeSnapshotLocked id
           (upd_pending (snap_Pending snap ++ [MkPendingJob jobID completedAt 0 0]) snap)).

(** The read-only methods check the identity with the same two calls as
    [loadVerifiedLocked], written out in each of them. *)
Definition Pending : io FileStore (list PendingJob) :=
  let? out := withSharedLock (fun id =>
    let? snap := readSnapshotLocked in
    let? _ := io_lift (verifyIdentityLocked id snap) in
    io_ret (snap_Pending snap)) in
  io_ret (sort_by_JobID out).

Definition Remove (jobIDs : list Z) : io FileStore unit :=
  if bool_decide (jobIDs = []) then io_ret tt
  else withExclusiveLock (fun id =>
    let? snap := loadVerifiedLocked id in
    writeSnapshotLocked id
      (upd_pending (filter (fun p => JobID p ∉ jobIDs) (snap_Pending snap)) snap)).

Definition RecordFailure (jobID backoffUntil : Z) : io FileStore unit :=
  withExclusiveLock (fun id =>
    let? snap := loadVerifiedLocked id in
    match bump_failure jobID backoffUntil (snap_Pending snap) with
    | None => io_ret tt
    | Some l => writeSnapshotLocked id (upd_pending l snap)
    end).

Definition GetReconcileBlock : io FileStore Z :=
  withSharedLock (fun id =>
    let? snap := readSnapshotLocked in
    let? _ := io_lift (verifyIdentityLocked id snap) in
    io_ret (snap_LastReconciledBlock snap)).

Definition SetReconcileBlock (block : Z) : io FileStore unit :=
  withExclusiveLock (fun id =>
    let? snap := loadVerifiedLocked id in
    if block <? snap_LastReconciledBlock snap
    then io_err (errorf "SetReconcileBlock: refusing to move cursor backward")
    else writeSnapshotLocked id (upd_cursor block snap)).

Definition SeedReconcileBlock (block : Z) : io FileStore bool :=
  withExclusiveLock (fun id =>
    let? snap := loadVerifiedLocked id in
    if negb (snap_LastReconciledBlock snap =? 0) then io_ret false
    else
      let? _ := writeSnapshotLocked id (upd_cursor block snap) in
      io_ret true).

Definition GetLastReleaseTs : io FileStore Z :=
  withSharedLock (fun id =>
    let? snap := readSnapshotLocked in
    let? _ := io_lift (verifyIdentityLocked id snap) in
    io_ret (snap_LastReleaseTs snap)).

Definition SetLastReleaseTs (ts : Z) : io FileStore unit :=
  withExclusiveLock (fun id =>
    let? snap := loadVerifiedLocked id in
    writeSnapshotLocked id (upd_last ts snap)).

Definition GetNextAllowedAttempt : io FileStore Z :=
  withSharedLock (fun id =>
    let? snap := readSnapshotLocked in
    let? _ := io_lift (verifyIdentityLocked id snap) in
    io_ret (snap_NextAllowedAttempt snap)).

Definition SetNextAllowedAttempt (ts : Z) : io FileStore unit :=
  withExclusiveLock (fun id =>
    let? snap := loadVerifiedLocked id in
    writeSnapshotLocked id (upd_gate ts snap)).

(** [Close] is idempotent; the descriptor is gone even when closing fails. *)
Definition Close : io FileStore unit := fun s =>
  if closed s then (Ok tt, s)
  else
    let s1 := MkStore (identity s) (lockFile s) true (disk s) in
    if lockFile s1 then
      let '(r, d) := io_wrap "close release store lock file" sys_close (disk s1) in
      (r, MkStore (identity s1) false true d)
    else (Ok tt, s1).

(** The closure [NewFileStore] runs under the exclusive lock. *)
Definition verify_or_init (id : StoreIdentity) : io fs unit := fun d =>
  match readSnapshotLocked d with
  | (Err err, d') =>
      if errors_Is err ErrNotExist
      then writeSnapshotLocked id (emptySnapshot id) d'
      else (Err err, d')
  | (Ok snap, d') => (verifyIdentityLocked id snap, d')
  end.

(** [NewFileStore]. The two calls before the lock are [os.MkdirAll] and
    [os.OpenFile] of the lock file. *)
Definition NewFileStore (path : string) (id : StoreIdentity) : io fs FileStore := fun d =>
  if bool_decide (path = ""%string) then (Err (errorf "release store path must not be empty"), d)
  else if id_ChainID id =? 0
  then (Err (errorf "release store identity.ChainID must be non-zero"), d)
  else if bool_decide (id_WorkerAddress id = zero_address)
  then (Err (errorf "release store identity.WorkerAddress must be non-zero"), d)
  else if bool_decide (id_JobRegistry id = zero_address)
  then (Err (errorf "release store identity.JobRegistry must be non-zero"), d)
  else
    (let? _ := syscall noop noop wrapping "create release store dir" in
     let? _ := syscall noop noop wrapping "open lock file" in
     fun d =>
       match withExclusiveLock verify_or_init (MkStore id true false d) with
       | (Err err, s) => (Err err, snd (ignoring sys_close (disk s)))
       | (Ok _, s) => (Ok s, disk s)
       end) d.

#[global] Instance FileStore_Store : Store FileStore := {|
  ReleaseStore.AddEligible := AddEligible;
  ReleaseStore.Pending := Pending;
  ReleaseStore.Remove := Remove;
  ReleaseStore.RecordFailure := RecordFailure;
  ReleaseStore.GetReconcileBlock := GetReconcileBlock;
  ReleaseStore.SetReconcileBlock := SetReconcileBlock;
  ReleaseStore.GetLastReleaseTs := GetLastReleaseTs;
  ReleaseStore.SetLastReleaseTs := SetLastReleaseTs;
  ReleaseStore.GetNextAllowedAttempt := GetNextAllowedAttempt;
  ReleaseStore.SetNextAllowedAttempt := SetNextAllowedAttempt;
|}.

(** ** The view of a file store

    [snapshot_of id d] is the snapshot the data file holds, when it is one of
    ours. *)
Definition snapshot_of (id : StoreIdentity) (d : fs) : option Snapshot :=
  match data d with
  | Some (MkFile (Json snap) _) =>
      if is_ok (verifyIdentityLocked id snap) then Some snap else None
  | _ => None
  end.

Definition view_of (s : Snapshot) : view :=
  View (snap_Pending s) (snap_LastReconciledBlock s) (snap_LastReleaseTs s) (snap_NextAllowedAttempt s).

#[global] Instance FileStore_view : StoreView FileStore := {|
  store_view := fun s => view_of <$> snapshot_of (identity s) (disk s);
  store_healthy := fun s => closed s = false /\ lockFile s = true /\ script (disk s) = [];
|}.

(** ** Writing the data file *)

(** [evolves ok d d']: from [d] to [d'] every crash point leaves a data file
    that satisfies [ok], and a fault-free script stays fault-free. *)
Definition evolves (ok : option file -> Prop) (d d' : fs) : Prop :=
  (exists h, history d' = h ++ history d /\ Forall ok h) /\
  (script d = [] -> script d' = []).

Lemma evolves_trans ok d1 d2 d3 : evolves ok d1 d2 -> evolves ok d2 d3 -> evolves ok d1 d3.
Proof.
  intros [(h1 & H1 & F1) S1] [(h2 & H2 & F2) S2]. split; [|auto].
  exists (h2 ++ h1). rewrite H2, H1, app_assoc. split; [done|]. by apply Forall_app.
Qed.

Lemma evolves_weaken (ok ok' : option file -> Prop) d d' :
  (forall f, ok f -> ok' f) -> evolves ok d d' -> evolves ok' d d'.
Proof. intros Hw [(h & Hh & F) Hs]. split; [|done]. exists h. split; [done|]. by eapply Forall_impl. Qed.

Lemma evolves_by ok d d' h :
  history d' = h ++ history d -> Forall ok h -> (script d = [] -> script d' = []) -> evolves ok d d'.
Proof. intros ? ? ?. split; [by exists h|done]. Qed.

(** The entries [l] has in front of [l0]. *)
Ltac prefix_of l l0 :=
  lazymatch l with
  | l0 => constr:(@nil (option file))
  | ?x :: ?l' => let p := prefix_of l' l0 in constr:(x :: p)
  end.

Ltac crash_points :=
  match goal with
  | |- evolves _ ?d ?d' =>
      let h := eval cbn [history] in (history d') in
      let p := prefix_of h (history d) in
      apply (evolves_by _ _ _ p); [done|repeat (constructor; [by auto|]); constructor|cbn; by intros ->]
  end.

(** [writeSnapshotLocked] from its parts: while it prepares the temporary
    file the data file stays as it was; the rename puts a complete, synced
    file in its place, and nothing after it can fail. *)
Lemma write_spec id snap d r d' :
  writeSnapshotLocked id snap d = (r, d') ->
  let new := Some (MkFile (Json (pinned id snap)) true) in
  evolves (fun f => f = data d \/ f = new) d d' /\
  match r with Ok _ => data d' = new | Err _ => data d' = data d end /\
  (script d = [] -> is_ok r = true).
Proof.
  unfold writeSnapshotLocked, or_undo, cleanup, ignoring, sys_create, sys_write, sys_chmod,
    sys_fsync, sys_close, sys_rename, sys_remove, syscall, set_temp, set_data, noop.
  intros E. run_go.
  all: split; [crash_points|split; [done|]].
  all: intros Hs; rewrite Hs in *; done.
Qed.

Lemma read_spec d r d' :
  readSnapshotLocked d = (r, d') ->
  data d' = data d /\ evolves (eq (data d)) d d' /\
  match r with
  | Ok snap => exists b, data d = Some (MkFile (Json snap) b)
  | Err e => (errors_Is e ErrNotExist = true -> data d = None) /\
             (script d = [] -> forall snap b, data d <> Some (MkFile (Json snap) b))
  end.
Proof.
  unfold readSnapshotLocked, sys_read, syscall, noop.
  intros E. run_go.
  all: split; [done|split; [crash_points|]].
  all: try (split; [intros HN; by vm_compute in HN|intros Hs; rewrite Hs in *; done]).
  all: cbn in *; destruct (data d) as [[? ?]|]; simplify_eq/=; try (by eexists); by split.
Qed.

(** Every snapshot the store writes is one of ours. *)
Lemma verify_pinned `{!AddressLaws _} id snap : verifyIdentityLocked id (pinned id snap) = Ok tt.
Proof.
  unfold verifyIdentityLocked, addrEqualHex; simpl.
  rewrite !Z.eqb_refl, !IsHex_Hex, !HexToAddress_Hex; simpl.
  by rewrite !bool_decide_eq_true_2.
Qed.

Lemma verify_not_exist id snap e :
  verifyIdentityLocked id snap = Err e -> errors_Is e ErrNotExist = false.
Proof. unfold verifyIdentityLocked. intros. run_go. Qed.

(** ** Refinement

    What one method does to the disk of an identity whose data file holds
    [snap], as a relation between the fault-free run and the specification. *)
Lemma load_spec id d snap r d' :
  snapshot_of id d = Some snap ->
  loadVerifiedLocked id d = (r, d') ->
  data d' = data d /\ evolves (eq (data d)) d d' /\
  (script d = [] -> is_ok r = true) /\ (forall s, r = Ok s -> s = snap).
Proof.
  unfold snapshot_of, loadVerifiedLocked, io_lift. intros Hs E.
  destruct (data d) as [[[| |s0] b]|] eqn:Hd; try done.
  destruct (is_ok (verifyIdentityLocked id s0)) eqn:Hv; [|done]. injection Hs as ->.
  rewrite <- Hd. unfold io_bind in E.
  destruct (readSnapshotLocked d) as [[s|e] d1] eqn:Er; simplify_eq/=;
    destruct (read_spec _ _ _ Er) as (H1 & V1 & H2).
  - destruct H2 as [b' H2]. rewrite Hd in H2. injection H2 as <- <-.
    destruct (verifyIdentityLocked id snap); [|done]. injection E as <- <-.
    split; [done|]. split; [done|]. split; [done|]. by intros s' [= ->].
  - split; [done|]. split; [done|]. split; [|done]. intros Hs. by destruct (proj2 H2 Hs snap b Hd).
Qed.

Lemma flock_spec l d r d' :
  sys_flock l d = (r, d') ->
  data d' = data d /\ evolves (eq (data d)) d d' /\ (script d = [] -> is_ok r = true).
Proof.
  unfold sys_flock, syscall, noop. intros E. run_go.
  all: split; [done|split; [crash_points|]]; intros Hs; by rewrite Hs in *.
Qed.

(** What the pure part of a method decides to do with the snapshot it read. *)
Inductive decision (A : Type) : Type :=
  | Answer (a : A)
  | Write (s : Snapshot) (a : A)
  | Refuse (e : error).
Arguments Answer {A} a.
Arguments Write {A} s a.
Arguments Refuse {A} e.

Definition run_decision {A} (id : StoreIdentity) (c : decision A) : io fs A :=
  match c with
  | Answer a => io_ret a
  | Write s a => let? _ := writeSnapshotLocked id s in io_ret a
  | Refuse e => io_err e
  end.

Definition spec_of {A} (v : view) (c : decision A) : option (A * view) :=
  match c with
  | Answer a => Some (a, v)
  | Write s a => Some (a, view_of s)
  | Refuse _ => None
  end.

(** [fn] reads the snapshot, checks that it is ours, and acts on it. *)
Definition method {A} (dec : Snapshot -> decision A) (id : StoreIdentity) : io fs A :=
  let? snap := loadVerifiedLocked id in run_decision id (dec snap).

Lemma decision_spec {A} id d snap (c : decision A) r d' :
  snapshot_of id d = Some snap -> run_decision id c d = (r, d') ->
  match r with
  | Ok a => match c with
            | Answer a' => a = a' /\ data d' = data d
            | Write s a' => a = a' /\ data d' = Some (MkFile (Json (pinned id s)) true)
            | Refuse _ => False
            end
  | Err _ => data d' = data d
  end /\
  (script d = [] -> script d' = [] /\ (is_Some (spec_of (view_of snap) c) -> is_ok r = true)).
Proof.
  intros Hs. destruct c as [a|s a|e]; simpl.
  - by intros [= <- <-].
  - unfold io_bind. destruct (writeSnapshotLocked id s d) as [w d1] eqn:E.
    apply write_spec in E as ((_ & Hscr) & Hd & Hok).
    destruct w as [[]|e]; intros [= <- <-]; (split; [done|]); intros H0; (split; [auto|]); [done|].
    by specialize (Hok H0).
  - intros [= <- <-]. split; [done|]. intros. split; [done|]. by intros [? ?].
Qed.

Lemma method_spec {A} id d snap (dec : Snapshot -> decision A) r d' :
  snapshot_of id d = Some snap -> method dec id d = (r, d') ->
  match r with
  | Ok a => match dec snap with
            | Answer a' => a = a' /\ data d' = data d
            | Write s a' => a = a' /\ data d' = Some (MkFile (Json (pinned id s)) true)
            | Refuse _ => False
            end
  | Err _ => data d' = data d
  end /\
  (script d = [] ->
     script d' = [] /\ (is_Some (spec_of (view_of snap) (dec snap)) -> is_ok r = true)).
Proof.
  intros Hs. unfold method, io_bind. destruct (loadVerifiedLocked id d) as [rl d1] eqn:El.
  destruct (load_spec _ _ _ _ _ Hs El) as (Hd & (_ & Hscr) & Hok & Hval).
  destruct rl as [s1|e].
  - rewrite (Hval s1 eq_refl). intros Er.
    assert (snapshot_of id d1 = Some snap) as Hs1 by (unfold snapshot_of in *; by rewrite Hd).
    destruct (decision_spec _ _ _ _ _ _ Hs1 Er) as [Hr Hh]. rewrite Hd in Hr.
    split; [done|]. intros H0. by apply Hh, Hscr.
  - intros [= <- <-]. split; [done|]. intros H0. by specialize (Hok H0).
Qed.

Lemma snapshot_of_written `{!AddressLaws _} id d s b :
  data d = Some (MkFile (Json (pinned id s)) b) -> snapshot_of id d = Some (pinned id s).
Proof. unfold snapshot_of. intros ->. by rewrite verify_pinned. Qed.

Lemma withLock_implements `{!AddressLaws _} {A} l (fn : StoreIdentity -> io fs A)
    (dec : Snapshot -> decision A) (spec : view -> option (A * view)) :
  (forall id d, fn id d = method dec id d) ->
  (forall s, spec (view_of s) = spec_of (view_of s) (dec s)) ->
  implements (withLock l fn) spec.
Proof.
  intros Hfn Hspec s v Hv. simpl in Hv.
  destruct (snapshot_of (identity s) (disk s)) as [snap|] eqn:Hsn; [|done].
  injection Hv as <-. rewrite Hspec. unfold withLock, final, value, store_healthy; simpl.
  destruct (closed s || negb (lockFile s)) eqn:Hc.
  { simpl. rewrite Hsn. split; [done|]. intros (Hcl & Hl & _). by rewrite Hcl, Hl in Hc. }
  destruct (sys_flock l (disk s)) as [[u|e] d1] eqn:E1; apply flock_spec in E1 as (D1 & (_ & S1) & O1).
  2:{ simpl. unfold snapshot_of in *. rewrite D1, Hsn. split; [done|].
      intros (? & ? & H0). by specialize (O1 H0). }
  destruct (fn (identity s) d1) as [r d2] eqn:E2. rewrite Hfn in E2.
  assert (snapshot_of (identity s) d1 = Some snap) as Hs1 by (unfold snapshot_of in *; by rewrite D1).
  destruct (method_spec _ _ _ _ _ _ Hs1 E2) as [Hr Hh]. simpl.
  destruct (ignoring (sys_flock LOCK_UN) d2) as [u3 d3] eqn:E3. unfold ignoring in E3.
  destruct (sys_flock LOCK_UN d2) as [r3 d3'] eqn:E3'. injection E3 as <- <-.
  apply flock_spec in E3' as (D3 & (_ & S3) & _). simpl. split.
  - destruct r as [a|e]; simpl.
    + destruct (dec snap); [| |done]; destruct Hr as [-> Hr]; simpl; eexists; (split; [done|]).
      * unfold snapshot_of in *. by rewrite D3, Hr, Hs1.
      * erewrite snapshot_of_written by (by rewrite D3). done.
    + unfold snapshot_of in *. by rewrite D3, Hr, Hs1.
  - intros (Hcl & Hl & H0). specialize (Hh (S1 H0)) as [H2 Hok]. auto.
Qed.

(** Where a crash in the middle of the operation leaves the data file: as it
    was, or synced with the view the specification ends with. *)
Definition recoverable {A} (id : StoreIdentity) (d : fs) (res : option (A * view)) (f : option file) : Prop :=
  f = data d \/
  exists a v' s, res = Some (a, v') /\ view_of s = v' /\ f = Some (MkFile (Json (pinned id s)) true).

Lemma method_crash {A} id d snap (dec : Snapshot -> decision A) r d' :
  snapshot_of id d = Some snap -> method dec id d = (r, d') ->
  evolves (recoverable id d (spec_of (view_of snap) (dec snap))) d d'.
Proof.
  intros Hs. unfold method, io_bind. destruct (loadVerifiedLocked id d) as [rl d1] eqn:El.
  destruct (load_spec _ _ _ _ _ Hs El) as (Hd & Hv & _ & Hval).
  assert (evolves (recoverable id d (spec_of (view_of snap) (dec snap))) d d1) as Hv1.
  { eapply evolves_weaken; [|exact Hv]. intros f <-. by left. }
  destruct rl as [s1|e]; [rewrite (Hval s1 eq_refl)|by intros [= <- <-]].
  destruct (dec snap) as [a|s a|e]; simpl; [by intros [= <- <-]| |by intros [= <- <-]].
  unfold io_bind. destruct (writeSnapshotLocked id s d1) as [w d2] eqn:Ew.
  apply write_spec in Ew as (Hv2 & _). intros Hr.
  assert (d' = d2) as -> by (by destruct w; injection Hr).
  eapply evolves_trans; [exact Hv1|]. eapply evolves_weaken; [|exact Hv2].
  intros f [->| ->]; [left; congruence|right; by exists a, (view_of s), s].
Qed.

(** [op] refines [spec], and survives a crash at any point. *)
Definition atomic {A} (op : io FileStore A) (spec : view -> option (A * view)) : Prop :=
  implements op spec /\
  forall s v, store_view s = Some v ->
    evolves (recoverable (identity s) (disk s) (spec v)) (disk s) (disk (final op s)).

Lemma withLock_atomic `{!AddressLaws _} {A} l (fn : StoreIdentity -> io fs A)
    (dec : Snapshot -> decision A) (spec : view -> option (A * view)) :
  (forall id d, fn id d = method dec id d) ->
  (forall s, spec (view_of s) = spec_of (view_of s) (dec s)) ->
  atomic (withLock l fn) spec.
Proof.
  intros Hfn Hspec. split; [by eapply withLock_implements|].
  intros s v Hv. simpl in Hv.
  destruct (snapshot_of (identity s) (disk s)) as [snap|] eqn:Hsn; [|done].
  injection Hv as <-. rewrite Hspec. unfold withLock, final.
  set (ok := recoverable _ _ _).
  destruct (closed s || negb (lockFile s)); simpl.
  { eapply (evolves_by _ _ _ []); [done|constructor|done]. }
  destruct (sys_flock l (disk s)) as [u d1] eqn:E1; apply flock_spec in E1 as (D1 & V1 & O1).
  assert (evolves ok (disk s) d1) as Hok1.
  { eapply evolves_weaken; [|exact V1]. intros f <-. by left. }
  destruct u as [u|e]; simpl; [|done].
  destruct (fn (identity s) d1) as [r d2] eqn:E2. rewrite Hfn in E2.
  assert (snapshot_of (identity s) d1 = Some snap) as Hs1 by (unfold snapshot_of in *; by rewrite D1).
  assert (evolves ok d1 d2) as Hok2.
  { eapply evolves_weaken; [|by eapply method_crash].
    intros f [->|Hf]; [left; by rewrite D1|by right]. }
  destruct (ignoring (sys_flock LOCK_UN) d2) as [u3 d3] eqn:E3. unfold ignoring in E3.
  destruct (sys_flock LOCK_UN d2) as [r3 d3'] eqn:E3'. injection E3 as <- <-. simpl.
  apply flock_spec in E3' as (D3 & V3 & _).
  eapply evolves_trans; [exact Hok1|]. eapply evolves_trans; [exact Hok2|].
  eapply evolves_weaken; [|exact V3]. intros f <-.
  destruct (method_spec _ _ _ _ _ _ Hs1 E2) as [Hr _]. unfold ok, recoverable.
  destruct r as [a|e]; [|left; congruence].
  destruct (dec snap) as [a'|s' a'|]; [left; naive_solver congruence| |done].
  right. exists a', (view_of s'), s'. naive_solver.
Qed.

Definition dec_AddEligible (jobID t : Z) (s : Snapshot) : decision unit :=
  if has_job jobID (snap_Pending s) then Answer tt
  else Write (upd_pending (snap_Pending s ++ [MkPendingJob jobID t 0 0]) s) tt.
Definition dec_Remove (ids : list Z) (s : Snapshot) : decision unit :=
  Write (upd_pending (filter (fun p => JobID p ∉ ids) (snap_Pending s)) s) tt.
Definition dec_RecordFailure (jobID u : Z) (s : Snapshot) : decision unit :=
  match bump_failure jobID u (snap_Pending s) with
  | None => Answer tt
  | Some l => Write (upd_pending l s) tt
  end.
Definition dec_SetReconcileBlock (b : Z) (s : Snapshot) : decision unit :=
  if b <? snap_LastReconciledBlock s
  then Refuse (errorf "SetReconcileBlock: refusing to move cursor backward")
  else Write (upd_cursor b s) tt.
Definition dec_SeedReconcileBlock (b : Z) (s : Snapshot) : decision bool :=
  if negb (snap_LastReconciledBlock s =? 0) then Answer false else Write (upd_cursor b s) true.

Create HintDb store_spec.
#[local] Hint Unfold dec_AddEligible dec_Remove dec_RecordFailure dec_SetReconcileBlock
  dec_SeedReconcileBlock spec_AddEligible spec_Pending spec_Remove spec_RecordFailure
  spec_GetReconcileBlock spec_SetReconcileBlock spec_SeedReconcileBlock spec_GetLastReleaseTs
  spec_SetLastReleaseTs spec_GetNextAllowedAttempt spec_SetNextAllowedAttempt : store_spec.

(** A method's body is [method dec] for its decision [dec]. *)
Ltac by_method dec :=
  apply (withLock_atomic _ _ dec); autounfold with store_spec;
  [ let i := fresh "id" in let d := fresh "d" in let s := fresh "snap" in
    intros i d; unfold method, loadVerifiedLocked, io_lift, io_bind, io_ret, io_err;
    destruct (readSnapshotLocked d) as [[s|?] ?]; [|done];
    destruct (verifyIdentityLocked i s) as [[]|]; [|done]; simpl;
    repeat case_match; try (progress simplify_eq/=); unfold io_bind; try done;
    first [ by destruct (writeSnapshotLocked _ _ _) as [[[]|] ?]
          | by unfold io_ret; repeat (case_match; try (progress simplify_eq/=)) ]
  | intros; simpl; repeat case_match; try (progress simplify_eq/=); done ].

Section Laws.
Context `{!AddressLaws _}.

Lemma AddEligible_atomic id t : atomic (AddEligible id t) (spec_AddEligible id t).
Proof. by_method (dec_AddEligible id t). Qed.

Lemma Remove_atomic ids : atomic (Remove ids) (spec_Remove ids).
Proof.
  unfold Remove. destruct (bool_decide_reflect (ids = [])) as [->|_].
  - split; [|intros s v Hv; by eapply (evolves_by _ _ _ [])].
    intros s v Hv. simpl. split; [|done]. exists v. split; [|done]. unfold spec_Remove.
    rewrite filter_id by set_solver. by destruct v.
  - by_method (dec_Remove ids).
Qed.

Lemma RecordFailure_atomic id u : atomic (RecordFailure id u) (spec_RecordFailure id u).
Proof. by_method (dec_RecordFailure id u). Qed.
Lemma GetReconcileBlock_atomic : atomic GetReconcileBlock spec_GetReconcileBlock.
Proof. by_method (fun s => Answer (snap_LastReconciledBlock s)). Qed.
Lemma SetReconcileBlock_atomic b : atomic (SetReconcileBlock b) (spec_SetReconcileBlock b).
Proof. by_method (dec_SetReconcileBlock b). Qed.
Lemma SeedReconcileBlock_atomic b : atomic (SeedReconcileBlock b) (spec_SeedReconcileBlock b).
Proof. by_method (dec_SeedReconcileBlock b). Qed.
Lemma GetLastReleaseTs_atomic : atomic GetLastReleaseTs spec_GetLastReleaseTs.
Proof. by_method (fun s => Answer (snap_LastReleaseTs s)). Qed.
Lemma SetLastReleaseTs_atomic t : atomic (SetLastReleaseTs t) (spec_SetLastReleaseTs t).
Proof. by_method (fun s => Write (upd_last t s) tt). Qed.
Lemma GetNextAllowedAttempt_atomic : atomic GetNextAllowedAttempt spec_GetNextAllowedAttempt.
Proof. by_method (fun s => Answer (snap_NextAllowedAttempt s)). Qed.
Lemma SetNextAllowedAttempt_atomic t :
  atomic (SetNextAllowedAttempt t) (spec_SetNextAllowedAttempt t).
Proof. by_method (fun s => Write (upd_gate t s) tt). Qed.

Lemma atomic_map {A B} (f : A -> B) (op : io FileStore A) spec spec' :
  atomic op spec ->
  (forall v, spec' v = (fun '(a, v') => (f a, v')) <$> spec v) ->
  atomic (let? a := op in io_ret (f a)) spec'.
Proof.
  intros [Hi Hc] Hs. split; intros s v Hv.
  2:{ specialize (Hc s v Hv). unfold io_bind, final in *. rewrite Hs.
      destruct (op s) as [[a|e] s']; (eapply evolves_weaken; [|exact Hc]);
        intros g [->|(a' & v' & sn & -> & ? & ?)]; [by left| |by left|]; right; by exists (f a'), v', sn. }
  destruct (Hi s v Hv) as [Ho Hh]. rewrite Hs.
  unfold io_bind, final, value in *. destruct (op s) as [[a|e] s'] eqn:E; simpl in *.
  - destruct Ho as (v' & -> & Hv'). split; [by exists v'|]. intros Hx. by destruct (Hh Hx).
  - split; [done|]. intros Hx. destruct (Hh Hx) as [? Hok]. split; [done|].
    destruct (spec v); [|by intros [? ?]]. intros _. by apply Hok.
Qed.

Lemma Pending_atomic : atomic Pending spec_Pending.
Proof.
  apply (atomic_map _ _ (fun v => Some (v_pending v, v))); [|done].
  by_method (fun s => Answer (snap_Pending s)).
Qed.

#[global] Instance FileStore_laws : StoreLaws FileStore.
Proof.
  split; intros.
  - apply AddEligible_atomic.
  - apply Pending_atomic.
  - apply Remove_atomic.
  - apply RecordFailure_atomic.
  - apply GetReconcileBlock_atomic.
  - apply SetReconcileBlock_atomic.
  - apply GetLastReleaseTs_atomic.
  - apply SetLastReleaseTs_atomic.
  - apply GetNextAllowedAttempt_atomic.
  - apply SetNextAllowedAttempt_atomic.
Qed.

(** ** Histories of several processes

    The sidecar and the command line each hold a [FileStore] on the same file.
    [flock] serialises the operations that hold it exclusively with all others;
    those that hold it shared may overlap one another, but only read
    ([shared_lock_only_reads]). So what happens is a sequence of operations,
    each run by one of the handles on the disk the previous one left. *)
Inductive op : Type :=
  | OAddEligible (jobID completedAt : Z)
  | OPending
  | ORemove (jobIDs : list Z)
  | ORecordFailure (jobID backoffUntil : Z)
  | OGetReconcileBlock
  | OSetReconcileBlock (block : Z)
  | OSeedReconcileBlock (block : Z)
  | OGetLastReleaseTs
  | OSetLastReleaseTs (ts : Z)
  | OGetNextAllowedAttempt
  | OSetNextAllowedAttempt (ts : Z).

Inductive answer : Type :=
  | AUnit
  | AJobs (l : list PendingJob)
  | AInt (z : Z)
  | ABool (b : bool).

Definition answering {A} (f : A -> answer) (c : io FileStore A) : io FileStore answer :=
  let? a := c in io_ret (f a).

Definition run_op (o : op) : io FileStore answer :=
  match o with
  | OAddEligible j t => answering (fun _ => AUnit) (AddEligible j t)
  | OPending => answering AJobs Pending
  | ORemove ids => answering (fun _ => AUnit) (Remove ids)
  | ORecordFailure j u => answering (fun _ => AUnit) (RecordFailure j u)
  | OGetReconcileBlock => answering AInt GetReconcileBlock
  | OSetReconcileBlock b => answering (fun _ => AUnit) (SetReconcileBlock b)
  | OSeedReconcileBlock b => answering ABool (SeedReconcileBlock b)
  | OGetLastReleaseTs => answering AInt GetLastReleaseTs
  | OSetLastReleaseTs t => answering (fun _ => AUnit) (SetLastReleaseTs t)
  | OGetNextAllowedAttempt => answering AInt GetNextAllowedAttempt
  | OSetNextAllowedAttempt t => answering (fun _ => AUnit) (SetNextAllowedAttempt t)
  end.

Definition spec_answering {A} (f : A -> answer) (spec : view -> option (A * view)) (v : view) :=
  (fun '(a, v') => (f a, v')) <$> spec v.

Definition spec_op (o : op) : view -> option (answer * view) :=
  match o with
  | OAddEligible j t => spec_answering (fun _ => AUnit) (spec_AddEligible j t)
  | OPending => spec_answering AJobs spec_Pending
  | ORemove ids => spec_answering (fun _ => AUnit) (spec_Remove ids)
  | ORecordFailure j u => spec_answering (fun _ => AUnit) (spec_RecordFailure j u)
  | OGetReconcileBlock => spec_answering AInt spec_GetReconcileBlock
  | OSetReconcileBlock b => spec_answering (fun _ => AUnit) (spec_SetReconcileBlock b)
  | OSeedReconcileBlock b => spec_answering ABool (spec_SeedReconcileBlock b)
  | OGetLastReleaseTs => spec_answering AInt spec_GetLastReleaseTs
  | OSetLastReleaseTs t => spec_answering (fun _ => AUnit) (spec_SetLastReleaseTs t)
  | OGetNextAllowedAttempt => spec_answering AInt spec_GetNextAllowedAttempt
  | OSetNextAllowedAttempt t => spec_answering (fun _ => AUnit) (spec_SetNextAllowedAttempt t)
  end.

Lemma run_op_atomic o : atomic (run_op o) (spec_op o).
Proof.
  destruct o; (eapply atomic_map; [|done]);
    eauto using AddEligible_atomic, Pending_atomic, Remove_atomic,
      RecordFailure_atomic, GetReconcileBlock_atomic, SetReconcileBlock_atomic,
      SeedReconcileBlock_atomic, GetLastReleaseTs_atomic, SetLastReleaseTs_atomic,
      GetNextAllowedAttempt_atomic, SetNextAllowedAttempt_atomic.
Qed.

(** The lock an operation holds; removing nothing takes none. *)
Definition lock_of (o : op) : option lock :=
  match o with
  | OPending | OGetReconcileBlock | OGetLastReleaseTs | OGetNextAllowedAttempt => Some LOCK_SH
  | ORemove [] => None
  | _ => Some LOCK_EX
  end.

Lemma read_only_files {A} id (f : Snapshot -> A) d :
  let d' := snd ((let? snap := readSnapshotLocked in let? _ := io_lift (verifyIdentityLocked id snap) in io_ret (f snap)) d) in
  data d' = data d /\ temp d' = temp d.
Proof.
  unfold readSnapshotLocked, sys_read, syscall, noop, io_bind, io_lift, io_err, io_ret. cbv zeta.
  by repeat (case_match; simplify_eq/=).
Qed.
Lemma withLock_files {A} l (fn : StoreIdentity -> io fs A) s :
  (forall id d, data (snd (fn id d)) = data d /\ temp (snd (fn id d)) = temp d) ->
  data (disk (snd (withLock l fn s))) = data (disk s) /\ temp (disk (snd (withLock l fn s))) = temp (disk s).
Proof.
  intros Hfn. unfold withLock. destruct (_ || _); [done|].
  assert (forall l d, data (snd (sys_flock l d)) = data d /\ temp (snd (sys_flock l d)) = temp d) as Hl.
  { intros k d. unfold sys_flock, syscall, noop. by case_match. }
  destruct (sys_flock l (disk s)) as [[u|e] d] eqn:E; pose proof (Hl l (disk s)) as Hd; rewrite E in Hd; [|done].
  destruct (fn (identity s) d) as [r d'] eqn:Ef. specialize (Hfn (identity s) d). rewrite Ef in Hfn.
  unfold ignoring. cbn in *. specialize (Hl LOCK_UN d'). destruct Hl as [-> ->]. destruct Hfn as [-> ->]. done.
Qed.

(** An operation under the shared lock touches no file, so that several may
    hold it at once; every other takes the exclusive lock or none. *)
Lemma shared_lock_only_reads o s : lock_of o = Some LOCK_SH ->
  data (disk (snd (run_op o s))) = data (disk s) /\ temp (disk (snd (run_op o s))) = temp (disk s).
Proof.
  assert (forall A (f : Snapshot -> A), data (disk (snd (withSharedLock (fun id =>
    let? snap := readSnapshotLocked in let? _ := io_lift (verifyIdentityLocked id snap) in io_ret (f snap)) s))) = data (disk s) /\
    temp (disk (snd (withSharedLock (fun id =>
    let? snap := readSnapshotLocked in let? _ := io_lift (verifyIdentityLocked id snap) in io_ret (f snap)) s))) = temp (disk s)) as Hs.
  { intros A f. apply withLock_files. intros id d. apply read_only_files. }
  destruct o as [| |[|? ?]| | | | | | | |]; intros [=]; cbn [run_op];
    unfold answering, Pending, GetReconcileBlock, GetLastReleaseTs, GetNextAllowedAttempt, io_bind; unfold io_bind in Hs.
  - specialize (Hs _ snap_Pending). by destruct (withSharedLock _ s) as [[|] ?].
  - specialize (Hs _ snap_LastReconciledBlock). by destruct (withSharedLock _ s) as [[|] ?].
  - specialize (Hs _ snap_LastReleaseTs). by destruct (withSharedLock _ s) as [[|] ?].
  - specialize (Hs _ snap_NextAllowedAttempt). by destruct (withSharedLock _ s) as [[|] ?].
Qed.

Record handle : Type := MkHandle { h_lockFile : bool; h_closed : bool }.

Record shared : Type := MkShared { sh_handles : list handle; sh_disk : fs }.

(** Process [i] runs [o] on the shared disk. *)
Definition run_at (id : StoreIdentity) (i : nat) (o : op) : io shared answer := fun sh =>
  match sh_handles sh !! i with
  | None => (Err (errorf "no such process"), sh)
  | Some h =>
      let '(r, s) := run_op o (MkStore id (h_lockFile h) (h_closed h) (sh_disk sh)) in
      (r, MkShared (<[i := MkHandle (lockFile s) (closed s)]> (sh_handles sh)) (disk s))
  end.

Fixpoint run_history (id : StoreIdentity) (os : list (nat * op)) : st shared (list (result answer)) :=
  match os with
  | [] => st_ret []
  | (i, o) :: os' =>
      let! r := run_at id i o in
      let! rs := run_history id os' in
      st_ret (r :: rs)
  end.

Definition shared_view (id : StoreIdentity) (sh : shared) : option view :=
  view_of <$> snapshot_of id (sh_disk sh).

(** The specification of a history: the operations that reported success, in
    order, each answering what it answered. *)
Inductive replays : list (nat * op) -> list (result answer) -> view -> view -> Prop :=
  | replays_nil v : replays [] [] v v
  | replays_ok i o os a rs v v' v'' :
      spec_op o v = Some (a, v') -> replays os rs v' v'' ->
      replays ((i, o) :: os) (Ok a :: rs) v v''
  | replays_err i o os e rs v v'' :
      replays os rs v v'' -> replays ((i, o) :: os) (Err e :: rs) v v''.

Lemma run_op_keeps_identity o s r s' : run_op o s = (r, s') -> identity s' = identity s.
Proof.
  assert (forall A l (fn : StoreIdentity -> io fs A) s, identity (snd (withLock l fn s)) = identity s) as HL.
  { intros A l fn s0. unfold withLock. by repeat (case_match; simplify_eq/=). }
  assert (forall A f (c : io FileStore A) s, identity (snd (c s)) = identity s ->
    identity (snd (answering f c s)) = identity s) as HA.
  { intros A f c s0. unfold answering, io_bind. by destruct (c s0) as [[?|?] ?]. }
  intros E. replace s' with (snd (run_op o s)) by (by rewrite E). clear E.
  destruct o; apply HA; try apply HL.
  - unfold Pending, io_bind. pose proof (HL _ LOCK_SH (fun id =>
      let? snap := readSnapshotLocked in
      let? _ := io_lift (verifyIdentityLocked id snap) in
      io_ret (snap_Pending snap)) s) as Hp.
    unfold withSharedLock. by destruct (withLock _ _ s) as [[?|?] ?].
  - unfold Remove. case_match; [done|]. apply HL.
Qed.

Lemma run_history_replays id os sh rs sh' v :
  shared_view id sh = Some v -> run_history id os sh = (rs, sh') ->
  exists v', shared_view id sh' = Some v' /\ replays os rs v v'.
Proof.
  revert sh rs v. induction os as [|[i o] os IH]; intros sh rs v Hv; simpl.
  { intros [= <- <-]. exists v. split; [done|constructor]. }
  unfold st_bind. destruct (run_at id i o sh) as [r sh1] eqn:E1.
  destruct (run_history id os sh1) as [rs1 sh2] eqn:E2. intros [= <- <-].
  unfold run_at in E1. destruct (sh_handles sh !! i) as [h|]; simplify_eq.
  2:{ destruct (IH _ _ _ Hv E2) as (v' & ? & ?). exists v'. split; [done|by constructor]. }
  destruct (run_op o _) as [r1 s1] eqn:Eo. simplify_eq.
  pose proof (run_op_keeps_identity _ _ _ _ Eo) as Hid. simpl in Hid.
  set (s0 := MkStore id (h_lockFile h) (h_closed h) (sh_disk sh)) in *.
  assert (store_view s0 = Some v) as Hv0 by done.
  destruct r as [a|e].
  - destruct (implements_ok _ _ _ _ _ _ (proj1 (run_op_atomic o)) Hv0 Eo) as (v1 & Hs & Hv1).
    simpl in Hv1. rewrite Hid in Hv1.
    eapply IH in E2 as (v' & ? & ?); [|exact Hv1]. exists v'. split; [done|]. by econstructor.
  - pose proof (implements_err _ _ _ _ _ _ (proj1 (run_op_atomic o)) Hv0 Eo) as Hv1.
    simpl in Hv1. rewrite Hid in Hv1.
    eapply IH in E2 as (v' & ? & ?); [|exact Hv1]. exists v'. split; [done|]. by constructor.
Qed.

(** C11. Operations of any number of processes on the shared file, under any
    pattern of I/O failures, behave like the abstract store: replaying on the
    view only the operations that reported success, in lock order, gives every
    answer they gave and the view the file ends with. *)
Theorem histories_linearize id os sh rs sh' v :
  shared_view id sh = Some v -> run_history id os sh = (rs, sh') ->
  exists v', shared_view id sh' = Some v' /\ replays os rs v v'.
Proof. apply run_history_replays. Qed.

(** On a disk without faults an open store answers every operation as
    specified: it fails exactly when the specification refuses (moving the
    cursor backwards), and stays healthy. *)
Theorem healthy_store_answers o s v :
  store_view s = Some v -> store_healthy s ->
  exists r s', run_op o s = (r, s') /\ store_healthy s' /\
    match spec_op o v with
    | Some (a, v') => r = Ok a /\ store_view s' = Some v'
    | None => is_ok r = false /\ store_view s' = Some v
    end.
Proof.
  intros Hv Hh. destruct (proj1 (run_op_atomic o) s v Hv) as [Hr Hs].
  destruct (Hs Hh) as [Hh' Hok]. unfold final, value in *.
  destruct (run_op o s) as [r s']. exists r, s'. split; [done|]. split; [done|]. simpl in *.
  destruct (spec_op o v) as [[a v']|].
  - specialize (Hok ltac:(eauto)). destruct r as [a'|]; [|done].
    destruct Hr as (v1 & [= <- <-] & ?). done.
  - destruct r; [|done]. by destruct Hr as (? & ? & _).
Qed.

(** What a process that opens the file after a crash finds in it. *)
Definition file_view (id : StoreIdentity) (f : option file) : option view :=
  view_of <$> snapshot_of id (MkFS f None [] []).

(** C10. A crash right after any system call of any operation leaves a file
    that opens with the view before the operation or the one after it, and
    the new one only once its bytes are synced. *)
Theorem crash_atomicity o s v h :
  store_view s = Some v ->
  history (disk (final (run_op o) s)) = h ++ history (disk s) ->
  Forall (fun f =>
    f = data (disk s) \/
    exists a v' g, spec_op o v = Some (a, v') /\ f = Some g /\ synced g = true /\
      file_view (identity s) (Some g) = Some v') h.
Proof.
  intros Hv Hh. destruct (proj2 (run_op_atomic o) s v Hv) as [(h' & Hh' & HF) _].
  rewrite Hh in Hh'. apply app_inv_tail in Hh' as ->.
  eapply Forall_impl; [exact HF|]. intros f [->|(a & v' & sn & Hs & Hv' & ->)]; [by left|right].
  eexists a, v', _. split; [done|]. split; [done|]. split; [done|].
  unfold file_view. erewrite snapshot_of_written; [|done]. simpl. by rewrite <- Hv'.
Qed.

(** ** What histories preserve *)

Lemma elem_of_has_job id l : has_job id l = true <-> id ∈ JobID <$> l.
Proof.
  unfold has_job. rewrite existsb_exists, list_elem_of_fmap.
  setoid_rewrite list_elem_of_In. setoid_rewrite Z.eqb_eq. naive_solver.
Qed.

Lemma bump_failure_fmap id u l l' :
  bump_failure id u l = Some l' ->
  JobID <$> l' = JobID <$> l /\ CompletedAt <$> l' = CompletedAt <$> l.
Proof.
  revert l'. induction l as [|p l IH]; intros l'; simpl; [done|].
  destruct (JobID p =? id); [intros [= <-]; by rewrite !fmap_cons|].
  destruct (bump_failure id u l) as [l1|] eqn:E; [|done]. intros [= <-].
  destruct (IH l1 eq_refl) as [H1 H2]. rewrite !fmap_cons. by rewrite H1, H2.
Qed.

Definition op_u64 (o : op) : Prop :=
  match o with OSetReconcileBlock b | OSeedReconcileBlock b => is_u64 b | _ => True end.

(** One successful operation: the ids stay distinct, the cursor does not move
    back, and only [Remove] takes a job away. *)
Lemma spec_op_keeps o v a v' :
  spec_op o v = Some (a, v') -> op_u64 o -> 0 <= v_cursor v ->
  (NoDup (v_jobs v) -> NoDup (v_jobs v')) /\
  v_cursor v <= v_cursor v' /\
  (forall j, j ∈ v_jobs v -> (forall ids, o = ORemove ids -> j ∉ ids) -> j ∈ v_jobs v').
Proof.
  unfold v_jobs, is_u64. intros Hs Hw Hc.
  destruct o; simpl in Hs; unfold spec_answering in Hs; autounfold with store_spec in Hs;
    simplify_eq/=; try done.
  - destruct (has_job jobID (v_pending v)) eqn:E; simpl; [done|].
    rewrite fmap_app; simpl. split; [|split; [done|set_solver]].
    intros Hnd. apply NoDup_app. split; [done|]. split; [|apply NoDup_singleton].
    intros x Hx Hi. apply list_elem_of_singleton in Hi as ->.
    apply elem_of_has_job in Hx. congruence.
  - split; [|split; [done|]].
    + intros Hnd. eapply sublist_NoDup; [exact Hnd|]. apply fmap_sublist, sublist_filter.
    + intros j (p & -> & Hp)%list_elem_of_fmap Hk. apply list_elem_of_fmap. exists p.
      split; [done|]. apply list_elem_of_filter. split; [by apply Hk|done].
  - destruct (bump_failure _ _ _) eqn:E; simpl; [|done].
    apply bump_failure_fmap in E as [-> _]. done.
  - repeat case_match; simplify_eq/=. reflect_Z. done.
  - repeat case_match; simplify_eq/=; reflect_Z; [done|]. split; [done|]. split; [unfold is_u64 in *; lia|done].
Qed.

Lemma replays_keeps os rs v v' :
  replays os rs v v' -> Forall (fun io => op_u64 (snd io)) os -> 0 <= v_cursor v ->
  (NoDup (v_jobs v) -> NoDup (v_jobs v')) /\
  v_cursor v <= v_cursor v' /\
  (forall j, j ∈ v_jobs v -> (forall i ids, (i, ORemove ids) ∈ os -> j ∉ ids) -> j ∈ v_jobs v').
Proof.
  induction 1 as [v|i o os a rs v v1 v2 Hs Hr IH|i o os e rs v v2 Hr IH];
    intros HF Hc; [done| |]; apply Forall_cons in HF as [Ho HF].
  - destruct (spec_op_keeps _ _ _ _ Hs Ho Hc) as (N & C & K).
    destruct IH as (N' & C' & K'); [done|lia|].
    split; [auto|]. split; [lia|]. intros j Hj Hk. apply K'.
    + apply K; [done|]. intros ids ->. apply (Hk i). by left.
    + intros i' ids Hin. apply (Hk i'). by right.
  - destruct IH as (N' & C' & K'); [done|done|]. split; [done|]. split; [done|].
    intros j Hj Hk. apply K'; [done|]. intros i' ids Hin. apply (Hk i'). by right.
Qed.

Lemma replays_app_inv os1 os2 rs v v' :
  replays (os1 ++ os2) rs v v' ->
  exists rs1 rs2 v1, rs = rs1 ++ rs2 /\ length rs1 = length os1 /\
    replays os1 rs1 v v1 /\ replays os2 rs2 v1 v'.
Proof.
  revert rs v. induction os1 as [|[i o] os1 IH]; intros rs v; simpl.
  { intros H2. exists [], rs, v. split; [done|]. split; [done|]. split; [constructor|done]. }
  inversion 1 as [|? ? ? a rs' ? v1 ? Hs Hr|? ? ? e rs' ? ? Hr]; subst;
    destruct (IH _ _ Hr) as (rs1 & rs2 & v2 & -> & Hl & H1 & H2).
  - exists (Ok a :: rs1), rs2, v2. split; [done|]. split; [simpl; by rewrite Hl|].
    split; [by econstructor|done].
  - exists (Err e :: rs1), rs2, v2. split; [done|]. split; [simpl; by rewrite Hl|].
    split; [by constructor|done].
Qed.

(** C9. Once a process was told that a completed job is recorded, the job stays
    pending through everything the other processes do and every I/O failure,
    until somebody removes it; pending ids stay distinct and the reconciler's
    cursor never moves back. *)
Theorem recorded_job_kept id os1 i j t os2 sh rs sh' v a :
  shared_view id sh = Some v -> 0 <= v_cursor v -> NoDup (v_jobs v) ->
  Forall (fun io => op_u64 (snd io)) (os1 ++ (i, OAddEligible j t) :: os2) ->
  run_history id (os1 ++ (i, OAddEligible j t) :: os2) sh = (rs, sh') ->
  rs !! length os1 = Some (Ok a) ->
  (forall k ids, (k, ORemove ids) ∈ os2 -> j ∉ ids) ->
  exists v', shared_view id sh' = Some v' /\ j ∈ v_jobs v' /\
    NoDup (v_jobs v') /\ v_cursor v <= v_cursor v'.
Proof.
  intros Hv Hc Hnd HF Hr Hok Hk.
  destruct (run_history_replays _ _ _ _ _ _ Hv Hr) as (v' & Hv' & Hrep).
  apply Forall_app in HF as [HF1 HF2]. apply Forall_cons in HF2 as [Ho HF2].
  destruct (replays_app_inv _ _ _ _ _ Hrep) as (rs1 & rs2 & v1 & -> & Hl & H1 & H2).
  destruct (replays_keeps _ _ _ _ H1 HF1 Hc) as (N1 & C1 & _).
  rewrite lookup_app_r in Hok by lia. rewrite Hl, Nat.sub_diag in Hok.
  inversion H2 as [|? ? ? b rs' ? v2 ? Hs Hr2|]; subst; [|done].
  destruct (spec_op_keeps _ _ _ _ Hs Ho ltac:(lia)) as (N2 & C2 & _).
  destruct (replays_keeps _ _ _ _ Hr2 HF2 ltac:(lia)) as (N3 & C3 & K3).
  exists v'. split; [done|]. split; [|split; [auto|lia]].
  apply K3; [|done]. simpl in Hs. unfold spec_answering in Hs. autounfold with store_spec in Hs.
  simplify_eq/=. unfold v_jobs. destruct (has_job j (v_pending v1)) eqn:E.
  - by apply elem_of_has_job.
  - simpl. rewrite fmap_app. set_solver.
Qed.

Lemma verify_or_init_spec id d r d' :
  verify_or_init id d = (r, d') ->
  (data d <> None -> data d' = data d) /\
  (is_ok r = true -> exists v, file_view id (data d') = Some v /\ (data d = None -> v = View [] 0 0 0)).
Proof.
  unfold verify_or_init, file_view, snapshot_of. destruct (readSnapshotLocked d) as [[snap|e] d1] eqn:Er;
    apply read_spec in Er as (Hd & _ & Hr).
  - intros [= Hv <-]. split; [done|]. destruct Hr as [b Hr]. intros Hok.
    simpl. rewrite Hd, Hr, Hv, Hok. eexists. by split.
  - destruct Hr as [Hne _]. destruct (errors_Is e ErrNotExist).
    + specialize (Hne eq_refl). intros Hw. apply write_spec in Hw as (_ & Hw & _).
      split; [done|]. destruct r; [|done]. intros _. rewrite Hw; simpl. rewrite verify_pinned.
      eexists. by split.
    + intros [= <- <-]. by split.
Qed.

Lemma flock_data l d : data (snd (sys_flock l d)) = data d.
Proof. destruct (sys_flock l d) as [r d'] eqn:E. by destruct (flock_spec _ _ _ _ E). Qed.

Lemma file_view_disk id d : file_view id (data d) = view_of <$> snapshot_of id d.
Proof. done. Qed.

(** [NewFileStore] never loses a state file: whatever the file held, an
    existing one is left byte for byte as it was and is only opened when its
    schema and its (chain, registry, worker) identity match; a store over no
    file starts empty; and an open store always has a view. *)
Theorem NewFileStore_safe path id d r d' :
  NewFileStore path id d = (r, d') ->
  (data d <> None -> data d' = data d) /\
  (forall s, r = Ok s ->
     disk s = d' /\ identity s = id /\ closed s = false /\ lockFile s = true /\
     exists v, store_view s = Some v /\ (data d = None -> v = View [] 0 0 0)) /\
  (forall f snap, data d = Some f -> bytes f = Json snap ->
     is_ok (verifyIdentityLocked id snap) = false -> is_ok r = false).
Proof.
  unfold NewFileStore. intros E.
  destruct (bool_decide (path = _)); [by simplify_eq|].
  destruct (id_ChainID id =? 0); [by simplify_eq|].
  destruct (bool_decide (id_WorkerAddress id = _)); [by simplify_eq|].
  destruct (bool_decide (id_JobRegistry id = _)); [by simplify_eq|].
  change (syscall noop noop) with (sys_flock LOCK_EX) in E. unfold io_bind, io_wrap in E.
  destruct (sys_flock LOCK_EX d) as [[u1|e1] d1] eqn:E1; apply flock_spec in E1 as (D1 & _); simplify_eq; [|done].
  destruct (sys_flock LOCK_EX d1) as [[u2|e2] d2] eqn:E2; apply flock_spec in E2 as (D2 & _); simplify_eq;
    [|split; [by rewrite D2|done]].
  unfold withExclusiveLock, withLock in E. simpl in E.
  destruct (sys_flock LOCK_EX d2) as [[u3|e3] d3] eqn:E3; apply flock_spec in E3 as (D3 & _).
  2:{ simplify_eq. split; [|done]. intros _. change sys_close with (sys_flock LOCK_UN). rewrite flock_data. simpl. congruence. }
  destruct (verify_or_init id d3) as [r4 d4] eqn:E4. apply verify_or_init_spec in E4 as (Hd4 & Hv4).
  assert (data d3 = data d) as D3d by congruence. rewrite D3d in *.
  destruct r4 as [u4|e4]; simplify_eq/=; change sys_close with (sys_flock LOCK_UN); rewrite ?flock_data.
  - split; [done|]. destruct (Hv4 eq_refl) as (v & Hv & Hn). split.
    + intros s [= <-]. simpl. do 4 (split; [done|]). exists v. split; [|done].
      by rewrite <- file_view_disk, flock_data.
    + intros f snap Hf Hb Hbad. rewrite Hf in Hd4. rewrite Hd4 in Hv by done.
      unfold file_view, snapshot_of in Hv. simpl in Hv. destruct f as [c b]; simpl in Hb; subst c.
      by rewrite Hbad in Hv.
  - split; [done|]. split; [done|]. done.
Qed.
End Laws.
End Operations.

(** ** Concrete runs *)

#[local] Existing Instances plain_addresses plain_addresses_laws.

Definition demo_id : StoreIdentity := MkIdentity 31337 "0xR"%string "0xW"%string.
Definition demo_view : view := View [MkPendingJob 7 100 0 0] 40 0 0.
Definition demo_disk (script : list (option string)) : fs :=
  MkFS (Some (MkFile (Json (pinned demo_id (upd_cursor 40 (upd_pending (v_pending demo_view)
    (emptySnapshot demo_id))))) true)) None script [].
Definition demo_shared : shared :=
  MkShared [MkHandle true false; MkHandle true false]
    (demo_disk [None; None; None; None; None; None; None; None; None; None; None;
                None; None; None; Some "no space left on device"%string]).
Definition demo_history : list (nat * op) :=
  [(0%nat, OAddEligible 9 120); (1%nat, ORecordFailure 7 300); (1%nat, OAddEligible 9 500);
   (0%nat, OSetReconcileBlock 50); (1%nat, OPending)].
Definition demo_store (script : list (option string)) : FileStore :=
  MkStore demo_id true false (demo_disk script).

Example demo_answers : map is_ok (fst (run_history demo_id demo_history demo_shared)) =
  [true; false; true; true; true].
Proof. vm_compute. reflexivity. Qed.

Lemma histories_linearize_witness :
  exists v', shared_view demo_id (snd (run_history demo_id demo_history demo_shared)) = Some v' /\
    replays demo_history (fst (run_history demo_id demo_history demo_shared)) demo_view v'.
Proof.
  apply (histories_linearize demo_id demo_history demo_shared); [reflexivity|].
  apply surjective_pairing.
Defined.

Lemma healthy_store_answers_witness :
  exists r s', run_op (OSetReconcileBlock 39) (demo_store []) = (r, s') /\ store_healthy s' /\
    is_ok r = false /\ store_view s' = Some demo_view.
Proof.
  exact (healthy_store_answers (OSetReconcileBlock 39) (demo_store []) demo_view
    eq_refl (conj eq_refl (conj eq_refl eq_refl))).
Defined.

Definition demo_crashes : list (option file) :=
  history (disk (final (run_op (OAddEligible 9 120)) (demo_store []))).

Lemma crash_atomicity_witness :
  Forall (fun f =>
    f = data (demo_disk []) \/
    exists a v' g, spec_op (OAddEligible 9 120) demo_view = Some (a, v') /\ f = Some g /\
      synced g = true /\ file_view demo_id (Some g) = Some v') demo_crashes.
Proof.
  apply (crash_atomicity (OAddEligible 9 120) (demo_store []) demo_view); [reflexivity|].
  symmetry. apply app_nil_r.
Defined.

Lemma recorded_job_kept_witness :
  exists v', shared_view demo_id (snd (run_history demo_id demo_history demo_shared)) = Some v' /\
    9 ∈ v_jobs v' /\ NoDup (v_jobs v') /\ 40 <= v_cursor v'.
Proof.
  eapply (recorded_job_kept demo_id [] 0 9 120 (tl demo_history) demo_shared _ _ demo_view AUnit);
    [reflexivity|discriminate|apply NoDup_singleton| |apply surjective_pairing|reflexivity|].
  - repeat constructor; unfold is_u64, u64_max; simpl; lia.
  - intros k ids Hin. exfalso. revert Hin. unfold demo_history; simpl. set_solver.
Defined.

Lemma NewFileStore_safe_witness :
  let other := MkIdentity 1 "0xR"%string "0xW"%string in
  is_ok (fst (NewFileStore "state.json" other (demo_disk []))) = false /\
  data (snd (NewFileStore "state.json" other (demo_disk []))) = data (demo_disk []).
Proof.
  intros other.
  destruct (NewFileStore_safe "state.json" other (demo_disk []) _ _
    (surjective_pairing (NewFileStore "state.json" other (demo_disk [])))) as (Hd & _ & Hbad).
  split; [by eapply Hbad|by apply Hd].
Defined.

End FileStore.
