(* ===== verification/Chain.v ===== *)
(** The chain vocabulary of [internal/chain/interfaces.go]: job states as the
    contract numbers them, the projections of on-chain records the worker
    reads, and the interface the settlement loop is written against. *)
From S2P Require Import Prelude.

(** [JobState] is a [uint8]; an index the contract does not define is kept. *)
Inductive JobState : Type :=
  | JobStateSubmitted | JobStateAcknowledged | JobStateCompleted | JobStateTimedOut
  | JobStateDisputed | JobStateResolved | JobStateReleased
  | JobStateOther (index : Z).

#[global] Instance JobState_eq_dec : EqDecision JobState.
Proof. solve_decision. Defined.

(** The conversion [JobState(job.State)] of the ABI's [uint8], and back. *)
Definition JobState_of (index : Z) : JobState :=
  if index =? 0 then JobStateSubmitted
  else if index =? 1 then JobStateAcknowledged
  else if index =? 2 then JobStateCompleted
  else if index =? 3 then JobStateTimedOut
  else if index =? 4 then JobStateDisputed
  else if index =? 5 then JobStateResolved
  else if index =? 6 then JobStateReleased
  else JobStateOther index.

Definition JobState_index (s : JobState) : Z :=
  match s with
  | JobStateSubmitted => 0
  | JobStateAcknowledged => 1
  | JobStateCompleted => 2
  | JobStateTimedOut => 3
  | JobStateDisputed => 4
  | JobStateResolved => 5
  | JobStateReleased => 6
  | JobStateOther i => i
  end.

(** [JobState.String]. *)
Definition JobState_String (s : JobState) : string :=
  match s with
  | JobStateSubmitted => "Submitted"
  | JobStateAcknowledged => "Acknowledged"
  | JobStateCompleted => "Completed"
  | JobStateTimedOut => "TimedOut"
  | JobStateDisputed => "Disputed"
  | JobStateResolved => "Resolved"
  | JobStateReleased => "Released"
  | JobStateOther _ => "Unknown"
  end.

Lemma JobState_of_index i : JobState_index (JobState_of i) = i.
Proof.
  unfold JobState_of. repeat (case_match; reflect_Z; simpl; [done|]). done.
Qed.

(** [HeadInfo]. *)
Record HeadInfo : Type := MkHead { Number : Z; Timestamp : Z }.

Section Records.
Context `{AddressOps}.

(** [JobStateInfo]; [*big.Int] may be nil. *)
Record JobStateInfo : Type := MkJobStateInfo {
  State : JobState;
  Worker : Address;
  Completed_at : Z;
  EscrowedFee : option Z;
}.

(** [JobCompletedEvent]. *)
Record JobCompletedEvent : Type := MkJobCompleted {
  ev_JobID : Z;
  ev_Worker : Address;
  ev_BlockNumber : Z;
}.

(** [EscrowedFee != nil && EscrowedFee.Sign() > 0]. *)
Definition fee_positive (i : JobStateInfo) : bool :=
  match EscrowedFee i with Some f => 0 <? f | None => false end.

(** The part of [SettlementClient] the scheduler and the reconciler call. *)
Class SettlementClient (C : Type) := {
  Head : io C HeadInfo;
  GetDisputeWindow : io C Z;
  GetJobState : Z -> io C JobStateInfo;
  ReleaseJob : Z -> io C unit;
  ReleaseJobs : list Z -> io C unit;
  FilterJobCompleted : Address -> Z -> Z -> io C (list JobCompletedEvent);
}.
End Records.
