(* ===== verification/ReleaseConfig.v ===== *)
(** The settings of the release loop: [internal/release/config.go]. *)
From S2P Require Import Prelude.

Record Config : Type := MkConfig {
  Enabled : bool;
  StatePath : string;
  Interval : Z;
  ProbeInterval : Z;
  BatchThreshold : Z;
  MaxBatchSize : Z;
  TxTimeout : Z;
  StartBlock : Z;
  ChunkSize : Z;
  Confirmations : Z;
  ReconcileInterval : Z;
  BackoffBase : Z;
  BackoffMax : Z;
  PausedCycleBackoff : Z;
  StaleDisputeWarnAfter : Z;
  DisputeWindowOverride : Z;
  DisputeWindowCacheTTL : Z;
}.

Definition DefaultConfig : Config := {|
  Enabled := true;
  StatePath := "./release_state.json";
  Interval := 8 * Hour;
  ProbeInterval := 5 * Minute;
  BatchThreshold := 20;
  MaxBatchSize := 50;
  TxTimeout := 120 * Second;
  StartBlock := 0;
  ChunkSize := 5000;
  Confirmations := 5;
  ReconcileInterval := Hour;
  BackoffBase := 15 * Minute;
  BackoffMax := 24 * Hour;
  PausedCycleBackoff := Hour;
  StaleDisputeWarnAfter := 168 * Hour;
  DisputeWindowOverride := 0;
  DisputeWindowCacheTTL := 15 * Minute;
|}.

(** [if c { errs = append(errs, msg) }]. *)
Definition fail_if (c : bool) (msg : string) (errs : list string) : list string :=
  if c then errs ++ [msg] else errs.
Arguments fail_if _ _%_string _.

(** [Config.Validate]; the durations in the messages are not rendered. *)
Definition Config_Validate (c : Config) : list string :=
  let no_path := bool_decide (StatePath c = ""%string) in
  if negb (Enabled c) then fail_if no_path "StatePath must not be empty" []
  else
    let errs := fail_if no_path "StatePath must not be empty" [] in
    let errs := fail_if (Interval c <=? 0) "Interval must be positive" errs in
    let errs := fail_if (ProbeInterval c <=? 0) "ProbeInterval must be positive" errs in
    let errs := fail_if (Interval c <? ProbeInterval c) "ProbeInterval must be at most Interval" errs in
    let errs := fail_if (BatchThreshold c <? 1) "BatchThreshold must be at least 1" errs in
    let errs := fail_if (MaxBatchSize c <? 1) "MaxBatchSize must be at least 1" errs in
    let errs := fail_if (TxTimeout c <=? 0) "TxTimeout must be positive" errs in
    let errs := fail_if (ChunkSize c =? 0) "ChunkSize must be at least 1" errs in
    let errs := fail_if (ReconcileInterval c <=? 0) "ReconcileInterval must be positive" errs in
    let errs := fail_if (BackoffBase c <=? 0) "BackoffBase must be positive" errs in
    let errs := fail_if (BackoffMax c <? BackoffBase c) "BackoffMax must be at least BackoffBase" errs in
    let errs := fail_if (PausedCycleBackoff c <=? 0) "PausedCycleBackoff must be positive" errs in
    fail_if (DisputeWindowCacheTTL c <? 0) "DisputeWindowCacheTTL must not be negative" errs.

Lemma fail_if_nil c msg errs : fail_if c msg errs = [] <-> c = false /\ errs = [].
Proof. unfold fail_if. destruct c; [|naive_solver]. split; [|naive_solver]. by destruct errs. Qed.

(** What a validated, enabled configuration gives the loops. *)
Record valid (c : Config) : Prop := {
  valid_path : StatePath c <> ""%string;
  valid_probe : 0 < ProbeInterval c <= Interval c;
  valid_threshold : 1 <= BatchThreshold c;
  valid_batch : 1 <= MaxBatchSize c;
  valid_timeout : 0 < TxTimeout c;
  valid_chunk : ChunkSize c <> 0;
  valid_reconcile : 0 < ReconcileInterval c;
  valid_backoff : 0 < BackoffBase c <= BackoffMax c;
  valid_paused : 0 < PausedCycleBackoff c;
  valid_ttl : 0 <= DisputeWindowCacheTTL c;
}.

Lemma Validate_spec c : Enabled c = true -> (Config_Validate c = [] <-> valid c).
Proof.
  intros He. unfold Config_Validate. rewrite He; simpl. rewrite !fail_if_nil.
  split.
  - intros H. destruct_and!. reflect_Z. split; try lia. done.
  - intros [? ? ? ? ? ? ? ? ? ?].
    rewrite bool_decide_eq_false_2 by done.
    repeat split; lia.
Qed.

Lemma DefaultConfig_valid : valid DefaultConfig.
Proof. apply Validate_spec; reflexivity. Qed.
