(* ===== verification/Scheduler.v ===== *)
(** The release scheduler of [internal/release/scheduler.go]: when a cycle
    fires, which pending jobs it submits, the fallback from the batch to single
    releases, and the backoff of failing jobs and of a paused contract. It is
    written against the [Store] and [SettlementClient] interfaces. *)
From S2P Require Import Prelude ReleaseStore Chain ReleaseConfig.

Module Scheduler.

(** [CycleResult]. *)
Record CycleResult : Type := MkCycleResult {
  Candidates : Z;
  Released : Z;
  Failed : Z;
  Dropped : Z;
  Paused : bool;
  BatchReverted : bool;
  BackoffActive : bool;
  NextAllowedAt : Z;
}.

Definition empty_result : CycleResult := MkCycleResult 0 0 0 0 false false false 0.

Inductive drop_reason : Type :=
  | DropReasonTerminalState | DropReasonForeignWorker | DropReasonResolvedZeroFee.

(** ** Pure helpers *)

(** [isPauseError]. *)
Definition isPauseError (err : error) : bool :=
  if errors_Is err ErrContractPaused then true
  else str_contains (to_lower (err_msg err)) "pausable: paused".

(** [computeBackoff]. *)
Definition computeBackoff (base maxBackoff attempt0 : Z) : Z :=
  let attempt := if attempt0 <? 1 then 1 else attempt0 in
  let maxShift := 30 in
  let shift0 := i64_wrap (attempt - 1) in
  let shift := if maxShift <? shift0 then maxShift else shift0 in
  let d := i64_wrap (Z.shiftl base shift) in
  if (maxBackoff <? d) || (d <=? 0) then maxBackoff else d.

(** [countReadyForStateCheck]. *)
Fixpoint countReadyForStateCheck (pending : list PendingJob) (chainNow : Z) : Z :=
  match pending with
  | [] => 0
  | p :: rest =>
      if chainNow <? BackoffUntil p then countReadyForStateCheck rest chainNow
      else 1 + countReadyForStateCheck rest chainNow
  end.

(** The loop of [collectCandidates], [out] being the slice built so far. *)
Fixpoint collect_loop (maxBatch chainNow : Z) (out pending : list PendingJob) : list PendingJob :=
  match pending with
  | [] => out
  | p :: rest =>
      if chainNow <? BackoffUntil p then collect_loop maxBatch chainNow out rest
      else
        let out' := out ++ [p] in
        if maxBatch <=? Z.of_nat (length out') then out'
        else collect_loop maxBatch chainNow out' rest
  end.

Section Scheduler.
Context `{!AddressOps} {S C : Type} `{!Store S} `{!SettlementClient C}.
Context (cfg : Config) (workerAddr : Address).

(** ** The world of a cycle

    The store, the chain, and (most recent first) the trace of what the
    scheduler did: the chain calls with their outcome, and the metrics. *)
Inductive event : Type :=
  | ECallState (jobID : Z) (r : result JobStateInfo)
  | ECallRelease (jobID : Z) (r : result unit)
  | ECallReleaseBatch (jobIDs : list Z) (r : result unit)
  | ESetPending (n : Z)
  | EIncReleased (n : Z)
  | EIncFailed (n : Z)
  | EIncDropped (reason : drop_reason)
  | EIncPauseEvent
  | ESetLastSuccessTimestamp (ts : Z).

Record world : Type := MkWorld {
  w_store : S;
  w_chain : C;
  w_trace : list event;
}.

Definition on_store {A} (c : io S A) : io world A := fun w =>
  let '(r, s) := c (w_store w) in (r, MkWorld s (w_chain w) (w_trace w)).
Definition on_chain {A} (c : io C A) : io world A := fun w =>
  let '(r, ch) := c (w_chain w) in (r, MkWorld (w_store w) ch (w_trace w)).
Definition emit (e : event) : st world unit := fun w =>
  (tt, MkWorld (w_store w) (w_chain w) (e :: w_trace w)).
Definition traced {A} (ev : result A -> event) (c : io world A) : io world A :=
  let! r := c in
  let! _ := emit (ev r) in
  st_ret r.

Definition getJobState (id : Z) : io world JobStateInfo :=
  traced (ECallState id) (on_chain (GetJobState id)).
Definition releaseJob (id : Z) : io world unit :=
  traced (ECallRelease id) (on_chain (ReleaseJob id)).
Definition releaseJobs (ids : list Z) : io world unit :=
  traced (ECallReleaseBatch ids) (on_chain (ReleaseJobs ids)).

(** A store call whose error is only logged; [true] when it succeeded. *)
Definition try_store {A} (c : io S A) : st world bool :=
  let! r := on_store c in st_ret (is_ok r).

(** ** Operations *)

(** [disputeWindow]. *)
Definition disputeWindow : io world Z :=
  if 0 <? DisputeWindowOverride cfg then io_ret (DisputeWindowOverride cfg)
  else on_chain GetDisputeWindow.

(** [collectCandidates]. *)
Definition collectCandidates (pending : list PendingJob) (chainNow : Z) : list PendingJob :=
  collect_loop (MaxBatchSize cfg) chainNow [] pending.

(** Eligibility of a Completed job: [CompletedAt + window <= now] in [int64]. *)
Definition window_elapsed (info : JobStateInfo) (windowSec chainNow : Z) : bool :=
  i64_wrap (Completed_at info + windowSec) <=? chainNow.

Record bins : Type := MkBins {
  releaseBatch : list Z;
  dropIDs : list Z;
  staleDisputed : list Z;
}.

Definition add_release (id : Z) (b : bins) : bins :=
  MkBins (releaseBatch b ++ [id]) (dropIDs b) (staleDisputed b).
Definition add_drop (id : Z) (b : bins) : bins :=
  MkBins (releaseBatch b) (dropIDs b ++ [id]) (staleDisputed b).
Definition add_stale (id : Z) (b : bins) : bins :=
  MkBins (releaseBatch b) (dropIDs b) (staleDisputed b ++ [id]).

(** The body of [partition]'s loop for a job whose state was read. *)
Definition classify (windowSec chainNow : Z) (p : PendingJob) (info : JobStateInfo) (b : bins)
    : st world bins :=
  let id := JobID p in
  let drop reason := let! _ := emit (EIncDropped reason) in st_ret (add_drop id b) in
  if negb (bool_decide (Worker info = workerAddr)) then drop DropReasonForeignWorker
  else match State info with
       | JobStateCompleted =>
           if window_elapsed info windowSec chainNow then st_ret (add_release id b) else st_ret b
       | JobStateResolved =>
           if fee_positive info then st_ret (add_release id b)
           else drop DropReasonResolvedZeroFee
       | JobStateReleased => drop DropReasonTerminalState
       | JobStateTimedOut => drop DropReasonTerminalState
       | JobStateDisputed =>
           if 0 <? StaleDisputeWarnAfter cfg then
             let ageSec := i64_wrap (chainNow - CompletedAt p) in
             if StaleDisputeWarnAfter cfg <? i64_wrap (ageSec * Second)
             then st_ret (add_stale id b) else st_ret b
           else st_ret b
       | JobStateSubmitted | JobStateAcknowledged | JobStateOther _ => st_ret b
       end.

Fixpoint partition_loop (windowSec chainNow : Z) (candidates : list PendingJob) (b : bins)
    : st world bins :=
  match candidates with
  | [] => st_ret b
  | p :: rest =>
      let! r := getJobState (JobID p) in
      match r with
      | Err _ => partition_loop windowSec chainNow rest b
      | Ok info =>
          let! b' := classify windowSec chainNow p info b in
          partition_loop windowSec chainNow rest b'
      end
  end.

(** [partition]. *)
Definition partition (candidates : list PendingJob) (window chainNow : Z) : st world bins :=
  partition_loop (dur_secs window) chainNow candidates (MkBins [] [] []).

(** [recordAttempt] and [recordAttemptWithBackoff]: errors are only logged. *)
Definition recordAttempt (chainNow : Z) : st world unit :=
  let! _ := try_store (SetLastReleaseTs chainNow) in st_ret tt.
Definition recordAttemptWithBackoff (chainNow back : Z) : st world unit :=
  let! _ := try_store (SetNextAllowedAttempt (i64_wrap (chainNow + dur_secs back))) in st_ret tt.

(** [applyPauseBackoff]. *)
Definition applyPauseBackoff (chainNow : Z) (r : CycleResult) : st world CycleResult :=
  let! _ := emit EIncPauseEvent in
  let! _ := recordAttemptWithBackoff chainNow (PausedCycleBackoff cfg) in
  st_ret (MkCycleResult (Candidates r) (Released r) (Failed r) (Dropped r) (Paused r)
            (BatchReverted r) (BackoffActive r)
            (i64_wrap (chainNow + dur_secs (PausedCycleBackoff cfg)))).

(** The [FailCount] of the first pending entry with the id, 0 if there is none. *)
Definition fail_count_of (id : Z) (pending : list PendingJob) : Z :=
  match List.find (fun p => JobID p =? id) pending with
  | Some p => FailCount p
  | None => 0
  end.

(** [recordPerJobFailure]. *)
Definition recordPerJobFailure (jobID chainNow : Z) : st world unit :=
  let! r := on_store Pending in
  match r with
  | Err _ => st_ret tt
  | Ok pending =>
      let backoff := computeBackoff (BackoffBase cfg) (BackoffMax cfg)
                       (i64_wrap (fail_count_of jobID pending + 1)) in
      let until := i64_wrap (chainNow + dur_secs backoff) in
      let! _ := try_store (RecordFailure jobID until) in
      st_ret tt
  end.

Definition one_failed (out : CycleResult) : CycleResult :=
  MkCycleResult (Candidates out) (Released out) (Failed out + 1) (Dropped out)
    (Paused out) (BatchReverted out) (BackoffActive out) (NextAllowedAt out).
Definition one_released (out : CycleResult) : CycleResult :=
  MkCycleResult (Candidates out) (Released out + 1) (Failed out) (Dropped out)
    (Paused out) (BatchReverted out) (BackoffActive out) (NextAllowedAt out).
Definition one_dropped (out : CycleResult) : CycleResult :=
  MkCycleResult (Candidates out) (Released out) (Failed out) (Dropped out + 1)
    (Paused out) (BatchReverted out) (BackoffActive out) (NextAllowedAt out).
Definition set_paused (out : CycleResult) : CycleResult :=
  MkCycleResult (Candidates out) (Released out) (Failed out) (Dropped out)
    true (BatchReverted out) (BackoffActive out) (NextAllowedAt out).

(** The second half of [perJobFallback]'s loop body, after the switch;
    [true] in the result means a pause stopped the loop. *)
Definition fallback_release (chainNow id : Z) (eligible : bool) (out : CycleResult)
    : st world (bool * CycleResult) :=
  if negb eligible then st_ret (false, out)
  else
    let! rr := releaseJob id in
    match rr with
    | Err rErr =>
        if isPauseError rErr then st_ret (true, set_paused out)
        else
          let! _ := recordPerJobFailure id chainNow in
          let! _ := emit (EIncFailed 1) in
          st_ret (false, one_failed out)
    | Ok _ =>
        let! _ := try_store (Remove [id]) in
        let! _ := emit (EIncReleased 1) in
        let! _ := emit (ESetLastSuccessTimestamp chainNow) in
        st_ret (false, one_released out)
    end.

(** One turn of [perJobFallback]'s loop. *)
Definition fallback_job (windowSec chainNow id : Z) (out : CycleResult) : st world (bool * CycleResult) :=
  let! r := getJobState id in
  match r with
  | Err _ =>
      let! _ := recordPerJobFailure id chainNow in
      st_ret (false, one_failed out)
  | Ok info =>
      match State info with
      | JobStateReleased | JobStateTimedOut =>
          let! ok := try_store (Remove [id]) in
          st_ret (false, if ok : bool then one_dropped out else out)
      | JobStateCompleted => fallback_release chainNow id (window_elapsed info windowSec chainNow) out
      | JobStateResolved => fallback_release chainNow id (fee_positive info) out
      | _ => fallback_release chainNow id false out
      end
  end.

Fixpoint fallback_loop (windowSec chainNow : Z) (batch : list Z) (out : CycleResult)
    : st world CycleResult :=
  match batch with
  | [] => st_ret out
  | id :: rest =>
      let! r := fallback_job windowSec chainNow id out in
      if fst r then st_ret (snd r) else fallback_loop windowSec chainNow rest (snd r)
  end.

(** [perJobFallback]. *)
Definition perJobFallback (batch : list Z) (window : Z) (head : HeadInfo) : st world CycleResult :=
  fallback_loop (dur_secs window) (Timestamp head) batch empty_result.

(** The first store write of [runReleaseCycle]: the terminal jobs; the number
    counted as dropped. *)
Definition remove_dropped (ids : list Z) : st world Z :=
  if bool_decide (ids = []) then st_ret 0
  else
    let! ok := try_store (Remove ids) in
    st_ret (if ok : bool then Z.of_nat (length ids) else 0).

(** [runReleaseCycle]. *)
Definition runReleaseCycle (head : HeadInfo) (window : Z) (pending : list PendingJob)
    : st world CycleResult :=
  let now := Timestamp head in
  let candidates := collectCandidates pending now in
  let n := Z.of_nat (length candidates) in
  let result dropped released failed paused reverted :=
    MkCycleResult n released failed dropped paused reverted false 0 in
  if n =? 0 then
    let! _ := recordAttempt now in
    st_ret (result 0 0 0 false false)
  else
    let! b := partition candidates window now in
    let! dropped := remove_dropped (dropIDs b) in
    if bool_decide (releaseBatch b = []) then
      let! _ := recordAttempt now in
      st_ret (result dropped 0 0 false false)
    else
      let k := Z.of_nat (length (releaseBatch b)) in
      let! r := releaseJobs (releaseBatch b) in
      match r with
      | Ok _ =>
          let! _ := try_store (Remove (releaseBatch b)) in
          let! _ := emit (EIncReleased k) in
          let! _ := emit (ESetLastSuccessTimestamp now) in
          let! _ := recordAttempt now in
          st_ret (result dropped k 0 false false)
      | Err err =>
          if isPauseError err then applyPauseBackoff now (result dropped 0 0 true true)
          else
            let! fb := perJobFallback (releaseBatch b) window head in
            if Paused fb then
              applyPauseBackoff now (result (dropped + Dropped fb) (Released fb) (Failed fb) true true)
            else
              let! _ := recordAttempt now in
              st_ret (result (dropped + Dropped fb) (Released fb) (Failed fb) false true)
      end.

(** [RunOnce]. *)
Definition RunOnce : io world CycleResult :=
  let? head := on_chain Head wrapping "read chain head" in
  let? nextAllowed := on_store GetNextAllowedAttempt wrapping "read next allowed attempt" in
  if Timestamp head <? nextAllowed
  then io_ret (MkCycleResult 0 0 0 0 false false true nextAllowed)
  else
    let? window := disputeWindow wrapping "read dispute window" in
    let? pending := on_store Pending wrapping "read pending" in
    let! r := runReleaseCycle head window pending in
    io_ret r.

(** [tick], as far as it gets: an error is only logged. *)
Definition tick_steps : io world unit :=
  let? head := on_chain Head in
  let? nextAllowed := on_store GetNextAllowedAttempt in
  if Timestamp head <? nextAllowed then io_ret tt
  else
    let? window := disputeWindow in
    let? pending := on_store Pending in
    let! _ := emit (ESetPending (Z.of_nat (length pending))) in
    let? lastReleaseTs := on_store GetLastReleaseTs in
    let readyNow := countReadyForStateCheck pending (Timestamp head) in
    let dueByTime := dur_secs (Interval cfg) <=? i64_wrap (Timestamp head - lastReleaseTs) in
    if (readyNow <? BatchThreshold cfg) && negb dueByTime then io_ret tt
    else
      let! _ := runReleaseCycle head window pending in
      io_ret tt.

Definition tick : st world unit := let! _ := tick_steps in st_ret tt.

(** ** Evidence in the trace *)

(** An on-chain record that allows a release, as [partition] and
    [perJobFallback] judge it. *)
Definition releasable (info : JobStateInfo) (windowSec now : Z) : bool :=
  match State info with
  | JobStateCompleted => window_elapsed info windowSec now
  | JobStateResolved => fee_positive info
  | _ => false
  end.

(** An on-chain record that can never pay this worker. *)
Definition unpayable (info : JobStateInfo) : bool :=
  negb (bool_decide (Worker info = workerAddr)) ||
  match State info with
  | JobStateReleased | JobStateTimedOut => true
  | JobStateResolved => negb (fee_positive info)
  | _ => false
  end.

(** Why a job may leave the store: it was released, or found unpayable. *)
Definition settled (j : Z) (tr : list event) : Prop :=
  ECallRelease j (Ok tt) ∈ tr \/
  (exists ids, j ∈ ids /\ ECallReleaseBatch ids (Ok tt) ∈ tr) \/
  (exists info, ECallState j (Ok info) ∈ tr /\ unpayable info = true).

Lemma settled_mono j tr l : settled j tr -> settled j (l ++ tr).
Proof. unfold settled. set_solver. Qed.
Lemma settled_concat j tr tr' : settled j (tr ++ tr') <-> settled j tr \/ settled j tr'.
Proof. unfold settled. repeat setoid_rewrite elem_of_app. naive_solver. Qed.

Section Evidence.
Context `{!StoreView S, !StoreLaws S}.
(** The jobs the cycle may touch: the theorems instantiate it with the ids of
    the candidates. *)
Context (allowed : Z -> Prop).

(** Why a release call may be made, given what happened before it. *)
Definition may_release (windowSec now : Z) (j : Z) (past : list event) : Prop :=
  allowed j /\ exists info, ECallState j (Ok info) ∈ past /\ Worker info = workerAddr /\
    releasable info windowSec now = true.

Definition event_ok (windowSec now : Z) (e : event) (past : list event) : Prop :=
  match e with
  | ECallState j _ => allowed j
  | ECallReleaseBatch ids _ =>
      Z.of_nat (length ids) <= Z.max 1 (MaxBatchSize cfg) /\
      forall j, j ∈ ids -> may_release windowSec now j past
  | ECallRelease j _ =>
      may_release windowSec now j past /\
      exists info rest, past = ECallState j (Ok info) :: rest /\ releasable info windowSec now = true
  | _ => True
  end.

Fixpoint justified (windowSec now : Z) (tr : list event) : Prop :=
  match tr with
  | [] => True
  | e :: past => event_ok windowSec now e past /\ justified windowSec now past
  end.

(** Totals of a trace: jobs released on chain, jobs reported released to the
    metrics, jobs reported failed, and pause events. *)
Fixpoint released_in (tr : list event) : Z :=
  match tr with
  | [] => 0
  | ECallRelease _ (Ok _) :: tr' => 1 + released_in tr'
  | ECallReleaseBatch ids (Ok _) :: tr' => Z.of_nat (length ids) + released_in tr'
  | _ :: tr' => released_in tr'
  end.
Fixpoint reported_in (tr : list event) : Z :=
  match tr with
  | [] => 0
  | EIncReleased n :: tr' => n + reported_in tr'
  | _ :: tr' => reported_in tr'
  end.
Fixpoint pauses_in (tr : list event) : Z :=
  match tr with
  | [] => 0
  | EIncPauseEvent :: tr' => 1 + pauses_in tr'
  | _ :: tr' => pauses_in tr'
  end.

Lemma may_release_mono ws now j tr l : may_release ws now j tr -> may_release ws now j (l ++ tr).
Proof. unfold may_release. set_solver. Qed.

(** ** One step of a cycle

    [cycle_step]: every part of a cycle but its last store write. The trace
    grows and stays justified; only settled jobs leave the store; the cursor,
    the gate and the last attempt are untouched. *)
Record view_step (tr : list event) (v v' : view) : Prop := {
  vs_jobs j : j ∈ v_jobs v -> j ∈ v_jobs v' \/ settled j tr;
  vs_sub j : j ∈ v_jobs v' -> j ∈ v_jobs v;
  vs_cursor : v_cursor v' = v_cursor v;
  vs_last : v_last v' = v_last v;
  vs_gate : v_gate v' = v_gate v;
}.

Record cycle_step (ws now : Z) (w w' : world) : Prop := {
  cs_trace : exists l, w_trace w' = l ++ w_trace w;
  cs_justified : justified ws now (w_trace w) -> justified ws now (w_trace w');
  cs_view v : store_view (w_store w) = Some v ->
    exists v', store_view (w_store w') = Some v' /\ view_step (w_trace w') v v' /\
      (store_healthy (w_store w) -> store_healthy (w_store w'));
  cs_pauses : pauses_in (w_trace w') = pauses_in (w_trace w);
}.

Lemma view_step_refl tr v : view_step tr v v.
Proof. split; auto. Qed.

Lemma view_step_trans l tr v1 v2 v3 :
  view_step tr v1 v2 -> view_step (l ++ tr) v2 v3 -> view_step (l ++ tr) v1 v3.
Proof.
  intros [J1 S1 C1 L1 G1] [J2 S2 C2 L2 G2]. split; try congruence; [|auto].
  intros j [Hj|Hj]%J1; [by apply J2|right; by apply settled_mono].
Qed.

Lemma cycle_step_refl ws now w : cycle_step ws now w w.
Proof.
  split; [by exists []|done| |done].
  intros v Hv. exists v. split; [done|]. split; [apply view_step_refl|done].
Qed.

Lemma cycle_step_trans ws now w1 w2 w3 :
  cycle_step ws now w1 w2 -> cycle_step ws now w2 w3 -> cycle_step ws now w1 w3.
Proof.
  intros [(l1 & T1) J1 V1 P1] [(l2 & T2) J2 V2 P2]. split.
  - exists (l2 ++ l1). rewrite T2, T1. by rewrite app_assoc.
  - auto.
  - intros v Hv. destruct (V1 v Hv) as (v' & Hv' & Hs & Hh).
    destruct (V2 v' Hv') as (v'' & Hv'' & Hs' & Hh'). exists v''. split; [done|]. split; [|auto].
    rewrite T2 in *. by eapply view_step_trans.
  - congruence.
Qed.

#[global] Instance cycle_step_preorder ws now : PreOrder (cycle_step ws now).
Proof. split; [intros ?; apply cycle_step_refl|intros ???; apply cycle_step_trans]. Qed.

(** Events the scheduler may emit at any time. *)
Definition plain_event (e : event) : bool :=
  match e with
  | ECallState _ _ | ECallRelease _ _ | ECallReleaseBatch _ _ | EIncPauseEvent => false
  | _ => true
  end.

Lemma step_trace ws now w ch e :
  event_ok ws now e (w_trace w) -> e <> EIncPauseEvent ->
  cycle_step ws now w (MkWorld (w_store w) ch (e :: w_trace w)).
Proof.
  intros Hok Hne. split; simpl; [by exists [e]|by split| |by destruct e].
  intros v Hv. exists v. split; [done|]. split; [apply view_step_refl|done].
Qed.

Lemma step_emit ws now w e u w' :
  emit e w = (u, w') -> plain_event e = true -> cycle_step ws now w w'.
Proof.
  intros [= <- <-] Hp. apply (step_trace _ _ _ (w_chain w)); by destruct e.
Qed.

Lemma step_report ws now w n ts :
  cycle_step ws now w
    (MkWorld (w_store w) (w_chain w) (ESetLastSuccessTimestamp ts :: EIncReleased n :: w_trace w)).
Proof.
  etrans; [by apply (step_trace _ _ _ (w_chain w) (EIncReleased n))|].
  by apply (step_trace _ _ (MkWorld _ _ (_ :: _)) (w_chain w)).
Qed.

Lemma step_getJobState ws now id w r w' :
  getJobState id w = (r, w') -> allowed id ->
  cycle_step ws now w w' /\ w_trace w' = ECallState id r :: w_trace w.
Proof.
  unfold getJobState, traced, on_chain. intros E Ha. run_go. split; [|done]. by apply step_trace.
Qed.

Lemma step_releaseJob ws now id w r w' info :
  releaseJob id w = (r, w') ->
  may_release ws now id (w_trace w) ->
  (exists rest, w_trace w = ECallState id (Ok info) :: rest) -> releasable info ws now = true ->
  cycle_step ws now w w' /\ w_trace w' = ECallRelease id r :: w_trace w.
Proof.
  unfold releaseJob, traced, on_chain. intros E Hm (rest & Hp) Hr. run_go. split; [|done].
  apply step_trace; [|done]. split; [done|]. by exists info, rest.
Qed.

Lemma step_releaseJobs ws now ids w r w' :
  releaseJobs ids w = (r, w') ->
  Z.of_nat (length ids) <= Z.max 1 (MaxBatchSize cfg) ->
  (forall j, j ∈ ids -> may_release ws now j (w_trace w)) ->
  cycle_step ws now w w' /\ w_trace w' = ECallReleaseBatch ids r :: w_trace w.
Proof.
  unfold releaseJobs, traced, on_chain. intros E Hl Hm. run_go. split; [|done]. by apply step_trace.
Qed.

(** A store operation whose specification respects [view_step]. *)
Lemma step_store {A} ws now (op : io S A) spec w r w' :
  implements op spec ->
  (forall v a v', spec v = Some (a, v') -> view_step (w_trace w) v v') ->
  on_store op w = (r, w') ->
  cycle_step ws now w w' /\ w_trace w' = w_trace w.
Proof.
  intros Hi Hs E. unfold on_store in E. destruct (op (w_store w)) as [r1 s1] eqn:Eo.
  simplify_eq/=. split; [|done]. split; simpl; [by exists []|done| |done].
  intros v Hv. destruct (Hi _ v Hv) as [Hr Hh]. unfold final, value in Hh. rewrite Eo in Hr, Hh.
  destruct r as [a|e]; simpl in *.
  - destruct Hr as (v' & Hsp & Hv'). exists v'. split; [done|]. split; [by eapply Hs|].
    intros Hx. by destruct (Hh Hx).
  - exists v. split; [done|]. split; [apply view_step_refl|]. intros Hx. by destruct (Hh Hx).
Qed.

Lemma step_try_store {A} ws now (op : io S A) spec w b w' :
  implements op spec ->
  (forall v a v', spec v = Some (a, v') -> view_step (w_trace w) v v') ->
  try_store op w = (b, w') ->
  cycle_step ws now w w' /\ w_trace w' = w_trace w.
Proof.
  intros Hi Hs. unfold try_store, st_bind, st_ret. destruct (on_store op w) as [r w1] eqn:E.
  intros [= <- <-]. by eapply step_store.
Qed.

Lemma spec_Remove_step tr ids v a v' :
  (forall j, j ∈ ids -> settled j tr) -> spec_Remove ids v = Some (a, v') -> view_step tr v v'.
Proof.
  intros Hs [= <- <-]. split; simpl; try done; unfold v_jobs; simpl.
  - intros j (p & -> & Hp)%list_elem_of_fmap.
    destruct (decide (JobID p ∈ ids)); [right; auto|left].
    apply list_elem_of_fmap. exists p. split; [done|]. by apply list_elem_of_filter.
  - intros j (p & -> & [_ Hp]%list_elem_of_filter)%list_elem_of_fmap.
    apply list_elem_of_fmap. by exists p.
Qed.

Lemma step_remove ws now ids w b w' :
  (forall j, j ∈ ids -> settled j (w_trace w)) -> try_store (Remove ids) w = (b, w') ->
  cycle_step ws now w w' /\ w_trace w' = w_trace w.
Proof. intros Hs. eapply step_try_store; [apply law_Remove|]. intros. by eapply spec_Remove_step. Qed.

Lemma bump_failure_jobs id u l l' : bump_failure id u l = Some l' -> JobID <$> l' = JobID <$> l.
Proof.
  revert l'. induction l as [|p l IH]; intros l'; simpl; [done|].
  destruct (JobID p =? id); [intros [= <-]; by rewrite !fmap_cons|].
  destruct (bump_failure id u l) as [l1|]; [|done]. intros [= <-].
  rewrite !fmap_cons. by rewrite (IH l1 eq_refl).
Qed.

Lemma step_recordPerJobFailure ws now id t w u w' :
  recordPerJobFailure id t w = (u, w') ->
  cycle_step ws now w w' /\ w_trace w' = w_trace w.
Proof.
  unfold recordPerJobFailure, st_bind, st_ret. intros E.
  destruct (on_store Pending w) as [r w1] eqn:E1.
  apply (step_store ws now _ _ _ _ _ law_Pending) in E1 as [S1 T1];
    [|intros ? ? ? [= <- <-]; apply view_step_refl].
  destruct r as [pending|]; [|by simplify_eq].
  set (until := i64_wrap _) in E.
  destruct (try_store (RecordFailure id until) w1) as [b w2] eqn:E2. simplify_eq/=.
  apply (step_try_store ws now _ _ _ _ _ (law_RecordFailure id until)) in E2 as [S2 T2].
  - split; [by etrans|congruence].
  - intros v a v' [= <- <-]. destruct (bump_failure id until (v_pending v)) as [l|] eqn:Eb;
      [|apply view_step_refl].
    split; simpl; try done; unfold v_jobs; simpl; rewrite (bump_failure_jobs _ _ _ _ Eb); auto.
Qed.

(** ** The parts of a cycle *)

(** What the bins of [partition] are backed by. *)
Record bins_ok (ws now : Z) (b : bins) (tr : list event) : Prop := {
  bo_release j : j ∈ releaseBatch b -> may_release ws now j tr;
  bo_drop j : j ∈ dropIDs b -> settled j tr;
}.

Lemma bins_ok_mono ws now b tr l : bins_ok ws now b tr -> bins_ok ws now b (l ++ tr).
Proof. intros [R D]. split; [intros; by apply may_release_mono, R|intros; by apply settled_mono, D]. Qed.

Definition bins_size (b : bins) : nat := length (releaseBatch b) + length (dropIDs b).

Lemma add_drop_ok ws now id info b tr :
  bins_ok ws now b tr -> ECallState id (Ok info) ∈ tr -> unpayable info = true ->
  bins_ok ws now (add_drop id b) tr.
Proof.
  intros [R D] Hin Hu. split; [done|]. simpl. intros j [Hj| ->%list_elem_of_singleton]%elem_of_app; [auto|].
  right; right. by exists info.
Qed.

Lemma add_release_ok ws now id info b tr :
  bins_ok ws now b tr -> allowed id -> ECallState id (Ok info) ∈ tr -> Worker info = workerAddr ->
  releasable info ws now = true -> bins_ok ws now (add_release id b) tr.
Proof.
  intros [R D] Ha Hin Hw Hr. split; [|done]. simpl. intros j [Hj| ->%list_elem_of_singleton]%elem_of_app; [auto|].
  split; [done|]. by exists info.
Qed.

(** Binning one more job: the evidence is kept, no release is reported, and
    the job enters at most one of the two bins that act on it. *)
Record binned (ws now id : Z) (b : bins) (w : world) (b' : bins) (w' : world) : Prop := {
  bn_step : cycle_step ws now w w';
  bn_ok : bins_ok ws now b' (w_trace w');
  bn_released : released_in (w_trace w') = released_in (w_trace w);
  bn_reported : reported_in (w_trace w') = reported_in (w_trace w);
  bn_source j : j ∈ releaseBatch b' -> j ∈ releaseBatch b \/ j = id;
  bn_size : (bins_size b' <= 1 + bins_size b)%nat;
}.

Lemma binned_drop ws now p info b w reason b' w' :
  bins_ok ws now b (w_trace w) -> ECallState (JobID p) (Ok info) ∈ w_trace w ->
  unpayable info = true ->
  (let! _ := emit (EIncDropped reason) in st_ret (add_drop (JobID p) b)) w = (b', w') ->
  binned ws now (JobID p) b w b' w'.
Proof.
  intros Hb Hin Hu [= <- <-]. split; simpl; auto.
  - by apply (step_trace _ _ _ (w_chain w)).
  - apply (bins_ok_mono _ _ _ _ [_]). by eapply add_drop_ok.
  - unfold bins_size; simpl. rewrite length_app; simpl. lia.
Qed.

Lemma binned_keep ws now id b w b' w' b1 :
  bins_ok ws now b (w_trace w) -> (b1, w) = (b', w') -> b1 = b \/ b1 = add_stale id b ->
  binned ws now id b w b' w'.
Proof.
  intros [R D] [= <- <-] [->| ->]; split; auto; try reflexivity; by split.
Qed.

Lemma binned_release ws now p info b w b' w' :
  bins_ok ws now b (w_trace w) -> allowed (JobID p) -> ECallState (JobID p) (Ok info) ∈ w_trace w ->
  Worker info = workerAddr -> releasable info ws now = true ->
  (add_release (JobID p) b, w) = (b', w') -> binned ws now (JobID p) b w b' w'.
Proof.
  intros Hb Ha Hin Hw Hr [= <- <-]. split; simpl; auto.
  - reflexivity.
  - by eapply add_release_ok.
  - set_solver.
  - unfold bins_size; simpl. rewrite length_app; simpl. lia.
Qed.

Lemma step_classify ws now p info b w b' w' :
  classify ws now p info b w = (b', w') -> allowed (JobID p) ->
  bins_ok ws now b (w_trace w) -> ECallState (JobID p) (Ok info) ∈ w_trace w ->
  binned ws now (JobID p) b w b' w'.
Proof.
  intros E Ha Hb Hin. unfold classify, st_ret in E.
  destruct (bool_decide (Worker info = workerAddr)) eqn:Hw; simpl in E.
  2:{ eapply binned_drop; [done|done| |exact E]. unfold unpayable. by rewrite Hw. }
  destruct (State info) eqn:Es; repeat case_match;
    first [ by eapply binned_keep; [done|done|auto]
          | eapply binned_release; [done|done|done|by apply bool_decide_eq_true in Hw| |done]
          | eapply binned_drop; [done|done| |exact E] ];
    unfold releasable, unpayable; rewrite Es, ?Hw; simpl; try done.
  by match goal with H : fee_positive _ = _ |- _ => rewrite H end.
Qed.

Lemma step_partition ws now cands b w b' w' :
  partition_loop ws now cands b w = (b', w') -> bins_ok ws now b (w_trace w) ->
  (forall p, p ∈ cands -> allowed (JobID p)) ->
  cycle_step ws now w w' /\ bins_ok ws now b' (w_trace w') /\
  released_in (w_trace w') = released_in (w_trace w) /\
  reported_in (w_trace w') = reported_in (w_trace w) /\
  (forall j, j ∈ releaseBatch b' -> j ∈ releaseBatch b \/ exists p, p ∈ cands /\ j = JobID p) /\
  (bins_size b' <= length cands + bins_size b)%nat.
Proof.
  revert b w. induction cands as [|p cands IH]; intros b w; simpl.
  { intros [= <- <-] Hb _. split; [reflexivity|]. split; [done|]. auto. }
  unfold st_bind. destruct (getJobState (JobID p) w) as [r w1] eqn:E1. intros E Hb Ha.
  apply (step_getJobState ws now) in E1 as [S1 T1]; [|apply Ha; left].
  assert (forall p, p ∈ cands -> allowed (JobID p)) as Ha' by (intros; apply Ha; by right).
  assert (bins_ok ws now b (w_trace w1)) as Hb1 by (rewrite T1; by apply (bins_ok_mono _ _ _ _ [_])).
  destruct r as [info|e].
  - destruct (classify ws now p info b w1) as [b2 w2] eqn:E2.
    apply step_classify in E2 as [S2 B2 R2 M2 L2 N2]; [|apply Ha; left|done|rewrite T1; left].
    apply IH in E as (S3 & B3 & R3 & M3 & L3 & N3); [|done|done].
    split; [by do 2 etrans|]. split; [done|]. rewrite R3, R2, M3, M2, T1.
    do 2 (split; [done|]). split; [|lia].
    intros j [Hj|(q & ? & ->)]%L3; [|right; exists q; set_solver].
    destruct (L2 j Hj) as [?| ->]; [by left|right; exists p; set_solver].
  - apply IH in E as (S3 & B3 & R3 & M3 & L3 & N3); [|done|done].
    split; [by etrans|]. split; [done|]. rewrite R3, M3, T1. do 2 (split; [done|]).
    split; [|lia]. intros j [Hj|(q & ? & ->)]%L3; [by left|right; exists q; set_solver].
Qed.

(** *** The fallback *)

Definition outcome (r : CycleResult) : Z := Released r + Failed r + Dropped r.

(** What one job of the fallback does to the counters. *)
Record fell_back (ws now : Z) (w : world) (out : CycleResult) (w' : world) (out' : CycleResult) : Prop := {
  fb_step : cycle_step ws now w w';
  fb_released : released_in (w_trace w') - released_in (w_trace w) = Released out' - Released out;
  fb_reported : reported_in (w_trace w') - reported_in (w_trace w) = Released out' - Released out;
  fb_nonneg : Released out <= Released out' /\ Failed out <= Failed out' /\ Dropped out <= Dropped out';
}.

Definition counted (ws now : Z) (w : world) (out : CycleResult) (w' : world) (r : bool * CycleResult) : Prop :=
  fell_back ws now w out w' (snd r) /\ outcome (snd r) <= outcome out + 1 /\ Paused (snd r) = fst r.

(** The counters follow from the trace; the steps compose. *)
Lemma counted_intro ws now w out w' stop out' :
  cycle_step ws now w w' ->
  released_in (w_trace w') = released_in (w_trace w) + (Released out' - Released out) ->
  reported_in (w_trace w') = reported_in (w_trace w) + (Released out' - Released out) ->
  Released out <= Released out' /\ Failed out <= Failed out' /\ Dropped out <= Dropped out' ->
  outcome out' <= outcome out + 1 -> Paused out' = stop ->
  counted ws now w out w' (stop, out').
Proof. intros. split; [split; simpl; (done || lia)|done]. Qed.

(** Close [counted] from the step [HS] and what the trace is. *)
Ltac count HS T :=
  apply counted_intro; [exact HS|..]; simpl; unfold outcome; simpl;
  rewrite ?T; simpl; (congruence || lia).

Lemma step_fallback_release ws now id info eligible out w r w' :
  fallback_release now id eligible out w = (r, w') ->
  may_release ws now id (w_trace w) -> Paused out = false ->
  (exists rest, w_trace w = ECallState id (Ok info) :: rest) ->
  (eligible = true -> releasable info ws now = true) ->
  counted ws now w out w' r.
Proof.
  unfold fallback_release, st_bind, st_ret. intros E Hm Hp Hr He.
  destruct eligible; simpl in E; [|simplify_eq].
  2:{ pose proof (cycle_step_refl ws now w') as S0. by apply counted_intro; [exact S0|unfold outcome; (done || lia)..]. }
  destruct (releaseJob id w) as [rr w1] eqn:E1.
  apply (step_releaseJob ws now _ _ _ _ info) in E1 as [S1 T1]; [|auto..].
  destruct rr as [[]|rErr].
  - destruct (try_store (Remove [id]) w1) as [b w2] eqn:E2.
    apply (step_remove ws now) in E2 as [S2 T2].
    2:{ intros j ->%list_elem_of_singleton. rewrite T1. left. left. }
    simpl in E. simplify_eq/=. rewrite T1 in T2.
    eassert (cycle_step ws now w _) as S3; [|count S3 T2].
    etrans; [exact S1|]. etrans; [exact S2|].
    apply step_report.
  - destruct (isPauseError rErr); simplify_eq/=.
    { count S1 T1. }
    destruct (recordPerJobFailure id now w1) as [u w2] eqn:E2.
    apply (step_recordPerJobFailure ws now) in E2 as [S2 T2]. simplify_eq/=.
    rewrite T1 in T2. eassert (cycle_step ws now w _) as S3; [|count S3 T2].
    etrans; [exact S1|]. etrans; [exact S2|]. by apply step_trace.
Qed.

Lemma step_fallback_job ws now id out w r w' :
  fallback_job ws now id out w = (r, w') ->
  may_release ws now id (w_trace w) -> Paused out = false ->
  counted ws now w out w' r.
Proof.
  unfold fallback_job, st_bind, st_ret. intros E Hm Hp.
  destruct (getJobState id w) as [rs w1] eqn:E1.
  apply (step_getJobState ws now) in E1 as [S1 T1]; [|apply Hm].
  assert (may_release ws now id (w_trace w1)) as Hm1 by (rewrite T1; by apply (may_release_mono _ _ _ _ [_])).
  assert (forall w2 r2, counted ws now w1 out w2 r2 -> counted ws now w out w2 r2) as Hc.
  { intros w2 r2 [[S2 R2 M2 N2] H2]. rewrite T1 in R2, M2. split; [|done]. split; [by etrans|done..]. }
  destruct rs as [info|e].
  2:{ destruct (recordPerJobFailure id now w1) as [u w2] eqn:E2.
      apply (step_recordPerJobFailure ws now) in E2 as [S2 T2]. simplify_eq/=. apply Hc.
      count S2 T2. }
  assert (forall el, (el = true -> releasable info ws now = true) ->
    fallback_release now id el out w1 = (r, w') -> counted ws now w out w' r) as Hrel.
  { intros el Hel Ef. apply Hc. by eapply step_fallback_release; [exact Ef|..|exact Hel]; eauto. }
  unfold releasable in Hrel.
  destruct (State info) eqn:Es; try (by eapply Hrel; [|exact E]); apply Hc.
  all: destruct (try_store (Remove [id]) w1) as [b w2] eqn:E2; simplify_eq/=.
  all: apply (step_remove ws now) in E2 as [S2 T2];
    [|intros j ->%list_elem_of_singleton; right; right; exists info; rewrite T1; split; [left|];
      unfold unpayable; rewrite Es; apply orb_true_r].
  all: destruct b; count S2 T2.
Qed.

Lemma step_fallback_loop ws now batch out w out' w' :
  fallback_loop ws now batch out w = (out', w') ->
  (forall j, j ∈ batch -> may_release ws now j (w_trace w)) -> Paused out = false ->
  fell_back ws now w out w' out' /\ outcome out' <= outcome out + Z.of_nat (length batch).
Proof.
  revert out w. induction batch as [|id batch IH]; intros out w; simpl.
  { intros [= <- <-] _ _. split; [split; simpl; (reflexivity || lia)|lia]. }
  unfold st_bind, st_ret. destruct (fallback_job ws now id out w) as [[stop out1] w1] eqn:E1.
  intros E Hm Hp. apply step_fallback_job in E1 as ([S1 R1 M1 N1] & O1 & P1); [|apply Hm; left|done].
  simpl in *. destruct stop.
  { simplify_eq/=. split; [split; [done|lia..]|lia]. }
  apply IH in E as ([S2 R2 M2 N2] & O2); [| |done].
  - split; [split; [by etrans|lia..]|lia].
  - intros j Hj. destruct (cs_trace _ _ _ _ S1) as [l ->]. apply may_release_mono, Hm. by right.
Qed.

(** *** The whole cycle *)

Definition ready (now : Z) (p : PendingJob) : Prop := BackoffUntil p <= now.

#[global] Instance ready_dec now p : Decision (ready now p).
Proof. unfold ready. apply _. Defined.

(** [collectCandidates] takes the first [MaxBatchSize] jobs that are out of
    backoff, and one even when that limit is not positive. *)
Lemma collect_loop_spec m now out pending :
  collect_loop m now out pending =
  out ++ take (Z.to_nat (Z.max 1 (m - Z.of_nat (length out)))) (filter (ready now) pending).
Proof.
  revert out. induction pending as [|p rest IH]; intros out; simpl.
  { rewrite filter_nil, take_nil. by rewrite app_nil_r. }
  destruct (Z.ltb_spec now (BackoffUntil p)).
  { rewrite filter_cons_False by (unfold ready; lia). apply IH. }
  rewrite filter_cons_True by (unfold ready; lia).
  rewrite length_app; simpl.
  destruct (Z.leb_spec m (Z.of_nat (length out + 1))).
  { by replace (Z.to_nat _) with 1%nat by lia. }
  rewrite IH, length_app; simpl. rewrite <- app_assoc; simpl. f_equal.
  replace (Z.to_nat (Z.max 1 (m - Z.of_nat (length out))))
    with (1 + Z.to_nat (Z.max 1 (m - Z.of_nat (length out + 1))))%nat by lia.
  done.
Qed.

Lemma collectCandidates_spec pending now :
  collectCandidates pending now =
  take (Z.to_nat (Z.max 1 (MaxBatchSize cfg))) (filter (ready now) pending).
Proof. unfold collectCandidates. rewrite collect_loop_spec. simpl. by rewrite Z.sub_0_r. Qed.

(** The cycle up to its last write: [w1] is the world before it, [r1] the
    result so far. *)
Definition ends_with (now : Z) (r1 : CycleResult) (w1 : world) (r : CycleResult) (w' : world) : Prop :=
  (Paused r1 = false /\ r = r1 /\ w' = final (recordAttempt now) w1) \/
  (Paused r1 = true /\ applyPauseBackoff now r1 w1 = (r, w')).

Record cycle_core (head : HeadInfo) (window : Z) (pending : list PendingJob)
    (w w1 : world) (r1 : CycleResult) : Prop := {
  cc_step : cycle_step (dur_secs window) (Timestamp head) w w1;
  cc_released : released_in (w_trace w1) - released_in (w_trace w) = Released r1;
  cc_reported : reported_in (w_trace w1) - reported_in (w_trace w) = Released r1;
  cc_nonneg : 0 <= Released r1 /\ 0 <= Failed r1 /\ 0 <= Dropped r1;
  cc_outcome : outcome r1 <= Candidates r1;
  cc_candidates : Candidates r1 = Z.of_nat (length (collectCandidates pending (Timestamp head)));
}.

Lemma step_remove_dropped ws now ids w n w' :
  remove_dropped ids w = (n, w') -> (forall j, j ∈ ids -> settled j (w_trace w)) ->
  cycle_step ws now w w' /\ w_trace w' = w_trace w /\ 0 <= n <= Z.of_nat (length ids).
Proof.
  unfold remove_dropped, st_bind, st_ret. intros E Hs. destruct (bool_decide (ids = [])).
  { simplify_eq. split; [reflexivity|]. split; [done|lia]. }
  destruct (try_store (Remove ids) w) as [ok w1] eqn:E1. simplify_eq/=.
  apply (step_remove ws now) in E1 as [S1 T1]; [|done]. split; [done|]. split; [done|].
  destruct ok; lia.
Qed.

(** The end of a cycle that submitted a batch. *)
Definition batch_result (n dropped : Z) (fb : CycleResult) (reverted : bool) : CycleResult :=
  MkCycleResult n (Released fb) (Failed fb) (dropped + Dropped fb) (Paused fb) reverted false 0.

Lemma runReleaseCycle_core head window pending w r w' :
  (forall p, p ∈ collectCandidates pending (Timestamp head) -> allowed (JobID p)) ->
  runReleaseCycle head window pending w = (r, w') ->
  exists w1 r1, cycle_core head window pending w w1 r1 /\ ends_with (Timestamp head) r1 w1 r w'.
Proof.
  intros Ha. unfold runReleaseCycle, st_bind, st_ret, partition, perJobFallback.
  set (cands := collectCandidates _ _) in *. set (now := Timestamp head) in *. set (ws := dur_secs window).
  assert (Z.of_nat (length cands) <= Z.max 1 (MaxBatchSize cfg)) as Hmax.
  { unfold cands. rewrite collectCandidates_spec, length_take. lia. }
  destruct (Z.eqb_spec (Z.of_nat (length cands)) 0) as [Hn|Hn].
  { intros E. exists w, r. destruct (recordAttempt now w) as [u w1] eqn:Er. simplify_eq/=.
    split; [split; simpl; unfold outcome; simpl; (reflexivity || lia)|].
    left. split; [done|]. split; [done|]. unfold final. by rewrite Er. }
  destruct (partition_loop ws now cands _ w) as [b w1] eqn:E1.
  apply step_partition in E1 as (S1 & B1 & R1 & M1 & L1 & N1); [|split; set_solver|done].
  destruct (remove_dropped (dropIDs b) w1) as [dropped w2] eqn:E2.
  apply (step_remove_dropped ws now) in E2 as (S2 & T2 & D2); [|apply B1].
  assert (cycle_step ws now w w2) as S12 by (by etrans).
  unfold bins_size in N1; simpl in N1.
  destruct (bool_decide_reflect (releaseBatch b = [])) as [Hrb|Hrb].
  { intros E. destruct (recordAttempt now w2) as [u w3] eqn:Er. simplify_eq/=.
    eexists w2, _. split; [|left; split; [|split; [reflexivity|unfold final; by rewrite Er]]]; [|done].
    split; simpl; unfold outcome; simpl; try done; rewrite ?T2; lia. }
  destruct (releaseJobs (releaseBatch b) w2) as [rr w3] eqn:E3.
  apply (step_releaseJobs ws now) in E3 as [S3 T3]; [|lia|rewrite T2; apply B1].
  rewrite T2 in T3. destruct rr as [[]|err].
  - destruct (try_store (Remove (releaseBatch b)) w3) as [ok w4] eqn:E4.
    apply (step_remove ws now) in E4 as [S4 T4].
    2:{ intros j Hj. rewrite T3. right; left. exists (releaseBatch b). split; [done|left]. }
    simpl. destruct (recordAttempt now _) as [u w5] eqn:E5. intros [= <- <-].
    eexists _, _. split; [|left; split; [|split; [reflexivity|unfold final; by rewrite E5]]]; [|done].
    split; [|simpl; unfold outcome; simpl; rewrite ?T4, ?T3; simpl; (lia || done)..].
    etrans; [exact S12|]. etrans; [exact S3|]. etrans; [exact S4|]. apply step_report.
  - destruct (isPauseError err).
    { intros E. exists w3. eexists. split; [|right; split; [|exact E]]; [|done].
      split; [by etrans|simpl; unfold outcome; simpl; rewrite ?T3; simpl; (lia || done)..]. }
    destruct (fallback_loop ws now (releaseBatch b) empty_result w3) as [fb w4] eqn:E4.
    apply step_fallback_loop in E4 as ([S4 R4 M4 N4] & O4); [| |done].
    2:{ rewrite T3. intros j Hj. by apply (may_release_mono _ _ _ _ [_]), B1. }
    unfold outcome in O4. simpl in *. rewrite T3 in R4, M4. simpl in *.
    assert (cycle_core head window pending w w4 (batch_result (Z.of_nat (length cands)) dropped fb true)) as Hcc.
    { split; simpl; unfold outcome; simpl; try lia; [|done].
      etrans; [exact S12|]. by etrans. }
    intros E. exists w4. destruct (Paused fb) eqn:Ep.
    + eexists. split; [exact Hcc|]. right. unfold batch_result. simpl. rewrite Ep. by split.
    + destruct (recordAttempt now w4) as [u w5] eqn:E5. simplify_eq/=.
      eexists. split; [exact Hcc|]. left. unfold final, batch_result; simpl. by rewrite Ep, E5.
Qed.
End Evidence.

(** ** The guarantees of a cycle *)
Section Guarantees.
Context `{!StoreView S, !StoreLaws S}.

(** The ids [runReleaseCycle] may touch. *)
Definition candidate (pending : list PendingJob) (now : Z) (j : Z) : Prop :=
  exists p, p ∈ pending /\ JobID p = j /\ BackoffUntil p <= now.

Lemma candidates_are_ready pending now p :
  p ∈ collectCandidates pending now -> p ∈ pending /\ BackoffUntil p <= now.
Proof.
  rewrite collectCandidates_spec. intros Hp.
  assert (p ∈ filter (ready now) pending) as Hf.
  { apply list_elem_of_lookup in Hp as [i Hi].
    apply lookup_take_Some in Hi as [Hi _]. by eapply list_elem_of_lookup_2. }
  apply list_elem_of_filter in Hf as [Hr Hf]. done.
Qed.

Lemma cycle_core_of head window pending w r w' :
  runReleaseCycle head window pending w = (r, w') ->
  exists w1 r1, cycle_core (candidate pending (Timestamp head)) head window pending w w1 r1 /\
    ends_with (Timestamp head) r1 w1 r w'.
Proof.
  apply runReleaseCycle_core. intros p Hp. apply candidates_are_ready in Hp as [? ?]. by exists p.
Qed.

Lemma recordAttempt_trace now w : w_trace (final (recordAttempt now) w) = w_trace w.
Proof. unfold recordAttempt, try_store, on_store, final, st_bind, st_ret. by destruct (SetLastReleaseTs now _). Qed.

Lemma applyPauseBackoff_trace now r1 w1 r w' :
  applyPauseBackoff now r1 w1 = (r, w') ->
  w_trace w' = EIncPauseEvent :: w_trace w1 /\ Released r = Released r1 /\ Failed r = Failed r1 /\
  Dropped r = Dropped r1 /\ Candidates r = Candidates r1 /\ Paused r = Paused r1 /\
  NextAllowedAt r = i64_wrap (now + dur_secs (PausedCycleBackoff cfg)).
Proof.
  unfold applyPauseBackoff, recordAttemptWithBackoff, try_store, on_store, emit, st_bind, st_ret.
  destruct (SetNextAllowedAttempt _ _). simpl. by intros [= <- <-].
Qed.

(** The events of the cycle are the ones of its core and maybe a pause. *)
Lemma ends_with_trace now r1 w1 r w' :
  ends_with now r1 w1 r w' ->
  w_trace w' = (if Paused r1 then [EIncPauseEvent] else []) ++ w_trace w1 /\
  Released r = Released r1 /\ Failed r = Failed r1 /\ Dropped r = Dropped r1 /\
  Candidates r = Candidates r1 /\ Paused r = Paused r1.
Proof.
  intros [(Hp & -> & ->)|[Hp E]]; rewrite Hp; [by rewrite recordAttempt_trace|].
  apply applyPauseBackoff_trace in E as (? & ? & ? & ? & ? & ? & _). rewrite Hp in *. done.
Qed.

(** C7. Only jobs the contract will pay this worker for are submitted: a batch
    holds at most [MaxBatchSize] ids (one when that is not positive), each of
    a pending job out of backoff whose on-chain record, read earlier in the
    same cycle, names this worker and is Completed with the dispute window
    elapsed or Resolved with escrow; and a single release directly follows a
    fresh read that still says so. *)
Theorem release_only_eligible head window pending w r w' l e past :
  w_trace w = [] -> runReleaseCycle head window pending w = (r, w') ->
  w_trace w' = l ++ e :: past ->
  let may j := candidate pending (Timestamp head) j /\
    exists info, ECallState j (Ok info) ∈ past /\ Worker info = workerAddr /\
      releasable info (dur_secs window) (Timestamp head) = true in
  match e with
  | ECallReleaseBatch ids _ =>
      Z.of_nat (length ids) <= Z.max 1 (MaxBatchSize cfg) /\ (forall j, j ∈ ids -> may j)
  | ECallRelease j _ =>
      may j /\ exists info rest, past = ECallState j (Ok info) :: rest /\
                 releasable info (dur_secs window) (Timestamp head) = true
  | ECallState j _ => candidate pending (Timestamp head) j
  | _ => True
  end.
Proof.
  intros H0 E HT. apply cycle_core_of in E as (w1 & r1 & [S1 _ _ _ _ _] & He).
  apply ends_with_trace in He as [T _]. pose proof (cs_justified _ _ _ _ _ S1) as HJ.
  rewrite H0 in HJ. specialize (HJ I).
  assert (justified (candidate pending (Timestamp head)) (dur_secs window) (Timestamp head) (w_trace w')) as HJ'.
  { rewrite T. destruct (Paused r1); [by split|done]. }
  rewrite HT in HJ'. clear -HJ'. simpl.
  induction l as [|e' l IH]; simpl in HJ'; [|by apply IH, HJ'].
  destruct HJ' as [He _]. by destruct e.
Qed.

Lemma cycle_keeps head window pending w r w' v :
  store_view (w_store w) = Some v ->
  runReleaseCycle head window pending w = (r, w') ->
  exists v', store_view (w_store w') = Some v' /\
    (forall j, j ∈ v_jobs v -> j ∈ v_jobs v' \/ settled j (w_trace w')) /\
    (forall j, j ∈ v_jobs v' -> j ∈ v_jobs v) /\ v_cursor v' = v_cursor v.
Proof.
  intros Hv E. apply cycle_core_of in E as (w1 & r1 & [S1 _ _ _ _ _] & He).
  pose proof (ends_with_trace _ _ _ _ _ He) as [T _].
  destruct (cs_view _ _ _ _ _ S1 v Hv) as (v1 & Hv1 & [J1 SU1 C1 _ _] & _).
  assert (exists v', store_view (w_store w') = Some v' /\ v_jobs v' = v_jobs v1 /\ v_cursor v' = v_cursor v1)
    as (v' & Hv' & Hj & Hc).
  { destruct He as [(_ & _ & ->)|[_ E]].
    - unfold recordAttempt, try_store, on_store, final, st_bind, st_ret.
      destruct (law_SetLastReleaseTs (Timestamp head) _ v1 Hv1) as [Hl _].
      destruct (SetLastReleaseTs _ (w_store w1)) as [[?|?] ?]; simpl; [|by exists v1].
      destruct Hl as (v2 & [= _ <-] & ?). eexists. by split.
    - unfold applyPauseBackoff, recordAttemptWithBackoff, try_store, on_store, emit, st_bind, st_ret in E.
      simpl in E. set (until := i64_wrap _) in E.
      destruct (law_SetNextAllowedAttempt until _ v1 Hv1) as [Hl _].
      destruct (SetNextAllowedAttempt until (w_store w1)) as [[?|?] ?]; simplify_eq/=; [|by exists v1].
      destruct Hl as (v2 & [= _ <-] & ?). eexists. by split. }
  exists v'. rewrite Hj, Hc. split; [done|]. split; [|split; [exact SU1|exact C1]].
  intros j [?|?]%J1; [by left|right]. rewrite T. by apply settled_mono.
Qed.

(** A cycle loses no money: a job leaves the pending set only if its
    release succeeded in this cycle, in the batch or alone, or its on-chain
    record was read as one that can never pay this worker. Nothing is added,
    and the reconciler's cursor is not touched. *)
Theorem cycle_loses_no_job head window pending w r w' v :
  store_view (w_store w) = Some v ->
  runReleaseCycle head window pending w = (r, w') ->
  exists v', store_view (w_store w') = Some v' /\
    (forall j, j ∈ v_jobs v -> j ∈ v_jobs v' \/ settled j (w_trace w')) /\
    (forall j, j ∈ v_jobs v' -> j ∈ v_jobs v) /\ v_cursor v' = v_cursor v.
Proof. apply cycle_keeps. Qed.

(** A manual run that is not gated is one cycle over the pending jobs. *)
Lemma run_keeps w v r w' : store_view (w_store w) = Some v -> w_trace w = [] -> RunOnce w = (r, w') ->
  exists v', store_view (w_store w') = Some v' /\
    (forall j, j ∈ v_jobs v -> j ∈ v_jobs v' \/ settled j (w_trace w')) /\
    (forall j, j ∈ v_jobs v' -> j ∈ v_jobs v) /\ v_cursor v' = v_cursor v.
Proof.
  intros Hv HT. unfold RunOnce, disputeWindow, on_chain, on_store, io_bind, io_wrap, io_ret, st_bind.
  assert (forall (w1 : world), store_view (w_store w1) = Some v -> exists v', store_view (w_store w1) = Some v' /\
    (forall j, j ∈ v_jobs v -> j ∈ v_jobs v' \/ settled j (w_trace w1)) /\
    (forall j, j ∈ v_jobs v' -> j ∈ v_jobs v) /\ v_cursor v' = v_cursor v) as Hsame by (intros w1 Hw; exists v; eauto).
  destruct (Head (w_chain w)) as [[hd|e] ch1]; cbn; [|intros [= _ <-]; by apply Hsame].
  destruct (law_GetNextAllowedAttempt _ v Hv) as [Hr _].
  destruct (GetNextAllowedAttempt (w_store w)) as [[g|e] s1]; cbn; [|intros [= _ <-]; by apply Hsame].
  destruct Hr as (v1 & [= _ <-] & Hv1). destruct (Timestamp hd <? g); [intros [= _ <-]; by apply Hsame|].
  assert (forall window ch2, (let '(r0, s2) := Pending s1 in
    match r0 with
    | Ok pending => let '(c, w2) := runReleaseCycle hd window pending (MkWorld s2 ch2 (w_trace w)) in (Ok c, w2)
    | Err e => (Err (wrap "read pending" e), MkWorld s2 ch2 (w_trace w))
    end) = (r, w') -> exists v', store_view (w_store w') = Some v' /\
    (forall j, j ∈ v_jobs v -> j ∈ v_jobs v' \/ settled j (w_trace w')) /\
    (forall j, j ∈ v_jobs v' -> j ∈ v_jobs v) /\ v_cursor v' = v_cursor v) as Hcycle.
  { intros window ch2. destruct (law_Pending _ v Hv1) as [Hp _]. destruct (Pending s1) as [[pending|e] s2]; [|intros [= _ <-]; by apply Hsame].
    destruct Hp as (v2 & Hs & Hv2). destruct (runReleaseCycle hd window pending _) as [c w2] eqn:E. intros [= _ <-].
    unfold spec_Pending in Hs. injection Hs as _ <-. by eapply cycle_keeps; [|exact E]. }
  destruct (0 <? DisputeWindowOverride cfg); cbn.
  - intros E. apply (Hcycle (DisputeWindowOverride cfg) ch1). rewrite <- E. by destruct (Pending s1) as [r0 s2]; destruct r0.
  - destruct (GetDisputeWindow ch1) as [[window|e] ch2]; cbn; [|intros [= _ <-]; by apply Hsame].
    intros E. apply (Hcycle window ch2). rewrite <- E. by destruct (Pending s1) as [r0 s2]; destruct r0.
Qed.

(** The result of a cycle is what happened: [Released] is the number of
    jobs in successful release transactions and what the metrics were told;
    released, failed and dropped jobs are distinct outcomes of at most
    [Candidates] jobs, and those are the ready ones up to the batch limit. *)
Theorem cycle_result_accounts head window pending w r w' :
  runReleaseCycle head window pending w = (r, w') ->
  Released r = released_in (w_trace w') - released_in (w_trace w) /\
  Released r = reported_in (w_trace w') - reported_in (w_trace w) /\
  0 <= Released r /\ 0 <= Failed r /\ 0 <= Dropped r /\
  Released r + Failed r + Dropped r <= Candidates r /\
  Candidates r = Z.min (Z.max 1 (MaxBatchSize cfg)) (countReadyForStateCheck pending (Timestamp head)).
Proof.
  intros E. apply cycle_core_of in E as (w1 & r1 & [S1 R1 M1 N1 O1 C1] & He).
  apply ends_with_trace in He as (T & -> & -> & -> & -> & _).
  assert (released_in (w_trace w') = released_in (w_trace w1) /\
          reported_in (w_trace w') = reported_in (w_trace w1)) as [HR HM].
  { rewrite T. by destruct (Paused r1). }
  rewrite HR, HM. unfold outcome in O1. split; [lia|]. split; [lia|]. do 3 (split; [lia|]).
  split; [lia|]. rewrite C1, collectCandidates_spec, length_take.
  assert (countReadyForStateCheck pending (Timestamp head) =
          Z.of_nat (length (filter (ready (Timestamp head)) pending))) as ->.
  { clear. induction pending as [|p l IH]; [done|]. simpl.
    destruct (Z.ltb_spec (Timestamp head) (BackoffUntil p)).
    - rewrite filter_cons_False by (unfold ready; lia). exact IH.
    - rewrite filter_cons_True by (unfold ready; lia). rewrite IH. cbn [length]. lia. }
  lia.
Qed.

Lemma try_store_ok {A} (op : io S A) spec w v a v' :
  implements op spec -> store_view (w_store w) = Some v -> store_healthy (w_store w) ->
  spec v = Some (a, v') ->
  exists s', try_store op w = (true, MkWorld s' (w_chain w) (w_trace w)) /\
    store_view s' = Some v' /\ store_healthy s'.
Proof.
  intros Hi Hv Hh Hs. destruct (Hi _ v Hv) as [Hr Hok]. destruct (Hok Hh) as [Hh' Hk].
  unfold try_store, on_store, st_bind, st_ret, final, value in *.
  specialize (Hk (ltac:(rewrite Hs; eauto))).
  destruct (op (w_store w)) as [[x|e] s']; [|done]. destruct Hr as (v2 & Hs2 & Hv2).
  rewrite Hs in Hs2. injection Hs2 as <- <-. by exists s'.
Qed.

(** A paused contract closes the gate, once: on a healthy store a cycle
    that met a pause, in the batch or in the fallback, emits one pause event,
    moves the gate to [now + PausedCycleBackoff] and leaves the last-attempt
    time alone; every other cycle emits none, records the attempt and leaves
    the gate alone. *)
Theorem pause_closes_gate_once head window pending w r w' v :
  store_view (w_store w) = Some v -> store_healthy (w_store w) ->
  runReleaseCycle head window pending w = (r, w') ->
  let until := i64_wrap (Timestamp head + dur_secs (PausedCycleBackoff cfg)) in
  exists v', store_view (w_store w') = Some v' /\ store_healthy (w_store w') /\
    if Paused r
    then pauses_in (w_trace w') = pauses_in (w_trace w) + 1 /\ v_gate v' = until /\
         v_last v' = v_last v /\ NextAllowedAt r = until
    else pauses_in (w_trace w') = pauses_in (w_trace w) /\ v_gate v' = v_gate v /\
         v_last v' = Timestamp head.
Proof.
  intros Hv Hh E until. apply cycle_core_of in E as (w1 & r1 & [S1 _ _ _ _ _] & He).
  destruct (cs_view _ _ _ _ _ S1 v Hv) as (v1 & Hv1 & [_ _ _ L1 G1] & Hh1). specialize (Hh1 Hh).
  destruct He as [(Hp & -> & ->)|[Hp E]]; rewrite ?Hp.
  - destruct (try_store_ok _ _ _ _ _ _ (law_SetLastReleaseTs (Timestamp head)) Hv1 Hh1 eq_refl)
      as (s' & Et & Hv' & Hh').
    unfold recordAttempt, final, st_bind, st_ret. rewrite Et. simpl.
    eexists. split; [exact Hv'|]. split; [done|]. simpl.
    rewrite (cs_pauses _ _ _ _ _ S1). done.
  - pose proof (applyPauseBackoff_trace _ _ _ _ _ E) as (T & _ & _ & _ & _ & HpE & Hn).
    rewrite HpE, Hp. unfold applyPauseBackoff, recordAttemptWithBackoff, emit, st_bind, st_ret in E.
    destruct (try_store_ok (SetNextAllowedAttempt until) _
      (MkWorld (w_store w1) (w_chain w1) (EIncPauseEvent :: w_trace w1)) v1 _ _
      (law_SetNextAllowedAttempt until) Hv1 Hh1 eq_refl) as (s' & Et & Hv' & Hh').
    fold until in E. rewrite Et in E. injection E as <- <-. simpl.
    eexists. split; [exact Hv'|]. split; [done|]. simpl.
    rewrite (cs_pauses _ _ _ _ _ S1). split; [lia|]. done.
Qed.

(** The gate holds on both paths: while the chain's time is before it,
    neither the periodic tick nor a manual run makes a release call, emits a
    metric or writes to the store, and the manual run reports the gate. *)
Theorem gate_blocks_release w v :
  store_view (w_store w) = Some v ->
  (forall hd ch', Head (w_chain w) = (Ok hd, ch') -> Timestamp hd < v_gate v) ->
  (store_view (w_store (final tick w)) = Some v /\ w_trace (final tick w) = w_trace w) /\
  (forall r w', RunOnce w = (r, w') ->
     store_view (w_store w') = Some v /\ w_trace w' = w_trace w /\
     (forall res, r = Ok res -> BackoffActive res = true /\ NextAllowedAt res = v_gate v /\
                                Released res = 0)).
Proof.
  intros Hv Hg. unfold final, tick, tick_steps, RunOnce, on_chain, on_store, io_bind, io_wrap, st_bind.
  destruct (Head (w_chain w)) as [[hd|e] ch1] eqn:Eh; simpl.
  2:{ split; [done|]. intros r w' [= <- <-]. done. }
  destruct (law_GetNextAllowedAttempt _ v Hv) as [Hr _].
  destruct (GetNextAllowedAttempt (w_store w)) as [[g|e] s1]; simpl.
  - destruct Hr as (v' & [= <- <-] & Hv1). specialize (Hg hd ch1 eq_refl).
    apply Z.ltb_lt in Hg. rewrite Hg. simpl. split; [done|]. intros r w' [= <- <-].
    split; [done|]. split; [done|]. by intros res [= <-].
  - split; [done|]. intros r w' [= <- <-]. done.
Qed.

Lemma find_unique id (p : PendingJob) (l l' : list PendingJob) :
  l ≡ₚ l' -> NoDup (JobID <$> l) -> p ∈ l -> JobID p = id ->
  List.find (fun q => JobID q =? id) l' = Some p.
Proof.
  intros Hp Hnd Hin Hid. rewrite Hp in Hin. rewrite Hp in Hnd. clear Hp l.
  induction l' as [|q l' IH]; simpl; [by apply not_elem_of_nil in Hin|].
  rewrite fmap_cons in Hnd. apply NoDup_cons in Hnd as [Hn Hnd].
  apply elem_of_cons in Hin as [->|Hin].
  - by rewrite Hid, Z.eqb_refl.
  - destruct (Z.eqb_spec (JobID q) id) as [Hq|_]; [|by apply IH].
    destruct Hn. rewrite Hq, <- Hid. apply list_elem_of_fmap. by exists p.
Qed.

Lemma bump_failure_split id until l1 p l2 :
  JobID p = id -> id ∉ JobID <$> l1 ->
  bump_failure id until (l1 ++ p :: l2) =
  Some (l1 ++ MkPendingJob (JobID p) (CompletedAt p) (i64_wrap (FailCount p + 1)) until :: l2).
Proof.
  intros Hid. induction l1 as [|q l1 IH]; simpl.
  - by rewrite Hid, Z.eqb_refl.
  - rewrite elem_of_cons. intros Hn. destruct (Z.eqb_spec (JobID q) id); [naive_solver|].
    rewrite IH by naive_solver. done.
Qed.

(** A job whose single release failed is charged alone: on a healthy store
    its fail count goes up by one and it is put off until [computeBackoff] of
    the new count from now, so that no cycle before then selects it; every
    other entry, the gate and the attempt time stay as they were. *)
Theorem failure_charges_one_job now w u w' v l1 p l2 :
  store_view (w_store w) = Some v -> store_healthy (w_store w) -> NoDup (v_jobs v) ->
  v_pending v = l1 ++ p :: l2 ->
  recordPerJobFailure (JobID p) now w = (u, w') ->
  let n := i64_wrap (FailCount p + 1) in
  let until := i64_wrap (now + dur_secs (computeBackoff (BackoffBase cfg) (BackoffMax cfg) n)) in
  let l' := l1 ++ MkPendingJob (JobID p) (CompletedAt p) n until :: l2 in
  store_view (w_store w') = Some (View l' (v_cursor v) (v_last v) (v_gate v)) /\
  store_healthy (w_store w') /\
  (forall t, t < until -> JobID p ∉ JobID <$> collectCandidates l' t).
Proof.
  intros Hv Hh Hnd Hl E n until l'. unfold v_jobs in Hnd. rewrite Hl in Hnd.
  assert (JobID p ∉ JobID <$> l1 /\ JobID p ∉ JobID <$> l2) as [Hn1 Hn2].
  { rewrite fmap_app, fmap_cons in Hnd. apply NoDup_app in Hnd as (_ & Hd & Hnd2).
    apply NoDup_cons in Hnd2 as [? _]. split; [|done]. intros Hin. by apply (Hd _ Hin), elem_of_cons; left. }
  unfold recordPerJobFailure, st_bind, st_ret, on_store in E.
  destruct (law_Pending _ v Hv) as [Hr Hok]. destruct (Hok Hh) as [Hh1 Hk]. unfold final, value in *.
  specialize (Hk (ltac:(done))).
  destruct (Pending (w_store w)) as [[pending|?] s1]; [|done].
  destruct Hr as (v1 & [= <- <-] & Hv1). simpl in E.
  assert (fail_count_of (JobID p) (sort_by_JobID (v_pending v)) = FailCount p) as Hfc.
  { unfold fail_count_of. rewrite (find_unique (JobID p) p (v_pending v)); [done| | | |done].
    - unfold sort_by_JobID. by rewrite sorting.merge_sort_Permutation.
    - by rewrite Hl.
    - rewrite Hl. set_solver. }
  rewrite Hfc in E. fold n until in E.
  destruct (try_store_ok (RecordFailure (JobID p) until) _ (MkWorld s1 (w_chain w) (w_trace w)) v tt
    (View l' (v_cursor v) (v_last v) (v_gate v)) (law_RecordFailure _ _) Hv1 Hh1) as (s2 & Et & Hv2 & Hh2).
  { unfold spec_RecordFailure. rewrite Hl, bump_failure_split by done. done. }
  rewrite Et in E. simplify_eq/=. split; [done|]. split; [done|].
  intros t Ht (q & Hq & Hin)%list_elem_of_fmap. apply candidates_are_ready in Hin as [Hin Hb].
  unfold l' in Hin. apply elem_of_app in Hin as [Hin|[->|Hin]%elem_of_cons].
  - apply Hn1. rewrite Hq. apply list_elem_of_fmap. by exists q.
  - simpl in Hb. lia.
  - apply Hn2. rewrite Hq. apply list_elem_of_fmap. by exists q.
Qed.
End Guarantees.
End Scheduler.

(** ** Backoff of a single job *)

Lemma shift_capped attempt :
  1 <= attempt <= i64_max ->
  let shift0 := i64_wrap (attempt - 1) in
  (if 30 <? shift0 then 30 else shift0) = Z.min 30 (attempt - 1).
Proof.
  intros Ha shift0. unfold shift0. rewrite i64_wrap_id by (unfold is_i64, i64_min; lia).
  destruct (Z.ltb_spec 30 (attempt - 1)); lia.
Qed.

(** The shifts at which the [int64] product is right, or wraps to something
    the guard replaces by the maximum. *)
Definition backoff_safe (base maxBackoff : Z) : bool :=
  forallb (fun s =>
    let d := i64_wrap (base * 2 ^ s) in
    (base * 2 ^ s <=? i64_max) || (maxBackoff <=? d) || (d <=? 0)) (seqZ 0 31).

Lemma computeBackoff_unfold base maxBackoff n :
  1 <= n <= i64_max ->
  computeBackoff base maxBackoff n =
  let d := i64_wrap (base * 2 ^ Z.min 30 (n - 1)) in
  if (maxBackoff <? d) || (d <=? 0) then maxBackoff else d.
Proof.
  intros Hn. unfold computeBackoff. destruct (Z.ltb_spec n 1); [lia|].
  rewrite shift_capped by done. by rewrite Z.shiftl_mul_pow2 by lia.
Qed.

(** C22. With a positive base of at most the maximum, the n-th consecutive
    failure of a job delays it by exactly [base * 2^min(30, n-1)] capped at the
    maximum, so never by less than the base, for precisely the settings that
    pass [backoff_safe]; the ones that fail it have an attempt number whose
    [int64] product wraps to a small positive delay the overflow check does not
    see. *)
Theorem computeBackoff_doubles base maxBackoff :
  0 < base <= maxBackoff -> maxBackoff <= i64_max ->
  backoff_safe base maxBackoff = true <->
  forall n, 1 <= n <= i64_max ->
    computeBackoff base maxBackoff n = Z.min maxBackoff (base * 2 ^ Z.min 30 (n - 1)) /\
    base <= computeBackoff base maxBackoff n <= maxBackoff.
Proof.
  intros Hb Hm. unfold backoff_safe. rewrite forallb_forall.
  assert (forall s, 0 <= s -> 1 <= 2 ^ s) as Hpow by (intros; pose proof (Z.pow_pos_nonneg 2 s); lia).
  split.
  - intros Hs n Hn. rewrite computeBackoff_unfold by done. cbv zeta.
    specialize (Hpow (Z.min 30 (n - 1)) ltac:(lia)).
    specialize (Hs (Z.min 30 (n - 1))). rewrite <- list_elem_of_In, elem_of_seqZ in Hs.
    specialize (Hs ltac:(lia)). set (m := base * 2 ^ Z.min 30 (n - 1)) in *.
    assert (base <= m) by (unfold m; nia).
    destruct (Z.leb_spec m i64_max).
    + rewrite i64_wrap_id by (unfold is_i64, i64_min; lia).
      destruct (Z.ltb_spec maxBackoff m), (Z.leb_spec m 0); simpl; lia.
    + simpl in Hs. destruct (Z.leb_spec maxBackoff (i64_wrap m)), (Z.leb_spec (i64_wrap m) 0);
        destruct (Z.ltb_spec maxBackoff (i64_wrap m)); simpl; try done; lia.
  - intros Hn s. rewrite <- list_elem_of_In, elem_of_seqZ. intros Hs. cbv zeta.
    destruct (Z.leb_spec (base * 2 ^ s) i64_max) as [|Hbig]; [done|]. simpl.
    destruct (Hn (s + 1)) as [E _]; [unfold i64_max; lia|].
    rewrite computeBackoff_unfold in E by (unfold i64_max; lia).
    replace (Z.min 30 (s + 1 - 1)) with s in E by lia. cbv zeta in E.
    destruct (Z.leb_spec maxBackoff (i64_wrap (base * 2 ^ s))); [done|].
    destruct (Z.leb_spec (i64_wrap (base * 2 ^ s)) 0); [done|].
    destruct (Z.ltb_spec maxBackoff (i64_wrap (base * 2 ^ s))); [lia|]. simpl in E. lia.
Qed.

(** Such a setting: with this base the 31st failure is retried a second later. *)
Lemma computeBackoff_wraps :
  computeBackoff (2 ^ 34 + 1) (24 * Hour) 31 = 2 ^ 30 /\ 2 ^ 30 < 2 ^ 34 + 1.
Proof. vm_compute. split; reflexivity. Qed.

(** ** Concrete runs

    A chain given by the state of each job, whether it is paused, and the jobs
    whose release reverts. *)
#[local] Existing Instances plain_addresses plain_addresses_laws.

Definition demo_addr : @Address plain_addresses := "0xW"%string.

Record demo_chain : Type := MkDemoChain {
  dc_head : HeadInfo;
  dc_state : Z -> JobStateInfo;
  dc_paused : bool;
  dc_failing : list Z;
}.

#[local] Instance demo_client : SettlementClient demo_chain := {|
  Head := fun c => (Ok (dc_head c), c);
  GetDisputeWindow := fun c => (Ok (60 * Second), c);
  GetJobState := fun id c => (Ok (dc_state c id), c);
  ReleaseJob := fun id c =>
    (if dc_paused c then Err (errors_New ErrContractPaused "contract paused")
     else if bool_decide (id ∈ dc_failing c) then Err (errorf "execution reverted") else Ok tt, c);
  ReleaseJobs := fun ids c =>
    (if dc_paused c then Err (errors_New ErrContractPaused "contract paused")
     else if existsb (fun id => bool_decide (id ∈ dc_failing c)) ids
     then Err (errorf "execution reverted") else Ok tt, c);
  FilterJobCompleted := fun _ _ _ c => (Ok [], c);
|}.

Definition demo_jobs : list PendingJob :=
  [MkPendingJob 7 900 0 0; MkPendingJob 8 900 0 0; MkPendingJob 9 900 0 0; MkPendingJob 10 900 0 5000].
Definition demo_state (id : Z) : JobStateInfo :=
  if id =? 9 then MkJobStateInfo JobStateReleased demo_addr 900 None
  else MkJobStateInfo JobStateCompleted demo_addr 900 (Some 5).
Definition demo_chain_with (paused : bool) (failing : list Z) : demo_chain :=
  MkDemoChain (MkHead 10 1000) demo_state paused failing.
Definition demo_snapshot (gate : Z) : FileStore.Snapshot :=
  FileStore.MkSnapshot 2 31337 "0xR" "0xW" demo_jobs 40 0 gate.
Definition demo_world (gate : Z) (paused : bool) (failing : list Z)
    : @world plain_addresses FileStore.FileStore demo_chain :=
  MkWorld (FileStore.MkStore FileStore.demo_id true false
    (FileStore.MkFS (Some (FileStore.MkFile (FileStore.Json (demo_snapshot gate)) true)) None [] []))
    (demo_chain_with paused failing) [].
#[local] Notation "'demo_run' paused failing" :=
  (runReleaseCycle DefaultConfig demo_addr (MkHead 10 1000) (60 * Second) demo_jobs
    (demo_world 0 paused failing)) (at level 10, paused at level 9, failing at level 9).

Example demo_run_released :
  (Released (fst (demo_run false [])), Dropped (fst (demo_run false [])), Failed (fst (demo_run false [8]))) =
  (2, 1, 1).
Proof. vm_compute. reflexivity. Qed.

Definition paused_result : CycleResult := Eval vm_compute in fst (demo_run true []).
Definition paused_world : @world plain_addresses FileStore.FileStore demo_chain :=
  Eval vm_compute in snd (demo_run true []).

Lemma demo_run_paused : demo_run true [] = (paused_result, paused_world).
Proof. vm_compute. reflexivity. Qed.

Lemma release_only_eligible_witness :
  Z.of_nat (length [7; 8]) <= Z.max 1 (MaxBatchSize DefaultConfig).
Proof.
  exact (proj1 (release_only_eligible DefaultConfig demo_addr (MkHead 10 1000) (60 * Second) demo_jobs
    (demo_world 0 true []) paused_result paused_world [EIncPauseEvent]
    (ECallReleaseBatch [7; 8] (Err (errors_New ErrContractPaused "contract paused")))
    (tl (tl (w_trace paused_world))) eq_refl demo_run_paused eq_refl)).
Defined.

Definition reverted_result : CycleResult := Eval vm_compute in fst (demo_run false [8]).
Definition reverted_world : @world plain_addresses FileStore.FileStore demo_chain :=
  Eval vm_compute in snd (demo_run false [8]).

Lemma demo_run_reverted : demo_run false [8] = (reverted_result, reverted_world).
Proof. vm_compute. reflexivity. Qed.

Lemma cycle_loses_no_job_witness :
  exists v', store_view (w_store reverted_world) = Some v' /\
    (forall j, j ∈ [7; 8; 9; 10] -> j ∈ v_jobs v' \/ settled demo_addr j (w_trace reverted_world)) /\
    (forall j, j ∈ v_jobs v' -> j ∈ [7; 8; 9; 10]) /\ v_cursor v' = 40.
Proof.
  exact (cycle_loses_no_job DefaultConfig demo_addr (MkHead 10 1000) (60 * Second) demo_jobs
    (demo_world 0 false [8]) reverted_result reverted_world (View demo_jobs 40 0 0) eq_refl
    demo_run_reverted).
Defined.

Lemma cycle_result_accounts_witness :
  Released reverted_result = released_in (w_trace reverted_world) - 0 /\ Released reverted_result = 1.
Proof.
  split; [|reflexivity].
  exact (proj1 (cycle_result_accounts DefaultConfig demo_addr (MkHead 10 1000) (60 * Second) demo_jobs
    (demo_world 0 false [8]) reverted_result reverted_world demo_run_reverted)).
Defined.

Lemma pause_closes_gate_once_witness :
  exists v', store_view (w_store paused_world) = Some v' /\ store_healthy (w_store paused_world) /\
    pauses_in (w_trace paused_world) = 1 /\ v_gate v' = 4600 /\ v_last v' = 0 /\
    NextAllowedAt paused_result = 4600.
Proof.
  exact (pause_closes_gate_once DefaultConfig demo_addr (MkHead 10 1000) (60 * Second) demo_jobs
    (demo_world 0 true []) paused_result paused_world (View demo_jobs 40 0 0)
    eq_refl (conj eq_refl (conj eq_refl eq_refl)) demo_run_paused).
Defined.

Lemma gate_blocks_release_witness :
  w_trace (final (tick DefaultConfig demo_addr) (demo_world 2000 false [])) = [].
Proof.
  apply (gate_blocks_release DefaultConfig demo_addr (demo_world 2000 false [])
    (View demo_jobs 40 0 2000)); [reflexivity|].
  intros hd ch' [= <- <-]. reflexivity.
Defined.

Lemma computeBackoff_doubles_witness :
  backoff_safe (BackoffBase DefaultConfig) (BackoffMax DefaultConfig) = true /\
  computeBackoff (BackoffBase DefaultConfig) (BackoffMax DefaultConfig) 3 = Hour.
Proof.
  split; [vm_compute; reflexivity|].
  apply (computeBackoff_doubles (BackoffBase DefaultConfig) (BackoffMax DefaultConfig));
    try split; vm_compute; (reflexivity || discriminate).
Defined.

Lemma failure_charges_one_job_witness :
  store_view (w_store (final (recordPerJobFailure DefaultConfig 8 1000) (demo_world 0 false []))) =
  Some (View [MkPendingJob 7 900 0 0; MkPendingJob 8 900 1 1900; MkPendingJob 9 900 0 0;
              MkPendingJob 10 900 0 5000] 40 0 0).
Proof.
  destruct (failure_charges_one_job DefaultConfig 1000 (demo_world 0 false []) tt
    (final (recordPerJobFailure DefaultConfig 8 1000) (demo_world 0 false [])) (View demo_jobs 40 0 0)
    [MkPendingJob 7 900 0 0] (MkPendingJob 8 900 0 0)
    [MkPendingJob 9 900 0 0; MkPendingJob 10 900 0 5000]) as [Hv _];
    [reflexivity|by split|by vm_compute; repeat constructor; set_solver|reflexivity| |exact Hv].
  unfold final. by destruct (recordPerJobFailure _ _ _) as [[] ?].
Defined.
End Scheduler.
