(* ===== verification/Progress.v ===== *)
(** The release scheduler makes progress: what a cycle of
    [internal/release/scheduler.go] does for the jobs it may release, beside
    what [Scheduler] shows it never does. *)
From S2P Require Import Prelude ReleaseStore Chain ReleaseConfig Scheduler.
Import Scheduler.

Module Progress.
Section Progress.
Context `{!AddressOps} {S C : Type} `{!Store S} `{!SettlementClient C} `{!StoreView S, !StoreLaws S}.
Context (cfg : Config) (workerAddr : Address).
#[local] Abbreviation world := (@Scheduler.world _ S C).

(** ** What every step of a cycle leaves as it is *)
Record stable (acc : world -> Prop) : Prop := {
  stable_emit e : safe acc (emit e);
  stable_chain A (c : io C A) : safe acc (on_chain c);
  stable_pending : safe acc (on_store Pending);
  stable_remove ids : safe acc (on_store (Remove ids));
  stable_failure j u : safe acc (on_store (RecordFailure j u));
  stable_last t : safe acc (on_store (SetLastReleaseTs t));
  stable_gate t : safe acc (on_store (SetNextAllowedAttempt t));
}.
#[local] Hint Resolve stable_emit stable_chain stable_pending stable_remove stable_failure stable_last stable_gate : safe.

Section Steps.
Context (acc : world -> Prop) (Hacc : stable acc).

Lemma stable_try {A} (c : io S A) : safe acc (on_store c) -> safe acc (try_store c).
Proof. intros Hc. unfold try_store. safely. Qed.
#[local] Hint Resolve stable_try : safe.
Lemma stable_getJobState id : safe acc (getJobState id).
Proof. unfold getJobState, traced. safely. Qed.
Lemma stable_recordAttempt now : safe acc (recordAttempt now).
Proof. unfold recordAttempt. safely. Qed.
Lemma stable_pause now r : safe acc (applyPauseBackoff cfg now r).
Proof. unfold applyPauseBackoff, recordAttemptWithBackoff. safely. Qed.
Lemma stable_perJobFailure j now : safe acc (recordPerJobFailure cfg j now).
Proof. unfold recordPerJobFailure. safely. Qed.
#[local] Hint Resolve stable_getJobState stable_recordAttempt stable_perJobFailure : safe.
Lemma stable_fallback_release now id el out : safe acc (fallback_release cfg now id el out).
Proof. unfold fallback_release, releaseJob, traced. safely. Qed.
#[local] Hint Resolve stable_fallback_release : safe.
Lemma stable_fallback_job ws now id out : safe acc (fallback_job cfg ws now id out).
Proof. unfold fallback_job. safely. Qed.
Lemma stable_fallback_loop ws now batch out : safe acc (fallback_loop cfg ws now batch out).
Proof.
  revert out. induction batch as [|id batch IH]; intros out; cbn [fallback_loop]; [apply safe_ret|].
  apply safe_bind; [apply stable_fallback_job|]. intros [[] r]; [apply safe_ret|apply IH].
Qed.
Lemma stable_classify ws now p info b : safe acc (classify cfg workerAddr ws now p info b).
Proof. unfold classify. safely. Qed.
#[local] Hint Resolve stable_classify : safe.
Lemma stable_partition ws now cands b : safe acc (partition_loop cfg workerAddr ws now cands b).
Proof. revert b. induction cands as [|p cands IH]; intros b; cbn [partition_loop]; safely. Qed.
Lemma stable_drop ids : safe acc (remove_dropped ids).
Proof. unfold remove_dropped. safely. Qed.
End Steps.
#[local] Hint Resolve stable_try stable_getJobState stable_recordAttempt stable_pause stable_perJobFailure stable_fallback_release
  stable_fallback_job stable_fallback_loop stable_classify stable_partition stable_drop : safe.

(** The trace only grows. *)
Definition grown (past : list event) (w : world) : Prop := exists l, w_trace w = l ++ past.
Lemma grown_stable past : stable (grown past).
Proof.
  assert (forall A (c : io S A), safe (grown past) (on_store c)) as Hs.
  { intros A c w [l Hl]. exists l. unfold final, on_store. by destruct (c (w_store w)). }
  split; intros; try apply Hs; intros w [l Hl]; unfold final.
  - exists (e :: l). cbn. by rewrite Hl.
  - exists l. unfold on_chain. by destruct (c (w_chain w)).
Qed.

(** The store stays healthy, with a view that satisfies what no write of a
    cycle can break. *)
Definition holds (P : view -> Prop) (w : world) : Prop :=
  exists v, store_view (w_store w) = Some v /\ store_healthy (w_store w) /\ P v.
Lemma holds_op {A} P (op : io S A) spec : implements op spec ->
  (forall v a v', spec v = Some (a, v') -> P v -> P v') -> safe (holds P) (on_store op).
Proof.
  intros Hi HP w (v & Hv & Hh & Hp). destruct (Hi _ v Hv) as [Hr Hk]. destruct (Hk Hh) as [Hh' _]. unfold holds, final, value, on_store in *.
  destruct (op (w_store w)) as [[a|e] s]; cbn in *; [|by exists v]. destruct Hr as (v' & Hs & Hv'). exists v'. eauto.
Qed.
Lemma holds_stable P : (forall v (ids : list Z), P v -> P (View (filter (fun p => JobID p ∉ ids) (v_pending v)) (v_cursor v) (v_last v) (v_gate v))) ->
  (forall v l t g, JobID <$> l = v_jobs v -> P v -> P (View l (v_cursor v) t g)) -> stable (holds P).
Proof.
  intros Hrem Hsame. split; intros.
  - by intros w.
  - intros w Hw. unfold final, on_chain. by destruct (c (w_chain w)).
  - eapply holds_op; [apply law_Pending|]. by intros v a v' [= _ <-].
  - eapply holds_op; [apply law_Remove|]. intros v a v' [= _ <-]. apply Hrem.
  - eapply holds_op; [apply law_RecordFailure|]. intros v a v' [= _ <-]. destruct (bump_failure _ _ _) eqn:E; [|done].
    apply Hsame. by apply bump_failure_jobs in E.
  - eapply holds_op; [apply law_SetLastReleaseTs|]. intros v a v' [= _ <-]. by apply Hsame.
  - eapply holds_op; [apply law_SetNextAllowedAttempt|]. intros v a v' [= _ <-]. by apply Hsame.
Qed.

Definition usable : world -> Prop := holds (fun _ => True).
Definition without (j : Z) : world -> Prop := holds (fun v => j ∉ v_jobs v).
Lemma usable_stable : stable usable.
Proof. by apply holds_stable. Qed.
Lemma without_stable j : stable (without j).
Proof.
  apply holds_stable.
  - intros v ids Hj (p & -> & [_ Hp]%list_elem_of_filter)%list_elem_of_fmap. apply Hj, list_elem_of_fmap. by exists p.
  - intros v l t g El Hj. unfold v_jobs in *. cbn. by rewrite El.
Qed.
#[local] Hint Resolve grown_stable usable_stable without_stable : core.

(** ** Reading the state of a job *)
Lemma getJobState_trace id (w : world) r w' : getJobState id w = (r, w') -> w_trace w' = ECallState id r :: w_trace w.
Proof. unfold getJobState, traced, on_chain. intros E. run_go. Qed.

(** Everything the rest of a program does is done after what is there. *)
Lemma grown_run {A} (c : st world A) w a w' : c w = (a, w') -> safe (grown (w_trace w)) c -> exists l, w_trace w' = l ++ w_trace w.
Proof. intros E Hc. apply (safe_run _ _ _ _ _ Hc E). by exists []. Qed.
#[local] Hint Resolve grown_stable usable_stable without_stable : safe.
Ltac grow E l T := unshelve epose proof (grown_run _ _ _ _ E _) as [l T]; [safely|].

Lemma classify_releasable ws now p info b : Worker info = workerAddr -> releasable info ws now = true ->
  classify cfg workerAddr ws now p info b = st_ret (W := world) (add_release (JobID p) b).
Proof.
  unfold classify, releasable. intros Hw. rewrite (bool_decide_eq_true_2 _ Hw). cbn [negb]. destruct (State info); try done; by intros ->.
Qed.

(** [partition] asks for the state of every candidate, and bins the ones it
    may release. *)
Definition looked_up (ws now j : Z) (batch : list Z) (tr : list event) : Prop :=
  exists rs, ECallState j rs ∈ tr /\
    forall info, rs = Ok info -> Worker info = workerAddr -> releasable info ws now = true -> j ∈ batch.
Lemma looked_up_mono ws now j batch batch' tr l : looked_up ws now j batch tr -> (forall i, i ∈ batch -> i ∈ batch') ->
  looked_up ws now j batch' (l ++ tr).
Proof. intros (rs & Hin & Hb) Hsub. exists rs. split; [set_solver|eauto]. Qed.

Lemma classify_keeps ws now p info b (w : world) b' w' j : classify cfg workerAddr ws now p info b w = (b', w') ->
  j ∈ releaseBatch b -> j ∈ releaseBatch b'.
Proof.
  unfold classify, emit, st_bind, st_ret. intros E Hj. repeat case_match; simplify_eq/=; try done; set_solver.
Qed.
Lemma partition_looks ws now cands b (w : world) b' w' : partition_loop cfg workerAddr ws now cands b w = (b', w') ->
  (forall j, j ∈ releaseBatch b -> j ∈ releaseBatch b') /\
  forall p, p ∈ cands -> looked_up ws now (JobID p) (releaseBatch b') (w_trace w').
Proof.
  revert b w. induction cands as [|p cands IH]; intros b w; cbn [partition_loop].
  { intros [= <- <-]. split; [done|]. by intros p ?%not_elem_of_nil. }
  unfold st_bind. destruct (getJobState (JobID p) w) as [rs w1] eqn:E1. pose proof (getJobState_trace _ _ _ _ E1) as T1. intros E.
  assert (exists b1 w2, partition_loop cfg workerAddr ws now cands b1 w2 = (b', w') /\ (forall j, j ∈ releaseBatch b -> j ∈ releaseBatch b1) /\
    looked_up ws now (JobID p) (releaseBatch b1) (w_trace w2)) as (b1 & w2 & E2 & Hb & Hp).
  { destruct rs as [info|e].
    - destruct (classify cfg workerAddr ws now p info b w1) as [b1 w2] eqn:Ec. exists b1, w2. split; [done|].
      split; [intros j; by eapply classify_keeps|].
      grow Ec l Tl.
      exists (Ok info). rewrite Tl, T1. split; [set_solver|]. intros info' [= <-] Hw Hr. rewrite (classify_releasable _ _ _ _ _ Hw Hr) in Ec.
      injection Ec as <- _. cbn. set_solver.
    - exists b, w1. split; [done|]. split; [done|]. exists (Err e). rewrite T1. split; [left|done]. }
  grow E2 l Tl. destruct (IH _ _ E2) as [Hb' Hc].
  split; [auto|]. intros q [->|Hq]%elem_of_cons; [|by apply Hc]. rewrite Tl. by eapply looked_up_mono.
Qed.

(** ** The fallback

    [tried]: the state of the job was read again, and if it still may be
    released that was done, alone; on success the job is out of the store. *)
Definition tried (ws now j : Z) (l : list event) (w' : world) : Prop :=
  exists rs, ECallState j rs ∈ l /\
    forall info, rs = Ok info -> releasable info ws now = true -> exists x, ECallRelease j x ∈ l /\ (x = Ok tt -> without j w').

Lemma tried_later ws now j l l' w w' : tried ws now j l w -> (without j w -> without j w') -> tried ws now j (l' ++ l) w'.
Proof.
  intros (rs & Hin & Ht) Hw. exists rs. split; [set_solver|]. intros info Hr Hi. destruct (Ht info Hr Hi) as (x & Hx & Hgone).
  exists x. split; [set_solver|auto].
Qed.

Lemma remove_without ids id w b w' : try_store (Remove ids) w = (b, w') -> id ∈ ids -> usable w -> without id w' /\ w_trace w' = w_trace w.
Proof.
  intros E Hin (v & Hv & Hh & _). destruct (try_store_ok (Remove ids) _ w v _ _ (law_Remove ids) Hv Hh eq_refl) as (s' & Et & Hv' & Hh').
  rewrite Et in E. injection E as <- <-. split; [|done]. eexists. split; [exact Hv'|]. split; [exact Hh'|].
  intros (p & -> & [Hn _]%list_elem_of_filter)%list_elem_of_fmap. done.
Qed.

Lemma fallback_release_tries now id out w r w' : fallback_release cfg now id true out w = (r, w') -> usable w ->
  fst r = true \/ exists l x, w_trace w' = l ++ w_trace w /\ ECallRelease id x ∈ l /\ (x = Ok tt -> without id w').
Proof.
  unfold fallback_release. cbn [negb]. unfold st_bind at 1. intros E Hu.
  destruct (releaseJob id w) as [rr w1] eqn:E1.
  assert (w_trace w1 = ECallRelease id rr :: w_trace w) as T1 by (unfold releaseJob, traced, on_chain in E1; run_go).
  assert (usable w1) as Hu1 by (eapply safe_run; [|exact E1|exact Hu]; unfold releaseJob, traced; pose proof usable_stable; safely).
  destruct rr as [[]|err].
  - unfold st_bind at 1 in E. destruct (try_store (Remove [id]) w1) as [b w2] eqn:E2. apply (remove_without _ id) in E2 as [Hg T2]; [|by left|done].
    right. injection E as _ <-. cbn. rewrite T2, T1.
    eexists [_; _; _], (Ok tt). split; [reflexivity|]. split; [set_solver|]. by intros _.
  - destruct (isPauseError err); [left; by injection E as <- _|]. right.
    grow E l Tl.
    exists (l ++ [ECallRelease id (Err err)]), (Err err). rewrite Tl, T1, <- app_assoc. split; [done|]. split; [set_solver|done].
Qed.

Lemma fallback_job_tries ws now id out w r w' : fallback_job cfg ws now id out w = (r, w') -> usable w ->
  fst r = true \/ exists l, w_trace w' = l ++ w_trace w /\ tried ws now id l w'.
Proof.
  unfold fallback_job. unfold st_bind at 1. intros E Hu. destruct (getJobState id w) as [rs w1] eqn:E1.
  pose proof (getJobState_trace _ _ _ _ E1) as T1.
  pose proof (safe_run _ _ _ _ _ (stable_getJobState _ usable_stable id) E1 Hu) as Hu1.
  (* what follows the reading only adds to the trace *)
  assert (forall A (c : st world A) a, safe (grown (w_trace w1)) c -> c w1 = (a, w') ->
    (forall info, rs = Ok info -> releasable info ws now = false) -> exists l, w_trace w' = l ++ w_trace w /\ tried ws now id l w') as Hrest.
  { intros A c a Hc Ec Hn. destruct (grown_run _ _ _ _ Ec Hc) as [l Tl]. exists (l ++ [ECallState id rs]).
    rewrite Tl, T1, <- app_assoc. split; [done|]. exists rs. split; [set_solver|]. intros info Hr Hi. by rewrite (Hn info Hr) in Hi. }
  assert (forall info el, rs = Ok info -> el = releasable info ws now -> fallback_release cfg now id el out w1 = (r, w') ->
    fst r = true \/ exists l, w_trace w' = l ++ w_trace w /\ tried ws now id l w') as Hrel.
  { intros info el -> Hel Ef. destruct el.
    - apply fallback_release_tries in Ef as [?|(l & x & Tl & Hx & Hg)]; [by left| |done]. right. exists (l ++ [ECallState id (Ok info)]).
      rewrite Tl, T1, <- app_assoc. split; [done|]. exists (Ok info). split; [set_solver|]. intros ? _ _. exists x. split; [set_solver|done].
    - right. eapply Hrest; [|exact Ef|intros ? [= <-]; done]. apply stable_fallback_release. apply grown_stable. }
  destruct rs as [info|err].
  2: { right. eapply Hrest; [|exact E|done]. safely. }
  destruct (State info) eqn:Es; try (eapply (Hrel info); [done| |exact E]; unfold releasable; by rewrite Es).
  all: right; eapply Hrest; [|exact E|intros ? [= <-]; unfold releasable; by rewrite Es].
  all: safely.
Qed.
Lemma fallback_job_stops ws now id out w out' w' : fallback_job cfg ws now id out w = ((true, out'), w') -> Paused out' = true.
Proof.
  unfold fallback_job, fallback_release. intros E. run_go.
Qed.

Lemma fallback_tries ws now id batch out w out' w' : fallback_loop cfg ws now batch out w = (out', w') -> id ∈ batch -> usable w ->
  Paused out' = true \/ exists l, w_trace w' = l ++ w_trace w /\ tried ws now id l w'.
Proof.
  revert out w. induction batch as [|i batch IH]; intros out w; cbn [fallback_loop]; [by intros _ ?%not_elem_of_nil|].
  unfold st_bind. destruct (fallback_job cfg ws now i out w) as [[stop out1] w1] eqn:E1. cbn [fst snd]. intros E Hin Hu.
  pose proof (safe_run _ _ _ _ _ (stable_fallback_job _ usable_stable ws now i out) E1 Hu) as Hu1.
  destruct stop; [left; injection E as <- _; by eapply fallback_job_stops|].
  grow E1 l1 T1.
  grow E l2 T2.
  apply elem_of_cons in Hin as [->|Hin].
  - destruct (fallback_job_tries _ _ _ _ _ _ _ E1 Hu) as [?|(l & Tl & Ht)]; [done|]. right. exists (l2 ++ l). rewrite T2, Tl, app_assoc.
    split; [done|]. eapply tried_later; [exact Ht|]. by apply (safe_run _ _ _ _ _ (stable_fallback_loop _ (without_stable i) ws now batch out1) E).
  - destruct (IH _ _ E Hin Hu1) as [?|(l & Tl & Ht)]; [by left|right]. exists (l ++ l1). rewrite Tl, T1, app_assoc. split; [done|].
    destruct Ht as (rs & Hr & Ht). exists rs. split; [set_solver|]. intros info H1 H2. destruct (Ht info H1 H2) as (x & Hx & Hg). exists x. split; [set_solver|done].
Qed.

(** ** The cycle *)
Lemma paused_cycle now r (w : world) r' w' : applyPauseBackoff cfg now r w = (r', w') -> Paused r' = Paused r.
Proof. unfold applyPauseBackoff, recordAttemptWithBackoff, try_store, on_store, emit, st_bind, st_ret. intros E. repeat case_match; by simplify_eq/=. Qed.

(** What becomes of a job in the batch. *)
Definition settled_or_tried (ws now j : Z) (r : CycleResult) (w' : world) : Prop :=
  exists ids rb l past, w_trace w' = l ++ ECallReleaseBatch ids rb :: past /\ j ∈ ids /\
    match rb with
    | Ok _ => without j w'
    | Err _ => Paused r = true \/ tried ws now j l w'
    end.

(** The cycle from the batch on. *)
Lemma batch_submitted head window n dropped ids w r w' j : j ∈ ids -> usable w ->
  (let! rr := releaseJobs ids in
   match rr with
   | Ok _ =>
       let! _ := try_store (Remove ids) in
       let! _ := emit (EIncReleased (Z.of_nat (length ids))) in
       let! _ := emit (ESetLastSuccessTimestamp (Timestamp head)) in
       let! _ := recordAttempt (Timestamp head) in
       st_ret (MkCycleResult n (Z.of_nat (length ids)) 0 dropped false false false 0)
   | Err err =>
       if isPauseError err then applyPauseBackoff cfg (Timestamp head) (MkCycleResult n 0 0 dropped true true false 0)
       else
         let! fb := perJobFallback cfg ids window head in
         if Paused fb then
           applyPauseBackoff cfg (Timestamp head) (MkCycleResult n (Released fb) (Failed fb) (dropped + Dropped fb) true true false 0)
         else
           let! _ := recordAttempt (Timestamp head) in
           st_ret (MkCycleResult n (Released fb) (Failed fb) (dropped + Dropped fb) false true false 0)
   end) w = (r, w') ->
  settled_or_tried (dur_secs window) (Timestamp head) j r w'.
Proof.
  intros Hin Hu E. unfold st_bind at 1 in E. destruct (releaseJobs ids w) as [rr w1] eqn:E1.
  assert (w_trace w1 = ECallReleaseBatch ids rr :: w_trace w) as T1 by (unfold releaseJobs, traced, on_chain in E1; run_go).
  assert (usable w1) as Hu1 by (eapply safe_run; [|exact E1|exact Hu]; unfold releaseJobs, traced; pose proof usable_stable; safely).
  pose proof (grown_stable (w_trace w1)) as Hg. destruct rr as [[]|err].
  - unfold st_bind at 1 in E. destruct (try_store (Remove ids) w1) as [b w2] eqn:E2.
    apply (remove_without _ j) in E2 as [Hgone T2]; [|done..]. rewrite <- T2 in Hg. pose proof (without_stable j) as Hw.
    grow E l Tl. exists ids, (Ok tt), l, (w_trace w). rewrite Tl, T2, T1. split; [done|]. split; [done|].
    eapply safe_run; [|exact E|exact Hgone]. safely.
  - destruct (isPauseError err).
    { grow E l Tl. exists ids, (Err err), l, (w_trace w). rewrite Tl, T1.
      split; [done|]. split; [done|]. left. by rewrite (paused_cycle _ _ _ _ _ E). }
    unfold st_bind at 1 in E. unfold perJobFallback in E. destruct (fallback_loop _ _ _ ids empty_result w1) as [fb w2] eqn:E2.
    grow E2 l2 T2.
    destruct (fallback_tries _ _ j _ _ _ _ _ E2 Hin Hu1) as [Hf|(l & Tl & Ht)].
    + rewrite Hf in E. grow E l3 T3. exists ids, (Err err), (l3 ++ l2), (w_trace w).
      rewrite T3, T2, T1, <- app_assoc. split; [done|]. split; [done|]. left. by rewrite (paused_cycle _ _ _ _ _ E).
    + assert (exists l3, w_trace w' = l3 ++ w_trace w2 /\ (without j w2 -> without j w')) as (l3 & T3 & Hw).
      { revert E. destruct (Paused fb); intros E; grow E l3 T3; exists l3; (split; [done|]);
          intros Hj; (eapply safe_run; [|exact E|exact Hj]); safely. }
      exists ids, (Err err), (l3 ++ l), (w_trace w). rewrite T3, Tl, T1, <- app_assoc. split; [done|]. split; [done|]. right. by eapply tried_later.
Qed.

(** Nothing is submitted while the candidates are being read. *)
Definition unsubmitted (tr : list event) : Prop := forall ids r, ECallReleaseBatch ids r ∉ tr.
Lemma partition_submits_nothing ws now cands b :
  safe (fun w : world => unsubmitted (w_trace w)) (partition_loop cfg workerAddr ws now cands b).
Proof.
  assert (forall reason, safe (fun w : world => unsubmitted (w_trace w)) (emit (EIncDropped reason))) as He.
  { intros reason w Hw ids r. cbn. specialize (Hw ids r). set_solver. }
  assert (forall id, safe (fun w : world => unsubmitted (w_trace w)) (getJobState id)) as Hg.
  { intros id w Hw ids r. unfold final. destruct (getJobState id w) as [rs w1] eqn:E. cbn. rewrite (getJobState_trace _ _ _ _ E).
    specialize (Hw ids r). set_solver. }
  revert b. induction cands as [|p cands IH]; intros b; cbn [partition_loop]; unfold classify; safely.
Qed.

(** C8. The scheduler makes progress on its candidates, the first pending jobs
    out of backoff in the order given, ids ascending, at most [MaxBatchSize] of
    them and at least one: a cycle over a healthy store asks the chain, before
    it submits anything, about every candidate, and each whose record it reads
    as releasable, for this worker, is in the batch it then submits. It says
    nothing of jobs behind the candidates, which a full batch of jobs that stay
    pending without a backoff can keep waiting ([full_batch_starves]). If the batch
    succeeds the job is out of the store; if it fails, the job is read and
    released again alone, and out of the store if that succeeds, unless the
    contract turned out to be paused. *)
Theorem releasable_job_is_submitted head window pending w r w' p :
  w_trace w = [] -> usable w -> p ∈ collectCandidates cfg pending (Timestamp head) ->
  runReleaseCycle cfg workerAddr head window pending w = (r, w') ->
  let ws := dur_secs window in let now := Timestamp head in
  exists l reading rs, w_trace w' = l ++ reading /\ unsubmitted reading /\ ECallState (JobID p) rs ∈ reading /\
    forall info, rs = Ok info -> Worker info = workerAddr -> releasable info ws now = true ->
    settled_or_tried ws now (JobID p) r w'.
Proof.
  intros T0 Hu Hp. unfold runReleaseCycle. cbv zeta.
  destruct (Z.eqb_spec (Z.of_nat (length (collectCandidates cfg pending (Timestamp head)))) 0) as [Hz|_].
  { destruct (collectCandidates _ _ _); [by apply not_elem_of_nil in Hp|done]. }
  unfold st_bind at 1. destruct (partition _ _ _ _ _ w) as [b w1] eqn:E1. unfold partition in E1.
  pose proof (safe_run _ _ _ _ _ (stable_partition _ usable_stable _ _ _ _) E1 Hu) as Hu1.
  assert (unsubmitted (w_trace w1)) as Hun by (eapply (safe_run _ _ _ _ _ (partition_submits_nothing _ _ _ _) E1); rewrite T0; intros ??; set_solver).
  apply partition_looks in E1 as [_ Hlook]. destruct (Hlook p Hp) as (rs & Hrs & Hbatch).
  unfold st_bind at 1. destruct (remove_dropped (dropIDs b) w1) as [dropped w2] eqn:E2.
  pose proof (safe_run _ _ _ _ _ (stable_drop _ usable_stable _) E2 Hu1) as Hu2.
  grow E2 l2 T2. intros E. assert (exists l, w_trace w' = l ++ w_trace w2) as [l Tl].
  { unfold perJobFallback, releaseJobs, traced in E. pose proof (grown_stable (w_trace w2)). grow E l Tl. by exists l. }
  exists (l ++ l2), (w_trace w1), rs. split; [by rewrite Tl, T2, app_assoc|]. split; [done|]. split; [done|].
  intros info -> Hw Hr. specialize (Hbatch info eq_refl Hw Hr).
  rewrite bool_decide_eq_false_2 in E by (intros En; rewrite En in Hbatch; by apply not_elem_of_nil in Hbatch).
  by eapply batch_submitted.
Qed.
End Progress.

(** A batch that reverts because of one job: the other one is released alone. *)
#[local] Existing Instances plain_addresses plain_addresses_laws.
#[local] Existing Instance Scheduler.demo_client.

Lemma demo_usable : usable (Scheduler.demo_world 0 false [8]).
Proof. exists (View Scheduler.demo_jobs 40 0 0). split; [reflexivity|]. split; [repeat split|done]. Qed.
Lemma demo_run : runReleaseCycle DefaultConfig Scheduler.demo_addr (MkHead 10 1000) (60 * Second) Scheduler.demo_jobs
  (Scheduler.demo_world 0 false [8]) = (Scheduler.reverted_result, Scheduler.reverted_world).
Proof. vm_compute. reflexivity. Qed.
Lemma demo_candidate : MkPendingJob 7 900 0 0 ∈ collectCandidates DefaultConfig Scheduler.demo_jobs 1000.
Proof. vm_compute. left. Qed.

(** One job in dispute fills a batch of one, cycle after cycle: the job behind
    it could be released and is never read. *)
Definition narrow : Config := {|
  Enabled := true; StatePath := "./release_state.json"; Interval := Hour; ProbeInterval := Minute; BatchThreshold := 1;
  MaxBatchSize := 1; TxTimeout := Minute; StartBlock := 0; ChunkSize := 1000; Confirmations := 0; ReconcileInterval := Hour;
  BackoffBase := Minute; BackoffMax := Hour; PausedCycleBackoff := Hour; StaleDisputeWarnAfter := 0;
  DisputeWindowOverride := 0; DisputeWindowCacheTTL := 0;
|}.
Definition disputed_first : list PendingJob := [MkPendingJob 7 900 0 0; MkPendingJob 8 900 0 0].
Definition disputed_world : @world plain_addresses FileStore.FileStore Scheduler.demo_chain :=
  MkWorld (FileStore.MkStore FileStore.demo_id true false
    (FileStore.MkFS (Some (FileStore.MkFile (FileStore.Json (FileStore.MkSnapshot 2 31337 "0xR" "0xW" disputed_first 40 0 0)) true)) None [] []))
    (Scheduler.MkDemoChain (MkHead 10 1000)
       (fun id => MkJobStateInfo (if id =? 7 then JobStateDisputed else JobStateCompleted) Scheduler.demo_addr 900 (Some 5)) false []) [].
Example full_batch_starves :
  let cycle w := runReleaseCycle narrow Scheduler.demo_addr (MkHead 10 1000) (60 * Second) disputed_first w in
  let '(r1, w1) := cycle disputed_world in let '(r2, w2) := cycle w1 in
  (Released r1, Released r2) = (0, 0) /\ collectCandidates narrow disputed_first 1000 = [MkPendingJob 7 900 0 0] /\
  (v_pending <$> store_view (w_store w2)) = Some disputed_first /\ omap (fun e => match e with ECallState j _ => Some j | _ => None end) (w_trace w2) = [7; 7].
Proof. vm_compute. done. Qed.

Lemma releasable_job_is_submitted_witness :
  exists l reading rs, w_trace Scheduler.reverted_world = l ++ reading /\ unsubmitted reading /\ ECallState 7 rs ∈ reading /\
    forall info, rs = Ok info -> Worker info = Scheduler.demo_addr -> releasable info 60 1000 = true ->
      settled_or_tried 60 1000 7 Scheduler.reverted_result Scheduler.reverted_world.
Proof.
  exact (releasable_job_is_submitted DefaultConfig Scheduler.demo_addr (MkHead 10 1000) (60 * Second) Scheduler.demo_jobs
    (Scheduler.demo_world 0 false [8]) Scheduler.reverted_result Scheduler.reverted_world (MkPendingJob 7 900 0 0)
    eq_refl demo_usable demo_candidate demo_run).
Defined.
End Progress.
