(* ===== verification/Reconciler.v ===== *)
(** The reconciler of [internal/release/reconciler.go]: it scans the chain's
    JobCompleted events in bounded chunks from the stored cursor to the safe
    head, records the jobs still to be released, and moves the cursor only past
    chunks it has processed completely. *)
From S2P Require Import Prelude ReleaseStore Chain ReleaseConfig.

Module Reconciler.
Section Reconciler.
Context `{!AddressOps} {S C : Type} `{!Store S} `{!SettlementClient C}.
Context (cfg : Config) (workerAddr : Address).

(** The store, the chain, and the chain calls and metrics of the pass, most
    recent first. *)
Inductive event : Type :=
  | ECallFilter (lo hi : Z) (r : result (list JobCompletedEvent))
  | ECallState (jobID : Z) (r : result JobStateInfo)
  | ESetReconcileLastBlock (block : Z).

Record world : Type := MkWorld {
  w_store : S;
  w_chain : C;
  w_trace : list event;
}.

Definition on_store {A} (c : io S A) : io world A := fun w =>
  let '(r, s) := c (w_store w) in (r, MkWorld s (w_chain w) (w_trace w)).
Definition on_chain {A} (c : io C A) : io world A := fun w =>
  let '(r, ch) := c (w_chain w) in (r, MkWorld (w_store w) ch (w_trace w)).
Definition emit (e : event) : st world unit := fun w =>
  (tt, MkWorld (w_store w) (w_chain w) (e :: w_trace w)).
Definition traced {A} (ev : result A -> event) (c : io world A) : io world A :=
  let! r := c in
  let! _ := emit (ev r) in
  st_ret r.

Definition getJobState (id : Z) : io world JobStateInfo :=
  traced (ECallState id) (on_chain (GetJobState id)).
Definition filterJobCompleted (lo hi : Z) : io world (list JobCompletedEvent) :=
  traced (ECallFilter lo hi) (on_chain (FilterJobCompleted workerAddr lo hi)).

(** The switch of [Run]: Released and TimedOut jobs, and Resolved ones without
    escrow, are left alone. *)
Definition skips (info : JobStateInfo) : bool :=
  match State info with
  | JobStateReleased | JobStateTimedOut => true
  | JobStateResolved =>
      match EscrowedFee info with None => true | Some f => Z.sgn f =? 0 end
  | _ => false
  end.

(** The inner loop of [Run]. The result carries [firstStateErr]. *)
Fixpoint event_loop (events : list JobCompletedEvent) (firstStateErr : option error)
    : io world (option error) :=
  match events with
  | [] => io_ret firstStateErr
  | ev :: rest =>
      let! r := getJobState (ev_JobID ev) in
      match r with
      | Err gErr =>
          event_loop rest (match firstStateErr with None => Some gErr | Some e => Some e end)
      | Ok info =>
          if negb (bool_decide (Worker info = workerAddr)) then event_loop rest firstStateErr
          else if skips info then event_loop rest firstStateErr
          else
            let? _ := on_store (AddEligible (ev_JobID ev) (Completed_at info)) wrapping "AddEligible job" in
            event_loop rest firstStateErr
      end
  end.

(** One iteration of the outer loop: the chunk [lo..hi]. *)
Definition chunk (lo hi : Z) : io world unit :=
  let? events := filterJobCompleted lo hi wrapping "FilterJobCompleted" in
  let? firstStateErr := event_loop events None in
  match firstStateErr with
  | Some e => io_err (wrap "reconcile chunk: GetJobState failed for one or more events" e)
  | None =>
      let? _ := on_store (SetReconcileBlock hi) wrapping "SetReconcileBlock" in
      let! _ := emit (ESetReconcileLastBlock hi) in
      io_ret tt
  end.

Definition chunk_size : Z := if ChunkSize cfg =? 0 then 5000 else ChunkSize cfg.

(** The outer loop, on [uint64]s; [None] is running out of fuel. *)
Fixpoint chunk_loop (fuel : nat) (lo safeHead : Z) : st world (option (result unit)) :=
  match fuel with
  | O => st_ret None
  | Datatypes.S fuel' =>
      if negb (lo <=? safeHead) then st_ret (Some (Ok tt))
      else
        let hi0 := u64_wrap (u64_wrap (lo + chunk_size) - 1) in
        let hi := if safeHead <? hi0 then safeHead else hi0 in
        let! r := chunk lo hi in
        match r with
        | Err e => st_ret (Some (Err e))
        | Ok _ => if hi =? safeHead then st_ret (Some (Ok tt))
                  else chunk_loop fuel' (u64_wrap (hi + 1)) safeHead
        end
  end.

(** Where a pass starts, from the stored cursor. *)
Definition start_of (startCursor : Z) : Z :=
  if (startCursor =? 0) && (0 <? StartBlock cfg) then StartBlock cfg
  else u64_wrap (startCursor + 1).

(** [Run]. *)
Definition Run (fuel : nat) : st world (option (result unit)) :=
  let! rc := on_store GetReconcileBlock in
  match rc with
  | Err e => st_ret (Some (Err (wrap "read reconcile cursor" e)))
  | Ok startCursor =>
      let start := start_of startCursor in
      let! rh := on_chain Head in
      match rh with
      | Err e => st_ret (Some (Err (wrap "read chain head" e)))
      | Ok head =>
          if Number head <? Confirmations cfg then st_ret (Some (Ok tt))
          else
            let safeHead := u64_wrap (Number head - Confirmations cfg) in
            if safeHead <? start then st_ret (Some (Ok tt))
            else chunk_loop fuel start safeHead
      end
  end.

(** ** What a pass does

    An event is handled once its job is in the store or its record was read as
    one that has nothing to release. *)
Definition nothing_to_release (info : JobStateInfo) : bool :=
  negb (bool_decide (Worker info = workerAddr)) || skips info.

Definition handled (ev : JobCompletedEvent) (tr : list event) (jobs : list Z) : Prop :=
  ev_JobID ev ∈ jobs \/
  exists info, ECallState (ev_JobID ev) (Ok info) ∈ tr /\ nothing_to_release info = true.

(** The block ranges whose events were fetched, oldest first. *)
Fixpoint ranges (tr : list event) : list (Z * Z) :=
  match tr with
  | [] => []
  | ECallFilter lo hi (Ok _) :: tr' => ranges tr' ++ [(lo, hi)]
  | _ :: tr' => ranges tr'
  end.

(** [tiles l a b]: the ranges of [l] follow one another without gap or
    overlap from block [a] up to and excluding [b], each a chunk at most. *)
Fixpoint tiles (l : list (Z * Z)) (a b : Z) : Prop :=
  match l with
  | [] => a = b
  | (lo, hi) :: l' => lo = a /\ lo <= hi < lo + chunk_size /\ tiles l' (hi + 1) b
  end.

Lemma tiles_snoc l a b hi : tiles l a b -> b <= hi < b + chunk_size -> tiles (l ++ [(b, hi)]) a (hi + 1).
Proof.
  revert a. induction l as [|[x y] l IH]; simpl; [by intros a ->|].
  intros a (-> & ? & ?) ?. split; [done|]. split; [done|]. by apply IH.
Qed.

Context `{!StoreView S, !StoreLaws S}.

(** Only adding to the store: what a pass may do before it moves the cursor. *)
Record adds (v v' : view) : Prop := {
  ad_jobs j : j ∈ v_jobs v -> j ∈ v_jobs v';
  ad_cursor : v_cursor v' = v_cursor v;
  ad_last : v_last v' = v_last v;
  ad_gate : v_gate v' = v_gate v;
}.

#[global] Instance adds_preorder : PreOrder adds.
Proof.
  split; [by split|]. intros v1 v2 v3 [? ? ? ?] [? ? ? ?]. split; [auto|congruence..].
Qed.

(** A part of a pass: the trace grows by calls that fetch no range, and the
    view only gains jobs. *)
Record pass_step (w w' : world) : Prop := {
  ps_trace : exists l, w_trace w' = l ++ w_trace w;
  ps_ranges : ranges (w_trace w') = ranges (w_trace w);
  ps_view v : store_view (w_store w) = Some v ->
    exists v', store_view (w_store w') = Some v' /\ adds v v';
}.

#[global] Instance pass_step_preorder : PreOrder pass_step.
Proof.
  split.
  - intros w. split; [by exists []|done|]. intros v Hv. by exists v.
  - intros w1 w2 w3 [(l1 & T1) R1 V1] [(l2 & T2) R2 V2]. split; [|congruence|].
    + exists (l2 ++ l1). by rewrite T2, T1, app_assoc.
    + intros v Hv. destruct (V1 v Hv) as (v1 & Hv1 & A1). destruct (V2 v1 Hv1) as (v2 & ? & A2).
      exists v2. split; [done|]. by etrans.
Qed.

Lemma handled_mono ev tr l jobs jobs' :
  handled ev tr jobs -> (forall j, j ∈ jobs -> j ∈ jobs') -> handled ev (l ++ tr) jobs'.
Proof. unfold handled. set_solver. Qed.

Lemma pass_getJobState id w r w' :
  getJobState id w = (r, w') -> pass_step w w' /\ w_trace w' = ECallState id r :: w_trace w.
Proof.
  unfold getJobState, traced, on_chain. intros E. run_go. split; [|done].
  split; simpl; [by exists [ECallState id r]|done|]. intros v Hv. by exists v.
Qed.

Lemma spec_AddEligible_adds id t v a v' :
  spec_AddEligible id t v = Some (a, v') -> adds v v' /\ id ∈ v_jobs v'.
Proof.
  unfold spec_AddEligible, v_jobs. intros [= <- <-].
  destruct (has_job id (v_pending v)) eqn:E.
  - split; [reflexivity|]. unfold has_job in E. apply existsb_exists in E as (p & Hp & Hid).
    apply Z.eqb_eq in Hid as <-. apply list_elem_of_fmap. exists p. by rewrite list_elem_of_In.
  - split; [split; simpl; try done|]; unfold v_jobs; simpl; rewrite fmap_app; set_solver.
Qed.

Lemma step_add id t w r w' :
  on_store (AddEligible id t) w = (r, w') ->
  pass_step w w' /\ w_trace w' = w_trace w /\
  (is_ok r = true -> forall v', store_view (w_store w) <> None -> store_view (w_store w') = Some v' ->
    id ∈ v_jobs v').
Proof.
  unfold on_store. destruct (AddEligible id t (w_store w)) as [r1 s1] eqn:Eo. intros [= <- <-].
  split; [|split; [done|]].
  - split; simpl; [by exists []|done|]. intros v Hv.
    destruct (law_AddEligible id t _ v Hv) as [Hr _]. rewrite Eo in Hr. destruct r1 as [a|e].
    + destruct Hr as (v' & Hs & Hv'). exists v'. split; [done|]. by apply spec_AddEligible_adds in Hs as [].
    + by exists v.
  - intros Hok v' Hn Hv'. simpl in *. destruct (store_view (w_store w)) as [v|] eqn:Hv; [|done].
    destruct (law_AddEligible id t _ v Hv) as [Hr _]. rewrite Eo in Hr. destruct r1 as [a|e]; [|done].
    destruct Hr as (v2 & Hs & Hv2). rewrite Hv' in Hv2. injection Hv2 as <-.
    by apply spec_AddEligible_adds in Hs as [].
Qed.

Lemma view_after w w' v :
  pass_step w w' -> store_view (w_store w) = Some v -> store_view (w_store w') <> None.
Proof. intros [_ _ V] Hv. destruct (V v Hv) as (v' & -> & _). done. Qed.

Lemma step_event_loop evs ferr w r w' v :
  event_loop evs ferr w = (r, w') -> store_view (w_store w) = Some v ->
  pass_step w w' /\
  (r = Ok None -> ferr = None /\ forall v', store_view (w_store w') = Some v' ->
     forall ev, ev ∈ evs -> handled ev (w_trace w') (v_jobs v')).
Proof.
  revert ferr w v. induction evs as [|ev rest IH]; intros ferr w v; simpl.
  { intros [= <- <-] Hv. split; [reflexivity|]. intros [= ->]. split; [done|]. intros v' _ ev Hin.
    by apply not_elem_of_nil in Hin. }
  unfold st_bind. destruct (getJobState (ev_JobID ev) w) as [rs w1] eqn:E1. intros E Hv.
  apply pass_getJobState in E1 as [S1 T1].
  destruct (ps_view _ _ S1 v Hv) as (v1 & Hv1 & A1).
  (* the rest of the events, from any later world that has dealt with [ev] *)
  assert (forall w2 v2 fe, store_view (w_store w2) = Some v2 -> pass_step w w2 ->
    event_loop rest fe w2 = (r, w') -> handled ev (w_trace w2) (v_jobs v2) -> 
    pass_step w w' /\ (r = Ok None -> fe = None /\ forall v', store_view (w_store w') = Some v' ->
     forall ev0, ev0 ∈ ev :: rest -> handled ev0 (w_trace w') (v_jobs v'))) as Hrest.
  { intros w2 v2 fe Hv2 S2 E2 Hh. destruct (IH _ _ _ E2 Hv2) as [S3 H3]. split; [by etrans|].
    intros Hr. destruct (H3 Hr) as [-> H4]. split; [done|]. intros v' Hv' ev0 [->|Hin]%elem_of_cons; [|auto].
    destruct (ps_view _ _ S3 v2 Hv2) as (v3 & Hv3 & [J3 _ _ _]). rewrite Hv' in Hv3. injection Hv3 as <-.
    destruct (ps_trace _ _ S3) as [l ->]. by eapply handled_mono. }
  destruct rs as [info|gErr].
  2:{ destruct (IH _ _ _ E Hv1) as [S3 H3]. split; [by etrans|]. intros Hr.
      destruct (H3 Hr) as [Hn _]. by destruct ferr. }
  destruct (nothing_to_release info) eqn:Hn; unfold nothing_to_release in Hn.
  - assert (event_loop rest ferr w1 = (r, w')) as E2.
    { destruct (negb (bool_decide (Worker info = workerAddr))); [done|]. simpl in Hn. by rewrite Hn in E. }
    apply (Hrest w1 v1 ferr); [done|done|done|]. right. exists info. rewrite T1. split; [left|done].
  - apply orb_false_iff in Hn as [Hn1 Hn2]. rewrite Hn1, Hn2 in E. unfold io_bind, io_wrap in E.
    destruct (on_store _ w1) as [ra w2] eqn:E2. apply step_add in E2 as (S2 & T2 & J2).
    assert (pass_step w w2) as S12 by (by etrans).
    destruct ra as [u|e]; [|simplify_eq; by split].
    destruct (ps_view _ _ S2 v1 Hv1) as (v2 & Hv2 & A2).
    apply (Hrest w2 v2 ferr); [done|done|done|]. left. apply J2; [done|congruence|done].
Qed.

Lemma ranges_app l tr : ranges (l ++ tr) = ranges tr ++ ranges l.
Proof.
  induction l as [|e l IH]; simpl; [by rewrite app_nil_r|].
  destruct e as [lo hi [?|?]| |]; rewrite IH; [by rewrite app_assoc|done..].
Qed.

Lemma ranges_none l lo hi evs : ranges l = [] -> ECallFilter lo hi (Ok evs) ∉ l.
Proof.
  intros Hr Hin. apply list_elem_of_split in Hin as (l1 & l2 & ->).
  rewrite ranges_app in Hr. simpl in Hr. rewrite <- app_assoc in Hr. by destruct (ranges l2).
Qed.

Lemma pass_step_no_filter w w' l lo hi evs :
  pass_step w w' -> w_trace w' = l ++ w_trace w -> ECallFilter lo hi (Ok evs) ∉ l.
Proof.
  intros [_ R _] T. apply ranges_none. rewrite T, ranges_app in R.
  apply (f_equal length) in R. rewrite length_app in R. destruct (ranges l); simpl in R; [done|lia].
Qed.

(** What one chunk did: the trace grew by [l], the view went from [v] to
    [v'], and every range fetched is [lo..hi]. On success the cursor is at the
    chunk's end and its events are handled; on failure it has not moved. *)
Record chunk_done (lo hi : Z) (w w' : world) (ok : bool) (v v' : view) (l : list event) : Prop := {
  cd_trace : w_trace w' = l ++ w_trace w;
  cd_view : store_view (w_store w') = Some v';
  cd_jobs j : j ∈ v_jobs v -> j ∈ v_jobs v';
  cd_last : v_last v' = v_last v;
  cd_gate : v_gate v' = v_gate v;
  cd_range lo' hi' evs : ECallFilter lo' hi' (Ok evs) ∈ l -> lo' = lo /\ hi' = hi;
  cd_ranges : ranges l = [(lo, hi)] \/ (ok = false /\ ranges l = []);
  cd_cursor : v_cursor v' = if ok then hi else v_cursor v;
  cd_handled evs ev : ok = true -> ECallFilter lo hi (Ok evs) ∈ l -> ev ∈ evs ->
    handled ev (w_trace w') (v_jobs v');
}.

Lemma step_set_cursor b w r w' v :
  on_store (SetReconcileBlock b) w = (r, w') -> store_view (w_store w) = Some v ->
  w_trace w' = w_trace w /\ w_chain w' = w_chain w /\
  store_view (w_store w') =
    Some (if is_ok r then View (v_pending v) b (v_last v) (v_gate v) else v) /\
  (is_ok r = true -> v_cursor v <= b).
Proof.
  unfold on_store. destruct (SetReconcileBlock b (w_store w)) as [r1 s1] eqn:Eo. intros [= <- <-] Hv.
  destruct (law_SetReconcileBlock b _ v Hv) as [Hr _]. rewrite Eo in Hr. simpl.
  destruct r1 as [u|e]; simpl; [|done]. destruct Hr as (v' & Hs & ->).
  unfold spec_SetReconcileBlock in Hs. destruct (Z.ltb_spec b (v_cursor v)); [done|].
  by injection Hs as <- <-.
Qed.

Lemma step_chunk lo hi w r w' v :
  chunk lo hi w = (r, w') -> store_view (w_store w) = Some v ->
  exists l v', chunk_done lo hi w w' (is_ok r) v v' l.
Proof.
  unfold chunk, io_bind, io_wrap, io_err. intros E Hv.
  destruct (filterJobCompleted lo hi w) as [rf w1] eqn:E1.
  assert (w_trace w1 = ECallFilter lo hi rf :: w_trace w /\ store_view (w_store w1) = Some v) as [T1 Hv1].
  { unfold filterJobCompleted, traced, on_chain, emit, st_bind, st_ret in E1.
    destruct (FilterJobCompleted _ _ _ _). by simplify_eq/=. }
  destruct rf as [evs|e]; simplify_eq/=.
  2:{ exists [ECallFilter lo hi (Err e)], v. split; simpl; try done; [|by right]. intros ??? Hin. set_solver. }
  destruct (event_loop evs None w1) as [re w2] eqn:E2.
  destruct (step_event_loop _ _ _ _ _ _ E2 Hv1) as [S2 H2].
  destruct (ps_view _ _ S2 v Hv1) as (v2 & Hv2 & [J2 C2 L2 G2]).
  destruct (ps_trace _ _ S2) as [l2 T2]. rewrite T1 in T2.
  assert (forall lo' hi' evs', ECallFilter lo' hi' (Ok evs') ∈ l2 ++ [ECallFilter lo hi (Ok evs)] ->
    lo' = lo /\ hi' = hi /\ evs' = evs) as Hone.
  { intros lo' hi' evs' [Hin|Hin%list_elem_of_singleton]%elem_of_app; [|by injection Hin].
    rewrite <- T1 in T2. by apply (pass_step_no_filter _ _ _ _ _ _ S2 T2) in Hin. }
  assert (ranges (l2 ++ [ECallFilter lo hi (Ok evs)]) = [(lo, hi)]) as Hrg.
  { pose proof (ps_ranges _ _ S2) as R. rewrite T2, T1, ranges_app in R. simpl in R.
    rewrite ranges_app. simpl. f_equal. apply (f_equal length) in R. rewrite length_app in R.
    destruct (ranges l2); simpl in R; [done|lia]. }
  (* the events alone: the cursor is where it was *)
  assert (chunk_done lo hi w w2 false v v2 (l2 ++ [ECallFilter lo hi (Ok evs)])) as Hfail.
  { split; try done; [by rewrite T2, <- app_assoc| |by left].
    intros lo' hi' evs' Hin. by destruct (Hone _ _ _ Hin) as (? & ? & _). }
  destruct re as [fe|e]; simplify_eq/=; [|eexists _, v2; exact Hfail].
  destruct fe as [e|]; simplify_eq/=; [eexists _, v2; exact Hfail|].
  destruct (on_store (SetReconcileBlock hi) w2) as [rs w3] eqn:E3.
  destruct (step_set_cursor _ _ _ _ _ E3 Hv2) as (T3 & _ & Hv3 & _).
  destruct rs as [u|e]; simplify_eq/=.
  - unfold st_bind, io_ret, emit in E. simplify_eq/=.
    exists (ESetReconcileLastBlock hi :: l2 ++ [ECallFilter lo hi (Ok evs)]),
      (View (v_pending v2) hi (v_last v2) (v_gate v2)).
    split; simpl; try done; [by rewrite T3, T2, <- app_assoc| |by left|].
    + intros lo' hi' evs' [?|Hin]%elem_of_cons; [done|]. by destruct (Hone _ _ _ Hin) as (? & ? & _).
    + intros evs' ev _ [?|Hin]%elem_of_cons Hev; [done|]. destruct (Hone _ _ _ Hin) as (_ & _ & ->).
      destruct (H2 eq_refl) as [_ H2']. rewrite T3.
      apply (handled_mono _ _ [_] (v_jobs v2)); [by apply H2'|done].
  - exists (l2 ++ [ECallFilter lo hi (Ok evs)]), v2. destruct Hfail as [? ? ? ? ? ? ? ? ?].
    split; try done; by rewrite T3.
Qed.

(** ** The pass *)

(** The bounds under which no [uint64] of the scan wraps. *)
Definition scan_fits (start safeHead : Z) : Prop :=
  0 <= start /\ 0 < chunk_size /\ safeHead + chunk_size <= u64_max.

Lemma chunk_end lo safeHead :
  scan_fits lo safeHead -> lo <= safeHead ->
  let hi0 := u64_wrap (u64_wrap (lo + chunk_size) - 1) in
  (if safeHead <? hi0 then safeHead else hi0) = Z.min safeHead (lo + chunk_size - 1).
Proof.
  intros (H0 & Hc & Hm) Hle. cbv zeta.
  rewrite (u64_wrap_id (lo + chunk_size)) by (unfold is_u64; lia).
  rewrite u64_wrap_id by (unfold is_u64; lia).
  destruct (Z.ltb_spec safeHead (lo + chunk_size - 1)); lia.
Qed.

(** Every event fetched from a range at or below the cursor is handled. *)
Definition complete_below_cursor (tr : list event) (v : view) : Prop :=
  forall lo hi evs ev, ECallFilter lo hi (Ok evs) ∈ tr -> hi <= v_cursor v -> ev ∈ evs ->
    handled ev tr (v_jobs v).

(** The state of a pass before the chunk that starts at [lo]. *)
Record scanned (start lo : Z) (v0 : view) (w : world) (v : view) : Prop := {
  sc_view : store_view (w_store w) = Some v;
  sc_tiles : tiles (ranges (w_trace w)) start lo;
  sc_cursor : v_cursor v = v_cursor v0 /\ lo = start \/ v_cursor v = lo - 1 /\ start < lo;
  sc_below : v_cursor v < lo;
  sc_complete a b evs ev : ECallFilter a b (Ok evs) ∈ w_trace w -> ev ∈ evs ->
    handled ev (w_trace w) (v_jobs v);
  sc_jobs j : j ∈ v_jobs v0 -> j ∈ v_jobs v;
  sc_rest : v_last v = v_last v0 /\ v_gate v = v_gate v0;
}.

(** What a pass that began with [v0] at [start] leaves behind, failed or not:
    the cursor is where it was or at the end of a fully processed prefix. *)
Record left_behind (start : Z) (v0 : view) (w : world) (v : view) : Prop := {
  lb_view : store_view (w_store w) = Some v;
  lb_cursor : v_cursor v = v_cursor v0 \/
    start <= v_cursor v /\ exists l l', ranges (w_trace w) = l ++ l' /\ tiles l start (v_cursor v + 1);
  lb_complete : complete_below_cursor (w_trace w) v;
  lb_jobs j : j ∈ v_jobs v0 -> j ∈ v_jobs v;
  lb_rest : v_last v = v_last v0 /\ v_gate v = v_gate v0;
}.

Lemma scanned_left_behind start lo v0 w v : scanned start lo v0 w v -> left_behind start v0 w v.
Proof.
  intros [V Ti Cu Be Co Jo Re]. split; [done| | |done|done].
  - destruct Cu as [[? _]|[-> ?]]; [by left|right]. split; [lia|].
    exists (ranges (w_trace w)), []. rewrite app_nil_r. split; [done|]. by rewrite Z.sub_add.
  - intros a b evs ev Hin _ Hev. by eapply Co.
Qed.

Lemma scanned_chunk start lo hi v0 w v r w' :
  scanned start lo v0 w v -> chunk lo hi w = (r, w') -> start <= lo -> lo <= hi < lo + chunk_size ->
  exists v', match r with
    | Ok _ => scanned start (hi + 1) v0 w' v' /\ v_cursor v' = hi
    | Err _ => left_behind start v0 w' v'
    end.
Proof.
  intros [V Ti Cu Be Co Jo [La Ga]] E Hsl Hlh.
  destruct (step_chunk _ _ _ _ _ _ E V) as (l & v' & [T V' J L G R Rg Cur Hh]).
  assert (forall a b evs ev, ECallFilter a b (Ok evs) ∈ w_trace w -> ev ∈ evs ->
    handled ev (w_trace w') (v_jobs v')) as Hold.
  { intros a b evs ev Hin Hev. rewrite T. eapply handled_mono; [by eapply Co|exact J]. }
  exists v'. destruct r as [u|e]; simpl in *.
  - split; [|done]. split; [done| | |lia| |auto|split; congruence].
    + destruct Rg as [Rg|[? _]]; [|done]. rewrite T, ranges_app, Rg. by apply tiles_snoc.
    + right. lia.
    + intros a b evs ev Hin Hev. rewrite T in Hin. apply elem_of_app in Hin as [Hin|Hin]; [|by eapply Hold].
      destruct (R _ _ _ Hin) as [-> ->]. by eapply Hh.
  - split; [done| | |auto|split; congruence].
    + rewrite Cur. destruct Cu as [[? _]|[Hc ?]]; [by left|right]. split; [lia|].
      exists (ranges (w_trace w)), (ranges l). rewrite T, ranges_app. split; [done|].
      replace (v_cursor v + 1) with lo by lia. done.
    + intros a b evs ev Hin Hle Hev. rewrite T in Hin. apply elem_of_app in Hin as [Hin|Hin]; [|by eapply Hold].
      destruct (R _ _ _ Hin) as [-> ->]. lia.
Qed.

Lemma scanned_loop fuel start lo safeHead v0 w v r w' :
  scanned start lo v0 w v -> chunk_loop fuel lo safeHead w = (r, w') ->
  start <= lo <= safeHead -> scan_fits start safeHead ->
  exists v', match r with
    | Some (Ok _) => scanned start (safeHead + 1) v0 w' v' /\ v_cursor v' = safeHead
    | _ => left_behind start v0 w' v'
    end.
Proof.
  revert lo w v. induction fuel as [|fuel IH]; intros lo w v Hs E Hlo Hfit; simpl in E.
  { injection E as <- <-. exists v. by eapply scanned_left_behind. }
  unfold st_bind, st_ret in E.
  destruct (Z.leb_spec lo safeHead) as [Hle|]; [|lia]. simpl in E.
  assert (scan_fits lo safeHead) as Hfit' by (destruct Hfit as (? & ? & ?); split; [lia|done]).
  rewrite (chunk_end _ _ Hfit' Hle) in E. set (hi := Z.min _ _) in E.
  destruct Hfit as (Hz & Hc & Hm).
  destruct (chunk lo hi w) as [rc w1] eqn:Ec.
  destruct (scanned_chunk start lo hi v0 w v rc w1 Hs Ec) as (v1 & H1); [lia|unfold hi; lia|].
  destruct rc as [u|e]; [|by simplify_eq; exists v1].
  destruct (Z.eqb_spec hi safeHead) as [->|Hne]; [by simplify_eq; exists v1|].
  destruct H1 as [H1 _]. rewrite u64_wrap_id in E by (unfold is_u64, hi in *; lia).
  eapply IH; [exact H1|exact E|unfold hi in *; lia|done].
Qed.

(** Enough fuel: every chunk takes at least one block. *)
Lemma chunk_loop_terminates fuel lo safeHead w :
  scan_fits lo safeHead -> lo <= safeHead -> safeHead - lo < Z.of_nat fuel ->
  fst (chunk_loop fuel lo safeHead w) <> None.
Proof.
  revert lo w. induction fuel as [|fuel IH]; intros lo w Hfit Hle Hf; [lia|].
  simpl. unfold st_bind, st_ret. destruct (Z.leb_spec lo safeHead); [simpl|done].
  rewrite (chunk_end _ _ Hfit Hle). set (hi := Z.min _ _). destruct Hfit as (Hz & Hc & Hm).
  destruct (chunk lo hi w) as [[u|e] w1]; [|done].
  destruct (Z.eqb_spec hi safeHead); [done|].
  rewrite u64_wrap_id by (unfold is_u64, hi in *; lia).
  apply IH; [split; [unfold hi in *; lia|done]|unfold hi in *; lia..].
Qed.

(** The safe head a pass works to, when it has something to scan. *)
Definition target (w : world) (v : view) : option Z :=
  match fst (Head (w_chain w)) with
  | Err _ => None
  | Ok hd =>
      if Number hd <? Confirmations cfg then None
      else let safeHead := u64_wrap (Number hd - Confirmations cfg) in
           if safeHead <? start_of (v_cursor v) then None else Some safeHead
  end.

Lemma start_after_cursor c :
  0 <= c < u64_max -> 0 <= StartBlock cfg -> c < start_of c.
Proof.
  intros Hc Hs. unfold start_of. destruct (Z.eqb_spec c 0), (Z.ltb_spec 0 (StartBlock cfg)); simpl;
    rewrite ?u64_wrap_id by (unfold is_u64; lia); lia.
Qed.

(** A pass is one of: an error before the scan, nothing to scan, or the scan
    from the start to the target. *)
Lemma Run_cases fuel w v r w' :
  store_view (w_store w) = Some v -> Run fuel w = (r, w') ->
  (w_trace w' = w_trace w /\ store_view (w_store w') = Some v /\ r <> None /\
     (r = Some (Ok tt) -> target w v = None)) \/
  (exists w1 safeHead, target w v = Some safeHead /\ w_trace w1 = w_trace w /\
     store_view (w_store w1) = Some v /\
     chunk_loop fuel (start_of (v_cursor v)) safeHead w1 = (r, w') /\ start_of (v_cursor v) <= safeHead).
Proof.
  intros Hv. unfold Run, target, st_bind, st_ret, on_store, on_chain.
  destruct (law_GetReconcileBlock _ v Hv) as [Hg _].
  destruct (GetReconcileBlock (w_store w)) as [[c|e] s1]; simpl.
  2:{ intros [= <- <-]. by left. }
  destruct Hg as (v1 & [= <- <-] & Hv1).
  destruct (Head (w_chain w)) as [[hd|e] ch1]; simpl; [|intros [= <- <-]; by left].
  destruct (Number hd <? Confirmations cfg); [intros [= <- <-]; by left|].
  destruct (Z.ltb_spec (u64_wrap (Number hd - Confirmations cfg)) (start_of (v_cursor v)));
    [intros [= <- <-]; by left|].
  intros E. right. by exists (MkWorld s1 ch1 (w_trace w)), (u64_wrap (Number hd - Confirmations cfg)).
Qed.

Lemma scanned_init w v start :
  w_trace w = [] -> store_view (w_store w) = Some v -> v_cursor v < start -> scanned start start v w v.
Proof.
  intros HT Hv Hc. split; rewrite ?HT; simpl; auto. intros a b evs ev Hin.
  by apply not_elem_of_nil in Hin.
Qed.

Lemma pass_covers fuel w v w' safeHead :
  store_view (w_store w) = Some v -> w_trace w = [] ->
  0 <= v_cursor v < u64_max -> 0 <= StartBlock cfg -> target w v = Some safeHead ->
  scan_fits (start_of (v_cursor v)) safeHead ->
  Run fuel w = (Some (Ok tt), w') ->
  exists v', store_view (w_store w') = Some v' /\ v_cursor v' = safeHead /\
    tiles (ranges (w_trace w')) (start_of (v_cursor v)) (safeHead + 1) /\
    (forall lo hi evs ev, ECallFilter lo hi (Ok evs) ∈ w_trace w' -> ev ∈ evs ->
       handled ev (w_trace w') (v_jobs v')) /\
    (forall j, j ∈ v_jobs v -> j ∈ v_jobs v').
Proof.
  intros Hv HT Hc Hsb Ht Hfit E.
  apply (Run_cases _ _ v) in E as [(_ & _ & _ & Hn)|(w1 & sh & Ht' & T1 & Hv1 & E & Hle)];
    [by rewrite (Hn eq_refl) in Ht| |done].
  rewrite Ht in Ht'. injection Ht' as <-. rewrite HT in T1.
  pose proof (start_after_cursor (v_cursor v) Hc Hsb) as Hs.
  destruct (scanned_loop _ _ _ _ _ _ _ _ _ (scanned_init _ _ _ T1 Hv1 Hs) E) as (v' & [V Ti Cu Be Co Jo Re] & Hcur);
    [lia|done|].
  exists v'. auto.
Qed.

(** C12. A pass that succeeds has read every block from its start, right after
    the stored cursor (or the configured first block), to the safe head
    exactly once, in consecutive chunks of at most [ChunkSize] blocks; the
    cursor is at the safe head, and the job of every event it fetched is in the
    store, foreign, or has nothing left to release. *)
Theorem successful_pass_covers fuel w v w' safeHead :
  store_view (w_store w) = Some v -> w_trace w = [] ->
  0 <= v_cursor v < u64_max -> 0 <= StartBlock cfg -> target w v = Some safeHead ->
  scan_fits (start_of (v_cursor v)) safeHead ->
  Run fuel w = (Some (Ok tt), w') ->
  exists v', store_view (w_store w') = Some v' /\ v_cursor v' = safeHead /\
    tiles (ranges (w_trace w')) (start_of (v_cursor v)) (safeHead + 1) /\
    (forall lo hi evs ev, ECallFilter lo hi (Ok evs) ∈ w_trace w' -> ev ∈ evs ->
       handled ev (w_trace w') (v_jobs v')) /\
    (forall j, j ∈ v_jobs v -> j ∈ v_jobs v').
Proof. apply pass_covers. Qed.

(** C13. A pass that fails skips nothing: the cursor is where it was or at the
    end of a prefix of chunks processed completely, every event fetched from a
    block at or below it is handled, and no pending job, attempt time or gate
    is lost, so the next pass resumes with the chunk that failed. *)
Theorem failed_pass_skips_nothing fuel w v w' r :
  store_view (w_store w) = Some v -> w_trace w = [] ->
  0 <= v_cursor v < u64_max -> 0 <= StartBlock cfg ->
  (forall safeHead, target w v = Some safeHead -> scan_fits (start_of (v_cursor v)) safeHead) ->
  Run fuel w = (r, w') -> r <> Some (Ok tt) ->
  exists v', left_behind (start_of (v_cursor v)) v w' v' /\ v_cursor v <= v_cursor v'.
Proof.
  intros Hv HT Hc Hsb Hfit E Hr.
  pose proof (start_after_cursor (v_cursor v) Hc Hsb) as Hs.
  apply (Run_cases _ _ v) in E as [(T & Hv' & _ & _)|(w1 & sh & Ht & T1 & Hv1 & E & Hle)]; [| |done].
  - exists v. split; [|lia]. apply scanned_left_behind with (start_of (v_cursor v)).
    apply scanned_init; [by rewrite T, HT|done|done].
  - rewrite HT in T1.
    destruct (scanned_loop _ _ _ _ _ _ _ _ _ (scanned_init _ _ _ T1 Hv1 Hs) E) as (v' & H'); [lia|auto|].
    exists v'. assert (left_behind (start_of (v_cursor v)) v w' v') as Hl by (by destruct r as [[[]|]|]).
    split; [done|]. destruct (lb_cursor _ _ _ _ Hl) as [->|[? _]]; lia.
Qed.

(** C14. A pass ends: with one unit of fuel for each block to scan the loop is
    never cut short, whatever the chain and the store answer. *)
Theorem pass_terminates fuel w v safeHead :
  store_view (w_store w) = Some v -> target w v = Some safeHead ->
  scan_fits (start_of (v_cursor v)) safeHead ->
  safeHead - start_of (v_cursor v) < Z.of_nat fuel ->
  exists r, fst (Run fuel w) = Some r.
Proof.
  intros Hv Ht Hfit Hf. destruct (Run fuel w) as [r w'] eqn:E. simpl.
  apply (Run_cases _ _ v) in E as [(_ & _ & Hr & _)|(w1 & sh & Ht' & T1 & Hv1 & E & Hle)]; [| |done].
  - destruct r; [by eexists|done].
  - rewrite Ht in Ht'. injection Ht' as <-.
    pose proof (chunk_loop_terminates fuel _ _ w1 Hfit Hle Hf) as Hn. rewrite E in Hn.
    destruct r; [by eexists|done].
Qed.
End Reconciler.

(** ** Concrete runs *)
#[local] Existing Instances plain_addresses plain_addresses_laws.

Definition demo_addr : @Address plain_addresses := "0xW"%string.

(** A chain with one event at each of the blocks 3, 6 and 9; the state of the
    jobs in [broken] cannot be read. *)
Record demo_chain : Type := MkDemoChain { dc_head : Z; dc_broken : list Z }.

Definition demo_events : list JobCompletedEvent :=
  [MkJobCompleted 103 demo_addr 3; MkJobCompleted 106 demo_addr 6; MkJobCompleted 109 demo_addr 9].

#[local] Instance demo_client : SettlementClient demo_chain := {|
  Head := fun c => (Ok (MkHead (dc_head c) 1000), c);
  GetDisputeWindow := fun c => (Ok 0, c);
  GetJobState := fun id c =>
    (if bool_decide (id ∈ dc_broken c) then Err (errorf "no answer")
     else Ok (MkJobStateInfo JobStateCompleted demo_addr 900 (Some 5)), c);
  ReleaseJob := fun _ c => (Ok tt, c);
  ReleaseJobs := fun _ c => (Ok tt, c);
  FilterJobCompleted := fun _ lo hi c =>
    (Ok (filter (fun ev => lo <= ev_BlockNumber ev /\ ev_BlockNumber ev <= hi) demo_events), c);
|}.

Definition demo_cfg : Config := {|
  Enabled := true; StatePath := "./release_state.json"; Interval := Hour; ProbeInterval := Minute;
  BatchThreshold := 1; MaxBatchSize := 50; TxTimeout := Minute; StartBlock := 2; ChunkSize := 4;
  Confirmations := 5; ReconcileInterval := Hour; BackoffBase := Minute; BackoffMax := Hour;
  PausedCycleBackoff := Hour; StaleDisputeWarnAfter := Hour; DisputeWindowOverride := 0;
  DisputeWindowCacheTTL := 0 |}.

Definition demo_world (broken : list Z) : @world plain_addresses FileStore.FileStore demo_chain :=
  MkWorld (FileStore.MkStore FileStore.demo_id true false
    (FileStore.MkFS (Some (FileStore.MkFile (FileStore.Json (FileStore.MkSnapshot 2 31337 "0xR" "0xW" [] 0 0 0)) true))
      None [] []))
    (MkDemoChain 15 broken) [].

Definition done_world : @world plain_addresses FileStore.FileStore demo_chain :=
  Eval vm_compute in snd (Run demo_cfg demo_addr 20 (demo_world [])).
Definition stuck_world : @world plain_addresses FileStore.FileStore demo_chain :=
  Eval vm_compute in snd (Run demo_cfg demo_addr 20 (demo_world [106])).
Definition stuck_result : option (result unit) :=
  Eval vm_compute in fst (Run demo_cfg demo_addr 20 (demo_world [106])).

Lemma demo_done : Run demo_cfg demo_addr 20 (demo_world []) = (Some (Ok tt), done_world).
Proof. vm_compute. reflexivity. Qed.
Lemma demo_stuck : Run demo_cfg demo_addr 20 (demo_world [106]) = (stuck_result, stuck_world).
Proof. vm_compute. reflexivity. Qed.

Example demo_ranges : ranges (w_trace done_world) = [(2, 5); (6, 9); (10, 10)].
Proof. reflexivity. Qed.

Lemma demo_fits : scan_fits demo_cfg (start_of demo_cfg 0) 10.
Proof. split; [discriminate|split; [reflexivity|discriminate]]. Qed.

Lemma demo_view broken : store_view (w_store (demo_world broken)) = Some (View [] 0 0 0).
Proof. vm_compute. reflexivity. Qed.

Lemma successful_pass_covers_witness :
  exists v', store_view (w_store done_world) = Some v' /\ v_cursor v' = 10 /\
    tiles demo_cfg [(2, 5); (6, 9); (10, 10)] 2 11.
Proof.
  destruct (successful_pass_covers demo_cfg demo_addr 20 (demo_world []) (View [] 0 0 0) done_world 10
    (demo_view []) eq_refl) as (v' & Hv & Hc & Ht & _);
    [split; [discriminate|reflexivity]|discriminate|reflexivity|exact demo_fits|exact demo_done|].
  exists v'. split; [exact Hv|]. split; [exact Hc|exact Ht].
Defined.

Lemma failed_pass_skips_nothing_witness :
  exists v', left_behind demo_cfg demo_addr 2 (View [] 0 0 0) stuck_world v' /\ 0 <= v_cursor v'.
Proof.
  apply (failed_pass_skips_nothing demo_cfg demo_addr 20 (demo_world [106]) (View [] 0 0 0) stuck_world
    stuck_result (demo_view [106]) eq_refl);
    [split; [discriminate|reflexivity]|discriminate| |exact demo_stuck|discriminate].
  intros sh [= <-]. exact demo_fits.
Defined.

Lemma demo_target : target demo_cfg (demo_world [106]) (View [] 0 0 0) = Some 10.
Proof. vm_compute. reflexivity. Qed.
Lemma demo_fuel : 10 - start_of demo_cfg (v_cursor (View [] 0 0 0)) < Z.of_nat 9.
Proof. vm_compute. reflexivity. Qed.

Lemma pass_terminates_witness : exists r, fst (Run demo_cfg demo_addr 9 (demo_world [106])) = Some r.
Proof.
  exact (pass_terminates demo_cfg demo_addr 9 (demo_world [106]) (View [] 0 0 0) 10 (demo_view [106])
    demo_target demo_fits demo_fuel).
Defined.
End Reconciler.
