(* ===== verification/Coordinator.v ===== *)
(** The subpool coordinator of [internal/chain/subpool_coordinator.go]: blob
    transactions and all others must never be pending together, while any
    number of one class may be. The goroutines that call it are a transition
    system, so that the wake-up protocol is part of the model. *)
From S2P Require Import Prelude.

Module Coordinator.

Inductive TxClass : Type := ClassBlob | ClassLegacy.

#[global] Instance TxClass_eq_dec : EqDecision TxClass.
Proof. solve_decision. Defined.

Definition other (c : TxClass) : TxClass :=
  match c with ClassBlob => ClassLegacy | ClassLegacy => ClassBlob end.

Definition TxClass_String (c : TxClass) : string :=
  match c with ClassBlob => "blob" | ClassLegacy => "legacy" end.

Definition defaultMaxTokenLifetime : Z := 3 * Minute.

(** [inflightEntry]; instants are nanoseconds, a hash is set by [Registered]. *)
Record inflightEntry : Type := MkEntry {
  entry_id : Z;
  entry_class : TxClass;
  entry_hash : Z;
  enteredAt : Z;
}.

(** [SubpoolCoordinator]. The notify channel is the number of channels closed
    so far: a waiter that snapshotted [g] is woken once [g < notify]. *)
Record t : Type := MkCoordinator {
  maxTokenLifetime : Z;
  inflight_blob : gmap Z inflightEntry;
  inflight_legacy : gmap Z inflightEntry;
  notify : nat;
  nextID : Z;
  orphanCount : Z;
}.

Definition inflight (c : t) (cls : TxClass) : gmap Z inflightEntry :=
  match cls with ClassBlob => inflight_blob c | ClassLegacy => inflight_legacy c end.

Definition set_inflight (cls : TxClass) (m : gmap Z inflightEntry) (c : t) : t :=
  match cls with
  | ClassBlob => MkCoordinator (maxTokenLifetime c) m (inflight_legacy c) (notify c) (nextID c) (orphanCount c)
  | ClassLegacy => MkCoordinator (maxTokenLifetime c) (inflight_blob c) m (notify c) (nextID c) (orphanCount c)
  end.

(** [close(c.notify); c.notify = make(chan struct{})]. *)
Definition renotify (c : t) : t :=
  MkCoordinator (maxTokenLifetime c) (inflight_blob c) (inflight_legacy c) (S (notify c)) (nextID c) (orphanCount c).

Definition take_id (c : t) : t :=
  MkCoordinator (maxTokenLifetime c) (inflight_blob c) (inflight_legacy c) (notify c)
    (u64_wrap (nextID c + 1)) (orphanCount c).

Definition NewSubpoolCoordinator (maxTokenLifetime : Z) : t :=
  MkCoordinator (if maxTokenLifetime <=? 0 then defaultMaxTokenLifetime else maxTokenLifetime)
    ∅ ∅ 0 0 0.

Record BroadcastToken : Type := MkToken {
  entryID : Z;
  token_class : TxClass;
  settled : bool;
}.

(** [c.nextID++; c.inflight[class][id] = &inflightEntry{...}]. *)
Definition add_entry (cls : TxClass) (now : Z) (c : t) : t :=
  let c1 := take_id c in
  let id := nextID c1 in
  set_inflight cls (<[id := MkEntry id cls 0 now]> (inflight c1 cls)) c1.

(** One turn of [Enter]'s loop, from Lock to Unlock: a token, or the channel
    to wait on. *)
Definition enter_once (cls : TxClass) (now : Z) (c : t) : (BroadcastToken + nat) * t :=
  if bool_decide (size (inflight c (other cls)) = 0%nat)
  then let c' := add_entry cls now c in (inl (MkToken (nextID c') cls false), c')
  else (inr (notify c), c).

(** [Registered]. *)
Definition Registered (tok : BroadcastToken) (hash : Z) (c : t) : t :=
  if settled tok then c
  else match inflight c (token_class tok) !! entryID tok with
       | Some e => set_inflight (token_class tok)
                     (<[entryID tok := MkEntry (entry_id e) (entry_class e) hash (enteredAt e)]>
                        (inflight c (token_class tok))) c
       | None => c
       end.

(** [release]. *)
Definition release (cls : TxClass) (id : Z) (c : t) : t :=
  let c1 := set_inflight cls (delete id (inflight c cls)) c in
  if bool_decide (size (inflight c1 cls) = 0%nat) then renotify c1 else c1.

(** [Done]; [Abandon] is the same call. *)
Definition Done (tok : BroadcastToken) (c : t) : BroadcastToken * t :=
  if settled tok then (tok, c)
  else (MkToken (entryID tok) (token_class tok) true, release (token_class tok) (entryID tok) c).
Definition Abandon (tok : BroadcastToken) (c : t) : BroadcastToken * t := Done tok c.

Definition Inflight (c : t) (cls : TxClass) : nat := size (inflight c cls).
Definition OrphanCount (c : t) : Z := orphanCount c.

(** [Seed]. *)
Definition Seed (pendingNonce latestNonce now : Z) (c : t) : t :=
  if pendingNonce <=? latestNonce then c
  else Nat.iter (Z.to_nat (pendingNonce - latestNonce)) (add_entry ClassBlob now) c.

(** [reapStale]. *)
Definition stale (cutoff : Z) (p : Z * inflightEntry) : Prop := enteredAt (snd p) < cutoff.

#[global] Instance stale_dec cutoff p : Decision (stale cutoff p).
Proof. unfold stale. apply _. Defined.

Definition evicted (cutoff : Z) (c : t) (cls : TxClass) : gmap Z inflightEntry :=
  filter (fun p => stale cutoff p) (inflight c cls).
Definition kept (cutoff : Z) (c : t) (cls : TxClass) : gmap Z inflightEntry :=
  filter (fun p => ~ stale cutoff p) (inflight c cls).
Definition classEmptied (cutoff : Z) (c : t) (cls : TxClass) : bool :=
  negb (bool_decide (size (evicted cutoff c cls) = 0%nat)) &&
  bool_decide (size (kept cutoff c cls) = 0%nat).

Definition reapStale (now : Z) (c : t) : t :=
  let cutoff := now - maxTokenLifetime c in
  let c1 := set_inflight ClassLegacy (kept cutoff c ClassLegacy)
              (set_inflight ClassBlob (kept cutoff c ClassBlob) c) in
  let needsNotify := classEmptied cutoff c ClassBlob || classEmptied cutoff c ClassLegacy in
  let c2 := if needsNotify then renotify c1 else c1 in
  MkCoordinator (maxTokenLifetime c2) (inflight_blob c2) (inflight_legacy c2) (notify c2) (nextID c2)
    (orphanCount c2 +
     Z.of_nat (size (evicted cutoff c ClassBlob) + size (evicted cutoff c ClassLegacy))).

(** ** The goroutines

    A caller is about to take the lock in [Enter], waits in its select, holds
    a token, or has left. Instants never decrease; [since], the instant the
    token was issued, is ghost state. *)
Inductive thread : Type :=
  | Trying (cls : TxClass)
  | Waiting (cls : TxClass) (ch : nat)
  | Holding (tok : BroadcastToken) (since : Z)
  | Left.

Record config : Type := Config {
  coord : t;
  threads : gmap nat thread;
  clock : Z;
}.

Inductive step (s : config) : config -> Prop :=
  | step_call i cls :
      threads s !! i = None ->
      step s (Config (coord s) (<[i := Trying cls]> (threads s)) (clock s))
  | step_enter i cls tok c' :
      threads s !! i = Some (Trying cls) -> nextID (coord s) < u64_max ->
      enter_once cls (clock s) (coord s) = (inl tok, c') ->
      step s (Config c' (<[i := Holding tok (clock s)]> (threads s)) (clock s))
  | step_wait i cls ch c' :
      threads s !! i = Some (Trying cls) ->
      enter_once cls (clock s) (coord s) = (inr ch, c') ->
      step s (Config c' (<[i := Waiting cls ch]> (threads s)) (clock s))
  | step_wake i cls ch :
      threads s !! i = Some (Waiting cls ch) -> (ch < notify (coord s))%nat ->
      step s (Config (coord s) (<[i := Trying cls]> (threads s)) (clock s))
  | step_cancel i cls ch :
      threads s !! i = Some (Waiting cls ch) ->
      step s (Config (coord s) (<[i := Left]> (threads s)) (clock s))
  | step_registered i tok since hash :
      threads s !! i = Some (Holding tok since) ->
      step s (Config (Registered tok hash (coord s)) (threads s) (clock s))
  | step_done i tok since tok' c' :
      threads s !! i = Some (Holding tok since) -> Done tok (coord s) = (tok', c') ->
      step s (Config c' (<[i := Left]> (threads s)) (clock s))
  | step_reap :
      step s (Config (reapStale (clock s) (coord s)) (threads s) (clock s))
  | step_time now :
      clock s <= now -> step s (Config (coord s) (threads s) now).

(** The service creates the coordinator and may seed it before any caller. *)
Definition initial (s : config) : Prop :=
  threads s = ∅ /\ exists lifetime pendingNonce latestNonce,
    0 <= latestNonce /\ 0 <= pendingNonce < u64_max /\
    coord s = Seed pendingNonce latestNonce (clock s) (NewSubpoolCoordinator lifetime).

(** ** The invariant *)

Definition live (c : t) (tok : BroadcastToken) (since : Z) : Prop :=
  exists e, inflight c (token_class tok) !! entryID tok = Some e /\ enteredAt e = since.

Record Inv (s : config) : Prop := {
  inv_exclusive : inflight_blob (coord s) = ∅ \/ inflight_legacy (coord s) = ∅;
  inv_next : 0 <= nextID (coord s) <= u64_max;
  inv_ids cls id e : inflight (coord s) cls !! id = Some e ->
    0 < id <= nextID (coord s) /\ enteredAt e <= clock s;
  inv_token i tok since : threads s !! i = Some (Holding tok since) ->
    settled tok = false /\ 0 < entryID tok <= nextID (coord s) /\ since <= clock s /\
    (live (coord s) tok since \/ since < clock s - maxTokenLifetime (coord s));
  inv_distinct i j tok1 tok2 since1 since2 :
    threads s !! i = Some (Holding tok1 since1) -> threads s !! j = Some (Holding tok2 since2) ->
    entryID tok1 = entryID tok2 -> i = j;
  inv_waiting i cls ch : threads s !! i = Some (Waiting cls ch) ->
    (ch <= notify (coord s))%nat /\ (ch = notify (coord s) -> inflight (coord s) (other cls) <> ∅);
}.

Lemma inflight_set cls m c cls' :
  inflight (set_inflight cls m c) cls' = if decide (cls' = cls) then m else inflight c cls'.
Proof. by destruct cls, cls'. Qed.

Lemma set_inflight_frame cls m c :
  notify (set_inflight cls m c) = notify c /\ nextID (set_inflight cls m c) = nextID c /\
  maxTokenLifetime (set_inflight cls m c) = maxTokenLifetime c.
Proof. by destruct cls. Qed.

Lemma inflight_renotify c cls : inflight (renotify c) cls = inflight c cls.
Proof. by destruct cls. Qed.

Lemma exclusive_iff c :
  inflight_blob c = ∅ \/ inflight_legacy c = ∅ <->
  forall cls, inflight c cls <> ∅ -> inflight c (other cls) = ∅.
Proof.
  split.
  - intros [H|H] [] Hne; simpl in *; congruence.
  - intros H. destruct (decide (inflight_blob c = ∅)); [by left|right]. by apply (H ClassBlob).
Qed.

(** *** The operations *)

Lemma add_entry_spec cls now c :
  0 <= nextID c < u64_max ->
  nextID (add_entry cls now c) = nextID c + 1 /\ notify (add_entry cls now c) = notify c /\
  maxTokenLifetime (add_entry cls now c) = maxTokenLifetime c /\
  forall cls', inflight (add_entry cls now c) cls' =
    if decide (cls' = cls)
    then <[nextID c + 1 := MkEntry (nextID c + 1) cls 0 now]> (inflight c cls) else inflight c cls'.
Proof.
  intros Hn. unfold add_entry. destruct (set_inflight_frame cls
    (<[nextID (take_id c):=MkEntry (nextID (take_id c)) cls 0 now]> (inflight (take_id c) cls)) (take_id c))
    as (-> & -> & ->).
  assert (nextID (take_id c) = nextID c + 1) as Hid.
  { simpl. rewrite u64_wrap_id by (unfold is_u64; lia). done. }
  rewrite Hid. split; [done|]. split; [done|]. split; [done|].
  intros cls'. rewrite inflight_set. by destruct cls, cls'.
Qed.

Lemma enter_once_spec cls now c r c' :
  enter_once cls now c = (r, c') ->
  match r with
  | inl tok => inflight c (other cls) = ∅ /\ c' = add_entry cls now c /\ tok = MkToken (nextID c') cls false
  | inr ch => inflight c (other cls) <> ∅ /\ c' = c /\ ch = notify c
  end.
Proof.
  unfold enter_once. case_bool_decide as Hsz; intros [= <- <-].
  - by apply map_size_empty_iff in Hsz.
  - split; [|done]. by intros He%map_size_empty_iff.
Qed.

Lemma release_spec cls id c :
  nextID (release cls id c) = nextID c /\ maxTokenLifetime (release cls id c) = maxTokenLifetime c /\
  (forall cls', inflight (release cls id c) cls' =
     if decide (cls' = cls) then delete id (inflight c cls) else inflight c cls') /\
  (notify c <= notify (release cls id c))%nat /\
  (notify (release cls id c) = notify c -> inflight (release cls id c) cls <> ∅).
Proof.
  unfold release. set (c1 := set_inflight _ _ _).
  assert (forall cls', inflight c1 cls' =
     if decide (cls' = cls) then delete id (inflight c cls) else inflight c cls') as Hin.
  { intros cls'. apply inflight_set. }
  destruct (set_inflight_frame cls (delete id (inflight c cls)) c) as (N & I & M).
  fold c1 in N, I, M. case_bool_decide as Hsz; simpl.
  - rewrite N, I, M. split; [done|]. split; [done|]. split; [intros; rewrite inflight_renotify; apply Hin|]. lia.
  - rewrite N, I, M. split; [done|]. split; [done|]. split; [apply Hin|]. split; [done|].
    intros _ He. apply Hsz. by apply map_size_empty_iff.
Qed.

Lemma kept_empty cutoff c cls :
  kept cutoff c cls = ∅ -> classEmptied cutoff c cls = false -> inflight c cls = ∅.
Proof.
  unfold classEmptied. intros He Hf.
  rewrite He, map_size_empty, (bool_decide_eq_true_2 (0%nat = 0%nat)), andb_true_r in Hf by done.
  apply negb_false_iff, bool_decide_eq_true, map_size_empty_iff in Hf.
  apply map_eq. intros id. rewrite lookup_empty.
  destruct (inflight c cls !! id) as [e|] eqn:E; [|done].
  unfold kept, evicted in *. destruct (decide (stale cutoff (id, e))).
  - by destruct (map_filter_empty_not_lookup _ _ id e Hf).
  - by destruct (map_filter_empty_not_lookup _ _ id e He).
Qed.

Lemma reapStale_spec now c :
  let c' := reapStale now c in
  nextID c' = nextID c /\ maxTokenLifetime c' = maxTokenLifetime c /\
  (forall cls, inflight c' cls = kept (now - maxTokenLifetime c) c cls) /\
  (notify c <= notify c')%nat /\
  (notify c' = notify c -> forall cls, inflight c' cls = ∅ -> inflight c cls = ∅).
Proof.
  intros c'. unfold c', reapStale. cbv zeta. set (cut := now - maxTokenLifetime c).
  destruct (classEmptied cut c ClassBlob) eqn:E1, (classEmptied cut c ClassLegacy) eqn:E2; simpl;
    (split; [done|]); (split; [done|]); (split; [by intros []|]); (split; [lia|]); try (intros; lia).
  intros _ [] He; by apply (kept_empty cut).
Qed.

Lemma Registered_spec tok h c :
  nextID (Registered tok h c) = nextID c /\ maxTokenLifetime (Registered tok h c) = maxTokenLifetime c /\
  notify (Registered tok h c) = notify c /\
  (forall cls id, enteredAt <$> inflight (Registered tok h c) cls !! id = enteredAt <$> inflight c cls !! id).
Proof.
  unfold Registered. destruct (settled tok); [done|].
  destruct (inflight c (token_class tok) !! entryID tok) as [e|] eqn:E; [|done].
  destruct (set_inflight_frame (token_class tok)
    (<[entryID tok:=MkEntry (entry_id e) (entry_class e) h (enteredAt e)]> (inflight c (token_class tok))) c)
    as (-> & -> & ->).
  split; [done|]. split; [done|]. split; [done|]. intros cls id. rewrite inflight_set.
  destruct (decide (cls = token_class tok)) as [->|]; [|done].
  destruct (decide (id = entryID tok)) as [->|]; [by rewrite lookup_insert_eq, E|by rewrite lookup_insert_ne].
Qed.

(** A map with the same entry instants is empty together with the other. *)
Lemma same_instants_empty (m m' : gmap Z inflightEntry) :
  (forall id, enteredAt <$> m' !! id = enteredAt <$> m !! id) -> m = ∅ <-> m' = ∅.
Proof.
  intros Hi. rewrite !map_empty. split; intros H id; specialize (Hi id); rewrite H in Hi;
    [by destruct (m' !! id)|by destruct (m !! id)].
Qed.

(** *** Initial states *)

Lemma Seed_spec n now c :
  inflight_legacy c = ∅ -> nextID c = 0 -> inflight_blob c = ∅ -> Z.of_nat n <= u64_max ->
  let c' := Nat.iter n (add_entry ClassBlob now) c in
  nextID c' = Z.of_nat n /\ inflight_legacy c' = ∅ /\
  (forall id e, inflight_blob c' !! id = Some e -> 0 < id <= Z.of_nat n /\ enteredAt e = now).
Proof.
  intros Hl Hid Hb. cbv zeta. induction n as [|n IH]; intros Hn; [simpl|rewrite Nat.iter_succ].
  { split; [done|]. split; [done|]. rewrite Hb. intros id e. by rewrite lookup_empty. }
  destruct IH as (I & L & E); [lia|]. set (c1 := Nat.iter n (add_entry ClassBlob now) c) in *.
  destruct (add_entry_spec ClassBlob now c1) as (I1 & _ & _ & F1); [lia|].
  split; [lia|]. split; [exact (eq_trans (F1 ClassLegacy) L)|].
  intros id e He. change (inflight_blob (add_entry ClassBlob now c1))
    with (inflight (add_entry ClassBlob now c1) ClassBlob) in He.
  rewrite F1, decide_True in He by done. apply lookup_insert_Some in He as [[<- <-]|[_ He]]; simpl; [split; [lia|done]|].
  destruct (E _ _ He). split; [lia|done].
Qed.

Lemma initial_coordinated s : initial s -> Inv s.
Proof.
  intros (Ht & lt & p & l & Hl & Hp & Hc).
  assert (nextID (coord s) = Z.max 0 (p - l) /\ inflight_legacy (coord s) = ∅ /\
    (forall id e, inflight_blob (coord s) !! id = Some e ->
       0 < id <= nextID (coord s) /\ enteredAt e = clock s)) as (Hn & Hle & Hb).
  { rewrite Hc. unfold Seed. destruct (Z.leb_spec p l).
    - simpl. split; [lia|]. split; [done|]. intros id e. by rewrite lookup_empty.
    - destruct (Seed_spec (Z.to_nat (p - l)) (clock s) (NewSubpoolCoordinator lt)) as (-> & ? & ?);
        [done|done|done|lia|]. rewrite Z2Nat.id by lia. rewrite Z2Nat.id in * by lia. split; [lia|done]. }
  split; rewrite ?Ht; try (intros *; by rewrite lookup_empty); [by right|lia|].
  intros [] id e; simpl; [|by rewrite Hle, lookup_empty]. intros He. destruct (Hb _ _ He). split; [done|lia].
Qed.

(** *** Preservation *)

(** The invariant only looks at the entry instants of the maps, so steps that
    keep them keep it. *)
Lemma live_iff c c' tok since :
  (forall cls id, enteredAt <$> inflight c' cls !! id = enteredAt <$> inflight c cls !! id) ->
  live c' tok since <-> live c tok since.
Proof.
  intros H. specialize (H (token_class tok) (entryID tok)). unfold live.
  destruct (inflight c' _ !! _), (inflight c _ !! _); simplify_eq/=; naive_solver congruence.
Qed.

(** A thread that is not (any more) a waiter or a holder needs nothing. *)
Lemma Inv_thread s i th :
  Inv s -> (forall cls ch, th <> Waiting cls ch) -> (forall tok since, th <> Holding tok since) ->
  Inv (Config (coord s) (<[i := th]> (threads s)) (clock s)).
Proof.
  intros [E N I T D W] Hw Hh. split; simpl; try done.
  - intros j tok since [[_ Hj]|[_ Hj]]%lookup_insert_Some; [by destruct (Hh tok since)|by eapply T].
  - intros j k tok1 tok2 s1 s2 [[_ Hj]|[_ Hj]]%lookup_insert_Some [[_ Hk]|[_ Hk]]%lookup_insert_Some;
      [by destruct (Hh tok1 s1)|by destruct (Hh tok1 s1)|by destruct (Hh tok2 s2)|by eapply D].
  - intros j cls ch [[_ Hj]|[_ Hj]]%lookup_insert_Some; [by destruct (Hw cls ch)|by eapply W].
Qed.

Lemma Inv_enter s i cls :
  Inv s -> nextID (coord s) < u64_max -> inflight (coord s) (other cls) = ∅ ->
  let c' := add_entry cls (clock s) (coord s) in
  Inv (Config c' (<[i := Holding (MkToken (nextID c') cls false) (clock s)]> (threads s)) (clock s)).
Proof.
  intros [E N I T D W] Hn Ho c'.
  destruct (add_entry_spec cls (clock s) (coord s)) as (Hid & Hnt & Hml & Hin); [lia|].
  fold c' in Hid, Hnt, Hml, Hin.
  assert (forall id e, inflight c' cls !! id = Some e -> 
    id = nextID (coord s) + 1 /\ enteredAt e = clock s \/ inflight (coord s) cls !! id = Some e) as Hnew.
  { intros id e. rewrite Hin, decide_True by done. intros [[<- <-]|[_ ?]]%lookup_insert_Some; auto. }
  split; simpl; rewrite ?Hid.
  - apply exclusive_iff. intros cls' Hne. rewrite Hin in *.
    destruct (decide (other cls' = cls)) as [<-|].
    + rewrite decide_False in Hne by (by destruct cls'). destruct cls'; simpl in *; congruence.
    + destruct (decide (cls' = cls)) as [->|]; [done|]. by destruct cls', cls.
  - lia.
  - intros cls' id e. rewrite Hin. case_decide as Hc; [subst cls'|].
    + intros [[<- <-]|[_ He]]%lookup_insert_Some; simpl; [lia|]. apply I in He. lia.
    + intros He%I. lia.
  - intros j tok since [[_ [= <- <-]]|[_ Hj]]%lookup_insert_Some; simpl.
    + split; [done|]. split; [lia|]. split; [lia|]. left. exists (MkEntry (nextID (coord s) + 1) cls 0 (clock s)).
      simpl. rewrite ?Hid, Hin, decide_True by done. by rewrite lookup_insert_eq.
    + destruct (T _ _ _ Hj) as (S1 & R1 & C1 & L1). split; [done|]. split; [lia|]. split; [done|].
      rewrite Hml. destruct L1 as [(e & He & Hs)|?]; [left|by right]. exists e. split; [|done].
      rewrite Hin. case_decide as Hc; [|done]. subst cls. by rewrite lookup_insert_ne by lia.
  - intros j k tok1 tok2 s1 s2 [[<- [= <- <-]]|[Hij Hj]]%lookup_insert_Some
      [[<- [= <- <-]]|[Hik Hk]]%lookup_insert_Some Heq; simpl in *; try done.
    + destruct (T _ _ _ Hk) as (_ & ? & _). lia.
    + destruct (T _ _ _ Hj) as (_ & ? & _). lia.
    + by eapply D.
  - intros j cls' ch [[_ ?]|[_ Hj]]%lookup_insert_Some; [done|]. rewrite Hnt.
    destruct (W _ _ _ Hj) as [Hle Hne]. split; [done|]. intros Hch. specialize (Hne Hch).
    rewrite Hin. case_decide as Hc; [|done]. intros He. apply (insert_non_empty _ _ _ He).
Qed.

(** Entries may only be removed, and a class that becomes empty is announced:
    this covers releasing and reaping. *)
Lemma Inv_shrink s c' ths :
  Inv s ->
  nextID c' = nextID (coord s) -> maxTokenLifetime c' = maxTokenLifetime (coord s) ->
  (forall cls id e, inflight c' cls !! id = Some e -> inflight (coord s) cls !! id = Some e) ->
  (notify (coord s) <= notify c')%nat ->
  (notify c' = notify (coord s) -> forall cls, inflight c' cls = ∅ -> inflight (coord s) cls = ∅) ->
  (forall j th, ths !! j = Some th -> threads s !! j = Some th \/ th = Left) ->
  (forall j tok since, ths !! j = Some (Holding tok since) -> live (coord s) tok since ->
     live c' tok since \/ since < clock s - maxTokenLifetime c') ->
  Inv (Config c' ths (clock s)).
Proof.
  intros [E N I T D W] Hid Hml Hsub Hnt Hem Hth Hlive.
  assert (forall j th, ths !! j = Some th -> th <> Left -> threads s !! j = Some th) as Hth'.
  { intros j th Hj Hn. by destruct (Hth j th Hj). }
  split; simpl; rewrite ?Hid; try done.
  - apply exclusive_iff. intros cls Hne. apply map_empty. intros id.
    destruct (inflight c' (other cls) !! id) as [e|] eqn:He; [|done].
    apply Hsub in He. rewrite exclusive_iff in E. rewrite (E cls) in He; [by rewrite lookup_empty in He|].
    intros H0. apply Hne, map_empty. intros id'.
    destruct (inflight c' cls !! id') as [e'|] eqn:He'; [|done].
    apply Hsub in He'. by rewrite H0, lookup_empty in He'.
  - intros cls id e He%Hsub. by eapply I.
  - intros j tok since Hj. pose proof (Hth' _ _ Hj) as Hj'. destruct (T _ _ _ (Hj' ltac:(done))) as (? & ? & ? & HL).
    split; [done|]. split; [done|]. split; [done|].
    destruct HL as [HL|HL]; [by eapply Hlive|right; lia].
  - intros j k tok1 tok2 s1 s2 Hj Hk. eapply D; by apply Hth'.
  - intros j cls ch Hj. destruct (W j cls ch) as [Hle Hne]; [by apply Hth'|]. split; [lia|].
    intros Hch. assert (notify c' = notify (coord s)) as Heq by lia.
    intros He. apply Hne; [lia|]. by apply Hem.
Qed.

Lemma Inv_step s s' : Inv s -> step s s' -> Inv s'.
Proof.
  intros HI Hst. destruct Hst as
    [i cls Hi|i cls tok c' Hi Hn He|i cls ch c' Hi He|i cls ch Hi Hch|i cls ch Hi
    |i tok since h Hi|i tok since tok' c' Hi He| |now Hnow].
  - by apply Inv_thread.
  - apply enter_once_spec in He as (Ho & -> & ->). by apply Inv_enter.
  - apply enter_once_spec in He as (Ho & -> & ->). destruct HI as [E N I T D W]. split; simpl; try done.
    + intros j tok since [[_ ?]|[_ Hj]]%lookup_insert_Some; [done|by eapply T].
    + intros j k tok1 tok2 s1 s2 [[_ ?]|[_ Hj]]%lookup_insert_Some [[_ ?]|[_ Hk]]%lookup_insert_Some; try done.
      by eapply D.
    + intros j cls' ch' [[_ [= <- <-]]|[_ Hj]]%lookup_insert_Some; [by split|by eapply W].
  - by apply Inv_thread.
  - by apply Inv_thread.
  - destruct (Registered_spec tok h (coord s)) as (Hid & Hml & Hnt & Hin).
    destruct HI as [E N I T D W]. split; simpl; rewrite ?Hid, ?Hnt, ?Hml; try done.
    + destruct E as [E|E]; [left|right].
      * by apply (same_instants_empty _ _ (Hin ClassBlob)).
      * by apply (same_instants_empty _ _ (Hin ClassLegacy)).
    + intros cls id e He. specialize (Hin cls id). rewrite He in Hin. simpl in Hin.
      destruct (inflight (coord s) cls !! id) as [e0|] eqn:E0; [|done]. injection Hin as ->. by eapply I.
    + intros j tok' since' Hj. destruct (T _ _ _ Hj) as (? & ? & ? & HL). rewrite live_iff by exact Hin. done.
    + intros j cls ch Hj. destruct (W _ _ _ Hj) as [? Hne]. split; [done|]. intros Hch He.
      apply Hne; [done|]. by apply (same_instants_empty _ _ (Hin (other cls))).
  - unfold Done in He. destruct (inv_token _ HI _ _ _ Hi) as (Hs & _). rewrite Hs in He. injection He as <- <-.
    destruct (release_spec (token_class tok) (entryID tok) (coord s)) as (Hid & Hml & Hin & Hle & Hne).
    apply Inv_shrink; try done.
    + intros cls id e. rewrite Hin. case_decide as Hc; [subst cls|done].
      intros [_ ?]%lookup_delete_Some. done.
    + intros Heq cls. specialize (Hne Heq). rewrite Hin in *. rewrite decide_True in Hne by done.
      case_decide as Hc; [subst cls; done|done].
    + intros j th [[_ <-]|[_ ?]]%lookup_insert_Some; [by right|by left].
    + intros j tok2 since2 [[_ ?]|[Hij Hj]]%lookup_insert_Some (e & He & Hs2); [done|]. left. exists e.
      split; [|done]. rewrite Hin. case_decide as Hc; [|done].
      rewrite <- Hc, lookup_delete_ne; [done|]. intros Heq. apply Hij. by eapply (inv_distinct _ HI).
  - destruct (reapStale_spec (clock s) (coord s)) as (Hid & Hml & Hin & Hle & Hem).
    apply Inv_shrink; try done.
    + intros cls id e. rewrite Hin. by intros [? _]%map_lookup_filter_Some.
    + by left.
    + intros j tok since Hj (e & He & Hs). rewrite Hml.
      destruct (decide (enteredAt e < clock s - maxTokenLifetime (coord s))); [right; lia|left].
      exists e. split; [|done]. rewrite Hin. apply map_lookup_filter_Some. done.
  - destruct HI as [E N I T D W]. split; simpl; try done.
    + intros cls id e He. apply I in He. lia.
    + intros j tok since Hj. destruct (T _ _ _ Hj) as (? & ? & ? & [?|?]); (split; [done|]); (split; [done|]);
        (split; [lia|]); [by left|right; lia].
Qed.

Lemma reachable_coordinated s : reachable initial step s -> Inv s.
Proof. apply always_holds; [apply initial_coordinated|]. intros ? ? _. apply Inv_step. Qed.

(** ** The guarantees *)

(** C17. Blob and other transactions are never pending together: at any time
    one of the two in-flight sets is empty, and of two goroutines that hold
    tokens of different classes at least one has held its token for longer
    than the lifetime after which the janitor takes it away. *)
Theorem subpools_exclusive s i j tok1 tok2 since1 since2 :
  reachable initial step s ->
  (Inflight (coord s) ClassBlob = 0%nat \/ Inflight (coord s) ClassLegacy = 0%nat) /\
  (threads s !! i = Some (Holding tok1 since1) -> threads s !! j = Some (Holding tok2 since2) ->
   token_class tok1 <> token_class tok2 ->
   since1 < clock s - maxTokenLifetime (coord s) \/ since2 < clock s - maxTokenLifetime (coord s)).
Proof.
  intros HI%reachable_coordinated. split.
  - destruct (inv_exclusive _ HI) as [E|E]; [left|right]; by apply map_size_empty_iff.
  - intros Hi Hj Hc.
    destruct (inv_token _ HI _ _ _ Hi) as (_ & _ & _ & [(e1 & H1 & _)|?]); [|by left].
    destruct (inv_token _ HI _ _ _ Hj) as (_ & _ & _ & [(e2 & H2 & _)|?]); [|by right].
    pose proof (proj1 (exclusive_iff (coord s)) (inv_exclusive _ HI) (token_class tok1)) as Hex.
    replace (token_class tok2) with (other (token_class tok1)) in H2
      by (destruct (token_class tok1), (token_class tok2); done).
    rewrite Hex, lookup_empty in H2; [done|]. intros He. by rewrite He, lookup_empty in H1.
Qed.

(** C18. No wake-up is lost: a goroutine whose channel is not closed really has
    a broadcast of the other class to wait for, and as soon as there is none
    it gets its token in two steps of its own, whatever happened between its
    snapshot of the channel and its select. *)
Theorem no_lost_wakeup s i cls ch :
  reachable initial step s -> threads s !! i = Some (Waiting cls ch) ->
  nextID (coord s) < u64_max ->
  (ch = notify (coord s) -> Inflight (coord s) (other cls) <> 0%nat) /\
  (Inflight (coord s) (other cls) = 0%nat ->
   exists s1 s2 tok since, step s s1 /\ step s1 s2 /\ threads s2 !! i = Some (Holding tok since) /\
     token_class tok = cls).
Proof.
  intros HI%reachable_coordinated Hi Hn. destruct (inv_waiting _ HI _ _ _ Hi) as [Hle Hne]. split.
  - intros Hch ?%map_size_empty_iff. by apply Hne.
  - intros He. assert (ch < notify (coord s))%nat as Hlt.
    { destruct (decide (ch = notify (coord s))) as [Heq|]; [|lia].
      apply map_size_empty_iff in He. by destruct (Hne Heq). }
    eexists _, _, (MkToken _ cls false), (clock s). split; [by eapply step_wake|].
    split; [eapply (step_enter _ i cls); simpl; [by rewrite lookup_insert_eq|done|]|].
    + unfold enter_once. by rewrite bool_decide_eq_true_2.
    + simpl. by rewrite lookup_insert_eq.
Qed.

(** Leaked tokens cannot wedge the coordinator: a janitor pass one
    lifetime later empties both classes, counts every orphan, and wakes every
    goroutine that was waiting. *)
Theorem janitor_unwedges s now :
  reachable initial step s -> clock s + maxTokenLifetime (coord s) < now ->
  let c' := reapStale now (coord s) in
  Inflight c' ClassBlob = 0%nat /\ Inflight c' ClassLegacy = 0%nat /\
  OrphanCount c' = OrphanCount (coord s) +
    Z.of_nat (Inflight (coord s) ClassBlob + Inflight (coord s) ClassLegacy) /\
  forall i cls ch, threads s !! i = Some (Waiting cls ch) -> (ch < notify c')%nat.
Proof.
  intros HI%reachable_coordinated Hnow c'.
  assert (forall cls, kept (now - maxTokenLifetime (coord s)) (coord s) cls = ∅) as Hk.
  { intros cls. apply map_empty. intros id. apply map_lookup_filter_None. right. intros e He Hs.
    apply Hs. unfold stale; simpl. apply (inv_ids _ HI) in He. lia. }
  assert (forall cls, evicted (now - maxTokenLifetime (coord s)) (coord s) cls = inflight (coord s) cls) as Hev.
  { intros cls. apply map_filter_id. intros id e He. unfold stale; simpl.
    apply (inv_ids _ HI) in He. lia. }
  destruct (reapStale_spec now (coord s)) as (_ & _ & Hin & Hle & Hem). fold c' in Hin, Hle, Hem.
  unfold Inflight. rewrite !Hin, !Hk. split; [done|]. split; [done|]. split.
  - unfold c', reapStale, OrphanCount; simpl. rewrite !Hev. by destruct (_ || _).
  - intros i cls ch Hw. destruct (inv_waiting _ HI _ _ _ Hw) as [Hlw Hne].
    destruct (decide (ch = notify (coord s))) as [->|]; [|lia].
    destruct (decide (notify c' = notify (coord s))) as [Heq|]; [|lia].
    destruct Hne; [done|]. apply Hem; [done|]. by rewrite Hin.
Qed.

(** ** A concrete run: a blob broadcast holds the slot, a legacy one waits. *)
Definition demo0 : config := Config (NewSubpoolCoordinator 0) ∅ 0.
Definition demo_tok : BroadcastToken := MkToken 1 ClassBlob false.
Definition demo_coord : t := add_entry ClassBlob 0 (NewSubpoolCoordinator 0).
Definition demo4 : config :=
  Config demo_coord (<[1%nat := Waiting ClassLegacy 0]> (<[1%nat := Trying ClassLegacy]>
    (<[0%nat := Holding demo_tok 0]> (<[0%nat := Trying ClassBlob]> ∅)))) 0.
Definition demo5 : config :=
  Config (snd (Done demo_tok demo_coord)) (<[0%nat := Left]> (threads demo4)) 0.

Lemma demo4_reachable : reachable initial step demo4.
Proof.
  eapply reach_step; [eapply reach_step; [eapply reach_step; [eapply reach_step; [apply (reach_init _ _ demo0)|]|]|]|].
  - split; [done|]. exists 0, 0, 0. unfold u64_max. repeat split; lia.
  - by apply (step_call demo0 0 ClassBlob).
  - apply (step_enter (Config _ _ _) 0 ClassBlob demo_tok demo_coord);
      [reflexivity|unfold u64_max; simpl; lia|reflexivity].
  - by apply (step_call (Config _ _ _) 1 ClassLegacy).
  - by apply (step_wait (Config _ _ _) 1 ClassLegacy 0 demo_coord).
Qed.

Lemma demo5_reachable : reachable initial step demo5.
Proof.
  eapply reach_step; [exact demo4_reachable|].
  by apply (step_done demo4 0 demo_tok 0 (MkToken 1 ClassBlob true)).
Qed.

Lemma subpools_exclusive_witness :
  Inflight demo_coord ClassBlob = 0%nat \/ Inflight demo_coord ClassLegacy = 0%nat.
Proof. exact (proj1 (subpools_exclusive demo4 0 1 demo_tok demo_tok 0 0 demo4_reachable)). Defined.

Lemma no_lost_wakeup_witness :
  exists s1 s2 tok since, step demo5 s1 /\ step s1 s2 /\
    threads s2 !! 1%nat = Some (Holding tok since) /\ token_class tok = ClassLegacy.
Proof.
  apply (no_lost_wakeup demo5 1 ClassLegacy 0 demo5_reachable);
    [reflexivity|vm_compute; reflexivity|reflexivity].
Defined.

Lemma janitor_unwedges_witness :
  Inflight (reapStale (4 * Minute) demo_coord) ClassBlob = 0%nat /\
  OrphanCount (reapStale (4 * Minute) demo_coord) = 1.
Proof.
  destruct (janitor_unwedges demo4 (4 * Minute) demo4_reachable) as (Hb & _ & Ho & _);
    [vm_compute; reflexivity|].
  split; [exact Hb|exact Ho].
Defined.
End Coordinator.
