(* ===== verification/SendErrors.v ===== *)
(** What a failed broadcast means: [internal/chain/send_errors.go], and the
    decoder of paused reverts of [internal/chain/pause.go]. *)
From S2P Require Import Prelude.

Definition rpcCodeInvalidParams : Z := -32602.
Definition rpcCodeNonceTooLow : Z := -38010.
Definition rpcCodeNonceTooHigh : Z := -38011.
Definition rpcCodeIntrinsicGas : Z := -38013.
Definition rpcCodeInsufficientFunds : Z := -38014.
Definition rpcCodeBlockGasLimitReached : Z := -38015.
Definition rpcCodeSenderNotEOA : Z := -38024.
Definition rpcCodeMaxInitCodeSize : Z := -38025.

Definition alreadyReservedSubstr : string := "address already reserved".
Definition nonceTooHighSubstr : string := "nonce too high".
Definition nonceTooLowSubstr : string := "nonce too low".

(** The callers only pass errors that are not nil. *)
Definition IsAlreadyReservedError (err : error) : bool :=
  str_contains (err_msg err) alreadyReservedSubstr.

Definition IsNonceDesyncError (err : error) : bool :=
  let msg := err_msg err in
  str_contains msg alreadyReservedSubstr || str_contains msg nonceTooHighSubstr ||
  str_contains msg nonceTooLowSubstr.

Definition rejection_codes : list Z :=
  [rpcCodeInvalidParams; rpcCodeNonceTooLow; rpcCodeNonceTooHigh; rpcCodeIntrinsicGas;
   rpcCodeInsufficientFunds; rpcCodeBlockGasLimitReached; rpcCodeSenderNotEOA; rpcCodeMaxInitCodeSize].

Definition ShouldResetNonceOnSendError (err : error) : bool :=
  if IsNonceDesyncError err then true
  else match err_code err with
       | None => false
       | Some code => bool_decide (code ∈ rejection_codes)
       end.

(** [decodePauseRevert]. The answer of the replay is a success or an error
    with the revert data [ethclient.RevertErrorData] finds in it. *)
Inductive replay : Type := ReplayOk | ReplayErr (revertData : option (list Z)).

(** The first four bytes of keccak256("EnforcedPause()"), as the comment of
    pause.go gives them. *)
Definition enforcedPauseSelector : list Z := [0xd9; 0x3c; 0x06; 0x65].

Definition pause_selector_in (r : replay) : bool :=
  match r with
  | ReplayOk => false
  | ReplayErr None => false
  | ReplayErr (Some data) =>
      if (length data <? 4)%nat then false
      else bool_decide (take 4 data = enforcedPauseSelector)
  end.

(** Wrapping keeps a broadcast error's classification. *)
Lemma contains_append p s sub :
  str_contains s sub = true -> str_contains (p +:+ s) sub = true.
Proof.
  unfold str_contains. intros Hs.
  assert (exists n, String.index 0 sub (p +:+ s) = Some n) as [n ->]; [|done].
  destruct (String.index 0 sub s) as [n|] eqn:E; [clear Hs|done].
  induction p as [|c p [m IH]]; [by exists n|].
  change (String c p +:+ s) with (String c (p +:+ s)).
  cbn [String.index]. rewrite IH. by destruct (String.prefix _ _); eexists.
Qed.

Lemma IsNonceDesyncError_wrap p e : IsNonceDesyncError e = true -> IsNonceDesyncError (wrap p e) = true.
Proof.
  unfold IsNonceDesyncError, wrap. simpl. rewrite !orb_true_iff.
  intros [[H|H]|H]; [left; left|left; right|right]; by do 2 apply contains_append.
Qed.
