(* ===== verification/StuckNonce.v ===== *)
(** The stuck-nonce tracker of [internal/chain/stuck_nonce.go]: how often each
    nonce was rejected as reserved, and the replacement budget of the nonce
    last bumped. *)
From S2P Require Import Prelude.

Module StuckNonce.

Record nonceState : Type := MkNonceState { hits : Z; lastSeen : Z }.

Record t : Type := MkTracker {
  entries : gmap Z nonceState;
  bumpAttempts : Z;
  lastBumpNonce : Z;
  hasLastBumpNonce : bool;
  entryTTL : Z;
}.

Definition defaultEntryTTL : Z := 10 * Minute.

Definition NewStuckNonceTracker : t := MkTracker ∅ 0 0 false defaultEntryTTL.

Definition set_entries (m : gmap Z nonceState) (s : t) : t :=
  MkTracker m (bumpAttempts s) (lastBumpNonce s) (hasLastBumpNonce s) (entryTTL s).

(** [reapStaleLocked]. *)
Definition fresh_enough (cutoff : Z) (p : Z * nonceState) : Prop := cutoff <= lastSeen (snd p).

#[global] Instance fresh_enough_dec cutoff p : Decision (fresh_enough cutoff p).
Proof. unfold fresh_enough. apply _. Defined.

Definition reapStaleLocked (now : Z) (s : t) : t :=
  set_entries (filter (fun p => fresh_enough (now - entryTTL s) p) (entries s)) s.

Definition hits_in (m : gmap Z nonceState) (n : Z) : Z :=
  match m !! n with Some e => hits e | None => 0 end.

(** [Record]; the clock is read once here, twice in the code. *)
Definition Record_ (n now : Z) : st t Z := fun s =>
  let s1 := reapStaleLocked now s in
  let h := hits_in (entries s1) n + 1 in
  (h, set_entries (<[n := MkNonceState h now]> (entries s1)) s1).

Definition HitsAt (s : t) (n : Z) : Z := hits_in (entries s) n.

(** [MaxConsecutiveHits]. *)
Definition MaxConsecutiveHits (s : t) : Z :=
  map_fold (fun _ e m => Z.max (hits e) m) 0 (entries s).

(** [LastNonce]: the loop visits the map in some order. *)
Definition LastNonce (s : t) : option Z :=
  fst <$> foldl (fun acc '(n, e) =>
    match acc with
    | Some (_, latest) => if latest <? lastSeen e then Some (n, lastSeen e) else acc
    | None => Some (n, lastSeen e)
    end) None (map_to_list (entries s)).

(** [BumpAttemptsUsedFor] and [IncrementBumpAttemptsFor]. *)
Definition BumpAttemptsUsedFor (s : t) (n : Z) : Z :=
  if negb (hasLastBumpNonce s) || negb (lastBumpNonce s =? n) then 0 else bumpAttempts s.

Definition IncrementBumpAttemptsFor (n : Z) (s : t) : t :=
  if negb (hasLastBumpNonce s) || negb (lastBumpNonce s =? n)
  then MkTracker (entries s) 1 n true (entryTTL s)
  else MkTracker (entries s) (bumpAttempts s + 1) (lastBumpNonce s) (hasLastBumpNonce s) (entryTTL s).

Definition Clear (s : t) : t := MkTracker ∅ 0 0 false (entryTTL s).

Definition Size (s : t) : Z := Z.of_nat (size (entries s)).

(** ** Interleaved rejections

    The tracker after a sequence of rejections, each a nonce and an instant. *)
Definition records (rs : list (Z * Z)) (s : t) : t :=
  fold_left (fun s '(n, now) => snd (Record_ n now s)) rs s.

Fixpoint count_at (n : Z) (rs : list (Z * Z)) : Z :=
  match rs with
  | [] => 0
  | (m, _) :: rs' => (if m =? n then 1 else 0) + count_at n rs'
  end.

Lemma entryTTL_Record n now s : entryTTL (snd (Record_ n now s)) = entryTTL s.
Proof. done. Qed.

(** Rejections at different nonces never reset one another: after any
    interleaving of rejections within one TTL, of any number of nonces, each
    nonce's count is its own number of rejections, and what [Record] returns
    to a caller is its nonce's count. *)
Theorem interleaved_hits_accumulate rs s t0 t1 n now :
  entries s = ∅ -> Forall (fun r => t0 <= snd r <= t1) rs -> t1 <= now -> now - t0 <= entryTTL s ->
  HitsAt (records rs s) n = count_at n rs /\
  fst (Record_ n now (records rs s)) = count_at n rs + 1.
Proof.
  intros He HF Hle Httl.
  (* every entry is as recent as [t0], so nothing is ever reaped *)
  assert (forall rs s, (forall m e, entries s !! m = Some e -> t0 <= lastSeen e) ->
    Forall (fun r => t0 <= snd r <= t1) rs -> now - t0 <= entryTTL s ->
    (forall m e, entries (records rs s) !! m = Some e -> t0 <= lastSeen e) /\
    entryTTL (records rs s) = entryTTL s /\
    HitsAt (records rs s) n = HitsAt s n + count_at n rs) as Hrec.
  { clear rs s He HF Httl. induction rs as [|[m tm] rs IH]; intros s Hs HF Httl.
    { split; [done|]. split; [done|]. simpl. lia. }
    change (records ((m, tm) :: rs) s) with (records rs (snd (Record_ m tm s))). cbn [count_at].
    apply Forall_cons in HF as [Htm HF]; simpl in Htm.
    assert (entries (reapStaleLocked tm s) = entries s) as Hreap.
    { simpl. apply map_filter_id. intros k e He. apply Hs in He. unfold fresh_enough; simpl. lia. }
    destruct (IH (snd (Record_ m tm s))) as (H1 & H2 & H3).
    - intros k e. unfold Record_; cbn [snd fst entries set_entries]. rewrite Hreap. intros [[<- <-]|[_ He]]%lookup_insert_Some; simpl; [lia|by eapply Hs].
    - done.
    - done.
    - split; [done|]. split; [done|]. rewrite H3. unfold HitsAt, Record_; cbn [snd fst entries set_entries].
      rewrite Hreap. unfold hits_in. destruct (Z.eqb_spec m n) as [->|Hne].
      + rewrite lookup_insert_eq. simpl. lia.
      + rewrite lookup_insert_ne by done. lia. }
  destruct (Hrec rs s) as (H1 & H2 & H3); [intros m e; by rewrite He, lookup_empty|done|done|].
  assert (HitsAt s n = 0) as H0 by (unfold HitsAt, hits_in; by rewrite He, lookup_empty).
  split; [lia|]. unfold Record_; cbn [fst snd].
  replace (entries (reapStaleLocked now (records rs s))) with (entries (records rs s)).
  - unfold HitsAt in H3, H0. lia.
  - symmetry. apply map_filter_id. intros k e Hk. apply H1 in Hk. unfold fresh_enough; simpl. lia.
Qed.

Lemma interleaved_hits_accumulate_witness :
  HitsAt (records [(126, 0); (127, 5); (126, 9); (127, 11); (126, 12)] NewStuckNonceTracker) 126 = 3.
Proof.
  apply (interleaved_hits_accumulate [(126, 0); (127, 5); (126, 9); (127, 11); (126, 12)]
    NewStuckNonceTracker 0 12 126 20); [reflexivity| |lia|vm_compute; discriminate].
  repeat constructor; simpl; lia.
Defined.

(** ** The replacement budget *)

Definition bumps (ns : list Z) (s : t) : t := fold_left (fun s n => IncrementBumpAttemptsFor n s) ns s.

(** How many of the last bumps in a row were for [n]; the list is in order. *)
Fixpoint run_of (n : Z) (acc : Z) (ns : list Z) : Z :=
  match ns with
  | [] => acc
  | m :: ns' => run_of n (if m =? n then acc + 1 else 0) ns'
  end.

(** Each stuck nonce has a budget of its own: after any sequence of
    replacements the attempts charged to a nonce are those made since another
    nonce was last bumped, and [Clear] returns every budget. *)
Theorem bump_budget_is_per_nonce ns s n :
  BumpAttemptsUsedFor (bumps ns s) n = run_of n (BumpAttemptsUsedFor s n) ns /\
  BumpAttemptsUsedFor (Clear (bumps ns s)) n = 0 /\ Size (Clear (bumps ns s)) = 0.
Proof.
  split; [|done]. revert s. induction ns as [|m ns IH]; intros s; [done|]. simpl.
  rewrite IH. f_equal. unfold BumpAttemptsUsedFor, IncrementBumpAttemptsFor.
  destruct (hasLastBumpNonce s) eqn:Eh; simpl; [|destruct (Z.eqb_spec m n); simpl; lia].
  destruct (Z.eqb_spec (lastBumpNonce s) m) as [<-|]; simpl; rewrite ?Eh; simpl.
  - by destruct (lastBumpNonce s =? n).
  - destruct (Z.eqb_spec m n) as [->|]; simpl; [|done].
    by rewrite (proj2 (Z.eqb_neq (lastBumpNonce s) n)).
Qed.
End StuckNonce.
