(* ===== verification/Effects.v ===== *)
(** Programs that call out: a program is a tree of calls to services the
    worker does not implement (the node, another process, another component of
    it), and what it does is judged over every answer they may give. *)
From S2P Require Import Prelude.

(** [E X] is a call that answers with an [X]. *)
Inductive prog (E : Type -> Type) (A : Type) : Type :=
  | Ret (a : A)
  | Vis {X : Type} (e : E X) (k : X -> prog E A).
Arguments Ret {E A} a.
Arguments Vis {E A X} e k.

Definition call {E X} (e : E X) : prog E X := Vis e Ret.

Fixpoint bind {E A B} (p : prog E A) (f : A -> prog E B) : prog E B :=
  match p with
  | Ret a => f a
  | Vis e k => Vis e (fun x => bind (k x) f)
  end.

(** [err != nil] is passed on, with or without a prefix. *)
Definition try {E A B} (p : prog E (result A)) (f : A -> prog E (result B)) : prog E (result B) :=
  bind p (fun r => match r with Ok a => f a | Err e => Ret (Err e) end).
Definition wrap_err {E A} (s : string) (p : prog E (result A)) : prog E (result A) :=
  bind p (fun r => match r with Ok a => Ret (Ok a) | Err e => Ret (Err (wrap s e)) end).
Arguments wrap_err {E A} s%_string p.

(** [defer]: [cleanup] runs after [p] and sees what it returned. *)
Definition deferred {E A} (p : prog E A) (cleanup : A -> prog E unit) : prog E A :=
  bind p (fun a => bind (cleanup a) (fun _ => Ret a)).

Declare Scope prog_scope.
Delimit Scope prog_scope with prog.
Notation "x <- p ;; k" := (bind p (fun x => k))
  (at level 100, p at next level, right associativity) : prog_scope.
Notation "x <-? p ;; k" := (try p (fun x => k))
  (at level 100, p at next level, right associativity) : prog_scope.

(** ** Runs

    A call together with its answer; a run is a list of them, in order. *)
Inductive called (E : Type -> Type) : Type :=
  | Called {X : Type} (e : E X) (x : X).
Arguments Called {E X} e x.

Inductive runs {E A} : prog E A -> list (called E) -> A -> Prop :=
  | runs_ret a : runs (Ret a) [] a
  | runs_vis X (e : E X) k x tr a : runs (k x) tr a -> runs (Vis e k) (Called e x :: tr) a.

(** A program part of the way: the calls it has made, and what is left of it. *)
Inductive reaches {E A} : prog E A -> list (called E) -> prog E A -> Prop :=
  | reaches_start p : reaches p [] p
  | reaches_vis X (e : E X) k x tr q : reaches (k x) tr q -> reaches (Vis e k) (Called e x :: tr) q.

Lemma reaches_snoc {E A X} (p : prog E A) tr (e : E X) k x : reaches p tr (Vis e k) -> reaches p (tr ++ [Called e x]) (k x).
Proof. remember (Vis e k) as q eqn:Eq. induction 1 as [q|Y e' k' y tr q Hr IH]; [subst q|]; repeat constructor. by apply IH. Qed.
Lemma reaches_runs {E A} (p : prog E A) tr a : reaches p tr (Ret a) -> runs p tr a.
Proof. remember (Ret a) as q eqn:Eq. induction 1 as [q|Y e k y tr q Hr IH]; [subst q|]; constructor. by apply IH. Qed.
Lemma runs_reaches {E A} (p : prog E A) tr a : runs p tr a -> reaches p tr (Ret a).
Proof. induction 1; by constructor. Qed.

(** What holds of every run, by recursion on the program. *)
Fixpoint always {E A} (p : prog E A) (Q : list (called E) -> A -> Prop) : Prop :=
  match p with
  | Ret a => Q [] a
  | Vis e k => forall x, always (k x) (fun tr a => Q (Called e x :: tr) a)
  end.

Lemma always_runs {E A} (p : prog E A) (Q : list (called E) -> A -> Prop) tr a :
  always p Q -> runs p tr a -> Q tr a.
Proof. intros Hp Hr. revert Q Hp. induction Hr as [a|X e k x tr a Hr IH]; simpl; [done|]. intros Q Hp. by apply (IH _ (Hp x)). Qed.

Lemma always_mono {E A} (p : prog E A) (Q Q' : list (called E) -> A -> Prop) :
  always p Q -> (forall tr a, Q tr a -> Q' tr a) -> always p Q'.
Proof.
  revert Q Q'. induction p as [a|X e k IH]; simpl; intros Q Q' Hp HQ; [by apply HQ|].
  intros x. eapply IH; [apply Hp|]. intros tr a. apply HQ.
Qed.

Lemma always_bind {E A B} (p : prog E A) (f : A -> prog E B) (Q : list (called E) -> B -> Prop) :
  always p (fun tr a => always (f a) (fun tr' b => Q (tr ++ tr') b)) -> always (bind p f) Q.
Proof.
  revert Q. induction p as [a|X e k IH]; simpl; intros Q Hp; [done|].
  intros x. apply IH. apply Hp.
Qed.

Lemma always_intro {E A} (p : prog E A) (Q : list (called E) -> A -> Prop) :
  (forall tr a, runs p tr a -> Q tr a) -> always p Q.
Proof.
  revert Q. induction p as [a|X e k IH]; simpl; intros Q Hq.
  - apply Hq. constructor.
  - intros x. apply IH. intros tr a Hr. apply Hq. by constructor.
Qed.

(** What holds of every run from its start on, however far it has come. *)
Fixpoint throughout {E A} (p : prog E A) (Q : list (called E) -> Prop) : Prop :=
  Q [] /\ match p with
          | Ret _ => True
          | Vis e k => forall x, throughout (k x) (fun tr => Q (Called e x :: tr))
          end.

Lemma throughout_reaches {E A} (p : prog E A) (Q : list (called E) -> Prop) tr q :
  throughout p Q -> reaches p tr q -> Q tr.
Proof.
  intros Hp Hr. revert Q Hp. induction Hr as [p|X e k x tr q Hr IH]; intros Q Hp; [by destruct p; apply Hp|].
  destruct Hp as [_ Hk]. exact (IH _ (Hk x)).
Qed.

Lemma throughout_mono {E A} (p : prog E A) (Q Q' : list (called E) -> Prop) :
  throughout p Q -> (forall tr, Q tr -> Q' tr) -> throughout p Q'.
Proof.
  revert Q Q'. induction p as [a|X e k IH]; simpl; intros Q Q' [H0 Hk] HQ; (split; [by apply HQ|]); [done|].
  intros x. eapply IH; [apply Hk|]. intros tr. apply HQ.
Qed.

Lemma throughout_bind {E A B} (p : prog E A) (f : A -> prog E B) (Q : list (called E) -> Prop) :
  throughout p Q -> always p (fun tr a => throughout (f a) (fun tr' => Q (tr ++ tr'))) -> throughout (bind p f) Q.
Proof.
  revert Q. induction p as [a|X e k IH]; simpl; intros Q [H0 Hk] Hf; [done|].
  split; [done|]. intros x. apply IH; [apply Hk|apply Hf].
Qed.

(** ** Parts

    A program of a part, among the calls of the whole; its runs are those of the
    part. *)
Fixpoint lift {E F : Type -> Type} {A} (h : forall X, E X -> F X) (p : prog E A) : prog F A :=
  match p with
  | Ret a => Ret a
  | Vis e k => Vis (h _ e) (fun x => lift h (k x))
  end.
Definition lift_called {E F : Type -> Type} (h : forall X, E X -> F X) (c : called E) : called F :=
  match c with Called e x => Called (h _ e) x end.
Lemma always_lift {E F : Type -> Type} {A} (h : forall X, E X -> F X) (p : prog E A) Q :
  always p Q -> always (lift h p) (fun tr a => exists tr', tr = lift_called h <$> tr' /\ Q tr' a).
Proof.
  revert Q. induction p as [a|X e k IH]; intros Q Hp; cbn; [by exists []|]. intros x. eapply always_mono; [apply IH, Hp|].
  intros tr a (tr' & -> & Hq). by exists (Called e x :: tr').
Qed.

(** Taking a run apart. *)
Lemma runs_ret_inv {E A} (a : A) tr b : runs (@Ret E A a) tr b -> tr = [] /\ b = a.
Proof. exact (always_runs (Ret a) (fun tr b => tr = [] /\ b = a) tr b (conj eq_refl eq_refl)). Qed.
Lemma runs_bind {E A B} (p : prog E A) (f : A -> prog E B) tr b :
  runs (bind p f) tr b -> exists tr1 a tr2, tr = tr1 ++ tr2 /\ runs p tr1 a /\ runs (f a) tr2 b.
Proof.
  apply (always_runs _ (fun tr b => exists tr1 a tr2, tr = tr1 ++ tr2 /\ runs p tr1 a /\ runs (f a) tr2 b)).
  apply always_bind, always_intro. intros tr1 a Hp. apply always_intro. intros tr2 b' Hf. by exists tr1, a, tr2.
Qed.
Lemma runs_lift {E F : Type -> Type} {A} (h : forall X, E X -> F X) (p : prog E A) tr a :
  runs (lift h p) tr a -> exists tr', tr = lift_called h <$> tr' /\ runs p tr' a.
Proof.
  apply (always_runs _ (fun tr a => exists tr', tr = lift_called h <$> tr' /\ runs p tr' a)). apply always_lift, always_intro. done.
Qed.

Lemma runs_call {E : Type -> Type} {X} (e : E X) tr x : runs (call e) tr x -> tr = [Called e x].
Proof. by apply (always_runs (call e) (fun tr x => tr = [Called e x])). Qed.
Lemma runs_wrap {E : Type -> Type} {X} s (p : prog E (result X)) tr x : runs (wrap_err s p) tr (Ok x) -> runs p tr (Ok x).
Proof.
  intros (tr1 & [y|e] & tr2 & -> & Hp & [-> H]%runs_ret_inv)%runs_bind; [|done]. injection H as ->. by rewrite app_nil_r.
Qed.
Lemma runs_try {E : Type -> Type} {X Y} (p : prog E (result X)) (f : X -> prog E (result Y)) tr y :
  runs (try p f) tr (Ok y) -> exists tr1 x tr2, tr = tr1 ++ tr2 /\ runs p tr1 (Ok x) /\ runs (f x) tr2 (Ok y).
Proof.
  intros (tr1 & [x|e] & tr2 & -> & Hp & Hf)%runs_bind; [by exists tr1, x, tr2|]. by apply runs_ret_inv in Hf as [_ [=]].
Qed.

(** A handler answers calls from a state; running a program against it is one
    of its runs. *)
Definition handler (E : Type -> Type) (W : Type) : Type := forall X, E X -> st W X.

Fixpoint interp {E W A} (h : handler E W) (p : prog E A) : W -> (list (called E) * A) * W :=
  match p with
  | Ret a => fun w => (([], a), w)
  | Vis e k => fun w =>
      let '(x, w') := h _ e w in
      let '((tr, a), w'') := interp h (k x) w' in
      ((Called e x :: tr, a), w'')
  end.

Lemma interp_runs {E W A} (h : handler E W) (p : prog E A) w tr a w' :
  interp h p w = ((tr, a), w') -> runs p tr a.
Proof.
  revert w tr a w'. induction p as [a0|X e k IH]; simpl; intros w tr a w'.
  - intros [= <- <- _]. constructor.
  - destruct (h X e w) as [x w1]. destruct (interp h (k x) w1) as [[tr1 a1] w2] eqn:Ei.
    intros [= <- <- _]. constructor. by eapply IH.
Qed.

Lemma interp_run {E W A} (h : handler E W) (p : prog E A) w :
  runs p (fst (fst (interp h p w))) (snd (fst (interp h p w))).
Proof. destruct (interp h p w) as [[tr a] w'] eqn:Ei. by eapply interp_runs. Qed.

(** Follow a program through all its answers: reduce to the next call or
    branch, take every answer apart, and split on the branch's condition. *)
Ltac split_head p :=
  lazymatch p with
  | bind ?q _ => split_head q
  | match ?s with _ => _ end => first [is_var s; destruct s | split_head s | destruct s eqn:?]
  end.

Ltac walk :=
  repeat (cbn [always bind call try wrap_err deferred fst snd];
          lazymatch goal with
          | |- forall _ : unit, _ => intros []
          | |- forall _, _ => intro
          | |- always ?p _ => split_head p
          end).

Ltac destruct_units := repeat match goal with u : unit |- _ => destruct u end.

(** Count the calls of a trace that satisfy a predicate. *)
Definition count_calls {E} (f : called E -> bool) (tr : list (called E)) : nat :=
  length (List.filter f tr).

Lemma count_calls_app {E} (f : called E -> bool) tr tr' :
  count_calls f (tr ++ tr') = (count_calls f tr + count_calls f tr')%nat.
Proof. unfold count_calls. by rewrite List.filter_app, length_app. Qed.

(** What the calls of a trace and their answers yield, in order. *)
Definition answered {E : Type -> Type} {X} (f : forall Y, E Y -> Y -> list X) (tr : list (called E)) : list X :=
  flat_map (fun c => match c with Called e x => f _ e x end) tr.

Lemma answered_app {E : Type -> Type} {X} (f : forall Y, E Y -> Y -> list X) tr tr' :
  answered f (tr ++ tr') = answered f tr ++ answered f tr'.
Proof. apply flat_map_app. Qed.
