(* ===== verification/GoText.v ===== *)
(** The text functions of Go's standard library the worker uses: decimal
    numbers ([strconv]) and the trimming and cutting of [strings] and [bytes],
    on ASCII text. *)
From Stdlib Require Import Ascii.
From S2P Require Import Prelude.

(** ** Decimal numbers: [FormatUint] and [ParseUint] (base 10, 64 bits), and
    [TrimSpace] *)

Definition digit (d : Z) : Ascii.ascii := Ascii.ascii_of_nat (48 + Z.to_nat d).

Definition digit_value (c : Ascii.ascii) : option Z :=
  let n := Ascii.nat_of_ascii c in
  if (48 <=? n)%nat && (n <=? 57)%nat then Some (Z.of_nat n - 48) else None.

Fixpoint format_digits (fuel : nat) (n : Z) (acc : list Ascii.ascii) : list Ascii.ascii :=
  match fuel with
  | O => acc
  | S fuel =>
      let acc := digit (n mod 10) :: acc in
      if n <? 10 then acc else format_digits fuel (n / 10) acc
  end.

(** Twenty digits hold every [uint64]. *)
Definition FormatUint (n : Z) : string := String.string_of_list_ascii (format_digits 20 n []).

Fixpoint parse_digits (v : Z) (cs : list Ascii.ascii) : option Z :=
  match cs with
  | [] => Some v
  | c :: cs =>
      match digit_value c with
      | None => None
      | Some d => if u64_max <? v * 10 + d then None else parse_digits (v * 10 + d) cs
      end
  end.

Definition is_space (c : Ascii.ascii) : bool :=
  let n := Ascii.nat_of_ascii c in (n =? 32)%nat || ((9 <=? n)%nat && (n <=? 13)%nat).

Fixpoint drop_spaces (cs : list Ascii.ascii) : list Ascii.ascii :=
  match cs with
  | [] => []
  | c :: cs' => if is_space c then drop_spaces cs' else cs
  end.

Definition trim_space (cs : list Ascii.ascii) : list Ascii.ascii :=
  reverse (drop_spaces (reverse (drop_spaces cs))).

Definition TrimSpace (s : string) : string := String.string_of_list_ascii (trim_space (String.list_ascii_of_string s)).

Definition ParseUint (s : string) : result Z :=
  match String.list_ascii_of_string s with
  | [] => Err (errorf "invalid syntax")
  | cs => match parse_digits 0 cs with
          | Some v => Ok v
          | None => Err (errorf "invalid syntax or value out of range")
          end
  end.

Lemma digit_value_digit d : 0 <= d < 10 -> digit_value (digit d) = Some d.
Proof.
  intros. assert (exists k, (k < 10)%nat /\ d = Z.of_nat k) as (k & Hk & ->) by (exists (Z.to_nat d); lia).
  do 10 (destruct k as [|k]; [done|]). lia.
Qed.

Lemma is_space_digit d : 0 <= d < 10 -> is_space (digit d) = false.
Proof.
  intros. assert (exists k, (k < 10)%nat /\ d = Z.of_nat k) as (k & Hk & ->) by (exists (Z.to_nat d); lia).
  do 10 (destruct k as [|k]; [done|]). lia.
Qed.

Lemma parse_format fuel n acc :
  0 <= n <= u64_max -> n < 10 ^ Z.of_nat fuel ->
  parse_digits 0 (format_digits fuel n acc) = parse_digits n acc.
Proof.
  revert n acc. induction fuel as [|fuel IH]; intros n acc Hn Hf.
  { assert (n = 0) as -> by (change (10 ^ Z.of_nat 0) with 1 in Hf; lia). done. }
  assert (forall v, v = n / 10 -> parse_digits v (digit (n mod 10) :: acc) = parse_digits n acc) as Hlast.
  { intros v ->. cbn [parse_digits]. rewrite digit_value_digit by (apply Z.mod_pos_bound; lia).
    rewrite Z.mul_comm, <- Z.div_mod by lia. destruct (Z.ltb_spec u64_max n); [lia|done]. }
  cbn [format_digits]. destruct (Z.ltb_spec n 10) as [Hs|Hs].
  - apply Hlast. by rewrite Z.div_small by lia.
  - rewrite IH; [by apply Hlast| |].
    + assert (n / 10 <= n) by (apply Z.div_le_upper_bound; lia). pose proof (Z.div_pos n 10). lia.
    + apply Z.div_lt_upper_bound; [lia|]. rewrite Nat2Z.inj_succ, Z.pow_succ_r in Hf by lia. lia.
Qed.

Lemma format_no_space fuel n acc :
  0 <= n -> Forall (fun c => is_space c = false) acc ->
  Forall (fun c => is_space c = false) (format_digits fuel n acc).
Proof.
  revert n acc. induction fuel as [|fuel IH]; intros n acc Hn Ha; [done|].
  cbn [format_digits]. assert (Forall (fun c => is_space c = false) (digit (n mod 10) :: acc)).
  { constructor; [apply is_space_digit, Z.mod_pos_bound; lia|done]. }
  destruct (n <? 10); [done|]. apply IH; [apply Z.div_pos; lia|done].
Qed.

Lemma drop_spaces_id cs : Forall (fun c => is_space c = false) cs -> drop_spaces cs = cs.
Proof. destruct 1 as [|c cs Hc _]; [done|]. cbn. by rewrite Hc. Qed.

Lemma trim_space_id cs : Forall (fun c => is_space c = false) cs -> trim_space cs = cs.
Proof.
  intros Hc. unfold trim_space. rewrite (drop_spaces_id cs Hc), drop_spaces_id, reverse_involutive; [done|].
  by apply Forall_reverse.
Qed.

Lemma format_cons fuel n acc : exists c cs, format_digits (S fuel) n acc = c :: cs.
Proof.
  revert n acc. induction fuel as [|fuel IH]; intros n acc; cbn [format_digits]; destruct (n <? 10); eauto.
Qed.

Lemma ParseUint_FormatUint n : is_u64 n -> ParseUint (FormatUint n) = Ok n.
Proof.
  intros Hn. unfold ParseUint, FormatUint. rewrite String.list_ascii_of_string_of_list_ascii.
  destruct (format_cons 19 n []) as (c & cs & E). rewrite E, <- E, parse_format; [done|done|].
  unfold is_u64, u64_max in Hn. change (Z.of_nat 20) with 20. lia.
Qed.

Lemma digit_value_range c d : digit_value c = Some d -> 0 <= d < 10.
Proof.
  unfold digit_value. destruct (_ && _)%bool eqn:E; [|done]. intros [= <-]. apply andb_true_iff in E as [H1 H2].
  apply Nat.leb_le in H1, H2. lia.
Qed.

Lemma ParseUint_range s n : ParseUint s = Ok n -> is_u64 n.
Proof.
  unfold ParseUint. destruct (String.list_ascii_of_string s) as [|c cs]; [done|].
  destruct (parse_digits 0 (c :: cs)) as [v|] eqn:E; [|done]. intros [= <-].
  assert (forall cs v v', is_u64 v -> parse_digits v cs = Some v' -> is_u64 v') as Hp; [|eapply Hp; [|exact E]; done].
  clear. induction cs as [|c cs IH]; intros v v' Hv; cbn; [by intros [= <-]|].
  destruct (digit_value c) as [d|] eqn:Ed; [|done]. destruct (Z.ltb_spec u64_max (v * 10 + d)); [done|].
  apply IH. apply digit_value_range in Ed. unfold is_u64 in *. lia.
Qed.

Lemma TrimSpace_FormatUint n : 0 <= n -> TrimSpace (FormatUint n) = FormatUint n.
Proof.
  intros Hn. unfold TrimSpace, FormatUint. rewrite String.list_ascii_of_string_of_list_ascii.
  by rewrite trim_space_id by (apply format_no_space; [done|constructor]).
Qed.

Lemma FormatUint_inj n m : is_u64 n -> is_u64 m -> FormatUint n = FormatUint m -> n = m.
Proof. intros Hn Hm E. apply ParseUint_FormatUint in Hn, Hm. rewrite E in Hn. congruence. Qed.

(** [strconv.ParseInt] (base 10, 64 bits). *)
Definition ParseInt (s : string) : result Z :=
  let '(neg, digits) := match s with
                        | String "-"%char s' => (true, s')
                        | String "+"%char s' => (false, s')
                        | _ => (false, s)
                        end in
  match ParseUint digits with
  | Err e => Err e
  | Ok un => let n := if neg : bool then - un else un in
             if (n <? i64_min) || (i64_max <? n) then Err (errorf "value out of range") else Ok n
  end.

(** ** Other functions of [strings] *)
Definition TrimPrefix (p s : string) : string :=
  if String.prefix p s then String.substring (String.length p) (String.length s - String.length p) s else s.

(** [strings.CutSuffix]: the text before the suffix, if it is there. *)
Definition CutSuffix (s suffix : string) : option string :=
  let n := (String.length s - String.length suffix)%nat in
  if (String.length suffix <=? String.length s)%nat &&
     bool_decide (String.substring n (String.length suffix) s = suffix)
  then Some (String.substring 0 n s) else None.

(** [strings.Replace(s, old, new, 1)] for a non-empty [old]. *)
Definition Replace1 (s old new : string) : string :=
  match String.index 0 old s with
  | None => s
  | Some i => String.substring 0 i s +:+ new +:+
              String.substring (i + String.length old) (String.length s - (i + String.length old)) s
  end.

(** [strings.TrimRight(s, "/")]. *)
Fixpoint trim_slashes (s : string) : string :=
  match s with
  | EmptyString => EmptyString
  | String c s' => match trim_slashes s' with
                   | EmptyString => if bool_decide (c = "/"%char) then EmptyString else String c EmptyString
                   | s'' => String c s''
                   end
  end.

(** [strings.Split(s, sep)] for a separator of one character. *)
Fixpoint Split (s : string) (sep : Ascii.ascii) : list string :=
  match s with
  | EmptyString => [EmptyString]
  | String c s' =>
      if bool_decide (c = sep) then EmptyString :: Split s' sep
      else match Split s' sep with
           | field :: fields => String c field :: fields
           | [] => [String c EmptyString]
           end
  end.

(** [strings.Cut(s, sep)] at the first separator, and [cutLast] of
    [internal/config/config.go] at the last one, for a separator of one
    character. *)
Fixpoint Cut (s : string) (sep : Ascii.ascii) : option (string * string) :=
  match s with
  | EmptyString => None
  | String c s' =>
      if bool_decide (c = sep) then Some (EmptyString, s')
      else match Cut s' sep with Some (before, after) => Some (String c before, after) | None => None end
  end.
Fixpoint cutLast (s : string) (sep : Ascii.ascii) : option (string * string) :=
  match s with
  | EmptyString => None
  | String c s' =>
      match cutLast s' sep with
      | Some (before, after) => Some (String c before, after)
      | None => if bool_decide (c = sep) then Some (EmptyString, s') else None
      end
  end.

Example ParseInt_cases :
  (ParseInt "-1", ParseInt "30", ParseInt "+7", is_ok (ParseInt "30m"), is_ok (ParseInt ""), is_ok (ParseInt "-"))
    = (Ok (-1), Ok 30, Ok 7, false, false, false) /\
  ParseInt "-9223372036854775808" = Ok i64_min /\ is_ok (ParseInt "9223372036854775808") = false.
Proof. vm_compute. by repeat split. Qed.

(** ** Durations

    [Time.Sub] saturates; [Duration.Round] rounds half away from zero and
    saturates. *)
Definition Sub (t u : Z) : Z := Z.max i64_min (Z.min i64_max (t - u)).

Definition Round (d m : Z) : Z :=
  if m <=? 0 then d
  else
    let r := Z.rem d m in
    if d <? 0 then
      let r := - r in
      if r + r <? m then d + r
      else let d1 := i64_wrap (d - m + r) in if d1 <? d then d1 else i64_min
    else if r + r <? m then d - r
    else let d1 := i64_wrap (d + m - r) in if d <? d1 then d1 else i64_max.

Example Round_cases :
  (Round 60499999999 Second, Round 60500000000 Second, Round (-1500000000) Second, Round (-1400000000) Second, Round i64_max Second)
    = (60 * Second, 61 * Second, -2 * Second, -1 * Second, i64_max).
Proof. reflexivity. Qed.

(** ** Strings *)
Lemma append_nil_r s : s +:+ EmptyString = s.
Proof. induction s as [|a s IH]; [done|]. exact (f_equal (String a) IH). Qed.
Lemma append_assoc (s1 s2 s3 : string) : (s1 +:+ s2) +:+ s3 = s1 +:+ s2 +:+ s3.
Proof.
  induction s1 as [|ch s1 IH]; [done|]. change (String ch ((s1 +:+ s2) +:+ s3) = String ch (s1 +:+ s2 +:+ s3)). by rewrite IH.
Qed.

Lemma list_ascii_app s t :
  String.list_ascii_of_string (s +:+ t) = String.list_ascii_of_string s ++ String.list_ascii_of_string t.
Proof. induction s as [|a s IH]; simpl; [done|]. by rewrite IH. Qed.
