(* ===== verification/TxClient.v ===== *)
(** Transactions of [internal/chain/client.go]: how one is broadcast, waited
    for and classified. The nonce manager, the subpool coordinator and the
    stuck-nonce tracker are called through [TxE]; other goroutines may use them
    between any two calls, so every answer is possible. *)
From S2P Require Import Prelude Effects Nonce Coordinator SendErrors.
Import Coordinator(TxClass(..)).

#[local] Open Scope prog_scope.

(** What the client reads of a transaction and of a receipt. *)
Record Transaction : Type := MkTx {
  tx_nonce : Z;
  tx_gasPrice : Z;
  tx_has_to : bool;
  tx_hash : Z;
}.

Record Receipt : Type := MkReceipt { Status : Z; BlockNumber : Z }.

Definition ReceiptStatusSuccessful : Z := 1.

(** The contract method a transaction calls, with its arguments: the [build]
    closures. Keys, names and hashes are opaque. *)
Inductive Method : Type :=
  | RegisterWorkerTx (encryptionPubKey : string)
  | AddSupportedModelTx (modelID : Z)
  | SetCapabilitiesTx (mask : Z)
  | DeregisterWorkerTx
  | ReinstateTx
  | TopUpStakeTx
  | ClaimSessionTx (reqID : Z)
  | AcknowledgeJobTx (jobID : Z)
  | CompleteJobTx (jobID responseBlobHash responseCiphertextHash : Z)
  | ReleaseJobTx (jobID : Z)
  | ReleaseJobsTx (jobIDs : list Z)
  | WithdrawTx.

(** The calls a broadcast and its wait make: the node ([jobTxBackend], the
    receipt backend, the replay), the generated bindings ([Build], [NewTransactor]),
    the context, and the shared components. A slot is the token's id; a nonce
    handed out is a lease. *)
Inductive TxE : Type -> Type :=
  | SuggestGasPrice : TxE (result Z)
  | Enter (cls : TxClass) : TxE (result Z)
  | Registered (slot hash : Z) : TxE unit
  | Done (slot : Z) : TxE unit
  | NewTransactor : TxE (result unit)
  | NextNonce : TxE (result Z)
  | ReleaseNonce (nonce : Z) (consumed : bool) : TxE unit
  | ResetNonce : TxE unit
  | Build (m : Method) (nonce gasPrice : Z) (value : option Z) : TxE (result Transaction)
  | CtxErr : TxE (option error)
  | SendTransaction (tx : Transaction) : TxE (result unit)
  | RecordStuck (nonce : Z) : TxE unit
  | ClearStuck : TxE unit
  | Deadline : TxE bool
  | WaitMined (bound : option Z) (tx : Transaction) : TxE (result (option Receipt))
  | CallContract (tx : Transaction) (block : Z) : TxE replay.

Module TxClient.

(** [adjustGasPrice]: [big.Int] division, which rounds down on positives. *)
Definition adjustGasPrice (gasPriceMulBps basePrice : Z) : Z := (basePrice * gasPriceMulBps) / 10000.

(** [checkReceipt]. *)
Definition checkReceipt (receipt : option Receipt) : option error :=
  match receipt with
  | None => Some (errorf "WaitMined returned nil receipt")
  | Some r => if negb (Status r =? ReceiptStatusSuccessful)
              then Some (errorf "transaction reverted (status 0)") else None
  end.

(** [decodePauseRevert]. *)
Definition decodePauseRevert (tx : Transaction) (block : Z) : prog TxE bool :=
  if negb (tx_has_to tx) then Ret false
  else r <- call (CallContract tx block) ;; Ret (pause_selector_in r).

(** [classifyReceiptRevert]. *)
Definition classifyReceiptRevert (tx : Transaction) (receipt : Receipt) (revertErr : error)
    : prog TxE error :=
  paused <- decodePauseRevert tx (BlockNumber receipt) ;;
  Ret (if paused : bool
       then wrap "transaction reverted (status 0)" (errors_New ErrContractPaused "contract paused")
       else revertErr).

Definition defaultMinedWait : Z := 90 * Second.

Section Client.
Context (gasPriceMulBps minedWait : Z).

(** The body of [awaitMined] before its [defer token.Done()]. A nil receipt
    without an error does not come out of [bind.WaitMined]; the code would
    dereference it, and the model returns [checkReceipt]'s error. *)
Definition await_body (tx : Transaction) : prog TxE (result unit) :=
  bounded <- call Deadline ;;
  let bound := if bounded : bool then None
               else Some (if minedWait =? 0 then defaultMinedWait else minedWait) in
  r <- call (WaitMined bound tx) ;;
  match r with
  | Err err =>
      _ <- call ResetNonce ;;
      Ret (Err (wrap "wait for tx" err))
  | Ok receipt =>
      match checkReceipt receipt, receipt with
      | Some err, Some rc => e <- classifyReceiptRevert tx rc err ;; Ret (Err e)
      | Some err, None => Ret (Err err)
      | None, _ =>
          _ <- call ClearStuck ;;
          Ret (Ok tt)
      end
  end.

(** [awaitMined]. *)
Definition awaitMined (tx : Transaction) (slot : Z) : prog TxE (result unit) :=
  deferred (await_body tx) (fun _ => call (Done slot)).

(** [PendingTx]. *)
Record PendingTx : Type := MkPending {
  p_tx : Transaction;
  p_slot : Z;
  p_waited : option (result unit);  (** [once] and [waitErr] *)
}.

(** [resendWithFreshNonce]. *)
Definition resendWithFreshNonce (m : Method) (gasPrice : Z) (value : option Z) (staleNonce : Z)
    : prog TxE (option (Transaction * Z)) :=
  _ <- call ResetNonce ;;
  rn <- call NextNonce ;;
  match rn with
  | Err _ => Ret None
  | Ok freshNonce =>
      rb <- call (Build m freshNonce gasPrice value) ;;
      match rb with
      | Err _ =>
          _ <- call (ReleaseNonce freshNonce false) ;;
          Ret None
      | Ok tx =>
          rs <- call (SendTransaction tx) ;;
          match rs with
          | Err _ =>
              _ <- call (ReleaseNonce freshNonce false) ;;
              Ret None
          | Ok _ =>
              _ <- call (ReleaseNonce staleNonce false) ;;
              Ret (Some (tx, freshNonce))
          end
      end
  end.

(** The part of [broadcastPreparedTx] that holds the lease [nonce], up to the
    return: the result, with the values of the captured variables [nonce] and
    [nonceConsumed] the deferred [ReleaseNonce] reads. *)
Definition send_with_lease (m : Method) (gasPrice : Z) (value : option Z) (slot nonce : Z)
    : prog TxE (result PendingTx * (Z * bool)) :=
  let fail e := Ret (Err e, (nonce, false)) in
  rb <- call (Build m nonce gasPrice value) ;;
  match rb with
  | Err e => fail (wrap "transaction" e)
  | Ok tx =>
      ce <- call CtxErr ;;
      match ce with
      | Some e => fail (wrap "broadcast tx" e)
      | None =>
          rs <- call (SendTransaction tx) ;;
          outcome <-
            match rs with
            | Err sendErr =>
                if IsNonceDesyncError sendErr
                then retry <- resendWithFreshNonce m gasPrice value nonce ;;
                     Ret (match retry with
                          | Some (tx', n') => (tx', n', Ok tt)
                          | None => (tx, nonce, rs)
                          end)
                else Ret (tx, nonce, rs)
            | Ok _ => Ret (tx, nonce, rs)
            end ;;
          let '(tx, nonce, sent) := outcome in
          match sent with
          | Err err =>
              _ <- (if ShouldResetNonceOnSendError err then call ResetNonce else Ret tt) ;;
              _ <- (if IsAlreadyReservedError err then call (RecordStuck (tx_nonce tx)) else Ret tt) ;;
              Ret (Err (wrap "send tx" err), (nonce, negb (ShouldResetNonceOnSendError err)))
          | Ok _ =>
              _ <- call (Registered slot (tx_hash tx)) ;;
              Ret (Ok (MkPending tx slot None), (nonce, true))
          end
      end
  end.

(** The part of [broadcastPreparedTx] that holds the slot. *)
Definition broadcast_in_slot (m : Method) (suggested : Z) (value : option Z) (slot : Z) : prog TxE (result PendingTx) :=
  _ <-? wrap_err "create transactor" (call NewTransactor) ;;
  nonce <-? wrap_err "nonce manager" (call NextNonce) ;;
  r <- deferred (send_with_lease m (adjustGasPrice gasPriceMulBps suggested) value slot nonce)
         (fun r => call (ReleaseNonce (fst (snd r)) (snd (snd r)))) ;;
  Ret (fst r).

(** [broadcastPreparedTx]; [Abandon] is [Done]. *)
Definition broadcastPreparedTx (m : Method) (value : option Z) : prog TxE (result PendingTx) :=
  gasPrice <-? wrap_err "suggest gas price" (call SuggestGasPrice) ;;
  slot <-? wrap_err "wait for broadcast slot" (call (Enter ClassLegacy)) ;;
  deferred (broadcast_in_slot m gasPrice value slot)
    (fun r => match r with Ok _ => Ret tt | Err _ => call (Done slot) end).

(** [PendingTx.Wait]: the result and the handle after it. *)
Definition Wait (p : PendingTx) : prog TxE (result unit * PendingTx) :=
  match p_waited p with
  | Some r => Ret (r, p)
  | None =>
      r <- awaitMined (p_tx p) (p_slot p) ;;
      Ret (r, MkPending (p_tx p) (p_slot p) (Some r))
  end.

(** [submitPreparedTx]. *)
Definition submitPreparedTx (m : Method) (value : option Z) : prog TxE (result unit) :=
  pending <-? broadcastPreparedTx m value ;;
  r <- Wait pending ;;
  Ret (fst r).

(** The transaction methods. [jobRegistry] and [sessionManager] say whether
    the binding was configured. *)
Context (jobRegistry sessionManager : bool).

Definition requireJobRegistry : result unit :=
  if jobRegistry then Ok tt else Err (errorf "jobRegistry not configured").
Definition requireSessionManager : result unit :=
  if sessionManager then Ok tt else Err (errorf "session manager binding not configured").

Definition RegisterWorker (encryptionPubKey : string) (stake : Z) : prog TxE (result unit) :=
  submitPreparedTx (RegisterWorkerTx encryptionPubKey) (Some stake).
Definition AddSupportedModel (modelID : Z) : prog TxE (result unit) :=
  submitPreparedTx (AddSupportedModelTx modelID) None.
Definition SetCapabilities (mask : Z) : prog TxE (result unit) :=
  submitPreparedTx (SetCapabilitiesTx mask) None.
Definition DeregisterWorker : prog TxE (result unit) := submitPreparedTx DeregisterWorkerTx None.
Definition Reinstate : prog TxE (result unit) := submitPreparedTx ReinstateTx None.
Definition TopUpStake (amount : Z) : prog TxE (result unit) := submitPreparedTx TopUpStakeTx (Some amount).

Definition ClaimSession (reqID : Z) : prog TxE (result unit) :=
  _ <-? Ret requireSessionManager ;; submitPreparedTx (ClaimSessionTx reqID) None.
Definition AcknowledgeJob (jobID : Z) : prog TxE (result unit) :=
  _ <-? Ret requireJobRegistry ;; submitPreparedTx (AcknowledgeJobTx jobID) None.
(** [AcknowledgeJobAsync]: the hash and the join function are the pending
    transaction's. *)
Definition AcknowledgeJobAsync (jobID : Z) : prog TxE (result PendingTx) :=
  _ <-? Ret requireJobRegistry ;; broadcastPreparedTx (AcknowledgeJobTx jobID) None.
Definition CompleteJob (jobID responseBlobHash responseCiphertextHash : Z) : prog TxE (result unit) :=
  _ <-? Ret requireJobRegistry ;;
  submitPreparedTx (CompleteJobTx jobID responseBlobHash responseCiphertextHash) None.
Definition ReleaseJob (jobID : Z) : prog TxE (result unit) :=
  _ <-? Ret requireJobRegistry ;; submitPreparedTx (ReleaseJobTx jobID) None.
Definition ReleaseJobs (jobIDs : list Z) : prog TxE (result unit) :=
  _ <-? Ret requireJobRegistry ;;
  if (length jobIDs =? 0)%nat then Ret (Err (errorf "ReleaseJobs: empty jobIDs slice"))
  else submitPreparedTx (ReleaseJobsTx jobIDs) None.
Definition Withdraw : prog TxE (result unit) :=
  _ <-? Ret requireJobRegistry ;; submitPreparedTx WithdrawTx None.
End Client.

(** ** What a run did *)

(** The answers and arguments a trace shows, in order. *)
Definition leased (c : called TxE) : list Z :=
  match c with
  | Called e x => match e in TxE X return X -> list Z with
                  | NextNonce => fun r => match r with Ok n => [n] | Err _ => [] end
                  | _ => fun _ => []
                  end x
  end.
Definition released (c : called TxE) : list (Z * bool) :=
  match c with Called (ReleaseNonce n consumed) _ => [(n, consumed)] | _ => [] end.
Definition entered (c : called TxE) : list Z :=
  match c with
  | Called e x => match e in TxE X return X -> list Z with
                  | Enter _ => fun r => match r with Ok s => [s] | Err _ => [] end
                  | _ => fun _ => []
                  end x
  end.
Definition left_slot (c : called TxE) : list Z :=
  match c with Called (Done s) _ => [s] | _ => [] end.
Definition registered (c : called TxE) : list (Z * Z) :=
  match c with Called (Registered s h) _ => [(s, h)] | _ => [] end.
Definition sent (c : called TxE) : list (Transaction * result unit) :=
  match c with
  | Called e x => match e in TxE X return X -> list (Transaction * result unit) with
                  | SendTransaction tx => fun r => [(tx, r)]
                  | _ => fun _ => []
                  end x
  end.
Definition resets (c : called TxE) : list unit :=
  match c with Called ResetNonce _ => [tt] | _ => [] end.
Definition built (c : called TxE) : list (Method * option Z) :=
  match c with Called (Build m _ _ value) _ => [(m, value)] | _ => [] end.
Definition cleared (c : called TxE) : list unit :=
  match c with Called ClearStuck _ => [tt] | _ => [] end.
Definition over {X} (f : called TxE -> list X) (tr : list (called TxE)) : list X := flat_map f tr.

Lemma over_app {X} (f : called TxE -> list X) tr tr' : over f (tr ++ tr') = over f tr ++ over f tr'.
Proof. apply flat_map_app. Qed.

(** Every lease taken was given back, each exactly once. *)
Definition leases_returned (tr : list (called TxE)) : Prop :=
  over leased tr ≡ₚ (over released tr).*1.

Definition mined (c : called TxE) : list (Transaction * option Z * result (option Receipt)) :=
  match c with
  | Called e x => match e in TxE X return X -> list (Transaction * option Z * result (option Receipt)) with
                  | WaitMined b tx => fun r => [(tx, b, r)]
                  | _ => fun _ => []
                  end x
  end.
Definition replayed (c : called TxE) : list replay :=
  match c with
  | Called e x => match e in TxE X return X -> list replay with
                  | CallContract _ _ => fun r => [r]
                  | _ => fun _ => []
                  end x
  end.
Definition deadlines (c : called TxE) : list bool :=
  match c with
  | Called e x => match e in TxE X return X -> list bool with
                  | Deadline => fun b => [b]
                  | _ => fun _ => []
                  end x
  end.

(** A broadcast: leases, slot, what reached the node, and which nonces count
    as spent. *)
Record broadcast_post (m : Method) (value : option Z) (tr : list (called TxE)) (r : result PendingTx) : Prop := {
  bp_leases : leases_returned tr;
  bp_slot : match r with
            | Ok p => over entered tr = [p_slot p] /\ over left_slot tr = [] /\
                      over registered tr = [(p_slot p, tx_hash (p_tx p))]
            | Err _ => over left_slot tr = over entered tr
            end;
  bp_sent : match r with
            | Ok p => exists before, over sent tr = before ++ [(p_tx p, Ok tt)] /\
                        Forall (fun s => is_ok (snd s) = false) before
            | Err _ => Forall (fun s => is_ok (snd s) = false) (over sent tr)
            end;
  bp_spent : match r with
             | Ok _ => exists n, (n, true) ∈ over released tr
             | Err _ => forall n, (n, true) ∈ over released tr ->
                 exists tx e, (tx, Err e) ∈ over sent tr /\ ShouldResetNonceOnSendError e = false
             end;
  bp_built : Forall (fun b => b = (m, value)) (over built tr);
  bp_fresh : forall p, r = Ok p -> p_waited p = None;
  bp_quiet : over mined tr = [] /\ over cleared tr = [];
}.

Ltac trace_facts :=
  cbn [flat_map app built leased released entered left_slot registered sent resets cleared mined replayed
       deadlines fmap list_fmap fst snd p_tx p_slot negb] in *.

(** Membership in a concrete list. *)
Ltac listed := repeat first [apply elem_of_cons; left; reflexivity | apply elem_of_cons; right].

Lemma broadcast_always mul m value : always (broadcastPreparedTx mul m value) (broadcast_post m value).
Proof.
  unfold broadcastPreparedTx, broadcast_in_slot, send_with_lease, resendWithFreshNonce.
  walk; split; unfold leases_returned, over; trace_facts; destruct_units; try done;
    try by (repeat constructor).
  all: try (by intros p [= <-]).
  all: try (intros n Hn; set_unfold in Hn; destruct_or?; simplify_eq; do 2 eexists; (split; [left|done])).
  all: try (eexists; listed; fail).
  - by exists [].
  - eexists [_]. split; [done|by repeat constructor].
Qed.

(** C16. A broadcast keeps every account straight, whatever the node, the
    nonce manager and the coordinator answer: each nonce leased, in the first
    attempt or the resend, is given back exactly once; the slot is held by the
    returned transaction, registered under its hash, or else released exactly
    once; an error means no send succeeded, success means the last one did;
    and a lease is reported spent on an error only when that send was not
    definitely rejected. *)
Theorem broadcast_accounts mul m value tr r :
  runs (broadcastPreparedTx mul m value) tr r -> broadcast_post m value tr r.
Proof. apply always_runs, broadcast_always. Qed.

(** A wait. *)
Record wait_post (tx : Transaction) (slot : Z) (tr : list (called TxE)) (r : result unit) : Prop := {
  wp_slot : exists before, tr = before ++ [Called (Done slot) tt] /\ over left_slot before = [];
  wp_bounded : forall tx' b x, (tx', b, x) ∈ over mined tr ->
    tx' = tx /\ (b = None -> over deadlines tr = [true]);
  wp_ok : is_ok r = true <-> exists b rc, over mined tr = [(tx, b, Ok (Some rc))] /\ Status rc = ReceiptStatusSuccessful;
  wp_clear : over cleared tr = if is_ok r then [tt] else [];
  wp_reset : over resets tr = [tt] <-> exists b e, over mined tr = [(tx, b, Err e)];
  wp_paused e : r = Err e -> errors_Is e ErrContractPaused = true ->
    (exists b e0, over mined tr = [(tx, b, Err e0)] /\ errors_Is e0 ErrContractPaused = true) \/
    (exists rep, over replayed tr = [rep] /\ pause_selector_in rep = true);
  wp_neutral : over leased tr = [] /\ over released tr = [] /\ over entered tr = [] /\ over sent tr = [];
}.

Lemma await_always minedWait tx slot :
  always (awaitMined minedWait tx slot) (wait_post tx slot).
Proof.
  unfold awaitMined, await_body, checkReceipt, classifyReceiptRevert, decodePauseRevert.
  walk; reflect_Z; split; unfold over; trace_facts; try done.
  all: try first [exact (ex_intro _ [_; _] (conj eq_refl eq_refl)) | exact (ex_intro _ [_; _; _] (conj eq_refl eq_refl))].
  all: try (intros tx' b0 r0 Hin; apply list_elem_of_singleton in Hin; injection Hin as -> -> _;
    split; [done|]; match goal with |- context [if ?y then None else _] => by destruct y end).
  all: try (split; [done|]; intros (b & rc & Hm & Hs); simplify_eq; done).
  all: try (split; [|done]; intros _; eexists _, _; done).
  all: try (split; [done|]; by intros (b & e' & ?)).
  all: try (intros e' [= <-] Hp; done).
  - intros e' [= <-] Hp. destruct (pause_selector_in x0) eqn:Es; [right; by exists x0|done].
  - intros e' [= <-] Hp. left. by eexists _, e.
Qed.

Lemma wait_always minedWait p :
  always (Wait minedWait p) (fun tr rp =>
    Wait minedWait (snd rp) = Ret rp /\
    match p_waited p with
    | Some r0 => fst rp = r0 /\ snd rp = p /\ tr = []
    | None => wait_post (p_tx p) (p_slot p) tr (fst rp)
    end).
Proof.
  unfold Wait at 1. destruct (p_waited p) as [r0|] eqn:Ew.
  - cbn [always fst snd]. split; [|done]. unfold Wait. by rewrite Ew.
  - apply always_bind. eapply always_mono; [apply await_always|]. intros tr r Hp.
    cbn [always fst snd]. rewrite app_nil_r. by split.
Qed.

(** The first wait for a transaction always gives its slot back, once and last,
    bounds the receipt wait unless the caller's context already does, succeeds
    only on a mined receipt with status 1 (and only then clears the stuck
    tracker), asks for a nonce reset exactly when no receipt came, and reports
    a paused contract only when the replay returned the pause selector.
    Later waits return the same result and call nothing. *)
Theorem wait_accounts minedWait p tr r p' :
  runs (Wait minedWait p) tr (r, p') ->
  Wait minedWait p' = Ret (r, p') /\
  match p_waited p with
  | Some r0 => r = r0 /\ p' = p /\ tr = []
  | None => wait_post (p_tx p) (p_slot p) tr r
  end.
Proof. intros Hr. by apply (always_runs _ _ _ _ (wait_always minedWait p)) in Hr. Qed.

Lemma submit_always mul minedWait m value :
  always (submitPreparedTx mul minedWait m value) (fun tr r =>
    leases_returned tr /\ over left_slot tr = over entered tr /\
    (r = Ok tt -> exists tx b rc before,
       over sent tr = before ++ [(tx, Ok tt)] /\ Forall (fun s => is_ok (snd s) = false) before /\
       over mined tr = [(tx, b, Ok (Some rc))] /\ Status rc = ReceiptStatusSuccessful)).
Proof.
  unfold submitPreparedTx, try. apply always_bind.
  eapply always_mono; [apply broadcast_always|]. intros tr1 r1 [L1 S1 T1 U1 Bm1 Fr1 [M1 _]].
  destruct r1 as [p|e].
  2:{ cbn [always]. rewrite app_nil_r. by split. }
  unfold Wait. rewrite (Fr1 p eq_refl). do 2 apply always_bind.
  eapply always_mono; [apply await_always|]. intros tr2 r2 [S2 B2 O2 C2 R2 P2 (L2 & R2' & E2 & T2)].
  cbn [always fst snd]. rewrite !app_nil_r.
  destruct S1 as (S1 & S1' & _). destruct S2 as (before & Heq & Hb). destruct T1 as (b1 & T1 & F1).
  assert (over left_slot tr2 = [p_slot p]) as Hls by (by rewrite Heq, over_app, Hb).
  split; [|split].
  - unfold leases_returned. rewrite !over_app, L2, R2', !app_nil_r. exact L1.
  - by rewrite !over_app, S1, S1', E2, Hls.
  - intros ->. destruct (proj1 O2 eq_refl) as (b & rc & Hm & Hs).
    exists (p_tx p), b, rc, b1. rewrite !over_app, T2, M1, app_nil_r. done.
Qed.

(** Submitting a transaction is balanced on every path: each nonce leased
    is given back once, the slot entered is left once, and success means the
    last transaction sent, after only rejected ones, was mined with status 1. *)
Theorem submit_balanced mul minedWait m value tr r :
  runs (submitPreparedTx mul minedWait m value) tr r ->
  leases_returned tr /\ over left_slot tr = over entered tr /\
  (r = Ok tt -> exists tx b rc before,
     over sent tr = before ++ [(tx, Ok tt)] /\ Forall (fun s => is_ok (snd s) = false) before /\
     over mined tr = [(tx, b, Ok (Some rc))] /\ Status rc = ReceiptStatusSuccessful).
Proof. intros Hr. by apply (always_runs _ _ _ _ (submit_always mul minedWait m value)). Qed.

(** ** Against the nonce manager itself

    A handler that answers the nonce calls with [NonceManager] over a chain,
    and the rest from scripts: the outcomes of the sends still to come. *)
Record demo_world : Type := MkDemo {
  dm_nonces : NonceManager.t;
  dm_chain : list Z;
  dm_sends : list (result unit);
  dm_waits : list (result (option Receipt));
}.

#[local] Instance scripted_chain : NonceFetcher (list Z) := fun f =>
  match f with n :: f' => (Ok n, f') | [] => (Err (errorf "no answer"), []) end.

Definition demo_handler : handler TxE demo_world := fun X e w =>
  match e in TxE X return X * demo_world with
  | SuggestGasPrice => (Ok 1000, w)
  | Enter _ => (Ok 7, w)
  | Registered _ _ | Done _ | RecordStuck _ | ClearStuck => (tt, w)
  | NewTransactor => (Ok tt, w)
  | NextNonce =>
      let '(r, (nm, ch)) := NonceManager.NextNonce (dm_nonces w, dm_chain w) in
      (r, MkDemo nm ch (dm_sends w) (dm_waits w))
  | ReleaseNonce n c => (tt, MkDemo (NonceManager.ReleaseNonce n c (dm_nonces w)) (dm_chain w) (dm_sends w) (dm_waits w))
  | ResetNonce => (tt, MkDemo (NonceManager.ResetNonce (dm_nonces w)) (dm_chain w) (dm_sends w) (dm_waits w))
  | Build _ n g _ => (Ok (MkTx n g true (100 + n)), w)
  | CtxErr => (None, w)
  | SendTransaction _ =>
      (hd (Ok tt) (dm_sends w), MkDemo (dm_nonces w) (dm_chain w) (tl (dm_sends w)) (dm_waits w))
  | Deadline => (false, w)
  | WaitMined _ _ =>
      (hd (Ok (Some (MkReceipt 1 5))) (dm_waits w), MkDemo (dm_nonces w) (dm_chain w) (dm_sends w) (tl (dm_waits w)))
  | CallContract _ _ => (ReplayErr (Some enforcedPauseSelector), w)
  end.

Definition demo_method : Method := AcknowledgeJobTx 4.
Definition too_low : error := errorf "nonce too low: next nonce 126, tx nonce 124".
Definition demo_run (w : demo_world) := interp demo_handler (submitPreparedTx 12000 0 demo_method None) w.
Definition demo_start (sends : list (result unit)) (waits : list (result (option Receipt))) : demo_world :=
  MkDemo (NonceManager.NewNonceManager 124 true 0 false) [126; 127] sends waits.

(** The resend's reset is deferred by the lease its own caller holds, so the
    resend takes the next local number, not the chain's: with the chain at 126
    and the counter at 124 it tries 125. *)
Example resend_after_reset_uses_local_counter :
  map (fun s => tx_nonce (fst s)) (over sent (fst (fst (demo_run (demo_start [Err too_low; Err too_low] []))))) =
  [124; 125].
Proof. vm_compute. reflexivity. Qed.

(** In general: while a lease is out and the counter is seeded, a reset
    followed by [NextNonce] hands out the local counter and asks nobody. *)
Lemma reset_under_lease_keeps_counter {F} `{NonceFetcher F} nm (f : F) :
  NonceManager.initialized nm = true -> (0 < NonceManager.outstanding nm)%nat ->
  exists nm', NonceManager.NextNonce (NonceManager.ResetNonce nm, f) =
              (Ok (NonceManager.pendingNonce nm), (nm', f)).
Proof.
  intros Hi Ho. unfold NonceManager.ResetNonce, NonceManager.applyPendingResetLocked. simpl.
  apply Nat.ltb_lt in Ho. rewrite Ho. unfold NonceManager.NextNonce. simpl. rewrite Hi. by eexists.
Qed.

(** The resend gives its nonce back as unused whatever the second send's error
    was. Here it timed out, so transaction 126 may be in the pool; a peer's
    lease keeps the reset pending, and the next two callers get 125 and 126. *)
Definition timed_out : error := errorf "context deadline exceeded".
Definition peer_start : demo_world :=
  MkDemo (NonceManager.NewNonceManager 125 true 1 false) [] [Err too_low; Err timed_out] [].
Definition next_nonces (w : demo_world) : list (result Z) :=
  let '(r1, s1) := NonceManager.NextNonce (dm_nonces w, dm_chain w) in
  let '(r2, _) := NonceManager.NextNonce s1 in [r1; r2].

Example ambiguous_resend_nonce_is_reused :
  let '((tr, r), w) := demo_run peer_start in
  map (fun s => tx_nonce (fst s)) (over sent tr) = [125; 126] /\
  ShouldResetNonceOnSendError timed_out = false /\
  over released tr = [(126, false); (125, false)] /\
  next_nonces w = [Ok 125; Ok 126].
Proof. vm_compute. repeat split; reflexivity. Qed.

Definition demo_good : demo_world := demo_start [Err too_low; Ok tt] [].
Definition demo_dropped : demo_world := demo_start [] [Err timed_out].

Lemma broadcast_accounts_witness :
  leases_returned (fst (fst (interp demo_handler (broadcastPreparedTx 12000 demo_method None) demo_good))).
Proof.
  exact (bp_leases _ _ _ _ (broadcast_accounts 12000 demo_method None _ _
    (interp_run demo_handler (broadcastPreparedTx 12000 demo_method None) demo_good))).
Defined.

Definition demo_pending : PendingTx := MkPending (MkTx 5 1 true 9) 7 None.
Definition demo_wait := interp demo_handler (Wait 0 demo_pending) demo_dropped.

Lemma wait_accounts_witness :
  over cleared (fst (fst demo_wait)) = [] /\
  Wait 0 (snd (snd (fst demo_wait))) = Ret (snd (fst demo_wait)).
Proof.
  destruct (wait_accounts 0 demo_pending (fst (fst demo_wait)) (fst (snd (fst demo_wait))) (snd (snd (fst demo_wait)))
    (interp_run demo_handler (Wait 0 demo_pending) demo_dropped)) as [Hw Hp].
  split; [exact (wp_clear _ _ _ _ Hp)|exact Hw].
Defined.

Lemma submit_balanced_witness :
  leases_returned (fst (fst (demo_run demo_good))) /\
  over left_slot (fst (fst (demo_run demo_good))) = over entered (fst (fst (demo_run demo_good))).
Proof.
  destruct (submit_balanced 12000 0 demo_method None _ _ (interp_run demo_handler (submitPreparedTx 12000 0 demo_method None) demo_good))
    as (Hl & Hs & _).
  split; [exact Hl|exact Hs].
Defined.
End TxClient.
