(* ===== verification/BlobTx.v ===== *)
(** Blob transactions: [internal/blob/blob_tx.go]. A submission and the
    replacement it may send for a stuck nonce, over every answer of the node,
    the KZG library, the nonce manager, the coordinator and the tracker. *)
From S2P Require Import Prelude Effects Coordinator SendErrors StuckNonce.
Import Coordinator(TxClass(..)).

#[local] Open Scope prog_scope.

Module BlobTx.

(** [types.BlobTx], with blobs, commitments and proofs opaque; [To] is the
    sender itself. *)
Record BlobTxData : Type := MkBlobTx {
  Nonce : Z;
  GasTipCap : Z;
  GasFeeCap : Z;
  Gas : Z;
  BlobFeeCap : Z;
  BlobHashes : list Z;
  Sidecar : list (Z * Z * Z);
}.

(** Signing adds a signature, which fixes the hash. *)
Record SignedTx : Type := MkSigned { st_tx : BlobTxData; st_hash : Z }.

(** [blobTxPayload]. *)
Record blobTxPayload : Type := MkPayload {
  blob : Z;
  commitment : Z;
  proof : Z;
  versionedHash : Z;
}.

(** [StuckNonceConfig]. *)
Record StuckNonceConfig : Type := MkStuckCfg {
  Threshold : Z;
  MaxBumps : Z;
  AutoReplace : bool;
}.

Definition replacementBlobPayload : list Z := [0].
Definition defaultBlobFeeCapWei : Z := 1000000000.
Definition maxAllowedBumpNumber : Z := 8.

(** The calls a submission makes: [pkgblob] and KZG, [BlobTxBackend], the
    signer, [waitMined] (whose receipt is not nil without an error; its answer
    is the status), the context, and the shared components. *)
Inductive BlobE : Type -> Type :=
  | EncodeBlobData (data : list Z) : BlobE (result Z)
  | BlobToCommitment (blob : Z) : BlobE (result Z)
  | ComputeBlobProof (blob commitment : Z) : BlobE (result Z)
  | SuggestGasTipCap : BlobE (result Z)
  | SendTransaction (tx : SignedTx) : BlobE (result unit)
  | SignTx (tx : BlobTxData) : BlobE (result Z)
  | WaitMined (tx : SignedTx) : BlobE (result Z)
  | CtxErr : BlobE (option error)
  | Enter (cls : TxClass) : BlobE (result Z)
  | Registered (slot hash : Z) : BlobE unit
  | Done (slot : Z) : BlobE unit
  | NextNonce : BlobE (result Z)
  | ReleaseNonce (nonce : Z) (consumed : bool) : BlobE unit
  | ResetNonce : BlobE unit
  | RecordStuck (nonce : Z) : BlobE Z
  | BumpAttemptsUsedFor (nonce : Z) : BlobE Z
  | IncrementBumpAttemptsFor (nonce : Z) : BlobE unit
  | ClearStuck : BlobE unit.

Section Submitter.
Context (VersionedHash : Z -> Z).
Context (maxGasPrice : Z) (stuckCfg : StuckNonceConfig).

(** [if err := ctx.Err(); err != nil { return wrapped }]. *)
Definition check_ctx (msg : string) : prog BlobE (result unit) :=
  e <- call CtxErr ;;
  Ret (match e with Some e => Err (wrap msg e) | None => Ok tt end).

Definition encodeBlobTxPayload (data : list Z) : prog BlobE (result blobTxPayload) :=
  b <-? wrap_err "encode" (call (EncodeBlobData data)) ;;
  c <-? wrap_err "compute KZG commitment" (call (BlobToCommitment b)) ;;
  p <-? wrap_err "compute KZG proof" (call (ComputeBlobProof b c)) ;;
  Ret (Ok (MkPayload b c p (VersionedHash c))).

(** [signBlobTx]. [uint256.MustFromBig] panics above 2^256, far beyond a fee
    of 256 times a gas price. *)
Definition signBlobTx (payload : blobTxPayload) (nonce gasTipCap gasFeeCap blobFeeCap : Z)
    : prog BlobE (result SignedTx) :=
  let tx := MkBlobTx nonce gasTipCap gasFeeCap 21000 blobFeeCap [versionedHash payload]
              [(blob payload, commitment payload, proof payload)] in
  h <-? call (SignTx tx) ;;
  Ret (Ok (MkSigned tx h)).

(** [submitReplacementBlobTx]. *)
Definition submitReplacementBlobTx (nonce bumpNumber : Z) : prog BlobE (result unit) :=
  if bumpNumber <? 1 then Ret (Err (errorf "bumpNumber must be >= 1"))
  else if maxAllowedBumpNumber <? bumpNumber then Ret (Err (errorf "bumpNumber exceeds safety ceiling"))
  else
    _ <-? check_ctx "replacement context done before build" ;;
    payload <-? encodeBlobTxPayload replacementBlobPayload ;;
    tipSuggested <-? wrap_err "suggest replacement gas tip" (call SuggestGasTipCap) ;;
    let multiplier := Z.shiftl 1 bumpNumber in
    let bumpedTip := tipSuggested * multiplier in
    let bumpedGasFeeCap := maxGasPrice * multiplier in
    let bumpedBlobFeeCap := defaultBlobFeeCapWei * multiplier in
    signedTx <-? wrap_err "sign replacement blob tx"
      (signBlobTx payload nonce bumpedTip bumpedGasFeeCap bumpedBlobFeeCap) ;;
    _ <-? check_ctx "replacement context done before broadcast" ;;
    _ <- call (IncrementBumpAttemptsFor nonce) ;;
    wrap_err "broadcast replacement blob tx" (call (SendTransaction signedTx)).

(** [maybeSubmitReplacementBlobTx]; the outcome of the replacement is only
    logged. *)
Definition maybeSubmitReplacementBlobTx (nonce stuckHits : Z) : prog BlobE unit :=
  if (Threshold stuckCfg <=? 0) || (stuckHits <? Threshold stuckCfg) then Ret tt
  else if negb (AutoReplace stuckCfg) then Ret tt
  else
    bumpsUsed <- call (BumpAttemptsUsedFor nonce) ;;
    if MaxBumps stuckCfg <=? bumpsUsed then Ret tt
    else
      _ <- submitReplacementBlobTx nonce (bumpsUsed + 1) ;;
      Ret tt.

(** [handleSendError]. *)
Definition handleSendError (err : error) (nonce : Z) : prog BlobE unit :=
  _ <- (if ShouldResetNonceOnSendError err then call ResetNonce else Ret tt) ;;
  if IsAlreadyReservedError err then
    stuckHits <- call (RecordStuck nonce) ;;
    maybeSubmitReplacementBlobTx nonce stuckHits
  else Ret tt.

(** [submitAndWait]. *)
Definition submitAndWait (signedTx : SignedTx) (slot nonce : Z) : prog BlobE (result unit) :=
  rs <- call (SendTransaction signedTx) ;;
  match rs with
  | Err err =>
      _ <- handleSendError err nonce ;;
      Ret (Err (wrap "send blob tx" err))
  | Ok _ =>
      _ <- call (Registered slot (st_hash signedTx)) ;;
      rw <- call (WaitMined signedTx) ;;
      match rw with
      | Err err =>
          _ <- call ResetNonce ;;
          Ret (Err (wrap "wait for blob tx" err))
      | Ok status =>
          if negb (status =? 1) then Ret (Err (errorf "blob tx reverted (status 0)"))
          else
            _ <- call ClearStuck ;;
            Ret (Ok tt)
      end
  end.

(** The part of [SubmitBlobTx] that holds the lease: the result and the value
    of [nonceConsumed] its deferred [ReleaseNonce] reads. *)
Definition with_lease (payload : blobTxPayload) (gasTipCap slot nonce : Z)
    : prog BlobE (result (list Z) * bool) :=
  rs <- wrap_err "sign blob tx" (signBlobTx payload nonce gasTipCap maxGasPrice defaultBlobFeeCapWei) ;;
  match rs with
  | Err e => Ret (Err e, false)
  | Ok signedTx =>
      rc <- check_ctx "broadcast blob tx" ;;
      match rc with
      | Err e => Ret (Err e, false)
      | Ok _ =>
          r <- submitAndWait signedTx slot nonce ;;
          Ret (match r with Ok _ => Ok [versionedHash payload] | Err e => Err e end, true)
      end
  end.

(** The part that holds the slot. *)
Definition with_slot (payload : blobTxPayload) (gasTipCap slot : Z) : prog BlobE (result (list Z)) :=
  _ <-? check_ctx "wait for blob broadcast slot" ;;
  nonce <-? wrap_err "get nonce for blob tx" (call NextNonce) ;;
  r <- deferred (with_lease payload gasTipCap slot nonce) (fun r => call (ReleaseNonce nonce (snd r))) ;;
  Ret (fst r).

(** [SubmitBlobTx]. *)
Definition SubmitBlobTx (data : list Z) : prog BlobE (result (list Z)) :=
  payload <-? encodeBlobTxPayload data ;;
  gasTipCap <-? wrap_err "suggest gas tip cap" (call SuggestGasTipCap) ;;
  slot <-? wrap_err "wait for blob broadcast slot" (call (Enter ClassBlob)) ;;
  deferred (with_slot payload gasTipCap slot) (fun _ => call (Done slot)).
End Submitter.

(** ** What a run did *)

Definition leased (tr : list (called BlobE)) : list Z :=
  answered (fun Y e => match e in BlobE Y return Y -> list Z with
                       | NextNonce => fun r => match r with Ok n => [n] | Err _ => [] end
                       | _ => fun _ => [] end) tr.
Definition released (tr : list (called BlobE)) : list (Z * bool) :=
  answered (fun Y e _ => match e with ReleaseNonce n c => [(n, c)] | _ => [] end) tr.
Definition entered (tr : list (called BlobE)) : list Z :=
  answered (fun Y e => match e in BlobE Y return Y -> list Z with
                       | Enter ClassBlob => fun r => match r with Ok s => [s] | Err _ => [] end
                       | _ => fun _ => [] end) tr.
Definition left_slot (tr : list (called BlobE)) : list Z :=
  answered (fun Y e _ => match e with Done s => [s] | _ => [] end) tr.
Definition sent (tr : list (called BlobE)) : list (SignedTx * result unit) :=
  answered (fun Y e => match e in BlobE Y return Y -> list (SignedTx * result unit) with
                       | SendTransaction tx => fun r => [(tx, r)]
                       | _ => fun _ => [] end) tr.
Definition mined (tr : list (called BlobE)) : list (SignedTx * result Z) :=
  answered (fun Y e => match e in BlobE Y return Y -> list (SignedTx * result Z) with
                       | WaitMined tx => fun r => [(tx, r)]
                       | _ => fun _ => [] end) tr.
Definition encoded (tr : list (called BlobE)) : list (list Z * result Z) :=
  answered (fun Y e => match e in BlobE Y return Y -> list (list Z * result Z) with
                       | EncodeBlobData d => fun r => [(d, r)]
                       | _ => fun _ => [] end) tr.
Definition tips (tr : list (called BlobE)) : list (result Z) :=
  answered (fun Y e => match e in BlobE Y return Y -> list (result Z) with
                       | SuggestGasTipCap => fun r => [r]
                       | _ => fun _ => [] end) tr.
Definition recorded (tr : list (called BlobE)) : list (Z * Z) :=
  answered (fun Y e => match e in BlobE Y return Y -> list (Z * Z) with
                       | RecordStuck n => fun hits => [(n, hits)]
                       | _ => fun _ => [] end) tr.
Definition bumps_read (tr : list (called BlobE)) : list (Z * Z) :=
  answered (fun Y e => match e in BlobE Y return Y -> list (Z * Z) with
                       | BumpAttemptsUsedFor n => fun u => [(n, u)]
                       | _ => fun _ => [] end) tr.
Definition resets (tr : list (called BlobE)) : nat :=
  length (answered (fun Y e _ => match e with ResetNonce => [tt] | _ => [] end) tr).
Definition bumped (tr : list (called BlobE)) : list Z :=
  answered (fun Y e _ => match e with IncrementBumpAttemptsFor n => [n] | _ => [] end) tr.
Definition cleared (tr : list (called BlobE)) : nat :=
  length (answered (fun Y e _ => match e with ClearStuck => [tt] | _ => [] end) tr).

Ltac trace_facts :=
  cbv beta delta [leased released entered left_slot sent mined encoded tips recorded bumps_read resets
                  bumped cleared answered] in *;
  cbn [flat_map app length fst snd fmap list_fmap st_tx st_hash] in *.

Section Properties.
Context (VersionedHash : Z -> Z) (maxGasPrice : Z) (stuckCfg : StuckNonceConfig).

Record submit_post (data : list Z) (tr : list (called BlobE)) (r : result (list Z)) : Prop := {
  sp_leases : (released tr).*1 = leased tr /\ (length (leased tr) <= 1)%nat;
  sp_spent : forall n c, (n, c) ∈ released tr -> c = bool_decide (sent tr <> []);
  sp_slot : left_slot tr = entered tr;
  sp_ok : forall hs, r = Ok hs -> exists tx n tip b c p,
    hs = [VersionedHash c] /\ encoded tr = [(data, Ok b)] /\ leased tr = [n] /\ tips tr = [Ok tip] /\
    st_tx tx = MkBlobTx n tip maxGasPrice 21000 defaultBlobFeeCapWei hs [(b, c, p)] /\
    sent tr = [(tx, Ok tt)] /\ mined tr = [(tx, Ok 1)];
  sp_reset : forall tx e, sent tr = [(tx, Ok tt)] -> mined tr = [(tx, Err e)] -> resets tr = 1%nat;
  sp_reverted : forall tx status, mined tr = [(tx, Ok status)] -> resets tr = 0%nat;
  sp_clear : cleared tr = if is_ok r then 1%nat else 0%nat;
}.

Lemma blob_submit_always data :
  always (SubmitBlobTx VersionedHash maxGasPrice stuckCfg data) (submit_post data).
Proof.
  unfold SubmitBlobTx, with_slot, with_lease, submitAndWait, handleSendError,
    maybeSubmitReplacementBlobTx, submitReplacementBlobTx, encodeBlobTxPayload, signBlobTx, check_ctx.
  walk; reflect_Z; subst; split; trace_facts; destruct_units; try done; try (split; [done|lia]).
  all: try (intros n c Hn; set_unfold in Hn; destruct_or?; simplify_eq; done).
  all: try (intros; simplify_eq; done).
  intros hs [= <-]. eexists (MkSigned _ _). by do 5 eexists.
Qed.

(** C23. A blob submission, whatever the node, the KZG library, the nonce
    manager and the coordinator answer, gives its lease back once, as spent
    exactly when something was sent, and leaves the slot it entered once. It
    succeeds only when the one transaction it sent, with the leased nonce, the
    suggested tip, the configured caps and the one blob of the data, was mined
    with status 1, and returns that blob's versioned hash; no receipt asks for
    a nonce reset, a reverted one does not. *)
Theorem blob_submission_accounts data tr r :
  runs (SubmitBlobTx VersionedHash maxGasPrice stuckCfg data) tr r -> submit_post data tr r.
Proof. apply always_runs, blob_submit_always. Qed.

(** A second transaction in one submission is the replacement of a stuck one. *)
Record replacement_post (tr : list (called BlobE)) (r : result (list Z)) : Prop := {
  rp_two : (length (sent tr) <= 2)%nat;
  rp_bumps : (length (bumped tr) <= 1)%nat /\
             ((length (sent tr) = 2)%nat -> bumped tr = leased tr);
  rp_guard : forall tx1 o1 tx2 o2, sent tr = [(tx1, o1); (tx2, o2)] ->
    exists e n hits used tip1 tip2 c b p,
      o1 = Err e /\ IsAlreadyReservedError e = true /\ is_ok r = false /\
      recorded tr = [(n, hits)] /\ leased tr = [n] /\
      0 < Threshold stuckCfg <= hits /\ AutoReplace stuckCfg = true /\
      bumps_read tr = [(n, used)] /\ used < MaxBumps stuckCfg /\ 1 <= used + 1 <= maxAllowedBumpNumber /\
      tips tr = [Ok tip1; Ok tip2] /\
      st_tx tx2 = MkBlobTx n (tip2 * 2 ^ (used + 1)) (maxGasPrice * 2 ^ (used + 1)) 21000
        (defaultBlobFeeCapWei * 2 ^ (used + 1)) [VersionedHash c] [(b, c, p)];
}.

Lemma replacement_always data :
  always (SubmitBlobTx VersionedHash maxGasPrice stuckCfg data) replacement_post.
Proof.
  unfold SubmitBlobTx, with_slot, with_lease, submitAndWait, handleSendError,
    maybeSubmitReplacementBlobTx, submitReplacementBlobTx, encodeBlobTxPayload, signBlobTx, check_ctx.
  walk; reflect_Z; split; trace_facts; destruct_units; try lia; try (split; [lia|lia || done]).
  all: try (intros; simplify_eq; done).
  all: intros tx1 o1 tx2 o2 [= <- <- <- <-]; rewrite Z.shiftl_1_l; do 9 eexists;
    repeat match goal with |- _ /\ _ => split end; try reflexivity; try eassumption; lia.
Qed.

(** A submission sends at most one more transaction, and only after its
    own was rejected as reserved at a nonce whose hits reached a positive
    threshold, with automatic replacement on and the nonce's bumps below
    [MaxBumps] and the ceiling of 8. That replacement reuses the nonce and
    raises all three fees, the newly suggested tip, the fee cap and the
    1 gwei blob fee cap, by 2 to the number of this bump, which is counted
    against the nonce before the send; the submission still fails. *)
Theorem replacement_only_when_stuck data tr r :
  runs (SubmitBlobTx VersionedHash maxGasPrice stuckCfg data) tr r -> replacement_post tr r.
Proof. apply always_runs, replacement_always. Qed.

(** ** With the tracker itself

    The calls of a trace answered by a [StuckNonce] tracker nobody else uses
    meanwhile. *)
Fixpoint tracked (s : StuckNonce.t) (tr : list (called BlobE)) (s' : StuckNonce.t) : Prop :=
  match tr with
  | [] => s' = s
  | Called e x :: tr' =>
      match e in BlobE X return X -> Prop with
      | RecordStuck n => fun hits => exists now,
          hits = fst (StuckNonce.Record_ n now s) /\ tracked (snd (StuckNonce.Record_ n now s)) tr' s'
      | BumpAttemptsUsedFor n => fun u => u = StuckNonce.BumpAttemptsUsedFor s n /\ tracked s tr' s'
      | IncrementBumpAttemptsFor n => fun _ => tracked (StuckNonce.IncrementBumpAttemptsFor n s) tr' s'
      | ClearStuck => fun _ => tracked (StuckNonce.Clear s) tr' s'
      | _ => fun _ => tracked s tr' s'
      end x
  end.

(** Submissions one after the other. *)
Inductive submissions : StuckNonce.t -> list (list (called BlobE)) -> StuckNonce.t -> Prop :=
  | submissions_nil s : submissions s [] s
  | submissions_cons s data tr r s1 trs s' :
      runs (SubmitBlobTx VersionedHash maxGasPrice stuckCfg data) tr r ->
      tracked s tr s1 -> submissions s1 trs s' -> submissions s (tr :: trs) s'.

Definition budget : Z := Z.max 0 (Z.min (MaxBumps stuckCfg) maxAllowedBumpNumber).
Definition within_budget (s : StuckNonce.t) : Prop :=
  forall n, 0 <= StuckNonce.BumpAttemptsUsedFor s n <= budget.

Lemma used_after_bump s n m :
  StuckNonce.BumpAttemptsUsedFor (StuckNonce.IncrementBumpAttemptsFor n s) m =
  if bool_decide (n = m) then StuckNonce.BumpAttemptsUsedFor s n + 1 else 0.
Proof.
  unfold StuckNonce.BumpAttemptsUsedFor, StuckNonce.IncrementBumpAttemptsFor.
  destruct (StuckNonce.hasLastBumpNonce s) eqn:Eh, (StuckNonce.lastBumpNonce s =? n) eqn:En; simpl;
    rewrite ?Eh; simpl; case_bool_decide; reflect_Z; subst; rewrite ?Z.eqb_refl; try done;
    (destruct (_ =? _) eqn:E; reflect_Z; subst; done).
Qed.

Lemma within_budget_record s n now : within_budget s -> within_budget (snd (StuckNonce.Record_ n now s)).
Proof. done. Qed.

Lemma within_budget_fresh : within_budget StuckNonce.NewStuckNonceTracker.
Proof. intros n. unfold StuckNonce.BumpAttemptsUsedFor, budget. simpl. lia. Qed.

Lemma within_budget_bump s n :
  within_budget s -> StuckNonce.BumpAttemptsUsedFor s n < MaxBumps stuckCfg ->
  StuckNonce.BumpAttemptsUsedFor s n + 1 <= maxAllowedBumpNumber ->
  within_budget (StuckNonce.IncrementBumpAttemptsFor n s).
Proof.
  intros Hw Hb Hm m. rewrite used_after_bump. specialize (Hw n). unfold budget in *.
  case_bool_decide; lia.
Qed.

Definition keeps_budget (tr : list (called BlobE)) : Prop :=
  forall s s', within_budget s -> tracked s tr s' -> within_budget s'.

Lemma budget_always data :
  always (SubmitBlobTx VersionedHash maxGasPrice stuckCfg data) (fun tr _ => keeps_budget tr).
Proof.
  unfold SubmitBlobTx, with_slot, with_lease, submitAndWait, handleSendError,
    maybeSubmitReplacementBlobTx, submitReplacementBlobTx, encodeBlobTxPayload, signBlobTx, check_ctx.
  walk; reflect_Z; destruct_units; intros tk tk' Hw Ht; cbn [tracked] in Ht;
    repeat match goal with H : _ /\ _ |- _ => destruct H | H : exists _, _ |- _ => destruct H end; subst;
    try first [done | exact (within_budget_fresh)].
  all: first [apply within_budget_bump; [by apply within_budget_record|done|lia] | by apply within_budget_record].
Qed.

(** A nonce gets at most [min(MaxBumps, 8)] replacements in a row: along
    any series of submissions that share a tracker, whatever the node answers,
    the bumps counted for a nonce stay within that budget, and each
    replacement's fees are 2 to the number of the bump it was counted as. *)
Theorem replacement_budget s trs s' :
  submissions s trs s' -> within_budget s ->
  within_budget s' /\
  forall tr, tr ∈ trs -> forall tx1 o1 tx2 o2, sent tr = [(tx1, o1); (tx2, o2)] ->
    exists k, 1 <= k <= budget /\ GasFeeCap (st_tx tx2) = maxGasPrice * 2 ^ k /\
              BlobFeeCap (st_tx tx2) = defaultBlobFeeCapWei * 2 ^ k.
Proof.
  induction 1 as [s|s data tr r s1 trs s' Hr Ht _ IH]; intros Hw; [by split; [|set_solver]|].
  assert (within_budget s1) as Hw1 by exact (always_runs _ _ _ _ (budget_always data) Hr _ _ Hw Ht).
  destruct (IH Hw1) as [Hw' Hin]. split; [done|].
  intros tr' [->|Htr']%elem_of_cons tx1 o1 tx2 o2 Hs; [|by eapply Hin].
  destruct (rp_guard _ _ (always_runs _ _ _ _ (replacement_always data) Hr) _ _ _ _ Hs)
    as (e & n & hits & used & tip1 & tip2 & c & b & p & _ & _ & _ & _ & _ & _ & _ & _ & Hu & Hk & _ & ->).
  exists (used + 1). unfold budget. simpl. split; [lia|done].
Qed.
End Properties.

(** ** A stuck nonce

    A node that rejects the submission as reserved and takes the replacement;
    the tracker is the real one, and the nonce has been hit twice before. *)
Definition reserved : error := errorf "txpool: address already reserved".

Definition demo_handler : handler BlobE (StuckNonce.t * list (result unit)) := fun X e w =>
  let '(s, sends) := w in
  match e in BlobE X return X * (StuckNonce.t * list (result unit)) with
  | EncodeBlobData _ => (Ok 11, w)
  | BlobToCommitment _ => (Ok 12, w)
  | ComputeBlobProof _ _ => (Ok 13, w)
  | SuggestGasTipCap => (Ok 3, w)
  | SendTransaction _ => (hd (Ok tt) sends, (s, tl sends))
  | SignTx _ => (Ok 99, w)
  | WaitMined _ => (Ok 1, w)
  | CtxErr => (None, w)
  | Enter _ => (Ok 7, w)
  | Registered _ _ | Done _ | ReleaseNonce _ _ | ResetNonce => (tt, w)
  | NextNonce => (Ok 5, w)
  | RecordStuck n => let '(h, s') := StuckNonce.Record_ n 60 s in (h, (s', sends))
  | BumpAttemptsUsedFor n => (StuckNonce.BumpAttemptsUsedFor s n, w)
  | IncrementBumpAttemptsFor n => (tt, (StuckNonce.IncrementBumpAttemptsFor n s, sends))
  | ClearStuck => (tt, (StuckNonce.Clear s, sends))
  end.

Definition demo_cfg : StuckNonceConfig := MkStuckCfg 3 2 true.
Definition demo_tracker : StuckNonce.t := StuckNonce.records [(5, 10); (5, 30)] StuckNonce.NewStuckNonceTracker.
Definition demo_run (sends : list (result unit)) :=
  interp demo_handler (SubmitBlobTx (fun c => c + 1) 200 demo_cfg [1; 2]) (demo_tracker, sends).
Definition demo_trace (sends : list (result unit)) : list (called BlobE) := fst (fst (demo_run sends)).

Example demo_stuck_sends :
  map (fun s => (GasTipCap (st_tx (fst s)), GasFeeCap (st_tx (fst s)), BlobFeeCap (st_tx (fst s))))
    (sent (demo_trace [Err reserved; Ok tt])) = [(3, 200, 1000000000); (6, 400, 2000000000)].
Proof. vm_compute. reflexivity. Qed.

Lemma blob_submission_accounts_witness :
  left_slot (demo_trace []) = entered (demo_trace []) /\ snd (fst (demo_run [])) = Ok [13].
Proof.
  split; [|vm_compute; reflexivity].
  exact (sp_slot _ _ _ _ _ (blob_submission_accounts (fun c => c + 1) 200 demo_cfg [1; 2] _ _
    (interp_run demo_handler (SubmitBlobTx (fun c => c + 1) 200 demo_cfg [1; 2]) (demo_tracker, [])))).
Defined.

Lemma replacement_only_when_stuck_witness :
  (length (sent (demo_trace [Err reserved; Ok tt])) <= 2)%nat.
Proof.
  exact (rp_two _ _ _ _ _ (replacement_only_when_stuck (fun c => c + 1) 200 demo_cfg [1; 2] _ _
    (interp_run demo_handler (SubmitBlobTx (fun c => c + 1) 200 demo_cfg [1; 2])
      (demo_tracker, [Err reserved; Ok tt])))).
Defined.

Definition demo_stuck_trace : list (called BlobE) := Eval vm_compute in demo_trace [Err reserved; Ok tt].

Lemma demo_stuck_tracked :
  tracked demo_tracker demo_stuck_trace (fst (snd (demo_run [Err reserved; Ok tt]))).
Proof.
  unfold demo_stuck_trace. cbn [tracked]. exists 60.
  do 2 (split; [vm_compute; reflexivity|]). vm_compute. reflexivity.
Qed.

Lemma replacement_budget_witness :
  within_budget demo_cfg (fst (snd (demo_run [Err reserved; Ok tt]))).
Proof.
  refine (proj1 (replacement_budget (fun c => c + 1) 200 demo_cfg demo_tracker [demo_stuck_trace] _ _ _)).
  - exact (submissions_cons _ _ _ _ [1; 2] _ _ _ _ _
      (interp_run demo_handler (SubmitBlobTx (fun c => c + 1) 200 demo_cfg [1; 2])
        (demo_tracker, [Err reserved; Ok tt])) demo_stuck_tracked (submissions_nil _ _ _ _)).
  - intros n. cbv. split; congruence.
Defined.
End BlobTx.
