(* ===== verification/ChainReads.v ===== *)
(** The read methods of [internal/chain/client.go]: projections of what the
    generated bindings return, the event filters and the cached dispute
    window. A configured client is the settlement interface of [Chain.v]. *)
From S2P Require Import Prelude Chain.

(** What the client reads of the contracts' structs; [*big.Int] fields that
    are checked for nil are options. Hashes and model ids are opaque. *)
Section Records.
Context `{AddressOps}.

Record JobRecord : Type := MkJobRecord {
  jr_State : Z;
  jr_Worker : Address;
  jr_CompletedAt : option Z;
  jr_EscrowedFee : option Z;
  jr_Deadline : option Z;
  jr_PromptBlobHash : Z;
  jr_ResponseBlobHash : Z;
  jr_SubmitBlockNumber : Z;
  jr_CompletionBlockNumber : Z;
}.

Record SessionRecord : Type := MkSessionRecord {
  sr_User : Address;
  sr_ModelId : Z;
  sr_Worker : Address;
  sr_Status : Z;
  sr_EncWorkerKey : list Z;
}.

Record RequestRecord : Type := MkRequestRecord {
  rr_Status : Z;
  rr_Expiry : Z;
  rr_Worker : Address;
}.

(** A decoded log; [None] is a nil event or a nil id. *)
Record JobLog : Type := MkJobLog {
  jl_JobId : Z;
  jl_SessionId : Z;
  jl_Worker : Address;
  jl_BlockNumber : Z;
}.

Record RequestLog : Type := MkRequestLog {
  rl_ReqId : Z;
  rl_User : Address;
  rl_ModelId : Z;
  rl_RequestBlock : Z;
  rl_BlockNumber : Z;
}.

(** An abigen iterator: the logs [Next] yields, then what [Error] reports. *)
Record iterator (L : Type) : Type := MkIter { logs : list (option L); iter_err : option error }.

(** The projections the client returns. *)
Record SessionRequestedEvent : Type := MkSessionRequested {
  ReqID : Z;
  User : Address;
  ModelID : Z;
  RequestBlock : Z;
  sre_BlockNumber : Z;
}.

Record JobSubmittedEvent : Type := MkJobSubmitted {
  jse_JobID : Z;
  jse_SessionID : Z;
  jse_Worker : Address;
  jse_BlockNumber : Z;
}.

Record SessionInfo : Type := MkSessionInfo {
  si_User : Address;
  si_ModelID : Z;
  si_Worker : Address;
  si_Status : Z;
}.

Record RequestInfo : Type := MkRequestInfo { ri_Status : Z; ri_Expiry : Z; ri_Worker : Address }.

(** The generated bindings and the node, over the state [N] they read; a
    filter takes the job id, the worker and the closed block range. *)
Class Bindings (N : Type) := {
  b_GetJob : Z -> io N JobRecord;
  b_GetSession : Z -> io N SessionRecord;
  b_GetRequest : Z -> io N RequestRecord;
  b_FilterJobAcknowledged : option Z -> Address -> option (Z * Z) -> io N (iterator JobLog);
  b_FilterJobCompleted : option Z -> Address -> option (Z * Z) -> io N (iterator JobLog);
  b_FilterJobSubmitted : Z * Z -> io N (iterator JobLog);
  b_FilterSessionRequested : Z * Z -> io N (iterator RequestLog);
  b_GetDisputeWindow : io N (option Z);
  b_WorkerBalance : Address -> io N (option Z);
  b_HeaderByNumber : io N (option Z * Z);
  b_EligibleNow : Z -> Address -> io N bool;
  b_GetRequiredCapabilities : Z -> io N Z;
}.
End Records.
Arguments MkIter {L} logs iter_err.
Arguments logs {L} i.
Arguments iter_err {L} i.

(** [big.Int.Int64] and [big.Int.Uint64] keep the low 64 bits. *)
Definition big_Int64 (z : Z) : Z := i64_wrap z.
Definition big_Uint64 (z : Z) : Z := u64_wrap z.

Module ChainReads.

(** ** The dispute window cache *)

Definition defaultDisputeWindowCacheTTL : Z := 15 * Minute.

(** The three cache fields; no expiry is the zero time. *)
Record cache : Type := MkCache {
  disputeWindowValue : Z;
  disputeWindowExpires : option Z;
  disputeWindowCacheTTL : Z;
}.

Definition empty_cache : cache := MkCache 0 None 0.

(** [SetDisputeWindowCacheTTL]. *)
Definition SetDisputeWindowCacheTTL (ttl : Z) (c : cache) : cache :=
  MkCache (disputeWindowValue c) None ttl.

(** The three parts of [GetDisputeWindow]: the lookup under the lock, the
    reading of the answer, and the store under the lock taken again. *)
Definition lookup_window (now : Z) (c : cache) : option Z :=
  match disputeWindowExpires c with
  | Some e => if now <? e then Some (disputeWindowValue c) else None
  | None => None
  end.

Definition window_of (raw : option Z) : result Z :=
  match raw with
  | None => Err (errorf "AIConfig.getDisputeWindow returned non-positive value")
  | Some r => if r <=? 0 then Err (errorf "AIConfig.getDisputeWindow returned non-positive value")
              else Ok (i64_wrap (big_Int64 r * Second))
  end.

Definition effective_ttl (c : cache) : Z :=
  if disputeWindowCacheTTL c <=? 0 then defaultDisputeWindowCacheTTL else disputeWindowCacheTTL c.

Definition store_window (now window : Z) (c : cache) : cache :=
  MkCache window (Some (now + effective_ttl c)) (disputeWindowCacheTTL c).

(** ** The client: its cache, its clock and the node behind the bindings *)

Section Client.
Context `{!AddressOps} {N : Type} `{!Bindings N}.
Context (jobRegistry sessionManager : bool) (workerAddr : Address) (now : N -> Z).

Record client : Type := MkClient { c_cache : cache; c_node : N }.

Definition node {A} (c : io N A) : io client A :=
  zoom c_node (fun n w => MkClient (c_cache w) n) c.

Definition requireJobRegistry : io client unit :=
  if jobRegistry then io_ret tt else io_err (errorf "jobRegistry not configured").
Definition requireSessionManager : io client unit :=
  if sessionManager then io_ret tt else io_err (errorf "session manager binding not configured").

(** [GetDisputeWindow]. *)
Definition GetDisputeWindow : io client Z := fun w =>
  match lookup_window (now (c_node w)) (c_cache w) with
  | Some v => (Ok v, w)
  | None =>
      (let? raw := node b_GetDisputeWindow wrapping "AIConfig.getDisputeWindow" in
       fun w' => match window_of raw with
                 | Err e => (Err e, w')
                 | Ok window =>
                     (Ok window, MkClient (store_window (now (c_node w')) window (c_cache w')) (c_node w'))
                 end) w
  end.

(** [Head]. *)
Definition Head : io client HeadInfo :=
  let? header := node b_HeaderByNumber wrapping "HeaderByNumber(latest)" in
  match fst header with
  | None => io_err (errorf "HeaderByNumber returned nil block number")
  | Some n => io_ret (MkHead (big_Uint64 n) (i64_wrap (snd header)))
  end.

(** [GetJobState]. *)
Definition GetJobState (jobID : Z) : io client JobStateInfo :=
  let? _ := requireJobRegistry in
  let? job := node (b_GetJob jobID) wrapping "GetJob" in
  let completedAt := match jr_CompletedAt job with Some t => big_Int64 t | None => 0 end in
  let fee := match jr_EscrowedFee job with Some f => f | None => 0 end in
  io_ret (MkJobStateInfo (JobState_of (jr_State job)) (jr_Worker job) completedAt (Some fee)).

(** [GetJobDeadline]: the deadline in Unix seconds and whether the job is
    acknowledged. *)
Definition GetJobDeadline (jobID : Z) : io client (Z * bool) :=
  let? _ := requireJobRegistry in
  let? job := node (b_GetJob jobID) wrapping "GetJob" in
  let zero := io_err (errorf "GetJob: zero deadline (job missing or predates deadline field)") in
  match jr_Deadline job with
  | None => zero
  | Some d => if d =? 0 then zero
              else io_ret (big_Int64 d, JobState_index JobStateAcknowledged <=? jr_State job)
  end.

(** [WorkerBalance]. *)
Definition WorkerBalance (worker : Address) : io client Z :=
  let? _ := requireJobRegistry in
  let? bal := node (b_WorkerBalance worker) wrapping "WorkerBalance" in
  io_ret (match bal with Some b => b | None => 0 end).

Definition sessionStatusActive : Z := 0.

(** [sessionNotActiveErr]: the sentinel under the session's name. *)
Definition sessionNotActiveErr : error := wrap "session" (errors_New ErrSessionNotActive "session not active").

(** [GetSessionEncWorkerKey]. *)
Definition GetSessionEncWorkerKey (sessionID : Z) : io client (list Z) :=
  let? _ := requireJobRegistry in
  let? sess := node (b_GetSession sessionID) wrapping "GetSession" in
  if negb (sr_Status sess =? sessionStatusActive) then io_err sessionNotActiveErr
  else if (length (sr_EncWorkerKey sess) =? 0)%nat then io_err (errorf "session has empty encWorkerKey")
  else io_ret (sr_EncWorkerKey sess).

(** [GetJobBlobInfo]. *)
Definition GetJobBlobInfo (jobID : Z) : io client (Z * Z * Z * Z) :=
  let? _ := requireJobRegistry in
  let? job := node (b_GetJob jobID) wrapping "GetJob" in
  io_ret (jr_PromptBlobHash job, jr_ResponseBlobHash job,
          big_Uint64 (jr_SubmitBlockNumber job), big_Uint64 (jr_CompletionBlockNumber job)).

(** [GetSessionInfo], [GetRequestInfo], [EligibleNow], [GetRequiredCapabilities]. *)
Definition GetSessionInfo (sessionID : Z) : io client SessionInfo :=
  let? _ := requireJobRegistry in
  let? s := node (b_GetSession sessionID) wrapping "GetSession" in
  io_ret (MkSessionInfo (sr_User s) (sr_ModelId s) (sr_Worker s) (sr_Status s)).

Definition GetRequestInfo (reqID : Z) : io client RequestInfo :=
  let? _ := requireSessionManager in
  let? r := node (b_GetRequest reqID) wrapping "getRequest" in
  io_ret (MkRequestInfo (rr_Status r) (rr_Expiry r) (rr_Worker r)).

Definition EligibleNow (reqID : Z) (worker : Address) : io client bool :=
  let? _ := requireSessionManager in
  io_wrap "eligibleNow" (node (b_EligibleNow reqID worker)).

Definition GetRequiredCapabilities (reqID : Z) : io client Z :=
  let? _ := requireSessionManager in
  node (b_GetRequiredCapabilities reqID).

(** ** Event filters *)

(** One [Next] decides; its error is read only when there was no log. *)
Definition has_log {L} (msg : string) (it : iterator L) : io client bool :=
  match logs it with
  | _ :: _ => io_ret true
  | [] => match iter_err it with Some e => io_err (wrap msg e) | None => io_ret false end
  end.

Definition HasJobAcknowledged (jobID : Z) : io client bool :=
  let? _ := requireJobRegistry in
  let? it := node (b_FilterJobAcknowledged (Some jobID) workerAddr None) wrapping "filter JobAcknowledged" in
  has_log "iterate JobAcknowledged events" it.

Definition HasJobCompleted (jobID : Z) : io client bool :=
  let? _ := requireJobRegistry in
  let? it := node (b_FilterJobCompleted (Some jobID) workerAddr None) wrapping "filter JobCompleted" in
  has_log "iterate JobCompleted events" it.

(** The loop of a filter: nil events are passed over, and an iteration error
    discards what was collected. *)
Fixpoint collect {L A} (f : L -> A) (ls : list (option L)) (out : list A) : list A :=
  match ls with
  | [] => out
  | None :: ls => collect f ls out
  | Some l :: ls => collect f ls (out ++ [f l])
  end.

Definition events_of {L A} (msg : string) (f : L -> A) (it : iterator L) : io client (list A) :=
  let out := collect f (logs it) [] in
  match iter_err it with
  | Some e => io_err (wrap msg e)
  | None => io_ret out
  end.

Definition check_range (fromBlock toBlock : Z) : io client unit :=
  if toBlock <? fromBlock then io_err (errorf "toBlock < fromBlock") else io_ret tt.

Definition FilterJobCompleted (worker : Address) (fromBlock toBlock : Z) : io client (list JobCompletedEvent) :=
  let? _ := requireJobRegistry in
  let? _ := check_range fromBlock toBlock in
  let? it := node (b_FilterJobCompleted None worker (Some (fromBlock, toBlock))) wrapping "filter JobCompleted" in
  events_of "iterate JobCompleted"
    (fun l => MkJobCompleted (big_Uint64 (jl_JobId l)) (jl_Worker l) (jl_BlockNumber l)) it.

Definition FilterSessionRequested (fromBlock toBlock : Z) : io client (list SessionRequestedEvent) :=
  let? _ := check_range fromBlock toBlock in
  let? _ := requireSessionManager in
  let? it := node (b_FilterSessionRequested (fromBlock, toBlock)) wrapping "filter SessionRequested" in
  events_of "iterate SessionRequested"
    (fun l => MkSessionRequested (big_Uint64 (rl_ReqId l)) (rl_User l) (rl_ModelId l)
                (big_Uint64 (rl_RequestBlock l)) (rl_BlockNumber l)) it.

Definition FilterJobSubmitted (fromBlock toBlock : Z) : io client (list JobSubmittedEvent) :=
  let? _ := check_range fromBlock toBlock in
  let? _ := requireJobRegistry in
  let? it := node (b_FilterJobSubmitted (fromBlock, toBlock)) wrapping "filter JobSubmitted" in
  events_of "iterate JobSubmitted"
    (fun l => MkJobSubmitted (big_Uint64 (jl_JobId l)) (big_Uint64 (jl_SessionId l)) (jl_Worker l)
                (jl_BlockNumber l)) it.
End Client.

(** ** The settlement interface

    The client is what the scheduler and the reconciler are given; its two
    transaction methods are those of [TxClient]. *)
Class Transactions (N : Type) := {
  tx_ReleaseJob : Z -> io N unit;
  tx_ReleaseJobs : list Z -> io N unit;
}.

Section Settlement.
Context `{!AddressOps} {N : Type} `{!Bindings N} `{!Transactions N}.
Context (jobRegistry : bool) (now : N -> Z).

Definition chain_settlement : SettlementClient (client (N:=N)) :=
  {| Chain.Head := Head;
     Chain.GetDisputeWindow := GetDisputeWindow now;
     Chain.GetJobState := GetJobState jobRegistry;
     Chain.ReleaseJob := fun jobID => node (tx_ReleaseJob jobID);
     Chain.ReleaseJobs := fun jobIDs => node (tx_ReleaseJobs jobIDs);
     Chain.FilterJobCompleted := FilterJobCompleted jobRegistry |}.
End Settlement.

(** ** Event filters are complete

    An answer is every log with an id, in order; an iterator that broke off
    gives an error, never the part it had delivered. *)
Lemma collect_spec {L A} (f : L -> A) ls out : collect f ls out = out ++ (f <$> omap id ls).
Proof.
  revert out. induction ls as [|[l|] ls IH]; intros out; simpl; [by rewrite app_nil_r| |done].
  rewrite IH, <- app_assoc. done.
Qed.

Lemma events_of_spec {N L A} msg (f : L -> A) it (w : client (N:=N)) evs w' :
  events_of msg f it w = (Ok evs, w') <-> iter_err it = None /\ evs = f <$> omap id (logs it) /\ w' = w.
Proof.
  unfold events_of, io_err, io_ret. rewrite collect_spec. simpl.
  destruct (iter_err it) as [e|]; split; [done|by intros (? & _)|by intros [= <- <-]|by intros (_ & -> & ->)].
Qed.

Section Filters.
Context `{!AddressOps} {N : Type} `{!Bindings N}.

(** The reconciler's event query answers exactly when the registry is
    configured, the range is not reversed, and the node delivered the whole
    filtered log list for that worker and closed range; the answer is every
    log with an id, in the node's order, and the query changes no cache. *)
Theorem completed_events_complete jobRegistry worker fromBlock toBlock (w w' : client (N:=N)) evs :
  FilterJobCompleted jobRegistry worker fromBlock toBlock w = (Ok evs, w') <->
  jobRegistry = true /\ fromBlock <= toBlock /\
  exists it n', b_FilterJobCompleted None worker (Some (fromBlock, toBlock)) (c_node w) = (Ok it, n') /\
    iter_err it = None /\ w' = MkClient (c_cache w) n' /\
    evs = (fun l => MkJobCompleted (big_Uint64 (jl_JobId l)) (jl_Worker l) (jl_BlockNumber l)) <$> omap id (logs it).
Proof.
  unfold FilterJobCompleted, requireJobRegistry, check_range, node.
  destruct jobRegistry; [|split; [done|by intros (? & _)]].
  destruct (Z.ltb_spec toBlock fromBlock) as [Hlt|Hle]; [split; [done|intros (_ & ? & _); lia]|].
  unfold io_bind, io_wrap, io_ret, zoom.
  destruct (b_FilterJobCompleted None worker (Some (fromBlock, toBlock)) (c_node w)) as [[it|e] n'];
    [|split; [done|by intros (_ & _ & ? & ? & ? & _)]].
  rewrite events_of_spec. split.
  - intros (Hi & -> & ->). eauto 10.
  - intros (_ & _ & it' & n'' & [= <- <-] & Hi & -> & ->). done.
Qed.
End Filters.

(** ** The dispute window under concurrent callers

    Callers look up, ask the node and store in separate critical sections, and
    the TTL may be set in between. [asked] holds the answers that callers are
    about to store; [history] when each value was stored, and with which TTL. *)
Record windows : Type := MkWindows {
  w_clock : Z;
  w_cache : cache;
  w_asked : list Z;
  w_stored : list (Z * Z);
}.

Inductive window_step (s : windows) : windows -> Prop :=
  | ws_time t : w_clock s <= t ->
      window_step s (MkWindows t (w_cache s) (w_asked s) (w_stored s))
  | ws_answer raw v : lookup_window (w_clock s) (w_cache s) = None -> window_of raw = Ok v ->
      window_step s (MkWindows (w_clock s) (w_cache s) (v :: w_asked s) (w_stored s))
  | ws_store v asked1 asked2 : w_asked s = asked1 ++ v :: asked2 ->
      window_step s (MkWindows (w_clock s) (store_window (w_clock s) v (w_cache s)) (asked1 ++ asked2)
                       ((w_clock s, v) :: w_stored s))
  | ws_ttl ttl :
      window_step s (MkWindows (w_clock s) (SetDisputeWindowCacheTTL ttl (w_cache s)) (w_asked s) (w_stored s)).

Definition windows_init (s : windows) : Prop :=
  w_cache s = empty_cache /\ w_asked s = [] /\ w_stored s = [].

Definition from_chain (v : Z) : Prop := exists raw, window_of raw = Ok v.

Record window_inv (s : windows) : Prop := {
  wi_asked : Forall from_chain (w_asked s);
  wi_stored : Forall (fun p => fst p <= w_clock s /\ from_chain (snd p)) (w_stored s);
  wi_entry : forall e, disputeWindowExpires (w_cache s) = Some e ->
    exists ts rest, w_stored s = (ts, disputeWindowValue (w_cache s)) :: rest /\
      e = ts + effective_ttl (w_cache s);
}.

Lemma window_inv_step s s' : window_inv s -> window_step s s' -> window_inv s'.
Proof.
  intros [Ha Hs He] Hstep. destruct Hstep as [t Ht|raw v Hl Hv|v a1 a2 Heq|ttl]; split; simpl; try done.
  - eapply Forall_impl; [exact Hs|]. intros p [Hp ?]. split; [lia|done].
  - constructor; [by exists raw|done].
  - rewrite Heq in Ha. apply Forall_app in Ha as [? [_ ?]%Forall_cons]. by apply Forall_app.
  - rewrite Heq in Ha. apply Forall_app in Ha as [_ [Hv _]%Forall_cons]. by constructor.
  - intros e [= <-]. by eexists _, _.
Qed.

Lemma windows_inv s : reachable windows_init window_step s -> window_inv s.
Proof.
  apply always_holds; [|by eauto using window_inv_step].
  intros s0 (Hc & Ha & Hs). split; rewrite ?Hc, ?Ha, ?Hs; [constructor|constructor|done].
Qed.

(** However callers, clock and TTL changes interleave, a dispute window
    served from the cache is the last one stored, read from the chain as a
    positive number of seconds and stored less than the TTL in force ago; and
    right after the TTL is set nothing is served from the cache. *)
Theorem served_window_is_recent s v ttl :
  reachable windows_init window_step s ->
  lookup_window (w_clock s) (w_cache s) = Some v ->
  (exists ts rest, w_stored s = (ts, v) :: rest /\ ts <= w_clock s < ts + effective_ttl (w_cache s) /\
     from_chain v) /\
  lookup_window (w_clock s) (SetDisputeWindowCacheTTL ttl (w_cache s)) = None.
Proof.
  intros [Ha Hs He]%windows_inv Hl. split; [|done].
  unfold lookup_window in Hl. destruct (disputeWindowExpires (w_cache s)) as [e|] eqn:Ee; [|done].
  destruct (Z.ltb_spec (w_clock s) e) as [Hlt|]; [|done]. injection Hl as <-.
  destruct (He e eq_refl) as (ts & rest & Hst & ->).
  rewrite Hst in Hs. apply Forall_cons in Hs as [[Hts Hv] _]. exists ts, rest. split; [done|]. simpl in *. split; [lia|done].
Qed.

(** Above 2^63 nanoseconds the window in seconds wraps; a window of 300 years
    reads as a negative one. *)
Example window_of_wraps : window_of (Some 9467280000) = Ok (-8979464073709551616).
Proof. vm_compute. reflexivity. Qed.

Definition demo_windows : windows :=
  MkWindows 100 (store_window 40 (3600 * Second) empty_cache) [] [(40, 3600 * Second)].

Lemma demo_windows_reachable : reachable windows_init window_step demo_windows.
Proof.
  assert (reachable windows_init window_step (MkWindows 40 empty_cache [] [])) as H0 by (apply reach_init; done).
  assert (reachable windows_init window_step (MkWindows 40 empty_cache [3600 * Second] [])) as H1.
  { apply (reach_step _ _ _ _ H0). by apply (ws_answer (MkWindows 40 empty_cache [] []) (Some 3600)). }
  pose proof (reach_step _ _ _ _ H1 (ws_store (MkWindows 40 empty_cache [3600 * Second] []) (3600 * Second) [] [] eq_refl)) as H2.
  apply (reach_step _ _ _ _ H2). apply ws_time. simpl. lia.
Qed.

Lemma served_window_is_recent_witness :
  lookup_window 100 (SetDisputeWindowCacheTTL 5 (w_cache demo_windows)) = None.
Proof.
  refine (proj2 (served_window_is_recent demo_windows (3600 * Second) 5 demo_windows_reachable _)).
  vm_compute. reflexivity.
Defined.
End ChainReads.
