(* ===== verification/JobTypes.v ===== *)
(** The job payload of [internal/pipeline/types.go], handed to the pipeline by
    the watcher, the gateway or the queue. *)
From S2P Require Import Prelude.

Section Payload.
Context `{AddressOps}.

(** [JobPayload]; the hash is opaque, 0 the zero hash. *)
Record JobPayload : Type := MkJobPayload {
  JobID : Z;
  SessionID : Z;
  Consumer : Address;
  WorkerAddr : Address;
  ModelIDStr : string;
  PromptBlobHash : Z;
  PayloadBlock : Z;
  PayloadTime : Z;
  CorrelationID : string;
  PriorJobIDs : list Z;
}.
End Payload.
