(* ===== verification/Cursor.v ===== *)
(** The watchers' progress on disk: [internal/sortition/cursor.go]. One small
    file per cursor, replaced by a rename. *)
From S2P Require Import Prelude Effects GoText.

#[local] Open Scope prog_scope.

(** ** The store *)

(** [os.IsNotExist]. *)
Definition not_exist (e : error) : bool := errors_Is e ErrNotExist.

(** The number in a cursor file. *)
Definition parse_block (b : string) : result Z := ParseUint (TrimSpace b).

Lemma parse_block_format n : is_u64 n -> parse_block (FormatUint n) = Ok n.
Proof.
  intros Hn. unfold parse_block. rewrite TrimSpace_FormatUint by (unfold is_u64 in Hn; lia). by apply ParseUint_FormatUint.
Qed.

Inductive FileE : Type -> Type :=
  | ReadFile (path : string) : FileE (result string)
  | WriteFile (path content : string) : FileE (result unit)
  | Rename (old new : string) : FileE (result unit).

Module CursorStore.

Section Store.
Context (dir : string).

(** [path]; [filepath.Join] of a clean directory. *)
Definition path (name : string) : string := dir +:+ "/cursor-" +:+ name +:+ ".txt".

(** [read]: the block, and whether one is stored. *)
Definition read (name : string) : prog FileE (result (Z * bool)) :=
  rb <- call (ReadFile (path name)) ;;
  Ret match rb with
      | Err e => if not_exist e then Ok (0, false) else Err (wrap "read cursor" e)
      | Ok b => match parse_block b with
                | Err e => Err (wrap "parse cursor" e)
                | Ok v => Ok (v, true)
                end
      end.

(** [Get]. *)
Definition Get (name : string) : prog FileE (result Z) :=
  r <- read name ;;
  Ret match r with Ok (v, _) => Ok v | Err e => Err e end.

(** [Set]. *)
Definition Set_ (name : string) (block : Z) : prog FileE (result unit) :=
  let tmp := path name +:+ ".tmp" in
  _ <-? wrap_err "write cursor" (call (WriteFile tmp (FormatUint block))) ;;
  wrap_err "commit cursor" (call (Rename tmp (path name))).

(** [GetOrSeed]: the cursor and whether it was just seeded. *)
Definition GetOrSeed (name : string) (safeHead lookback : Z) : prog FileE (result (Z * bool)) :=
  r <-? read name ;;
  let '(cursor, stored) := r in
  if (stored : bool) || (safeHead <=? lookback) then Ret (Ok (cursor, false))
  else
    let cursor := safeHead - lookback in
    _ <-? Set_ name cursor ;;
    Ret (Ok (cursor, true)).
End Store.

(** ** On a file system

    What the calls of a trace do to the files: a failed write may leave
    anything at the path it wrote, a failed rename changes nothing, and a read
    that succeeds returns what is there. *)
Fixpoint on_disk (fs : gmap string string) (tr : list (called FileE)) (fs' : gmap string string) : Prop :=
  match tr with
  | [] => fs' = fs
  | Called e x :: tr' =>
      match e in FileE X return X -> Prop with
      | ReadFile p => fun r =>
          match r with
          | Ok b => fs !! p = Some b
          | Err e => not_exist e = true -> fs !! p = None
          end /\ on_disk fs tr' fs'
      | WriteFile p content => fun r => exists left_behind,
          (r = Ok tt -> left_behind = content) /\ on_disk (<[p := left_behind]> fs) tr' fs'
      | Rename old new => fun r =>
          match r with
          | Ok _ => exists b, fs !! old = Some b /\ on_disk (<[new := b]> (delete old fs)) tr' fs'
          | Err _ => on_disk fs tr' fs'
          end
      end x
  end.

(** What is stored under a name. *)
Definition stored_in (dir : string) (fs : gmap string string) (name : string) : option (result Z) :=
  parse_block <$> fs !! path dir name.

Lemma chars_app s t :
  String.list_ascii_of_string (s +:+ t) = String.list_ascii_of_string s ++ String.list_ascii_of_string t.
Proof. induction s as [|c s IH]; [done|]. simpl. f_equal. exact IH. Qed.

(** A temporary file is no cursor's file: the last characters differ. *)
Lemma tmp_not_path dir name m : path dir name +:+ ".tmp" <> path dir m.
Proof.
  intros E. apply (f_equal (fun s => last (String.list_ascii_of_string s))) in E. cbn beta in E.
  revert E. unfold path. rewrite !chars_app, !last_app. done.
Qed.

Lemma path_inj dir m n : path dir m = path dir n -> m = n.
Proof.
  intros E. apply (f_equal String.list_ascii_of_string) in E. revert E. unfold path.
  rewrite !chars_app. intros E%app_inv_head%app_inv_head%app_inv_tail.
  rewrite <- (String.string_of_list_ascii_of_string m), E. apply String.string_of_list_ascii_of_string.
Qed.

Lemma stored_tmp dir fs name m x :
  stored_in dir (<[path dir name +:+ ".tmp" := x]> fs) m = stored_in dir fs m.
Proof. unfold stored_in. by rewrite lookup_insert_ne by apply tmp_not_path. Qed.

Lemma stored_committed dir fs name m x y :
  stored_in dir (<[path dir name := x]> (delete (path dir name +:+ ".tmp") (<[path dir name +:+ ".tmp" := y]> fs))) m =
  if bool_decide (m = name) then Some (parse_block x) else stored_in dir fs m.
Proof.
  unfold stored_in. case_bool_decide as Hm; [subst; by rewrite lookup_insert_eq|].
  rewrite lookup_insert_ne by (intros E%path_inj; done).
  rewrite lookup_delete_ne by apply tmp_not_path. by rewrite lookup_insert_ne by apply tmp_not_path.
Qed.

(** Storing [block] under [name], from [stored] to [stored'], at every point. *)
Record set_post (dir name : string) (block : Z) (tr : list (called FileE)) (r : result unit) : Prop := {
  set_result fs fs' : on_disk fs tr fs' ->
    stored_in dir fs' name = if is_ok r then Some (Ok block) else stored_in dir fs name;
  set_frame fs fs' m : on_disk fs tr fs' -> m <> name -> stored_in dir fs' m = stored_in dir fs m;
  set_crash fs tr1 tr2 fs1 : tr = tr1 ++ tr2 -> on_disk fs tr1 fs1 ->
    stored_in dir fs1 name = stored_in dir fs name \/ stored_in dir fs1 name = Some (Ok block);
}.

Ltac on_disk_facts := repeat match goal with
  | H : _ /\ _ |- _ => destruct H
  | H : exists _, _ |- _ => destruct H
  | H : ?x = ?x -> _ |- _ => specialize (H eq_refl)
  | H : ?P -> _, E : ?P |- _ => specialize (H E)
  | H : <[?k := _]> _ !! ?k = Some _ |- _ => rewrite lookup_insert_eq in H
  end; simplify_eq/=.

Lemma set_always dir name block : is_u64 block ->
  always (Set_ dir name block) (set_post dir name block).
Proof.
  intros Hb. unfold Set_. walk; destruct_units; split; intros fs.
  all: try (intros tr1 tr2 fs1 Htr Hd; destruct tr1 as [|c1 [|c2 tr1]]; simplify_eq/=; [by left|..];
    try (destruct tr1; [|done]); simplify_eq/=).
  all: try (intros fs' m Hd Hm; cbn [on_disk] in Hd); try (intros fs' Hd; cbn [on_disk] in Hd).
  all: on_disk_facts; rewrite ?stored_committed, ?stored_tmp, ?parse_block_format by done.
  all: try (case_bool_decide; done); try by left.
  all: try done.
  case_bool_decide; [by right|done].
Qed.

(** Storing a cursor is atomic and reads back: on success the name reads
    as exactly that block, through decimal text and trimming; on an error, and
    after a crash between any two calls, it reads as before or as the new
    block, never as anything else; and no other cursor is touched. *)
Theorem cursor_set_atomic dir name block tr r :
  is_u64 block -> runs (Set_ dir name block) tr r -> set_post dir name block tr r.
Proof. intros Hb. by apply always_runs, set_always. Qed.

(** Where a scan resumes. *)
Definition seed_post (dir name : string) (safeHead lookback : Z)
    (tr : list (called FileE)) (r : result (Z * bool)) : Prop :=
  forall fs fs', on_disk fs tr fs' ->
  match r with
  | Err _ => stored_in dir fs' name = stored_in dir fs name
  | Ok (c, fresh) =>
      match stored_in dir fs name with
      | Some (Ok v) => c = v /\ fresh = false /\ fs' = fs
      | Some (Err _) => False
      | None => if safeHead <=? lookback then c = 0 /\ fresh = false /\ fs' = fs
                else c = safeHead - lookback /\ fresh = true /\ stored_in dir fs' name = Some (Ok c)
      end
  end.

Lemma seed_always dir name safeHead lookback : is_u64 safeHead -> 0 <= lookback ->
  always (GetOrSeed dir name safeHead lookback) (seed_post dir name safeHead lookback).
Proof.
  intros Hs Hl. unfold GetOrSeed, read, Set_.
  walk; destruct_units; try done; intros fs fs' Hd; cbn [on_disk] in Hd; on_disk_facts.
  all: rewrite ?stored_tmp, ?stored_committed; unfold stored_in.
  all: try match goal with H : _ !! _ = _ |- _ => rewrite !H end; simpl.
  all: try done; try (match goal with H : parse_block _ = _ |- _ => by rewrite H end).
  all: destruct (Z.leb_spec safeHead lookback); reflect_Z; try lia; try done.
  rewrite bool_decide_true, parse_block_format by (done || unfold is_u64 in *; lia). done.
Qed.

(** A scan resumes after the stored cursor, a stored 0 included, and then
    nothing is written; with none stored it starts the look-back behind the
    safe head and that start is stored before it is used, or, on a chain no
    longer than the look-back, at the first block with nothing stored; an
    unreadable cursor is an error, never a restart from 0. *)
Theorem cursor_seed_resumes dir name safeHead lookback tr r :
  is_u64 safeHead -> 0 <= lookback ->
  runs (GetOrSeed dir name safeHead lookback) tr r -> seed_post dir name safeHead lookback tr r.
Proof. intros Hs Hl. by apply always_runs, seed_always. Qed.

(** ** A run on disk *)

Definition demo_disk : handler FileE (gmap string string) := fun X e fs =>
  match e in FileE X return X * gmap string string with
  | ReadFile p => (match fs !! p with
                   | Some b => Ok b
                   | None => Err (errors_New ErrNotExist "file does not exist")
                   end, fs)
  | WriteFile p c => (Ok tt, <[p := c]> fs)
  | Rename a b => match fs !! a with
                  | Some c => (Ok tt, <[b := c]> (delete a fs))
                  | None => (Err (errors_New ErrNotExist "file does not exist"), fs)
                  end
  end.

Example demo_cursor_texts :
  FormatUint 18446744073709551615 = "18446744073709551615"%string /\ FormatUint 0 = "0"%string /\
  ParseUint "18446744073709551616" = Err (errorf "invalid syntax or value out of range") /\
  parse_block " 4750 " = Ok 4750.
Proof. vm_compute. repeat split; reflexivity. Qed.

Definition demo_set := interp demo_disk (Set_ "/state" "job_submitted" 4750) ∅.

Lemma demo_u64 : is_u64 4750.
Proof. unfold is_u64, u64_max. lia. Qed.

Lemma cursor_set_atomic_witness :
  set_post "/state" "job_submitted" 4750 (fst (fst demo_set)) (snd (fst demo_set)).
Proof.
  exact (cursor_set_atomic "/state" "job_submitted" 4750 _ _ demo_u64
    (interp_run demo_disk (Set_ "/state" "job_submitted" 4750) ∅)).
Defined.

Lemma cursor_seed_resumes_witness :
  seed_post "/state" "job_submitted" 5000 250
    (fst (fst (interp demo_disk (GetOrSeed "/state" "job_submitted" 5000 250) ∅)))
    (snd (fst (interp demo_disk (GetOrSeed "/state" "job_submitted" 5000 250) ∅))).
Proof.
  refine (cursor_seed_resumes "/state" "job_submitted" 5000 250 _ _ _ _
    (interp_run demo_disk (GetOrSeed "/state" "job_submitted" 5000 250) ∅)).
  - unfold is_u64, u64_max. lia.
  - lia.
Defined.
End CursorStore.
