(* ===== verification/Scan.v ===== *)
(** What the two watchers of [internal/sortition] share: the chunks of a block
    scan and the cursor it moves. *)
From S2P Require Import Prelude.

(** The loop header [for lo := start; lo <= end; lo += chunk] with its
    [hi := min(lo+chunk-1, end)], on [uint64]; it reads nothing its body
    changes, so it is a list of ranges. Fuel counts iterations. *)
Fixpoint chunk_ranges (fuel : nat) (chunk last lo : Z) : option (list (Z * Z)) :=
  if last <? lo then Some []
  else match fuel with
       | O => None
       | S fuel =>
           let hi := u64_wrap (lo + chunk - 1) in
           let hi := if last <? hi then last else hi in
           rs ← chunk_ranges fuel chunk last (u64_wrap (lo + chunk));
           Some ((lo, hi) :: rs)
       end.

(** Non-empty ranges that cover [lo..last] one after the other. *)
Inductive tiled (last : Z) : Z -> list (Z * Z) -> Prop :=
  | tiled_nil lo : last < lo -> tiled last lo []
  | tiled_cons lo hi rs : lo <= hi <= last -> tiled last (hi + 1) rs -> tiled last lo ((lo, hi) :: rs).

Lemma chunk_ranges_tiled fuel chunk last lo :
  0 < chunk -> 0 <= lo -> last + chunk <= u64_max -> last - lo < Z.of_nat fuel ->
  exists rs, chunk_ranges fuel chunk last lo = Some rs /\ tiled last lo rs.
Proof.
  revert lo. induction fuel as [|fuel IH]; intros lo Hc Hl Hm Hf; simpl.
  - destruct (Z.ltb_spec last lo); [|lia]. eexists; split; [done|by constructor].
  - destruct (Z.ltb_spec last lo) as [Hlt|Hge]; [eexists; split; [done|by constructor]|].
    rewrite !u64_wrap_id by (unfold is_u64, u64_max in *; lia).
    destruct (IH (lo + chunk)) as (rs & -> & Ht); [lia..|].
    eexists. split; [done|]. destruct (Z.ltb_spec last (lo + chunk - 1)).
    + constructor; [lia|]. inversion Ht; subst; [|lia]. constructor. lia.
    + constructor; [lia|]. by replace (lo + chunk - 1 + 1) with (lo + chunk) by lia.
Qed.

(** [head.Number - confs] unless that is negative. *)
Definition safe_head (headNumber confs : Z) : Z :=
  if confs <? headNumber then headNumber - confs else 0.

(** ** Events by block *)

Section Events.
Context {A : Type} (events_at : Z -> list A).

(** The log list of the closed range [lo..hi]: block by block. *)
Definition events_in (lo hi : Z) : list A := seqZ lo (hi - lo + 1) ≫= events_at.

Lemma elem_of_events_in x lo hi :
  x ∈ events_in lo hi <-> exists b, lo <= b <= hi /\ x ∈ events_at b.
Proof.
  unfold events_in. rewrite list_elem_of_bind. setoid_rewrite elem_of_seqZ.
  split; intros (b & ? & ?); exists b; (split; [|done || lia]); try done; lia.
Qed.

Lemma events_in_split lo mid hi :
  lo <= mid + 1 -> mid <= hi -> events_in lo hi = events_in lo mid ++ events_in (mid + 1) hi.
Proof.
  intros. unfold events_in. rewrite <- bind_app. f_equal.
  replace (hi - lo + 1) with ((mid - lo + 1) + (hi - (mid + 1) + 1)) by lia.
  rewrite seqZ_app by lia. f_equal. f_equal. lia.
Qed.

Context (block_of : A -> Z).
Hypothesis at_block : forall b x, x ∈ events_at b -> block_of x = b.

(** Whatever lies in an earlier block comes earlier in the list. *)
Lemma events_before lo hi pre x post y :
  events_in lo hi = pre ++ x :: post -> y ∈ events_in lo hi -> block_of y < block_of x -> y ∈ pre.
Proof.
  intros Heq Hy Hlt.
  assert (block_of x - 1 <= hi /\ lo <= block_of x) as [Hx1 Hx2].
  { assert (x ∈ events_in lo hi) as (b & Hb & Hin)%elem_of_events_in by (rewrite Heq; set_solver).
    apply at_block in Hin. lia. }
  rewrite (events_in_split lo (block_of x - 1) hi) in Heq by lia.
  assert (y ∈ events_in lo (block_of x - 1)) as Hy1.
  { apply elem_of_events_in in Hy as (b & Hb & Hin). apply elem_of_events_in. exists b. split; [|done].
    apply at_block in Hin. lia. }
  assert (x ∉ events_in lo (block_of x - 1)) as Hx.
  { intros (b & Hb & Hin)%elem_of_events_in. apply at_block in Hin. lia. }
  apply app_eq_inv in Heq as [(k & Hk & Heq)|(k & -> & Heq)]; [|set_solver].
  destruct k as [|z k]; [by rewrite app_nil_r in Hk; subst|].
  injection Heq as -> _. destruct Hx. rewrite Hk. set_solver.
Qed.
End Events.
