(* ===== verification/JobWatcher.v ===== *)
(** The job intake of [internal/sortition/job_watcher.go]: one pass over the
    chain's JobSubmitted events, over every answer of the node, the pipeline
    and the cursor file. *)
From S2P Require Import Prelude Effects Chain ChainReads JobTypes GoText Cursor Scan.

#[local] Open Scope prog_scope.

Section Calls.
Context `{!AddressOps}.

(** The calls of a pass. [GetOrSeed] and [CursorSet] are the cursor store's on
    its own cursor; [Serve] hands a payload to [HandleJobPayload] in its own
    goroutine; the two log lines that carry a job's attempts are calls. *)
Inductive WatchE : Type -> Type :=
  | Head : WatchE (result Z)
  | GetOrSeed (safeHead lookback : Z) : WatchE (result (Z * bool))
  | CursorSet (block : Z) : WatchE (result unit)
  | FilterJobSubmitted (fromBlock toBlock : Z) : WatchE (result (list JobSubmittedEvent))
  | CounterLoad : WatchE Z
  | GetSessionEncWorkerKey (sessionID : Z) : WatchE (result (list Z))
  | CanDecryptSessionKey (encWorkerKey : list Z) : WatchE bool
  | GetJobBlobInfo (jobID : Z) : WatchE (result (Z * Z * Z * Z))
  | GetSessionInfo (sessionID : Z) : WatchE (result SessionInfo)
  | UnixNow : WatchE Z
  | Serve (payload : JobPayload) : WatchE unit
  | LogRetryLater (jobID attempts : Z) : WatchE unit
  | LogGivingUp (jobID attempts : Z) : WatchE unit.
End Calls.

Module JobWatcher.
Section Watcher.
Context `{!AddressOps}.

(** The watcher's settings; [notActiveRetries] is threaded. *)
Record config : Type := MkConfig {
  worker : Address;
  maxJobs : Z;
  chunk : Z;
  confs : Z;
  sessionRetryLimit : Z;
  lookback : Z;
}.

(** The defaults of [NewJobWatcher]. *)
Definition NewJobWatcher (worker : Address) (MaxConcurrent ChunkSize Confirmations SessionRetryLimit LookbackBlocks : Z)
    : config :=
  MkConfig worker MaxConcurrent (if ChunkSize =? 0 then 5000 else ChunkSize) Confirmations
    (if SessionRetryLimit =? 0 then 10 else SessionRetryLimit) LookbackBlocks.

Context (cfg : config).

(** [hex.EncodeToString] of the 32 bytes of a model id. *)
Definition nibble (n : Z) : Ascii.ascii :=
  Ascii.ascii_of_nat (Z.to_nat (if n <? 10 then 48 + n else 87 + n)).
Fixpoint hex_digits (k : nat) (z : Z) (acc : list Ascii.ascii) : list Ascii.ascii :=
  match k with
  | O => acc
  | S k => hex_digits k (Z.shiftr z 4) (nibble (Z.land z 15) :: acc)
  end.
Definition modelIDString (id : Z) : string := String.string_of_list_ascii (hex_digits 64 id []).

(** Whether the event loop goes on or [runOnce] returns. *)
Inductive flow : Type := Next | Return (r : result unit).

(** [stopAndRetry] and the return that follows it. *)
Definition stop_at (ev : JobSubmittedEvent) (lo : Z) : Z :=
  if 0 <? jse_BlockNumber ev then jse_BlockNumber ev - 1 else u64_wrap (lo - 1).
Definition stopAndRetry (ev : JobSubmittedEvent) (lo : Z) (retries : gmap Z Z)
    : prog WatchE (flow * gmap Z Z) :=
  r <- call (CursorSet (stop_at ev lo)) ;;
  Ret (Return r, retries).

Definition payload_of (ev : JobSubmittedEvent) (promptHash submitBlock : Z) (si : SessionInfo) (now : Z)
    : JobPayload :=
  MkJobPayload (jse_JobID ev) (jse_SessionID ev) (si_User si) (worker cfg) (modelIDString (si_ModelID si))
    promptHash submitBlock now
    (FormatUint (jse_SessionID ev) +:+ "-" +:+ FormatUint (jse_JobID ev)) [].

(** The reads and the hand-over for an event whose session key arrived. *)
Definition serve_event (ev : JobSubmittedEvent) (lo : Z) (enc : list Z) (retries : gmap Z Z)
    : prog WatchE (flow * gmap Z Z) :=
  ok <- call (CanDecryptSessionKey enc) ;;
  if negb ok then Ret (Next, retries)
  else
    rb <- call (GetJobBlobInfo (jse_JobID ev)) ;;
    match rb with
    | Err _ => stopAndRetry ev lo retries
    | Ok (promptHash, _, submitBlock, _) =>
        rs <- call (GetSessionInfo (jse_SessionID ev)) ;;
        match rs with
        | Err _ => stopAndRetry ev lo retries
        | Ok si =>
            now <- call UnixNow ;;
            _ <- call (Serve (payload_of ev promptHash submitBlock si now)) ;;
            Ret (Next, retries)
        end
    end.

(** A session that is not active: a bounded number of passes. *)
Definition not_active (ev : JobSubmittedEvent) (lo : Z) (retries : gmap Z Z)
    : prog WatchE (flow * gmap Z Z) :=
  let attempts := default 0 (retries !! jse_JobID ev) + 1 in
  if attempts <? sessionRetryLimit cfg then
    _ <- call (LogRetryLater (jse_JobID ev) attempts) ;;
    stopAndRetry ev lo (<[jse_JobID ev := attempts]> retries)
  else
    _ <- call (LogGivingUp (jse_JobID ev) attempts) ;;
    Ret (Next, delete (jse_JobID ev) retries).

(** The body of the event loop. *)
Definition handle_event (ev : JobSubmittedEvent) (lo : Z) (retries : gmap Z Z)
    : prog WatchE (flow * gmap Z Z) :=
  if negb (bool_decide (jse_Worker ev = worker cfg)) then Ret (Next, retries)
  else
    n <- call CounterLoad ;;
    if maxJobs cfg <=? n then stopAndRetry ev lo retries
    else
      rk <- call (GetSessionEncWorkerKey (jse_SessionID ev)) ;;
      match rk with
      | Err encErr =>
          if errors_Is encErr ErrSessionNotActive then not_active ev lo retries
          else stopAndRetry ev lo retries
      | Ok enc => serve_event ev lo enc (delete (jse_JobID ev) retries)
      end.

Fixpoint event_loop (lo : Z) (evts : list JobSubmittedEvent) (retries : gmap Z Z)
    : prog WatchE (flow * gmap Z Z) :=
  match evts with
  | [] => Ret (Next, retries)
  | ev :: evts =>
      r <- handle_event ev lo retries ;;
      match r with
      | (Next, retries) => event_loop lo evts retries
      | (Return e, retries) => Ret (Return e, retries)
      end
  end.

(** The chunk loop, over the ranges of its header. *)
Fixpoint chunk_loop (ranges : list (Z * Z)) (retries : gmap Z Z) : prog WatchE (result unit * gmap Z Z) :=
  match ranges with
  | [] => Ret (Ok tt, retries)
  | (lo, hi) :: ranges =>
      re <- call (FilterJobSubmitted lo hi) ;;
      match re with
      | Err e => Ret (Err e, retries)
      | Ok evts =>
          r <- event_loop lo evts retries ;;
          match r with
          | (Return e, retries) => Ret (e, retries)
          | (Next, retries) =>
              rs <- call (CursorSet hi) ;;
              match rs with
              | Err e => Ret (Err e, retries)
              | Ok _ => chunk_loop ranges retries
              end
          end
      end
  end.

(** [runOnce]; [None] when the fuel for the chunk loop ran out. *)
Definition runOnce (fuel : nat) (retries : gmap Z Z) : prog WatchE (option (result unit) * gmap Z Z) :=
  rh <- call Head ;;
  match rh with
  | Err e => Ret (Some (Err e), retries)
  | Ok headNumber =>
      let safeHead := safe_head headNumber (confs cfg) in
      rc <- call (GetOrSeed safeHead (lookback cfg)) ;;
      match rc with
      | Err e => Ret (Some (Err e), retries)
      | Ok (cursor, _) =>
          if safeHead <=? cursor then Ret (Some (Ok tt), retries)
          else
            match chunk_ranges fuel (chunk cfg) safeHead (u64_wrap (cursor + 1)) with
            | None => Ret (None, retries)
            | Some ranges =>
                r <- chunk_loop ranges retries ;;
                Ret (Some (fst r), snd r)
            end
      end
  end.
End Watcher.

(** ** What a pass did *)

Section Traces.
Context `{!AddressOps}.
#[local] Abbreviation trace := (list (called WatchE)).

Definition heads : trace -> list (result Z) :=
  answered (fun Y e => match e in WatchE Y return Y -> list (result Z) with Head => fun r => [r] | _ => fun _ => [] end).
Definition served : trace -> list JobPayload :=
  answered (fun Y e _ => match e with Serve p => [p] | _ => [] end).
Definition loads : trace -> list Z :=
  answered (fun Y e => match e in WatchE Y return Y -> list Z with CounterLoad => fun n => [n] | _ => fun _ => [] end).
Definition keys : trace -> list (Z * result (list Z)) :=
  answered (fun Y e => match e in WatchE Y return Y -> list (Z * result (list Z)) with
                       | GetSessionEncWorkerKey s => fun r => [(s, r)] | _ => fun _ => [] end).
Definition undecryptable : trace -> list (list Z) :=
  answered (fun Y e => match e in WatchE Y return Y -> list (list Z) with
                       | CanDecryptSessionKey enc => fun ok => if ok : bool then [] else [enc]
                       | _ => fun _ => [] end).
Definition failed_reads : trace -> list (Z + Z) :=
  answered (fun Y e => match e in WatchE Y return Y -> list (Z + Z) with
                       | GetJobBlobInfo j => fun r => if is_ok r then [] else [inl j]
                       | GetSessionInfo s => fun r => if is_ok r then [] else [inr s]
                       | _ => fun _ => [] end).
Definition retry_later : trace -> list (Z * Z) :=
  answered (fun Y e _ => match e with LogRetryLater j a => [(j, a)] | _ => [] end).
Definition gave_up : trace -> list (Z * Z) :=
  answered (fun Y e _ => match e with LogGivingUp j a => [(j, a)] | _ => [] end).

(** A cursor store, [None] when nothing is stored, and a node whose events
    do not change answered the calls of a trace. The store's part is what
    [Cursor.v] proves of it. *)
Fixpoint observed (events_at : Z -> list JobSubmittedEvent) (s : option Z) (tr : trace) (s' : option Z) : Prop :=
  match tr with
  | [] => s' = s
  | Called e x :: tr' =>
      match e in WatchE X return X -> Prop with
      | GetOrSeed sh lb => fun r =>
          match r with
          | Err _ => observed events_at s tr' s'
          | Ok (c, _) =>
              match s with
              | Some v => c = v /\ observed events_at s tr' s'
              | None => if sh <=? lb then c = 0 /\ observed events_at s tr' s'
                        else c = sh - lb /\ observed events_at (Some c) tr' s'
              end
          end
      | CursorSet b => fun r => observed events_at (if is_ok r then Some b else s) tr' s'
      | FilterJobSubmitted lo hi => fun r =>
          match r with Ok evts => evts = events_in events_at lo hi | Err _ => True end /\
          observed events_at s tr' s'
      | _ => fun _ => observed events_at s tr' s'
      end x
  end.

Lemma observed_app events_at s tr tr' s' :
  observed events_at s (tr ++ tr') s' <->
  exists s1, observed events_at s tr s1 /\ observed events_at s1 tr' s'.
Proof.
  revert s. induction tr as [|[X e x] tr IH]; intros s; simpl; [by split; [intros; exists s|intros (? & -> & ?)]|].
  destruct e; simpl; try apply IH.
  - destruct x as [[c f]|e]; [|apply IH]. destruct s as [v|]; [|destruct (_ <=? _)]; rewrite IH; firstorder.
  - rewrite IH. firstorder.
Qed.
End Traces.

Section Pass.
Context `{!AddressOps} (cfg : config) (events_at : Z -> list JobSubmittedEvent).
#[local] Abbreviation trace := (list (called WatchE)).

Definition mine (ev : JobSubmittedEvent) : Prop := jse_Worker ev = worker cfg.

(** An event that needs no further attention: its job was handed to the
    pipeline, or its session key is not for this worker, or its session stayed
    inactive for the whole retry limit. *)
Definition settled (ev : JobSubmittedEvent) (tr : trace) : Prop :=
  (exists p, p ∈ served tr /\ JobID p = jse_JobID ev /\ SessionID p = jse_SessionID ev) \/
  (exists enc, (jse_SessionID ev, Ok enc) ∈ keys tr /\ enc ∈ undecryptable tr) \/
  (exists a, (jse_JobID ev, a) ∈ gave_up tr /\ sessionRetryLimit cfg <= a).

(** Why a pass stopped at an event. *)
Definition blocked (ev : JobSubmittedEvent) (tr : trace) : Prop :=
  (exists n, n ∈ loads tr /\ maxJobs cfg <= n) \/
  (exists a, (jse_JobID ev, a) ∈ retry_later tr /\ a < sessionRetryLimit cfg) \/
  (exists e, (jse_SessionID ev, Err e) ∈ keys tr /\ errors_Is e ErrSessionNotActive = false) \/
  inl (jse_JobID ev) ∈ failed_reads tr \/ inr (jse_SessionID ev) ∈ failed_reads tr.

Lemma settled_app ev tr tr' : settled ev tr \/ settled ev tr' -> settled ev (tr ++ tr').
Proof.
  unfold settled, served, keys, undecryptable, gave_up. rewrite !answered_app. setoid_rewrite elem_of_app. naive_solver.
Qed.

Lemma blocked_app ev tr tr' : blocked ev tr \/ blocked ev tr' -> blocked ev (tr ++ tr').
Proof.
  unfold blocked, loads, keys, retry_later, failed_reads. rewrite !answered_app. setoid_rewrite elem_of_app. naive_solver.
Qed.

(** The counts of the map stay below the limit, so a job is given up on
    exactly at the limit. *)
Definition counts_ok (retries : gmap Z Z) : Prop :=
  forall j k, retries !! j = Some k -> 1 <= k < sessionRetryLimit cfg.
Definition keeps_counts (retries : gmap Z Z) (tr : trace) (retries' : gmap Z Z) : Prop :=
  1 <= sessionRetryLimit cfg -> counts_ok retries ->
  counts_ok retries' /\ forall j a, (j, a) ∈ gave_up tr -> a = sessionRetryLimit cfg.

Record event_post (ev : JobSubmittedEvent) (lo : Z) (retries : gmap Z Z) (tr : trace) (r : flow * gmap Z Z) : Prop := {
  ep_next : fst r = Next -> (mine ev -> settled ev tr) /\ forall s s', observed events_at s tr s' -> s' = s;
  ep_stop : forall e, fst r = Return e -> mine ev /\ blocked ev tr /\
    forall s s', observed events_at s tr s' -> s' = if is_ok e then Some (stop_at ev lo) else s;
  ep_counts : keeps_counts retries tr (snd r);
}.

Lemma counts_insert retries j k : counts_ok retries -> 1 <= k < sessionRetryLimit cfg -> counts_ok (<[j := k]> retries).
Proof. intros Hco Hk i k'. rewrite lookup_insert. case_decide; [by intros [= <-]|apply Hco]. Qed.

Lemma counts_delete retries j : counts_ok retries -> counts_ok (delete j retries).
Proof. intros Hco i k' [_ ?]%lookup_delete_Some. by eapply Hco. Qed.

Lemma counts_default retries j :
  1 <= sessionRetryLimit cfg -> counts_ok retries -> 0 <= default 0 (retries !! j) < sessionRetryLimit cfg.
Proof. intros Hl Hco. destruct (retries !! j) as [k|] eqn:E; simpl; [apply Hco in E|]; lia. Qed.

(** Find the call that proves an outcome. *)
Ltac evidence := first
  [ solve [constructor]
  | solve [eexists; (split; [constructor|done || lia || constructor])]
  | left; evidence
  | right; evidence ].

Lemma handle_event_always ev lo retries :
  always (handle_event cfg ev lo retries) (event_post ev lo retries).
Proof.
  unfold handle_event, serve_event, not_active, stopAndRetry.
  walk; destruct_units; reflect_Z; split; unfold keeps_counts, mine, settled, blocked.
  all: cbv beta delta [heads served loads keys undecryptable failed_reads retry_later gave_up answered];
    cbn [flat_map app fst snd is_ok observed].
  all: try (intros Hl Hco; pose proof (counts_default retries (jse_JobID ev) Hl Hco); split;
    [first [done | by apply counts_delete | apply counts_insert; [done|lia]]
    |intros j k Hin; set_unfold in Hin; destruct_or?; simplify_eq; lia]).
  all: first [intros [=]; split; [intros Hm|by intros s0 s1 ->]
             |intros e0 [=]; simplify_eq; (split; [done|split; [|by intros s0 s1 ->]])|idtac]; try done.
  all: try (subst; cbn [app]; evidence).
Qed.

Lemma keeps_counts_app r0 tr r1 tr' r2 :
  keeps_counts r0 tr r1 -> keeps_counts r1 tr' r2 -> keeps_counts r0 (tr ++ tr') r2.
Proof.
  intros H1 H2 Hl Hc. destruct (H1 Hl Hc) as [Hc1 Hg1]. destruct (H2 Hl Hc1) as [Hc2 Hg2].
  split; [done|]. unfold gave_up in *. rewrite answered_app. intros j a [?|?]%elem_of_app; eauto.
Qed.

Lemma keeps_counts_nil r : keeps_counts r [] r.
Proof. intros Hl Hc. split; [done|intros ? ? []%not_elem_of_nil]. Qed.

Lemma keeps_counts_cons c r tr r' : gave_up [c] = [] -> keeps_counts r tr r' -> keeps_counts r (c :: tr) r'.
Proof.
  intros Hg Hk. apply (keeps_counts_app _ [c] r); [|done]. intros Hl Hc. rewrite Hg. by apply keeps_counts_nil.
Qed.

Record loop_post (lo : Z) (evts : list JobSubmittedEvent) (retries : gmap Z Z) (tr : trace)
    (r : flow * gmap Z Z) : Prop := {
  lp_next : fst r = Next -> (forall ev, ev ∈ evts -> mine ev -> settled ev tr) /\
    forall s s', observed events_at s tr s' -> s' = s;
  lp_stop : forall e, fst r = Return e -> exists pre ev post, evts = pre ++ ev :: post /\
    (forall x, x ∈ pre -> mine x -> settled x tr) /\ mine ev /\ blocked ev tr /\
    forall s s', observed events_at s tr s' -> s' = if is_ok e then Some (stop_at ev lo) else s;
  lp_counts : keeps_counts retries tr (snd r);
}.

Lemma event_loop_always lo evts retries :
  always (event_loop cfg lo evts retries) (loop_post lo evts retries).
Proof.
  revert retries. induction evts as [|ev evts IH]; intros retries.
  - split; [|done|apply keeps_counts_nil]. intros _. split; [intros ? []%not_elem_of_nil|by intros s s' ->].
  - cbn [event_loop]. apply always_bind. eapply always_mono; [apply handle_event_always|].
    intros tr [[|e] retries1] [Hn Hs Hc]; cbn [fst snd] in *.
    + destruct (Hn eq_refl) as [Hset Hq]. eapply always_mono; [apply IH|].
      intros tr' r' [Hn' Hs' Hc']. split.
      * intros E. destruct (Hn' E) as [Hset' Hq']. split.
        -- intros x [->|Hx]%elem_of_cons Hm; apply settled_app; auto.
        -- intros s s' (s1 & Ho1 & Ho2)%observed_app. by rewrite (Hq' _ _ Ho2), (Hq _ _ Ho1).
      * intros e E. destruct (Hs' e E) as (pre & ev' & post & -> & Hpre & Hm & Hb & Ho).
        exists (ev :: pre), ev', post. split; [done|]. split_and!; [| done | by apply blocked_app; right |].
        -- intros x [->|Hx]%elem_of_cons Hmx; apply settled_app; auto.
        -- intros s s' (s1 & Ho1 & Ho2)%observed_app. rewrite (Ho _ _ Ho2). by rewrite (Hq _ _ Ho1).
      * by eapply keeps_counts_app.
    + split; cbn [fst snd]; rewrite ?app_nil_r; [done| |done].
      intros e' [= <-]. destruct (Hs e eq_refl) as (Hm & Hb & Ho). exists [], ev, evts.
      split_and!; [done|intros ? []%not_elem_of_nil|done|done|done].
Qed.

(** ** The scan *)

Context (at_block : forall b ev, ev ∈ events_at b -> jse_BlockNumber ev = b).

Definition pos (s : option Z) : Z := default 0 s.

(** Where a scan of [start+1..last] leaves the cursor, and what is behind it. *)
Definition scanned (start last : Z) (s s' : option Z) (tr : trace) (r : result unit) : Prop :=
  start <= pos s' <= Z.max start last /\ (s <> None -> s' <> None) /\
  (forall b ev, start < b <= pos s' -> ev ∈ events_at b -> mine ev -> settled ev tr) /\
  (r = Ok tt -> pos s' = Z.max start last \/
     exists ev, ev ∈ events_at (pos s' + 1) /\ pos s' + 1 <= last /\ mine ev /\ blocked ev tr).

Record scan_post (start last : Z) (retries : gmap Z Z) (tr : trace) (r : result unit * gmap Z Z) : Prop := {
  sn_scanned : forall s s', observed events_at s tr s' -> pos s = start -> scanned start last s s' tr (fst r);
  sn_counts : keeps_counts retries tr (snd r);
}.

Lemma scanned_idle start last s tr e : pos s = start -> scanned start last s s tr (Err e).
Proof. intros <-. split; [lia|]. split; [done|]. split; [intros; lia|done]. Qed.

(** The cursor a stop leaves is just before the event's block. *)
Lemma scanned_stop lo hi last s s' ev pre post tr e :
  1 <= lo <= hi -> hi <= last -> events_in events_at lo hi = pre ++ ev :: post ->
  (forall x, x ∈ pre -> mine x -> settled x tr) -> mine ev -> blocked ev tr -> pos s = lo - 1 ->
  s' = (if is_ok e then Some (stop_at ev lo) else s) -> scanned (lo - 1) last s s' tr e.
Proof.
  intros Hlo Hhi Heq Hpre Hm Hb Hs ->. destruct e as [[]|e]; simpl; [|by apply scanned_idle].
  assert (ev ∈ events_in events_at lo hi) as (b & Hbr & Hin)%elem_of_events_in by (rewrite Heq; set_solver).
  pose proof (at_block _ _ Hin) as Hbe. unfold stop_at. rewrite Hbe. destruct (Z.ltb_spec 0 b); [|lia].
  unfold scanned, pos. simpl. split; [lia|]. split; [done|]. split.
  - intros b' y Hb' Hy Hmy. apply Hpre; [|done].
    eapply (events_before events_at jse_BlockNumber at_block); [done| |].
    + apply elem_of_events_in. exists b'. split; [lia|done].
    + rewrite (at_block _ _ Hy), Hbe. lia.
  - intros _. right. exists ev. replace (b - 1 + 1) with b by lia. split_and!; [done|lia|done|done].
Qed.

Lemma chunk_loop_always last lo ranges retries :
  1 <= lo -> tiled last lo ranges ->
  always (chunk_loop cfg ranges retries) (scan_post (lo - 1) last retries).
Proof.
  intros Hlo Ht. revert retries Hlo. induction Ht as [lo Hlast|lo hi ranges Hr Ht IH]; intros retries Hlo.
  - split; cbn [fst snd]; [|apply keeps_counts_nil]. intros s s' -> Hs. split; [lia|].
    split; [done|]. split; [intros; lia|left; lia].
  - cbn [chunk_loop]. cbn [always bind call]. intros [evts|e].
    2:{ split; cbn [fst snd]; [|by apply keeps_counts_cons, keeps_counts_nil]. intros s s' [_ ->] Hs. by apply scanned_idle. }
    apply always_bind. eapply always_mono; [apply event_loop_always|].
    intros tr1 [[|e] retries1] [Hn Hst Hc]; cbn [fst snd] in *.
    2:{ split; cbn [fst snd]; rewrite app_nil_r; [|by apply keeps_counts_cons].
        intros s s' [-> Ho] Hs. destruct (Hst e eq_refl) as (pre & ev & post & Heq & Hpre & Hm & Hb & Hc').
        eapply (scanned_stop lo hi last s s' ev pre post); [lia|lia|done| |done|by apply (blocked_app _ [_]); right|done|by apply Hc'].
        intros x Hx Hmx. apply (settled_app _ [_]). right. auto. }
    destruct (Hn eq_refl) as [Hset Hq]. cbn [always bind call]. intros [[]|e].
    2:{ split; cbn [fst snd].
        - intros s s' [_ (s1 & Ho & ->)%observed_app] Hs. simpl. apply Hq in Ho as ->. by apply scanned_idle.
        - apply keeps_counts_cons; [done|]. apply (keeps_counts_app _ _ _ _ _ Hc).
          by apply keeps_counts_cons, keeps_counts_nil. }
    eapply always_mono; [apply IH; lia|]. intros tr2 r2 [Hs2 Hc2]. split.
    + intros s s' [-> (s1 & Ho & Ho2)%observed_app] Hs. cbn [observed is_ok] in Ho2. apply Hq in Ho as ->.
      destruct (Hs2 _ _ Ho2) as (Hp & Hne & Hset2 & Hok); [simpl; lia|].
      replace (hi + 1 - 1) with hi in * by lia. split; [lia|]. split; [by intros _; apply Hne|]. split.
      * intros b ev Hb Hin Hm. apply (settled_app _ [_]). right. apply settled_app.
        destruct (decide (b <= hi)).
        -- left. apply Hset; [|done]. apply elem_of_events_in. exists b. split; [lia|done].
        -- right. apply (settled_app _ [_]). right. eapply Hset2; [|done|done]. lia.
      * intros Hr'. destruct (Hok Hr') as [->|(ev & ? & ? & ? & ?)]; [left; lia|right; exists ev].
        split_and!; [done|done|done|]. apply (blocked_app _ [_]). right. apply blocked_app. right.
        apply (blocked_app _ [_]). by right.
    + apply keeps_counts_cons; [done|]. apply (keeps_counts_app _ _ _ _ _ Hc). by apply keeps_counts_cons.
Qed.

(** ** A pass *)

(** What the arithmetic of a pass over a head needs: no wrap of the chunk
    bounds, and one unit of fuel per block. *)
Definition head_fits (fuel : nat) (n : Z) : Prop :=
  0 <= n /\ n + chunk cfg <= u64_max /\ n < Z.of_nat fuel.

(** Where a pass starts: after the stored cursor, or, with none stored, at the
    first block or the look-back behind the safe head. *)
Definition starts (s : option Z) (tr : trace) (start : Z) : Prop :=
  match s with
  | Some c => start = c
  | None => start = 0 \/ exists n, Ok n ∈ heads tr /\ start = safe_head n (confs cfg) - lookback cfg
  end.

Definition passed (s s' : option Z) (retries : gmap Z Z) (tr : trace)
    (ro : option (result unit) * gmap Z Z) : Prop :=
  exists r start last, fst ro = Some r /\ starts s tr start /\ scanned start last s s' tr r /\
    (pos s' <> start \/ r = Ok tt -> exists n, Ok n ∈ heads tr /\ last = safe_head n (confs cfg)) /\
    keeps_counts retries tr (snd ro).

Definition pass_post (fuel : nat) (retries : gmap Z Z) (tr : trace) (ro : option (result unit) * gmap Z Z) : Prop :=
  (forall n, Ok n ∈ heads tr -> head_fits fuel n) ->
  forall s s', observed events_at s tr s' -> (forall c, s = Some c -> 0 <= c) -> passed s s' retries tr ro.

Lemma safe_head_bounds n : 0 <= confs cfg -> 0 <= n -> 0 <= safe_head n (confs cfg) <= n.
Proof. unfold safe_head. intros. destruct (Z.ltb_spec (confs cfg) n); lia. Qed.

Lemma passed_idle s retries tr e : (forall c, s = Some c -> 0 <= c) ->
  gave_up tr = [] -> passed s s retries tr (Some (Err e), retries).
Proof.
  intros Hs Hg. exists (Err e), (pos s), (pos s). split_and!; [done|by destruct s; [|left]|by apply scanned_idle|by intros [?|?]|].
  intros Hl Hc. rewrite Hg. by apply keeps_counts_nil.
Qed.

(** What the two calls before the scan settle. *)
Lemma observed_start s n cursor fresh tr s' :
  observed events_at s (Called Head (Ok n) ::
    Called (GetOrSeed (safe_head n (confs cfg)) (lookback cfg)) (Ok (cursor, fresh)) :: tr) s' ->
  exists s1, pos s1 = cursor /\ (s <> None -> s1 <> None) /\ observed events_at s1 tr s' /\
    forall tr', Ok n ∈ heads tr' -> starts s tr' cursor.
Proof.
  cbn [observed]. destruct s as [c|]; [intros [-> Ho]; by exists (Some c)|].
  destruct (safe_head n (confs cfg) <=? lookback cfg).
  - intros [-> Ho]. exists None. split_and!; [done|done|done|]. by left.
  - intros [-> Ho]. eexists (Some _). split_and!; [done|done|done|]. intros tr' Hh. right. by exists n.
Qed.

Lemma runOnce_always fuel retries : 0 < chunk cfg -> 0 <= confs cfg ->
  always (runOnce cfg fuel retries) (pass_post fuel retries).
Proof.
  intros Hchunk Hconfs. unfold runOnce. cbn [always bind call]. intros [n|e].
  2:{ cbn [always]. intros _ s s' -> Hs. by apply passed_idle. }
  cbn [always bind call]. intros [[cursor fresh]|e].
  2:{ cbn [always]. intros _ s s' Ho Hs. simpl in Ho. subst. by apply passed_idle. }
  set (sh := safe_head n (confs cfg)).
  destruct (decide (head_fits fuel n /\ 0 <= cursor)) as [[(Hn & Hm & Hf) Hc]|Hno].
  2:{ apply always_intro. intros tr r _ Hh s s' Ho Hs. destruct Hno. split; [apply Hh; cbn; constructor|].
      cbn [observed] in Ho. destruct s as [c|]; [destruct Ho as [-> _]; by apply Hs|].
      destruct (Z.leb_spec sh (lookback cfg)); destruct Ho as [-> _]; lia. }
  assert (0 <= sh <= n) as Hsh by by apply safe_head_bounds.
  destruct (Z.leb_spec sh cursor) as [Hle|Hlt].
  - cbn [always]. intros _ s s' Ho Hs. apply observed_start in Ho as (s1 & Hp & Hne & -> & Hst).
    assert (Ok n ∈ heads (Called Head (Ok n) :: [Called (GetOrSeed sh (lookback cfg)) (Ok (cursor, fresh))])) as Hh
      by (cbn; constructor).
    exists (Ok tt), cursor, sh. split_and!; [done|by apply Hst| |by intros _; exists n|].
    + split; [lia|]. split; [done|]. split; [intros; lia|left; lia].
    + do 2 (apply keeps_counts_cons; [done|]). apply keeps_counts_nil.
  - rewrite u64_wrap_id by (unfold is_u64; lia).
    destruct (chunk_ranges_tiled fuel (chunk cfg) sh (cursor + 1)) as (ranges & -> & Ht); [lia..|].
    apply always_bind. eapply always_mono; [apply (chunk_loop_always sh (cursor + 1)); [lia|done]|].
    intros tr [r retries'] [Hsn Hk]. cbn [always fst snd]. rewrite app_nil_r.
    intros _ s s' Ho Hs. apply observed_start in Ho as (s1 & Hp & Hne & Ho & Hst).
    assert (Ok n ∈ heads (Called Head (Ok n) :: Called (GetOrSeed sh (lookback cfg)) (Ok (cursor, fresh)) :: tr)) as Hh
      by (cbn; constructor).
    destruct (Hsn _ _ Ho ltac:(lia)) as (Hb & Hne' & Hset & Hok).
    replace (cursor + 1 - 1) with cursor in * by lia.
    exists r, cursor, sh. split_and!; [done|by apply Hst| |by intros _; exists n|].
    + split; [done|]. split; [auto|]. split.
      * intros b ev Hbr Hin Hm'. apply (settled_app _ [_; _]). right. by eapply Hset.
      * intros E. destruct (Hok E) as [?|(ev & ? & ? & ? & ?)]; [by left|right; exists ev].
        split_and!; [done|done|done|]. apply (blocked_app _ [_; _]). by right.
    + by do 2 (apply keeps_counts_cons; [done|]).
Qed.

(** A pass over the chain's job events, whatever the node, the pipeline
    and the cursor file answer, returns (the scan's fuel of one unit per block
    is enough), starts after the stored cursor, and leaves the cursor within
    the safe head with every job of this worker behind it settled: handed to
    the pipeline, under a key this worker cannot open, or inactive for the
    whole retry limit. A pass that reports success either reached the safe
    head or stopped right before a job it had to put off. *)
Theorem job_pass_settles fuel retries tr ro s s' :
  0 < chunk cfg -> 0 <= confs cfg ->
  runs (runOnce cfg fuel retries) tr ro -> observed events_at s tr s' ->
  (forall n, Ok n ∈ heads tr -> head_fits fuel n) -> (forall c, s = Some c -> 0 <= c) ->
  passed s s' retries tr ro.
Proof.
  intros Hc Hf Hr Ho Hh Hs.
  exact (always_runs _ _ _ _ (runOnce_always fuel retries Hc Hf) Hr Hh s s' Ho Hs).
Qed.

(** Passes one after the other, from a stored cursor. *)
Inductive passes : Z -> gmap Z Z -> list trace -> Z -> gmap Z Z -> Prop :=
  | passes_nil c retries : passes c retries [] c retries
  | passes_cons fuel c retries tr ro c1 trs c' retries' :
      runs (runOnce cfg fuel retries) tr ro -> observed events_at (Some c) tr (Some c1) ->
      (forall n, Ok n ∈ heads tr -> head_fits fuel n) ->
      passes c1 (snd ro) trs c' retries' -> passes c retries (tr :: trs) c' retries'.

Lemma passes_settle c retries trs c' retries' :
  0 < chunk cfg -> 0 <= confs cfg -> 1 <= sessionRetryLimit cfg ->
  passes c retries trs c' retries' -> 0 <= c -> counts_ok retries ->
  c <= c' /\
  (forall b ev, c < b <= c' -> ev ∈ events_at b -> mine ev -> exists tr, tr ∈ trs /\ settled ev tr) /\
  (forall tr j a, tr ∈ trs -> (j, a) ∈ gave_up tr -> a = sessionRetryLimit cfg).
Proof.
  intros Hchunk Hconfs Hlim. induction 1 as [c retries|fuel c retries tr ro c1 trs c' retries' Hr Ho Hh _ IH];
    intros Hc Hco; [split; [lia|split; [intros; lia|intros ? ? ? []%not_elem_of_nil]]|].
  destruct (always_runs _ _ _ _ (runOnce_always fuel retries Hchunk Hconfs) Hr Hh _ _ Ho ltac:(by intros ? [= <-]))
    as (r & start & last & _ & -> & (Hb & _ & Hset & _) & _ & Hk).
  unfold pos in *; simpl in *. destruct (Hk Hlim Hco) as [Hco' Hg].
  destruct (IH ltac:(lia) Hco') as (Hle & Hset' & Hg').
  split; [lia|]. split.
  - intros b ev Hbr Hin Hm. destruct (decide (b <= c1)).
    + exists tr. split; [by left|]. eapply Hset; [|done|done]. lia.
    + destruct (Hset' b ev ltac:(lia) Hin Hm) as (tr' & ? & ?). exists tr'. split; [by right|done].
  - intros tr' j a [->|Hin]%elem_of_cons Hj; [by eapply Hg|by eapply Hg'].
Qed.

(** C20. Over any series of passes from a stored cursor the cursor never moves
    back, every job of this worker between where it was and where it is was
    settled in one of the passes, so a stop, an error or a restart loses none,
    and a job whose session stays inactive is given up on exactly when the
    retry limit is reached, not before. *)
Theorem no_job_is_skipped c retries trs c' retries' :
  0 < chunk cfg -> 0 <= confs cfg -> 1 <= sessionRetryLimit cfg ->
  passes c retries trs c' retries' -> 0 <= c -> counts_ok retries ->
  c <= c' /\
  (forall b ev, c < b <= c' -> ev ∈ events_at b -> mine ev -> exists tr, tr ∈ trs /\ settled ev tr) /\
  (forall tr j a, tr ∈ trs -> (j, a) ∈ gave_up tr -> a = sessionRetryLimit cfg).
Proof. apply passes_settle. Qed.
End Pass.

(** ** Two passes

    A chain at block 12 with a job of this worker in block 3, served, and one
    in block 5 whose session is inactive in the first pass and, the retry limit
    being 2, given up on in the second. *)
#[local] Existing Instance plain_addresses.

Definition demo_cfg : config := NewJobWatcher "me" 4 4 2 2 100.
Definition demo_job (b j s : Z) : JobSubmittedEvent := MkJobSubmitted j s "me"%string b.
Definition demo_events (b : Z) : list JobSubmittedEvent :=
  if b =? 3 then [demo_job 3 30 7; MkJobSubmitted 31 7 "other"%string 3]
  else if b =? 5 then [demo_job 5 50 8] else [].

Lemma demo_at_block b ev : ev ∈ demo_events b -> jse_BlockNumber ev = b.
Proof.
  unfold demo_events. destruct (Z.eqb_spec b 3) as [->|]; [|destruct (Z.eqb_spec b 5) as [->|]]; intros Hin;
    set_unfold in Hin; destruct_or?; by subst.
Qed.

Definition demo_handler : handler WatchE (option Z) := fun X e cur =>
  match e in WatchE X return X * option Z with
  | Head => (Ok 12, cur)
  | GetOrSeed sh lb => match cur with
                       | Some v => (Ok (v, false), cur)
                       | None => (Ok (0, false), cur)
                       end
  | CursorSet b => (Ok tt, Some b)
  | FilterJobSubmitted lo hi => (Ok (events_in demo_events lo hi), cur)
  | CounterLoad => (0, cur)
  | GetSessionEncWorkerKey s => (if s =? 8 then Err (errors_New ErrSessionNotActive "session not active") else Ok [1], cur)
  | CanDecryptSessionKey _ => (true, cur)
  | GetJobBlobInfo j => (Ok (100 + j, 0, 3, 0), cur)
  | GetSessionInfo s => (Ok (MkSessionInfo "user"%string 255 "me"%string 0), cur)
  | UnixNow => (1700000000, cur)
  | Serve _ | LogRetryLater _ _ | LogGivingUp _ _ => (tt, cur)
  end.

Definition demo_pass (retries : gmap Z Z) (cur : option Z) :=
  interp demo_handler (runOnce demo_cfg 20 retries) cur.
Definition demo_retries : gmap Z Z := {[ 50 := 1 ]}.
Definition demo_trace1 : list (called WatchE) := Eval vm_compute in fst (fst (demo_pass ∅ (Some 2))).
Definition demo_trace2 : list (called WatchE) := Eval vm_compute in fst (fst (demo_pass demo_retries (Some 4))).

Lemma demo_run1 : runs (runOnce demo_cfg 20 ∅) demo_trace1 (Some (Ok tt), demo_retries).
Proof. apply (interp_runs demo_handler _ (Some 2) _ _ (Some 4)). vm_compute. reflexivity. Qed.

Lemma demo_run2 : runs (runOnce demo_cfg 20 demo_retries) demo_trace2 (Some (Ok tt), ∅).
Proof. apply (interp_runs demo_handler _ (Some 4) _ _ (Some 10)). vm_compute. reflexivity. Qed.

Lemma demo_observed1 : observed demo_events (Some 2) demo_trace1 (Some 4).
Proof. unfold demo_trace1. cbn [observed is_ok]. repeat split; vm_compute; reflexivity. Qed.

Lemma demo_observed2 : observed demo_events (Some 4) demo_trace2 (Some 10).
Proof. unfold demo_trace2. cbn [observed is_ok]. repeat split; vm_compute; reflexivity. Qed.

Lemma demo_heads_fit tr : heads tr = [Ok 12] -> forall n, Ok n ∈ heads tr -> head_fits demo_cfg 20 n.
Proof. intros -> n Hn. set_unfold in Hn. destruct_or?; simplify_eq. unfold head_fits, u64_max. simpl. lia. Qed.

Lemma job_pass_settles_witness :
  passed demo_cfg demo_events (Some 2) (Some 4) ∅ demo_trace1 (Some (Ok tt), demo_retries).
Proof.
  refine (job_pass_settles demo_cfg demo_events demo_at_block 20 ∅ demo_trace1 _ _ _ _ _
    demo_run1 demo_observed1 (demo_heads_fit demo_trace1 eq_refl) _); [reflexivity|simpl; lia|].
  intros c [= <-]. lia.
Defined.

Lemma no_job_is_skipped_witness :
  2 <= 10 /\ exists tr, tr ∈ [demo_trace1; demo_trace2] /\ settled demo_cfg (demo_job 5 50 8) tr.
Proof.
  destruct (no_job_is_skipped demo_cfg demo_events demo_at_block 2 ∅ [demo_trace1; demo_trace2] 10 ∅)
    as (Hle & Hset & _).
  - reflexivity.
  - simpl. lia.
  - simpl. lia.
  - refine (passes_cons _ _ 20 _ _ _ _ _ _ _ _ demo_run1 demo_observed1 (demo_heads_fit demo_trace1 eq_refl) _).
    refine (passes_cons _ _ 20 _ _ _ _ _ _ _ _ demo_run2 demo_observed2 (demo_heads_fit demo_trace2 eq_refl) _).
    constructor.
  - lia.
  - intros j k. rewrite lookup_empty. discriminate.
  - split; [exact Hle|]. apply (Hset 5); [lia| |reflexivity]. unfold demo_events. simpl. constructor.
Defined.
End JobWatcher.
