(* ===== verification/SessionWatcher.v ===== *)
(** The session intake of [internal/sortition/session_watcher.go]: one pass
    that looks behind the cursor, discovers session requests and evaluates the
    ones it holds, over every answer of the node and the cursor file. *)
From S2P Require Import Prelude Effects Chain ChainReads GoText Cursor Scan.

#[local] Open Scope prog_scope.

Section Calls.
Context `{!AddressOps}.

(** The calls of a pass; [GetOrSeed] and [CursorSet] are the cursor store's on
    the watcher's own cursor, [EligibleNow] is asked for this worker. *)
Inductive SessE : Type -> Type :=
  | Head : SessE (result Z)
  | GetOrSeed (safeHead lookback : Z) : SessE (result (Z * bool))
  | CursorSet (block : Z) : SessE (result unit)
  | FilterSessionRequested (fromBlock toBlock : Z) : SessE (result (list SessionRequestedEvent))
  | GetRequestInfo (reqID : Z) : SessE (result RequestInfo)
  | UnixNow : SessE Z
  | GetRequiredCapabilities (reqID : Z) : SessE (result Z)
  | CounterLoad : SessE Z
  | EligibleNow (reqID : Z) : SessE (result bool)
  | ClaimSession (reqID : Z) : SessE (result unit).
End Calls.

Module SessionWatcher.
Section Watcher.
Context `{!AddressOps}.

Definition reseedMaxAttempts : Z := 10.

(** The watcher's settings and what it keeps between passes; a pending request
    without a mask has not had its capabilities fetched. *)
Record config : Type := MkConfig {
  maxJobs : Z;
  chunk : Z;
  confs : Z;
  ownCaps : Z;
  lookback : Z;
}.

Record state : Type := MkState {
  seeded : bool;
  reseedTries : Z;
  pending : gmap Z (option Z);
}.

(** The defaults of [NewSessionWatcher], and its first state. *)
Definition NewSessionWatcher (MaxConcurrent ChunkSize Confirmations : Z) (OwnCapabilities : option Z)
    (LookbackBlocks : Z) : config :=
  MkConfig MaxConcurrent (if ChunkSize =? 0 then 5000 else ChunkSize) Confirmations
    (default 0 OwnCapabilities) LookbackBlocks.
Definition fresh_state : state := MkState false 0 ∅.

Context (cfg : config).

(** [w.pending[r.ReqID] = nil] for every event. *)
Definition add_pending (reqs : list SessionRequestedEvent) (p : gmap Z (option Z)) : gmap Z (option Z) :=
  foldl (fun p r => <[ReqID r := None]> p) p reqs.

(** The loop of [reseed]; what was added before an error stays. *)
Fixpoint reseed_loop (ranges : list (Z * Z)) (p : gmap Z (option Z))
    : prog SessE (result unit * gmap Z (option Z)) :=
  match ranges with
  | [] => Ret (Ok tt, p)
  | (from, to) :: ranges =>
      rf <- call (FilterSessionRequested from to) ;;
      match rf with
      | Err e => Ret (Err e, p)
      | Ok reqs => reseed_loop ranges (add_pending reqs p)
      end
  end.

(** [reseed]: the ranges it reads, if any. *)
Definition reseed_from (cursor : Z) : Z :=
  if lookback cfg <? cursor then cursor - lookback cfg + 1 else 1.
Definition reseed (fuel : nat) (cursor : Z) (p : gmap Z (option Z))
    : option (prog SessE (result unit * gmap Z (option Z))) :=
  if (lookback cfg =? 0) || (cursor =? 0) then Some (Ret (Ok tt, p))
  else (fun ranges => reseed_loop ranges p) <$> chunk_ranges fuel (chunk cfg) cursor (reseed_from cursor).

(** The discovery loop. *)
Fixpoint discover (ranges : list (Z * Z)) (p : gmap Z (option Z))
    : prog SessE (result unit * gmap Z (option Z)) :=
  match ranges with
  | [] => Ret (Ok tt, p)
  | (lo, hi) :: ranges =>
      rf <- call (FilterSessionRequested lo hi) ;;
      match rf with
      | Err e => Ret (Err e, p)
      | Ok reqs =>
          let p := add_pending reqs p in
          rs <- call (CursorSet hi) ;;
          match rs with
          | Err e => Ret (Err e, p)
          | Ok _ => discover ranges p
          end
      end
  end.

(** The mask of a pending request, fetched once; a failed read counts as no
    requirement and is not kept. *)
Definition required_mask (reqID : Z) (p : gmap Z (option Z)) : prog SessE (Z * gmap Z (option Z)) :=
  match p !! reqID with
  | Some (Some m) => Ret (m, p)
  | _ =>
      rc <- call (GetRequiredCapabilities reqID) ;;
      Ret match rc with
          | Ok m => (m, <[reqID := Some m]> p)
          | Err _ => (0, p)
          end
  end.

Definition covers (mask : Z) : bool := (mask =? 0) || (Z.land mask (ownCaps cfg) =? mask).

(** The body of the evaluation loop; [true] is its [break]. *)
Definition evaluate_one (reqID : Z) (p : gmap Z (option Z)) : prog SessE (bool * gmap Z (option Z)) :=
  ri <- call (GetRequestInfo reqID) ;;
  match ri with
  | Err _ => Ret (false, p)
  | Ok ri =>
      if negb (ri_Status ri =? 0) then Ret (false, delete reqID p)
      else
        now <- call UnixNow ;;
        if ri_Expiry ri <? u64_wrap now then Ret (false, delete reqID p)
        else
          mp <- required_mask reqID p ;;
          let '(mask, p) := mp in
          if negb (covers mask) then Ret (false, delete reqID p)
          else
            n <- call CounterLoad ;;
            if maxJobs cfg <=? n then Ret (true, p)
            else
              re <- call (EligibleNow reqID) ;;
              match re with
              | Err _ => Ret (false, p)
              | Ok ok =>
                  if ok : bool then
                    _ <- call (ClaimSession reqID) ;;
                    Ret (false, delete reqID p)
                  else Ret (false, p)
              end
  end.

(** The evaluation loop over the keys in the order the map iteration gives. *)
Fixpoint evaluate (ids : list Z) (p : gmap Z (option Z)) : prog SessE (gmap Z (option Z)) :=
  match ids with
  | [] => Ret p
  | reqID :: ids =>
      r <- evaluate_one reqID p ;;
      let '(brk, p) := r in
      if brk : bool then Ret p else evaluate ids p
  end.

Context (range : gmap Z (option Z) -> list Z).

(** Phase 0: what the flags and the pending set become. *)
Definition phase0 (fuel : nat) (cursor : Z) (w : state) : option (prog SessE state) :=
  if seeded w then Some (Ret w)
  else
    (fun r => rp <- r ;;
       Ret match rp with
           | (Ok _, p) => MkState true (reseedTries w) p
           | (Err _, p) => MkState (reseedMaxAttempts <=? reseedTries w + 1) (reseedTries w + 1) p
           end) <$> reseed fuel cursor (pending w).

(** [RunOnce]; [None] when a scan's fuel ran out. *)
Definition RunOnce (fuel : nat) (w : state) : prog SessE (option (result unit) * state) :=
  rh <- call Head ;;
  match rh with
  | Err e => Ret (Some (Err e), w)
  | Ok headNumber =>
      let safeHead := safe_head headNumber (confs cfg) in
      rc <- call (GetOrSeed safeHead (lookback cfg)) ;;
      match rc with
      | Err e => Ret (Some (Err e), w)
      | Ok (cursor, fresh) =>
          let w := if fresh : bool then MkState true (reseedTries w) (pending w) else w in
          match phase0 fuel cursor w,
                (if cursor <? safeHead then chunk_ranges fuel (chunk cfg) safeHead (u64_wrap (cursor + 1)) else Some []) with
          | Some phase0, Some ranges =>
              w <- phase0 ;;
              rd <- discover ranges (pending w) ;;
              match rd with
              | (Err e, p) => Ret (Some (Err e), MkState (seeded w) (reseedTries w) p)
              | (Ok _, p) =>
                  p <- evaluate (range p) p ;;
                  Ret (Some (Ok tt), MkState (seeded w) (reseedTries w) p)
              end
          | _, _ => Ret (None, w)
          end
      end
  end.
End Watcher.

(** ** What a pass did *)

Section Traces.
Context `{!AddressOps}.
#[local] Abbreviation trace := (list (called SessE)).

Definition heads : trace -> list (result Z) :=
  answered (fun Y e => match e in SessE Y return Y -> list (result Z) with Head => fun r => [r] | _ => fun _ => [] end).
Definition infos : trace -> list (Z * result RequestInfo) :=
  answered (fun Y e => match e in SessE Y return Y -> list (Z * result RequestInfo) with
                       | GetRequestInfo i => fun r => [(i, r)] | _ => fun _ => [] end).
Definition clocks : trace -> list Z :=
  answered (fun Y e => match e in SessE Y return Y -> list Z with UnixNow => fun t => [t] | _ => fun _ => [] end).
Definition masks : trace -> list (Z * result Z) :=
  answered (fun Y e => match e in SessE Y return Y -> list (Z * result Z) with
                       | GetRequiredCapabilities i => fun r => [(i, r)] | _ => fun _ => [] end).
Definition loads : trace -> list Z :=
  answered (fun Y e => match e in SessE Y return Y -> list Z with CounterLoad => fun n => [n] | _ => fun _ => [] end).
Definition eligibles : trace -> list (Z * result bool) :=
  answered (fun Y e => match e in SessE Y return Y -> list (Z * result bool) with
                       | EligibleNow i => fun r => [(i, r)] | _ => fun _ => [] end).
Definition claims : trace -> list Z :=
  answered (fun Y e _ => match e with ClaimSession i => [i] | _ => [] end).

(** As in [JobWatcher]: the cursor store and a node with fixed events. *)
Fixpoint observed (events_at : Z -> list SessionRequestedEvent) (s : option Z) (tr : trace) (s' : option Z) : Prop :=
  match tr with
  | [] => s' = s
  | Called e x :: tr' =>
      match e in SessE X return X -> Prop with
      | GetOrSeed sh lb => fun r =>
          match r with
          | Err _ => observed events_at s tr' s'
          | Ok (c, fresh) =>
              match s with
              | Some v => c = v /\ fresh = false /\ observed events_at s tr' s'
              | None => if sh <=? lb then c = 0 /\ fresh = false /\ observed events_at s tr' s'
                        else c = sh - lb /\ fresh = true /\ observed events_at (Some c) tr' s'
              end
          end
      | CursorSet b => fun r => observed events_at (if is_ok r then Some b else s) tr' s'
      | FilterSessionRequested lo hi => fun r =>
          match r with Ok evts => evts = events_in events_at lo hi | Err _ => True end /\
          observed events_at s tr' s'
      | _ => fun _ => observed events_at s tr' s'
      end x
  end.

Lemma sess_observed_app events_at s tr tr' s' :
  observed events_at s (tr ++ tr') s' <->
  exists s1, observed events_at s tr s1 /\ observed events_at s1 tr' s'.
Proof.
  revert s. induction tr as [|[X e x] tr IH]; intros s; simpl; [by split; [intros; exists s|intros (? & -> & ?)]|].
  destruct e; simpl; try apply IH.
  - destruct x as [[c f]|e]; [|apply IH]. destruct s as [v|]; [|destruct (_ <=? _)]; rewrite IH; firstorder.
  - rewrite IH. firstorder.
Qed.
End Traces.

Section Pass.
Context `{!AddressOps} (cfg : config).
#[local] Abbreviation trace := (list (called SessE)).
#[local] Abbreviation requests := (gmap Z (option Z)).

(** Why a request left the pending set. *)
Definition dropped (id : Z) (tr : trace) : Prop :=
  (exists ri, (id, Ok ri) ∈ infos tr /\ (ri_Status ri <> 0 \/ exists t, t ∈ clocks tr /\ ri_Expiry ri < u64_wrap t)) \/
  (exists m, (id, Ok m) ∈ masks tr /\ covers cfg m = false) \/
  id ∈ claims tr.

(** What a claim was based on; the mask may be one kept from an earlier pass. *)
Definition justified (p : requests) (id : Z) (tr : trace) : Prop :=
  (exists ri t, (id, Ok ri) ∈ infos tr /\ ri_Status ri = 0 /\ t ∈ clocks tr /\ u64_wrap t <= ri_Expiry ri) /\
  (exists n, n ∈ loads tr /\ n < maxJobs cfg) /\ (id, Ok true) ∈ eligibles tr /\
  ((exists m, ((id, Ok m) ∈ masks tr \/ p !! id = Some (Some m)) /\ covers cfg m = true) \/
   (exists e, (id, Err e) ∈ masks tr)).

Lemma dropped_app id tr tr' : dropped id tr \/ dropped id tr' -> dropped id (tr ++ tr').
Proof.
  unfold dropped, infos, clocks, masks, claims. rewrite !answered_app. setoid_rewrite elem_of_app.
  intros [[(ri & ? & [?|(t & ? & ?)])|[(m & ? & ?)|?]]|[(ri & ? & [?|(t & ? & ?)])|[(m & ? & ?)|?]]]; naive_solver.
Qed.

Lemma justified_app p id tr tr' : justified p id tr \/ justified p id tr' -> justified p id (tr ++ tr').
Proof.
  unfold justified, infos, clocks, masks, loads, eligibles. rewrite !answered_app. setoid_rewrite elem_of_app.
  intros [((ri & t & ? & ? & ? & ?) & (n & ? & ?) & ? & Hm)|((ri & t & ? & ? & ? & ?) & (n & ? & ?) & ? & Hm)];
    (split; [exists ri, t; tauto|split; [exists n; tauto|split; [tauto|]]]); naive_solver.
Qed.

(** Every mask kept is one this worker covers. *)
Definition masks_ok (p : requests) : Prop := forall id m, p !! id = Some (Some m) -> covers cfg m = true.

Lemma masks_ok_delete p id : masks_ok p -> masks_ok (delete id p).
Proof. intros Hp j m [_ ?]%lookup_delete_Some. by eapply Hp. Qed.

Lemma masks_ok_insert p id m : masks_ok p -> covers cfg m = true -> masks_ok (<[id := Some m]> p).
Proof. intros Hp Hm j m'. rewrite lookup_insert. case_decide; [by intros [= <-]|apply Hp]. Qed.

Record one_post (id : Z) (p : requests) (tr : trace) (r : bool * requests) : Prop := {
  op_masks : masks_ok p -> masks_ok (snd r);
  op_others : forall j, j <> id -> snd r !! j = p !! j;
  op_kept : masks_ok p -> is_Some (p !! id) -> is_Some (snd r !! id) \/ dropped id tr;
  op_claims : masks_ok p -> claims tr = [] \/ claims tr = [id] /\ justified p id tr /\ snd r !! id = None;
  op_source : forall j m, snd r !! j = Some (Some m) -> p !! j = Some (Some m) \/ (j, Ok m) ∈ masks tr;
  op_quiet : forall events_at s s', observed events_at s tr s' -> s' = s;
}.

(** Find the calls that prove an outcome. *)
Ltac because_dropped :=
  first [ left; eexists; (split; [constructor|first [left; done | right; eexists; split; [constructor|lia]]])
        | right; left; eexists; split; [constructor|done]
        | right; right; constructor ].
Ltac because_justified :=
  split; [eexists _, _; split_and!; [constructor|lia|constructor|lia]|];
  split; [eexists; split; [constructor|lia]|]; split; [constructor|];
  first [ left; eexists; split; [left; solve [constructor]|done]
        | left; eexists; split; [right; done|done]
        | right; eexists; constructor ].

Lemma evaluate_one_always id p : always (evaluate_one cfg id p) (one_post id p).
Proof.
  unfold evaluate_one, required_mask. destruct (p !! id) as [[m|]|] eqn:Ep.
  all: walk; destruct_units; reflect_Z; split; cbn [fst snd]; try done.
  all: try (intros j Hj; simplify_map_eq; done).
  all: unfold dropped, justified;
    cbv beta delta [heads infos clocks masks loads eligibles claims answered]; cbn [flat_map app fst snd].
  all: try (intros j mj Hj; first [by left | by apply lookup_delete_Some in Hj as [_ Hj]; left
         | rewrite ?delete_insert_eq, ?lookup_delete, ?lookup_insert in Hj; case_decide; simplify_eq;
           first [by left | right; constructor]]).
  all: intros Hmo; try (intros Hin).
  all: try (rewrite ?delete_insert_eq; first [by apply masks_ok_delete | by apply masks_ok_insert]).
  all: try (left; first [done | rewrite lookup_insert_eq; by eexists]).
  all: try (exfalso; pose proof (Hmo _ _ Ep); congruence).
  all: right; first [because_dropped | split; [done|split; [because_justified|by rewrite lookup_delete_eq]]].
Qed.

(** The evaluation loop. *)
Record evaluate_post (ids : list Z) (p : requests) (tr : trace) (p' : requests) : Prop := {
  ev_masks : masks_ok p -> masks_ok p';
  ev_kept : forall id, masks_ok p -> is_Some (p !! id) -> is_Some (p' !! id) \/ dropped id tr;
  ev_others : forall id, id ∉ ids -> p' !! id = p !! id;
  ev_claims : NoDup ids -> masks_ok p -> NoDup (claims tr) /\
    forall id, id ∈ claims tr -> id ∈ ids /\ justified p id tr /\ p' !! id = None;
  ev_source : forall j m, p' !! j = Some (Some m) -> p !! j = Some (Some m) \/ (j, Ok m) ∈ masks tr;
  ev_quiet : forall events_at s s', observed events_at s tr s' -> s' = s;
}.

Lemma justified_same_mask p p' id tr : p !! id = p' !! id -> justified p id tr -> justified p' id tr.
Proof. unfold justified. by intros ->. Qed.

Lemma evaluate_always ids p : always (evaluate cfg ids p) (evaluate_post ids p).
Proof.
  revert p. induction ids as [|id ids IH]; intros p.
  - split; [done|by left|done| |by left|by intros events_at s s' ->]. intros _ _. split; [constructor|intros id []%not_elem_of_nil].
  - cbn [evaluate]. apply always_bind. eapply always_mono; [apply evaluate_one_always|].
    intros tr [brk p1] [Hm Ho Hk Hc Hs Hq]; cbn [fst snd] in *.
    destruct brk.
    + cbn [always]. rewrite app_nil_r. split; [done| | | |done|done].
      * intros j Hmo Hj. destruct (decide (j = id)) as [->|Hne]; [by apply Hk|left; by rewrite Ho].
      * intros j Hj. apply Ho. set_solver.
      * intros Hnd Hmo. destruct (Hc Hmo) as [->|(-> & Hju & Hn)]; [split; [constructor|intros j []%not_elem_of_nil]|].
        split; [apply NoDup_singleton|]. intros j ->%list_elem_of_singleton. split; [by left|done].
    + eapply always_mono; [apply IH|]. intros tr' p' [Hm' Hk' Ho' Hc' Hs' Hq']. split; [auto| | | | |].
      * intros j Hmo Hj. destruct (decide (j = id)) as [->|Hne].
        -- destruct (Hk Hmo Hj) as [Hj1|Hd]; [|right; apply dropped_app; by left].
           destruct (Hk' id (Hm Hmo) Hj1) as [?|?]; [by left|right; apply dropped_app; by right].
        -- rewrite <- Ho in Hj by done. destruct (Hk' j (Hm Hmo) Hj) as [?|?]; [by left|right; apply dropped_app; by right].
      * intros j [Hj1 Hj2]%not_elem_of_cons. by rewrite Ho', Ho.
      * intros [Hni Hnd]%NoDup_cons Hmo. destruct (Hc' Hnd (Hm Hmo)) as [Hnd' Hcl].
        unfold claims in *. rewrite answered_app. split.
        -- apply NoDup_app. split; [|split; [|done]].
           ++ destruct (Hc Hmo) as [->|(-> & _)]; [constructor|apply NoDup_singleton].
           ++ intros j Hj Hj'. destruct (Hcl _ Hj') as [Hin _].
              destruct (Hc Hmo) as [E|(E & _)]; rewrite E in Hj; [by apply not_elem_of_nil in Hj|].
              apply list_elem_of_singleton in Hj as ->. done.
        -- intros j [Hj|Hj]%elem_of_app.
           ++ destruct (Hc Hmo) as [E|(E & Hju & Hn)]; rewrite E in Hj; [by apply not_elem_of_nil in Hj|].
              apply list_elem_of_singleton in Hj as ->. split; [by left|]. split; [by apply justified_app; left|].
              by rewrite Ho'.
           ++ destruct (Hcl _ Hj) as (Hin & Hju & Hn). split; [by right|]. split; [|done].
              apply justified_app. right. eapply justified_same_mask; [|done]. apply Ho. by intros ->.
      * intros j m Hj. unfold masks. rewrite answered_app, elem_of_app.
        destruct (Hs' _ _ Hj) as [Hj1|?]; [|by right; right]. destruct (Hs _ _ Hj1); [by left|by right; left].
      * intros events_at s s' (s1 & H1 & H2)%sess_observed_app. by rewrite (Hq' _ _ _ H2), (Hq _ _ _ H1).
Qed.

(** ** The scans *)

Context (events_at : Z -> list SessionRequestedEvent).

Definition pos (s : option Z) : Z := default 0 s.

Lemma add_pending_keys reqs p id :
  is_Some (add_pending reqs p !! id) <-> is_Some (p !! id) \/ exists r, r ∈ reqs /\ ReqID r = id.
Proof.
  unfold add_pending. revert p. induction reqs as [|r reqs IH]; intros p; simpl.
  - split; [by left|intros [?|(? & []%not_elem_of_nil & _)]; done].
  - rewrite IH, lookup_insert_is_Some. setoid_rewrite elem_of_cons.
    destruct (decide (ReqID r = id)); naive_solver.
Qed.

Lemma add_pending_masks reqs p id m :
  add_pending reqs p !! id = Some (Some m) -> p !! id = Some (Some m).
Proof.
  unfold add_pending. revert p. induction reqs as [|r reqs IH]; intros p; simpl; [done|].
  intros Hl%IH. rewrite lookup_insert in Hl. by case_decide.
Qed.

(** What a scan does to the pending set: requests are only added. *)
Record grows (p : requests) (tr : trace) (p' : requests) : Prop := {
  gr_keys : forall id, is_Some (p !! id) -> is_Some (p' !! id);
  gr_masks : forall id m, p' !! id = Some (Some m) -> p !! id = Some (Some m);
  gr_claims : claims tr = [];
}.

Lemma grows_refl p tr : claims tr = [] -> grows p tr p.
Proof. by split. Qed.

Lemma grows_trans p tr p1 tr' p' : grows p tr p1 -> grows p1 tr' p' -> grows p (tr ++ tr') p'.
Proof.
  intros [Hk Hm Hc] [Hk' Hm' Hc']. split; [auto|auto|].
  unfold claims in *. by rewrite answered_app, Hc, Hc'.
Qed.

Lemma grows_add p reqs tr : claims tr = [] -> grows p tr (add_pending reqs p).
Proof.
  intros. split; [|apply add_pending_masks|done]. intros id Hid. apply add_pending_keys. by left.
Qed.

Definition covered (lo hi : Z) (p : requests) : Prop :=
  forall b ev, lo <= b <= hi -> ev ∈ events_at b -> is_Some (p !! ReqID ev).

Lemma covered_add lo hi p : covered lo hi (add_pending (events_in events_at lo hi) p).
Proof.
  intros b ev Hb Hin. apply add_pending_keys. right. exists ev. split; [|done]. apply elem_of_events_in. by exists b.
Qed.

Record reseed_post (lo last : Z) (p : requests) (tr : trace) (r : result unit * requests) : Prop := {
  rs_grows : grows p tr (snd r);
  rs_covered : forall s s', observed events_at s tr s' -> s' = s /\ (is_ok (fst r) = true -> covered lo last (snd r));
}.

Lemma reseed_loop_always last lo ranges p : tiled last lo ranges ->
  always (reseed_loop ranges p) (reseed_post lo last p).
Proof.
  intros Ht. revert p. induction Ht as [lo Hlast|lo hi ranges Hr Ht IH]; intros p.
  - split; [by apply grows_refl|]. intros s s' ->. split; [done|]. intros _ b ev Hb. lia.
  - cbn [reseed_loop always bind call]. intros [reqs|e].
    2:{ split; [by apply grows_refl|]. intros s s' [_ ->]. done. }
    eapply always_mono; [apply IH|]. intros tr r [Hg Hc]. split.
    + by apply (grows_trans p [_] (add_pending reqs p)); [apply grows_add|].
    + intros s s' [-> Ho]. destruct (Hc _ _ Ho) as [-> Hcov]. split; [done|]. intros Hok b ev Hb Hin.
      destruct (decide (b <= hi)); [|eapply (Hcov Hok b); [lia|done]].
      apply (gr_keys _ _ _ Hg). eapply (covered_add lo hi p b); [lia|done].
Qed.

(** A scan of [start+1..last] that moves the cursor. *)
Definition discovered (start last : Z) (s s' : option Z) (p' : requests) (r : result unit) : Prop :=
  start <= pos s' <= Z.max start last /\ (s <> None -> s' <> None) /\ covered (start + 1) (pos s') p' /\
  (r = Ok tt -> pos s' = Z.max start last).

Record discover_post (start last : Z) (p : requests) (tr : trace) (r : result unit * requests) : Prop := {
  di_grows : grows p tr (snd r);
  di_scanned : forall s s', observed events_at s tr s' -> pos s = start -> discovered start last s s' (snd r) (fst r);
}.

Lemma discovered_idle start last s p e : pos s = start -> discovered start last s s p (Err e).
Proof. intros <-. split; [lia|]. split; [done|]. split; [intros b ev Hb; lia|done]. Qed.

Lemma discover_always last lo ranges p : tiled last lo ranges ->
  always (discover ranges p) (discover_post (lo - 1) last p).
Proof.
  intros Ht. revert p. induction Ht as [lo Hlast|lo hi ranges Hr Ht IH]; intros p.
  - split; [by apply grows_refl|]. intros s s' -> Hs. split; [lia|]. split; [done|]. split; [|intros _; lia].
    intros b ev Hb. lia.
  - cbn [discover always bind call]. intros [reqs|e].
    2:{ split; [by apply grows_refl|]. intros s s' [_ ->] Hs. by apply discovered_idle. }
    cbn [always bind call]. intros [[]|e].
    2:{ split; [by apply grows_add|]. intros s s' [_ ->] Hs. by apply discovered_idle. }
    eapply always_mono; [apply IH|]. intros tr r [Hg Hsc]. split.
    + by apply (grows_trans p [_; _] (add_pending reqs p)); [apply grows_add|].
    + intros s s' [-> Ho] Hs. cbn [observed is_ok] in Ho.
      destruct (Hsc _ _ Ho) as (Hb & Hne & Hcov & Hok); [simpl; lia|].
      replace (hi + 1 - 1) with hi in * by lia. split; [lia|]. split; [by intros _; apply Hne|]. split; [|intros E; rewrite (Hok E); lia].
      intros b ev Hbr Hin. destruct (decide (b <= hi)); [|eapply (Hcov b); [lia|done]].
      apply (gr_keys _ _ _ Hg). eapply (covered_add lo hi p b); [lia|done].
Qed.

(** ** A pass *)

Definition head_fits (fuel : nat) (n : Z) : Prop :=
  0 <= n /\ n + chunk cfg <= u64_max /\ n < Z.of_nat fuel.

(** The first pass's look-back: done, with everything behind the cursor in the
    pending set, or failed and counted. *)
Definition reseeded (cursor : Z) (w w' : state) : Prop :=
  if seeded w then seeded w' = true /\ reseedTries w' = reseedTries w
  else (seeded w' = true /\ reseedTries w' = reseedTries w /\
          (lookback cfg <> 0 -> covered (reseed_from cfg cursor) cursor (pending w'))) \/
       (reseedTries w' = reseedTries w + 1 /\ seeded w' = (reseedMaxAttempts <=? reseedTries w + 1)).

Record phase0_post (cursor : Z) (w : state) (tr : trace) (w' : state) : Prop := {
  ph_grows : grows (pending w) tr (pending w');
  ph_reseeded : forall s s', observed events_at s tr s' -> s' = s /\ reseeded cursor w w';
}.

Lemma reseed_from_bounds cursor : 0 < cursor -> 0 <= lookback cfg -> 1 <= reseed_from cfg cursor.
Proof. unfold reseed_from. intros. destruct (Z.ltb_spec (lookback cfg) cursor); lia. Qed.

Lemma phase0_always fuel cursor w :
  0 < chunk cfg -> 0 <= lookback cfg -> head_fits fuel cursor ->
  exists p0, phase0 cfg fuel cursor w = Some p0 /\ always p0 (phase0_post cursor w).
Proof.
  intros Hc Hl (Hn & Hm & Hf). unfold phase0, reseed. destruct (seeded w) eqn:Es.
  { eexists. split; [done|]. split; [by apply grows_refl|]. intros s s' ->. split; [done|]. unfold reseeded. by rewrite Es. }
  destruct ((lookback cfg =? 0) || (cursor =? 0)) eqn:Ez.
  { eexists. split; [done|]. split; [by apply grows_refl|]. intros s s' ->. split; [done|]. unfold reseeded. rewrite Es.
    left. split; [done|]. split; [done|]. intros Hl0. reflect_Z; [done|]. subst. intros b ev Hb.
    assert (reseed_from cfg 0 = 1) as E by (unfold reseed_from; destruct (Z.ltb_spec (lookback cfg) 0); lia). lia. }
  reflect_Z. destruct (chunk_ranges_tiled fuel (chunk cfg) cursor (reseed_from cfg cursor)) as (ranges & -> & Ht);
    [done|pose proof (reseed_from_bounds cursor); lia|done|pose proof (reseed_from_bounds cursor); lia|].
  eexists. split; [done|]. apply always_bind. eapply always_mono; [by apply reseed_loop_always|].
  intros tr [[[]|e] p'] [Hg Hco]; cbn [always fst snd] in *; rewrite app_nil_r; (split; [done|]); intros s s' Ho;
    destruct (Hco _ _ Ho) as [-> Hcov]; (split; [done|]); unfold reseeded; rewrite Es; [left|right; done].
  split; [done|]. split; [done|]. intros _. by apply Hcov.
Qed.

Definition starts (s : option Z) (tr : trace) (start : Z) : Prop :=
  match s with
  | Some c => start = c
  | None => start = 0 \/ exists n, Ok n ∈ heads tr /\ start = safe_head n (confs cfg) - lookback cfg
  end.

Definition held (w : state) (tr : trace) (id : Z) : Prop := is_Some (pending w !! id) \/ dropped id tr.

Record passed (s s' : option Z) (w : state) (tr : trace) (ro : option (result unit) * state) : Prop := {
  pd_returns : is_Some (fst ro);
  pd_scan : exists start, starts s tr start /\ start <= pos s' /\ (s <> None -> s' <> None) /\
    (forall b ev, start < b <= pos s' -> ev ∈ events_at b -> held (snd ro) tr (ReqID ev)) /\
    (fst ro = Some (Ok tt) -> exists n, Ok n ∈ heads tr /\ pos s' = Z.max start (safe_head n (confs cfg))) /\
    (seeded w = false -> seeded (snd ro) = true -> reseedTries (snd ro) < reseedMaxAttempts -> s <> None ->
       lookback cfg <> 0 -> forall b ev, reseed_from cfg start <= b <= start -> ev ∈ events_at b -> held (snd ro) tr (ReqID ev));
  pd_kept : forall id, is_Some (pending w !! id) -> held (snd ro) tr id;
  pd_masks : masks_ok (pending (snd ro)) /\
    forall id m, pending (snd ro) !! id = Some (Some m) -> pending w !! id = Some (Some m) \/ (id, Ok m) ∈ masks tr;
  pd_claims : NoDup (claims tr) /\
    forall id, id ∈ claims tr -> justified (pending w) id tr /\ pending (snd ro) !! id = None;
}.

Definition pass_post (fuel : nat) (w : state) (tr : trace) (ro : option (result unit) * state) : Prop :=
  (forall n, Ok n ∈ heads tr -> head_fits fuel n) ->
  forall s s', observed events_at s tr s' -> (forall c, s = Some c -> head_fits fuel c) ->
  masks_ok (pending w) -> passed s s' w tr ro.

Lemma held_kept (w : state) (tr : trace) id : is_Some (pending w !! id) -> held w tr id.
Proof. by left. Qed.

Lemma sess_passed_idle s w tr e : claims tr = [] -> masks_ok (pending w) -> passed s s w tr (Some (Err e), w).
Proof.
  intros Hc Hm. split; cbn [fst snd].
  - by eexists.
  - exists (pos s). split; [by destruct s; [|left]|]. split; [lia|]. split; [done|]. split; [intros; lia|].
    split; [done|]. by intros ->.
  - intros id. apply held_kept.
  - split; [done|by left].
  - rewrite Hc. split; [constructor|intros id []%not_elem_of_nil].
Qed.

Context (range : requests -> list Z).
Hypothesis range_keys : forall p, range p ≡ₚ (map_to_list p).*1.

Lemma range_NoDup p : NoDup (range p).
Proof. rewrite range_keys. apply NoDup_fst_map_to_list. Qed.

(** The two phases after the reseed, from the state [w1] it left. *)
Lemma scan_always fuel cursor last ranges w1 :
  head_fits fuel cursor -> tiled last (cursor + 1) ranges ->
  always (rd <- discover ranges (pending w1) ;;
          match rd with
          | (Err e, p) => Ret (Some (Err e), MkState (seeded w1) (reseedTries w1) p)
          | (Ok _, p) =>
              p <- evaluate cfg (range p) p ;;
              Ret (Some (Ok tt), MkState (seeded w1) (reseedTries w1) p)
          end)
    (fun tr ro => exists tr1 tr2 r p1, tr = tr1 ++ tr2 /\ fst ro = Some r /\
       seeded (snd ro) = seeded w1 /\ reseedTries (snd ro) = reseedTries w1 /\
       discover_post cursor last (pending w1) tr1 (r, p1) /\
       (if is_ok r then evaluate_post (range p1) p1 tr2 (pending (snd ro)) else tr2 = [] /\ pending (snd ro) = p1)).
Proof.
  intros (Hn & _) Ht. apply always_bind. eapply always_mono; [by apply (discover_always last (cursor + 1))|].
  replace (cursor + 1 - 1) with cursor by lia. intros tr1 [[[]|e] p1] Hd.
  - apply always_bind. eapply always_mono; [apply evaluate_always|]. intros tr2 p2 He. cbn [always].
    exists tr1, tr2, (Ok tt), p1. rewrite app_nil_r. done.
  - cbn [always]. exists tr1, [], (Err e), p1. done.
Qed.

(** The phases put together. *)
Lemma passed_intro s s0 s' w w1 w2 cursor last tr0 tr1 tr2 r p1 pre :
  grows (pending w) tr0 (pending w1) -> discover_post cursor last (pending w1) tr1 (r, p1) ->
  (if is_ok r then evaluate_post (range p1) p1 tr2 (pending w2) else tr2 = [] /\ pending w2 = p1) ->
  claims pre = [] -> masks_ok (pending w) -> starts s (pre ++ tr0 ++ tr1 ++ tr2) cursor ->
  pos s0 = cursor -> (s <> None -> s0 <> None) ->
  (exists s1, observed events_at s0 tr1 s1 /\ observed events_at s1 tr2 s') ->
  (seeded w = false -> seeded w2 = true -> reseedTries w2 < reseedMaxAttempts -> s <> None ->
     lookback cfg <> 0 -> covered (reseed_from cfg cursor) cursor (pending w1)) ->
  (exists n, Ok n ∈ heads (pre ++ tr0 ++ tr1 ++ tr2) /\ Z.max cursor last = Z.max cursor (safe_head n (confs cfg))) ->
  passed s s' w (pre ++ tr0 ++ tr1 ++ tr2) (Some r, w2).
Proof.
  intros [Gk Gm Gc] [[Dk Dm Dc] Hd] He Hpre Hmo Hst Hs0 Hne (s1 & Ho1 & Ho2) Hre (n & Hh & Hlast).
  assert (masks_ok p1) as Hmo1 by (intros id m Hl; cbn in Dm; eapply Hmo, Gm, Dm, Hl).
  assert (s' = s1) as ->.
  { destruct (is_ok r); [by apply (ev_quiet _ _ _ _ He) in Ho2|destruct He as [-> _]; done]. }
  assert (forall id, is_Some (p1 !! id) -> held w2 (pre ++ tr0 ++ tr1 ++ tr2) id) as Hheld.
  { intros id Hid. destruct (is_ok r); [|destruct He as [_ E]; left; by rewrite E].
    destruct (ev_kept _ _ _ _ He id Hmo1 Hid) as [?|?]; [by left|right]. by do 3 (apply dropped_app; right). }
  destruct (Hd _ _ Ho1 Hs0) as (Hb & Hne1 & Hcov & Hok).
  split; cbn [fst snd].
  - by eexists.
  - exists cursor. split; [done|]. split; [lia|]. split; [auto|]. split; [|split].
    + intros b ev Hbr Hin. apply Hheld. eapply (Hcov b); [lia|done].
    + intros [= ->]. exists n. split; [done|]. rewrite <- Hlast. by apply Hok.
    + intros Hs1 Hs2 Hs3 Hs4 Hs5 b ev Hbr Hin. apply Hheld, Dk. by eapply (Hre Hs1 Hs2 Hs3 Hs4 Hs5 b).
  - intros id Hid. by apply Hheld, Dk, Gk.
  - split.
    + destruct (is_ok r); [by apply (ev_masks _ _ _ _ He)|destruct He as [_ ->]; done].
    + intros id m Hl. unfold masks. rewrite !answered_app, !elem_of_app. destruct (is_ok r).
      * destruct (ev_source _ _ _ _ He _ _ Hl) as [Hl1|?]; [left; by eapply Gm, Dm|by do 4 right].
      * destruct He as [_ E]. rewrite E in Hl. left. by eapply Gm, Dm.
  - unfold claims in *. rewrite !answered_app, Hpre, Gc, Dc. simpl. destruct (is_ok r).
    + destruct (ev_claims _ _ _ _ He (range_NoDup p1) Hmo1) as [Hnd Hcl]. split; [done|].
      intros id Hid. destruct (Hcl _ Hid) as (_ & Hju & Hnone). split; [|done].
      do 3 (apply justified_app; right). destruct Hju as (H1 & H2 & H3 & [(m & [Hm|Hm] & Hcv)|Herr]).
      * split; [done|]. split; [done|]. split; [done|]. left. exists m. tauto.
      * split; [done|]. split; [done|]. split; [done|]. left. exists m. split; [right; by eapply Gm, Dm|done].
      * split; [done|]. split; [done|]. split; [done|]. by right.
    + destruct He as [-> _]. simpl. split; [constructor|intros id []%not_elem_of_nil].
Qed.

Lemma sess_observed_start s n cursor fresh tr s' :
  observed events_at s (Called Head (Ok n) ::
    Called (GetOrSeed (safe_head n (confs cfg)) (lookback cfg)) (Ok (cursor, fresh)) :: tr) s' ->
  exists s1, pos s1 = cursor /\ (s <> None -> s1 <> None /\ s1 = s /\ fresh = false) /\ observed events_at s1 tr s' /\
    forall tr', Ok n ∈ heads tr' -> starts s tr' cursor.
Proof.
  cbn [observed]. destruct s as [c|]; [intros (-> & -> & Ho); by exists (Some c)|].
  destruct (safe_head n (confs cfg) <=? lookback cfg).
  - intros (-> & -> & Ho). exists None. split_and!; [done|done|done|]. by left.
  - intros (-> & -> & Ho). eexists (Some _). split_and!; [done|done|done|]. intros tr' Hh. right. by exists n.
Qed.

Lemma RunOnce_always fuel w : 0 < chunk cfg -> 0 <= confs cfg -> 0 <= lookback cfg ->
  always (RunOnce cfg range fuel w) (pass_post fuel w).
Proof.
  intros Hchunk Hconfs Hlb. unfold RunOnce. cbn [always bind call]. intros [n|e].
  2:{ cbn [always]. intros _ s s' -> _ Hm. by apply sess_passed_idle. }
  cbn [always bind call]. intros [[cursor fresh]|e].
  2:{ cbn [always]. intros _ s s' Ho _ Hm. simpl in Ho. subst. by apply sess_passed_idle. }
  set (sh := safe_head n (confs cfg)). set (w0 := if fresh then _ else _).
  destruct (decide (head_fits fuel n /\ head_fits fuel cursor)) as [[Hn Hc]|Hno].
  2:{ apply always_intro. intros tr r _ Hh s s' Ho Hs _. destruct Hno.
      assert (head_fits fuel n) as Hn by (apply Hh; cbn; constructor). split; [done|].
      cbn [observed] in Ho. destruct s as [c|]; [destruct Ho as (-> & _); by apply Hs|].
      destruct Hn as (Hn1 & Hn2 & Hn3).
      assert (0 <= sh <= n) by (unfold sh, safe_head; destruct (Z.ltb_spec (confs cfg) n); lia).
      destruct (Z.leb_spec sh (lookback cfg)); destruct Ho as [-> _]; unfold head_fits; lia. }
  destruct Hn as (Hn1 & Hn2 & Hn3).
  assert (0 <= sh <= n) as Hsh by (unfold sh, safe_head; destruct (Z.ltb_spec (confs cfg) n); lia).
  destruct (phase0_always fuel cursor w0 Hchunk Hlb Hc) as (p0 & -> & Hp0).
  assert (exists ranges, (if cursor <? sh then chunk_ranges fuel (chunk cfg) sh (u64_wrap (cursor + 1)) else Some []) = Some ranges /\
            tiled (Z.max cursor sh) (cursor + 1) ranges) as (ranges & -> & Ht).
  { destruct (Z.ltb_spec cursor sh); [|eexists; split; [done|constructor; lia]].
    rewrite u64_wrap_id by (unfold is_u64; destruct Hc; lia).
    destruct (chunk_ranges_tiled fuel (chunk cfg) sh (cursor + 1)) as (ranges & -> & Ht); [destruct Hc; lia..|].
    eexists. split; [done|]. by rewrite Z.max_r by lia. }
  apply always_bind. eapply always_mono; [exact Hp0|]. intros tr0 w1 [Hg Hre].
  eapply always_mono; [by apply (scan_always fuel cursor)|].
  intros tr [ro w2] (tr1 & tr2 & r & p1 & -> & Hro & Hse & Htr & Hd & He). cbn [fst snd] in *. subst ro.
  intros _ s s' Ho Hs Hm. apply sess_observed_start in Ho as (s1 & Hp & Hne & Ho & Hst).
  apply sess_observed_app in Ho as (s2 & Ho0 & Ho). destruct (Hre _ _ Ho0) as [-> Hrs].
  apply sess_observed_app in Ho as (s3 & Ho1 & Ho2).
  assert (Ok n ∈ heads ([Called Head (Ok n); Called (GetOrSeed sh (lookback cfg)) (Ok (cursor, fresh))] ++ tr0 ++ tr1 ++ tr2))
    as Hh by (cbn; constructor).
  assert (pending w0 = pending w) as Ew by (unfold w0; by destruct fresh). rewrite Ew in Hg.
  eapply (passed_intro s s1 s' w w1 w2 cursor (Z.max cursor sh) tr0 tr1 tr2 r p1 [_; _]); try done.
  - by apply Hst.
  - by intros [? _]%Hne.
  - by exists s3.
  - intros Hs1 Hs2 Hs3 Hs4 Hs5. destruct (Hne Hs4) as (_ & -> & ->). unfold w0, reseeded in Hrs. rewrite Hs1 in Hrs.
    destruct Hrs as [(_ & _ & Hcov)|[E1 E2]]; [by apply Hcov|]. rewrite Hse, E2 in Hs2. reflect_Z. lia.
  - exists n. split; [done|]. fold sh. lia.
Qed.

(** A pass of the session watcher, whatever the node and the cursor file
    answer, returns; its cursor only moves forward, up to the safe head when
    it succeeds; every request that was pending, that lies in the blocks it
    scanned, or, after a successful look-back of a restarted process, in the
    look-back window behind the cursor, is still pending or was dropped for
    cause: no longer open, expired, needing capabilities this worker lacks, or
    claimed. Claims are never repeated within a pass. *)
Theorem session_pass_accounts fuel w tr ro s s' :
  0 < chunk cfg -> 0 <= confs cfg -> 0 <= lookback cfg ->
  runs (RunOnce cfg range fuel w) tr ro -> observed events_at s tr s' ->
  (forall n, Ok n ∈ heads tr -> head_fits fuel n) -> (forall c, s = Some c -> head_fits fuel c) ->
  masks_ok (pending w) -> passed s s' w tr ro.
Proof.
  intros Hc Hf Hl Hr Ho Hh Hs Hm.
  exact (always_runs _ _ _ _ (RunOnce_always fuel w Hc Hf Hl) Hr Hh s s' Ho Hs Hm).
Qed.

(** Passes one after the other. *)
Inductive passes : Z -> state -> list trace -> Z -> state -> Prop :=
  | passes_nil c w : passes c w [] c w
  | passes_cons fuel c w tr ro c1 trs c' w' :
      runs (RunOnce cfg range fuel w) tr ro -> observed events_at (Some c) tr (Some c1) ->
      (forall n, Ok n ∈ heads tr -> head_fits fuel n) -> head_fits fuel c ->
      passes c1 (snd ro) trs c' w' -> passes c w (tr :: trs) c' w'.

Lemma passes_account c w trs c' w' :
  0 < chunk cfg -> 0 <= confs cfg -> 0 <= lookback cfg ->
  passes c w trs c' w' -> masks_ok (pending w) ->
  c <= c' /\
  (forall id, is_Some (pending w !! id) \/ (exists b ev, c < b <= c' /\ ev ∈ events_at b /\ ReqID ev = id) ->
     is_Some (pending w' !! id) \/ exists tr, tr ∈ trs /\ dropped id tr) /\
  (forall before tr after id, trs = before ++ tr :: after -> id ∈ claims tr ->
     (exists ri t, (id, Ok ri) ∈ infos tr /\ ri_Status ri = 0 /\ t ∈ clocks tr /\ u64_wrap t <= ri_Expiry ri) /\
     (exists n, n ∈ loads tr /\ n < maxJobs cfg) /\ (id, Ok true) ∈ eligibles tr /\
     ((exists m, covers cfg m = true /\
         (pending w !! id = Some (Some m) \/ exists tr', tr' ∈ tr :: before /\ (id, Ok m) ∈ masks tr')) \/
      (exists e, (id, Err e) ∈ masks tr))).
Proof.
  intros Hc Hf Hl. induction 1 as [c w|fuel c w tr ro c1 trs c' w' Hr Ho Hh Hcf _ IH]; intros Hm.
  { split; [lia|]. split.
    - intros id [?|(b & ev & ? & _)]; [by left|lia].
    - intros [|? before] tr after id E; done. }
  destruct (always_runs _ _ _ _ (RunOnce_always fuel w Hc Hf Hl) Hr Hh _ _ Ho ltac:(by intros ? [= <-]) Hm)
    as [_ (start & -> & Hle & _ & Hscan & _) Hkept [Hm1 Hsrc] [_ Hcl]].
  unfold pos in *; simpl in *. destruct (IH Hm1) as (Hle' & Hheld & Hju). split; [lia|]. split.
  - intros id Hid.
    assert (held (snd ro) tr id \/ exists b ev, c1 < b <= c' /\ ev ∈ events_at b /\ ReqID ev = id) as [[Hp|Hd]|Hlater].
    { destruct Hid as [Hid|(b & ev & Hb & Hin & <-)]; [left; by apply Hkept|].
      destruct (decide (b <= c1)); [left; eapply Hscan; [|done]; lia|right; exists b, ev; split; [lia|done]]. }
    + destruct (Hheld id (or_introl Hp)) as [?|(tr' & ? & ?)]; [by left|right; exists tr'; split; [by right|done]].
    + right. exists tr. split; [by left|done].
    + destruct (Hheld id (or_intror Hlater)) as [?|(tr' & ? & ?)]; [by left|right; exists tr'; split; [by right|done]].
  - intros [|x before] tr' after id [= E1 E2] Hid; subst.
    + destruct (Hcl _ Hid) as [(H1 & H2 & H3 & [(m & Hm' & Hcv)|Herr]) _]; (split; [done|]; split; [done|]; split; [done|]); [left|by right].
      exists m. split; [done|]. destruct Hm' as [Hm'|?]; [right; exists tr'; split; [by left|done]|by left].
    + destruct (Hju before tr' after id eq_refl Hid) as (H1 & H2 & H3 & [(m & Hcv & Hm')|Herr]);
        (split; [done|]; split; [done|]; split; [done|]); [left|by right].
      exists m. split; [done|]. destruct Hm' as [Hm'|(tr2 & Hin & Hm')].
      * destruct (Hsrc _ _ Hm') as [?|?]; [by left|right; exists x; split; [by right; left|done]].
      * right. exists tr2. split; [|done]. apply elem_of_cons in Hin as [->|Hin]; [by left|by right; right].
Qed.

(** C21. Over any series of passes of one process from a stored cursor, every
    request in the blocks the cursor has moved over is still pending or was
    dropped in one of the passes: no longer open, expired, beyond the worker's
    capabilities, or claimed, with whatever outcome. A claim is only ever sent
    for a request the chain just reported open, unexpired and open to this
    worker, below capacity, whose capability mask, read in this or an earlier
    pass, this worker covers; or whose mask could not be read in this pass, for
    then the request is taken as unconstrained. The pending requests are not
    stored: a new process finds again those in its look-back. *)
Theorem claims_are_justified c w trs c' w' :
  0 < chunk cfg -> 0 <= confs cfg -> 0 <= lookback cfg ->
  passes c w trs c' w' -> masks_ok (pending w) ->
  c <= c' /\
  (forall id, is_Some (pending w !! id) \/ (exists b ev, c < b <= c' /\ ev ∈ events_at b /\ ReqID ev = id) ->
     is_Some (pending w' !! id) \/ exists tr, tr ∈ trs /\ dropped id tr) /\
  (forall before tr after id, trs = before ++ tr :: after -> id ∈ claims tr ->
     (exists ri t, (id, Ok ri) ∈ infos tr /\ ri_Status ri = 0 /\ t ∈ clocks tr /\ u64_wrap t <= ri_Expiry ri) /\
     (exists n, n ∈ loads tr /\ n < maxJobs cfg) /\ (id, Ok true) ∈ eligibles tr /\
     ((exists m, covers cfg m = true /\
         (pending w !! id = Some (Some m) \/ exists tr', tr' ∈ tr :: before /\ (id, Ok m) ∈ masks tr')) \/
      (exists e, (id, Err e) ∈ masks tr))).
Proof. apply passes_account. Qed.
End Pass.

(** ** A restarted worker

    The stored cursor is 5; request 70, in block 4, is found by the look-back
    and claimed; request 90, in block 9, needs a capability this worker lacks. *)
#[local] Existing Instance plain_addresses.

Definition demo_cfg : config := NewSessionWatcher 4 4 2 (Some 5) 3.
Definition demo_range (p : gmap Z (option Z)) : list Z := (map_to_list p).*1.
Definition demo_request (b i : Z) : SessionRequestedEvent := MkSessionRequested i "user"%string 255 b b.
Definition demo_events (b : Z) : list SessionRequestedEvent :=
  if b =? 4 then [demo_request 4 70] else if b =? 9 then [demo_request 9 90] else [].

Definition demo_handler : handler SessE (option Z) := fun X e cur =>
  match e in SessE X return X * option Z with
  | Head => (Ok 12, cur)
  | GetOrSeed sh lb => match cur with Some v => (Ok (v, false), cur) | None => (Ok (0, false), cur) end
  | CursorSet b => (Ok tt, Some b)
  | FilterSessionRequested lo hi => (Ok (events_in demo_events lo hi), cur)
  | GetRequestInfo i => (Ok (MkRequestInfo 0 1700000100 "user"%string), cur)
  | UnixNow => (1700000000, cur)
  | GetRequiredCapabilities i => (Ok (if i =? 90 then 2 else 4), cur)
  | CounterLoad => (0, cur)
  | EligibleNow _ => (Ok true, cur)
  | ClaimSession _ => (Ok tt, cur)
  end.

Definition demo_pass := interp demo_handler (RunOnce demo_cfg demo_range 20 fresh_state) (Some 5).
Definition demo_trace : list (called SessE) := Eval vm_compute in fst (fst demo_pass).
Definition demo_after : state := Eval vm_compute in snd (snd (fst demo_pass)).

Lemma demo_run_pass :
  runs (RunOnce demo_cfg demo_range 20 fresh_state) demo_trace (Some (Ok tt), demo_after).
Proof. apply (interp_runs demo_handler _ (Some 5) _ _ (Some 10)). vm_compute. reflexivity. Qed.

Lemma demo_observed : observed demo_events (Some 5) demo_trace (Some 10).
Proof. unfold demo_trace. cbn [observed is_ok]. repeat split; vm_compute; reflexivity. Qed.

Lemma demo_heads n : Ok n ∈ heads demo_trace -> head_fits demo_cfg 20 n.
Proof.
  change (heads demo_trace) with [@Ok Z 12]. intros Hn. set_unfold in Hn. destruct_or?; simplify_eq.
  unfold head_fits, u64_max. simpl. lia.
Qed.

Lemma demo_cursor : head_fits demo_cfg 20 5.
Proof. unfold head_fits, u64_max. simpl. lia. Qed.

Lemma demo_masks : masks_ok demo_cfg (pending fresh_state).
Proof. intros i m. simpl. rewrite lookup_empty. discriminate. Qed.

Example demo_claimed : claims demo_trace = [70] /\ pending demo_after = ∅.
Proof. split; vm_compute; reflexivity. Qed.

Lemma session_pass_accounts_witness :
  passed demo_cfg demo_events (Some 5) (Some 10) fresh_state demo_trace (Some (Ok tt), demo_after).
Proof.
  refine (session_pass_accounts demo_cfg demo_events demo_range _ 20 fresh_state demo_trace _ _ _ _ _ _
    demo_run_pass demo_observed demo_heads _ demo_masks).
  - intros p. reflexivity.
  - reflexivity.
  - simpl. lia.
  - simpl. lia.
  - intros c [= <-]. exact demo_cursor.
Defined.

Lemma claims_are_justified_witness :
  is_Some (pending demo_after !! 90) \/ exists tr, tr ∈ [demo_trace] /\ dropped demo_cfg 90 tr.
Proof.
  destruct (claims_are_justified demo_cfg demo_events demo_range (fun p => reflexivity _) 5 fresh_state
    [demo_trace] 10 demo_after) as (_ & Hheld & _).
  - reflexivity.
  - simpl. lia.
  - simpl. lia.
  - exact (passes_cons demo_cfg demo_events demo_range 20 5 _ _ _ 10 [] 10 _ demo_run_pass demo_observed demo_heads demo_cursor
      (passes_nil _ _ _ _ _)).
  - exact demo_masks.
  - apply Hheld. right. exists 9, (demo_request 9 90). split; [lia|]. split; [|reflexivity].
    unfold demo_events. simpl. constructor.
Defined.
End SessionWatcher.
