(* ===== verification/Checkpoint.v ===== *)
(** The retry-safety record of a job: [internal/pipeline/checkpoint.go]. Redis
    is a parameter with the documented laws of the five commands the store
    sends; the Lua scripts are translated command by command, and any call may
    fail before or after it took effect. *)
From stdpp Require Import pretty.
From S2P Require Import Prelude Effects.

(** [[]byte] as the string of its bytes. *)
Abbreviation bytes := string.

(** ** [encoding/hex] *)
Definition hex_digit (n : nat) : Ascii.ascii :=
  Ascii.ascii_of_nat (if (n <? 10)%nat then 48 + n else 87 + n).

Definition hex_value (c : Ascii.ascii) : option nat :=
  let n := Ascii.nat_of_ascii c in
  if ((48 <=? n) && (n <=? 57))%nat then Some (n - 48)%nat
  else if ((97 <=? n) && (n <=? 102))%nat then Some (n - 87)%nat
  else if ((65 <=? n) && (n <=? 70))%nat then Some (n - 55)%nat
  else None.

Fixpoint EncodeToString (b : bytes) : string :=
  match b with
  | EmptyString => EmptyString
  | String c b' =>
      let n := Ascii.nat_of_ascii c in
      String (hex_digit (n / 16)) (String (hex_digit (n mod 16)) (EncodeToString b'))
  end.

Fixpoint DecodeString (s : string) : result bytes :=
  match s with
  | EmptyString => Ok EmptyString
  | String _ EmptyString => Err (errorf "encoding/hex: odd length hex string")
  | String hi (String lo s') =>
      match hex_value hi, hex_value lo with
      | Some h, Some l =>
          match DecodeString s' with
          | Ok b => Ok (String (Ascii.ascii_of_nat (16 * h + l)) b)
          | Err e => Err e
          end
      | _, _ => Err (errorf "encoding/hex: invalid byte")
      end
  end.

Lemma hex_value_digit n : (n < 16)%nat -> hex_value (hex_digit n) = Some n.
Proof. intros Hn. do 16 (destruct n as [|n]; [reflexivity|]). lia. Qed.

Lemma Decode_Encode b : DecodeString (EncodeToString b) = Ok b.
Proof.
  induction b as [|c b IH]; [done|]. cbn [EncodeToString DecodeString].
  pose proof (Ascii.nat_ascii_bounded c) as Hc.
  rewrite !hex_value_digit, IH; [|by apply Nat.mod_upper_bound|by apply Nat.Div0.div_lt_upper_bound].
  rewrite <- Nat.div_mod_eq, Ascii.ascii_nat_embedding. done.
Qed.

(** ** Redis

    A keyspace of hashes; [TTL] is a key's remaining life in seconds, [None]
    when it has none. [Expired r k r']: the key's life ended. *)
Class RedisOps := {
  Redis : Type;
  HGET : string -> string -> Redis -> option string;
  HGETALL : string -> Redis -> gmap string string;
  HSET : string -> string -> string -> Redis -> Redis;
  EXPIRE : string -> Z -> Redis -> Redis;
  TTL : string -> Redis -> option Z;
}.

(** What the documentation of the commands promises; [EXPIRE] with a
    non-positive number of seconds deletes the key and is left out. *)
Class RedisLaws (R : RedisOps) : Prop := {
  HGETALL_HGET k f r : HGETALL k r !! f = HGET k f r;
  HGET_HSET k f v r : HGET k f (HSET k f v r) = Some v;
  HGET_HSET_ne k f v k' f' r : (k, f) <> (k', f') -> HGET k' f' (HSET k f v r) = HGET k' f' r;
  HGET_EXPIRE k n k' f r : 0 < n -> HGET k' f (EXPIRE k n r) = HGET k' f r;
  TTL_HSET k f v k' r : TTL k' (HSET k f v r) = TTL k' r;
  TTL_EXPIRE_ne k n k' r : k <> k' -> TTL k' (EXPIRE k n r) = TTL k' r;
  TTL_EXPIRE k n f v r : 0 < n -> HGET k f r = Some v -> TTL k (EXPIRE k n r) = Some n;
}.

(** [common.Hash]: 0 is the zero hash; its rendering and parsing are
    go-ethereum's. *)
Class HashOps := {
  HashHex : Z -> string;
  IsHexHash : string -> bool;
  HexToHash : string -> Z;
}.
Module CheckpointStore.

Record JobCheckpoint : Type := MkCheckpoint {
  Ciphertext : bytes;
  VersionedHash : Z;
  Delivered : bool;
}.

Definition no_checkpoint : JobCheckpoint := MkCheckpoint "" 0 false.
Definition IsEmpty (c : JobCheckpoint) : bool :=
  (String.length (Ciphertext c) =? 0)%nat && (VersionedHash c =? 0) && negb (Delivered c).
Definition HasCiphertext (c : JobCheckpoint) : bool := (0 <? String.length (Ciphertext c))%nat.
Definition HasVersionedHash (c : JobCheckpoint) : bool := negb (VersionedHash c =? 0).

(** [CheckpointStore], without the client and the scripts. *)
Record t : Type := MkStore {
  ttl : Z;
  maxCiphertextB : Z;
  tombstoneTTL : Z;
  keyPrefix : string;
}.

Definition NewCheckpointStore (ttl tombstoneTTL maxCiphertextBytes : Z) : t :=
  MkStore (if ttl <=? 0 then 2 * Hour else ttl)
    (if maxCiphertextBytes <=? 0 then 256 * 1024 else maxCiphertextBytes)
    (if tombstoneTTL <=? 0 then 10 * Minute else tombstoneTTL) "job".

(** Whether a call to Redis goes through, fails before it takes effect, or
    loses its reply after it did. *)
Inductive fault : Type := Healthy | FailBefore (e : error) | FailAfter (e : error).

Definition exec {W A} (f : fault) (c : st W A) : io W A := fun w =>
  match f with
  | Healthy => let '(a, w') := c w in (Ok a, w')
  | FailBefore e => (Err e, w)
  | FailAfter e => (Err e, snd (c w))
  end.

Section Store.
Context `{RO : !RedisOps} `{HO : !HashOps}.
(** [strconv]: the decimal rendering of a job id, injective. *)
Context (FormatID : Z -> string) (s : t).

(** [key]. *)
Definition key (jobID : Z) : string := keyPrefix s +:+ ":" +:+ FormatID jobID +:+ ":ckpt".

Definition ttl_seconds : Z := dur_secs (ttl s).
(** go-redis renders a duration under a second as one second. *)
Definition format_sec (d : Z) : Z := if (0 <? d) && (d <? Second) then 1 else dur_secs d.

(** ** The scripts, command by command *)
Definition setCiphertextLR (k proposedHex : string) (secs : Z) : st Redis (string * string) := fun r =>
  match HGET k "ciphertext" r with
  | Some existing => ((existing, "0"%string), r)
  | None => ((proposedHex, "1"%string), EXPIRE k secs (HSET k "ciphertext" proposedHex r))
  end.

Definition setVersionedHashLR (k hash : string) (secs : Z) : st Redis unit := fun r =>
  let tombstoned := HGET k "tombstoned" r in
  let r := HSET k "versionedHash" hash r in
  (tt, match tombstoned with None => EXPIRE k secs r | Some _ => r end).

Definition markDeliveredLR (k : string) (secs : Z) : st Redis unit := fun r =>
  let tombstoned := HGET k "tombstoned" r in
  let r := HSET k "delivered" "1" r in
  (tt, match tombstoned with None => EXPIRE k secs r | Some _ => r end).

(** ** The operations *)

Definition ErrCiphertextTooLarge_ : error :=
  errors_New ErrCiphertextTooLarge "ciphertext exceeds checkpoint cap".

Definition SetCiphertextIfAbsent (f : fault) (jobID : Z) (proposed : bytes) : io Redis (bytes * bool) :=
  if (String.length proposed =? 0)%nat then io_err (errorf "proposed ciphertext is empty")
  else if maxCiphertextB s <? Z.of_nat (String.length proposed) then
    io_err (join ErrCiphertextTooLarge_ (errorf "bytes"))
  else
    let? res := exec f (setCiphertextLR (key jobID) (EncodeToString proposed) ttl_seconds)
      wrapping "run setCiphertext Lua" in
    match DecodeString (fst res) with
    | Err e => io_err (wrap "decode canonical ciphertext hex" e)
    | Ok canonical => io_ret (canonical, bool_decide (snd res = "1"%string))
    end.

Definition SetVersionedHash (f : fault) (jobID hash : Z) : io Redis unit :=
  if hash =? 0 then io_err (errorf "versioned hash is zero")
  else io_wrap "set versionedHash" (exec f (setVersionedHashLR (key jobID) (HashHex hash) ttl_seconds)).

Definition MarkDelivered (f : fault) (jobID : Z) : io Redis unit :=
  io_wrap "mark delivered" (exec f (markDeliveredLR (key jobID) ttl_seconds)).

(** The fields of a record that are set and not empty. *)
Definition field (vals : gmap string string) (f : string) : option string :=
  match vals !! f with Some EmptyString | None => None | Some v => Some v end.

Definition read_record (vals : gmap string string) : result JobCheckpoint :=
  if bool_decide (vals = ∅) then Ok no_checkpoint
  else
    match match field vals "ciphertext" with
          | None => Ok EmptyString
          | Some h => DecodeString h
          end with
    | Err e => Err (wrap "decode cached ciphertext" e)
    | Ok ct =>
        match match field vals "versionedHash" with
              | None => Ok 0
              | Some h => if negb (IsHexHash h) then Err (errorf "invalid versionedHash format in checkpoint")
                          else Ok (HexToHash h)
              end with
        | Err e => Err e
        | Ok h => Ok (MkCheckpoint ct h (bool_decide (vals !! "delivered" = Some "1")))
        end
    end.

Definition Get (f : fault) (jobID : Z) : io Redis JobCheckpoint :=
  let? vals := exec f (fun r => (HGETALL (key jobID) r, r)) wrapping "get checkpoint" in
  fun r => (read_record vals, r).

(** [Tombstone]: a MULTI of two commands. *)
Definition Tombstone (f : fault) (jobID : Z) : io Redis unit :=
  io_wrap "tombstone checkpoint" (exec f (fun r =>
    (tt, EXPIRE (key jobID) (format_sec (tombstoneTTL s)) (HSET (key jobID) "tombstoned" "1" r)))).

(** ** Histories

    The calls of the store's clients, each with its answer. *)
Inductive CkptE : Type -> Type :=
  | GetC (jobID : Z) : CkptE (result JobCheckpoint)
  | SetCiphertextIfAbsentC (jobID : Z) (proposed : bytes) : CkptE (result (bytes * bool))
  | SetVersionedHashC (jobID hash : Z) : CkptE (result unit)
  | MarkDeliveredC (jobID : Z) : CkptE (result unit)
  | TombstoneC (jobID : Z) : CkptE (result unit).

Definition perform {X} (e : CkptE X) (f : fault) : st Redis X :=
  match e with
  | GetC jobID => Get f jobID
  | SetCiphertextIfAbsentC jobID p => SetCiphertextIfAbsent f jobID p
  | SetVersionedHashC jobID h => SetVersionedHash f jobID h
  | MarkDeliveredC jobID => MarkDelivered f jobID
  | TombstoneC jobID => Tombstone f jobID
  end.

(** What happens to the keyspace: a call of some attempt at some job, time
    passing, or the end of a key's life. *)
Inductive event : Type :=
  | Did (c : called CkptE)
  | Elapsed (secs : Z)
  | Lapsed (k : string).

Definition steps (ev : event) (r r' : Redis) : Prop :=
  match ev with
  | Did (Called e x) => exists f, perform e f r = (x, r')
  | Elapsed secs =>
      0 <= secs /\ (forall k f, HGET k f r' = HGET k f r) /\
      (forall k, TTL k r' = (fun n => n - secs) <$> TTL k r)
  | Lapsed k =>
      (forall f, HGET k f r' = None) /\
      forall k', k' <> k -> TTL k' r' = TTL k' r /\ forall f, HGET k' f r' = HGET k' f r
  end.

Inductive history : Redis -> list event -> Redis -> Prop :=
  | history_nil r : history r [] r
  | history_cons r ev r1 evs r' : steps ev r r1 -> history r1 evs r' -> history r (ev :: evs) r'.

(** The ciphertexts the store told anyone were the job's. *)
Definition canonical_of (jobID : Z) (c : called CkptE) : list bytes :=
  match c with
  | Called e x =>
      match e in CkptE X return X -> list bytes with
      | GetC j => fun r => match r with
                           | Ok ck => if bool_decide (j = jobID) && HasCiphertext ck then [Ciphertext ck] else []
                           | Err _ => []
                           end
      | SetCiphertextIfAbsentC j _ => fun r => match r with
                           | Ok (c, _) => if bool_decide (j = jobID) then [c] else []
                           | Err _ => []
                           end
      | _ => fun _ => []
      end x
  end.
Definition canonical (jobID : Z) (evs : list event) : list bytes :=
  flat_map (fun ev => match ev with Did c => canonical_of jobID c | _ => [] end) evs.

(** ** Lemmas *)
Context `{RL : !RedisLaws _}.
Context (ttl_pos : Second <= ttl s) (tombstone_pos : 0 < tombstoneTTL s).

Lemma ttl_seconds_pos : 0 < ttl_seconds.
Proof. unfold ttl_seconds, dur_secs, Second in *. apply Z.quot_str_pos. lia. Qed.

Lemma format_sec_pos : 0 < format_sec (tombstoneTTL s).
Proof.
  unfold format_sec, dur_secs, Second in *.
  destruct ((0 <? tombstoneTTL s) && _) eqn:E; reflect_Z; [done|lia|]. apply Z.quot_str_pos. lia.
Qed.

Lemma HGET_script k f v k' f' (b : option string) n r : 0 < n ->
  HGET k' f' (match b with None => EXPIRE k n (HSET k f v r) | Some _ => HSET k f v r end) =
  HGET k' f' (HSET k f v r).
Proof. intros Hn. destruct b; [done|]. by apply HGET_EXPIRE. Qed.

(** An operation that is not the first to store the ciphertext leaves that
    field alone. *)
Lemma ciphertext_kept k h c r r' :
  HGET k "ciphertext" r = Some h -> steps (Did c) r r' -> HGET k "ciphertext" r' = Some h.
Proof.
  pose proof ttl_seconds_pos as Ht. pose proof format_sec_pos as Hf.
  destruct c as [X e x]. intros Hh [f Hp]. destruct e; cbn in Hp.
  - unfold Get in Hp. destruct f; run_go.
  - unfold SetCiphertextIfAbsent, exec, setCiphertextLR in Hp.
    destruct f; run_go.
    all: rewrite HGET_EXPIRE by done; destruct (decide (k = key jobID)) as [->|Hk]; [congruence|].
    all: rewrite HGET_HSET_ne by congruence; done.
  - unfold SetVersionedHash, exec, setVersionedHashLR in Hp.
    destruct f; run_go; rewrite ?HGET_EXPIRE, HGET_HSET_ne by (done || congruence); done.
  - unfold MarkDelivered, exec, markDeliveredLR in Hp.
    destruct f; run_go; rewrite ?HGET_EXPIRE, HGET_HSET_ne by (done || congruence); done.
  - unfold Tombstone, exec in Hp.
    destruct f; run_go; rewrite ?HGET_EXPIRE, HGET_HSET_ne by (done || congruence); done.
Qed.

Lemma read_record_ciphertext vals ck :
  read_record vals = Ok ck -> HasCiphertext ck = true ->
  exists h, vals !! "ciphertext" = Some h /\ DecodeString h = Ok (Ciphertext ck).
Proof.
  unfold read_record, field. intros Hr Hc.
  destruct (bool_decide _); [by simplify_eq|].
  destruct (vals !! "ciphertext") as [h|].
  - exists h. split; [done|]. destruct h; repeat (case_match; simplify_eq); done.
  - repeat (case_match; simplify_eq); done.
Qed.

(** What a call says the ciphertext is, is what the field holds after it. *)
Lemma canonical_is_stored j c ct r r' :
  ct ∈ canonical_of j c -> steps (Did c) r r' ->
  exists h, HGET (key j) "ciphertext" r' = Some h /\ DecodeString h = Ok ct.
Proof.
  pose proof ttl_seconds_pos as Ht.
  destruct c as [X e x]. intros Hin [f Hp]. destruct e; cbn -[HasCiphertext] in Hp, Hin;
    try (by apply not_elem_of_nil in Hin).
  - unfold Get, exec, io_wrap, io_bind in Hp.
    destruct f; [|simplify_eq; set_solver..]. simplify_eq/=.
    destruct (read_record _) as [ck|] eqn:Er; [|set_solver].
    destruct (bool_decide (jobID = j)) eqn:Ej, (HasCiphertext ck) eqn:Hc; simpl in Hin; try set_solver.
    reflect_Z. subst. apply list_elem_of_singleton in Hin as ->.
    destruct (read_record_ciphertext _ _ Er Hc) as (h & Hh & Hd). rewrite HGETALL_HGET in Hh. by exists h.
  - unfold SetCiphertextIfAbsent, exec, setCiphertextLR in Hp.
    destruct f; run_go; (destruct (bool_decide (jobID = j)) eqn:Ej; reflect_Z; [subst|]); try set_solver.
    all: apply list_elem_of_singleton in Hin as ->; eexists; split; [|eassumption].
    all: rewrite ?HGET_EXPIRE by done; by rewrite ?HGET_HSET.
Qed.

Lemma steps_kept k h ev r r' :
  HGET k "ciphertext" r = Some h -> ev <> Lapsed k -> steps ev r r' -> HGET k "ciphertext" r' = Some h.
Proof.
  destruct ev as [c|secs|k']; intros Hh Hne Hs.
  - by eapply ciphertext_kept.
  - destruct Hs as (_ & Hg & _). by rewrite Hg.
  - destruct Hs as [_ Hg]. destruct (Hg k) as [_ ->]; congruence.
Qed.

Lemma stored_answers k h r evs r' :
  HGET (key k) "ciphertext" r = Some h -> history r evs r' -> Lapsed (key k) ∉ evs ->
  forall c, c ∈ canonical k evs -> DecodeString h = Ok c.
Proof.
  intros Hh Hist. revert Hh. induction Hist as [r|r ev r1 evs r' Hs _ IH]; intros Hh Hl c Hc; [set_solver|].
  apply not_elem_of_cons in Hl as [Hne Hl].
  assert (HGET (key k) "ciphertext" r1 = Some h) as H1 by (eapply steps_kept; eauto).
  destruct ev as [cl|secs|k']; cbn in Hc; [|by apply (IH H1)..].
  apply list_elem_of_In, in_app_or in Hc as [Hc|Hc]; apply list_elem_of_In in Hc; [|by apply (IH H1)].
  destruct (canonical_is_stored _ _ _ _ _ Hc Hs) as (h' & Hh' & Hd). congruence.
Qed.

(** Whoever first stores a job's ciphertext decides it: along any history
    of the store, the calls of any number of attempts at any jobs interleaved
    in any way, some failing before or after they took effect, time passing
    and other keys ending, every ciphertext the store hands out for the job,
    to a reader or to a writer, is one and the same, as long as the job's own
    record lives. *)
Lemma first_ciphertext_wins k r evs r' :
  history r evs r' -> Lapsed (key k) ∉ evs ->
  exists c, forall c', c' ∈ canonical k evs -> c' = c.
Proof.
  intros Hist. induction Hist as [r|r ev r1 evs r' Hs Hist IH]; intros Hl; [by exists ""; set_solver|].
  apply not_elem_of_cons in Hl as [Hne Hl].
  destruct (HGET (key k) "ciphertext" r1) as [h|] eqn:Eh.
  - assert (forall c', c' ∈ canonical k (ev :: evs) -> DecodeString h = Ok c') as Hall.
    { intros c' Hc. cbn in Hc. apply list_elem_of_In, in_app_or in Hc as [Hc|Hc]; apply list_elem_of_In in Hc.
      - destruct ev as [cl|secs|k']; [|set_solver..].
        destruct (canonical_is_stored _ _ _ _ _ Hc Hs) as (h' & Hh' & Hd). congruence.
      - by eapply stored_answers. }
    destruct (DecodeString h) as [c|e]; [exists c | exists ""]; intros c' Hc; by specialize (Hall _ Hc) as [= ->].
  - destruct (IH Hl) as [c Hc]. exists c. intros c' Hin. apply Hc.
    cbn in Hin. apply list_elem_of_In, in_app_or in Hin as [Hin|Hin]; apply list_elem_of_In in Hin; [|done].
    destruct ev as [cl|secs|k']; [|set_solver..].
    destruct (canonical_is_stored _ _ _ _ _ Hin Hs) as (h' & Hh' & _). congruence.
Qed.

(** A proposal that won is what it proposed. *)
Lemma won_is_proposed j p c r r' :
  steps (Did (Called (SetCiphertextIfAbsentC j p) (Ok (c, true)))) r r' -> c = p.
Proof.
  intros [f Hp]. cbn [perform] in Hp. unfold SetCiphertextIfAbsent, exec, setCiphertextLR in Hp.
  destruct f; simpl_go; repeat (break_step; simpl_go); try done; by rewrite Decode_Encode in *; simplify_eq.
Qed.

Lemma history_member r evs r' ev : history r evs r' -> ev ∈ evs -> exists r1 r2, steps ev r1 r2.
Proof. induction 1 as [|r ev' r1 evs r' Hs _ IH]; [set_solver|]. intros [->|Hin]%elem_of_cons; [by do 2 eexists|by apply IH]. Qed.

Lemma canonical_member j c evs ct : Did c ∈ evs -> ct ∈ canonical_of j c -> ct ∈ canonical j evs.
Proof.
  intros Hev Hct. unfold canonical. apply list_elem_of_In, in_flat_map. exists (Did c).
  split; by apply list_elem_of_In.
Qed.

(** ** Tombstones *)
Definition buried (k : string) (r : Redis) : Prop :=
  HGET k "tombstoned" r = Some "1"%string /\ (exists h, HGET k "ciphertext" r = Some h) /\
  exists n, TTL k r = Some n /\ n <= format_sec (tombstoneTTL s).

Lemma buried_other k k' f v r :
  buried k r -> (k' = k -> f <> "tombstoned" /\ f <> "ciphertext")%string -> buried k (HSET k' f v r).
Proof.
  intros (Ht & [h Hh] & n & Hn & Hle) Hf. split_and!.
  - rewrite HGET_HSET_ne; [done|naive_solver].
  - exists h. rewrite HGET_HSET_ne; [done|naive_solver].
  - exists n. by rewrite TTL_HSET.
Qed.

Lemma buried_expire k k' n r : buried k r -> 0 < n -> (k' = k -> n <= format_sec (tombstoneTTL s)) ->
  buried k (EXPIRE k' n r).
Proof.
  intros (Ht & [h Hh] & m & Hm & Hle) Hn Hc. split_and!.
  - by rewrite HGET_EXPIRE.
  - exists h. by rewrite HGET_EXPIRE.
  - destruct (decide (k' = k)) as [->|Hk].
    + exists n. split; [by eapply TTL_EXPIRE | by apply Hc].
    + exists m. by rewrite TTL_EXPIRE_ne.
Qed.

(** A script that extends the life of a record only when it is not buried. *)
Lemma buried_script k k' f v r : buried k r -> f <> "tombstoned"%string -> f <> "ciphertext"%string ->
  buried k (match HGET k' "tombstoned" r with
            | None => EXPIRE k' ttl_seconds (HSET k' f v r)
            | Some _ => HSET k' f v r
            end).
Proof.
  intros Hb Hf Hc. destruct (HGET k' "tombstoned" r) eqn:Et; [apply buried_other; naive_solver|].
  apply buried_expire; [apply buried_other; naive_solver | apply ttl_seconds_pos |].
  intros ->. destruct Hb as [Hb _]. congruence.
Qed.

Lemma buried_call k c r r' : buried k r -> steps (Did c) r r' -> buried k r'.
Proof.
  intros Hb Hp. destruct c as [X e x]. destruct Hp as [f Hp]. destruct e; cbn [perform] in Hp.
  - unfold Get in Hp. destruct f; run_go.
  - unfold SetCiphertextIfAbsent, exec, setCiphertextLR in Hp. destruct f; run_go.
    all: assert (key jobID <> k) as Hk by (intros <-; destruct Hb as (_ & [? ?] & _); congruence).
    all: apply buried_expire; [|apply ttl_seconds_pos|congruence]; apply buried_other; naive_solver.
  - unfold SetVersionedHash in Hp. destruct (hash =? 0), f; simpl_go; try done; by apply buried_script.
  - unfold MarkDelivered in Hp. destruct f; simpl_go; try done; by apply buried_script.
  - assert (forall r, buried k r -> buried k (EXPIRE (key jobID) (format_sec (tombstoneTTL s))
      (HSET (key jobID) "tombstoned" "1" r))) as Hgo.
    { intros r0 Hr. apply buried_expire; [|by apply format_sec_pos|done].
      destruct (decide (key jobID = k)) as [<-|Hk]; [|by apply buried_other].
      destruct Hr as (Ht & [h Hh] & n & Hn & Hle).
      split_and!; [by rewrite HGET_HSET|exists h; by rewrite HGET_HSET_ne|exists n; by rewrite TTL_HSET]. }
    unfold Tombstone in Hp. destruct f; simpl_go; try done; by apply Hgo.
Qed.

(** A tombstoned record is not brought back to its full life: once it
    holds the marker and a ciphertext and lives at most the tombstone's TTL,
    it does so through any further history of the store, calls of slow
    attempts that store its hash, mark it delivered or propose a ciphertext
    included, until it ends. *)
Theorem tombstone_is_final k r evs r' :
  buried (key k) r -> history r evs r' -> Lapsed (key k) ∉ evs -> buried (key k) r'.
Proof.
  intros Hb Hh. induction Hh as [r|r ev r1 evs r' Hs _ IH]; [done|].
  intros [Hne Hl]%not_elem_of_cons. apply IH; [|done].
  destruct ev as [c|secs|k']; [by eapply buried_call|..].
  - destruct Hs as (H0 & Hg & Ht), Hb as (Hm & [h Hc] & n & Hn & Hle).
    split_and!; [by rewrite Hg | exists h; by rewrite Hg | exists (n - secs)].
    rewrite Ht, Hn. split; [done|lia].
  - destruct Hs as [_ Hg], Hb as (Hm & [h Hc] & n & Hn & Hle). destruct (Hg (key k)) as [Ht Hf]; [congruence|].
    split_and!; [by rewrite Hf | exists h; by rewrite Hf | exists n; by rewrite Ht].
Qed.

(** The tombstone of a completed job buries its record. *)
Lemma Tombstone_buries k h r : HGET (key k) "ciphertext" r = Some h ->
  buried (key k) (snd (Tombstone Healthy k r)).
Proof.
  pose proof format_sec_pos as Hf. intros Hh. split_and!.
  - simpl. by rewrite HGET_EXPIRE, HGET_HSET.
  - exists h. simpl. by rewrite HGET_EXPIRE, HGET_HSET_ne.
  - exists (format_sec (tombstoneTTL s)). split; [|done]. eapply TTL_EXPIRE; [done|by rewrite HGET_HSET].
Qed.

(** Without a ciphertext, though, a slow attempt's proposal gives the record
    its full life back: the first script does not look at the marker. *)
Lemma proposal_revives_tombstone k p r : HGET (key k) "ciphertext" r = None ->
  p <> EmptyString -> Z.of_nat (String.length p) <= maxCiphertextB s ->
  TTL (key k) (snd (SetCiphertextIfAbsent Healthy k p (snd (Tombstone Healthy k r)))) = Some ttl_seconds.
Proof.
  pose proof format_sec_pos as Hf. pose proof ttl_seconds_pos as Ht. intros Hc Hp Hl.
  unfold SetCiphertextIfAbsent.
  assert ((String.length p =? 0)%nat = false) as -> by (by destruct p).
  rewrite (proj2 (Z.ltb_ge _ _) Hl). unfold Tombstone, io_bind, io_wrap, exec, setCiphertextLR. cbn [snd fst].
  rewrite HGET_EXPIRE, HGET_HSET_ne, Hc by done. simpl.
  case_match; simpl; (eapply TTL_EXPIRE; [done|by rewrite HGET_HSET]).
Qed.
End Store.

(** ** A concrete Redis *)
Abbreviation keyspace := (gmap string (gmap string string * option Z)).
Definition hash_of (k : string) (r : keyspace) : gmap string string := match r !! k with Some (h, _) => h | None => ∅ end.
Definition life_of (k : string) (r : keyspace) : option Z := match r !! k with Some (_, t) => t | None => None end.

Definition plain_redis : RedisOps := {|
  Redis := keyspace;
  HGET := fun k f r => hash_of k r !! f;
  HGETALL := hash_of;
  HSET := fun k f v r => <[k := (<[f := v]> (hash_of k r), life_of k r)]> r;
  EXPIRE := fun k n r => if n <=? 0 then delete k r
                         else match r !! k with Some (h, _) => <[k := (h, Some n)]> r | None => r end;
  TTL := life_of;
|}.

Lemma plain_redis_laws : RedisLaws plain_redis.
Proof.
  split; intros; cbn [Redis HGET HGETALL HSET EXPIRE TTL plain_redis] in *; unfold hash_of, life_of in *; [done|..].
  - by rewrite lookup_insert_eq, lookup_insert_eq.
  - destruct (decide (k = k')) as [<-|Hk]; [|by rewrite lookup_insert_ne].
    rewrite lookup_insert_eq, lookup_insert_ne; [done|congruence].
  - rewrite (proj2 (Z.leb_gt _ _)) by done. destruct (r !! k) as [[h l]|] eqn:E; [|done].
    destruct (decide (k = k')) as [<-|Hk]; by simplify_map_eq.
  - destruct (decide (k = k')) as [<-|Hk]; [by rewrite lookup_insert_eq|by rewrite lookup_insert_ne].
  - destruct (n <=? 0); [by rewrite lookup_delete_ne|].
    destruct (r !! k) as [[h l]|]; [by rewrite lookup_insert_ne|done].
  - rewrite (proj2 (Z.leb_gt _ _)) by done. destruct (r !! k) as [[h l]|]; [by rewrite lookup_insert_eq|done].
Qed.

(** Hashes in decimal. *)
Definition decimal (s : string) : Z :=
  foldl (fun n c => 10 * n + Z.of_nat (Ascii.nat_of_ascii c - 48)) 0 (String.list_ascii_of_string s).
Definition plain_hashes : HashOps :=
  {| HashHex := fun h => pretty h; IsHexHash := fun _ => true; HexToHash := decimal |}.
#[local] Existing Instance plain_redis.
#[local] Existing Instance plain_hashes.

Definition demo : t := NewCheckpointStore 0 0 0.
Definition demo_perform {X} (e : CkptE X) (f : fault) (r : keyspace) : X * keyspace := perform pretty demo e f r.

(** Two attempts propose, the first not hearing that it won; a third reads. *)
Definition demo_r1 : keyspace := snd (demo_perform (SetCiphertextIfAbsentC 7 "aa") (FailAfter (errorf "timeout")) ∅).
Definition demo_race : list event :=
  [Did (Called (SetCiphertextIfAbsentC 7 "aa") (Err (wrap "run setCiphertext Lua" (errorf "timeout"))));
   Did (Called (SetCiphertextIfAbsentC 7 "bb") (Ok ("aa"%string, false)));
   Did (Called (GetC 7) (Ok (MkCheckpoint "aa" 0 false)))].

Lemma demo_race_history : history pretty demo (∅ : keyspace) demo_race demo_r1.
Proof.
  apply (history_cons (RO := plain_redis) _ _ _ _ demo_r1); [by exists (FailAfter (errorf "timeout"))|].
  apply (history_cons (RO := plain_redis) _ _ _ _ demo_r1); [exists Healthy; vm_compute; reflexivity|].
  apply (history_cons (RO := plain_redis) _ _ _ _ demo_r1); [exists Healthy; vm_compute; reflexivity|]. constructor.
Qed.

(** A slow attempt marks a tombstoned record delivered. *)
Definition demo_done : keyspace := snd (Tombstone pretty demo Healthy 7 demo_r1).
Definition demo_late : keyspace := snd (demo_perform (MarkDeliveredC 7) Healthy demo_done).

Lemma tombstone_is_final_witness : buried demo (key pretty demo 7) demo_late /\ TTL (key pretty demo 7) demo_late = Some 600.
Proof.
  split; [|vm_compute; reflexivity].
  refine (tombstone_is_final (RL := plain_redis_laws) pretty demo _ _ 7 demo_done
    [Did (Called (MarkDeliveredC 7) (Ok tt))] demo_late _ _ _); [vm_compute; congruence | vm_compute; reflexivity |..].
  - refine (Tombstone_buries (RL := plain_redis_laws) pretty demo _ 7 _ demo_r1 _); vm_compute; reflexivity.
  - apply (history_cons (RO := plain_redis) _ _ _ _ demo_late); [by exists Healthy|]. constructor.
  - set_solver.
Defined.
End CheckpointStore.
