(* ===== verification/JobCalls.v ===== *)
(** What the job pipeline of [internal/pipeline] calls: the chain client, the
    blob store, the key store, the model, the publisher, the checkpoint store,
    the release tracker, the voice sidecars and the clock, with the values that
    travel through those calls. *)
From S2P Require Import Prelude Effects Checkpoint.

(** ** Contexts

    How a [context.Context] was derived from the one the entry point got; the
    queue's retry metadata travels in that root. *)
Inductive Ctx : Type :=
  | TaskCtx (retryCount maxRetry : option Z)
  | WithTimeout (parent : Ctx) (d : Z)
  | WithDeadline (parent : Ctx) (t : Z)
  | WithoutCancel (parent : Ctx).

Fixpoint ctx_retries (ctx : Ctx) : option Z * option Z :=
  match ctx with
  | TaskCtx r m => (r, m)
  | WithTimeout p _ | WithDeadline p _ | WithoutCancel p => ctx_retries p
  end.
(** [retryCount, _ := asynq.GetRetryCount(ctx)]. *)
Definition GetRetryCount (ctx : Ctx) : Z := match (ctx_retries ctx).1 with Some n => n | None => 0 end.
Definition GetMaxRetry (ctx : Ctx) : option Z := (ctx_retries ctx).2.

(** [time.Time] is an unbounded count of nanoseconds; [Time.Sub] saturates. *)
Definition time_Sub (t u : Z) : Z := Z.max i64_min (Z.min i64_max (t - u)).

(** ** Errors of the pipeline *)
Definition ErrJobDoomed_ : error := errors_New ErrJobDoomed "job cannot settle before its on-chain deadline".
Definition SkipRetry_ : error := errors_New SkipRetry "skip retry for the task".
Definition errAnswerDelivered_ : error := errors_New ErrAnswerDelivered "answer already delivered to the consumer".
Definition errSTTUnavailable_ : error :=
  errors_New ErrSTTUnavailable "prompt is audio-only but STT is not enabled on this worker".
Definition errEmptyTranscript_ : error := errors_New ErrEmptyTranscript "STT sidecar returned an empty transcript".

(** [noRetry], of a non-nil error. *)
Definition noRetry (err : error) : error := join err SkipRetry_.

(** ** Values *)

(** [ollama.ClientOptions]; the temperature and the output format opaque. *)
Record ClientOptions : Type := MkOptions {
  KeepAlive : string;
  NumPredict : Z;
  NumCtx : Z;
  Think : option bool;
  ThinkLevel : string;
  Temperature : option Z;
  Format : option string;
}.
Definition no_options : ClientOptions := MkOptions "" 0 0 None "" None None.

(** [ollama.StreamStats]. *)
Record StreamStats : Type := MkStats {
  PromptTokens : Z;
  EvalTokens : Z;
  ThinkingBytes : Z;
  LoadDuration : Z;
  PromptEvalDuration : Z;
  EvalDuration : Z;
  TotalDuration : Z;
}.
Definition no_stats : StreamStats := MkStats 0 0 0 0 0 0 0.

(** [promptenv.Message] and [ollama.ChatMessage], field for field the same. *)
Record Message : Type := MkMessage { Role : string; Content : string; MsgImages : list string }.

(** [promptenv.Envelope]: the fields the worker reads, and the others. *)
Record promptEnvelope : Type := MkEnvelope {
  Text : string;
  Images : list string;
  Audio : string;
  AudioFormat : string;
  AudioResponse : bool;
  VoiceName : string;
  env_others : string;
}.

(** [search.Source] and [searchaug.Source]. *)
Record Source : Type := MkSource { Position : Z; Title : string; URL : string; Snippet : string }.

(** A call of the streaming API: the deltas in the order its handlers were
    called, thinking or not, and what it returned. *)
Record stream_answer : Type := MkStream {
  sa_deltas : list (bool * string);
  sa_response : string;
  sa_stats : StreamStats;
  sa_err : option error;
}.

(** How the wait of stage 1b ends. *)
Inductive confirmation : Type :=
  | ConfirmDone (err : option error)
  | ConfirmTimer
  | ConfirmCtxDone (err : error).

(** What the publisher sends for a job. *)
Inductive frame : Type :=
  | Chunk (ctx : Ctx) (sequence : Z) (kind : string) (ciphertext : bytes)
  | Complete (signature : string) (ciphertext : bytes) (totalFrames : Z)
  | Metadata (payload : bytes)
  | ErrorFrame (ctx : Ctx).

(** ** The calls *)
Inductive JobE : Type -> Type :=
  | Now : JobE Z
  | AddCounter (d : Z) : JobE unit
  | GetJobDeadline (jobID : Z) : JobE (result (Z * bool))
  | HasJobAcknowledged (jobID : Z) : JobE (result bool)
  | AcknowledgeJob (ctx : Ctx) (jobID : Z) : JobE (result unit)
  | AcknowledgeJobAsync (ctx : Ctx) (jobID : Z) : JobE (result Z)
  | GoJoin (ctx : Ctx) (txHash : Z) : JobE unit
  | SelectConfirmed (ctx : Ctx) (txHash timeout : Z) : JobE confirmation
  | HasJobCompleted (jobID : Z) : JobE (result bool)
  | CompleteJob (jobID responseBlobHash responseCiphertextHash : Z) : JobE (result unit)
  | GetSessionEncWorkerKey (sessionID : Z) : JobE (result bytes)
  | FetchBlob (versionedHash blockNumber : Z) : JobE (result bytes)
  | SubmitBlobTx (ctx : Ctx) (data : bytes) : JobE (result (list Z))
  | GetKey (sessionID : Z) : JobE (result bytes)
  | StoreKey (sessionID : Z) (key : bytes) : JobE (result unit)
  | JoinFlight (sessionID : Z) : JobE (option (result bytes))
  | LandFlight (sessionID : Z) (r : result bytes) : JobE unit
  | Encrypt (key plaintext : bytes) : JobE (result bytes)
  | Decrypt (key ciphertext : bytes) : JobE (result bytes)
  | DecryptSessionKey (encWorkerKey : bytes) : JobE (result bytes)
  | Sign (digest : bytes) : JobE (result bytes)
  | Search (ctx : Ctx) (text : string) (maxResults : Z) : JobE (result (list Source))
  | PriorJobs (sessionID jobID blockNumber : Z) : JobE (result (list Z))
  | BuildHistory (key : bytes) (ids : list Z) (blockNumber : Z) : JobE (result (list Message))
  | Generate (ctx : Ctx) (opts : ClientOptions) (model text : string) : JobE (result string)
  | Chat (ctx : Ctx) (opts : ClientOptions) (model : string) (msgs : list Message) : JobE (result string)
  | GenerateStream (ctx : Ctx) (opts : ClientOptions) (model text : string) (images : list string) : JobE stream_answer
  | ChatStream (ctx : Ctx) (opts : ClientOptions) (model : string) (msgs : list Message) : JobE stream_answer
  | Publish (jobID sessionID : Z) (correlationID : string) (f : frame) : JobE unit
  | Ckpt {X : Type} (e : CheckpointStore.CkptE X) : JobE X
  | MarkEligible (jobID completedAt : Z) : JobE (result unit)
  | Transcribe (ctx : Ctx) (audio : bytes) (format : string) : JobE (result string)
  | Synthesize (text voiceName : string) : JobE (result Z)
  | ReadAudio (stream : Z) : JobE (list bytes * option error)
  | CloseAudio (stream : Z) : JobE unit
  | SynthesizeSettled (ctx : Ctx) (text voiceName : string) (maxBytes : Z) : JobE (result (bytes * bool)).

(** ** Calls a program cannot make

    [uses P p]: whatever it is answered, [p] only makes calls that satisfy
    [P]. *)
Fixpoint uses {E A} (P : forall X, E X -> Prop) (p : prog E A) : Prop :=
  match p with
  | Ret _ => True
  | Vis e k => P _ e /\ forall x, uses P (k x)
  end.

Lemma uses_bind {E A B} (P : forall X, E X -> Prop) (p : prog E A) (f : A -> prog E B) :
  uses P p -> (forall a, uses P (f a)) -> uses P (bind p f).
Proof. intros Hp Hf. induction p as [a|X e k IH]; simpl; [apply Hf|]. destruct Hp as [He Hk]. split; [done|]. intros x. by apply IH. Qed.

Definition called_in {E : Type -> Type} (P : forall X, E X -> Prop) (c : called E) : Prop :=
  match c with Called e _ => P _ e end.

Lemma uses_always {E A} (P : forall X, E X -> Prop) (p : prog E A) :
  uses P p -> always p (fun tr _ => Forall (called_in P) tr).
Proof.
  induction p as [a|X e k IH]; simpl; [constructor|]. intros [He Hk] x.
  eapply always_mono; [by apply IH|]. intros tr a Htr. by constructor.
Qed.

Lemma uses_mono {E A} (P Q : forall X, E X -> Prop) (p : prog E A) :
  uses P p -> (forall X e, P X e -> Q X e) -> uses Q p.
Proof. intros Hp HPQ. induction p as [a|X e k IH]; simpl; [done|]. destruct Hp as [He Hk]. split; [by apply HPQ|]. intros x. by apply IH. Qed.

Lemma uses_all {E A} (P : forall X, E X -> Prop) (p : prog E A) : (forall X e, P X e) -> uses P p.
Proof. intros Hp. induction p as [a|X e k IH]; simpl; auto. Qed.
Lemma uses_lift {E F : Type -> Type} {A} (h : forall X, E X -> F X) (P : forall X, F X -> Prop) (p : prog E A) :
  uses (fun X e => P X (h X e)) p -> uses P (lift h p).
Proof. induction p as [a|X e k IH]; simpl; [done|]. intros [He Hk]. split; [done|]. intros x. apply IH, Hk. Qed.

(** Part of the way, too. *)
Lemma uses_reaches {E A} (P : forall X, E X -> Prop) (p : prog E A) tr q :
  reaches p tr q -> uses P p -> Forall (called_in P) tr /\ uses P q.
Proof.
  induction 1 as [p|X e k x tr q Hr IH]; [by split|]. intros [He Hk]. destruct (IH (Hk x)) as [Htr Hq]. split; [by constructor|done].
Qed.
Lemma uses_throughout {E A X} (P : forall Y, E Y -> Prop) (f : forall Y, E Y -> Y -> list X) (p : prog E A) :
  uses P p -> (forall Y (e : E Y) y, P Y e -> f Y e y = []) -> throughout p (fun tr => answered f tr = []).
Proof.
  intros Hp Hf. induction p as [a|Y e k IH]; [done|]. destruct Hp as [He Hk]. split; [done|]. intros x.
  eapply throughout_mono; [by apply IH|]. intros tr Htr. unfold answered in *. simpl. by rewrite (Hf _ _ _ He), Htr.
Qed.

(** Calls outside [P] leave no mark on what is extracted from them alone. *)
Lemma uses_answered {E A X} (P : forall Y, E Y -> Prop) (f : forall Y, E Y -> Y -> list X) (p : prog E A) :
  uses P p -> (forall Y (e : E Y) y, P Y e -> f Y e y = []) -> always p (fun tr _ => answered f tr = []).
Proof.
  intros Hp Hf. induction p as [a|Y e k IH]; [done|]. destruct Hp as [He Hk]. cbn [always]. intros x.
  eapply always_mono; [by apply IH|]. intros tr a Htr. unfold answered in *. simpl. by rewrite (Hf _ _ _ He), Htr.
Qed.

Lemma always_conj {E A} (p : prog E A) (Q Q' : list (called E) -> A -> Prop) :
  always p Q -> always p Q' -> always p (fun tr a => Q tr a /\ Q' tr a).
Proof. revert Q Q'. induction p as [a|X e k IH]; simpl; intros Q Q' H1 H2; [done|]. intros x. by apply IH. Qed.

Lemma answered_cons {E : Type -> Type} {X} (f : forall Y, E Y -> Y -> list X) c tr :
  answered f (c :: tr) = answered f [c] ++ answered f tr.
Proof. unfold answered. simpl. by rewrite app_nil_r. Qed.

Ltac use_calls :=
  repeat (cbn [uses bind call fst snd];
          lazymatch goal with
          | |- True => exact I
          | |- _ /\ _ => split
          | |- forall _, _ => intro
          | |- uses _ (bind _ _) => apply uses_bind
          | |- uses _ (let '(_, _) := ?x in _) => destruct x
          | |- uses _ (match ?x with _ => _ end) => destruct x
          | |- _ => solve [auto 1]
          end).
