(* ===== verification/Ollama.v ===== *)
(** The model client: [internal/ollama/client.go]. Its HTTP exchanges are calls
    that may fail anywhere; the JSON of a request and of a response is
    [encoding/json]'s. *)
From S2P Require Import Prelude Effects GoText Checkpoint JobCalls.

#[local] Open Scope prog_scope.

(** ** The wire *)

(** [Options]. *)
Record Options : Type := MkRequestOptions {
  o_NumPredict : Z;
  o_NumCtx : Z;
  o_Temperature : Z;
  o_Seed : Z;
}.

(** The [keep_alive] and [think] values of a request; absent when [None]. *)
Inductive keep_alive : Type := KeepNumber (n : Z) | KeepText (s : string).
Inductive think_value : Type := ThinkBool (b : bool) | ThinkEffort (level : string).

(** [GenerateRequest] and [ChatRequest]. *)
Record GenerateRequest : Type := MkGenerate {
  g_Model : string;
  g_Prompt : string;
  g_Stream : bool;
  g_KeepAlive : option keep_alive;
  g_Options : Options;
  g_Think : option think_value;
  g_Format : option string;
  g_Images : list string;
}.
Record ChatRequest : Type := MkChat {
  c_Model : string;
  c_Messages : list Message;
  c_Stream : bool;
  c_KeepAlive : option keep_alive;
  c_Options : Options;
  c_Think : option think_value;
  c_Format : option string;
}.
Inductive request : Type :=
  | GenerateReq (r : GenerateRequest)
  | ChatReq (r : ChatRequest)
  | ShowReq (model : string).

(** [timings]. *)
Record timings : Type := MkTimings {
  t_TotalDuration : Z;
  t_LoadDuration : Z;
  t_PromptEvalCount : Z;
  t_PromptEvalDuration : Z;
  t_EvalCount : Z;
  t_EvalDuration : Z;
}.
Definition no_timings : timings := MkTimings 0 0 0 0 0 0.

Definition stats (t : timings) (thinkingBytes : Z) : StreamStats :=
  MkStats (t_PromptEvalCount t) (t_EvalCount t) thinkingBytes (t_LoadDuration t)
    (t_PromptEvalDuration t) (t_EvalDuration t) (t_TotalDuration t).

(** [generateStreamLine], and [chatStreamLine] whose delta is the content of
    its message. *)
Record stream_line : Type := MkLine {
  sl_answer : string;
  sl_thinking : string;
  sl_done : bool;
  sl_error : string;
  sl_timings : timings;
}.

(** [json.Unmarshal] into the response types: [GenerateResponse]'s response,
    [ChatResponse]'s content and thinking, the two stream lines, and
    [TagsResponse]'s model names. *)
Class OllamaJSON := {
  UnmarshalGenerate : bytes -> result string;
  UnmarshalChat : bytes -> result (string * string);
  UnmarshalGenerateLine : bytes -> result stream_line;
  UnmarshalChatLine : bytes -> result stream_line;
  UnmarshalTags : bytes -> result (list string);
}.

(** [ReadLines]: what the line scanner yields of the body until it ends or
    fails; [OnToken] and [OnThinking] are the caller's handlers. *)
Inductive OllamaE : Type -> Type :=
  | Marshal (r : request) : OllamaE (result bytes)
  | NewRequest (method url : string) (body : bytes) : OllamaE (result unit)
  | Do : OllamaE (result Z)
  | ReadAll : OllamaE (result bytes)
  | ReadLines : OllamaE (list bytes * option error)
  | DecodeShow : OllamaE (result (list string))
  | CloseBody : OllamaE unit
  | OnToken (delta : string) : OllamaE (option error)
  | OnThinking (delta : string) : OllamaE (option error).

Module OllamaClient.

Definition deterministicSeed : Z := 42.

(** [ErrEmptyGeneration]. *)
Definition ErrEmptyGeneration_ : error := errors_New ErrEmptyGeneration "ollama returned an empty response".

Definition errEmptyGeneration (contentBytes thinkingBytes : Z) : option error :=
  if 0 <? contentBytes then None
  else if 0 <? thinkingBytes
  then Some (join ErrEmptyGeneration_ (errorf "the whole generation arrived as thinking, which is never transmitted"))
  else Some ErrEmptyGeneration_.

Definition thinkField (o : ClientOptions) : option think_value :=
  if negb (bool_decide (ThinkLevel o = EmptyString)) then Some (ThinkEffort (ThinkLevel o))
  else ThinkBool <$> Think o.

Record t : Type := MkOllama { baseURL : string; opts : ClientOptions }.

(** [WithOverrides]: a copy; the client itself keeps its options. *)
Definition WithOverrides (c : t) (mutate : ClientOptions -> ClientOptions) : t := MkOllama (baseURL c) (mutate (opts c)).

(** [Options()]. *)
Definition Options_ (c : t) : ClientOptions := opts c.

Definition len (s : string) : Z := Z.of_nat (String.length s).

(** What a generation has accumulated. *)
Record generation : Type := MkGen { full : string; thinking : Z; gen_last : timings }.
Definition no_generation : generation := MkGen "" 0 no_timings.

(** [StreamHandlers]: whether there is an [OnThinking]; the pipeline always
    passes an [OnToken]. *)
Record StreamHandlers : Type := MkHandlers { has_OnToken : bool; has_OnThinking : bool }.

Section Client.
Context `{OJ : !OllamaJSON}.
Context (c : t).

(** The temperature 0 is greedy decoding. *)
Definition requestOptions : Options :=
  MkRequestOptions (NumPredict (opts c)) (NumCtx (opts c))
    (match Temperature (opts c) with Some temperature => temperature | None => 0 end) deterministicSeed.

Definition keepAlive : option keep_alive :=
  if bool_decide (KeepAlive (opts c) = EmptyString) then None
  else match ParseInt (KeepAlive (opts c)) with
       | Ok n => Some (KeepNumber n)
       | Err _ => Some (KeepText (KeepAlive (opts c)))
       end.

(** The exchange every call starts with: the status of the response. *)
Definition post (name : string) (body : request) : prog OllamaE (result Z) :=
  data <-? wrap_err ("marshal " +:+ name +:+ " request") (call (Marshal body)) ;;
  _ <-? wrap_err ("create " +:+ name +:+ " request")
    (call (NewRequest "POST" (baseURL c +:+ "/api/" +:+ name) data)) ;;
  wrap_err ("ollama " +:+ name +:+ " request") (call Do).

Definition generate_request (stream : bool) (model prompt : string) (images : list string) : request :=
  GenerateReq (MkGenerate model prompt stream keepAlive requestOptions (thinkField (opts c)) (Format (opts c)) images).
Definition chat_request (stream : bool) (model : string) (messages : list Message) : request :=
  ChatReq (MkChat model messages stream keepAlive requestOptions (thinkField (opts c)) (Format (opts c))).

(** What both batch calls do with the response; [decode] yields the answer and
    the thinking beside it. *)
Definition batch (name : string) (body : request) (decode : bytes -> result (string * string))
    : prog OllamaE (result string) :=
  status <-? post name body ;;
  deferred
    (data <-? wrap_err ("read " +:+ name +:+ " response") (call ReadAll) ;;
     if negb (status =? 200) then Ret (Err (errorf ("ollama " +:+ name +:+ " returned status")))
     else match decode data with
          | Err e => Ret (Err (wrap ("unmarshal " +:+ name +:+ " response") e))
          | Ok (answer, thoughts) =>
              match errEmptyGeneration (len answer) (len thoughts) with
              | Some e => Ret (Err e)
              | None => Ret (Ok answer)
              end
          end) (fun _ => call CloseBody).

Definition Generate (model prompt : string) : prog OllamaE (result string) :=
  batch "generate" (generate_request false model prompt [])
    (fun data => match UnmarshalGenerate data with Ok response => Ok (response, EmptyString) | Err e => Err e end).

Definition Chat (model : string) (messages : list Message) : prog OllamaE (result string) :=
  batch "chat" (chat_request false model messages) UnmarshalChat.

(** ** Streaming *)

(** The closure both streaming calls hand to [stream]. *)
Definition on_line (name : string) (parse : bytes -> result stream_line) (h : StreamHandlers)
    (g : generation) (line : bytes) : prog OllamaE (generation * result bool) :=
  match parse line with
  | Err e => Ret (g, Err (wrap ("unmarshal " +:+ name +:+ " stream line") e))
  | Ok chunk =>
      if negb (bool_decide (sl_error chunk = EmptyString))
      then Ret (g, Err (errorf ("ollama " +:+ name +:+ " stream error: " +:+ sl_error chunk)))
      else
        let g := MkGen (full g) (thinking g + len (sl_thinking chunk)) (gen_last g) in
        e1 <- (if negb (bool_decide (sl_thinking chunk = EmptyString)) && has_OnThinking h
               then call (OnThinking (sl_thinking chunk)) else Ret None) ;;
        match e1 with
        | Some e => Ret (g, Err (wrap (name +:+ " thinking callback") e))
        | None =>
            let g := MkGen (full g +:+ sl_answer chunk) (thinking g) (gen_last g) in
            e2 <- (if negb (bool_decide (sl_answer chunk = EmptyString)) && has_OnToken h
                   then call (OnToken (sl_answer chunk)) else Ret None) ;;
            match e2 with
            | Some e => Ret (g, Err (wrap (name +:+ " token callback") e))
            | None => Ret (if sl_done chunk then MkGen (full g) (thinking g) (sl_timings chunk) else g, Ok (sl_done chunk))
            end
        end
  end.

(** The scan of [stream], until a line says it is done. *)
Fixpoint scan (name : string) (onLine : generation -> bytes -> prog OllamaE (generation * result bool))
    (lines : list bytes) (readErr : option error) (g : generation) : prog OllamaE (generation * option error) :=
  match lines with
  | [] => Ret (g, Some (match readErr with
                        | Some e => wrap ("read " +:+ name +:+ " stream") e
                        | None => errorf ("ollama " +:+ name +:+ " stream ended before done")
                        end))
  | line :: lines =>
      if bool_decide (TrimSpace line = EmptyString) then scan name onLine lines readErr g
      else
        r <- onLine g (TrimSpace line) ;;
        match r with
        | (g, Err e) => Ret (g, Some e)
        | (g, Ok true) => Ret (g, None)
        | (g, Ok false) => scan name onLine lines readErr g
        end
  end.

Definition stream (name : string) (body : request)
    (onLine : generation -> bytes -> prog OllamaE (generation * result bool))
    : prog OllamaE (generation * option error) :=
  r <- post name body ;;
  match r with
  | Err e => Ret (no_generation, Some e)
  | Ok status =>
      deferred
        (if negb (status =? 200) then
           _ <- call ReadAll ;;
           Ret (no_generation, Some (errorf ("ollama " +:+ name +:+ " returned status")))
         else
           ls <- call ReadLines ;;
           scan name onLine (fst ls) (snd ls) no_generation) (fun _ => call CloseBody)
  end.

(** The end of both streaming calls: the response, the model's measurements,
    and the error. *)
Definition streamed (name : string) (body : request) (parse : bytes -> result stream_line) (h : StreamHandlers)
    : prog OllamaE (string * StreamStats * option error) :=
  r <- stream name body (on_line name parse h) ;;
  match r with
  | (_, Some e) => Ret (EmptyString, no_stats, Some e)
  | (g, None) =>
      let st := stats (gen_last g) (thinking g) in
      match errEmptyGeneration (len (full g)) (thinking g) with
      | Some e => Ret (EmptyString, st, Some e)
      | None => Ret (full g, st, None)
      end
  end.

Definition GenerateStream (model prompt : string) (images : list string) (h : StreamHandlers)
    : prog OllamaE (string * StreamStats * option error) :=
  streamed "generate" (generate_request true model prompt images) UnmarshalGenerateLine h.

Definition ChatStream (model : string) (messages : list Message) (h : StreamHandlers)
    : prog OllamaE (string * StreamStats * option error) :=
  streamed "chat" (chat_request true model messages) UnmarshalChatLine h.

(** ** The models on the server *)
Definition get_tags : prog OllamaE (result (list string)) :=
  _ <-? wrap_err "create tags request" (call (NewRequest "GET" (baseURL c +:+ "/api/tags") "")) ;;
  status <-? wrap_err "ollama tags request" (call Do) ;;
  deferred
    (data <-? wrap_err "read tags response" (call ReadAll) ;;
     if negb (status =? 200) then Ret (Err (errorf "ollama tags returned status"))
     else Ret (match UnmarshalTags data with Ok names => Ok names | Err e => Err (wrap "unmarshal tags response" e) end))
    (fun _ => call CloseBody).

(** The names a server's list answers to. *)
Definition loaded (names : list string) : gset string :=
  list_to_set (flat_map (fun n => n :: match CutSuffix n ":latest" with Some base => [base] | None => [] end) names).

Definition VerifyModels (models : list string) : prog OllamaE (result unit) :=
  names <-? get_tags ;;
  let missing := filter (fun m => m ∉ loaded names) models in
  Ret (match missing with [] => Ok tt | _ => Err (errorf "missing models on Ollama server") end).

Definition capabilities (model : string) : prog OllamaE (result (list string)) :=
  data <-? call (Marshal (ShowReq model)) ;;
  _ <-? wrap_err "create show request" (call (NewRequest "POST" (baseURL c +:+ "/api/show") data)) ;;
  status <-? wrap_err "ollama show request" (call Do) ;;
  deferred
    (if negb (status =? 200) then
       _ <- call ReadAll ;; Ret (Err (errorf "ollama show returned status"))
     else wrap_err "decode show response" (call DecodeShow)) (fun _ => call CloseBody).

(** The models that think, and the joined errors of those it could not
    describe. *)
Fixpoint ThinkingModels (models : list string) : prog OllamaE (list string * option error) :=
  match models with
  | [] => Ret ([], None)
  | m :: models =>
      caps <- capabilities m ;;
      rest <- ThinkingModels models ;;
      Ret (match caps with
           | Err e => (fst rest, Some (match snd rest with Some e' => join (wrap m e) e' | None => wrap m e end))
           | Ok caps => (if bool_decide ("thinking" ∈ caps) then m :: fst rest else fst rest, snd rest)
           end)
  end.
End Client.

(** [WithReasoningAllowance]. *)
Definition with_cap (numPredict : Z) (o : ClientOptions) : ClientOptions :=
  MkOptions (KeepAlive o) numPredict (NumCtx o) (Think o) (ThinkLevel o) (Temperature o) (Format o).

Definition WithReasoningAllowance (os : gmap string ClientOptions) (thinking : list string) (base numPredict : Z)
    : gmap string ClientOptions :=
  if bool_decide (thinking = []) || (base <=? 0) || (numPredict <=? base) then os
  else
    foldl (fun out m =>
      let o := default no_options (out !! m) in
      <[m := if NumPredict o =? 0 then with_cap numPredict o else o]> out) os thinking.

(** A paid cap is never raised, nor a model that does not think touched. *)
Lemma allowance_keeps os thinking base n m o :
  os !! m = Some o -> m ∉ thinking \/ NumPredict o <> 0 -> WithReasoningAllowance os thinking base n !! m = Some o.
Proof.
  intros Ho Hk. unfold WithReasoningAllowance. destruct (_ || _); [done|].
  revert os Ho. induction thinking as [|m' thinking IH]; intros os Ho; cbn; [done|].
  apply IH; [destruct Hk; [left; set_solver|by right]|].
  destruct (decide (m = m')) as [<-|Hm]; [|by rewrite lookup_insert_ne by congruence].
  rewrite lookup_insert_eq, Ho. cbn. destruct Hk as [Hk|Hk]; [set_solver|]. by rewrite (proj2 (Z.eqb_neq _ _) Hk).
Qed.

(** ** What a stream says

    The objects on its lines, and the generation they spell: the objects up to
    the first that says it is done, none of them broken or an error. *)
Definition objects (parse : bytes -> result stream_line) (lines : list bytes) : list (result stream_line) :=
  parse <$> filter (fun l => l <> EmptyString) (TrimSpace <$> lines).

Fixpoint finished (os : list (result stream_line)) : option (list stream_line) :=
  match os with
  | Ok o :: os =>
      if negb (bool_decide (sl_error o = EmptyString)) then None
      else if sl_done o then Some [o] else cons o <$> finished os
  | _ => None
  end.

Definition concat_strings (l : list string) : string := foldr String.append EmptyString l.
Lemma concat_strings_app l l' : concat_strings (l ++ l') = concat_strings l +:+ concat_strings l'.
Proof.
  induction l as [|s l IH]; [done|]. change (s +:+ concat_strings (l ++ l') = (s +:+ concat_strings l) +:+ concat_strings l').
  by rewrite append_assoc, IH.
Qed.

Definition text_of (g : list stream_line) : string := concat_strings (sl_answer <$> g).
Definition thoughts_of (g : list stream_line) : Z := foldr Z.add 0 (len ∘ sl_thinking <$> g).
Definition timings_of (g : list stream_line) : timings := default no_timings (sl_timings <$> last g).

(** The handler calls of one object. *)
Definition line_deltas (h : StreamHandlers) (o : stream_line) : list (bool * string) :=
  (if negb (bool_decide (sl_thinking o = EmptyString)) && has_OnThinking h then [(true, sl_thinking o)] else []) ++
  (if negb (bool_decide (sl_answer o = EmptyString)) && has_OnToken h then [(false, sl_answer o)] else []).

(** Of a trace: the bodies read, the handler calls, and what they returned. *)
Definition bodies (tr : list (called OllamaE)) : list (list bytes * option error) :=
  answered (fun Y e => match e in OllamaE Y return Y -> list (list bytes * option error) with
                       | ReadLines => fun b => [b] | _ => fun _ => [] end) tr.
Definition deltas (tr : list (called OllamaE)) : list (bool * string) :=
  answered (fun Y e => match e in OllamaE Y return Y -> list (bool * string) with
                       | OnToken d => fun _ => [(false, d)]
                       | OnThinking d => fun _ => [(true, d)]
                       | _ => fun _ => [] end) tr.
Definition callbacks (tr : list (called OllamaE)) : list (option error) :=
  answered (fun Y e => match e in OllamaE Y return Y -> list (option error) with
                       | OnToken _ => fun r => [r] | OnThinking _ => fun r => [r] | _ => fun _ => [] end) tr.

Lemma bodies_app tr tr' : bodies (tr ++ tr') = bodies tr ++ bodies tr'.
Proof. apply answered_app. Qed.
Lemma deltas_app tr tr' : deltas (tr ++ tr') = deltas tr ++ deltas tr'.
Proof. apply answered_app. Qed.
Lemma callbacks_app tr tr' : callbacks (tr ++ tr') = callbacks tr ++ callbacks tr'.
Proof. apply answered_app. Qed.

(** The calls around the body of a response. *)
Definition transport (X : Type) (e : OllamaE X) : Prop :=
  match e with OnToken _ | OnThinking _ | ReadLines => False | _ => True end.

Definition quiet (tr : list (called OllamaE)) : Prop := bodies tr = [] /\ deltas tr = [] /\ callbacks tr = [].

Lemma transport_quiet {A} (p : prog OllamaE A) : uses transport p -> always p (fun tr _ => quiet tr).
Proof. intros Hp. repeat apply always_conj; apply (uses_answered transport); try done; by intros ? []. Qed.

Lemma quiet_app tr tr' : quiet tr -> bodies (tr ++ tr') = bodies tr' /\ deltas (tr ++ tr') = deltas tr' /\
  callbacks (tr ++ tr') = callbacks tr'.
Proof. intros (H1 & H2 & H3). by rewrite bodies_app, deltas_app, callbacks_app, H1, H2, H3. Qed.

Section Stream.
Context `{OJ : !OllamaJSON}.
Context (c : t).

Lemma post_quiet name body : always (post c name body) (fun tr _ => quiet tr).
Proof. apply transport_quiet. unfold post, try, wrap_err. use_calls; done. Qed.

(** The scan finds the generation, and makes its handler calls as long as none
    of them fails. *)
Definition scan_post (parse : bytes -> result stream_line) (h : StreamHandlers) (ls : list bytes) (g : generation)
    (tr : list (called OllamaE)) (r : generation * option error) : Prop :=
  bodies tr = [] /\
  (snd r = None -> Forall (eq None) (callbacks tr)) /\
  (Forall (eq None) (callbacks tr) ->
   match finished (objects parse ls) with
   | Some os => r = (MkGen (full g +:+ text_of os) (thinking g + thoughts_of os) (timings_of os), None) /\
                deltas tr = flat_map (line_deltas h) os
   | None => snd r <> None
   end).

Definition line_post (parse : bytes -> result stream_line) (h : StreamHandlers) (g : generation) (line : bytes)
    (tr : list (called OllamaE)) (r : generation * result bool) : Prop :=
  bodies tr = [] /\
  (is_ok (snd r) = true -> Forall (eq None) (callbacks tr)) /\
  (Forall (eq None) (callbacks tr) ->
   match parse line with
   | Ok o => if negb (bool_decide (sl_error o = EmptyString)) then is_ok (snd r) = false
             else r = (MkGen (full g +:+ sl_answer o) (thinking g + len (sl_thinking o))
                         (if sl_done o then sl_timings o else gen_last g), Ok (sl_done o)) /\
                  deltas tr = line_deltas h o
   | Err _ => is_ok (snd r) = false
   end).

Lemma on_line_always name parse h g line : always (on_line name parse h g line) (line_post parse h g line).
Proof.
  unfold on_line, line_post. destruct (parse line) as [o|e]; [|by repeat split; constructor].
  unfold line_deltas. destruct (negb (bool_decide (sl_error o = EmptyString))); [by repeat split; constructor|].
  walk; cbn; repeat split; intros; simplify_eq; try done; try (by repeat constructor);
    try (match goal with H : Forall _ _ |- _ => by inversion_clear H; simplify_eq end).
  all: try (match goal with H : Forall _ (_ :: _) |- _ => inversion_clear H as [|? ? ? H']; inversion_clear H'; simplify_eq end).
  all: destruct (sl_done o); done.
Qed.

Lemma Forall_None_app (l l' : list (option error)) :
  Forall (eq None) (l ++ l') <-> Forall (eq None) l /\ Forall (eq None) l'.
Proof. apply Forall_app. Qed.

Lemma finished_cons_text (o : stream_line) os :
  text_of (o :: os) = sl_answer o +:+ text_of os /\ thoughts_of (o :: os) = len (sl_thinking o) + thoughts_of os.
Proof. done. Qed.

Lemma timings_cons o os : os <> [] -> timings_of (o :: os) = timings_of os.
Proof. by destruct os. Qed.

Lemma finished_nonempty os g : finished os = Some g -> g <> [].
Proof.
  destruct os as [|[o|e] os]; cbn; try done. destruct (negb _); [done|]. destruct (sl_done o); [by intros [= <-]|].
  destruct (finished os); [|done]. by intros [= <-].
Qed.

Lemma objects_cons parse l ls :
  objects parse (l :: ls) = if bool_decide (TrimSpace l = EmptyString) then objects parse ls
                            else parse (TrimSpace l) :: objects parse ls.
Proof.
  unfold objects. rewrite fmap_cons. destruct (decide (TrimSpace l = EmptyString)); [rewrite bool_decide_true by done|rewrite bool_decide_false by done]; [by rewrite filter_cons_False by auto|by rewrite filter_cons_True by done].
Qed.

Lemma line_scan_always name parse h ls e : forall g,
  always (scan name (on_line name parse h) ls e g) (scan_post parse h ls g).
Proof.
  induction ls as [|l ls IH]; intros g; cbn [scan].
  { split; [done|]. split; [done|]. by intros _. }
  unfold scan_post. rewrite objects_cons. case_bool_decide; [apply IH|].
  apply always_bind. eapply always_mono; [apply on_line_always|]. intros tr1 [g1 r1] (Hb & Hok & Hline). cbn [fst snd] in *.
  cbn [finished]. destruct (parse (TrimSpace l)) as [o|e0] eqn:Ep.
  2: { destruct r1 as [b|e1]; cbn [always fst snd].
       - exfalso. specialize (Hok eq_refl). by specialize (Hline Hok).
       - rewrite app_nil_r. by repeat split. }
  destruct (negb (bool_decide (sl_error o = EmptyString))) eqn:Eerr.
  { destruct r1 as [b|e1]; cbn [always fst snd]; [|rewrite app_nil_r; by repeat split].
    exfalso. specialize (Hok eq_refl). by specialize (Hline Hok). }
  destruct r1 as [b|e1]; cbn [always fst snd].
  2: { rewrite app_nil_r. repeat split; try done. all: intros Hf; by destruct (Hline Hf). }
  pose proof (Hok eq_refl) as Hn. destruct (Hline Hn) as [[= -> ->] Hd]. destruct (sl_done o) eqn:Ed; cbn [always].
  { rewrite app_nil_r. split; [done|]. split; [done|]. intros _.
    rewrite (proj1 (finished_cons_text o [])), (proj2 (finished_cons_text o [])). unfold thoughts_of, text_of, timings_of.
    cbn. by rewrite append_nil_r, app_nil_r, Z.add_0_r. }
  eapply always_mono; [apply IH|]. intros tr2 r2 (Hb2 & Hok2 & Hsc). rewrite bodies_app, callbacks_app, deltas_app, Hb, Hb2.
  split; [done|]. split; [intros Hr; apply Forall_None_app; auto|]. intros [_ Hf]%Forall_None_app. specialize (Hsc Hf).
  destruct (finished (objects parse ls)) as [os|] eqn:Ef; cbn [fmap option_fmap option_map]; [|done].
  destruct Hsc as [-> Hd2]. rewrite (timings_cons o os) by (by eapply finished_nonempty).
  destruct (finished_cons_text o os) as [-> ->]. cbn [full thinking flat_map]. by rewrite append_assoc, Z.add_assoc, Hd, Hd2.
Qed.

(** ** The two streaming calls *)
Inductive stream_call : Type :=
  | StreamGenerate (model prompt : string) (images : list string)
  | StreamChat (model : string) (messages : list Message).
Definition run_call (k : stream_call) (h : StreamHandlers) : prog OllamaE (string * StreamStats * option error) :=
  match k with
  | StreamGenerate model prompt images => GenerateStream c model prompt images h
  | StreamChat model messages => ChatStream c model messages h
  end.
Definition line_parser (k : stream_call) : bytes -> result stream_line :=
  match k with StreamGenerate _ _ _ => UnmarshalGenerateLine | StreamChat _ _ => UnmarshalChatLine end.

Record stream_post (parse : bytes -> result stream_line) (h : StreamHandlers) (tr : list (called OllamaE))
    (r : string * StreamStats * option error) : Prop := {
  sp_answer : snd r = None -> exists ls e g,
    bodies tr = [(ls, e)] /\ finished (objects parse ls) = Some g /\
    fst r = (text_of g, stats (timings_of g) (thoughts_of g)) /\ text_of g <> EmptyString /\
    deltas tr = flat_map (line_deltas h) g;
  sp_complete ls e g : bodies tr = [(ls, e)] -> finished (objects parse ls) = Some g ->
    text_of g <> EmptyString -> Forall (eq None) (callbacks tr) -> snd r = None;
  sp_nothing : snd r <> None -> fst (fst r) = EmptyString;
}.

Lemma len_pos s : (0 <? len s) = negb (bool_decide (s = EmptyString)).
Proof. destruct s; [done|]. unfold len. rewrite (proj2 (Z.ltb_lt _ _)) by (cbn; lia). done. Qed.

Lemma errEmpty_none s n : errEmptyGeneration (len s) n = None <-> s <> EmptyString.
Proof.
  unfold errEmptyGeneration. rewrite len_pos. case_bool_decide; cbn; [|done]. split; [by destruct (0 <? n)|done].
Qed.

(** The exchange behind a streaming call, and the scan of its body. *)
Definition exchange_post (parse : bytes -> result stream_line) (h : StreamHandlers) (tr : list (called OllamaE))
    (r : generation * option error) : Prop :=
  (bodies tr = [] /\ snd r <> None) \/
  exists ls e tr', bodies tr = [(ls, e)] /\ deltas tr = deltas tr' /\ callbacks tr = callbacks tr' /\
    scan_post parse h ls no_generation tr' r.

Lemma closed_quiet tr : bodies (tr ++ [Called CloseBody tt]) = bodies tr /\
  deltas (tr ++ [Called CloseBody tt]) = deltas tr /\ callbacks (tr ++ [Called CloseBody tt]) = callbacks tr.
Proof. rewrite bodies_app, deltas_app, callbacks_app. cbn. by rewrite !app_nil_r. Qed.

Lemma stream_always name body parse h : always (stream c name body (on_line name parse h)) (exchange_post parse h).
Proof.
  unfold stream. apply always_bind. eapply always_mono; [apply post_quiet|]. intros tr0 r0 (Hb & Hd & Hc).
  destruct r0 as [status|e]; cbn [always].
  2: { left. by rewrite app_nil_r. }
  unfold deferred. apply always_bind. destruct (negb (status =? 200)).
  { cbn. intros x []. left. by rewrite !bodies_app, Hb. }
  cbn [bind always call]. intros [ls e]. eapply always_mono; [apply line_scan_always|]. intros tr r Hs. cbn [always bind call].
  intros []. right. exists ls, e, tr. rewrite bodies_app, deltas_app, callbacks_app, Hb, Hd, Hc.
  destruct (closed_quiet tr) as (Eb & Ed & Ec), Hs as [Hbs Hs]. cbn [app].
  split; [|split; [exact Ed|split; [exact Ec|by split]]].
  transitivity ([(ls, e)] ++ bodies (tr ++ [Called CloseBody tt])); [done|]. by rewrite Eb, Hbs.
Qed.

Lemma streamed_always name body parse h : always (streamed c name body parse h) (stream_post parse h).
Proof.
  unfold streamed. apply always_bind. eapply always_mono; [apply stream_always|].
  intros tr [g [e|]] Hx; cbn [always]; rewrite ?app_nil_r.
  { split; cbn; try done. intros ls e' os Hb Hf Ht Hn. exfalso.
    destruct Hx as [[Hb' _]|(ls' & e1 & tr' & Hb' & _ & Hc & _ & _ & Hs)]; rewrite Hb in Hb'; simplify_eq.
    rewrite Hc in Hn. specialize (Hs Hn). rewrite Hf in Hs. by destruct Hs. }
  destruct Hx as [[_ Hx]|(ls & e & tr' & Hb & Hd & Hc & _ & Hok & Hs)]; [done|]. specialize (Hs (Hok eq_refl)).
  destruct (finished (objects parse ls)) as [os|] eqn:Ef; [|by destruct Hs]. destruct Hs as [[= ->] Hd'].
  cbn [full thinking gen_last no_generation].
  change (EmptyString +:+ text_of os) with (text_of os). rewrite (Z.add_0_l (thoughts_of os)).
  destruct (errEmptyGeneration _ _) as [e0|] eqn:E0; cbn [always]; rewrite ?app_nil_r; split; cbn [fst snd]; try done.
  - intros ls' e' os' Hb' Hf Ht _. rewrite Hb in Hb'. simplify_eq. exfalso.
    apply (errEmpty_none _ (thoughts_of os)) in Ht. congruence.
  - intros _. exists ls, e, os. apply errEmpty_none in E0. by rewrite Hd, Hd'.
Qed.

Lemma run_call_always k h : always (run_call k h) (stream_post (line_parser k) h).
Proof. destruct k; apply streamed_always. Qed.

(** C25. A streaming call returns what the stream says and nothing else: it
    succeeds exactly when the exchange went through, no handler failed, and
    the body holds, up to its first object that says it is done, only well
    formed objects without an error whose answer is not empty; a stream cut
    off before that is an error, as is an answer that is all thinking. The
    response is then the concatenation of the answer parts, byte for byte, the
    measurements are those of the last object with the thinking counted, and
    the handlers were called with every part, in order; on an error no partial
    answer is returned. *)
Theorem stream_is_the_generation k h tr r : runs (run_call k h) tr r -> stream_post (line_parser k) h tr r.
Proof. apply always_runs, run_call_always. Qed.

(** What the consumer's handler saw is the response. *)
Lemma answer_deltas h g : has_OnToken h = true ->
  concat_strings (snd <$> filter (fun d => fst d = false) (flat_map (line_deltas h) g)) = text_of g.
Proof.
  intros Hh. induction g as [|o g IH]; [done|]. cbn [flat_map]. rewrite (proj1 (finished_cons_text o g)), <- IH.
  rewrite filter_app, fmap_app. unfold line_deltas at 1. rewrite Hh, andb_true_r.
  rewrite filter_app, fmap_app. destruct (_ && has_OnThinking h); cbn; case_bool_decide as Ha; cbn; try done; by rewrite Ha.
Qed.
End Stream.

(** ** An instance for concrete runs

    A line is an answer part, [.] says done, [?] is thinking, [!] an error. *)
Definition plain_line (b : bytes) : result stream_line :=
  if bool_decide (b = ".")%string then Ok (MkLine "" "" true "" (MkTimings 9 1 2 3 4 5))
  else if bool_decide (b = "?")%string then Ok (MkLine "" "hmm" false "" no_timings)
  else if bool_decide (b = "!")%string then Ok (MkLine "" "" false "out of memory" no_timings)
  else Ok (MkLine b "" false "" no_timings).
Definition plain_json : OllamaJSON :=
  {| UnmarshalGenerate := fun b => Ok b; UnmarshalChat := fun b => Ok (b, EmptyString);
     UnmarshalGenerateLine := plain_line; UnmarshalChatLine := plain_line; UnmarshalTags := fun b => Ok [b] |}.
#[local] Existing Instance plain_json.

Definition demo_client : t := MkOllama "http://ollama" (MkOptions "-1" 512 0 (Some false) "" None None).
Definition demo_server (lines : list bytes) (cut : option error) : handler OllamaE unit := fun X e w =>
  match e in OllamaE X return X * unit with
  | Marshal _ => (Ok "{}"%string, tt)
  | NewRequest _ _ _ => (Ok tt, tt)
  | Do => (Ok 200, tt)
  | ReadAll => (Ok "qwen:latest"%string, tt)
  | ReadLines => ((lines, cut), tt)
  | DecodeShow => (Ok ["thinking"%string], tt)
  | CloseBody => (tt, tt)
  | OnToken _ | OnThinking _ => (None, tt)
  end.
Definition both_handlers : StreamHandlers := MkHandlers true true.
Definition demo_stream (lines : list bytes) (cut : option error) :=
  interp (demo_server lines cut) (run_call demo_client (StreamGenerate "m" "hi" []) both_handlers) tt.

Example demo_streams :
  let lines := ["?"; "Hel"; " "; "lo"; "."; "ignored"]%string in
  snd (fst (demo_stream lines None)) = ("Hello"%string, MkStats 2 4 3 1 3 5 9, None) /\
  deltas (fst (fst (demo_stream lines None))) = [(true, "hmm"); (false, "Hel"); (false, "lo")]%string /\
  snd (fst (demo_stream ["Hel"; "lo"]%string None))
    = (EmptyString, no_stats, Some (errorf "ollama generate stream ended before done")) /\
  snd (fst (demo_stream ["Hel"; "!"; "."]%string None))
    = (EmptyString, no_stats, Some (errorf "ollama generate stream error: out of memory")) /\
  option_map err_is (snd (snd (fst (demo_stream ["?"; "."]%string None)))) = Some [ErrEmptyGeneration].
Proof. vm_compute. by repeat split. Qed.

Lemma stream_is_the_generation_witness :
  exists tr, deltas tr = [(false, "Hi"%string)] /\
    stream_post plain_line both_handlers tr ("Hi"%string, stats (MkTimings 9 1 2 3 4 5) 0, None).
Proof.
  exists (fst (fst (demo_stream ["Hi"; "."]%string None))). split; [vm_compute; reflexivity|].
  exact (stream_is_the_generation demo_client (StreamGenerate "m" "hi" []) both_handlers _ _
    (interp_run (demo_server ["Hi"; "."]%string None) (run_call demo_client (StreamGenerate "m" "hi" []) both_handlers) tt)).
Defined.
End OllamaClient.
