(* ===== verification/Deadline.v ===== *)
(** The on-chain deadline guard of a job: [internal/pipeline/deadline.go] and
    its voice gate in [internal/pipeline/voice.go]. *)
From S2P Require Import Prelude Effects JobCalls.

#[local] Open Scope prog_scope.

Module Deadline.

Definition defaultSettleReserve : Z := 25 * Second.
Definition defaultCompletionReserve : Z := 12 * Second.
Definition defaultMinInferenceBudget : Z := 10 * Second.

Record deadlineGuard : Type := MkGuard {
  jobID : Z;
  settleReserve : Z;
  completionReserve : Z;
  minInferenceBudget : Z;
}.

(** [newDeadlineGuard], from the four fields of the configuration it reads and
    whether the chain client reports deadlines. *)
Definition newDeadlineGuard (enabled is_client : bool) (settle completion minInference id : Z)
    : option deadlineGuard :=
  if negb enabled then None
  else if negb is_client then None
  else Some (MkGuard id
    (if settle <=? 0 then defaultSettleReserve else settle)
    (if completion <=? 0 then defaultCompletionReserve else completion)
    (if minInference <=? 0 then defaultMinInferenceBudget else minInference)).

(** [settleReserve + minInferenceBudget], an [int64]. *)
Definition inference_need (g : deadlineGuard) : Z := i64_wrap (settleReserve g + minInferenceBudget g).

(** [read]: [None] when the read failed. *)
Definition read (g : deadlineGuard) : prog JobE (option (Z * bool)) :=
  r <- call (GetJobDeadline (jobID g)) ;;
  Ret (match r with Ok d => Some d | Err _ => None end).

(** [time.Until]. *)
Definition Until (t : Z) : prog JobE Z :=
  now <- call Now ;;
  Ret (time_Sub t now).

Definition checkPickup (g : option deadlineGuard) : prog JobE (result unit) :=
  match g with
  | None => Ret (Ok tt)
  | Some g =>
      r <- read g ;;
      match r with
      | None => Ret (Ok tt)
      | Some (deadline, acknowledged) =>
          remaining <- Until deadline ;;
          if remaining <=? 0 then
            Ret (Err (noRetry (wrap "stage 1 (ack)" (wrap "on-chain deadline passed" ErrJobDoomed_))))
          else if acknowledged && (remaining <=? inference_need g) then
            Ret (Err (noRetry (wrap "stage 1 (ack)" (wrap "too little remains" ErrJobDoomed_))))
          else Ret (Ok tt)
      end
  end.

(** [gateInference]: the context inference runs under. *)
Definition gateInference (ctx : Ctx) (g : option deadlineGuard) : prog JobE (result Ctx) :=
  match g with
  | None => Ret (Ok ctx)
  | Some g =>
      r <- read g ;;
      match r with
      | None => Ret (Ok ctx)
      | Some (deadline, acknowledged) =>
          if negb acknowledged then Ret (Ok ctx)
          else
            remaining <- Until deadline ;;
            if remaining <=? inference_need g then
              Ret (Err (noRetry (wrap "stage 5 (inference)" ErrJobDoomed_)))
            else Ret (Ok (WithDeadline ctx (deadline - settleReserve g)))
      end
  end.

Definition gateBlobSubmit (g : option deadlineGuard) : prog JobE (result unit) :=
  match g with
  | None => Ret (Ok tt)
  | Some g =>
      r <- read g ;;
      match r with
      | None => Ret (Ok tt)
      | Some (deadline, _) =>
          remaining <- Until deadline ;;
          if remaining <=? completionReserve g then
            Ret (Err (noRetry (wrap "stage 8 (submit blob)" ErrJobDoomed_)))
          else Ret (Ok tt)
      end
  end.

Definition isDoomedNow (g : option deadlineGuard) : prog JobE bool :=
  match g with
  | None => Ret false
  | Some g =>
      r <- read g ;;
      match r with
      | None => Ret false
      | Some (deadline, _) => now <- call Now ;; Ret (deadline <? now)
      end
  end.

Definition voiceBudgetOK (g : option deadlineGuard) (need : Z) : prog JobE bool :=
  match g with
  | None => Ret true
  | Some g =>
      r <- read g ;;
      match r with
      | None => Ret true
      | Some (deadline, _) =>
          remaining <- Until deadline ;;
          Ret (negb (remaining <=? i64_wrap (completionReserve g + need)))
      end
  end.

(** ** What the gates read *)
Definition deadlines_read (tr : list (called JobE)) : list (result (Z * bool)) :=
  answered (fun Y e => match e in JobE Y return Y -> list (result (Z * bool)) with
                       | GetJobDeadline _ => fun r => [r]
                       | _ => fun _ => [] end) tr.
Definition clock_read (tr : list (called JobE)) : list Z :=
  answered (fun Y e => match e in JobE Y return Y -> list Z with Now => fun t => [t] | _ => fun _ => [] end) tr.

(** The calls of a gate: a reading of the deadline, one of the clock. *)
Definition looks (X : Type) (e : JobE X) : Prop :=
  match e with GetJobDeadline _ | Now => True | _ => False end.

Ltac gate := unfold read, Until, looks; simpl; repeat (case_match; simpl; try split; try intro; auto).

Lemma checkPickup_looks g : uses looks (checkPickup g).
Proof. unfold checkPickup. gate. Qed.
Lemma gateInference_looks ctx g : uses looks (gateInference ctx g).
Proof. unfold gateInference. gate. Qed.
Lemma gateBlobSubmit_looks g : uses looks (gateBlobSubmit g).
Proof. unfold gateBlobSubmit. gate. Qed.
Lemma isDoomedNow_looks g : uses looks (isDoomedNow g).
Proof. unfold isDoomedNow. gate. Qed.
Lemma voiceBudgetOK_looks g need : uses looks (voiceBudgetOK g need).
Proof. unfold voiceBudgetOK. gate. Qed.

(** A refusal is final and named. *)
Definition refused {A} (r : result A) : Prop :=
  exists e, r = Err e /\ errors_Is e ErrJobDoomed = true /\ errors_Is e SkipRetry = true.

(** What one gate does with its one reading: it refuses exactly when the chain
    answered and the answer leaves too little time. *)
Definition judged {A} (tight : Z -> bool -> Z -> bool) (tr : list (called JobE)) (r : result A) : Prop :=
  (refused r /\ exists d a now, deadlines_read tr = [Ok (d, a)] /\ clock_read tr = [now] /\ tight d a now = true) \/
  (is_ok r = true /\ forall d a now, deadlines_read tr = [Ok (d, a)] -> clock_read tr = [now] -> tight d a now = false).

Ltac judge :=
  walk; cbv beta delta [judged deadlines_read clock_read answered]; cbn [flat_map app];
  first [ left; split; [eexists; split; [reflexivity|split; vm_compute; reflexivity]|];
          do 3 eexists; split; [reflexivity|]; split; [reflexivity|]
        | right; split; [reflexivity|]; intros; simplify_eq ];
  repeat match goal with
         | E : negb ?a = _ |- _ => is_var a; destruct a; simplify_eq/=
         | E : _ = ?b |- _ => rewrite E
         end; done.

Lemma checkPickup_judges g :
  always (checkPickup (Some g)) (judged (fun d a now =>
    (time_Sub d now <=? 0) || (a && (time_Sub d now <=? inference_need g)))).
Proof. unfold checkPickup, read, Until. judge. Qed.

Lemma gateInference_judges ctx g :
  always (gateInference ctx (Some g)) (judged (fun d a now => a && (time_Sub d now <=? inference_need g))).
Proof. unfold gateInference, read, Until. judge. Qed.

Lemma gateBlobSubmit_judges g :
  always (gateBlobSubmit (Some g)) (judged (fun d _ now => time_Sub d now <=? completionReserve g)).
Proof. unfold gateBlobSubmit, read, Until. judge. Qed.

(** The inference context ends a settle reserve before the deadline of an
    acknowledged job, and is the job's own otherwise. *)
Definition clamped (ctx : Ctx) (g : deadlineGuard) (tr : list (called JobE)) (r : result Ctx) : Prop :=
  forall ctx', r = Ok ctx' ->
  (ctx' = ctx /\ forall d, deadlines_read tr <> [Ok (d, true)]) \/
  exists d, deadlines_read tr = [Ok (d, true)] /\ ctx' = WithDeadline ctx (d - settleReserve g).

Lemma gateInference_context ctx g : always (gateInference ctx (Some g)) (clamped ctx g).
Proof.
  unfold gateInference, read, Until.
  walk; cbv beta delta [clamped deadlines_read answered]; cbn [flat_map app]; intros ctx' Hr; simplify_eq;
    repeat match goal with E : negb ?a = _ |- _ => is_var a; destruct a; simplify_eq/= end;
    first [left; split; [done|congruence] | right; eauto].
Qed.
End Deadline.
