(* ===== verification/Stream.v ===== *)
(** Incremental delivery: [internal/pipeline/stream.go], the artifact emitter
    of [artifact.go] and the Redis publisher of [handler.go]. Deltas are
    batched per kind, encrypted batch by batch and published as numbered
    frames. *)
From S2P Require Import Prelude Effects GoText Checkpoint JobCalls.

#[local] Open Scope prog_scope.

(** [pkgtypes.FrameKind] and its constants. *)
Class FrameKinds := {
  FrameKindText : string;
  FrameKindReasoning : string;
  FrameKindArtifact : string;
  FrameKindAudio : string;
  FrameKindStats : string;
  Normalize : string -> string;
}.

(** What the streamer relies on: normalising is idempotent and never yields the
    empty kind, which stands for "none yet", and the kinds it drains are
    normal forms. *)
Class FrameKindLaws (K : FrameKinds) : Prop := {
  Normalize_idem k : Normalize (Normalize k) = Normalize k;
  Normalize_nonempty k : Normalize k <> EmptyString;
  Normalize_constant k :
    k ∈ [FrameKindReasoning; FrameKindArtifact; FrameKindAudio; FrameKindText] -> Normalize k = k;
}.

(** The JSON of a stats frame and of an artifact descriptor. *)
Class Payloads := {
  stats_payload : StreamStats -> Z -> result bytes;
  artifact_payload : string -> string -> bytes -> result bytes;
}.

Module Stream.

Definition defaultStreamChunkTokens : Z := 32.
Definition defaultStreamChunkInterval : Z := 100 * 1000000.

Record tokenCoalescer : Type := MkCoalescer {
  maxTokens : Z;
  maxInterval : Z;
  buf : string;
  count : Z;
  batchStart : Z;
}.

Definition newTokenCoalescer (maxTokens maxInterval : Z) : tokenCoalescer :=
  MkCoalescer (if maxTokens <=? 0 then defaultStreamChunkTokens else maxTokens)
    (if maxInterval <=? 0 then defaultStreamChunkInterval else maxInterval) "" 0 0.

(** [Flush]: the batch it hands to [emit], if any. *)
Definition Flush (c : tokenCoalescer) : tokenCoalescer * option string :=
  if count c =? 0 then (c, None)
  else (MkCoalescer (maxTokens c) (maxInterval c) "" 0 (batchStart c), Some (buf c)).

(** [tokenCoalescer.Add]; the clock is read a second time only below the token
    threshold. *)
Definition coalesce (c : tokenCoalescer) (delta : string) : prog JobE (tokenCoalescer * option string) :=
  if bool_decide (delta = EmptyString) then Ret (c, None)
  else
    start <- (if count c =? 0 then call Now else Ret (batchStart c)) ;;
    let c := MkCoalescer (maxTokens c) (maxInterval c) (buf c +:+ delta) (count c + 1) start in
    if maxTokens c <=? count c then Ret (Flush c)
    else
      now <- call Now ;;
      if maxInterval c <=? time_Sub now (batchStart c) then Ret (Flush c) else Ret (c, None).

(** [chunkStreamer]; the client by the options it sends. *)
Record chunkStreamer : Type := MkStreamer {
  client : ClientOptions;
  sctx : Ctx;
  jobID : Z;
  sessionID : Z;
  corrID : string;
  sessionKey : bytes;
  seq : Z;
  coalescers : gmap string tokenCoalescer;
  lastKind : string;
  s_maxTokens : Z;
  s_maxInterval : Z;
  started : Z;
  firstChunkAt : option Z;
  sawText : bool;
}.

Definition put_coalescer (k : string) (c : tokenCoalescer) (s : chunkStreamer) : chunkStreamer :=
  MkStreamer (client s) (sctx s) (jobID s) (sessionID s) (corrID s) (sessionKey s) (seq s)
    (<[k := c]> (coalescers s)) (lastKind s) (s_maxTokens s) (s_maxInterval s) (started s)
    (firstChunkAt s) (sawText s).
Definition put_lastKind (k : string) (s : chunkStreamer) : chunkStreamer :=
  MkStreamer (client s) (sctx s) (jobID s) (sessionID s) (corrID s) (sessionKey s) (seq s)
    (coalescers s) k (s_maxTokens s) (s_maxInterval s) (started s) (firstChunkAt s) (sawText s).
Definition put_seq (n : Z) (first : option Z) (text : bool) (s : chunkStreamer) : chunkStreamer :=
  MkStreamer (client s) (sctx s) (jobID s) (sessionID s) (corrID s) (sessionKey s) n
    (coalescers s) (lastKind s) (s_maxTokens s) (s_maxInterval s) (started s) first text.

Definition u32_wrap (z : Z) : Z := z mod 2 ^ 32.

Section Streamer.
Context `{FK : !FrameKinds} `{PL : !Payloads}.

(** [publish]: encrypt one batch and emit it as the next chunk frame. *)
Definition publish (s : chunkStreamer) (kind batch : string) : prog JobE (chunkStreamer * option error) :=
  if bool_decide (batch = EmptyString) then Ret (s, None)
  else
    let kind := Normalize kind in
    r <- call (Encrypt (sessionKey s) batch) ;;
    match r with
    | Err _ => Ret (s, None)
    | Ok ciphertext =>
        let n := u32_wrap (seq s + 1) in
        first <- (if n =? 1 then (t <- call Now ;; Ret (Some t)) else Ret (firstChunkAt s)) ;;
        let s := put_seq n first (sawText s || bool_decide (kind = FrameKindText)) s in
        _ <- call (Publish (jobID s) (sessionID s) (corrID s) (Chunk (sctx s) (seq s) kind ciphertext)) ;;
        Ret (s, None)
    end.

(** [coalescerFor]. *)
Definition coalescerFor (s : chunkStreamer) (kind : string) : chunkStreamer * tokenCoalescer :=
  let kind := Normalize kind in
  match coalescers s !! kind with
  | Some c => (s, c)
  | None =>
      let c := newTokenCoalescer (s_maxTokens s) (s_maxInterval s) in
      (put_coalescer kind c s, c)
  end.

(** A coalescer's batch goes to [publish] under the kind it was built for. *)
Definition emit (s : chunkStreamer) (kind : string) (batch : option string)
    : prog JobE (chunkStreamer * option error) :=
  match batch with Some b => publish s kind b | None => Ret (s, None) end.

Definition flush_kind (s : chunkStreamer) (kind : string) : prog JobE (chunkStreamer * option error) :=
  let '(s, c) := coalescerFor s kind in
  let '(c, batch) := Flush c in
  emit (put_coalescer (Normalize kind) c s) (Normalize kind) batch.

(** [chunkStreamer.Add], on a streamer that is not nil. *)
Definition add (s : chunkStreamer) (kind delta : string) : prog JobE (chunkStreamer * option error) :=
  if bool_decide (delta = EmptyString) then Ret (s, None)
  else
    let kind := Normalize kind in
    r <- (if negb (bool_decide (lastKind s = EmptyString)) && negb (bool_decide (lastKind s = kind))
          then flush_kind s (lastKind s) else Ret (s, None)) ;;
    match r with
    | (s, Some err) => Ret (s, Some err)
    | (s, None) =>
        let '(s, c) := coalescerFor (put_lastKind kind s) kind in
        cb <- coalesce c delta ;;
        emit (put_coalescer kind (fst cb) s) kind (snd cb)
    end.

(** [FlushAll]. *)
Fixpoint flush_kinds (s : chunkStreamer) (kinds : list string) : prog JobE (chunkStreamer * option error) :=
  match kinds with
  | [] => Ret (s, None)
  | k :: ks =>
      r <- match coalescers s !! k with
           | Some c => let '(c, batch) := Flush c in emit (put_coalescer k c s) k batch
           | None => Ret (s, None)
           end ;;
      match r with
      | (s, Some err) => Ret (s, Some err)
      | (s, None) => flush_kinds s ks
      end
  end.
Definition FlushAll (s : chunkStreamer) : prog JobE (chunkStreamer * option error) :=
  flush_kinds s [FrameKindReasoning; FrameKindArtifact; FrameKindAudio; FrameKindText].

(** [PublishBytes]. *)
Definition PublishBytes (s : chunkStreamer) (kind : string) (payload : bytes)
    : prog JobE (chunkStreamer * option error) :=
  if bool_decide (payload = EmptyString) then Ret (s, None)
  else
    r <- (if negb (bool_decide (lastKind s = EmptyString)) then flush_kind s (lastKind s) else Ret (s, None)) ;;
    match r with
    | (s, Some err) => Ret (s, Some err)
    | (s, None) => publish s kind payload
    end.

(** [recordStats]. *)
Definition recordStats (s : chunkStreamer) (st : StreamStats) (appliedMaxTokens : Z) : prog JobE chunkStreamer :=
  if EvalTokens st =? 0 then Ret s
  else match stats_payload st appliedMaxTokens with
       | Err _ => Ret s
       | Ok payload => r <- PublishBytes s FrameKindStats payload ;; Ret (fst r)
       end.

(** [frames] and [ttft] of a streamer that may be nil. *)
Definition frames (s : option chunkStreamer) : Z := match s with Some s => seq s | None => 0 end.
Definition ttft (s : option chunkStreamer) : option Z :=
  match s with
  | Some s => (fun t => time_Sub t (started s)) <$> firstChunkAt s
  | None => None
  end.

Definition maxArtifactDescriptorBytes : Z := 8192.

(** [emitArtifact]. *)
Definition emitArtifact (s : chunkStreamer) (artifactType schema : string) (payload : bytes)
    : prog JobE (chunkStreamer * option error) :=
  if bool_decide (artifactType = EmptyString) || bool_decide (schema = EmptyString) then
    Ret (s, Some (errorf "artifact descriptor requires artifactType and schema"))
  else if bool_decide (payload = EmptyString) then
    Ret (s, Some (errorf "artifact descriptor requires a payload"))
  else match artifact_payload artifactType schema payload with
       | Err e => Ret (s, Some (wrap "encode artifact descriptor" e))
       | Ok raw =>
           if maxArtifactDescriptorBytes <? Z.of_nat (String.length raw) then
             Ret (s, Some (errorf "artifact descriptor exceeds 8192 bytes"))
           else PublishBytes s FrameKindArtifact raw
       end.

(** ** What a consumer sees *)

(** The frames of a trace, and the batches they were encrypted from. *)
Definition chunks (tr : list (called JobE)) : list (Z * string) :=
  answered (fun Y e _ => match e with Publish _ _ _ (Chunk _ n k _) => [(n, k)] | _ => [] end) tr.
Definition sealed (tr : list (called JobE)) : list string :=
  answered (fun Y e => match e in JobE Y return Y -> list string with
                       | Encrypt _ b => fun r => match r with Ok _ => [b] | Err _ => [] end
                       | _ => fun _ => [] end) tr.
Definition unsealed (tr : list (called JobE)) : list string :=
  answered (fun Y e => match e in JobE Y return Y -> list string with
                       | Encrypt _ b => fun r => match r with Ok _ => [] | Err _ => [b] end
                       | _ => fun _ => [] end) tr.

(** Frame numbers that count up from [n] to [n'], modulo 2^32. *)
Fixpoint numbered (n : Z) (l : list Z) (n' : Z) : Prop :=
  match l with
  | [] => n' = n
  | x :: l => x = u32_wrap (n + 1) /\ numbered x l n'
  end.

Lemma numbered_app n l m l' n' : numbered n l m -> numbered m l' n' -> numbered n (l ++ l') n'.
Proof. revert n. induction l as [|x l IH]; simpl; intros n; [by intros ->|]. intros [-> H1] H2. split; [done|]. by apply IH. Qed.

Lemma numbered_from_zero l n : numbered 0 l n ->
  l = (fun i => u32_wrap i) <$> seqZ 1 (Z.of_nat (length l)) /\ n = u32_wrap (Z.of_nat (length l)).
Proof.
  assert (forall m, numbered (u32_wrap m) l n ->
    l = (fun i => u32_wrap i) <$> seqZ (m + 1) (Z.of_nat (length l)) /\ n = u32_wrap (m + Z.of_nat (length l))) as Hg.
  { induction l as [|x l IH]; intros m; simpl.
    - intros ->. by rewrite Z.add_0_r.
    - assert (u32_wrap (u32_wrap m + 1) = u32_wrap (m + 1)) as -> by (unfold u32_wrap; apply Zplus_mod_idemp_l).
      intros [-> Hn]. destruct (IH (m + 1) Hn) as [Hl ->].
      rewrite (seqZ_cons (m + 1)) by lia. simpl.
      split; [f_equal; rewrite Hl at 1; do 2 f_equal; lia|f_equal; lia]. }
  intros H. by apply (Hg 0).
Qed.

(** The calls of the streamer. *)
Definition delivers (X : Type) (e : JobE X) : Prop :=
  match e with Encrypt _ _ | Now | Publish _ _ _ (Chunk _ _ _ _) => True | _ => False end.

(** [shows tr l]: the frames of [tr] are, in order, the batches [l] with their
    kinds. *)
Definition shows (tr : list (called JobE)) (l : list (string * string)) : Prop :=
  (chunks tr).*2 = l.*1 /\ sealed tr = l.*2.

Lemma chunks_app tr tr' : chunks (tr ++ tr') = chunks tr ++ chunks tr'.
Proof. apply answered_app. Qed.
Lemma sealed_app tr tr' : sealed (tr ++ tr') = sealed tr ++ sealed tr'.
Proof. apply answered_app. Qed.
Lemma unsealed_app tr tr' : unsealed (tr ++ tr') = unsealed tr ++ unsealed tr'.
Proof. apply answered_app. Qed.

Lemma shows_app tr tr' l l' : shows tr l -> shows tr' l' -> shows (tr ++ tr') (l ++ l').
Proof. intros [H1 H2] [H3 H4]. split; rewrite ?chunks_app, ?sealed_app, !fmap_app; congruence. Qed.

(** Text as it was generated: each character with its kind. *)
Definition flat (l : list (string * string)) : list (string * Ascii.ascii) :=
  flat_map (fun kt => (fun a => (kt.1, a)) <$> String.list_ascii_of_string kt.2) l.

Lemma flat_app l l' : flat (l ++ l') = flat l ++ flat l'.
Proof. apply flat_map_app. Qed.

Lemma flat_split k s t : flat [(k, s +:+ t)] = flat [(k, s); (k, t)].
Proof. cbn [flat flat_map fst snd]. by rewrite list_ascii_app, fmap_app, !app_nil_r. Qed.

Lemma flat_empty k l : flat ((k, EmptyString) :: l) = flat l.
Proof. done. Qed.

(** What a kind's coalescer holds back. *)
Definition held (s : chunkStreamer) (k : string) : string :=
  match coalescers s !! k with Some c => buf c | None => "" end.
Definition pending (s : chunkStreamer) : list (string * string) := [(lastKind s, held s (lastKind s))].

(** Only the current kind holds anything back, and a coalescer that counts
    nothing holds nothing. *)
Record wf (s : chunkStreamer) : Prop := {
  wf_kind : lastKind s = EmptyString \/ Normalize (lastKind s) = lastKind s;
  wf_held : forall k, held s k <> EmptyString -> k = lastKind s;
  wf_count : forall k c, coalescers s !! k = Some c ->
    Normalize k = k /\ 0 <= count c /\ (count c = 0 -> buf c = EmptyString);
}.

(** An operation that takes in [new]: no error, consecutive frame numbers, and
    unless an encryption failed, the frames it emitted and what it holds back
    are what was held back and [new], in order. *)
Record passes (s : chunkStreamer) (new : list (string * string)) (tr : list (called JobE))
    (r : chunkStreamer * option error) : Prop := {
  ps_ok : r.2 = None;
  ps_numbered : numbered (seq s) (chunks tr).*1 (seq r.1);
  ps_wf : wf r.1;
  ps_text : unsealed tr = [] -> exists l, shows tr l /\ flat (l ++ pending r.1) = flat (pending s ++ new);
}.

(** What every operation does to the frame numbers. *)
Definition advances (s : chunkStreamer) (l : list (Z * string)) (s' : chunkStreamer) : Prop :=
  numbered (seq s) l.*1 (seq s') /\ wf s'.

Lemma advances_app s l s1 l' s2 : advances s l s1 -> advances s1 l' s2 -> advances s (l ++ l') s2.
Proof. intros [N1 _] [N2 W]. split; [|done]. rewrite fmap_app. by eapply numbered_app. Qed.

Lemma passes_advances s new tr r : passes s new tr r -> advances s (chunks tr) r.1.
Proof. intros [_ N W _]. by split. Qed.

Definition published (s : chunkStreamer) (kind batch : string) (tr : list (called JobE))
    (r : chunkStreamer * option error) : Prop :=
  r.2 = None /\ numbered (seq s) (chunks tr).*1 (seq r.1) /\
  coalescers r.1 = coalescers s /\ lastKind r.1 = lastKind s /\
  (unsealed tr = [] -> exists l, shows tr l /\ flat l = flat [(Normalize kind, batch)]).

Lemma publish_published s kind batch : always (publish s kind batch) (published s kind batch).
Proof.
  unfold publish. walk; destruct_units; unfold published; split_and!; try done.
  all: reflect_Z; subst; try (by exists []); try done.
  all: intros _; exists [(Normalize kind, batch)]; by repeat split.
Qed.

Lemma emit_published s kind o :
  always (emit s kind o) (published s kind (match o with Some b => b | None => EmptyString end)).
Proof.
  destruct o as [b|]; [apply publish_published|]. cbn. split_and!; try done.
  intros _. exists []. by repeat split.
Qed.

Context `{FL : !FrameKindLaws FK}.

Lemma passes_app s new1 tr1 s1 new2 tr2 r :
  passes s new1 tr1 (s1, None) -> passes s1 new2 tr2 r -> passes s (new1 ++ new2) (tr1 ++ tr2) r.
Proof.
  intros [_ N1 _ T1] [E2 N2 W2 T2]. split; [done| |done|].
  - rewrite chunks_app, fmap_app. by eapply numbered_app.
  - rewrite unsealed_app. intros [U1 U2]%app_eq_nil.
    destruct (T1 U1) as (l1 & S1 & F1), (T2 U2) as (l2 & S2 & F2). simpl in F1.
    exists (l1 ++ l2). split; [by apply shows_app|].
    rewrite <- app_assoc, (flat_app l1), F2, (flat_app (pending s1)), (app_assoc (flat l1)), <- (flat_app l1), F1.
    by rewrite <- (flat_app (pending s ++ new1)), <- app_assoc.
Qed.

Lemma coalescerFor_spec s kind s' c : coalescerFor s kind = (s', c) -> wf s ->
  wf s' /\ lastKind s' = lastKind s /\ seq s' = seq s /\ (forall k, held s' k = held s k) /\
  coalescers s' !! Normalize kind = Some c.
Proof.
  unfold coalescerFor. destruct (coalescers s !! Normalize kind) as [c0|] eqn:E; intros [= <- <-] Hw; [done|].
  assert (forall k, held (put_coalescer (Normalize kind)
    (newTokenCoalescer (s_maxTokens s) (s_maxInterval s)) s) k = held s k) as Hh.
  { intros k. unfold held. simpl. destruct (decide (k = Normalize kind)) as [->|Hk].
    - by rewrite lookup_insert_eq, E.
    - by rewrite lookup_insert_ne. }
  split_and!; [|done..|by simpl; rewrite lookup_insert_eq].
  destruct Hw as [Hk Hl Hc]. split; simpl; [done| |].
  - intros k. rewrite Hh. apply Hl.
  - intros k c. destruct (decide (k = Normalize kind)) as [->|Hne].
    + rewrite lookup_insert_eq. intros [= <-]. simpl. split_and!; [apply Normalize_idem|lia|done].
    + rewrite lookup_insert_ne by done. apply Hc.
Qed.

(** The state a coalescer is put back into. *)
Lemma put_coalescer_wf s k c : wf s -> Normalize k = k -> k = lastKind s \/ buf c = EmptyString ->
  0 <= count c -> (count c = 0 -> buf c = EmptyString) -> wf (put_coalescer k c s).
Proof.
  intros [Hk Hl Hc] Hn Hb H0 Hz. split; simpl; [done| |].
  - intros k'. unfold held. simpl. destruct (decide (k' = k)) as [->|Hne].
    + rewrite lookup_insert_eq. naive_solver.
    + rewrite lookup_insert_ne by done. apply Hl.
  - intros k' c'. destruct (decide (k' = k)) as [->|Hne].
    + rewrite lookup_insert_eq. by intros [= <-].
    + rewrite lookup_insert_ne by done. apply Hc.
Qed.

Lemma same_wf s s' : coalescers s' = coalescers s -> lastKind s' = lastKind s -> wf s -> wf s'.
Proof. intros Hc Hl [H1 H2 H3]. split; unfold held in *; rewrite ?Hc, ?Hl; auto. Qed.

Definition drained (s : chunkStreamer) : Prop := forall k, held s k = EmptyString.

Lemma Flush_spec c c' o : Flush c = (c', o) -> (count c = 0 -> buf c = EmptyString) ->
  count c' = 0 /\ buf c' = EmptyString /\ match o with Some b => b | None => EmptyString end = buf c.
Proof. unfold Flush. destruct (count c =? 0) eqn:E; intros [= <- <-] Hz; reflect_Z; simpl; [|done]. split_and!; auto. by rewrite Hz. Qed.

(** Flushing one kind's coalescer. *)
Lemma flush_one s k c : wf s -> coalescers s !! k = Some c ->
  always (let '(c', batch) := Flush c in emit (put_coalescer k c' s) k batch)
    (fun tr r => passes s [] tr r /\ lastKind r.1 = lastKind s /\
       forall k', held r.1 k' = if decide (k' = k) then EmptyString else held s k').
Proof.
  intros Hw Hc. destruct (wf_count _ Hw _ _ Hc) as (Hn & H0 & Hz).
  destruct (Flush c) as [c' o] eqn:Ef. destruct (Flush_spec _ _ _ Ef Hz) as (Hc0 & Hb0 & Ho).
  eapply always_mono; [apply emit_published|]. intros tr [s2 e] (He & Hnum & Hcs & Hls & Ht).
  cbn [fst snd] in *. cbn [seq lastKind put_coalescer] in Hnum, Hls.
  assert (wf (put_coalescer k c' s)) as Hw2 by (apply put_coalescer_wf; auto; lia).
  assert (forall k', held s2 k' = if decide (k' = k) then EmptyString else held s k') as Hd.
  { intros k'. unfold held. rewrite Hcs. cbn [coalescers put_coalescer].
    destruct (decide (k' = k)) as [->|Hk]; [by rewrite lookup_insert_eq|by rewrite lookup_insert_ne]. }
  split_and!; [|done|done]. split; cbn [fst snd].
  - done.
  - done.
  - by apply (same_wf (put_coalescer k c' s)).
  - intros Hu. destruct (Ht Hu) as (l & Hsh & Hfl). exists l. split; [done|].
    rewrite (flat_app l), Hfl, Hn, Ho. unfold pending. rewrite Hls, Hd, app_nil_r.
    destruct (decide (lastKind s = k)) as [->|Hk].
    + unfold held. rewrite Hc. apply app_nil_r.
    + assert (buf c = EmptyString) as ->; [|done].
      destruct (decide (buf c = EmptyString)) as [|Hb]; [done|]. destruct Hk. symmetry.
      apply (wf_held _ Hw). unfold held. by rewrite Hc.
Qed.

Lemma flush_kind_passes s : wf s -> lastKind s <> EmptyString ->
  always (flush_kind s (lastKind s)) (fun tr r =>
    passes s [] tr r /\ drained r.1 /\ lastKind r.1 = lastKind s).
Proof.
  intros Hw Hne. assert (Normalize (lastKind s) = lastKind s) as Hn by (by destruct (wf_kind _ Hw)).
  unfold flush_kind. destruct (coalescerFor s (lastKind s)) as [s1 c] eqn:Ec.
  destruct (coalescerFor_spec _ _ _ _ Ec Hw) as (Hw1 & Hl1 & Hs1 & Hh1 & Hc1). rewrite Hn in *.
  eapply always_mono; [by apply flush_one|]. intros tr r ([He Hnum Hw2 Ht] & Hl & Hh). split_and!; [|..|congruence].
  - split; [done|by rewrite <- Hs1|done|]. intros Hu. destruct (Ht Hu) as (l & Hsh & Hfl). exists l. split; [done|].
    rewrite Hfl. unfold pending. by rewrite Hl1, Hh1.
  - intros k. rewrite Hh. destruct (decide (k = lastKind s)) as [->|Hk]; [done|].
    destruct (decide (held s1 k = EmptyString)) as [Hd|Hd]; [done|].
    apply (wf_held _ Hw1) in Hd. congruence.
Qed.

Definition coalesced (c : tokenCoalescer) (delta : string) (tr : list (called JobE))
    (r : tokenCoalescer * option string) : Prop :=
  chunks tr = [] /\ sealed tr = [] /\ unsealed tr = [] /\
  0 <= count r.1 /\ (count r.1 = 0 -> buf r.1 = EmptyString) /\
  match r.2 with Some b => b | None => EmptyString end +:+ buf r.1 = buf c +:+ delta.

Lemma coalesce_coalesced c delta : 0 <= count c -> (count c = 0 -> buf c = EmptyString) ->
  always (coalesce c delta) (coalesced c delta).
Proof.
  intros H0 Hz. assert (count c + 1 <> 0) as E1 by lia. unfold coalesce, Flush.
  walk; unfold coalesced; reflect_Z; subst; cbn [fst snd buf count maxTokens maxInterval batchStart] in *;
    rewrite ?(proj2 (Z.eqb_neq _ _) E1); cbn [fst snd buf count]; rewrite ?append_nil_r; split_and!; try done; try (intros; exfalso; lia); try lia.
  all: cbn [fst snd buf count]; rewrite ?append_nil_r; first [done | lia | intros; exfalso; lia].
Qed.

(** Adding to the current kind, or to a new one when nothing is held back. *)
Lemma add_current s kind delta : Normalize kind = kind -> wf s ->
  (kind = lastKind s \/ drained s) ->
  always (let '(s', c) := coalescerFor (put_lastKind kind s) kind in
          cb <- coalesce c delta ;;
          emit (put_coalescer kind (fst cb) s') kind (snd cb))
    (fun tr r => passes s [(kind, delta)] tr r /\ lastKind r.1 = kind).
Proof.
  intros Hn Hw Hcur.
  assert (wf (put_lastKind kind s)) as Hw1.
  { destruct Hw as [Hk Hl Hc]. split; simpl; [by right| |done].
    intros k Hk'. change (held s k <> EmptyString) in Hk'. destruct Hcur as [->|Hd]; [by apply Hl|]. by rewrite Hd in Hk'. }
  destruct (coalescerFor (put_lastKind kind s) kind) as [s1 c] eqn:Ec.
  destruct (coalescerFor_spec _ _ _ _ Ec Hw1) as (Hw2 & Hl2 & Hs2 & Hh2 & Hc2). rewrite Hn in *. simpl in Hl2, Hs2.
  destruct (wf_count _ Hw2 _ _ Hc2) as (_ & H0 & Hz).
  assert (buf c = held s kind) as Hb by (change (held s kind) with (held (put_lastKind kind s) kind); rewrite <- Hh2; unfold held; by rewrite Hc2).
  apply always_bind. eapply always_mono; [by apply coalesce_coalesced|].
  intros tr1 [c' o] (Hch & Hse & Hun & H0' & Hz' & Hbuf). cbn [fst snd] in *.
  eapply always_mono; [apply emit_published|]. intros tr2 [s3 e] (He & Hnum & Hcs & Hls & Ht).
  cbn [fst snd] in *. cbn [seq lastKind put_coalescer] in Hnum, Hls.
  assert (wf (put_coalescer kind c' s1)) as Hw3 by (apply put_coalescer_wf; auto).
  split; [|congruence]. split; cbn [fst snd].
  - done.
  - rewrite chunks_app, Hch, <- Hs2. done.
  - by apply (same_wf (put_coalescer kind c' s1)).
  - rewrite unsealed_app, Hun. intros Hu. destruct (Ht Hu) as (l & [Hk Hp] & Hfl).
    exists l. split; [split; rewrite ?chunks_app, ?sealed_app, ?Hch, ?Hse; done|].
    assert (held s3 (lastKind s3) = buf c') as Hh3.
    { unfold held. rewrite Hcs, Hls, Hl2. simpl. by rewrite lookup_insert_eq. }
    assert (flat (pending s) = flat [(kind, held s kind)]) as Hps.
    { destruct Hcur as [->|Hd]; [done|]. unfold pending. by rewrite !Hd. }
    rewrite (flat_app l), Hfl, Hn, (flat_app (pending s)), Hps.
    unfold pending. rewrite Hh3, Hls, Hl2, <- !(flat_app [_] [_]).
    change ([?x] ++ [?y]) with [x; y]. by rewrite <- !flat_split, Hbuf, Hb.
Qed.

Lemma passes_nothing s : wf s -> passes s [] [] (s, None).
Proof. intros Hw. split; [done..|]. intros _. exists []. split; [done|]. by rewrite app_nil_r. Qed.

Lemma add_passes s kind delta : wf s ->
  always (add s kind delta) (fun tr r => passes s [(Normalize kind, delta)] tr r /\
    (delta <> EmptyString -> lastKind r.1 = Normalize kind) /\
    (delta = EmptyString -> lastKind r.1 = lastKind s)).
Proof.
  intros Hw. unfold add. destruct (bool_decide (delta = EmptyString)) eqn:Ed; reflect_Z.
  { subst. split; [|done]. split; [done..|]. intros _. exists []. split; [done|].
    symmetry. rewrite (flat_app (pending s)). apply app_nil_r. }
  apply always_bind. set (sw := negb _ && negb _).
  assert (always (if sw then flush_kind s (lastKind s) else Ret (s, None)) (fun tr r =>
    passes s [] tr r /\ (Normalize kind = lastKind r.1 \/ drained r.1))) as Hpre.
  { destruct sw eqn:Esw; unfold sw in Esw; reflect_Z.
    - eapply always_mono; [by apply flush_kind_passes|]. simpl. tauto.
    - split; [by apply passes_nothing|]. right. intros k. destruct (decide (held s k = EmptyString)) as [|Hk]; [done|].
      pose proof (wf_held _ Hw _ Hk) as ->. unfold held in Hk. destruct (coalescers s !! _) as [c|] eqn:Ec; [|done].
      destruct (wf_count _ Hw _ _ Ec) as (Hn & _). destruct (Normalize_nonempty (lastKind s)). congruence.
    - split; [by apply passes_nothing|]. by left. }
  eapply always_mono; [apply Hpre|]. intros tr1 [s1 e1] [Hp Hcur]. pose proof (ps_ok _ _ _ _ Hp) as Hok. simpl in Hok. subst e1.
  eapply always_mono; [apply add_current; [apply Normalize_idem|apply Hp|done]|].
  intros tr2 r [Hp2 Hl]. split; [by apply (passes_app s [] _ s1)|]. by split.
Qed.

Lemma flush_kinds_passes ks : (forall k, k ∈ ks -> Normalize k = k) -> forall s, wf s ->
  always (flush_kinds s ks) (fun tr r => passes s [] tr r /\ lastKind r.1 = lastKind s /\
    forall k, held r.1 k = if decide (k ∈ ks) then EmptyString else held s k).
Proof.
  induction ks as [|k ks IH]; intros Hks s Hw; cbn [flush_kinds].
  { split; [by apply passes_nothing|]. split; [done|]. intros k. rewrite decide_False; [done|apply not_elem_of_nil]. }
  apply always_bind.
  assert (always match coalescers s !! k with
                 | Some c => let '(c', batch) := Flush c in emit (put_coalescer k c' s) k batch
                 | None => Ret (s, None)
                 end (fun tr r => passes s [] tr r /\ lastKind r.1 = lastKind s /\
       forall k', held r.1 k' = if decide (k' = k) then EmptyString else held s k')) as Hpre.
  { destruct (coalescers s !! k) as [c|] eqn:Ec; [by apply flush_one|].
    split; [by apply passes_nothing|]. split; [done|]. intros k'. destruct (decide (k' = k)) as [->|]; [|done].
    unfold held. simpl. by rewrite Ec. }
  eapply always_mono; [apply Hpre|]. intros tr1 [s1 e1] (Hp & Hl & Hh). pose proof (ps_ok _ _ _ _ Hp) as Hok.
  simpl in Hok, Hl. subst e1. cbn beta iota zeta.
  eapply always_mono; [apply IH; [intros; apply Hks; by right|apply Hp]|].
  intros tr2 r (Hp2 & Hl2 & Hh2). split; [by apply (passes_app s [] _ s1)|]. split; [congruence|].
  intros k'. rewrite Hh2. simpl in Hh. rewrite Hh. repeat case_decide; set_solver.
Qed.

Lemma held_no_kind s : wf s -> held s EmptyString = EmptyString.
Proof.
  intros Hw. unfold held. destruct (coalescers s !! EmptyString) as [c|] eqn:Ec; [|done].
  destruct (wf_count _ Hw _ _ Ec) as [Hn _]. by destruct (Normalize_nonempty EmptyString).
Qed.

(** [FlushAll] leaves nothing behind when the last delta, if any, was of a
    kind it drains. *)
Lemma FlushAll_passes s : wf s ->
  always (FlushAll s) (fun tr r => passes s [] tr r /\
    (lastKind s ∈ [EmptyString; FrameKindReasoning; FrameKindArtifact; FrameKindAudio; FrameKindText] ->
     flat (pending r.1) = [])).
Proof.
  intros Hw. eapply always_mono; [apply flush_kinds_passes; [apply Normalize_constant|done]|].
  intros tr r (Hp & Hl & Hh). split; [done|]. unfold pending. rewrite Hl. intros [->|Hk]%elem_of_cons.
  - rewrite held_no_kind; [done|apply Hp].
  - by rewrite Hh, decide_True by done.
Qed.

Lemma PublishBytes_numbered s kind payload : wf s ->
  always (PublishBytes s kind payload) (fun tr r =>
    r.2 = None /\ advances s (chunks tr) r.1).
Proof.
  intros Hw. unfold PublishBytes, advances. destruct (bool_decide (payload = EmptyString)); [done|].
  apply always_bind.
  assert (always (if negb (bool_decide (lastKind s = EmptyString)) then flush_kind s (lastKind s) else Ret (s, None))
    (fun tr r => passes s [] tr r)) as Hpre.
  { destruct (negb _) eqn:E; reflect_Z; [|by apply passes_nothing].
    eapply always_mono; [by apply flush_kind_passes|]. simpl. tauto. }
  eapply always_mono; [apply Hpre|]. intros tr1 [s1 e1] [He Hn1 Hw1 _]. simpl in He. subst e1. cbn beta iota.
  eapply always_mono; [apply publish_published|]. intros tr2 [s2 e2] (He & Hn2 & Hcs & Hls & _). cbn [fst snd] in *.
  split_and!; [done| |by apply (same_wf s1)]. rewrite chunks_app, fmap_app. by eapply numbered_app.
Qed.

Lemma recordStats_numbered s st n : wf s ->
  always (recordStats s st n) (fun tr s' => advances s (chunks tr) s').
Proof.
  intros Hw. unfold recordStats, advances. destruct (EvalTokens st =? 0); [done|].
  destruct (stats_payload st n); [|done]. apply always_bind.
  eapply always_mono; [by apply PublishBytes_numbered|]. intros tr [s1 e] (_ & Hn & Hw1). cbn. by rewrite app_nil_r.
Qed.

(** ** The calls a streamer makes *)
Lemma publish_uses s kind batch : uses delivers (publish s kind batch).
Proof. unfold publish. by use_calls. Qed.
Lemma emit_uses s kind o : uses delivers (emit s kind o).
Proof. destruct o; [apply publish_uses|done]. Qed.
#[local] Hint Resolve publish_uses emit_uses : core.
Lemma flush_kind_uses s kind : uses delivers (flush_kind s kind).
Proof. unfold flush_kind. by use_calls. Qed.
#[local] Hint Resolve flush_kind_uses : core.
Lemma coalesce_uses c delta : uses delivers (coalesce c delta).
Proof. unfold coalesce. by use_calls. Qed.
#[local] Hint Resolve coalesce_uses : core.
Lemma add_uses s kind delta : uses delivers (add s kind delta).
Proof. unfold add. by use_calls. Qed.
Lemma FlushAll_uses s : uses delivers (FlushAll s).
Proof.
  unfold FlushAll. generalize [FrameKindReasoning; FrameKindArtifact; FrameKindAudio; FrameKindText].
  intros ks. revert s. induction ks as [|k ks IH]; intros s; cbn [flush_kinds]; [done|]. by use_calls.
Qed.
Lemma PublishBytes_uses s kind payload : uses delivers (PublishBytes s kind payload).
Proof. unfold PublishBytes. by use_calls. Qed.
#[local] Hint Resolve PublishBytes_uses : core.
Lemma recordStats_uses s st n : uses delivers (recordStats s st n).
Proof. unfold recordStats. by use_calls. Qed.
Lemma emitArtifact_uses s t schema payload : uses delivers (emitArtifact s t schema payload).
Proof. unfold emitArtifact. by use_calls. Qed.
End Streamer.
End Stream.

(** ** The Redis publisher

    [RedisResponsePublisher]: each frame is one message on the session's
    channel, and a failure to send it is only counted. *)
Module RedisResponsePublisher.

Inductive MessageType : Type :=
  | MessageTypeComplete | MessageTypeChunk | MessageTypeError | MessageTypeMetadata.

(** [pkgtypes.PubSubMessage], the fields the worker sets. *)
Record PubSubMessage : Type := MkMsg {
  Type_ : MessageType;
  Kind : string;
  JobID : Z;
  SessionID : Z;
  Sequence : Z;
  TotalChunks : Z;
  Payload : bytes;
  Signature : string;
  CorrelationID : string;
  Timestamp : Z;
}.

Inductive PubE : Type -> Type :=
  | Clock : PubE Z
  | Marshal (msg : PubSubMessage) : PubE (result bytes)
  | PUBLISH (timeout : option Z) (sessionID : Z) (data : bytes) : PubE (result unit)
  | CountFailure : PubE unit.

Section Publisher.
Context `{FK : !FrameKinds}.
(** [publishTimeout] and whether a metrics collector is set. *)
Context (publishTimeout : Z) (metered : bool).

Definition count_failure : prog PubE unit := if metered then call CountFailure else Ret tt.

(** [publish], to the channel [session:<id>:responses]. *)
Definition publish_message (msg : PubSubMessage) : prog PubE unit :=
  m <- call (Marshal msg) ;;
  match m with
  | Err _ => count_failure
  | Ok data =>
      r <- call (PUBLISH (if 0 <? publishTimeout then Some publishTimeout else None) (SessionID msg) data) ;;
      match r with Err _ => count_failure | Ok _ => Ret tt end
  end.

(** [PublishResponse], [PublishChunk] and [PublishError], by the frame they
    send. *)
Definition PublishResponse (jobID sessionID : Z) (correlationID signature : string) (ciphertext : bytes)
    (totalFrames : Z) : prog PubE unit :=
  let totalFrames := if totalFrames =? 0 then 1 else totalFrames in
  now <- call Clock ;;
  publish_message (MkMsg MessageTypeComplete "" jobID sessionID totalFrames totalFrames ciphertext signature
    correlationID now).

Definition PublishChunk (jobID sessionID : Z) (correlationID : string) (sequence : Z) (kind : string)
    (ciphertext : bytes) : prog PubE unit :=
  now <- call Clock ;;
  publish_message (MkMsg MessageTypeChunk (Normalize kind) jobID sessionID sequence 0 ciphertext "" correlationID now).

Definition PublishError (jobID sessionID : Z) (correlationID : string) : prog PubE unit :=
  now <- call Clock ;;
  publish_message (MkMsg MessageTypeError "" jobID sessionID 0 0 "" "" correlationID now).

(** [PublishMetadata]; a failure is not counted. *)
Definition PublishMetadata (jobID sessionID : Z) (correlationID : string) (payload : bytes) : prog PubE unit :=
  now <- call Clock ;;
  m <- call (Marshal (MkMsg MessageTypeMetadata "" jobID sessionID 0 1 payload "" correlationID now)) ;;
  match m with
  | Err _ => Ret tt
  | Ok data =>
      _ <- call (PUBLISH (if 0 <? publishTimeout then Some publishTimeout else None) sessionID data) ;;
      Ret tt
  end.

Definition marshalled (tr : list (called PubE)) : list PubSubMessage :=
  answered (fun Y e _ => match e with Marshal m => [m] | _ => [] end) tr.

(** The envelope contract of [ResponsePublisher]: a chunk frame does not know
    its total and carries no signature, the complete frame is numbered by its
    total, which is at least one, and carries the signature. *)
Lemma complete_envelope jobID sessionID cid sig ct n :
  always (PublishResponse jobID sessionID cid sig ct n) (fun tr _ => exists m, marshalled tr = [m] /\
    Type_ m = MessageTypeComplete /\ Sequence m = TotalChunks m /\ TotalChunks m = (if n =? 0 then 1 else n) /\
    Signature m = sig /\ Payload m = ct).
Proof. unfold PublishResponse, publish_message, count_failure. cbn [always bind call]. intros now m. destruct m; cbn [always bind call]; [intros r; destruct r|]; destruct metered; cbn [always call]; try intro; eexists; by repeat split. Qed.

Lemma chunk_envelope jobID sessionID cid n k ct :
  always (PublishChunk jobID sessionID cid n k ct) (fun tr _ => exists m, marshalled tr = [m] /\
    Type_ m = MessageTypeChunk /\ Sequence m = n /\ TotalChunks m = 0 /\ Signature m = EmptyString /\
    Kind m = Normalize k /\ Payload m = ct).
Proof. unfold PublishChunk, publish_message, count_failure. cbn [always bind call]. intros now m. destruct m; cbn [always bind call]; [intros r; destruct r|]; destruct metered; cbn [always call]; try intro; eexists; by repeat split. Qed.
End Publisher.
End RedisResponsePublisher.
