(* ===== verification/Inference.v ===== *)
(** Stages 3 to 6 of a job: [runInferencePipeline] of
    [internal/pipeline/handler.go] with the session keys, the model lookup,
    the history, the model call, and the voice stages of [voice.go]. *)
From S2P Require Import Prelude Effects GoText Checkpoint JobCalls JobTypes Deadline Stream.
Import Stream Deadline.

#[local] Open Scope prog_scope.

(** The shared packages [promptenv] and [searchaug]. [Conversation] is nil
    ([None]) for a plain generate call. *)
Class PromptLibs := {
  UnwrapSearch : bytes -> result (string * bool);
  DecodeEnvelope : bytes -> result promptEnvelope;
  SelfContained : promptEnvelope -> bool;
  Conversation : promptEnvelope -> list Message -> option (list Message);
  BuildAugmentedPrompt : string -> list Source -> string;
  EncodeResponse : string -> list Source -> result bytes;
}.

(** go-ethereum's hash, ABI packing of the mismatch payload and EIP-191 text
    hash. *)
Class CryptoLibs `{AddressOps} := {
  Keccak256 : bytes -> bytes;
  Keccak256Hash : bytes -> Z;
  PackMismatch : Z -> Address -> Z -> Z -> bytes -> result bytes;
  TextHash : bytes -> bytes;
}.

(** [audioMeta]. *)
Record audioMeta : Type := MkAudioMeta {
  am_Format : string;
  am_SampleRate : Z;
  am_Channels : Z;
  am_Voice : string;
  am_Engine : string;
  am_Chars : Z;
  am_Truncated : bool;
  am_Delivered : bool;
  am_Settled : bool;
  am_Final : bool;
  am_Bytes : Z;
  am_Chunks : Z;
  am_ContentHash : string;
}.

(** [encoding/base64] and the JSON of the audio descriptors and of the source
    list. *)
Class Encodings := {
  b64_decode : string -> result bytes;
  b64_encode : bytes -> string;
  audioMeta_payload : audioMeta -> result bytes;
  sources_payload : list Source -> bytes;
}.

(** The inference client: the options it sends, and which of the optional
    interfaces it has. *)
Record InferenceClient : Type := MkClient {
  ic_options : ClientOptions;
  ic_reports : bool;
  ic_streams : bool;
  ic_overrides : bool;
}.

Section Handler.
Context `{AO : !AddressOps}.

(** [HandlerConfig]; the publisher's timeout is the publisher's own. *)
Record HandlerConfig : Type := MkConfig {
  AckTxTimeout : Z;
  BlobTxTimeout : Z;
  ChainID : option Z;
  JobRegistryAddr : Address;
  AckOverlapEnabled : bool;
  StreamEnabled : bool;
  StreamReasoning : bool;
  StreamChunkTokens : Z;
  StreamChunkInterval : Z;
  ModelOptions : gmap string ClientOptions;
  DeadlineGuardEnabled : bool;
  SettleReserve : Z;
  CompletionReserve : Z;
  MinInferenceBudget : Z;
  STTEnabled : bool;
  TTSEnabled : bool;
  TTSVoice : string;
  SpeechModelName : string;
  TTSMaxChars : Z;
  TTSTimeout : Z;
  SearchMaxResults : Z;
  SearchTimeout : Z;
}.

(** [JobHandler]: the configuration and which collaborators are wired; the
    publisher by whether it supports chunks. *)
Record JobHandler : Type := MkHandler {
  cfg : HandlerConfig;
  ollamaClient : InferenceClient;
  deadline_client : bool;
  async_ack_client : bool;
  responsePublisher : option bool;
  checkpoints : bool;
  releaseTracker : bool;
  voiceEngine : bool;
  searcher : bool;
  priorJobs : bool;
  modelIDToName : gmap string string;
}.
End Handler.

Module Inference.

Definition normalizeModelLookupKey (modelID : string) : string :=
  to_lower (TrimPrefix "0X" (TrimPrefix "0x" modelID)).

Definition is_hex_digit (c : Ascii.ascii) : bool :=
  let n := Ascii.nat_of_ascii c in ((48 <=? n) && (n <=? 57))%nat || ((97 <=? n) && (n <=? 102))%nat.
Definition looksLikeHexModelID (modelID : string) : bool :=
  let normalized := normalizeModelLookupKey modelID in
  (String.length normalized =? 64)%nat && forallb is_hex_digit (String.list_ascii_of_string normalized).

(** The lookup table [NewJobHandler] builds, from the configured entries in
    the order the runtime yields them. *)
Definition model_table (entries : list (string * string)) : gmap string string :=
  foldl (fun m kv => <[normalizeModelLookupKey kv.1 := kv.2]> m) ∅ entries.

Section Stages.
Context `{AO : !AddressOps} `{FK : !FrameKinds} `{PL : !Payloads} `{LP : !PromptLibs} `{LC : !CryptoLibs} `{EN : !Encodings}.
Context (h : JobHandler).

Definition resolveModelName (modelID : string) : result string :=
  if bool_decide (modelIDToName h = ∅) then Ok modelID
  else match modelIDToName h !! normalizeModelLookupKey modelID with
       | Some modelName => Ok modelName
       | None =>
           if looksLikeHexModelID modelID then Err (errorf "no local Ollama model configured for queued model ID")
           else Ok modelID
       end.

(** ** Session keys *)
Definition deriveAndStoreSessionKey (sessionID : Z) : prog JobE (result bytes) :=
  encWorkerKey <-? wrap_err "fetch enc worker key for session" (call (GetSessionEncWorkerKey sessionID)) ;;
  sessionKey <-? wrap_err "decrypt session key for session" (call (DecryptSessionKey encWorkerKey)) ;;
  _ <- call (StoreKey sessionID sessionKey) ;;
  Ret (Ok sessionKey).

Definition refreshSessionKey (sessionID : Z) : prog JobE (result bytes) := deriveAndStoreSessionKey sessionID.

(** [getOrDeriveSessionKey]: of the callers that miss at once, one leads the
    flight and the others get its answer. *)
Definition getOrDeriveSessionKey (sessionID : Z) : prog JobE (result bytes) :=
  r <- call (GetKey sessionID) ;;
  match r with
  | Ok key => Ret (Ok key)
  | Err _ =>
      f <- call (JoinFlight sessionID) ;;
      match f with
      | Some r => Ret r
      | None =>
          again <- call (GetKey sessionID) ;;
          r <- match again with
               | Ok k => Ret (Ok k)
               | Err _ => deriveAndStoreSessionKey sessionID
               end ;;
          _ <- call (LandFlight sessionID r) ;;
          Ret r
      end
  end.

(** ** The model client *)
Definition report (c : InferenceClient) : ClientOptions := if ic_reports c then ic_options c else no_options.

Definition overridden (o override : ClientOptions) : ClientOptions :=
  MkOptions (KeepAlive o)
    (if NumPredict override =? 0 then NumPredict o else NumPredict override)
    (if NumCtx override =? 0 then NumCtx o else NumCtx override)
    (Think o)
    (if bool_decide (ThinkLevel override = EmptyString) then ThinkLevel o else ThinkLevel override)
    (match Temperature override with Some t => Some t | None => Temperature o end)
    (Format o).

(** [inferenceClientFor]: the client and the options it is known to send. *)
Definition inferenceClientFor (modelName : string) : InferenceClient * ClientOptions * bool :=
  let shared := ollamaClient h in
  match ModelOptions (cfg h) !! modelName with
  | None => (shared, report shared, false)
  | Some override =>
      if negb (ic_overrides shared) then (shared, report shared, false)
      else
        let c := MkClient (overridden (ic_options shared) override) true true true in
        (c, ic_options c, true)
  end.

(** [newChunkStreamer]. *)
Definition newChunkStreamer (ctx : Ctx) (p : JobPayload) (sessionKey : bytes) (allowed : bool) (c : InferenceClient)
    : prog JobE (option chunkStreamer) :=
  if negb allowed || negb (StreamEnabled (cfg h)) then Ret None
  else match responsePublisher h with
       | Some true =>
           if negb (ic_streams c) then Ret None
           else
             now <- call Now ;;
             Ret (Some (MkStreamer (ic_options c) ctx (JobID p) (SessionID p) (CorrelationID p) sessionKey 0 ∅
               "" (StreamChunkTokens (cfg h)) (StreamChunkInterval (cfg h)) now None false))
       | _ => Ret None
       end.

(** ** Voice *)
Definition defaultTTSTimeout : Z := 20 * Second.
Definition voiceStreamMargin : Z := 5 * Second.
Definition SettledAudioMaxBytes : Z := 92000.

Definition put_text (text : string) (e : promptEnvelope) : promptEnvelope :=
  MkEnvelope text (Images e) "" (AudioFormat e) (AudioResponse e) (VoiceName e) (env_others e).

Definition maybeTranscribeAudio (ctx : Ctx) (e : promptEnvelope) : prog JobE (result promptEnvelope) :=
  if bool_decide (Audio e = EmptyString) then Ret (Ok e)
  else if negb (voiceEngine h) || negb (STTEnabled (cfg h)) then
    if bool_decide (Text e = EmptyString) then
      Ret (Err (noRetry (wrap "stage 5 (transcribe audio)" errSTTUnavailable_)))
    else Ret (Ok (put_text (Text e) e))
  else match b64_decode (Audio e) with
       | Err err => Ret (Err (noRetry (wrap "stage 5 (transcribe audio): undecodable base64 audio" err)))
       | Ok raw =>
           let format := if bool_decide (AudioFormat e = EmptyString) then "wav"%string else AudioFormat e in
           r <- call (Transcribe ctx raw format) ;;
           match r with
           | Err err =>
               if errors_Is err ErrBadAudio then Ret (Err (noRetry (wrap "stage 5 (transcribe audio)" err)))
               else Ret (Err (wrap "stage 5 (transcribe audio)" err))
           | Ok transcript =>
               let transcript := TrimSpace transcript in
               if bool_decide (transcript = EmptyString) then
                 Ret (Err (noRetry (wrap "stage 5 (transcribe audio)" errEmptyTranscript_)))
               else if bool_decide (Text e = EmptyString) then Ret (Ok (put_text transcript e))
               else Ret (Ok (put_text (Text e +:+ String (Ascii.ascii_of_nat 10) transcript) e))
           end
       end.

Definition publishAudioMeta (s : chunkStreamer) (m : audioMeta) : prog JobE (chunkStreamer * option error) :=
  match audioMeta_payload m with
  | Err e => Ret (s, Some (wrap "encode audio descriptor" e))
  | Ok raw => PublishBytes s FrameKindAudio raw
  end.

(** The read loop of [maybeDeliverAudio] over the chunks the stream yields:
    bytes and chunks delivered so far. *)
Fixpoint publish_audio (s : chunkStreamer) (pcm : list bytes) (totalBytes chunks : Z)
    : prog JobE (chunkStreamer * Z * Z) :=
  match pcm with
  | [] => Ret (s, totalBytes, chunks)
  | b :: pcm =>
      r <- PublishBytes s FrameKindAudio b ;;
      publish_audio (fst r) pcm (totalBytes + Z.of_nat (String.length b))
        (match snd r with None => chunks + 1 | Some _ => chunks end)
  end.

Definition audio_header (voiceName text : string) (truncated : bool) : audioMeta :=
  MkAudioMeta "pcm-s16le" 24000 1 voiceName "kokoro" (Z.of_nat (String.length text)) truncated true false false 0 0 "".

(** The part of [maybeDeliverAudio] that has the stream open. *)
Definition deliver_stream (s : chunkStreamer) (stream : Z) (text voiceName : string) (truncated : bool)
    : prog JobE chunkStreamer :=
  r <- publishAudioMeta s (audio_header voiceName text truncated) ;;
  match r with
  | (s, Some _) => Ret s
  | (s, None) =>
      rd <- call (ReadAudio stream) ;;
      let '(pcm, readErr) := rd in
      r <- publish_audio s pcm 0 0 ;;
      let '(s, totalBytes, chunks) := r in
      if bool_decide (readErr <> None) || (totalBytes =? 0) then Ret s
      else
        let hash := Keccak256 (String.concat "" pcm) in
        r <- publishAudioMeta s (MkAudioMeta "pcm-s16le" 24000 1 voiceName "kokoro"
               (Z.of_nat (String.length text)) truncated true false true totalBytes chunks
               ("0x" +:+ EncodeToString hash)) ;;
        Ret (fst r)
  end.

(** [maybeDeliverAudio]. *)
Definition maybeDeliverAudio (s : option chunkStreamer) (response : string) (e : promptEnvelope)
    (guard : option deadlineGuard) : prog JobE (option chunkStreamer) :=
  if negb (voiceEngine h) || negb (TTSEnabled (cfg h)) || negb (AudioResponse e) then Ret s
  else match s with
       | None => Ret s
       | Some st =>
           if bool_decide (response = EmptyString) then Ret s
           else
             let max := TTSMaxChars (cfg h) in
             let truncated := (0 <? max) && (max <? Z.of_nat (String.length response)) in
             let text := if truncated then String.substring 0 (Z.to_nat max) response else response in
             let voiceName := if bool_decide (VoiceName e = EmptyString) then TTSVoice (cfg h) else VoiceName e in
             let ttsTimeout := if TTSTimeout (cfg h) <=? 0 then defaultTTSTimeout else TTSTimeout (cfg h) in
             fits <- voiceBudgetOK guard (i64_wrap (ttsTimeout + voiceStreamMargin)) ;;
             if negb fits then Ret s
             else
               r <- call (Synthesize text voiceName) ;;
               match r with
               | Err _ => Ret s
               | Ok stream =>
                   st <- deferred (deliver_stream st stream text voiceName truncated) (fun _ => call (CloseAudio stream)) ;;
                   Ret (Some st)
               end
       end.

(** [runSpeechJob]. *)
Definition runSpeechJob (ctx : Ctx) (text : string) : prog JobE (result string) :=
  if negb (voiceEngine h) then
    Ret (Err (errorf "stage 5 (speech): no voice engine configured; set TTS_ENABLED and TTS_SIDECAR_URL"))
  else
    let spoken := TrimSpace text in
    if bool_decide (spoken = EmptyString) then Ret (Err (errorf "stage 5 (speech): nothing to read"))
    else
      let voiceName := if bool_decide (TTSVoice (cfg h) = EmptyString) then "af_heart"%string else TTSVoice (cfg h) in
      audio <-? wrap_err "stage 5 (speech)" (call (SynthesizeSettled ctx spoken voiceName SettledAudioMaxBytes)) ;;
      Ret (Ok (b64_encode (fst audio))).

(** ** History *)
Definition conversationHistory (p : JobPayload) (sessionKey : bytes) : prog JobE (result (list Message)) :=
  ids <-? (if priorJobs h
           then wrap_err "list prior jobs" (call (PriorJobs (SessionID p) (JobID p) (PayloadBlock p)))
           else Ret (Ok (PriorJobIDs p))) ;;
  match ids with
  | [] => Ret (Ok [])
  | _ => call (BuildHistory sessionKey ids (PayloadBlock p))
  end.

(** ** The model call *)

(** The handlers of [runInference], called on one delta after the other; an
    error would stop the stream. *)
Definition on_delta (s : chunkStreamer) (d : bool * string) : prog JobE (chunkStreamer * option error) :=
  if fst d then if StreamReasoning (cfg h) then add s FrameKindReasoning (snd d) else Ret (s, None)
  else add s FrameKindText (snd d).
Fixpoint feed (s : chunkStreamer) (ds : list (bool * string)) : prog JobE (chunkStreamer * option error) :=
  match ds with
  | [] => Ret (s, None)
  | d :: ds =>
      r <- on_delta s d ;;
      match r with
      | (s, Some e) => Ret (s, Some e)
      | (s, None) => feed s ds
      end
  end.

Definition chatMessages (msgs : option (list Message)) : option (list Message) := msgs.

Definition is_speech (modelName : string) : bool :=
  negb (bool_decide (SpeechModelName (cfg h) = EmptyString)) && bool_decide (modelName = SpeechModelName (cfg h)).

(** The rest of [runInference] once the streaming call is under way: its deltas
    go through the handlers, and what is left is flushed when it succeeded. *)
Definition play (s : chunkStreamer) (a : stream_answer) : prog JobE (option chunkStreamer * result (string * StreamStats)) :=
         (fd <- feed s (sa_deltas a) ;;
          match fd with
          | (s, Some e) => Ret (Some s, Err e)
          | (s, None) =>
              match sa_err a with
              | Some e => Ret (Some s, Err e)
              | None => fl <- FlushAll s ;; Ret (Some (fst fl), Ok (sa_response a, sa_stats a))
              end
          end).

(** [runInference]: the streamer it leaves, and the response or the error. *)
Definition runInference (ctx : Ctx) (c : InferenceClient) (modelName : string) (prompt : promptEnvelope)
    (history : list Message) (s : option chunkStreamer)
    : prog JobE (option chunkStreamer * result (string * StreamStats)) :=
  if is_speech modelName then
    r <- runSpeechJob ctx (Text prompt) ;;
    Ret (s, match r with Ok t => Ok (t, no_stats) | Err e => Err e end)
  else
    let messages := chatMessages (Conversation prompt history) in
    match s with
    | None =>
        r <- match messages with
             | Some m => call (Chat ctx (ic_options c) modelName m)
             | None => call (Generate ctx (ic_options c) modelName (Text prompt))
             end ;;
        Ret (None, match r with Ok t => Ok (t, no_stats) | Err e => Err e end)
    | Some s =>
        a <- match messages with
             | Some m => call (ChatStream ctx (client s) modelName m)
             | None => call (GenerateStream ctx (client s) modelName (Text prompt) (Images prompt))
             end ;;
        play s a
    end.

(** ** Stages 3 to 6 *)

(** Stage 4: one refresh of the session key when the prompt does not decrypt. *)
Definition decrypt_prompt (p : JobPayload) (sessionKey blobData : bytes) : prog JobE (result (bytes * bytes)) :=
  r <- call (Decrypt sessionKey blobData) ;;
  match r with
  | Ok prompt => Ret (Ok (sessionKey, prompt))
  | Err err =>
      rk <- refreshSessionKey (SessionID p) ;;
      match rk with
      | Err _ => Ret (Err (wrap "stage 4 (decrypt prompt)" err))
      | Ok refreshed =>
          prompt <-? wrap_err "stage 4 (decrypt prompt after key refresh)" (call (Decrypt refreshed blobData)) ;;
          Ret (Ok (refreshed, prompt))
      end
  end.

(** A self-contained job that is malformed fails for good. *)
Definition decode_failure {A} (e : error) : result A :=
  if errors_Is e ErrInvalidSelfContained then Err (noRetry e) else Err e.

(** Stage 4.5: the prompt the model sees and the sources behind it. *)
Definition search_stage (ctx : Ctx) (promptText : string) (searchEnabled : bool) : prog JobE (string * list Source) :=
  if searchEnabled && searcher h then
    let searchCtx := if 0 <? SearchTimeout (cfg h) then WithTimeout ctx (SearchTimeout (cfg h)) else ctx in
    let maxResults := if SearchMaxResults (cfg h) <=? 0 then 5 else SearchMaxResults (cfg h) in
    r <- call (Search searchCtx promptText maxResults) ;;
    match r with
    | Ok (s :: ss) => Ret (BuildAugmentedPrompt promptText (s :: ss), s :: ss)
    | _ => Ret (promptText, [])
    end
  else Ret (promptText, []).

(** The error of a failed model call. *)
Definition inference_failure (guard : option deadlineGuard) (history : list Message) (err : error)
    : prog JobE (result (bytes * Z)) :=
  let wrapped := match history with
                 | [] => wrap "stage 5 (inference)" err
                 | _ => wrap "stage 5 (chat inference)" err
                 end in
  if errors_Is err ErrEmptyGeneration then Ret (Err (noRetry wrapped))
  else
    doomed <- isDoomedNow guard ;;
    if doomed then Ret (Err (noRetry (join wrapped ErrJobDoomed_))) else Ret (Err wrapped).

(** Stage 6 and 6b: the settled ciphertext and the number of frames. *)
Definition finish (p : JobPayload) (sessionKey : bytes) (s : option chunkStreamer) (response : string)
    (sources : list Source) (e : promptEnvelope) (guard : option deadlineGuard) : prog JobE (result (bytes * Z)) :=
  match EncodeResponse response sources with
  | Err err => Ret (Err (wrap "stage 6 (encode response)" err))
  | Ok respBytes =>
      ciphertext <-? wrap_err "stage 6 (encrypt response)" (call (Encrypt sessionKey respBytes)) ;;
      _ <- match sources, responsePublisher h with
           | _ :: _, Some _ =>
               m <- call (Encrypt sessionKey (sources_payload sources)) ;;
               match m with
               | Err _ => Ret tt
               | Ok metaPayload => call (Publish (JobID p) (SessionID p) (CorrelationID p) (Metadata metaPayload))
               end
           | _, _ => Ret tt
           end ;;
      s <- maybeDeliverAudio s response e guard ;;
      Ret (Ok (ciphertext, frames s))
  end.

(** Stage 5, from the decoded envelope on. *)
Definition infer (ctx : Ctx) (p : JobPayload) (sessionKey : bytes) (modelName : string) (e : promptEnvelope)
    (sources : list Source) (streamDeltas : bool) (guard : option deadlineGuard) : prog JobE (result (bytes * Z)) :=
  infCtx <-? gateInference ctx guard ;;
  e <-? maybeTranscribeAudio infCtx e ;;
  history <-? (if SelfContained e then Ret (Ok [])
               else wrap_err "stage 5 (build history)" (conversationHistory p sessionKey)) ;;
  let '(c, effectiveOpts, _) := inferenceClientFor modelName in
  s <- newChunkStreamer infCtx p sessionKey streamDeltas c ;;
  r <- runInference infCtx c modelName e history s ;;
  match snd r with
  | Err err => inference_failure guard history err
  | Ok (response, stats) =>
      s <- match fst r with
           | Some s => s <- recordStats s stats (NumPredict effectiveOpts) ;; Ret (Some s)
           | None => Ret None
           end ;;
      finish p sessionKey s response sources e guard
  end.

(** [runInferencePipeline]. *)
Definition runInferencePipeline (ctx : Ctx) (p : JobPayload) (blobData : bytes) (streamDeltas : bool)
    (guard : option deadlineGuard) : prog JobE (result (bytes * Z)) :=
  sessionKey <-? wrap_err "stage 3 (session key)" (getOrDeriveSessionKey (SessionID p)) ;;
  kp <-? decrypt_prompt p sessionKey blobData ;;
  let '(sessionKey, prompt) := kp in
  match UnwrapSearch prompt with
  | Err err => Ret (decode_failure (wrap "stage 4 (decode prompt envelope)" err))
  | Ok (promptText, searchEnabled) =>
      ps <- search_stage ctx promptText searchEnabled ;;
      let '(promptText, sources) := ps in
      match resolveModelName (ModelIDStr p) with
      | Err err => Ret (Err (wrap "stage 5 (resolve model)" err))
      | Ok modelName =>
          match DecodeEnvelope promptText with
          | Err err => Ret (decode_failure (wrap "stage 5 (decode prompt)" err))
          | Ok e =>
              if SelfContained e && is_speech modelName then
                Ret (Err (noRetry (wrap "stage 5 (decode prompt)"
                  (errors_New ErrInvalidSelfContained "the speech model takes text, not a conversation"))))
              else infer ctx p sessionKey modelName e sources streamDeltas guard
          end
      end
  end.

(** ** What stages 3 to 6 do not do

    They neither acknowledge nor settle, send no terminal frame and leave the
    checkpoint alone. *)
Definition prepares (X : Type) (e : JobE X) : Prop :=
  match e with
  | AddCounter _ | HasJobAcknowledged _ | AcknowledgeJob _ _ | AcknowledgeJobAsync _ _ | GoJoin _ _
  | SelectConfirmed _ _ _ | HasJobCompleted _ | CompleteJob _ _ _ | SubmitBlobTx _ _ | FetchBlob _ _
  | Ckpt _ | MarkEligible _ _ | Publish _ _ _ (Complete _ _ _) | Publish _ _ _ (ErrorFrame _) => False
  | _ => True
  end.

(** Those that publish no chunk frame either. *)
Definition silent (X : Type) (e : JobE X) : Prop :=
  prepares X e /\ match e with Publish _ _ _ (Chunk _ _ _ _) => False | _ => True end.

Lemma delivers_prepares A (p : prog JobE A) : uses delivers p -> uses prepares p.
Proof. intros Hp. eapply uses_mono; [exact Hp|]. intros X []; simpl; try done. by destruct f. Qed.
Lemma looks_silent A (p : prog JobE A) : uses looks p -> uses silent p.
Proof. intros Hp. eapply uses_mono; [exact Hp|]. by intros X []. Qed.
Lemma silent_prepares A (p : prog JobE A) : uses silent p -> uses prepares p.
Proof. intros Hp. eapply uses_mono; [exact Hp|]. by intros X e []. Qed.

Ltac silence := unfold try, wrap_err; repeat (cbn [uses bind call fst snd prepares silent];
  lazymatch goal with
  | |- True => exact I
  | |- _ /\ _ => split
  | |- forall _, _ => intro
  | |- uses _ (bind _ _) => apply uses_bind
  | |- uses _ (match ?x with _ => _ end) => destruct x
  | |- uses _ _ => solve [auto 2]
  | |- _ => progress unfold silent, prepares
  end).

Lemma refresh_silent sid : uses silent (refreshSessionKey sid).
Proof. unfold refreshSessionKey, deriveAndStoreSessionKey. by silence. Qed.
#[local] Hint Resolve refresh_silent : core.
Lemma getOrDerive_silent sid : uses silent (getOrDeriveSessionKey sid).
Proof. unfold getOrDeriveSessionKey, deriveAndStoreSessionKey. by silence. Qed.
Lemma decrypt_silent p k b : uses silent (decrypt_prompt p k b).
Proof. unfold decrypt_prompt. by silence. Qed.
Lemma search_silent ctx t b : uses silent (search_stage ctx t b).
Proof. unfold search_stage. by silence. Qed.
Lemma transcribe_silent ctx e : uses silent (maybeTranscribeAudio ctx e).
Proof. unfold maybeTranscribeAudio. by silence. Qed.
Lemma history_silent p k : uses silent (conversationHistory p k).
Proof. unfold conversationHistory. by silence. Qed.
Lemma speech_silent ctx t : uses silent (runSpeechJob ctx t).
Proof. unfold runSpeechJob. by silence. Qed.
Lemma gate_silent ctx g : uses silent (gateInference ctx g).
Proof. apply looks_silent, gateInference_looks. Qed.
Lemma doomed_silent g : uses silent (isDoomedNow g).
Proof. apply looks_silent, isDoomedNow_looks. Qed.
Lemma budget_silent g n : uses silent (voiceBudgetOK g n).
Proof. apply looks_silent, voiceBudgetOK_looks. Qed.
Lemma streamer_silent ctx p k b c : uses silent (newChunkStreamer ctx p k b c).
Proof. unfold newChunkStreamer. by silence. Qed.
#[local] Hint Resolve doomed_silent : core.
Lemma failure_silent g hist err : uses silent (inference_failure g hist err).
Proof. unfold inference_failure. by silence. Qed.

(** ** Frame numbers through stages 3 to 6 *)
Lemma silent_chunks A (p : prog JobE A) : uses silent p -> always p (fun tr _ => chunks tr = []).
Proof. intros Hp. eapply uses_answered; [exact Hp|]. intros Y e y [_ He]. destruct e; try done. by destruct f. Qed.

Lemma bind_silent A B (p : prog JobE A) (f : A -> prog JobE B) (Q : list (Z * string) -> B -> Prop) :
  uses silent p -> (forall a, always (f a) (fun tr b => Q (chunks tr) b)) ->
  always (bind p f) (fun tr b => Q (chunks tr) b).
Proof.
  intros Hp Hf. apply always_bind. eapply always_mono; [by apply silent_chunks|].
  intros tr a Htr. eapply always_mono; [apply Hf|]. intros tr' b. by rewrite chunks_app, Htr.
Qed.

Definition opt_advances (s : option chunkStreamer) (l : list (Z * string)) (s' : option chunkStreamer) : Prop :=
  match s, s' with
  | Some s, Some s' => advances s l s'
  | None, None => l = []
  | _, _ => False
  end.
Definition opt_wf (s : option chunkStreamer) : Prop := match s with Some s => wf s | None => True end.
Definition fresh (s : chunkStreamer) : Prop := seq s = 0 /\ coalescers s = ∅ /\ lastKind s = EmptyString.

Lemma opt_advances_same s : opt_wf s -> opt_advances s [] s.
Proof. by destruct s. Qed.
Lemma opt_advances_app s l s1 l' s2 : opt_advances s l s1 -> opt_advances s1 l' s2 -> opt_advances s (l ++ l') s2.
Proof. destruct s, s1, s2; simpl; try done; [apply advances_app|by intros -> ->]. Qed.
Lemma opt_advances_wf s l s' : opt_advances s l s' -> opt_wf s'.
Proof. destruct s, s'; simpl; try done. by intros []. Qed.

Lemma fresh_wf s : fresh s -> wf s.
Proof.
  intros (_ & Hc & Hl). split; [by left| |].
  - intros k. unfold held. by rewrite Hc.
  - intros k c. by rewrite Hc.
Qed.

Lemma newChunkStreamer_fresh ctx p k b c :
  always (newChunkStreamer ctx p k b c) (fun tr os => chunks tr = [] /\ match os with Some s => fresh s | None => True end).
Proof. unfold newChunkStreamer. by walk. Qed.

Context `{FL : !FrameKindLaws FK}.

(** The deltas that reach the consumer, with their kinds. *)
Definition forwarded (ds : list (bool * string)) : list (string * string) :=
  flat_map (fun d : bool * string => if fst d then if StreamReasoning (cfg h) then [(FrameKindReasoning, snd d)] else []
                     else [(FrameKindText, snd d)]) ds.

Lemma kind_constant k : k ∈ [FrameKindReasoning; FrameKindText] -> Normalize k = k.
Proof. intros Hk. apply Normalize_constant. set_solver. Qed.

Definition consumer_kind (k : string) : Prop := k = EmptyString \/ k = FrameKindReasoning \/ k = FrameKindText.

Lemma on_delta_passes s d : wf s ->
  always (on_delta s d) (fun tr r => passes s (forwarded [d]) tr r /\
    (consumer_kind (lastKind s) -> consumer_kind (lastKind r.1))).
Proof.
  intros Hw. assert (Normalize FrameKindReasoning = FrameKindReasoning) as HR by (apply kind_constant; set_solver).
  assert (Normalize FrameKindText = FrameKindText) as HT by (apply kind_constant; set_solver).
  unfold on_delta, forwarded. destruct d as [[] t]; simpl; [destruct (StreamReasoning (cfg h))|].
  2: split; [by apply passes_nothing|done].
  all: eapply always_mono; [by apply add_passes|]; intros tr r (Hp & Hne & He);
    rewrite ?HR, ?HT in *; split; [done|];
    destruct (decide (t = EmptyString)) as [Ht|Ht]; [by rewrite (He Ht)|rewrite (Hne Ht); unfold consumer_kind; tauto].
Qed.

Lemma feed_passes ds : forall s, wf s ->
  always (feed s ds) (fun tr r => passes s (forwarded ds) tr r /\
    (consumer_kind (lastKind s) -> consumer_kind (lastKind r.1))).
Proof.
  induction ds as [|d ds IH]; intros s Hw; cbn [feed]; [split; [by apply passes_nothing|done]|].
  apply always_bind. eapply always_mono; [by apply on_delta_passes|]. intros tr1 [s1 e1] [Hp Hk].
  pose proof (ps_ok _ _ _ _ Hp) as He. simpl in He. subst e1.
  eapply always_mono; [apply IH; apply Hp|]. intros tr2 r [Hp2 Hk2]. split; [|by auto].
  change (d :: ds) with ([d] ++ ds). unfold forwarded. rewrite flat_map_app. by apply (passes_app s _ _ s1).
Qed.

(** The deltas the model client reported. *)
Definition generated (tr : list (called JobE)) : list (bool * string) :=
  answered (fun Y e => match e in JobE Y return Y -> list (bool * string) with
                       | GenerateStream _ _ _ _ _ => sa_deltas
                       | ChatStream _ _ _ _ => sa_deltas
                       | _ => fun _ => [] end) tr.

(** The streamed part of [runInference]. *)
Definition streamed_post (s : chunkStreamer) (a : stream_answer) (tr : list (called JobE))
    (r : option chunkStreamer * result (string * StreamStats)) : Prop :=
  opt_advances (Some s) (chunks tr) r.1 /\
  (consumer_kind (lastKind s) -> is_ok r.2 = true -> unsealed tr = [] ->
   exists l, shows tr l /\ flat l = flat (pending s ++ forwarded (sa_deltas a))).

Lemma play_uses s a : uses delivers (play s a).
Proof.
  assert (forall ds s, uses delivers (feed s ds)) as Hf.
  { induction ds as [|d ds IH]; intros s0; cbn [feed]; [done|]. apply uses_bind.
    - unfold on_delta. destruct (fst d); [destruct (StreamReasoning _)|]; [apply add_uses|done|apply add_uses].
    - intros [s1 [e|]]; [done|apply IH]. }
  unfold play. apply uses_bind; [apply Hf|]. intros [s1 [e|]]; [done|]. destruct (sa_err a); [done|].
  apply uses_bind; [apply FlushAll_uses|done].
Qed.

Lemma play_always s a : wf s -> always (play s a) (streamed_post s a).
Proof.
  intros Hw. unfold play. apply always_bind. eapply always_mono; [by apply feed_passes|]. intros tr1 [s1 e1] [Hp Hk].
  pose proof (ps_ok _ _ _ _ Hp) as He. simpl in He. subst e1.
  destruct (sa_err a); cbn [always].
  { unfold streamed_post. rewrite app_nil_r. split; [exact (passes_advances _ _ _ _ Hp)|done]. }
  apply always_bind. eapply always_mono; [apply FlushAll_passes, Hp|]. intros tr2 [s2 e2] [Hp2 Hl]. cbn [always].
  unfold streamed_post. rewrite app_nil_r. pose proof (passes_app _ _ _ _ _ _ _ Hp Hp2) as Hpp.
  split; [exact (passes_advances _ _ _ _ Hpp)|]. intros Hc _ Hu.
  destruct (ps_text _ _ _ _ Hpp Hu) as (l & Hsh & Hfl). exists l. split; [done|].
  rewrite (app_nil_r (forwarded _)) in Hfl. rewrite <- Hfl, (flat_app l), Hl, app_nil_r; [done|].
  destruct (Hk Hc) as [E|[E|E]]; simpl in E; rewrite E; set_solver.
Qed.

Definition infer_post (s : option chunkStreamer) (speech : bool) (tr : list (called JobE))
    (r : option chunkStreamer * result (string * StreamStats)) : Prop :=
  opt_advances s (chunks tr) r.1 /\
  forall s0, s = Some s0 -> fresh s0 -> speech = false -> is_ok r.2 = true -> unsealed tr = [] ->
    exists l, shows tr l /\ flat l = flat (forwarded (generated tr)).

Lemma runInference_always ctx c m e hist s : opt_wf s ->
  always (runInference ctx c m e hist s) (infer_post s (is_speech m)).
Proof.
  intros Hw. unfold runInference. destruct (is_speech m) eqn:Es.
  { apply always_bind. eapply always_mono; [apply silent_chunks, speech_silent|]. intros tr r Htr. cbn [always].
    unfold infer_post. rewrite app_nil_r, Htr. split; [by apply opt_advances_same|done]. }
  destruct s as [s|].
  - assert (forall a, always (play s a) (fun tr r => streamed_post s a tr r /\ generated tr = [])) as Hplay.
    { intros a. apply always_conj; [by apply play_always|]. eapply uses_answered; [apply play_uses|].
      by intros Y []. }
    destruct (chatMessages (Conversation e hist)) as [ms|]; cbn [bind always call]; intros a;
      (eapply always_mono; [apply Hplay|]); intros tr r [[Ha Ht] Hg]; (split; [exact Ha|]);
      intros s0 [= <-] (Hsq & Hcs & Hlk) _ Hok Hu;
      (destruct Ht as (l & Hsh & Hfl); [by left|done|exact Hu|]); exists l; (split; [exact Hsh|]);
      rewrite Hfl; unfold pending; rewrite Hlk; unfold held; rewrite Hcs;
      unfold generated, answered in *; simpl; by rewrite Hg, app_nil_r.
  - destruct (chatMessages _); cbn; intros r; (split; [done|by intros s0]).
Qed.

(** [advances] along a sequence of operations. *)
Lemma bind_advances A B (s : chunkStreamer) (p : prog JobE A) (f : A -> prog JobE B) (at_ : A -> chunkStreamer)
    (Q : list (Z * string) -> B -> Prop) :
  always p (fun tr a => advances s (chunks tr) (at_ a)) ->
  (forall l a, advances s l (at_ a) -> always (f a) (fun tr b => Q (l ++ chunks tr) b)) ->
  always (bind p f) (fun tr b => Q (chunks tr) b).
Proof.
  intros Hp Hf. apply always_bind. eapply always_mono; [exact Hp|]. intros tr a Ha. cbn beta in Ha.
  eapply always_mono; [apply (Hf _ _ Ha)|]. intros tr' b. by rewrite chunks_app.
Qed.

Lemma advances_same s : wf s -> advances s [] s.
Proof. by split. Qed.
Lemma PublishBytes_advances s k b : wf s -> always (PublishBytes s k b) (fun tr r => advances s (chunks tr) r.1).
Proof. intros Hw. eapply always_mono; [by apply PublishBytes_numbered|]. simpl. tauto. Qed.

Lemma publishAudioMeta_advances s m : wf s -> always (publishAudioMeta s m) (fun tr r => advances s (chunks tr) r.1).
Proof. intros Hw. unfold publishAudioMeta. destruct (audioMeta_payload m); [by apply PublishBytes_advances|by apply advances_same]. Qed.

Lemma publish_audio_advances pcm : forall s n c, wf s ->
  always (publish_audio s pcm n c) (fun tr r => advances s (chunks tr) r.1.1).
Proof.
  induction pcm as [|b pcm IH]; intros s n c Hw; cbn [publish_audio]; [by apply advances_same|].
  eapply (bind_advances _ _ s _ _ fst (fun l r => advances s l r.1.1)); [by apply PublishBytes_advances|].
  intros l [s1 e] Ha. eapply always_mono; [apply IH, Ha|]. intros tr r Hr. by eapply advances_app.
Qed.

Lemma deliver_stream_advances s st text v b : wf s ->
  always (deliver_stream s st text v b) (fun tr s' => advances s (chunks tr) s').
Proof.
  intros Hw. unfold deliver_stream.
  eapply (bind_advances _ _ s _ _ fst (fun l s' => advances s l s')); [by apply publishAudioMeta_advances|].
  intros l [s1 [e|]] Ha; cbn [always]; [by rewrite app_nil_r|].
  cbn [bind call always]. intros [pcm re]. change (chunks (Called ?c ?x :: ?tr)) with (chunks tr).
  apply (bind_advances _ _ s1 _ _ (fun r => r.1.1) (fun l' s' => advances s (l ++ l') s')); [apply publish_audio_advances, Ha|].
  intros l2 [[s2 n] c] Ha2. cbn [fst] in Ha2. destruct (_ || _); cbn [always].
  { rewrite app_nil_r. by eapply advances_app. }
  apply (bind_advances _ _ s2 _ _ fst (fun l' s' => advances s (l ++ l2 ++ l') s')); [apply publishAudioMeta_advances, Ha2|].
  intros l3 [s3 e3] Ha3. cbn [always]. rewrite app_nil_r. by do 2 (eapply advances_app; [done|]).
Qed.

Lemma maybeDeliverAudio_advances s resp e g : opt_wf s ->
  always (maybeDeliverAudio s resp e g) (fun tr s' => opt_advances s (chunks tr) s').
Proof.
  intros Hw. unfold maybeDeliverAudio. destruct (_ || _ || _); [by apply opt_advances_same|].
  destruct s as [s|]; [|done]. destruct (bool_decide _); [by apply advances_same|].
  apply (bind_silent _ _ _ _ (fun l s' => opt_advances (Some s) l s')); [apply budget_silent|].
  intros []; simpl negb; [|by apply advances_same]. cbn [bind call always]. intros [st|]; [|by apply advances_same].
  change (chunks (Called ?c ?x :: ?tr)) with (chunks tr). unfold deferred.
  eapply (bind_advances _ _ s _ _ id (fun l s' => opt_advances (Some s) l s')).
  - eapply (bind_advances _ _ s _ _ id (fun l s' => advances s l s')); [by apply deliver_stream_advances|].
    intros l s1 Ha. cbn. intros _. by rewrite app_nil_r.
  - intros l s1 Ha. cbn. by rewrite app_nil_r.
Qed.

(** The count handed to stage 7 is the number of the last frame. *)
Definition counted (n : Z) (l : list (Z * string)) (r : result (bytes * Z)) : Prop :=
  match r with Ok (_, n') => numbered n l.*1 n' | Err _ => True end.

Lemma opt_advances_frames s l s' : opt_advances s l s' -> numbered (frames s) l.*1 (frames s').
Proof. destruct s, s'; simpl; try done; [by intros []|by intros ->]. Qed.

Lemma finish_counted p k s resp src e g : opt_wf s ->
  always (finish p k s resp src e g) (fun tr r => counted (frames s) (chunks tr) r).
Proof.
  intros Hw. unfold finish. destruct (EncodeResponse resp src); [|done].
  unfold try, wrap_err. cbn [bind call always]. intros [ct|err]; cbn [bind always]; [|done].
  change (chunks (Called ?c ?x :: ?tr)) with (chunks tr).
  apply bind_silent; [destruct src, (responsePublisher h); by silence|]. intros _.
  apply always_bind. eapply always_mono; [by apply maybeDeliverAudio_advances|].
  intros tr s' Ha. cbn [always]. rewrite app_nil_r. by apply opt_advances_frames.
Qed.

Lemma record_advances s st n : opt_wf s ->
  always (match s with
          | Some s => s <- recordStats s st n ;; Ret (Some s)
          | None => Ret None
          end) (fun tr s' => opt_advances s (chunks tr) s').
Proof.
  destruct s as [s|]; intros Hw; [|done]. apply always_bind.
  eapply always_mono; [by apply recordStats_numbered|]. intros tr s' Ha. cbn. by rewrite app_nil_r.
Qed.

Lemma counted_app n (l : list (Z * string)) m l' r : numbered n l.*1 m -> counted m l' r -> counted n (l ++ l') r.
Proof. destruct r as [[ct n']|e]; simpl; [|done]. rewrite fmap_app. apply numbered_app. Qed.

Lemma silent_counted g hist err n :
  always (inference_failure g hist err) (fun tr r => counted n (chunks tr) r).
Proof.
  unfold inference_failure. destruct (errors_Is _ _); [done|]. apply always_bind.
  eapply always_mono; [apply silent_chunks, doomed_silent|]. intros tr [] _; done.
Qed.

Lemma infer_counted ctx p k m e src b g :
  always (infer ctx p k m e src b g) (fun tr r => counted 0 (chunks tr) r).
Proof.
  unfold infer, try, wrap_err.
  apply bind_silent; [apply gate_silent|]. intros [ictx|]; [|done].
  apply bind_silent; [apply transcribe_silent|]. intros [e'|]; [|done].
  apply bind_silent; [destruct (SelfContained e'); silence; apply history_silent|]. intros [hist|]; [|done].
  destruct (inferenceClientFor m) as [[c eff] ov].
  apply always_bind. eapply always_mono; [apply newChunkStreamer_fresh|]. intros tr0 s [Hc Hf].
  assert (opt_wf s /\ frames s = 0) as [Hw H0].
  { destruct s as [s|]; [|done]. split; [by apply fresh_wf|apply Hf]. }
  apply always_bind. eapply always_mono; [by apply runInference_always|]. intros tr1 [s1 r1] [Ha _].
  pose proof (opt_advances_frames _ _ _ Ha) as Hn. rewrite H0 in Hn. pose proof (opt_advances_wf _ _ _ Ha) as Hw1.
  cbn [fst snd] in *. destruct r1 as [[resp st]|err].
  2: { eapply always_mono; [apply (silent_counted _ _ _ (frames s1))|]. intros tr r Hr.
       rewrite !chunks_app, Hc. cbn [app]. by eapply counted_app. }
  apply always_bind. eapply always_mono; [by apply record_advances|]. intros tr2 s2 Ha2.
  eapply always_mono; [apply finish_counted, (opt_advances_wf _ _ _ Ha2)|]. intros tr3 r Hr.
  rewrite !chunks_app, Hc. cbn [app]. eapply counted_app; [exact Hn|]. eapply counted_app; [|exact Hr].
  by apply opt_advances_frames.
Qed.

(** Over every answer: the frame count stages 3 to 6 report numbers their
    frames from 1 on. *)
Lemma runInferencePipeline_counted ctx p b sd g :
  always (runInferencePipeline ctx p b sd g) (fun tr r => counted 0 (chunks tr) r).
Proof.
  unfold runInferencePipeline, try, wrap_err.
  apply bind_silent; [silence; apply getOrDerive_silent|]. intros [k|]; [|done].
  apply bind_silent; [apply decrypt_silent|]. intros [[k' prompt]|]; [|done].
  destruct (UnwrapSearch prompt) as [[t se]|err]; [|unfold decode_failure; by destruct (errors_Is _ _)].
  apply bind_silent; [apply search_silent|]. intros [t' src].
  destruct (resolveModelName _) as [m|]; [|done].
  destruct (DecodeEnvelope t') as [e|err]; [|unfold decode_failure; by destruct (errors_Is _ _)].
  destruct (_ && _); [done|]. apply infer_counted.
Qed.

(** ** The calls of stages 3 to 6 *)
Lemma PublishBytes_prepares s k b : uses prepares (PublishBytes s k b).
Proof. apply delivers_prepares, PublishBytes_uses. Qed.
#[local] Hint Resolve PublishBytes_prepares : core.
Lemma publishAudioMeta_prepares s m : uses prepares (publishAudioMeta s m).
Proof. unfold publishAudioMeta. by silence. Qed.
#[local] Hint Resolve publishAudioMeta_prepares : core.
Lemma publish_audio_prepares pcm : forall s n c, uses prepares (publish_audio s pcm n c).
Proof. induction pcm as [|b pcm IH]; intros s n c; cbn [publish_audio]; by silence. Qed.
#[local] Hint Resolve publish_audio_prepares : core.
Lemma deliver_stream_prepares s st t v b : uses prepares (deliver_stream s st t v b).
Proof. unfold deliver_stream. by silence. Qed.
Lemma maybeDeliverAudio_prepares s r e g : uses prepares (maybeDeliverAudio s r e g).
Proof.
  unfold maybeDeliverAudio. destruct (_ || _ || _); [done|]. destruct s as [s|]; [|done].
  destruct (bool_decide _); [done|]. apply uses_bind; [apply silent_prepares, budget_silent|].
  intros []; cbn [negb]; [|done].
  cbn [bind call uses]. split; [done|]. intros [st|]; [|done]. unfold deferred. apply uses_bind; [|by silence].
  apply uses_bind; [apply deliver_stream_prepares|by silence].
Qed.
Lemma runInference_prepares ctx c m e hist s : uses prepares (runInference ctx c m e hist s).
Proof.
  unfold runInference. destruct (is_speech m); [apply uses_bind; [apply silent_prepares, speech_silent|done]|].
  destruct s as [s|]; (apply uses_bind; [destruct (chatMessages _); by silence|]); intros a; [|done].
  apply delivers_prepares, play_uses.
Qed.
Lemma finish_prepares p k s resp src e g : uses prepares (finish p k s resp src e g).
Proof.
  unfold finish. destruct (EncodeResponse resp src); [|done]. silence; by apply maybeDeliverAudio_prepares.
Qed.

Lemma infer_prepares ctx p k m e src b g : uses prepares (infer ctx p k m e src b g).
Proof.
  unfold infer, try, wrap_err.
  apply uses_bind; [apply silent_prepares, gate_silent|]. intros [ictx|]; [|done].
  apply uses_bind; [apply silent_prepares, transcribe_silent|]. intros [e'|]; [|done].
  apply uses_bind; [destruct (SelfContained e'); silence; apply silent_prepares, history_silent|]. intros [hist|]; [|done].
  destruct (inferenceClientFor m) as [[c eff] ov].
  apply uses_bind; [apply silent_prepares, streamer_silent|]. intros s.
  apply uses_bind; [apply runInference_prepares|]. intros [s1 [[resp st]|err]]; cbn [fst snd].
  - apply uses_bind; [|intros; apply finish_prepares]. destruct s1; [|done].
    apply uses_bind; [apply delivers_prepares, recordStats_uses|done].
  - apply silent_prepares, failure_silent.
Qed.

Lemma runInferencePipeline_prepares ctx p b sd g : uses prepares (runInferencePipeline ctx p b sd g).
Proof.
  unfold runInferencePipeline, try, wrap_err.
  apply uses_bind; [apply silent_prepares; silence; apply getOrDerive_silent|]. intros [k|]; [|done].
  apply uses_bind; [apply silent_prepares, decrypt_silent|]. intros [[k' prompt]|]; [|done].
  destruct (UnwrapSearch prompt) as [[t se]|err]; [|done].
  apply uses_bind; [apply silent_prepares, search_silent|]. intros [t' src].
  destruct (resolveModelName _) as [m|]; [|done]. destruct (DecodeEnvelope t') as [e|err]; [|done].
  destruct (_ && _); [done|]. apply infer_prepares.
Qed.

(** C24. What the consumer decrypts is what the model generated: in every
    successful streamed model call of a job, whatever the client reports and
    the clock reads, if no batch failed to encrypt, the chunk frames carry,
    batch by batch and in order, every character the client's handlers were
    given, under the kind it was given for, reasoning included only when it is
    forwarded, none lost, repeated or moved across a change of kind; and they
    are numbered 1, 2, 3, ... without a gap. *)
Theorem frames_carry_the_generation ctx c m e hist s tr r :
  runs (runInference ctx c m e hist (Some s)) tr r -> fresh s -> is_speech m = false ->
  is_ok r.2 = true -> unsealed tr = [] ->
  (exists l, shows tr l /\ flat l = flat (forwarded (generated tr))) /\
  (chunks tr).*1 = (fun i => u32_wrap i) <$> seqZ 1 (Z.of_nat (length (chunks tr).*1)).
Proof.
  intros Hr Hf Hsp Hok Hu.
  destruct (always_runs _ _ _ _ (runInference_always ctx c m e hist (Some s) (fresh_wf _ Hf)) Hr) as [Ha Ht].
  split; [by eapply Ht|]. destruct r as [[s'|] r]; [|done]. destruct Ha as [Hn _].
  destruct Hf as (H0 & _). rewrite H0 in Hn. apply numbered_from_zero in Hn as [Hn _]. exact Hn.
Qed.
End Stages.

(** ** A concrete handler *)
Definition demo_kinds : FrameKinds :=
  {| FrameKindText := "text"; FrameKindReasoning := "reasoning"; FrameKindArtifact := "artifact";
     FrameKindAudio := "audio"; FrameKindStats := "stats";
     Normalize := fun k => if bool_decide (k = EmptyString) then "text"%string else k |}.
Lemma demo_kinds_laws : FrameKindLaws demo_kinds.
Proof.
  split.
  - intros k. simpl. repeat case_bool_decide; congruence.
  - intros k. simpl. case_bool_decide; congruence.
  - intros k Hk. simpl in *. case_bool_decide; [subst|done]. set_unfold in Hk. destruct_or?; done.
Qed.

Definition demo_payloads : Payloads :=
  {| stats_payload := fun _ _ => Ok "{}"%string; artifact_payload := fun _ _ b => Ok b |}.
Definition demo_prompts : PromptLibs :=
  {| UnwrapSearch := fun p => Ok (p, false);
     DecodeEnvelope := fun t => Ok (MkEnvelope t [] "" "" false "" "");
     SelfContained := fun _ => false;
     Conversation := fun e hist => match hist with [] => None | _ => Some (hist ++ [MkMessage "user" (Text e) []]) end;
     BuildAugmentedPrompt := fun t _ => t;
     EncodeResponse := fun r _ => Ok r |}.
Definition demo_crypto : @CryptoLibs plain_addresses :=
  {| Keccak256 := fun b => b; Keccak256Hash := fun b => Z.of_nat (String.length b);
     PackMismatch := fun _ _ _ _ ct => Ok ct; TextHash := fun d => d |}.
Definition demo_encodings : Encodings :=
  {| b64_decode := fun s => Ok s; b64_encode := fun b => b; audioMeta_payload := fun _ => Ok "{}"%string;
     sources_payload := fun _ => "[]"%string |}.

#[local] Existing Instance plain_addresses.
#[local] Existing Instance demo_kinds.
#[local] Existing Instance demo_payloads.
#[local] Existing Instance demo_prompts.
#[local] Existing Instance demo_crypto.
#[local] Existing Instance demo_encodings.

(** Streaming and reasoning on, the ack overlapped, two tokens per frame. *)
Definition demo_config : HandlerConfig :=
  MkConfig (60 * Second) (60 * Second) (Some 1) (""%string : @Address plain_addresses) true true true 2 Second ∅ true 0 0 0
    false false "" "" 0 0 0 0.
Definition demo_job_handler : JobHandler :=
  MkHandler demo_config (MkClient no_options true true true) true true (Some true) true true false false false ∅.

Definition demo_streamer : chunkStreamer :=
  MkStreamer no_options (TaskCtx None None) 7 3 "c" "key" 0 ∅ "" 2 Second 0 None false.
Definition demo_deltas : list (bool * string) :=
  [(true, "hm"); (false, "He"); (false, "llo"); (false, "!")]%string.

Definition demo_stream_handler : handler JobE Z := fun X e t =>
  match e in JobE X return X * Z with
  | Now => (t, t + 1)
  | Encrypt _ b => (Ok (b +:+ "#"), t)
  | Publish _ _ _ _ => (tt, t)
  | GenerateStream _ _ _ _ _ | ChatStream _ _ _ _ => (MkStream demo_deltas "Hello!" no_stats None, t)
  | AddCounter _ | GoJoin _ _ | LandFlight _ _ | CloseAudio _ => (tt, t)
  | JoinFlight _ => (None, t)
  | SelectConfirmed _ _ _ => (ConfirmDone None, t)
  | ReadAudio _ => (([], None), t)
  | Ckpt e => (match e in CheckpointStore.CkptE Y return Y with
               | CheckpointStore.GetC _ => Ok CheckpointStore.no_checkpoint
               | CheckpointStore.SetCiphertextIfAbsentC _ p => Ok (p, true)
               | CheckpointStore.SetVersionedHashC _ _ | CheckpointStore.MarkDeliveredC _
               | CheckpointStore.TombstoneC _ => Ok tt
               end, t)
  | _ => (Err (errorf "not modelled"), t)
  end.

Definition demo_call : prog JobE (option chunkStreamer * result (string * StreamStats)) :=
  runInference demo_job_handler (TaskCtx None None) (MkClient no_options true true true) "m"
    (MkEnvelope "hi" [] "" "" false "" "") [] (Some demo_streamer).
Definition demo_call_trace : list (called JobE) := fst (fst (interp demo_stream_handler demo_call 0)).

Example demo_frames : chunks demo_call_trace = [(1, "reasoning"); (2, "text"); (3, "text")]%string /\
  sealed demo_call_trace = ["hm"; "Hello"; "!"]%string.
Proof. vm_compute. by split. Qed.

Lemma frames_carry_the_generation_witness :
  (chunks demo_call_trace).*1 = (fun i => u32_wrap i) <$> seqZ 1 (Z.of_nat (length (chunks demo_call_trace).*1)).
Proof.
  refine (proj2 (frames_carry_the_generation demo_job_handler (FL := demo_kinds_laws) (TaskCtx None None)
    (MkClient no_options true true true) "m"%string (MkEnvelope "hi" [] "" "" false "" "") [] demo_streamer _ _
    (interp_run demo_stream_handler demo_call 0) _ _ _ _)); vm_compute; auto.
Defined.
End Inference.
