(* ===== verification/Pipeline.v ===== *)
(** A job from pickup to settlement: [processJob] of
    [internal/pipeline/handler.go], the acknowledgement and its join, the
    checkpointed stages 7, 8a and 8b, and the two entry points. *)
From stdpp Require Import pretty.
From S2P Require Import Prelude Effects Checkpoint JobCalls JobTypes Deadline Stream Inference.
Import CheckpointStore Deadline Stream Inference.

#[local] Open Scope prog_scope.

Module Pipeline.
Section Job.
Context `{AO : !AddressOps} `{FK : !FrameKinds} `{PL : !Payloads} `{LP : !PromptLibs} `{LC : !CryptoLibs} `{EN : !Encodings}.
Context (h : JobHandler).

(** ** Stage 1: the acknowledgement *)

(** [reconcileAckError]: [Ok] when the transaction landed after all. *)
Definition reconcileAckError (jobID : Z) (ackErr : error) : prog JobE (result unit) :=
  r <- call (HasJobAcknowledged jobID) ;;
  Ret (match r with
       | Ok true => Ok tt
       | _ => Err (wrap "acknowledge job" ackErr)
       end).

(** [broadcastAck]: the handle is the transaction's hash. *)
Definition broadcastAck (ctx : Ctx) (jobID : Z) : prog JobE (result (option Z)) :=
  let ackCtx := WithTimeout ctx (AckTxTimeout (cfg h)) in
  r <- call (AcknowledgeJobAsync ackCtx jobID) ;;
  match r with
  | Err err => _ <-? reconcileAckError jobID err ;; Ret (Ok None)
  | Ok txHash => _ <- call (GoJoin ackCtx txHash) ;; Ret (Ok (Some txHash))
  end.

Definition asyncAckClient : bool := AckOverlapEnabled (cfg h) && async_ack_client h.

Definition ensureAcknowledged (ctx : Ctx) (jobID : Z) : prog JobE (result (option Z)) :=
  acknowledged <-? wrap_err "check acknowledged state" (call (HasJobAcknowledged jobID)) ;;
  if acknowledged : bool then Ret (Ok None)
  else if asyncAckClient then broadcastAck ctx jobID
  else
    r <- call (AcknowledgeJob (WithTimeout ctx (AckTxTimeout (cfg h))) jobID) ;;
    match r with
    | Err err => _ <-? reconcileAckError jobID err ;; Ret (Ok None)
    | Ok _ => Ret (Ok None)
    end.

(** ** Stage 1b: the join *)
Definition awaitConfirmed (ctx : Ctx) (txHash : Z) : prog JobE (result unit) :=
  c <- call (SelectConfirmed ctx txHash (AckTxTimeout (cfg h))) ;;
  Ret (match c with
       | ConfirmDone None => Ok tt
       | ConfirmDone (Some e) => Err e
       | ConfirmTimer => Err (errorf "timed out waiting for ack tx to confirm")
       | ConfirmCtxDone e => Err (wrap "job context ended before ack tx confirmed" e)
       end).

Definition awaitAcknowledged (ctx : Ctx) (jobID : Z) (ack : option Z) : prog JobE (result unit) :=
  match ack with
  | None => Ret (Ok tt)
  | Some txHash =>
      c <- awaitConfirmed ctx txHash ;;
      match c with
      | Ok _ => Ret (Ok tt)
      | Err confirmErr =>
          r <- call (HasJobAcknowledged jobID) ;;
          Ret (match r with
               | Ok true => Ok tt
               | _ => Err (wrap "stage 1b (ack confirm): acknowledgement not confirmed on-chain, refusing to settle" confirmErr)
               end)
      end
  end.

(** ** The checkpoint *)
Definition readCheckpoint (jobID : Z) : prog JobE JobCheckpoint :=
  if negb (checkpoints h) then Ret no_checkpoint
  else
    r <- call (Ckpt (GetC jobID)) ;;
    Ret (match r with Ok c => c | Err _ => no_checkpoint end).

(** Stages 2 to 6, or the cached ciphertext; with the chunk frames streamed. *)
Definition obtainCiphertext (ctx : Ctx) (p : JobPayload) (ckpt : JobCheckpoint) (guard : option deadlineGuard)
    : prog JobE (result (bytes * Z)) :=
  if HasCiphertext ckpt then Ret (Ok (Ciphertext ckpt, 0))
  else if PromptBlobHash p =? 0 then Ret (Err (errorf "stage 2 (fetch blob): prompt blob hash is zero"))
  else
    blobData <-? wrap_err "stage 2 (fetch blob)" (call (FetchBlob (PromptBlobHash p) (PayloadBlock p))) ;;
    cn <-? runInferencePipeline h ctx p blobData (negb (Delivered ckpt)) guard ;;
    let '(ciphertext, chunkFrames) := cn in
    if negb (checkpoints h) then Ret (Ok (ciphertext, chunkFrames))
    else
      r <- call (Ckpt (SetCiphertextIfAbsentC (JobID p) ciphertext)) ;;
      Ret (Ok (match r with
               | Ok (canonical, false) => canonical
               | _ => ciphertext
               end, chunkFrames)).

(** ** Stage 7 *)
Definition signMismatchEvidence (jobID sessionID : Z) (ciphertext : bytes) : prog JobE (result bytes) :=
  match ChainID (cfg h) with
  | None => Ret (Err (errorf "responseMismatchDigest: chainID is nil"))
  | Some chainID =>
      match PackMismatch chainID (JobRegistryAddr (cfg h)) jobID sessionID ciphertext with
      | Err e => Ret (Err (wrap "pack mismatch payload" e))
      | Ok encoded => call (Sign (TextHash (Keccak256 encoded)))
      end
  end.

Definition publishToRedis (p : JobPayload) (ciphertext : bytes) (totalFrames : Z) : prog JobE unit :=
  match responsePublisher h with
  | None => Ret tt
  | Some _ =>
      r <- signMismatchEvidence (JobID p) (SessionID p) ciphertext ;;
      match r with
      | Err _ => Ret tt
      | Ok sig => call (Publish (JobID p) (SessionID p) (CorrelationID p)
                     (Complete ("0x" +:+ EncodeToString sig) ciphertext totalFrames))
      end
  end.

Definition deliver (p : JobPayload) (ckpt : JobCheckpoint) (ciphertext : bytes) (chunkFrames : Z) : prog JobE unit :=
  if Delivered ckpt then Ret tt
  else
    _ <- publishToRedis p ciphertext (u32_wrap (chunkFrames + 1)) ;;
    if negb (checkpoints h) then Ret tt
    else _ <- call (Ckpt (MarkDeliveredC (JobID p))) ;; Ret tt.

(** ** Stage 8 *)
Definition ensureBlobSubmitted (ctx : Ctx) (jobID : Z) (ckpt : JobCheckpoint) (ciphertext : bytes)
    (guard : option deadlineGuard) : prog JobE (result Z) :=
  if HasVersionedHash ckpt then Ret (Ok (VersionedHash ckpt))
  else
    _ <-? gateBlobSubmit guard ;;
    blobHashes <-? wrap_err "stage 8 (submit blob)"
      (call (SubmitBlobTx (WithTimeout ctx (BlobTxTimeout (cfg h))) ciphertext)) ;;
    match blobHashes with
    | [versionedHash] =>
        _ <- (if checkpoints h
              then _ <- call (Ckpt (SetVersionedHashC jobID versionedHash)) ;; Ret tt else Ret tt) ;;
        Ret (Ok versionedHash)
    | _ => Ret (Err (errorf "stage 8 (submit blob): expected exactly 1 blob hash"))
    end.

(** A failed [completeJob]: it may have landed, and past the deadline it never
    will. *)
Definition completion_failure (jobID : Z) (guard : option deadlineGuard) (err : error) : prog JobE (result unit) :=
  r <- call (HasJobCompleted jobID) ;;
  match r with
  | Err _ => Ret (Err (wrap "complete job" err))
  | Ok true => Ret (Ok tt)
  | Ok false =>
      doomed <- isDoomedNow guard ;;
      if doomed : bool then Ret (Err (noRetry (wrap "complete job" (join err ErrJobDoomed_))))
      else Ret (Err (wrap "complete job" err))
  end.

Definition completeJob (ctx : Ctx) (jobID responseBlobHash responseCiphertextHash : Z)
    (guard : option deadlineGuard) : prog JobE (result unit) :=
  already <- (if 0 <? GetRetryCount ctx
              then r <- call (HasJobCompleted jobID) ;; Ret (match r with Ok b => b | Err _ => false end)
              else Ret false) ;;
  if already : bool then Ret (Ok tt)
  else
    r <- call (CompleteJob jobID responseBlobHash responseCiphertextHash) ;;
    match r with
    | Ok _ => Ret (Ok tt)
    | Err err => completion_failure jobID guard err
    end.

(** What follows a settled job; none of it can fail it. *)
Definition after_settlement (jobID : Z) (guard : option deadlineGuard) : prog JobE unit :=
  _ <- match guard with Some g => _ <- read g ;; Ret tt | None => Ret tt end ;;
  _ <- (if releaseTracker h
        then now <- call Now ;; _ <- call (MarkEligible jobID (dur_secs now)) ;; Ret tt else Ret tt) ;;
  if checkpoints h then _ <- call (Ckpt (TombstoneC jobID)) ;; Ret tt else Ret tt.

Definition settle (ctx : Ctx) (p : JobPayload) (ckpt : JobCheckpoint) (ciphertext : bytes)
    (guard : option deadlineGuard) : prog JobE (result unit) :=
  versionedHash <-? ensureBlobSubmitted ctx (JobID p) ckpt ciphertext guard ;;
  _ <-? wrap_err "stage 8 (complete job)"
    (completeJob ctx (JobID p) versionedHash (Keccak256Hash ciphertext) guard) ;;
  _ <- after_settlement (JobID p) guard ;;
  Ret (Ok tt).

(** ** [processJob] *)
Definition guard_of (p : JobPayload) : option deadlineGuard :=
  newDeadlineGuard (DeadlineGuardEnabled (cfg h)) (deadline_client h) (SettleReserve (cfg h))
    (CompletionReserve (cfg h)) (MinInferenceBudget (cfg h)) (JobID p).

(** From stage 7 on. *)
Definition conclude (ctx : Ctx) (p : JobPayload) (ckpt : JobCheckpoint) (ciphertext : bytes) (chunkFrames : Z)
    : prog JobE (result unit * bool) :=
  _ <- deliver p ckpt ciphertext chunkFrames ;;
  r <- settle ctx p ckpt ciphertext (guard_of p) ;;
  Ret (r, true).

(** The stages: the result, and whether stage 7 was reached. *)
Definition stages (ctx : Ctx) (p : JobPayload) : prog JobE (result unit * bool) :=
  g <- checkPickup (guard_of p) ;;
  match g with
  | Err e => Ret (Err e, false)
  | Ok _ =>
      a <- wrap_err "stage 1 (ack)" (ensureAcknowledged ctx (JobID p)) ;;
      match a with
      | Err e => Ret (Err e, false)
      | Ok ack =>
          ckpt <- readCheckpoint (JobID p) ;;
          c <- obtainCiphertext ctx p ckpt (guard_of p) ;;
          match c with
          | Err e => Ret (Err e, false)
          | Ok (ciphertext, chunkFrames) =>
              j <- awaitAcknowledged ctx (JobID p) ack ;;
              match j with
              | Err e => Ret (Err e, false)
              | Ok _ => conclude ctx p ckpt ciphertext chunkFrames
              end
          end
      end
  end.

(** With the deferred tag of an error behind a delivered answer. *)
Definition processJob (ctx : Ctx) (p : JobPayload) : prog JobE (result unit) :=
  rd <- stages ctx p ;;
  Ret (match rd with
       | (Err e, true) => Err (join e errAnswerDelivered_)
       | (r, _) => r
       end).

(** ** Entry points *)
Definition errorFramePublishTimeout : Z := 5 * Second.

Definition reportFailure (ctx : Ctx) (p : JobPayload) (err : error) : prog JobE unit :=
  match responsePublisher h with
  | None => Ret tt
  | Some _ =>
      if errors_Is err ErrAnswerDelivered then Ret tt
      else call (Publish (JobID p) (SessionID p) (CorrelationID p)
             (ErrorFrame (WithTimeout (WithoutCancel ctx) errorFramePublishTimeout)))
  end.

Definition HandleJobPayload (ctx : Ctx) (p : JobPayload) : prog JobE (result unit) :=
  _ <- call (AddCounter 1) ;;
  deferred
    (r <- processJob ctx p ;;
     match r with
     | Err err => _ <- reportFailure ctx p err ;; Ret (Err err)
     | Ok _ => Ret (Ok tt)
     end) (fun _ => call (AddCounter (-1))).

(** Whether a failed attempt speaks for the job. *)
Definition speaks (ctx : Ctx) (err : error) : bool :=
  errors_Is err SkipRetry ||
  match GetMaxRetry ctx with
  | Some maxRetry => maxRetry <=? GetRetryCount ctx
  | None => false
  end.

(** [HandleTask], of the task's payload as it unmarshals. *)
Definition HandleTask (ctx : Ctx) (payload : result JobPayload) : prog JobE (result unit) :=
  match payload with
  | Err e => Ret (Err (wrap "unmarshal job payload" e))
  | Ok p =>
      _ <- call (AddCounter 1) ;;
      deferred
        (r <- processJob ctx p ;;
         match r with
         | Ok _ => Ret (Ok tt)
         | Err err =>
             _ <- (if speaks ctx err then reportFailure ctx p err else Ret tt) ;;
             Ret (Err err)
         end) (fun _ => call (AddCounter (-1)))
  end.

(** ** What a run did to the job

    The irreversible steps, in order. *)
Inductive deed : Type :=
  | Published (ciphertext : bytes) (totalFrames : Z)
  | Blobbed (data : bytes) (r : result (list Z))
  | Completed (responseBlobHash responseCiphertextHash : Z) (r : result unit)
  | Marked
  | ErrorFramed.

Definition deed_of Y (e : JobE Y) : Y -> list deed :=
  match e in JobE Y return Y -> list deed with
  | Publish _ _ _ (Complete _ ct n) => fun _ => [Published ct n]
  | Publish _ _ _ (ErrorFrame _) => fun _ => [ErrorFramed]
  | SubmitBlobTx _ ct => fun r => [Blobbed ct r]
  | CompleteJob _ b c => fun r => [Completed b c r]
  | MarkEligible _ _ => fun _ => [Marked]
  | _ => fun _ => []
  end.
Definition deeds (tr : list (called JobE)) : list deed := answered deed_of tr.

(** The calls of the checkpoint store. *)
Definition ckpt_of Y (e : JobE Y) : Y -> list (called CkptE) :=
  match e in JobE Y return Y -> list (called CkptE) with
  | Ckpt c => fun x => [Called c x]
  | _ => fun _ => []
  end.
Definition ckpt_calls (tr : list (called JobE)) : list (called CkptE) := answered ckpt_of tr.

(** An answer that says the job is acknowledged on-chain. *)
Definition confirms_of Y (e : JobE Y) : Y -> list unit :=
  match e in JobE Y return Y -> list unit with
  | HasJobAcknowledged _ => fun r => match r with Ok true => [tt] | _ => [] end
  | AcknowledgeJob _ _ => fun r => match r with Ok _ => [tt] | Err _ => [] end
  | SelectConfirmed _ _ _ => fun r => match r with ConfirmDone None => [tt] | _ => [] end
  | _ => fun _ => []
  end.
Definition confirmed (tr : list (called JobE)) : Prop := answered confirms_of tr <> [].

(** An answer that says it is completed. *)
Definition completes_of Y (e : JobE Y) : Y -> list unit :=
  match e in JobE Y return Y -> list unit with
  | HasJobCompleted _ => fun r => match r with Ok true => [tt] | _ => [] end
  | CompleteJob _ _ _ => fun r => match r with Ok _ => [tt] | Err _ => [] end
  | _ => fun _ => []
  end.
Definition completed (tr : list (called JobE)) : Prop := answered completes_of tr <> [].

Lemma deeds_app tr tr' : deeds (tr ++ tr') = deeds tr ++ deeds tr'.
Proof. apply answered_app. Qed.
Lemma ckpt_calls_app tr tr' : ckpt_calls (tr ++ tr') = ckpt_calls tr ++ ckpt_calls tr'.
Proof. apply answered_app. Qed.
Lemma confirmed_app tr tr' : confirmed tr \/ confirmed tr' -> confirmed (tr ++ tr').
Proof. unfold confirmed. rewrite answered_app. intros [H|H] Hn; apply app_eq_nil in Hn; tauto. Qed.
Lemma completed_app tr tr' : completed tr \/ completed tr' -> completed (tr ++ tr').
Proof. unfold completed. rewrite answered_app. intros [H|H] Hn; apply app_eq_nil in Hn; tauto. Qed.

(** ** Stages 0 to 6 do none of it *)
Definition acknowledges (X : Type) (e : JobE X) : Prop :=
  match e with
  | GetJobDeadline _ | Now | HasJobAcknowledged _ | AcknowledgeJob _ _ | AcknowledgeJobAsync _ _ | GoJoin _ _
  | SelectConfirmed _ _ _ => True
  | _ => False
  end.
(** The calls without a deed. *)
Definition idle (X : Type) (e : JobE X) : Prop :=
  match e with
  | Publish _ _ _ (Complete _ _ _) | Publish _ _ _ (ErrorFrame _) | SubmitBlobTx _ _ | CompleteJob _ _ _
  | MarkEligible _ _ => False
  | _ => True
  end.

Lemma idle_no_deed Y (e : JobE Y) y : idle Y e -> deed_of Y e y = [].
Proof. destruct e; try done. by destruct f. Qed.

Lemma idle_deeds A (p : prog JobE A) : uses idle p -> always p (fun tr _ => deeds tr = []).
Proof. intros Hp. by eapply uses_answered; [exact Hp|apply idle_no_deed]. Qed.

Lemma prepares_idle A (p : prog JobE A) : uses prepares p -> uses idle p.
Proof. intros Hp. eapply uses_mono; [exact Hp|]. intros X []; simpl; try done. Qed.
Lemma acknowledges_idle A (p : prog JobE A) : uses acknowledges p -> uses idle p.
Proof. intros Hp. eapply uses_mono; [exact Hp|]. by intros X []. Qed.
Lemma acknowledges_no_ckpt A (p : prog JobE A) : uses acknowledges p -> always p (fun tr _ => ckpt_calls tr = []).
Proof. intros Hp. eapply uses_answered; [exact Hp|]. by intros X []. Qed.

(** The calls that publish nothing. *)
Definition frameless (X : Type) (e : JobE X) : Prop := match e with Publish _ _ _ _ => False | _ => True end.

Ltac reads := unfold try, wrap_err; repeat (cbn [uses bind call fst snd];
  lazymatch goal with
  | |- True => exact I
  | |- _ /\ _ => split
  | |- forall _, _ => intro
  | |- uses _ (bind _ _) => apply uses_bind
  | |- uses _ (match ?x with _ => _ end) => destruct x
  | |- uses _ _ => solve [auto 2]
  | |- _ => first [exact I | progress unfold acknowledges, idle]
  end).

Lemma ensureAcknowledged_uses ctx j : uses acknowledges (ensureAcknowledged ctx j).
Proof. unfold ensureAcknowledged, broadcastAck, reconcileAckError. by reads. Qed.
Lemma awaitAcknowledged_uses ctx j a : uses acknowledges (awaitAcknowledged ctx j a).
Proof. unfold awaitAcknowledged, awaitConfirmed. by reads. Qed.
Lemma checkPickup_acknowledges g : uses acknowledges (checkPickup g).
Proof. eapply uses_mono; [apply checkPickup_looks|]. by intros X []. Qed.
Lemma readCheckpoint_quiet j : always (readCheckpoint j) (fun tr _ => deeds tr = [] /\ chunks tr = []).
Proof. unfold readCheckpoint. destruct (negb (checkpoints h)); by cbn. Qed.

Lemma obtainCiphertext_idle ctx p ck g : uses idle (obtainCiphertext ctx p ck g).
Proof.
  unfold obtainCiphertext, try, wrap_err. destruct (HasCiphertext ck); [done|].
  destruct (PromptBlobHash p =? 0); [done|]. cbn [bind call uses]. split; [done|]. intros [b|]; cbn [bind uses]; [|done].
  apply uses_bind; [apply prepares_idle, runInferencePipeline_prepares|]. intros [[ct n]|]; [|done].
  destruct (negb _); [done|]. by reads.
Qed.

(** The acknowledgement is known, or there is a transaction to join, and the
    join knows it. *)
Definition acked_post (tr : list (called JobE)) (r : result (option Z)) : Prop := r = Ok None -> confirmed tr.
Lemma ensureAcknowledged_confirms ctx j : always (ensureAcknowledged ctx j) acked_post.
Proof.
  unfold ensureAcknowledged, broadcastAck, reconcileAckError.
  walk; intros Hr; unfold confirmed, answered; simpl; repeat (case_match; simplify_eq/=); done.
Qed.

Definition joined_post (ack : option Z) (tr : list (called JobE)) (r : result unit) : Prop :=
  r = Ok tt -> ack = None \/ confirmed tr.
Lemma awaitAcknowledged_confirms ctx j ack : always (awaitAcknowledged ctx j ack) (joined_post ack).
Proof.
  unfold awaitAcknowledged, awaitConfirmed.
  destruct ack as [tx|]; [|by left].
  walk; intros Hr; right; unfold confirmed, answered; simpl; repeat (case_match; simplify_eq/=); done.
Qed.

(** ** Stages 7 and 8

    One ciphertext runs through every deed; each happens at most once, in
    their order. *)
Definition of_answer (ct : bytes) (d : deed) : Prop :=
  match d with
  | Published c _ | Blobbed c _ => c = ct
  | Completed _ c _ => c = Keccak256Hash ct
  | Marked => True
  | ErrorFramed => False
  end.
Definition rank (d : deed) : nat :=
  match d with Published _ _ => 0 | Blobbed _ _ => 1 | Completed _ _ _ => 2 | Marked => 3 | ErrorFramed => 4 end.

(** [completeJob] commits to the hash of the blob this run submitted, or to
    the one the checkpoint holds. *)
Definition backed (ckpt : JobCheckpoint) (ds : list deed) : Prop :=
  forall b c r, Completed b c r ∈ ds ->
    (HasVersionedHash ckpt = true /\ b = VersionedHash ckpt) \/
    (HasVersionedHash ckpt = false /\ exists ct, Blobbed ct (Ok [b]) ∈ ds).

Record settled_post (ckpt : JobCheckpoint) (ct : bytes) (tr : list (called JobE)) (r : result unit) : Prop := {
  se_answer : Forall (of_answer ct) (deeds tr);
  se_order : (rank <$> deeds tr) `sublist_of` [1; 2; 3]%nat;
  se_backed : backed ckpt (deeds tr);
  se_ok : is_ok r = true -> completed tr;
  se_marked : Marked ∈ deeds tr <-> is_ok r = true /\ releaseTracker h = true;
}.

Definition blob_post (ckpt : JobCheckpoint) (ct : bytes) (tr : list (called JobE)) (r : result Z) : Prop :=
  (HasVersionedHash ckpt = true /\ deeds tr = [] /\ r = Ok (VersionedHash ckpt)) \/
  (HasVersionedHash ckpt = false /\
   ((deeds tr = [] /\ is_ok r = false) \/
    exists rb, deeds tr = [Blobbed ct rb] /\ forall v, r = Ok v -> rb = Ok [v])).

Lemma ensureBlobSubmitted_post ctx j ckpt ct g :
  always (ensureBlobSubmitted ctx j ckpt ct g) (blob_post ckpt ct).
Proof.
  unfold ensureBlobSubmitted, try, wrap_err. destruct (HasVersionedHash ckpt) eqn:Ev; [by left|].
  apply always_bind. eapply always_mono; [apply idle_deeds; eapply uses_mono; [apply gateBlobSubmit_looks|by intros X []]|].
  intros tr0 r0 Hd0. destruct r0; cbn [always].
  2: { right. split; [done|]. left. by rewrite app_nil_r. }
  walk; right; (split; [done|]); rewrite deeds_app, Hd0; right; cbn; eexists; (split; [reflexivity|]); intros; by simplify_eq.
Qed.

Definition complete_post (b c : Z) (tr : list (called JobE)) (r : result unit) : Prop :=
  (deeds tr = [] \/ exists rc, deeds tr = [Completed b c rc]) /\ (is_ok r = true -> completed tr).

Lemma isDoomedNow_idle g : uses idle (isDoomedNow g).
Proof. eapply uses_mono; [apply isDoomedNow_looks|by intros X []]. Qed.

Lemma completion_failure_post j g e :
  always (completion_failure j g e) (fun tr r => deeds tr = [] /\ (is_ok r = true -> completed tr)).
Proof.
  unfold completion_failure. cbn [bind call always]. intros [[]|]; cbn [always]; [done| |done].
  apply always_bind. eapply always_mono; [apply idle_deeds, isDoomedNow_idle|].
  intros tr d Hd. destruct d; cbn [always]; rewrite app_nil_r; (split; [exact Hd|done]).
Qed.

Lemma completeJob_post ctx j b c g : always (completeJob ctx j b c g) (complete_post b c).
Proof.
  unfold completeJob.
  assert (always (r <- call (CompleteJob j b c) ;;
    match r with Ok _ => Ret (Ok tt) | Err err => completion_failure j g err end) (complete_post b c)) as Hc.
  { cbn [bind call always]. intros [u|e]; cbn [always].
    - split; [right; by eexists|done].
    - eapply always_mono; [apply completion_failure_post|]. intros tr r [Hd Hok].
      split; [right; exists (Err e)|intros H; apply (completed_app [_]); right; by apply Hok].
      change (Called ?c0 ?x :: tr) with ([Called c0 x] ++ tr). by rewrite deeds_app, Hd. }
  apply always_bind.
  assert (always (if 0 <? GetRetryCount ctx
                  then r <- call (HasJobCompleted j) ;; Ret (match r with Ok b => b | Err _ => false end)
                  else Ret false) (fun tr a => deeds tr = [] /\ (a = true -> completed tr))) as Hpre.
  { destruct (0 <? _); [|done]. cbn. intros [[]|]; by split. }
  eapply always_mono; [exact Hpre|]. intros tr0 a [Hd0 Ha]. destruct a; cbn [always].
  - rewrite app_nil_r. split; [by left|by intros _; apply Ha].
  - eapply always_mono; [exact Hc|]. intros tr r [Hd Hok]. unfold complete_post. rewrite deeds_app, Hd0.
    split; [exact Hd|]. intros H. apply completed_app. right. by apply Hok.
Qed.

Lemma after_settlement_post j g :
  always (after_settlement j g) (fun tr _ => deeds tr = if releaseTracker h then [Marked] else []).
Proof. unfold after_settlement, read. destruct g; walk; done. Qed.

(** The deeds of one stage 8, up to where it got. *)
Lemma settled_shape ckpt ct tr r blob compl mark :
  deeds tr = blob ++ compl ++ mark ->
  (blob = [] \/ exists rb, blob = [Blobbed ct rb]) ->
  (compl = [] \/ exists b rc, compl = [Completed b (Keccak256Hash ct) rc] /\
     ((HasVersionedHash ckpt = true /\ b = VersionedHash ckpt) \/
      (HasVersionedHash ckpt = false /\ blob = [Blobbed ct (Ok [b])]))) ->
  mark = (if is_ok r && releaseTracker h then [Marked] else []) ->
  (is_ok r = true -> completed tr) ->
  settled_post ckpt ct tr r.
Proof.
  intros Hd Hb Hc Hm Hok.
  assert (Marked ∈ deeds tr <-> Marked ∈ mark) as Hmk.
  { rewrite Hd, !elem_of_app. destruct Hb as [->|[rb ->]], Hc as [->|(b & rc & -> & _)]; set_solver. }
  split; [| | |done|].
  - rewrite Hd, Hm. destruct Hb as [->|[rb ->]], Hc as [->|(b & rc & -> & _)], (_ && _); repeat constructor.
  - rewrite Hd, Hm. destruct Hb as [->|[rb ->]], Hc as [->|(b & rc & -> & _)], (_ && _); cbn; repeat constructor.
  - intros b c r'. rewrite Hd, !elem_of_app. intros [Hin|[Hin|Hin]].
    + destruct Hb as [->|[rb ->]]; set_solver.
    + destruct Hc as [->|(b' & rc & -> & Hv)]; [set_solver|]. apply list_elem_of_singleton in Hin. simplify_eq.
      destruct Hv as [[Hv ->]|[Hv ->]]; [by left|right; split; [done|]]. exists ct. set_solver.
    + rewrite Hm in Hin. destruct (_ && _); set_solver.
  - rewrite Hmk, Hm. destruct (is_ok r), (releaseTracker h); simpl; set_solver.
Qed.

Lemma settle_always ctx p ckpt ct g : always (settle ctx p ckpt ct g) (settled_post ckpt ct).
Proof.
  unfold settle, try. apply always_bind. eapply always_mono; [apply ensureBlobSubmitted_post|].
  intros tr1 r1 Hb. destruct r1 as [v|e]; cbn [always].
  2: { rewrite app_nil_r. destruct Hb as [(_ & _ & [=])|(Hv & [[Hd _]|(rb & Hd & _)])].
    - apply (settled_shape _ _ _ _ [] [] []); [exact Hd|auto|auto|done|done].
    - apply (settled_shape _ _ _ _ [Blobbed ct rb] [] []); [exact Hd|eauto|auto|done|done]. }
  unfold wrap_err. apply always_bind, always_bind. eapply always_mono; [apply completeJob_post|].
  intros tr2 r2 [Hc Hok].
  assert (exists blob, deeds tr1 = blob /\ (blob = [] \/ exists rb, blob = [Blobbed ct rb]) /\
    ((HasVersionedHash ckpt = true /\ v = VersionedHash ckpt) \/
     (HasVersionedHash ckpt = false /\ blob = [Blobbed ct (Ok [v])]))) as (blob & Hd1 & Hshape & Hback).
  { exists (deeds tr1). split; [done|]. destruct Hb as [(Hv & Hd & [= ->])|(Hv & [[Hd Hf]|(rb & Hd & Hr)])].
    - rewrite Hd. auto.
    - done.
    - rewrite Hd, (Hr v eq_refl). split; [right; by eexists|by right]. }
  destruct r2 as [u|e]; cbn [bind always]; rewrite app_nil_r.
  - apply always_bind. eapply always_mono; [apply after_settlement_post|]. intros tr3 [] Hm. cbn [always].
    rewrite app_nil_r.
    destruct Hc as [Hc|[rc Hc]].
    + apply (settled_shape _ _ _ _ blob [] (if releaseTracker h then [Marked] else [])); auto.
      * rewrite !deeds_app, Hd1, Hc, Hm. done.
      * intros _. apply completed_app. right. apply completed_app. left. by apply Hok.
    + apply (settled_shape _ _ _ _ blob [Completed v (Keccak256Hash ct) rc] (if releaseTracker h then [Marked] else [])); eauto 6.
      * rewrite !deeds_app, Hd1, Hc, Hm. done.
      * intros _. apply completed_app. right. apply completed_app. left. by apply Hok.
  - rewrite app_nil_r. destruct Hc as [Hc|[rc Hc]].
    + apply (settled_shape _ _ _ _ blob [] []); [by rewrite deeds_app, Hd1, Hc|auto|auto|done|done].
    + apply (settled_shape _ _ _ _ blob [Completed v (Keccak256Hash ct) rc] []); [by rewrite deeds_app, Hd1, Hc|auto|eauto 6|done|done].
Qed.

Definition deliver_post (p : JobPayload) (ct : bytes) (n : Z) (tr : list (called JobE)) (u : unit) : Prop :=
  chunks tr = [] /\ (deeds tr = [] \/ deeds tr = [Published ct (u32_wrap (n + 1))]).
Lemma deliver_always p ck ct n : always (deliver p ck ct n) (deliver_post p ct n).
Proof. unfold deliver, publishToRedis, signMismatchEvidence. walk; destruct_units; (split; [done|auto]). Qed.

(** ** Where the ciphertext comes from *)
Definition ckpt_answered (c : called CkptE) : Prop :=
  match c with
  | Called e x =>
      match e in CkptE X return X -> Prop with
      | GetC _ => fun r => is_ok r = true
      | SetCiphertextIfAbsentC _ _ => fun r => is_ok r = true
      | SetVersionedHashC _ _ => fun r => is_ok r = true
      | MarkDeliveredC _ => fun r => is_ok r = true
      | TombstoneC _ => fun r => is_ok r = true
      end x
  end.

(** The calls that tell an attempt its ciphertext: it read it, its proposal
    won, or it lost to an earlier one. *)
Definition told (j : Z) (ct : bytes) (calls : list (called CkptE)) : Prop :=
  (exists ck, Called (GetC j) (Ok ck) ∈ calls /\ HasCiphertext ck = true /\ Ciphertext ck = ct) \/
  (exists c, Called (SetCiphertextIfAbsentC j ct) (Ok (c, true)) ∈ calls) \/
  (exists q, Called (SetCiphertextIfAbsentC j q) (Ok (ct, false)) ∈ calls).

Lemma told_app j ct l l' : told j ct l \/ told j ct l' -> told j ct (l ++ l').
Proof. unfold told. intros [H|H]; naive_solver (rewrite ?elem_of_app; eauto). Qed.

Definition read_post (j : Z) (tr : list (called JobE)) (ck : JobCheckpoint) : Prop :=
  ck = no_checkpoint \/ ckpt_calls tr = [Called (GetC j) (Ok ck)].
Lemma readCheckpoint_post j : always (readCheckpoint j) (read_post j).
Proof. unfold readCheckpoint. walk; (by left) || (repeat case_match; [by right|by left]). Qed.

Definition obtain_post (p : JobPayload) (ck : JobCheckpoint) (tr : list (called JobE)) (r : result (bytes * Z)) : Prop :=
  counted 0 (chunks tr) r /\
  forall ct n, r = Ok (ct, n) ->
    (HasCiphertext ck = true /\ ct = Ciphertext ck) \/
    (checkpoints h = true -> Forall ckpt_answered (ckpt_calls tr) -> told (JobID p) ct (ckpt_calls tr)).

Context `{FL : !FrameKindLaws FK}.

Lemma obtainCiphertext_always ctx p ck g : always (obtainCiphertext ctx p ck g) (obtain_post p ck).
Proof.
  unfold obtainCiphertext, try, wrap_err.
  destruct (HasCiphertext ck) eqn:Ec; [split; [done|]; intros ct n [= <- <-]; by left|].
  destruct (PromptBlobHash p =? 0); [by split|]. cbn [bind call always]. intros [b|]; cbn [bind always]; [|by split].
  apply always_bind. eapply always_mono; [apply (runInferencePipeline_counted h)|].
  intros tr1 [[ct n]|e] Hn; cbn [always]; [|by split]. destruct (checkpoints h) eqn:Eck; cbn [negb].
  - cbn [bind call always]. intros r.
    assert (forall X (f : forall Y, JobE Y -> Y -> list X) c c' l, answered f (c :: l ++ [c']) =
      answered f [c] ++ answered f l ++ answered f [c']) as Hcut.
    { intros. by rewrite answered_cons, answered_app. }
    split.
    + unfold chunks. rewrite Hcut.
      match goal with |- counted _ (?l1 ++ ?l2 ++ ?l3) _ => change l1 with (@nil (Z * string)); change l3 with (@nil (Z * string)) end.
      rewrite app_nil_r. exact Hn.
    + intros ct' n' [= <- <-]. right. intros _ Hf. unfold ckpt_calls in *. rewrite Hcut in Hf |- *.
      apply told_app. right. apply told_app. right. rewrite !Forall_app in Hf. destruct Hf as (_ & _ & Hf).
      apply Forall_cons in Hf as [Hf _].
      destruct r as [[c [|]]|]; [right; left; exists c|right; right; exists ct|done]; by left.
  - split; [by rewrite app_nil_r|]. intros. right. congruence.
Qed.

(** No frame goes out after the terminal one. *)
Lemma settle_chunks ctx p ck ct g : always (settle ctx p ck ct g) (fun tr _ => chunks tr = []).
Proof.
  assert (forall A (q : prog JobE A), uses looks q -> uses frameless q) as Hl.
  { intros A q Hq. eapply uses_mono; [exact Hq|]. by intros X []. }
  apply (uses_answered frameless); [|intros Y []; simpl; try done].
  unfold settle, ensureBlobSubmitted, completeJob, completion_failure, after_settlement, read, try, wrap_err.
  repeat (cbn [uses bind call fst snd]; lazymatch goal with
    | |- True => exact I
    | |- _ /\ _ => split
    | |- forall _, _ => intro
    | |- uses _ (gateBlobSubmit _) => apply Hl, gateBlobSubmit_looks
    | |- uses _ (isDoomedNow _) => apply Hl, isDoomedNow_looks
    | |- uses _ (bind _ _) => apply uses_bind
    | |- uses _ (match ?x with _ => _ end) => destruct x
    | |- _ => progress unfold frameless
    end).
Qed.

(** ** The whole job *)
(** A run that reached stage 7, cut where it did. *)
Definition concluded (p : JobPayload) (tr : list (called JobE)) (r : result unit) : Prop :=
  exists ck ct n tr1 tr2 tr3, tr = tr1 ++ tr2 ++ tr3 /\
    deeds tr1 = [] /\ confirmed tr1 /\ numbered 0 (chunks tr1).*1 n /\
    (HasVersionedHash ck = true -> Called (GetC (JobID p)) (Ok ck) ∈ ckpt_calls tr1) /\
    (checkpoints h = true -> Forall ckpt_answered (ckpt_calls tr1) -> told (JobID p) ct (ckpt_calls tr1)) /\
    deliver_post p ct n tr2 tt /\ settled_post ck ct tr3 r /\ chunks tr3 = [].

Definition stages_post (p : JobPayload) (tr : list (called JobE)) (rd : result unit * bool) : Prop :=
  if rd.2 then concluded p tr rd.1 else deeds tr = [] /\ is_ok rd.1 = false.

Lemma conclude_always ctx p ck ct n tr1 :
  deeds tr1 = [] -> confirmed tr1 -> numbered 0 (chunks tr1).*1 n ->
  (HasVersionedHash ck = true -> Called (GetC (JobID p)) (Ok ck) ∈ ckpt_calls tr1) ->
  (checkpoints h = true -> Forall ckpt_answered (ckpt_calls tr1) -> told (JobID p) ct (ckpt_calls tr1)) ->
  always (conclude ctx p ck ct n) (fun tr rd => stages_post p (tr1 ++ tr) rd).
Proof.
  intros Hd Hc Hn Hv Ht. unfold conclude. apply always_bind. eapply always_mono; [apply deliver_always|].
  intros tr2 [] Hdel. apply always_bind.
  eapply always_mono; [apply always_conj; [apply settle_always|apply settle_chunks]|]. intros tr3 r [Hset Hch]. cbn [always]. unfold stages_post. rewrite app_nil_r. cbn [fst snd].
  exists ck, ct, n, tr1, tr2, tr3. by split_and!.
Qed.

Lemma acknowledges_chunks A (q : prog JobE A) : uses acknowledges q -> always q (fun tr _ => chunks tr = []).
Proof. intros Hq. eapply uses_answered; [exact Hq|]. by intros Y []. Qed.
Lemma acknowledges_quiet A (q : prog JobE A) : uses acknowledges q ->
  always q (fun tr _ => deeds tr = [] /\ ckpt_calls tr = [] /\ chunks tr = []).
Proof.
  intros Hq. apply always_conj; [by apply idle_deeds, acknowledges_idle|].
  apply always_conj; [by apply acknowledges_no_ckpt|by apply acknowledges_chunks].
Qed.

Lemma stages_always ctx p : always (stages ctx p) (stages_post p).
Proof.
  unfold stages. apply always_bind. eapply always_mono; [apply acknowledges_quiet, checkPickup_acknowledges|].
  intros trg [u|e] (Gd & Gk & Gc); cbn [always]; [|unfold stages_post; rewrite app_nil_r; by split].
  unfold wrap_err. apply always_bind, always_bind.
  eapply always_mono; [apply always_conj; [apply acknowledges_quiet, ensureAcknowledged_uses|apply ensureAcknowledged_confirms]|].
  intros tra [ack|e] [(Ad & Ak & Ac) Aconf]; cbn [always]; rewrite app_nil_r.
  2: { unfold stages_post. rewrite app_nil_r, deeds_app, Gd, Ad. by split. }
  apply always_bind.
  eapply always_mono; [apply always_conj; [apply readCheckpoint_quiet|apply readCheckpoint_post]|].
  intros trk ck [[Kd Kc] Kread].
  apply always_bind.
  eapply always_mono; [apply always_conj; [apply idle_deeds, obtainCiphertext_idle|apply obtainCiphertext_always]|].
  intros tro [[ct n]|e] [Od [Ocount Otold]]; cbn [always].
  2: { unfold stages_post. rewrite app_nil_r, !deeds_app, Gd, Ad, Kd, Od. by split. }
  apply always_bind.
  eapply always_mono; [apply always_conj; [apply acknowledges_quiet, awaitAcknowledged_uses|apply awaitAcknowledged_confirms]|].
  intros trj [u'|e] [(Jd & Jk & Jc) Jconf]; cbn [always].
  2: { unfold stages_post. rewrite app_nil_r, !deeds_app, Gd, Ad, Kd, Od, Jd. by split. }
  assert (ckpt_calls (trg ++ tra ++ trk ++ tro ++ trj) = ckpt_calls trk ++ ckpt_calls tro) as Hcalls.
  { by rewrite !ckpt_calls_app, Gk, Ak, Jk, app_nil_r. }
  eapply always_mono; [apply (conclude_always ctx p ck ct n (trg ++ tra ++ trk ++ tro ++ trj))|].
  - by rewrite !deeds_app, Gd, Ad, Kd, Od, Jd.
  - destruct u'. destruct (Jconf eq_refl) as [->|Hj].
    + apply confirmed_app; right. apply confirmed_app; left. by apply Aconf.
    + do 4 (apply confirmed_app; right). done.
  - rewrite !chunks_app, Gc, Ac, Kc, Jc. cbn [app]. rewrite app_nil_r. exact Ocount.
  - rewrite Hcalls. intros Hv. destruct Kread as [->| ->]; [done|]. left.
  - rewrite Hcalls. intros Hck [Hf1 Hf2]%Forall_app. apply told_app.
    destruct (Otold ct n eq_refl) as [[Hct ->]|Ht]; [left|right; by apply Ht].
    destruct Kread as [->|Hr]; [done|]. rewrite Hr. left. exists ck. split; [by left|done].
  - intros tr rd Hs. cbn beta in Hs. rewrite <- !app_assoc in Hs. exact Hs.
Qed.

(** The result with its tag. *)
Definition tagged (rd : result unit * bool) : result unit :=
  match rd with
  | (Err e, true) => Err (join e errAnswerDelivered_)
  | (r, _) => r
  end.

Lemma tagged_ok rd : is_ok (tagged rd) = is_ok rd.1.
Proof. by destruct rd as [[|] []]. Qed.

Record job_post (p : JobPayload) (tr : list (called JobE)) (r : result unit) : Prop := {
  jp_one : exists ct, Forall (of_answer ct) (deeds tr) /\
    (deeds tr <> [] -> checkpoints h = true -> Forall ckpt_answered (ckpt_calls tr) ->
     told (JobID p) ct (ckpt_calls tr));
  jp_order : (rank <$> deeds tr) `sublist_of` [0; 1; 2; 3]%nat;
  jp_acked : deeds tr <> [] -> exists tr1 tr2, tr = tr1 ++ tr2 /\ confirmed tr1 /\ deeds tr1 = [];
  jp_backed : forall b c rc, Completed b c rc ∈ deeds tr ->
    (exists ck, Called (GetC (JobID p)) (Ok ck) ∈ ckpt_calls tr /\ HasVersionedHash ck = true /\ b = VersionedHash ck) \/
    (exists ct, Blobbed ct (Ok [b]) ∈ deeds tr);
  jp_ok : is_ok r = true -> completed tr;
  jp_marked : Marked ∈ deeds tr <-> is_ok r = true /\ releaseTracker h = true;
  jp_tagged : forall e, deeds tr <> [] -> r = Err e -> errors_Is e ErrAnswerDelivered = true;
  jp_frames : forall ct n, Published ct n ∈ deeds tr ->
    (chunks tr).*1 = (fun i => u32_wrap i) <$> seqZ 1 (Z.of_nat (length (chunks tr))) /\
    n = u32_wrap (Z.of_nat (length (chunks tr)) + 1);
}.

Lemma settled_no_publish ck ct tr r c n : settled_post ck ct tr r -> Published c n ∉ deeds tr.
Proof.
  intros Hs Hin. pose proof (se_order _ _ _ _ Hs) as Ho.
  assert (0%nat ∈ [1; 2; 3]%nat) as H0; [|set_solver].
  eapply elem_of_sublist; [|exact Ho]. apply list_elem_of_fmap. by exists (Published c n).
Qed.

Lemma concluded_post p tr r : concluded p tr r -> job_post p tr (tagged (r, true)).
Proof.
  intros (ck & ct & n & tr1 & tr2 & tr3 & -> & Hd1 & Hc1 & Hn & Hv & Ht & [Hch2 Hd2] & Hs & Hch3).
  assert (deeds (tr1 ++ tr2 ++ tr3) = deeds tr2 ++ deeds tr3) as Hds by (by rewrite !deeds_app, Hd1).
  assert (chunks (tr1 ++ tr2 ++ tr3) = chunks tr1) as Hch by (by rewrite !chunks_app, Hch2, Hch3, app_nil_r).
  split; rewrite ?Hds, ?Hch, ?tagged_ok; cbn [fst].
  - exists ct. split.
    + apply Forall_app. split; [destruct Hd2 as [-> | ->]; repeat constructor|apply Hs].
    + intros _ Hck. rewrite !ckpt_calls_app. intros [Hf _]%Forall_app. apply told_app. left. by apply Ht.
  - rewrite fmap_app. pose proof (se_order _ _ _ _ Hs) as Ho.
    destruct Hd2 as [-> | ->]; cbn; [by apply sublist_cons|by apply sublist_skip].
  - intros _. by exists tr1, (tr2 ++ tr3).
  - intros b c rc Hin. destruct (se_backed _ _ _ _ Hs b c rc) as [[Hvh ->]|[_ [ct' Hb]]].
    + apply elem_of_app in Hin as [Hin|]; [|done]. destruct Hd2 as [Hd2|Hd2]; rewrite Hd2 in Hin; set_solver.
    + left. exists ck. split; [|done]. rewrite ckpt_calls_app. apply elem_of_app. left. by apply Hv.
    + right. exists ct'. apply elem_of_app. by right.
  - intros Hok. do 2 (apply completed_app; right). by apply (se_ok _ _ _ _ Hs).
  - rewrite elem_of_app, (se_marked _ _ _ _ Hs). destruct Hd2 as [-> | ->]; set_solver.
  - intros e _. destruct r as [|e0]; intros [= <-].
    rewrite errors_Is_join. apply orb_true_iff. right. reflexivity.
  - intros c m [Hin|Hin]%elem_of_app; [|by destruct (settled_no_publish _ _ _ _ _ _ Hs Hin)].
    destruct Hd2 as [Hd2|Hd2]; rewrite Hd2 in Hin; [set_solver|]. apply list_elem_of_singleton in Hin as [= -> ->].
    apply numbered_from_zero in Hn as [Hl ->]. rewrite length_fmap in *. split; [exact Hl|].
    unfold u32_wrap. by rewrite Zplus_mod_idemp_l.
Qed.

Lemma processJob_always ctx p : always (processJob ctx p) (job_post p).
Proof.
  unfold processJob. apply always_bind. eapply always_mono; [apply stages_always|].
  intros tr [r []] Hp; unfold stages_post in Hp; cbn [fst snd always] in *; rewrite app_nil_r.
  - change (match r with Err e => Err (join e errAnswerDelivered_) | Ok _ => r end) with (tagged (r, true)).
    by apply concluded_post.
  - destruct Hp as [Hd Hok]. destruct r as [|e]; [done|].
    split; rewrite ?Hd; cbn; try done; try set_solver.
    + by exists "".
    + by apply sublist_nil_l.
Qed.

(** The release tracker is told of no other job. *)
Definition own_mark (j : Z) (X : Type) (e : JobE X) : Prop := match e with MarkEligible i _ => i = j | _ => True end.
Lemma idle_own_mark j A (q : prog JobE A) : uses idle q -> uses (own_mark j) q.
Proof. intros Hq. eapply uses_mono; [exact Hq|]. by intros X []. Qed.
Lemma looks_own_mark j A (q : prog JobE A) : uses looks q -> uses (own_mark j) q.
Proof. intros Hq. eapply uses_mono; [exact Hq|]. by intros X []. Qed.

Lemma conclude_own_mark ctx p ck ct n : uses (own_mark (JobID p)) (conclude ctx p ck ct n).
Proof.
  assert (forall g, uses (own_mark (JobID p)) (gateBlobSubmit g)) by (intros; apply looks_own_mark, gateBlobSubmit_looks).
  assert (forall g, uses (own_mark (JobID p)) (isDoomedNow g)) by (intros; apply looks_own_mark, isDoomedNow_looks).
  unfold conclude, deliver, publishToRedis, signMismatchEvidence, settle, ensureBlobSubmitted, completeJob, completion_failure, after_settlement, read.
  by reads.
Qed.
Lemma processJob_own_mark ctx p : uses (own_mark (JobID p)) (processJob ctx p).
Proof.
  assert (forall A (q : prog JobE A), uses acknowledges q -> uses (own_mark (JobID p)) q) as Hack by (intros; by apply idle_own_mark, acknowledges_idle).
  unfold processJob. apply uses_bind; [|done]. unfold stages, wrap_err.
  apply uses_bind; [apply Hack, checkPickup_acknowledges|]. intros [u|e]; [|done].
  apply uses_bind; [apply uses_bind; [apply Hack, ensureAcknowledged_uses|by intros []]|]. intros [ack|e]; [|done].
  apply uses_bind; [unfold readCheckpoint; destruct (negb _); by cbn|]. intros ck.
  apply uses_bind; [apply idle_own_mark, obtainCiphertext_idle|]. intros [[ct n]|e]; [|done].
  apply uses_bind; [apply Hack, awaitAcknowledged_uses|]. intros [u'|e]; [apply conclude_own_mark|done].
Qed.

(** The call by which a run that succeeds hands its job on. *)
Lemma processJob_marks ctx p tr r : runs (processJob ctx p) tr r -> Marked ∈ deeds tr ->
  exists t x, Called (MarkEligible (JobID p) t) x ∈ tr.
Proof.
  intros Hr Hin. pose proof (always_runs _ _ _ _ (uses_always _ _ (processJob_own_mark ctx p)) Hr) as Hown. cbn in Hown.
  unfold deeds, answered in Hin. apply list_elem_of_In, in_flat_map in Hin as ([X e x] & Hc & Hd).
  rewrite Forall_forall in Hown. apply list_elem_of_In in Hc. specialize (Hown _ Hc). cbn in Hown.
  destruct e; cbn in Hd; try done; try (destruct Hd as [Hd|[]]; done); [by destruct f; cbn in Hd; naive_solver|].
  cbn in Hown. subst. by eexists _, _.
Qed.

(** ** Blob gas and the deadline

    What the last calls told about the deadline. *)
Inductive view : Type :=
  | Blind
  | Unreadable
  | Read (deadline : Z)
  | Seen (deadline now : Z).
Definition look Y (v : view) (e : JobE Y) : Y -> view :=
  match e in JobE Y return Y -> view with
  | GetJobDeadline _ => fun r => match r with Ok (d, _) => Read d | Err _ => Unreadable end
  | Now => fun t => match v with Read d => Seen d t | _ => Blind end
  | _ => fun _ => Blind
  end.
Definition viable (g : deadlineGuard) (v : view) : Prop :=
  match v with
  | Unreadable => True
  | Seen d t => completionReserve g < time_Sub d t
  | _ => False
  end.

(** Every blob transaction was sent right after the chain either could not
    tell the deadline or left more than the reserve before it. *)
Fixpoint gated (g : deadlineGuard) (v : view) (tr : list (called JobE)) : Prop :=
  match tr with
  | [] => True
  | Called e x :: tr =>
      match e with SubmitBlobTx _ _ => viable g v | _ => True end /\ gated g (look _ v e x) tr
  end.

Lemma gated_app g tr : forall v tr', gated g v tr -> (forall v', gated g v' tr') -> gated g v (tr ++ tr').
Proof. induction tr as [|[X e x] tr IH]; intros v tr'; simpl; [auto|]. intros [H1 H2] H3. split; [done|]. by apply IH. Qed.

Definition blobless (X : Type) (e : JobE X) : Prop := match e with SubmitBlobTx _ _ => False | _ => True end.
Lemma blobless_gated g A (q : prog JobE A) : uses blobless q -> always q (fun tr _ => forall v, gated g v tr).
Proof.
  intros Hq. eapply always_mono; [by apply uses_always|]. intros tr a Htr.
  induction Htr as [|[X e x] tr He Htr' IH]; intros v; simpl; [done|]. split; [by destruct e|apply IH].
Qed.

Lemma ensureBlobSubmitted_gated ctx j ck ct g :
  always (ensureBlobSubmitted ctx j ck ct (Some g)) (fun tr _ => forall v, gated g v tr).
Proof.
  unfold ensureBlobSubmitted, gateBlobSubmit, read, Until, try, wrap_err.
  destruct (HasVersionedHash ck); [done|]. cbn [bind call always]. intros [[d a]|e]; cbn [bind call always].
  - intros t. destruct (_ <=? _) eqn:E; cbn [bind call always]; [done|]. reflect_Z.
    intros r. destruct r as [[|b [|]]|]; cbn [bind call always]; try (intros v; simpl; auto; fail).
    destruct (checkpoints h); cbn [bind call always]; [intros x|]; intros v; simpl; auto.
  - intros r. destruct r as [[|b [|]]|]; cbn [bind call always]; try (intros v; simpl; auto; fail).
    destruct (checkpoints h); cbn [bind call always]; [intros x|]; intros v; simpl; auto.
Qed.

Lemma acknowledges_blobless A (q : prog JobE A) : uses acknowledges q -> uses blobless q.
Proof. intros Hq. eapply uses_mono; [exact Hq|]. by intros X []. Qed.

(** Both parts of a sequence keep to the gate. *)
Lemma bind_gated A B g (q : prog JobE A) (f : A -> prog JobE B) :
  always q (fun tr _ => forall v, gated g v tr) -> (forall a, always (f a) (fun tr _ => forall v, gated g v tr)) ->
  always (bind q f) (fun tr _ => forall v, gated g v tr).
Proof.
  intros Hq Hf. apply always_bind. eapply always_mono; [exact Hq|]. intros tr a H1.
  eapply always_mono; [apply Hf|]. intros tr' b H2 v. by apply gated_app.
Qed.

Lemma processJob_gated ctx p g : guard_of p = Some g ->
  always (processJob ctx p) (fun tr _ => forall v, gated g v tr).
Proof.
  intros Hg. unfold processJob. apply bind_gated; [|by intros [[|] []]]. unfold stages.
  apply bind_gated; [apply blobless_gated, acknowledges_blobless, checkPickup_acknowledges|]. intros [u|e]; [|done].
  apply bind_gated; [apply blobless_gated|intros [ack|e]; [|done]].
  { unfold wrap_err. apply uses_bind; [apply acknowledges_blobless, ensureAcknowledged_uses|]. by intros []. }
  apply bind_gated; [apply blobless_gated; unfold readCheckpoint; destruct (negb _); by cbn|]. intros ck.
  apply bind_gated; [apply blobless_gated; eapply uses_mono; [apply obtainCiphertext_idle|by intros X []]|].
  intros [[ct n]|e]; [|done].
  apply bind_gated; [apply blobless_gated, acknowledges_blobless, awaitAcknowledged_uses|]. intros [u'|e]; [|done].
  unfold conclude. apply bind_gated.
  { apply blobless_gated. unfold deliver, publishToRedis, signMismatchEvidence. by use_calls. }
  intros []. apply bind_gated; [|done]. rewrite Hg. unfold settle, try.
  apply bind_gated; [apply ensureBlobSubmitted_gated|]. intros [v|e]; [|done].
  apply blobless_gated. unfold completeJob, completion_failure, after_settlement, read, isDoomedNow, wrap_err.
  by use_calls.
Qed.

(** The pickup gate, at the head of the run. *)
Definition doomed_at_pickup (g : deadlineGuard) (d : Z) (a : bool) (t : Z) : bool :=
  (time_Sub d t <=? 0) || (a && (time_Sub d t <=? inference_need g)).
Definition pickup_post (g : deadlineGuard) (tr : list (called JobE)) (r : result unit) : Prop :=
  forall d a t ds ts, deadlines_read tr = Ok (d, a) :: ds -> clock_read tr = t :: ts ->
    doomed_at_pickup g d a t = true -> length tr = 2%nat /\ refused r.

Lemma processJob_pickup ctx p g : guard_of p = Some g -> always (processJob ctx p) (pickup_post g).
Proof.
  intros Hg. unfold processJob, stages. rewrite Hg. unfold checkPickup, read, Until.
  cbn [bind call always]. intros [[d a]|e]; cbn [bind call always].
  2: { apply always_intro. intros tr r _ d' a' t ds ts [=]. }
  intros t. destruct (time_Sub d t <=? 0) eqn:E0; [|destruct (a && (time_Sub d t <=? inference_need g)) eqn:E1]; cbn [bind always].
  1, 2: intros d' a' t' ds ts _ _ _; split; [reflexivity|]; eexists; split; [reflexivity|split; vm_compute; reflexivity].
  apply always_intro. intros tr r _ d' a' t' ds ts [= <- <- _] [= <- _]. unfold doomed_at_pickup. by rewrite E0, E1.
Qed.

(** ** The entry points *)
Definition error_of Y (e : JobE Y) (y : Y) : list unit :=
  match e with Publish _ _ _ (ErrorFrame _) => [tt] | _ => [] end.
Definition error_frames (tr : list (called JobE)) : nat := length (answered error_of tr).
Definition counter (tr : list (called JobE)) : list Z :=
  answered (fun Y e _ => match e with AddCounter d => [d] | _ => [] end) tr.

(** What is sent for a job, in order, each for whom. *)
Definition sent (tr : list (called JobE)) : list (Z * Z * string * frame) :=
  answered (fun Y e _ => match e with Publish j s c f => [(j, s, c, f)] | _ => [] end) tr.
Definition is_error (m : Z * Z * string * frame) : bool := match m.2 with ErrorFrame _ => true | _ => false end.
Definition error_frame (ctx : Ctx) (p : JobPayload) : Z * Z * string * frame :=
  (JobID p, SessionID p, CorrelationID p, ErrorFrame (WithTimeout (WithoutCancel ctx) errorFramePublishTimeout)).

(** What an entry point adds to [processJob]: the counter goes up and down,
    the result is passed on, and one error frame goes out, for this job and
    behind everything else that is sent, exactly when there is a publisher, the
    failure [speaks] for the job and it did not come after stage 7. *)
Record entry_post (ctx : Ctx) (p : JobPayload) (loud : error -> bool) (tr : list (called JobE)) (r : result unit) : Prop := {
  en_counter : counter tr = [1; -1];
  en_frames : error_frames tr = match r with
    | Ok _ => 0%nat
    | Err e => if bool_decide (responsePublisher h <> None) && loud e && negb (errors_Is e ErrAnswerDelivered)
               then 1%nat else 0%nat
    end;
  en_last : exists others, sent tr = others ++ (if bool_decide (error_frames tr = 0%nat) then [] else [error_frame ctx p]) /\
    Forall (fun m => is_error m = false) others;
  en_answered : forall d, d ∈ deeds tr -> d <> ErrorFramed -> error_frames tr = 0%nat;
  en_completed : is_ok r = true -> completed tr;
}.

(** An attempt neither counts itself nor speaks for the job. *)
Definition attempts (X : Type) (e : JobE X) : Prop :=
  match e with AddCounter _ | Publish _ _ _ (ErrorFrame _) => False | _ => True end.

Lemma acknowledges_attempts A (q : prog JobE A) : uses acknowledges q -> uses attempts q.
Proof. intros Hq. eapply uses_mono; [exact Hq|]. by intros X []. Qed.
Lemma looks_attempts A (q : prog JobE A) : uses looks q -> uses attempts q.
Proof. intros Hq. eapply uses_mono; [exact Hq|]. by intros X []. Qed.
Lemma prepares_attempts A (q : prog JobE A) : uses prepares q -> uses attempts q.
Proof. intros Hq. eapply uses_mono; [exact Hq|]. intros X []; try done. by destruct f. Qed.

Lemma obtainCiphertext_attempts ctx p ck g : uses attempts (obtainCiphertext ctx p ck g).
Proof.
  unfold obtainCiphertext, try, wrap_err. destruct (HasCiphertext ck); [done|].
  destruct (PromptBlobHash p =? 0); [done|]. cbn [bind call uses]. split; [done|]. intros [b|]; cbn [bind uses]; [|done].
  apply uses_bind; [apply prepares_attempts, runInferencePipeline_prepares|]. intros [[ct n]|]; [|done].
  by use_calls.
Qed.

Lemma settle_attempts ctx p ck ct g : uses attempts (settle ctx p ck ct g).
Proof.
  unfold settle, ensureBlobSubmitted, completeJob, completion_failure, after_settlement, read, try, wrap_err.
  repeat (cbn [uses bind call fst snd]; lazymatch goal with
    | |- True => exact I
    | |- _ /\ _ => split
    | |- forall _, _ => intro
    | |- uses _ (gateBlobSubmit _) => apply looks_attempts, gateBlobSubmit_looks
    | |- uses _ (isDoomedNow _) => apply looks_attempts, isDoomedNow_looks
    | |- uses _ (bind _ _) => apply uses_bind
    | |- uses _ (match ?x with _ => _ end) => destruct x
    | |- _ => progress unfold attempts
    end).
Qed.

Lemma processJob_attempts ctx p : uses attempts (processJob ctx p).
Proof.
  unfold processJob. apply uses_bind; [|by intros [[|] []]]. unfold stages.
  apply uses_bind; [apply looks_attempts, checkPickup_looks|]. intros [u|e]; [|done].
  apply uses_bind; [|intros [ack|e]; [|done]].
  { unfold wrap_err. apply uses_bind; [apply acknowledges_attempts, ensureAcknowledged_uses|]. by intros []. }
  apply uses_bind; [unfold readCheckpoint; by use_calls|]. intros ck.
  apply uses_bind; [apply obtainCiphertext_attempts|]. intros [[ct n]|e]; [|done].
  apply uses_bind; [apply acknowledges_attempts, awaitAcknowledged_uses|]. intros [u'|e]; [|done].
  unfold conclude. apply uses_bind; [unfold deliver, publishToRedis, signMismatchEvidence; by use_calls|].
  intros []. by apply uses_bind; [apply settle_attempts|].
Qed.

Lemma processJob_quiet ctx p : always (processJob ctx p) (fun tr _ => counter tr = [] /\ error_frames tr = 0%nat).
Proof.
  apply always_conj.
  - apply (uses_answered attempts); [apply processJob_attempts|]. by intros Y [].
  - eapply always_mono; [apply (uses_answered attempts error_of); [apply processJob_attempts|]|].
    + intros Y [] y; try done. by destruct f.
    + intros tr a Hf. unfold error_frames. by rewrite Hf.
Qed.

(** The attempt and what follows it, as both entry points wrap them. *)
Definition entry (ctx : Ctx) (p : JobPayload) (loud : error -> bool) : prog JobE (result unit) :=
  _ <- call (AddCounter 1) ;;
  deferred
    (r <- processJob ctx p ;;
     match r with
     | Ok _ => Ret (Ok tt)
     | Err err => _ <- (if loud err then reportFailure ctx p err else Ret tt) ;; Ret (Err err)
     end) (fun _ => call (AddCounter (-1))).

Lemma unsent tr : Forall (called_in attempts) tr -> Forall (fun m => is_error m = false) (sent tr).
Proof.
  induction 1 as [|[X e x] tr He Htr IH]; [constructor|]. unfold sent in *. rewrite answered_cons. apply Forall_app. split; [|exact IH].
  destruct e; try constructor; cbn; [by destruct f|constructor].
Qed.

(** The failure report, call by call. *)
Definition reports (loud : error -> bool) (r : result unit) : bool :=
  match r with
  | Ok _ => false
  | Err e => bool_decide (responsePublisher h <> None) && loud e && negb (errors_Is e ErrAnswerDelivered)
  end.
Definition report_of (ctx : Ctx) (p : JobPayload) (b : bool) : list (called JobE) :=
  if b then [Called (Publish (JobID p) (SessionID p) (CorrelationID p) (ErrorFrame (WithTimeout (WithoutCancel ctx) errorFramePublishTimeout))) tt] else [].
Lemma reportFailure_always ctx p (loud : error -> bool) e :
  always (if loud e then reportFailure ctx p e else Ret tt) (fun tr _ => tr = report_of ctx p (reports loud (Err e))).
Proof.
  unfold reportFailure, reports. destruct (responsePublisher h), (loud e), (errors_Is e ErrAnswerDelivered); cbn; try done; by intros [].
Qed.

(** An entry point's trace, from its attempt's. *)
Lemma entry_trace ctx p loud tr r :
  counter tr = [] /\ error_frames tr = 0%nat -> Forall (fun m => is_error m = false) (sent tr) -> job_post p tr r ->
  entry_post ctx p loud (Called (AddCounter 1) tt :: (tr ++ report_of ctx p (reports loud r)) ++ [Called (AddCounter (-1)) tt]) r.
Proof.
  intros [Hc He] Hs Hj. set (b := reports loud r). set (all := _ :: _).
  assert (error_frames all = if b then 1%nat else 0%nat) as Hef.
  { unfold all, error_frames in *. rewrite answered_cons, !answered_app, !length_app, He. by destruct b. }
  assert (deeds all = deeds tr ++ if b then [ErrorFramed] else []) as Hds.
  { unfold all, deeds. rewrite answered_cons, !answered_app. cbn [app]. rewrite app_nil_r. by destruct b. }
  split.
  - unfold all, counter in *. rewrite answered_cons, !answered_app, Hc. by destruct b.
  - rewrite Hef. unfold b, reports. by destruct r.
  - exists (sent tr). split; [|exact Hs]. rewrite Hef. unfold all, sent.
    rewrite answered_cons, !answered_app. cbn [app]. rewrite app_nil_r. by destruct b.
  - intros d. rewrite Hds, Hef. destruct b eqn:Eb; [|done]. intros [Hin|Hin]%elem_of_app Hd; [|set_solver]. exfalso.
    unfold b, reports in Eb. destruct r as [|e]; [done|].
    rewrite (jp_tagged _ _ _ Hj e), andb_false_r in Eb; [done| |done]. intros E. rewrite E in Hin. set_solver.
  - intros Hok. apply (completed_app [_]). right. apply completed_app. left. apply completed_app. left.
    by apply (jp_ok _ _ _ Hj).
Qed.

Lemma entry_always ctx p loud : always (entry ctx p loud) (entry_post ctx p loud).
Proof.
  unfold entry, deferred. cbn [bind call always]. intros []. apply always_bind, always_bind.
  eapply always_mono;
    [apply always_conj; [apply uses_always, processJob_attempts|apply always_conj; [apply processJob_quiet|apply processJob_always]]|].
  intros tr r (Hs & Hq & Hj). pose proof (entry_trace ctx p loud tr r Hq (unsent tr Hs) Hj) as Hgo.
  destruct r as [[]|e]; cbn [always].
  - rewrite app_nil_r. intros []. cbn [reports report_of] in Hgo. by rewrite app_nil_r in Hgo.
  - apply always_bind. eapply always_mono; [apply reportFailure_always|]. intros tr' [] ->. cbn [always].
    rewrite app_nil_r. intros []. exact Hgo.
Qed.

(** C3. Within one run, an error frame is the last thing sent and never
    follows that run's answer: over every answer of the chain, the model, the
    stores and the clock, each entry point counts its job in and out once and
    returns what [processJob] returned; it sends at most one error frame, for
    this job and behind every chunk, metadata and terminal frame of the run,
    exactly when there is a publisher, the attempt failed for good, by a
    no-retry error or, in the queue, on its last try (in the gateway, on the
    only one), and did not fail behind stage 7; a run that sent the answer, or
    submitted its blob, or completed the job, sends none, and a run that
    reports success has the chain's word that the job is completed. What an
    earlier run delivered is no part of this: see [late_retry_speaks]. *)
Theorem error_frame_only_without_an_answer ctx p tr r :
  (runs (HandleTask ctx (Ok p)) tr r -> entry_post ctx p (speaks ctx) tr r) /\
  (runs (HandleJobPayload ctx p) tr r -> entry_post ctx p (fun _ => true) tr r).
Proof.
  split; intros Hr.
  - exact (always_runs _ _ _ _ (entry_always ctx p (speaks ctx)) Hr).
  - exact (always_runs _ _ _ _ (entry_always ctx p (fun _ => true)) Hr).
Qed.

(** C1. One job, one answer, and only behind a confirmed acknowledgement: in
    every run of [processJob], whatever it is answered, there is one ciphertext
    such that the signed frame carries it, the blob transaction submits it and
    [completeJob] commits to its hash; the four steps, publishing, submitting,
    completing and handing the job to the release loop, happen at most once
    each and in that order; before the first of them the chain has confirmed
    the acknowledgement; the blob hash committed to is the one this run's
    submission returned or the one the checkpoint held; the terminal frame
    counts the chunk frames, numbered from 1, and itself; a run succeeds only
    with the chain's word that the job is completed, and then exactly once
    tells the release tracker; a failure behind the published answer says so. *)
Theorem job_settles_one_confirmed_answer ctx p tr r :
  runs (processJob ctx p) tr r -> job_post p tr r.
Proof. apply always_runs, processJob_always. Qed.


(** ** Concurrent and repeated attempts

    An attempt at job [j] whose calls of the store all happened in a history
    of it, and none failed. *)
Definition attempt (j : Z) (evs : list event) (tr : list (called JobE)) : Prop :=
  (exists ctx p r, JobID p = j /\ runs (processJob ctx p) tr r) /\
  (forall c, c ∈ ckpt_calls tr -> Did c ∈ evs) /\ Forall ckpt_answered (ckpt_calls tr).

Context `{RO : !RedisOps} `{HO : !HashOps} `{RL : !RedisLaws RO}.
Context (FormatID : Z -> string) (store : CheckpointStore.t).
Context (ttl_pos : Second <= ttl store) (tombstone_pos : 0 < tombstoneTTL store).

Lemma told_canonical j ct calls evs r r' : history FormatID store r evs r' ->
  (forall c, c ∈ calls -> Did c ∈ evs) -> told j ct calls -> ct ∈ canonical j evs.
Proof.
  intros Hh Hin [(ck & Hc & Hct & <-)|[[c Hc]|[q Hc]]]; pose proof (Hin _ Hc) as Hev;
    (eapply canonical_member; [exact Hev|]); cbn -[HasCiphertext]; rewrite ?bool_decide_eq_true_2 by done.
  - rewrite Hct. by left.
  - destruct (history_member FormatID store ttl_pos tombstone_pos _ _ _ _ Hh Hev) as (r1 & r2 & Hs).
    apply (won_is_proposed FormatID store) in Hs as ->. by left.
  - by left.
Qed.

(** C2. Attempts at one job, retries and redeliveries running one after the
    other or at once, agree on the answer: take any history of the shared
    store in which the job's record does not end, operations on other jobs,
    and calls whose reply got lost, included; over all attempts whose own
    calls of the store succeeded there is one ciphertext that everything they
    publish carries, every blob they submit contains, and every completion
    they send commits to. *)
Theorem attempts_converge j r evs r' : checkpoints h = true ->
  history FormatID store r evs r' -> Lapsed (key FormatID store j) ∉ evs ->
  exists ct, forall tr d, attempt j evs tr -> d ∈ deeds tr -> of_answer ct d.
Proof.
  intros Hck Hh Hl. destruct (first_ciphertext_wins FormatID store ttl_pos tombstone_pos j r evs r' Hh Hl) as [ct Hct].
  exists ct. intros tr d ((ctx & p & res & <- & Hr) & Hin & Hf) Hd.
  destruct (jp_one _ _ _ (always_runs _ _ _ _ (processJob_always ctx p) Hr)) as (ct' & Hall & Htold).
  assert (ct' = ct) as <-; [|by eapply Forall_forall in Hall].
  apply Hct. eapply told_canonical; [exact Hh|exact Hin|]. apply Htold; [|done|done].
  intros E. rewrite E in Hd. by apply not_elem_of_nil in Hd.
Qed.
End Job.

(** ** A concrete world

    One worker's chain, store and model; each encryption ends in one more [#],
    like a fresh nonce. *)
#[local] Existing Instance plain_addresses.
#[local] Existing Instance demo_kinds.
#[local] Existing Instance demo_payloads.
#[local] Existing Instance demo_prompts.
#[local] Existing Instance demo_crypto.
#[local] Existing Instance demo_encodings.
#[local] Existing Instance plain_redis.
#[local] Existing Instance plain_hashes.

Record world : Type := MkWorld {
  w_now : Z;
  w_nonces : string;
  w_acked : bool;
  w_completed : bool;
  w_redis : gmap string (gmap string string * option Z);
  w_blob_fails : bool;
  w_complete_fails : bool;
}.
Definition w_put_redis (r : gmap string (gmap string string * option Z)) (w : world) : world :=
  MkWorld (w_now w) (w_nonces w) (w_acked w) (w_completed w) r (w_blob_fails w) (w_complete_fails w).
Definition demo_deadline : Z := 120 * Second.

Definition world_handler (store : CheckpointStore.t) : handler JobE world := fun X e w =>
  match e in JobE X return X * world with
  | Now => (w_now w, MkWorld (w_now w + 1) (w_nonces w) (w_acked w) (w_completed w) (w_redis w) (w_blob_fails w) (w_complete_fails w))
  | GetJobDeadline _ => (Ok (demo_deadline, w_acked w), w)
  | HasJobAcknowledged _ => (Ok (w_acked w), w)
  | AcknowledgeJobAsync _ _ =>
      (Ok 99, MkWorld (w_now w) (w_nonces w) true (w_completed w) (w_redis w) (w_blob_fails w) (w_complete_fails w))
  | SelectConfirmed _ _ _ => (ConfirmDone None, w)
  | HasJobCompleted _ => (Ok (w_completed w), w)
  | CompleteJob _ _ _ =>
      if w_complete_fails w then (Err (errorf "rpc timeout"), w)
      else (Ok tt, MkWorld (w_now w) (w_nonces w) (w_acked w) true (w_redis w) (w_blob_fails w) (w_complete_fails w))
  | FetchBlob _ _ => (Ok "hi"%string, w)
  | SubmitBlobTx _ d => (if w_blob_fails w then Err (errorf "blob pool full") else Ok [1000 + Z.of_nat (String.length d)], w)
  | GetKey _ => (Ok "key"%string, w)
  | Decrypt _ c => (Ok c, w)
  | Encrypt _ b =>
      let nonces := w_nonces w +:+ "#" in
      (Ok (b +:+ nonces), MkWorld (w_now w) nonces (w_acked w) (w_completed w) (w_redis w) (w_blob_fails w) (w_complete_fails w))
  | Sign _ => (Ok "sig"%string, w)
  | Ckpt e => let '(x, r) := perform pretty store e Healthy (w_redis w) in (x, w_put_redis r w)
  | MarkEligible _ _ => (Ok tt, w)
  | AddCounter _ | GoJoin _ _ | LandFlight _ _ | CloseAudio _ | Publish _ _ _ _ => (tt, w)
  | JoinFlight _ => (None, w)
  | GenerateStream _ _ _ _ _ | ChatStream _ _ _ _ => (MkStream demo_deltas "Hello!" no_stats None, w)
  | Generate _ _ _ _ | Chat _ _ _ _ => (Ok "Hello!"%string, w)
  | ReadAudio _ => (([], None), w)
  | _ => (Err (errorf "not modelled"), w)
  end.

Definition demo_payload : JobPayload :=
  MkJobPayload 7 3 ("consumer"%string : @Address plain_addresses) ("worker"%string : @Address plain_addresses)
    "llama3" 5 10 0 "corr" [].
Definition fresh_world (blob_fails complete_fails : bool) : world :=
  MkWorld 0 "" false false ∅ blob_fails complete_fails.

(** An attempt in a world, and a retry of it with the faults gone. *)
Definition run_attempt (store : CheckpointStore.t) (n : Z) (w : world) : (list (called JobE) * result unit) * world :=
  interp (world_handler store) (processJob demo_job_handler (TaskCtx (Some n) (Some 3)) demo_payload) w.
Definition mended (w : world) : world :=
  MkWorld (w_now w) (w_nonces w) (w_acked w) (w_completed w) (w_redis w) false false.
Definition attempts_of (store : CheckpointStore.t) (w : world) : list (list deed * result unit) :=
  let '((tr1, r1), w1) := run_attempt store 0 w in
  let '((tr2, r2), _) := run_attempt store 1 (mended w1) in
  [(deeds tr1, r1); (deeds tr2, r2)].

Example cached_answer_is_kept :
  (attempts_of demo (fresh_world true false)).*1 =
  [[Published "Hello!####" 4; Blobbed "Hello!####" (Err (errorf "blob pool full"))];
   [Blobbed "Hello!####" (Ok [1010]); Completed 1010 10 (Ok tt); Marked]].
Proof. vm_compute. reflexivity. Qed.

(** A store that does not take the ciphertext, here because it is too large,
    lets a retry generate, and settle, another answer than the one it already
    delivered under its signature: the mark that it was delivered outlives
    the answer. *)
Definition small_store : CheckpointStore.t := NewCheckpointStore 0 0 8.
Example uncached_answer_diverges :
  (attempts_of small_store (fresh_world true false)).*1 =
  [[Published "Hello!####" 4; Blobbed "Hello!####" (Err (errorf "blob pool full"))];
   [Blobbed "Hello!#####" (Ok [1011]); Completed 1011 11 (Ok tt); Marked]].
Proof. vm_compute. reflexivity. Qed.

(** And when the first attempt's blob did land, the retry commits to that blob
    beside the hash of another ciphertext. *)
Example uncached_blob_mismatch :
  (attempts_of small_store (fresh_world false true)).*1 =
  [[Published "Hello!####" 4; Blobbed "Hello!####" (Ok [1010]); Completed 1010 10 (Err (errorf "rpc timeout"))];
   [Completed 1010 11 (Ok tt); Marked]].
Proof. vm_compute. reflexivity. Qed.

(** ** The theorems there *)
Definition demo_attempt : prog JobE (result unit) := processJob demo_job_handler (TaskCtx (Some 0) (Some 3)) demo_payload.

Lemma job_settles_one_confirmed_answer_witness :
  exists tr, deeds tr = [Published "Hello!####" 4; Blobbed "Hello!####" (Ok [1010]); Completed 1010 10 (Ok tt); Marked] /\
    job_post demo_job_handler demo_payload tr (Ok tt).
Proof.
  exists (fst (fst (interp (world_handler demo) demo_attempt (fresh_world false false)))).
  split; [vm_compute; reflexivity|].
  exact (job_settles_one_confirmed_answer demo_job_handler (FL := demo_kinds_laws) (TaskCtx (Some 0) (Some 3)) demo_payload _ _
    (interp_run (world_handler demo) demo_attempt (fresh_world false false))).
Defined.

(** The last try of a job whose deadline passed long ago. *)
Definition late_world : world := MkWorld (500 * Second) "" false false ∅ false false.
Definition demo_last : prog JobE (result unit) := HandleTask demo_job_handler (TaskCtx (Some 3) (Some 3)) (Ok demo_payload).
Definition demo_last_run := interp (world_handler demo) demo_last late_world.

Lemma error_frame_only_without_an_answer_witness :
  error_frames (fst (fst demo_last_run)) = 1%nat /\
  entry_post demo_job_handler (TaskCtx (Some 3) (Some 3)) demo_payload (speaks (TaskCtx (Some 3) (Some 3))) (fst (fst demo_last_run)) (snd (fst demo_last_run)).
Proof.
  split; [vm_compute; reflexivity|].
  exact (proj1 (error_frame_only_without_an_answer demo_job_handler (FL := demo_kinds_laws) (TaskCtx (Some 3) (Some 3))
    demo_payload _ _) (interp_run (world_handler demo) demo_last late_world)).
Defined.

(** A retry that is refused at pickup never learns that an earlier try
    delivered the answer, so its last try sends an error frame behind it: the
    checkpoint is read, and [delivered] set, only later. *)
Example late_retry_speaks :
  let '((tr1, r1), w1) := interp (world_handler demo) (HandleTask demo_job_handler (TaskCtx (Some 2) (Some 3)) (Ok demo_payload)) (fresh_world true false) in
  let later := MkWorld (500 * Second) (w_nonces w1) (w_acked w1) (w_completed w1) (w_redis w1) false false in
  let '((tr2, _), _) := interp (world_handler demo) demo_last later in
  deeds tr1 = [Published "Hello!####" 4; Blobbed "Hello!####" (Err (errorf "blob pool full"))] /\ is_ok r1 = false /\
  deeds tr2 = [ErrorFramed].
Proof. vm_compute. done. Qed.

Definition demo_guard : deadlineGuard := MkGuard 7 (25 * Second) (12 * Second) (10 * Second).
Definition demo_late_run := interp (world_handler demo) demo_attempt late_world.


(** Every run in the world is a history of its store. *)
Lemma world_history store A (q : prog JobE A) : forall w tr a w',
  interp (world_handler store) q w = ((tr, a), w') ->
  history pretty store (w_redis w) (Did <$> ckpt_calls tr) (w_redis w').
Proof.
  induction q as [a0|X e k IH]; intros w tr a w'; cbn [interp].
  { intros [= <- <- <-]. constructor. }
  destruct (world_handler store X e w) as [x w1] eqn:Ee.
  destruct (interp (world_handler store) (k x) w1) as [[tr1 a1] w2] eqn:Ei. intros [= <- <- <-].
  pose proof (IH _ _ _ _ _ Ei) as Hh. unfold ckpt_calls in *. rewrite answered_cons, fmap_app.
  destruct e; cbn in Ee; simplify_eq; try exact Hh; try (destruct (w_complete_fails w); simplify_eq; exact Hh).
  match type of Ee with (let '(_, _) := ?p in _) = _ => destruct p as [y r] eqn:Ep end. simplify_eq. cbn.
  apply (history_cons (RO := plain_redis) pretty store _ _ r); [by exists Healthy|exact Hh].
Qed.

Definition demo_tr1 : list (called JobE) := fst (fst (run_attempt demo 0 (fresh_world true false))).
Definition demo_w1 : world := mended (snd (run_attempt demo 0 (fresh_world true false))).
Definition demo_tr2 : list (called JobE) := fst (fst (run_attempt demo 1 demo_w1)).
Definition demo_evs : list event := Did <$> (ckpt_calls demo_tr1 ++ ckpt_calls demo_tr2).

Lemma demo_attempt_in n w evs : let tr := fst (fst (run_attempt demo n w)) in
  (forall c, c ∈ ckpt_calls tr -> Did c ∈ evs) -> Forall ckpt_answered (ckpt_calls tr) ->
  attempt demo_job_handler 7 evs tr.
Proof.
  intros tr Hin Hf. split; [|by split]. exists (TaskCtx (Some n) (Some 3)), demo_payload, (snd (fst (run_attempt demo n w))).
  split; [done|]. apply interp_run.
Qed.

Lemma interp_history store n w : history pretty store (w_redis w)
  (Did <$> ckpt_calls (fst (fst (run_attempt store n w)))) (w_redis (snd (run_attempt store n w))).
Proof.
  destruct (run_attempt store n w) as [[tr r] w'] eqn:E. unfold run_attempt in E. by eapply world_history.
Qed.

Lemma history_app FormatID (store : CheckpointStore.t) r evs r1 evs' r2 :
  history FormatID store r evs r1 -> history FormatID store r1 evs' r2 -> history FormatID store r (evs ++ evs') r2.
Proof. induction 1 as [|r ev r' evs r1 Hs _ IH]; [done|]. intros H2. eapply history_cons; [exact Hs|by apply IH]. Qed.

Lemma demo_history : history pretty demo (∅ : gmap string (gmap string string * option Z)) demo_evs
  (w_redis (snd (run_attempt demo 1 demo_w1))).
Proof.
  unfold demo_evs. rewrite fmap_app. eapply history_app; [exact (interp_history demo 0 (fresh_world true false))|].
  exact (interp_history demo 1 demo_w1).
Qed.

Lemma demo_no_lapse : Lapsed (key pretty demo 7) ∉ demo_evs.
Proof. intros Hin. apply list_elem_of_fmap in Hin as (c & Hc & _). discriminate Hc. Qed.

Lemma demo_in n w : let tr := fst (fst (run_attempt demo n w)) in
  (forall c, c ∈ ckpt_calls tr -> c ∈ ckpt_calls demo_tr1 ++ ckpt_calls demo_tr2) ->
  Forall ckpt_answered (ckpt_calls tr) -> attempt demo_job_handler 7 demo_evs tr.
Proof. intros tr Hin Hf. apply demo_attempt_in; [|done]. intros c Hc. apply list_elem_of_fmap. exists c. split; [done|by apply Hin]. Qed.

Lemma demo_attempts tr : tr ∈ [demo_tr1; demo_tr2] -> attempt demo_job_handler 7 demo_evs tr.
Proof.
  intros Htr. apply elem_of_cons in Htr as [->|Htr]; [|apply list_elem_of_singleton in Htr as ->]; apply demo_in.
  1, 3: intros c Hc; apply elem_of_app; tauto.
  all: vm_compute; repeat constructor.
Qed.

Lemma attempts_converge_witness :
  Published "Hello!####" 4 ∈ deeds demo_tr1 /\ Completed 1010 10 (Ok tt) ∈ deeds demo_tr2 /\
  exists ct, forall tr d, tr ∈ [demo_tr1; demo_tr2] -> d ∈ deeds tr -> of_answer ct d.
Proof.
  split; [vm_compute; left|]. split; [vm_compute; right; left|].
  pose proof (fun H1 H2 H3 => attempts_converge demo_job_handler (FL := demo_kinds_laws) (RL := plain_redis_laws) pretty demo
    H1 H2 7 ∅ demo_evs (w_redis (snd (run_attempt demo 1 demo_w1))) H3 demo_history demo_no_lapse) as H.
  destruct H as [ct Hct].
  1-3: vm_compute; congruence.
  exists ct. intros tr d Htr. apply Hct. by apply demo_attempts.
Defined.
End Pipeline.
