(* ===== verification/Answer.v ===== *)
(** The pipeline on the model client: what the consumer was shown while an
    answer was generated is the answer that is settled. *)
From S2P Require Import Prelude Effects GoText Checkpoint JobCalls Ollama JobTypes Deadline Stream Inference.

Module Answer.
Import Stream Inference.

Section Answer.
Context `{FK : !FrameKinds} `{PL : !Payloads} `{AO : !AddressOps} `{LP : !PromptLibs} `{LC : !CryptoLibs} `{EN : !Encodings}.
Context `{FL : !FrameKindLaws FK} `{OJ : !OllamaJSON}.
Context (h : JobHandler).

(** A streaming call as the pipeline sees it, from a run of the client. *)
Definition answer_of (tr : list (called OllamaE)) (out : string * StreamStats * option error) : stream_answer :=
  MkStream (OllamaClient.deltas tr) (fst (fst out)) (snd (fst out)) (snd out).

(** The handlers [runInference] passes. *)
Definition handlers : OllamaClient.StreamHandlers := OllamaClient.MkHandlers true (StreamReasoning (cfg h)).

Definition from_client (url : string) (o : ClientOptions) (k : OllamaClient.stream_call) (a : stream_answer) : Prop :=
  exists tr out, runs (OllamaClient.run_call (OllamaClient.MkOllama url o) k handlers) tr out /\ a = answer_of tr out.

(** The streaming calls of a trace are answered by the client. *)
Definition client_answers (url : string) (c : called JobE) : Prop :=
  match c with
  | Called e x =>
      match e in JobE Y return Y -> Prop with
      | GenerateStream _ o model text images => from_client url o (OllamaClient.StreamGenerate model text images)
      | ChatStream _ o model msgs => from_client url o (OllamaClient.StreamChat model msgs)
      | _ => fun _ => True
      end x
  end.

(** The text among the batches of a kind. *)
Definition text_shown (l : list (string * string)) : string :=
  OllamaClient.concat_strings (snd <$> filter (fun kb => kb.1 = FrameKindText) l).

Lemma play_response s a : always (play h s a) (fun _ r => is_ok r.2 = true ->
  sa_err a = None /\ r.2 = Ok (sa_response a, sa_stats a)).
Proof.
  unfold play. apply always_bind. eapply always_mono; [apply always_intro; by intros|]. intros tr1 [s1 [e|]] _; [done|].
  destruct (sa_err a); [done|]. apply always_bind. eapply always_mono; [apply always_intro; by intros|]. done.
Qed.

Lemma play_generates_nothing s a : always (play h s a) (fun tr _ => generated tr = []).
Proof. eapply (uses_answered delivers); [apply play_uses|]. by intros Y [] y. Qed.

(** A successful streamed model call: its answer, and the frames it left. *)
Definition spoken (url : string) (s : chunkStreamer) (tr : list (called JobE))
    (r : option chunkStreamer * result (string * StreamStats)) : Prop :=
  exists o k a, (Forall (client_answers url) tr -> from_client url o k a) /\ generated tr = sa_deltas a /\
    (is_ok r.2 = true -> sa_err a = None /\ r.2 = Ok (sa_response a, sa_stats a)).

Lemma runInference_spoken url ctx c m e hist s : is_speech h m = false ->
  always (runInference h ctx c m e hist (Some s)) (spoken url s).
Proof.
  intros Hs. unfold runInference. rewrite Hs.
  assert (forall a, always (play h s a) (fun tr r => generated tr = [] /\
    (is_ok r.2 = true -> sa_err a = None /\ r.2 = Ok (sa_response a, sa_stats a)))) as Hp.
  { intros a. apply always_conj; [apply play_generates_nothing|apply play_response]. }
  destruct (chatMessages _) as [msgs|]; cbn [bind always call]; intros a; (eapply always_mono; [apply Hp|]);
    intros tr r [Hg Hr]; unfold spoken.
  - exists (client s), (OllamaClient.StreamChat m msgs), a. split; [by inversion_clear 1|]. split; [|done].
    unfold generated in *. rewrite answered_cons, Hg. cbn. by rewrite !app_nil_r.
  - exists (client s), (OllamaClient.StreamGenerate m (Text e) (Images e)), a. split; [by inversion_clear 1|]. split; [|done].
    unfold generated in *. rewrite answered_cons, Hg. cbn. by rewrite !app_nil_r.
Qed.

Lemma filter_kind k (cs : list Ascii.ascii) :
  snd <$> filter (fun kc : string * Ascii.ascii => kc.1 = FrameKindText) ((fun a => (k, a)) <$> cs)
  = if decide (k = FrameKindText) then cs else [].
Proof.
  induction cs as [|a cs IH]; [by destruct (decide _)|]. rewrite fmap_cons.
  destruct (decide (k = FrameKindText)) as [Hk|Hk].
  - rewrite filter_cons_True by done. rewrite fmap_cons, IH. done.
  - by rewrite filter_cons_False by done.
Qed.

Lemma text_shown_flat l :
  String.list_ascii_of_string (text_shown l) = snd <$> filter (fun kc => kc.1 = FrameKindText) (flat l).
Proof.
  induction l as [|[k b] l IH]; [done|]. change ((k, b) :: l) with ([(k, b)] ++ l).
  rewrite flat_app, filter_app, fmap_app, <- IH. unfold text_shown. rewrite filter_app, fmap_app.
  rewrite OllamaClient.concat_strings_app, list_ascii_app. f_equal.
  unfold flat. cbn [flat_map fst snd]. rewrite app_nil_r, filter_kind.
  destruct (decide (k = FrameKindText)) as [Hk|Hk]; [rewrite filter_cons_True by done|rewrite filter_cons_False by done]; [|done].
  exact (f_equal String.list_ascii_of_string (append_nil_r b)).
Qed.

Lemma text_forwarded ds : FrameKindReasoning <> FrameKindText ->
  text_shown (forwarded h ds) = OllamaClient.concat_strings (snd <$> filter (fun d => fst d = false) ds).
Proof.
  intros Hk. induction ds as [|[b t] ds IH]; [done|]. cbn [forwarded flat_map].
  change (flat_map _ ds) with (forwarded h ds). unfold text_shown in *. rewrite filter_app, fmap_app.
  destruct b; cbn [fst snd].
  - rewrite filter_cons_False by done. rewrite <- IH. destruct (StreamReasoning (cfg h)); [|done].
    by rewrite filter_cons_False by done.
  - rewrite !filter_cons_True by done. cbn. by f_equal.
Qed.

(** C19. What the consumer read while the answer was generated is the answer:
    in every successful streamed model call of the pipeline on the model
    client, whatever the server sends, if no batch failed to encrypt, the text
    frames decrypt to batches whose concatenation is, byte for byte, the
    response the call returns, which is the text stage 6 encrypts and the
    later stages settle; it is not empty, and thinking never gets into it. *)
Theorem shown_text_is_the_response url ctx c m e hist s tr r response st :
  FrameKindReasoning <> FrameKindText -> runs (runInference h ctx c m e hist (Some s)) tr r -> fresh s ->
  is_speech h m = false -> Forall (client_answers url) tr -> r.2 = Ok (response, st) -> unsealed tr = [] ->
  (exists l, shows tr l /\ text_shown l = response) /\ response <> EmptyString.
Proof.
  intros Hk Hr Hf Hsp Hcl Hok Hu.
  destruct (always_runs _ _ _ _ (runInference_spoken url ctx c m e hist s Hsp) Hr) as (o & k & a & Hfrom & Hgen & Hres).
  rewrite Hok in Hres. destruct (Hres eq_refl) as [Herr [= -> ->]]. destruct (Hfrom Hcl) as (tr' & out & Hrun & ->).
  destruct (always_runs _ _ _ _ (OllamaClient.run_call_always _ k handlers) Hrun) as [Hans _ _].
  destruct (Hans Herr) as (ls & e' & g & _ & _ & Hout & Hne & Hd). cbn [answer_of sa_deltas sa_response] in *.
  rewrite Hout. cbn [fst]. split; [|done].
  destruct (always_runs _ _ _ _ (runInference_always h ctx c m e hist (Some s) (fresh_wf _ Hf)) Hr) as [_ Ht].
  destruct (Ht s eq_refl Hf Hsp) as (l & Hsh & Hfl); [by rewrite Hok|done|].
  exists l. split; [done|]. rewrite Hgen in Hfl.
  rewrite <- (OllamaClient.answer_deltas handlers g eq_refl), <- Hd, <- text_forwarded by done.
  rewrite <- (String.string_of_list_ascii_of_string (text_shown l)), text_shown_flat, Hfl, <- text_shown_flat.
  by rewrite String.string_of_list_ascii_of_string.
Qed.
End Answer.

(** ** The demo handler of [Inference] with a server behind it *)
#[local] Existing Instance plain_addresses.
#[local] Existing Instance demo_kinds.
#[local] Existing Instance demo_payloads.
#[local] Existing Instance demo_prompts.
#[local] Existing Instance demo_crypto.
#[local] Existing Instance demo_encodings.
#[local] Existing Instance OllamaClient.plain_json.

Definition demo_lines : list bytes := ["?"; "He"; "llo"; ""; "!!"; "."]%string.
Definition served (o : ClientOptions) (k : OllamaClient.stream_call) : (list (called OllamaE) * (string * StreamStats * option error)) :=
  fst (interp (OllamaClient.demo_server demo_lines None)
         (OllamaClient.run_call (OllamaClient.MkOllama "http://ollama" o) k (handlers demo_job_handler)) tt).
Definition served_handler : handler JobE Z := fun X e t =>
  match e in JobE X return X * Z with
  | GenerateStream _ o m text images =>
      let '(tr, out) := served o (OllamaClient.StreamGenerate m text images) in (answer_of tr out, t)
  | ChatStream _ o m msgs => let '(tr, out) := served o (OllamaClient.StreamChat m msgs) in (answer_of tr out, t)
  | e => demo_stream_handler _ e t
  end.
Definition served_trace : list (called JobE) := fst (fst (interp served_handler demo_call 0)).

Lemma served_from_client o k : from_client demo_job_handler "http://ollama" o k (answer_of (served o k).1 (served o k).2).
Proof. exists (served o k).1, (served o k).2. split; [apply interp_run|done]. Qed.

Lemma served_answers X (e : JobE X) t x t' : served_handler X e t = (x, t') ->
  client_answers demo_job_handler "http://ollama" (Called e x).
Proof.
  destruct e; try (intros _; exact I); unfold served_handler;
    match goal with |- context [served ?o ?k] => pose proof (served_from_client o k) as Hs; destruct (served o k) as [tr0 out0] end;
    intros [= <- <-]; exact Hs.
Qed.

Lemma served_client : Forall (client_answers demo_job_handler "http://ollama") served_trace.
Proof.
  assert (forall A (p : prog JobE A) t, Forall (client_answers demo_job_handler "http://ollama")
    (fst (fst (interp served_handler p t)))) as Hall; [|exact (Hall _ demo_call 0)].
  induction p as [a|X e k IH]; intros t; [constructor|]. cbn [interp].
  destruct (served_handler X e t) as [x t'] eqn:Ex. pose proof (IH x t') as IHx.
  destruct (interp served_handler (k x) t') as [[tr a] t'']. constructor; [|exact IHx].
  by eapply served_answers.
Qed.

Lemma shown_text_is_the_response_witness :
  exists l, shows served_trace l /\ text_shown l = "Hello!!"%string.
Proof.
  refine (proj1 (shown_text_is_the_response (FL := demo_kinds_laws) demo_job_handler "http://ollama" (TaskCtx None None)
    (MkClient no_options true true true) "m"%string (MkEnvelope "hi" [] "" "" false "" "") [] demo_streamer _ _
    _ (MkStats 2 4 3 1 3 5 9) _ (interp_run served_handler demo_call 0) _ _ served_client _ _)); vm_compute; try done; auto.
Defined.
End Answer.
