(* ===== verification/Keystore.v ===== *)
(** The worker's keys on disk: [internal/keystore]. [keystore.go] keeps the
    ECDH key, [session_store.go] the session keys, each in one file encrypted
    under a key derived from the passphrase and replaced by a rename. *)
From Stdlib Require Import Ascii.
From S2P Require Import Prelude Effects GoText Checkpoint JobCalls.

#[local] Open Scope prog_scope.

(** [encryptedKeyFile] and [sessionKeyFile]. *)
Record encryptedKeyFile : Type := MkKeyFile { kf_Version : Z; kf_Salt : string; kf_EncryptedKey : string }.
Record sessionKeyFile : Type := MkSessionFile { sf_Version : Z; sf_Salt : string; sf_Data : string }.

(** What is pure of [encoding/base64], [encoding/json], [scrypt], the cipher
    of [pkg/crypto] and [crypto/ecdh]: a private key is its bytes, if they are
    one. *)
Class KeyCodecs := {
  b64 : bytes -> string;
  unb64 : string -> result bytes;
  keyfile_json : encryptedKeyFile -> result bytes;
  parse_keyfile : bytes -> result encryptedKeyFile;
  session_json : sessionKeyFile -> result bytes;
  parse_session : bytes -> result sessionKeyFile;
  keymap_json : gmap string string -> result bytes;
  parse_keymap : bytes -> result (gmap string string);
  scrypt : string -> bytes -> result bytes;
  Unseal : bytes -> bytes -> result bytes;
  NewPrivateKey : bytes -> result bytes;
}.

(** What is marshalled or encoded reads back. *)
Class KeyCodecLaws (K : KeyCodecs) : Prop := {
  unb64_b64 b : unb64 (b64 b) = Ok b;
  parse_keyfile_json f d : keyfile_json f = Ok d -> parse_keyfile d = Ok f;
  parse_session_json f d : session_json f = Ok d -> parse_session d = Ok f;
  parse_keymap_json m d : keymap_json m = Ok d -> parse_keymap d = Ok m;
}.

Inductive KeyE : Type -> Type :=
  | Stat (path : string) : KeyE (result unit)
  | ReadFile (path : string) : KeyE (result bytes)
  | MkdirAll (path : string) : KeyE (result unit)
  | CreateTemp (path : string) : KeyE (result string)
  | Write (file : string) (data : bytes) : KeyE (result unit)
  | Chmod (file : string) : KeyE (result unit)
  | Close (file : string) : KeyE (result unit)
  | Rename (old new : string) : KeyE (result unit)
  | Remove (file : string) : KeyE unit
  | RandRead (n : Z) : KeyE (result bytes)
  | GenerateKeyPair : KeyE (result bytes)
  | Seal (key plaintext : bytes) : KeyE (result bytes).

Definition saltLen : Z := 16.
Definition is_not_exist (r : result unit) : bool :=
  match r with Err e => errors_Is e ErrNotExist | Ok _ => false end.

(** ** [writeAtomic] *)
Definition writeAtomic (path : string) (data : bytes) : prog KeyE (result unit) :=
  _ <-? wrap_err "create keystore directory" (call (MkdirAll path)) ;;
  tmp <-? wrap_err "create temp keystore file" (call (CreateTemp path)) ;;
  w <- call (Write tmp data) ;;
  match w with
  | Err e => _ <- call (Close tmp) ;; _ <- call (Remove tmp) ;; Ret (Err (wrap "write temp keystore" e))
  | Ok _ =>
      m <- call (Chmod tmp) ;;
      match m with
      | Err e => _ <- call (Close tmp) ;; _ <- call (Remove tmp) ;; Ret (Err (wrap "chmod temp keystore" e))
      | Ok _ =>
          c <- call (Close tmp) ;;
          match c with
          | Err e => _ <- call (Remove tmp) ;; Ret (Err (wrap "close temp keystore" e))
          | Ok _ =>
              r <- call (Rename tmp path) ;;
              match r with
              | Err e => _ <- call (Remove tmp) ;; Ret (Err (wrap "rename keystore" e))
              | Ok _ => Ret (Ok tt)
              end
          end
      end
  end.

(** ** Files and keys behind the calls

    What a call and its answer say of the files: a failed write may leave
    anything in the file it wrote, a rename happens or does not, a temporary
    file is beside the one it will replace under a name of its own; and what
    was sealed opens to what went in. *)
Section World.
Context `{KC : !KeyCodecs}.

Definition world_step (c : called KeyE) (fs fs' : gmap string bytes) : Prop :=
  match c with
  | Called e x =>
      match e in KeyE X return X -> Prop with
      | Stat p => fun r => (is_not_exist r = true -> fs !! p = None) /\ fs' = fs
      | ReadFile p => fun r => (forall d, r = Ok d -> fs !! p = Some d) /\ fs' = fs
      | CreateTemp p => fun r =>
          match r with
          | Ok tmp => (exists random, tmp = p +:+ "-" +:+ random +:+ ".tmp") /\ fs' = <[tmp := EmptyString]> fs
          | Err _ => fs' = fs
          end
      | Write f data => fun r => exists left_behind,
          (r = Ok tt -> left_behind = data) /\ fs' = <[f := left_behind]> fs
      | Rename old new => fun r =>
          match r with
          | Ok _ => exists b, fs !! old = Some b /\ fs' = <[new := b]> (delete old fs)
          | Err _ => fs' = fs
          end
      | Remove f => fun _ => fs' = fs \/ fs' = delete f fs
      | GenerateKeyPair => fun r => (forall k, r = Ok k -> NewPrivateKey k = Ok k) /\ fs' = fs
      | Seal k p => fun r => (forall ct, r = Ok ct -> Unseal k ct = Ok p) /\ fs' = fs
      | MkdirAll _ | Chmod _ | Close _ | RandRead _ => fun _ => fs' = fs
      end x
  end.

Fixpoint world (fs : gmap string bytes) (tr : list (called KeyE)) (fs' : gmap string bytes) : Prop :=
  match tr with
  | [] => fs' = fs
  | c :: tr => exists fs1, world_step c fs fs1 /\ world fs1 tr fs'
  end.

(** Through a trace: [I] while it is under way, what a crash may find, and [F]
    at its end. *)
Fixpoint track (I F : gmap string bytes -> Prop) (fs : gmap string bytes) (tr : list (called KeyE)) : Prop :=
  match tr with
  | [] => F fs
  | c :: tr => I fs /\ forall fs1, world_step c fs fs1 -> track I F fs1 tr
  end.

Lemma track_mono (I F I' F' : gmap string bytes -> Prop) fs tr : track I F fs tr ->
  (forall fs, I fs -> I' fs) -> (forall fs, F fs -> F' fs) -> track I' F' fs tr.
Proof.
  intros H HI HF. revert fs H. induction tr as [|c tr IH]; intros fs; cbn; [apply HF|].
  intros [? H]. split; [by apply HI|]. intros fs1 Hs. by apply IH, H.
Qed.

Lemma track_world (I F : gmap string bytes -> Prop) fs tr fs' : track I F fs tr -> world fs tr fs' -> F fs'.
Proof.
  revert fs. induction tr as [|c tr IH]; intros fs; cbn; [by intros ? ->|].
  intros [_ H] (fs1 & Hs & Hw). by apply (IH fs1); [apply H|].
Qed.

Lemma track_during (I F : gmap string bytes -> Prop) fs tr1 c tr2 fs' :
  track I F fs (tr1 ++ c :: tr2) -> world fs tr1 fs' -> I fs'.
Proof.
  revert fs. induction tr1 as [|c1 tr1 IH]; intros fs; cbn; [by intros [? _] ->|].
  intros [_ H] (fs1 & Hs & Hw). by apply (IH fs1); [apply H|].
Qed.

Lemma track_app (I F : gmap string bytes -> Prop) fs tr tr' :
  track I (fun fs1 => track I F fs1 tr') fs tr -> track I F fs (tr ++ tr').
Proof.
  revert fs. induction tr as [|c tr IH]; intros fs; cbn; [done|]. intros [? H]. split; [done|].
  intros fs1 Hs. by apply IH, H.
Qed.

Lemma track_quiet (I F : gmap string bytes -> Prop) fs tr :
  Forall (fun c => forall fs fs', world_step c fs fs' -> fs' = fs) tr -> I fs -> F fs -> track I F fs tr.
Proof. intros Hq HI HF. induction Hq as [|c tr Hc _ IH]; [done|]. split; [done|]. intros fs1 Hs. by rewrite (Hc _ _ Hs). Qed.

Lemma tmp_not_target path random : path <> path +:+ "-" +:+ random +:+ ".tmp".
Proof.
  intros E%(f_equal (fun s => length (String.list_ascii_of_string s))). revert E. rewrite !list_ascii_app, !length_app. cbn. lia.
Qed.

(** The file is untouched until the rename, and after it holds the data. *)
Definition kept (path : string) (fs fs' : gmap string bytes) : Prop := fs' !! path = fs !! path.

Ltac track_steps :=
  repeat (cbn [track]; lazymatch goal with
          | |- _ /\ _ => split
          | |- forall _, _ -> _ => intros ? Hw; cbn in Hw; destruct_and?; destruct_or?;
              repeat match goal with H : exists _, _ |- _ => destruct H end; destruct_and?; simplify_eq
          end).
Ltac track_lookups path := unfold kept; repeat match goal with
  | |- context [<[?k := _]> _ !! path] => rewrite (lookup_insert_ne _ k path) by (apply not_eq_sym, tmp_not_target)
  | |- context [delete ?k _ !! path] => rewrite (lookup_delete_ne _ k path) by (apply not_eq_sym, tmp_not_target)
  | |- context [<[path := _]> _ !! path] => rewrite lookup_insert_eq
  end.

Definition atomic_post (path : string) (data : bytes) (tr : list (called KeyE)) (r : result unit) : Prop := forall fs,
  track (kept path fs) (fun fs' => if is_ok r then fs' !! path = Some data else kept path fs fs') fs tr.

Lemma writeAtomic_always path data : always (writeAtomic path data) (atomic_post path data).
Proof.
  unfold writeAtomic, try, wrap_err. walk; intros fs; cbn [is_ok]; track_steps; try done; track_lookups path; try done.
  destruct_units.
  all: repeat match goal with H : _ !! ?k = Some _ |- _ => rewrite lookup_insert_eq in H; simplify_eq end.
  match goal with H : Ok tt = Ok tt -> _ |- _ => by rewrite H end.
Qed.
End World.

Module Keystore.
Section Keystore.
Context `{KC : !KeyCodecs}.

Definition deriveKey (passphrase : string) (salt : bytes) : result bytes :=
  match scrypt passphrase salt with Ok key => Ok key | Err e => Err (wrap "derive file key" e) end.

(** [Load]. *)
Definition open_keyfile (passphrase : string) (data : bytes) : result bytes :=
  match parse_keyfile data with
  | Err e => Err (wrap "parse keystore" e)
  | Ok kf =>
      if negb (kf_Version kf =? 1) then Err (errorf "unsupported keystore version")
      else match unb64 (kf_Salt kf) with
           | Err e => Err (wrap "decode salt" e)
           | Ok salt =>
               match unb64 (kf_EncryptedKey kf) with
               | Err e => Err (wrap "decode encrypted key" e)
               | Ok ciphertext =>
                   match deriveKey passphrase salt with
                   | Err e => Err e
                   | Ok fileKey =>
                       match Unseal fileKey ciphertext with
                       | Err e => Err (wrap "decrypt ECDH private key (wrong passphrase?)" e)
                       | Ok privBytes =>
                           match NewPrivateKey privBytes with
                           | Err e => Err (wrap "load ECDH private key from bytes" e)
                           | Ok privKey => Ok privKey
                           end
                       end
                   end
               end
           end
  end.
Definition Load (path passphrase : string) : prog KeyE (result bytes) :=
  data <-? wrap_err "read keystore" (call (ReadFile path)) ;;
  Ret (open_keyfile passphrase data).

Definition generate (path passphrase : string) : prog KeyE (result bytes) :=
  privKey <-? wrap_err "generate ECDH key pair" (call GenerateKeyPair) ;;
  salt <-? wrap_err "generate salt" (call (RandRead saltLen)) ;;
  match deriveKey passphrase salt with
  | Err e => Ret (Err e)
  | Ok fileKey =>
      ciphertext <-? wrap_err "encrypt ECDH private key" (call (Seal fileKey privKey)) ;;
      match keyfile_json (MkKeyFile 1 (b64 salt) (b64 ciphertext)) with
      | Err e => Ret (Err (wrap "marshal keystore" e))
      | Ok data =>
          _ <-? wrap_err "write keystore" (writeAtomic path data) ;;
          Ret (Ok privKey)
      end
  end.

Definition LoadOrGenerate (path passphrase : string) : prog KeyE (result bytes) :=
  st <- call (Stat path) ;;
  if is_not_exist st then generate path passphrase else Load path passphrase.
End Keystore.
End Keystore.

Module SessionKeyStore.

(** [SessionKeyStore]; every method holds its mutex, and the keys it stores and
    returns are copies. *)
Record t : Type := MkStore {
  keys : gmap Z bytes;
  filePath : string;
  fileKey : bytes;
  salt : bytes;
}.
Definition with_keys (ks : gmap Z bytes) (s : t) : t := MkStore ks (filePath s) (fileKey s) (salt s).

(** All bytes set to zero. *)
Definition zeroed (b : bytes) : bytes := String.string_of_list_ascii ((fun _ => Ascii.zero) <$> String.list_ascii_of_string b).

Section Store.
Context `{KC : !KeyCodecs}.

(** The map under the cipher: decimal ids, base64 keys. *)
Definition raw_map (ks : gmap Z bytes) : gmap string string :=
  list_to_map ((fun ik => (FormatUint (fst ik), b64 (snd ik))) <$> map_to_list ks).

Definition persist (s : t) : prog KeyE (result unit) :=
  match keymap_json (raw_map (keys s)) with
  | Err e => Ret (Err (wrap "marshal session keys" e))
  | Ok plaintext =>
      ciphertext <-? wrap_err "encrypt session keys" (call (Seal (fileKey s) plaintext)) ;;
      match session_json (MkSessionFile 1 (b64 (salt s)) (b64 ciphertext)) with
      | Err e => Ret (Err (wrap "marshal session store" e))
      | Ok data => writeAtomic (filePath s) data
      end
  end.

Definition StoreKey (sessionID : Z) (key : bytes) (s : t) : prog KeyE (t * result unit) :=
  let s := with_keys (<[sessionID := key]> (keys s)) s in
  r <- persist s ;; Ret (s, r).

Definition GetKey (sessionID : Z) (s : t) : result bytes :=
  match keys s !! sessionID with
  | Some key => Ok key
  | None => Err (errorf "session key not found")
  end.

Definition RemoveKey (sessionID : Z) (s : t) : prog KeyE (t * result unit) :=
  let s := with_keys (delete sessionID (keys s)) s in
  r <- persist s ;; Ret (s, r).

Definition ZeroAll (s : t) : prog KeyE (t * result unit) :=
  let s := with_keys ∅ s in
  r <- persist s ;;
  Ret (MkStore (keys s) (filePath s) (zeroed (fileKey s)) (salt s), r).

(** ** Opening *)

(** [range] is the order in which the map is iterated. *)
Context (range : gmap string string -> list (string * string)).

Fixpoint load_keys (kvs : list (string * string)) (ks : gmap Z bytes) : result (gmap Z bytes) :=
  match kvs with
  | [] => Ok ks
  | (k, v) :: kvs =>
      match ParseUint k with
      | Err e => Err (wrap "parse session ID" e)
      | Ok id =>
          match unb64 v with
          | Err e => Err (wrap "decode session key" e)
          | Ok keyBytes => load_keys kvs (<[id := keyBytes]> ks)
          end
      end
  end.

Definition open_store (filePath passphrase : string) (data : bytes) : result t :=
  match parse_session data with
  | Err e => Err (wrap "parse session store" e)
  | Ok sf =>
      if negb (sf_Version sf =? 1) then Err (errorf "unsupported session store version")
      else match unb64 (sf_Salt sf) with
           | Err e => Err (wrap "decode session store salt" e)
           | Ok salt =>
               match scrypt passphrase salt with
               | Err e => Err (wrap "derive session store key" e)
               | Ok fileKey =>
                   match unb64 (sf_Data sf) with
                   | Err e => Err (wrap "decode session store data" e)
                   | Ok ciphertext =>
                       match Unseal fileKey ciphertext with
                       | Err e => Err (wrap "decrypt session store (wrong passphrase?)" e)
                       | Ok plaintext =>
                           match parse_keymap plaintext with
                           | Err e => Err (wrap "unmarshal session keys" e)
                           | Ok rawMap =>
                               match load_keys (range rawMap) ∅ with
                               | Err e => Err e
                               | Ok ks => Ok (MkStore ks filePath fileKey salt)
                               end
                           end
                       end
                   end
               end
           end
  end.

Definition create_store (filePath passphrase : string) : prog KeyE (result t) :=
  salt <-? wrap_err "generate session store salt" (call (RandRead saltLen)) ;;
  match scrypt passphrase salt with
  | Err e => Ret (Err (wrap "derive session store key" e))
  | Ok fileKey =>
      let s := MkStore ∅ filePath fileKey salt in
      _ <-? wrap_err "persist initial session store" (persist s) ;;
      Ret (Ok s)
  end.

Definition NewSessionKeyStore (filePath passphrase : string) : prog KeyE (result t) :=
  st <- call (Stat filePath) ;;
  if is_not_exist st then create_store filePath passphrase
  else
    data <-? wrap_err "read session store" (call (ReadFile filePath)) ;;
    Ret (open_store filePath passphrase data).

(** ** The file holds the keys *)
Context `{KL : !KeyCodecLaws KC}.
Hypothesis range_order : forall m, range m ≡ₚ map_to_list m.

Definition ids_ok (ks : gmap Z bytes) : Prop := map_Forall (fun id _ => is_u64 id) ks.

Lemma load_images l ks : Forall (fun ik => is_u64 (fst ik)) l -> NoDup l.*1 ->
  load_keys ((fun ik => (FormatUint (fst ik), b64 (snd ik))) <$> l) ks = Ok (list_to_map l ∪ ks).
Proof.
  revert ks. induction l as [|[i k] l IH]; intros ks Hu Hn; [cbn; by rewrite (left_id_L ∅ (∪))|].
  cbn [fmap list_fmap load_keys fst snd]. inversion_clear Hu as [|? ? Hi Hl]. inversion_clear Hn as [|? ? Hni Hnl].
  rewrite ParseUint_FormatUint by done. rewrite unb64_b64. rewrite IH by done. cbn [list_to_map foldr fst snd].
  f_equal. rewrite <- insert_union_r by (by apply not_elem_of_list_to_map_1). by rewrite insert_union_l.
Qed.

Lemma load_raw ks : ids_ok ks -> load_keys (range (raw_map ks)) ∅ = Ok ks.
Proof.
  intros Hu. set (f := fun ik : Z * bytes => (FormatUint (fst ik), b64 (snd ik))).
  assert (forall i k, (i, k) ∈ map_to_list ks -> is_u64 i) as Hid by (intros i k Hk%elem_of_map_to_list; by eapply Hu).
  assert (NoDup (f <$> map_to_list ks).*1) as Hn.
  { rewrite <- list_fmap_compose. apply (NoDup_fmap_2_strong (fst ∘ f)); [|apply NoDup_map_to_list].
    intros [i k] [i' k'] Hi Hi' E. cbn in E. apply FormatUint_inj in E as <-; [|by eapply Hid..].
    apply elem_of_map_to_list in Hi, Hi'. congruence. }
  assert (range (raw_map ks) ≡ₚ f <$> map_to_list ks) as Hp.
  { rewrite range_order. unfold raw_map. by rewrite map_to_list_to_map. }
  apply Permutation_map_inv in Hp as (l & -> & Hl). change (map f l) with (f <$> l).
  unfold f. rewrite load_images.
  - rewrite (right_id_L ∅ (∪)). f_equal. symmetry. by apply list_to_map_flip.
  - apply Forall_forall. intros [i k] Hk. apply (Hid i k). by rewrite Hl.
  - rewrite <- Hl. apply NoDup_fst_map_to_list.
Qed.

(** The store the file of [s] opens to, under its passphrase. *)
Definition holds (passphrase path : string) (s : t) (fs : gmap string bytes) : Prop :=
  exists data, fs !! path = Some data /\ open_store path passphrase data = Ok s.

Definition persist_post (passphrase : string) (s : t) (tr : list (called KeyE)) (r : result unit) : Prop := forall fs,
  track (kept (filePath s) fs) (fun fs' => if is_ok r then holds passphrase (filePath s) s fs' else kept (filePath s) fs fs') fs tr.

Lemma persist_always passphrase s : scrypt passphrase (salt s) = Ok (fileKey s) -> ids_ok (keys s) ->
  always (persist s) (persist_post passphrase s).
Proof.
  intros Hs Hu. unfold persist. destruct (keymap_json (raw_map (keys s))) as [plaintext|e] eqn:Ek; [|by intros fs].
  unfold try, wrap_err. cbn [bind always call]. intros [ct|e]; cbn [bind always].
  2: { intros fs. split; [done|]. by intros fs1 [_ ->]. }
  destruct (session_json _) as [data|e] eqn:Ej; [|intros fs; split; [done|]; by intros fs1 [_ ->]].
  eapply always_mono; [apply writeAtomic_always|]. intros tr r Hw fs. split; [done|]. intros fs1 [Hseal ->].
  eapply track_mono; [apply Hw|done|]. intros fs'. destruct (is_ok r); [|done]. intros Hd. exists data. split; [done|].
  unfold open_store. erewrite parse_session_json by done. cbn. rewrite unb64_b64, Hs, unb64_b64, (Hseal _ eq_refl).
  erewrite parse_keymap_json by done. rewrite load_raw by done. by destruct s.
Qed.

(** ** Through the life of a process *)

(** A store opened at [path] with the passphrase. *)
Record opened (passphrase path : string) (s : t) : Prop := {
  op_path : filePath s = path;
  op_key : scrypt passphrase (salt s) = Ok (fileKey s);
  op_ids : ids_ok (keys s);
}.

Lemma load_ids kvs : forall ks ks', load_keys kvs ks = Ok ks' -> ids_ok ks -> ids_ok ks'.
Proof.
  induction kvs as [|[k v] kvs IH]; cbn; intros ks ks'; [by intros [= <-]|].
  destruct (ParseUint k) as [id|e] eqn:Ek; [|done]. destruct (unb64 v); [|done].
  intros Hl Hu. eapply IH; [exact Hl|]. apply map_Forall_insert_2; [by eapply ParseUint_range|done].
Qed.

Lemma open_store_opened path passphrase data s : open_store path passphrase data = Ok s -> opened passphrase path s.
Proof.
  unfold open_store. intros H. repeat (break_step; simplify_eq/=). split; cbn; [done|done|].
  eapply load_ids; [done|]. apply map_Forall_empty.
Qed.

Definition opening_post (passphrase path : string) (tr : list (called KeyE)) (r : result t) : Prop :=
  forall s, r = Ok s -> opened passphrase path s /\ forall fs fs', world fs tr fs' -> holds passphrase path s fs'.

Lemma opening_always path passphrase : always (NewSessionKeyStore path passphrase) (opening_post passphrase path).
Proof.
  unfold NewSessionKeyStore. cbn [bind always call]. intros st. destruct (is_not_exist st).
  - unfold create_store, try, wrap_err. cbn [bind always call]. intros [salt0|e]; cbn [bind always]; [|done].
    destruct (scrypt passphrase salt0) as [fk|e] eqn:Es; [|done]. apply always_bind, always_bind.
    eapply always_mono; [apply (persist_always passphrase); [exact Es|apply map_Forall_empty]|].
    intros tr [[]|e] Hp; cbn [always]; intros s [= <-]. split; [by split|]. intros fs fs' (f1 & [_ ->] & f2 & -> & Hw).
    rewrite !app_nil_r in Hw. exact (track_world _ _ _ _ _ (Hp fs) Hw).
  - unfold try, wrap_err. cbn [bind always call]. intros [data|e]; cbn [bind always]; intros s Hs; [|done].
    split; [by eapply open_store_opened|]. intros fs fs' (f1 & [_ ->] & f2 & [Hr ->] & ->). exists data. split; [by apply Hr|done].
Qed.

Inductive op : Type := KeyStored (sessionID : Z) (key : bytes) | KeyRemoved (sessionID : Z).
Definition run_op (o : op) (s : t) : prog KeyE (t * result unit) :=
  match o with KeyStored id key => StoreKey id key s | KeyRemoved id => RemoveKey id s end.
Definition apply_op (o : op) (ks : gmap Z bytes) : gmap Z bytes :=
  match o with KeyStored id key => <[id := key]> ks | KeyRemoved id => delete id ks end.
Definition op_ok (o : op) : Prop := match o with KeyStored id _ => is_u64 id | KeyRemoved _ => True end.

(** Operations on the store and the files, any of which may fail: [saved] is
    what the last one that succeeded wrote. *)
Inductive history : t -> gmap Z bytes -> gmap string bytes -> list op ->
    t -> gmap Z bytes -> gmap string bytes -> Prop :=
  | history_nil s saved fs : history s saved fs [] s saved fs
  | history_cons s saved fs o tr s1 r fs1 os s2 saved2 fs2 : op_ok o ->
      runs (run_op o s) tr (s1, r) -> world fs tr fs1 ->
      history s1 (if is_ok r then keys s1 else saved) fs1 os s2 saved2 fs2 ->
      history s saved fs (o :: os) s2 saved2 fs2.

Definition op_post (passphrase path : string) (o : op) (s : t) (tr : list (called KeyE)) (sr : t * result unit) : Prop :=
  fst sr = with_keys (apply_op o (keys s)) s /\ opened passphrase path (fst sr) /\ persist_post passphrase (fst sr) tr (snd sr).

Lemma op_always passphrase path o s : opened passphrase path s -> op_ok o ->
  always (run_op o s) (op_post passphrase path o s).
Proof.
  intros [Hp Hk Hi] Ho. set (s1 := with_keys (apply_op o (keys s)) s).
  assert (opened passphrase path s1) as Hs1.
  { split; [done|done|]. destruct o as [id key|id]; cbn; [by apply map_Forall_insert_2|by apply map_Forall_delete]. }
  assert (always (persist s1) (persist_post passphrase s1)) as Hpa by (apply persist_always; apply Hs1).
  destruct o; cbn [run_op]; apply always_bind; (eapply always_mono; [exact Hpa|]); intros tr r Hr; cbn [always];
    rewrite app_nil_r; (split; [done|split; [exact Hs1|exact Hr]]).
Qed.

Definition good (passphrase path : string) (s : t) (saved : gmap Z bytes) (fs : gmap string bytes) : Prop :=
  opened passphrase path s /\ holds passphrase path (with_keys saved s) fs.

Lemma holds_kept passphrase path s fs fs' : kept path fs fs' -> holds passphrase path s fs -> holds passphrase path s fs'.
Proof. unfold kept, holds. by intros ->. Qed.

Lemma history_good passphrase path s saved fs os s' saved' fs' :
  good passphrase path s saved fs -> history s saved fs os s' saved' fs' -> good passphrase path s' saved' fs'.
Proof.
  intros Hg Hh. induction Hh as [|s saved fs o tr s1 r fs1 os s2 saved2 fs2 Ho Hr Hw _ IH]; [done|]. apply IH. clear IH.
  destruct Hg as [Hop Hh]. destruct (always_runs _ _ _ _ (op_always _ _ o s Hop Ho) Hr) as (E & Hop1 & Hp). cbn [fst snd] in *.
  split; [done|]. pose proof (track_world _ _ _ _ _ (Hp fs) Hw) as Hf. cbn beta in Hf. destruct r; cbn [is_ok] in *.
  - rewrite (op_path _ _ _ Hop1) in Hf. by destruct s1.
  - rewrite (op_path _ _ _ Hop1) in Hf. rewrite E. exact (holds_kept _ _ _ _ _ Hf Hh).
Qed.

(** The reads that failed. *)
Definition failed_reads (tr : list (called KeyE)) : list error :=
  answered (fun Y e => match e in KeyE Y return Y -> list error with
                       | ReadFile _ => fun r => match r with Err e => [e] | Ok _ => [] end
                       | _ => fun _ => [] end) tr.

Definition reopen_post (passphrase path : string) (s : t) (tr : list (called KeyE)) (r : result t) : Prop :=
  forall fs fs', holds passphrase path s fs -> world fs tr fs' ->
    r = Ok s \/ failed_reads tr <> [].

Lemma reopen_always path passphrase s : always (NewSessionKeyStore path passphrase) (reopen_post passphrase path s).
Proof.
  unfold NewSessionKeyStore. cbn [bind always call]. intros st. destruct (is_not_exist st) eqn:Est.
  - apply always_intro. intros tr r _ fs fs' (data & Hd & _) (f1 & [Hst _] & _). specialize (Hst Est). congruence.
  - unfold try, wrap_err. cbn [bind always call]. intros [d|e]; cbn [bind always];
      intros fs fs' (data & Hd & Ho) (f1 & [_ ->] & f2 & [Hrd ->] & ->).
    + left. specialize (Hrd d eq_refl). congruence.
    + by right.
Qed.

(** C26. The session keys survive the process: open the store, run any
    operations on it, each of which may fail at any system call, and open the
    file again with the same passphrase; unless it cannot be read, the store
    that opens holds exactly the keys of the last operation that reported
    success, with the same salt and file key. And a crash of the process at any
    moment of a further operation leaves a file that opens to those keys. *)
Theorem reopened_store_has_its_keys path passphrase fs0 tr0 s fs os s' saved fs' :
  runs (NewSessionKeyStore path passphrase) tr0 (Ok s) -> world fs0 tr0 fs ->
  history s (keys s) fs os s' saved fs' ->
  (forall tr r fs'', runs (NewSessionKeyStore path passphrase) tr r -> world fs' tr fs'' ->
    r = Ok (with_keys saved s') \/ failed_reads tr <> []) /\
  (forall o tr1 c tr2 sr fs'', op_ok o -> runs (run_op o s') (tr1 ++ c :: tr2) sr -> world fs' tr1 fs'' ->
    holds passphrase path (with_keys saved s') fs'').
Proof.
  intros Hr0 Hw0 Hh. destruct (always_runs _ _ _ _ (opening_always path passphrase) Hr0 s eq_refl) as [Hop Hholds].
  assert (good passphrase path s (keys s) fs) as Hg by (split; [done|]; destruct s; by eapply Hholds).
  destruct (history_good _ _ _ _ _ _ _ _ _ Hg Hh) as [Hop' Hh']. split.
  - intros tr r fs'' Hr Hw. by eapply (always_runs _ _ _ _ (reopen_always path passphrase (with_keys saved s')) Hr).
  - intros o tr1 c tr2 sr fs'' Ho Hr Hw. destruct (always_runs _ _ _ _ (op_always _ _ o s' Hop' Ho) Hr) as (_ & Hop1 & Hp).
    specialize (Hp fs'). apply (track_during _ _ _ _ _ _ _ Hp) in Hw. rewrite (op_path _ _ _ Hop1) in Hw. by eapply holds_kept.
Qed.
End Store.

(** ** A concrete disk

    Values are packed as strings of bits; sealing packs the key in. *)
Fixpoint bits (p : positive) : string :=
  match p with
  | xH => EmptyString
  | xO p => String "0" (bits p)
  | xI p => String "1" (bits p)
  end.
Fixpoint unbits (s : string) : positive :=
  match s with
  | EmptyString => xH
  | String c s => if bool_decide (c = "0"%char) then xO (unbits s) else xI (unbits s)
  end.
Lemma unbits_bits p : unbits (bits p) = p.
Proof. induction p as [p IH|p IH|]; cbn; by rewrite ?IH. Qed.

Definition pack {A} `{Countable A} (a : A) : bytes := bits (encode a).
Definition unpack {A} `{Countable A} (b : bytes) : result A :=
  match decode (unbits b) with Some a => Ok a | None => Err (errorf "invalid JSON") end.
Lemma unpack_pack {A} `{Countable A} (a : A) : unpack (pack a) = Ok a.
Proof. unfold unpack, pack. by rewrite unbits_bits, decode_encode. Qed.

Definition plain_keys : KeyCodecs := {|
  b64 := fun b => b;
  unb64 := Ok;
  keyfile_json := fun f => Ok (pack (kf_Version f, kf_Salt f, kf_EncryptedKey f));
  parse_keyfile := fun b => match unpack b with Ok (v, s, k) => Ok (MkKeyFile v s k) | Err e => Err e end;
  session_json := fun f => Ok (pack (sf_Version f, sf_Salt f, sf_Data f));
  parse_session := fun b => match unpack b with Ok (v, s, d) => Ok (MkSessionFile v s d) | Err e => Err e end;
  keymap_json := fun m => Ok (pack m);
  parse_keymap := unpack;
  scrypt := fun passphrase salt => Ok (passphrase +:+ salt);
  Unseal := fun k c => match unpack c with
                       | Ok (k', p) => if bool_decide (k = k') then Ok p else Err (errorf "message authentication failed")
                       | Err e => Err e
                       end;
  NewPrivateKey := Ok;
|}.
Lemma plain_keys_laws : KeyCodecLaws plain_keys.
Proof. split; cbn; [done|..]; [intros [] d|intros [] d|intros m d]; intros [= <-]; by rewrite unpack_pack. Qed.
#[local] Existing Instance plain_keys.

(** The files, where renames fail while [stuck]. *)
Definition key_handler (stuck : bool) : handler KeyE (gmap string bytes) := fun X e fs =>
  match e in KeyE X return X * gmap string bytes with
  | Stat p => (match fs !! p with Some _ => Ok tt | None => Err (errors_New ErrNotExist "no such file") end, fs)
  | ReadFile p => (match fs !! p with Some d => Ok d | None => Err (errors_New ErrNotExist "no such file") end, fs)
  | MkdirAll _ | Chmod _ | Close _ => (Ok tt, fs)
  | CreateTemp p => (Ok (p +:+ "-" +:+ "1" +:+ ".tmp"), <[p +:+ "-" +:+ "1" +:+ ".tmp" := EmptyString]> fs)
  | Write f d => (Ok tt, <[f := d]> fs)
  | Rename old new =>
      match fs !! old with
      | Some b => if stuck then (Err (errorf "read-only file system"), fs) else (Ok tt, <[new := b]> (delete old fs))
      | None => (Err (errors_New ErrNotExist "no such file"), fs)
      end
  | Remove f => (tt, delete f fs)
  | RandRead _ => (Ok "salt"%string, fs)
  | GenerateKeyPair => (Ok "p256"%string, fs)
  | Seal k p => (Ok (pack (k, p)), fs)
  end.

Lemma key_handler_step stuck X (e : KeyE X) fs x fs' : key_handler stuck X e fs = (x, fs') -> world_step (Called e x) fs fs'.
Proof.
  destruct e; cbn; try (intros [= <- <-]; cbn; by eauto).
  - intros [= <- <-]. split; [|done]. by destruct (fs !! path) eqn:E; cbn.
  - intros [= <- <-]. split; [|done]. destruct (fs !! path); congruence.
  - destruct (fs !! old) as [b|] eqn:E; [destruct stuck|]; intros [= <- <-]; cbn; try done. by exists b.
  - intros [= <- <-]. split; [|done]. intros ct [= <-]. by rewrite unpack_pack, bool_decide_true.
Qed.

Lemma key_handler_world stuck A (p : prog KeyE A) : forall fs tr a fs',
  interp (key_handler stuck) p fs = ((tr, a), fs') -> world fs tr fs'.
Proof.
  induction p as [a0|X e k IH]; intros fs tr a fs'; cbn [interp]; [by intros [= <- <- <-]|].
  destruct (key_handler stuck X e fs) as [x fs1] eqn:E. destruct (interp _ (k x) fs1) as [[tr1 a1] fs2] eqn:Ei.
  intros [= <- <- <-]. exists fs1. split; [by eapply key_handler_step|by eapply IH].
Qed.

Lemma key_handler_run stuck A (p : prog KeyE A) fs :
  world fs (fst (fst (interp (key_handler stuck) p fs))) (snd (interp (key_handler stuck) p fs)).
Proof. destruct (interp (key_handler stuck) p fs) as [[tr a] fs'] eqn:E. by eapply key_handler_world. Qed.

Definition demo_open (fs : gmap string bytes) :=
  interp (key_handler false) (NewSessionKeyStore map_to_list "/keys" "secret") fs.
Definition demo_op (stuck : bool) (o : op) (s : t) (fs : gmap string bytes) := interp (key_handler stuck) (run_op o s) fs.

Definition demo_fs0 : gmap string bytes := snd (demo_open ∅).
Definition demo_s0 : t := MkStore ∅ "/keys" "secretsalt" "salt".
Definition demo_s1 : t := with_keys {[7 := "key7"%string]} demo_s0.
Definition demo_fs1 : gmap string bytes := snd (demo_op false (KeyStored 7 "key7") demo_s0 demo_fs0).
Definition demo_s2 : t := with_keys (<[8 := "key8"%string]> {[7 := "key7"%string]}) demo_s0.
Definition demo_fs2 : gmap string bytes := snd (demo_op true (KeyStored 8 "key8") demo_s1 demo_fs1).

Lemma demo_key_history : history demo_s0 ∅ demo_fs0 [KeyStored 7 "key7"; KeyStored 8 "key8"]
  demo_s2 {[7 := "key7"%string]} demo_fs2.
Proof.
  eapply (history_cons _ _ _ _ (fst (fst (demo_op false (KeyStored 7 "key7") demo_s0 demo_fs0))) demo_s1 (Ok tt) demo_fs1).
  { cbn. unfold is_u64, u64_max. lia. }
  { change (demo_s1, Ok tt) with (demo_s1, @Ok unit tt).
    replace (demo_s1, Ok tt) with (snd (fst (demo_op false (KeyStored 7 "key7") demo_s0 demo_fs0))) by (vm_compute; reflexivity).
    apply interp_run. }
  { exact (key_handler_run false _ (run_op (KeyStored 7 "key7") demo_s0) _). }
  eapply (history_cons _ _ _ _ (fst (fst (demo_op true (KeyStored 8 "key8") demo_s1 demo_fs1))) demo_s2
    (snd (snd (fst (demo_op true (KeyStored 8 "key8") demo_s1 demo_fs1)))) demo_fs2).
  { cbn. unfold is_u64, u64_max. lia. }
  { replace (demo_s2, _) with (snd (fst (demo_op true (KeyStored 8 "key8") demo_s1 demo_fs1))) by (vm_compute; reflexivity).
    apply interp_run. }
  { exact (key_handler_run true _ (run_op (KeyStored 8 "key8") demo_s1) _). }
  assert (is_ok (snd (snd (fst (demo_op true (KeyStored 8 "key8") demo_s1 demo_fs1)))) = false) as -> by (vm_compute; reflexivity).
  constructor.
Qed.

Lemma demo_open_world : world ∅ (fst (fst (demo_open ∅))) demo_fs0.
Proof.
  exact (key_handler_run false _ (NewSessionKeyStore map_to_list "/keys" "secret") _).
Qed.

Lemma demo_open_runs : runs (NewSessionKeyStore map_to_list "/keys" "secret") (fst (fst (demo_open ∅))) (Ok demo_s0).
Proof.
  replace (Ok demo_s0) with (snd (fst (demo_open ∅))) by (vm_compute; reflexivity). apply interp_run.
Qed.

(** The failed write of the second key is not remembered across a restart. *)
Lemma reopened_store_has_its_keys_witness :
  snd (fst (demo_open demo_fs2)) = Ok demo_s1.
Proof.
  destruct (reopened_store_has_its_keys map_to_list (KL := plain_keys_laws) (fun m => reflexivity _) "/keys" "secret" ∅
    (fst (fst (demo_open ∅))) demo_s0 demo_fs0 [KeyStored 7 "key7"; KeyStored 8 "key8"] demo_s2 {[7 := "key7"%string]} demo_fs2
    demo_open_runs demo_open_world demo_key_history) as [Hopen _].
  assert (world demo_fs2 (fst (fst (demo_open demo_fs2))) (snd (demo_open demo_fs2))) as Hw.
  { exact (key_handler_run false _ (NewSessionKeyStore map_to_list "/keys" "secret") _). }
  destruct (Hopen _ _ _ (interp_run (key_handler false) (NewSessionKeyStore map_to_list "/keys" "secret") demo_fs2) Hw) as [H|H];
    [exact H|]. destruct H. vm_compute. reflexivity.
Defined.

(** A job that stores a key after [ZeroAll] seals the file under the zeroed
    file key: with the right passphrase the next start cannot open it. *)
Example straggler_locks_the_store :
  let '((_, (z, _)), fs1) := interp (key_handler false) (ZeroAll demo_s1) demo_fs1 in
  let '((_, (_, r)), fs2) := demo_op false (KeyStored 9 "key9") z fs1 in
  r = Ok tt /\ snd (fst (demo_open fs1)) = Ok demo_s0 /\
  snd (fst (demo_open fs2)) = Err (wrap "decrypt session store (wrong passphrase?)" (errorf "message authentication failed")).
Proof. vm_compute. by repeat split. Qed.
End SessionKeyStore.
