(* ===== verification/Gateway.v ===== *)
(** The worker-gateway client: [internal/gateway]. [client.go] authenticates
    and posts, [stream.go] publishes frames over a websocket, [websocket.go]
    receives jobs over another; the publisher of gateway mode is in
    [internal/service/service.go]. *)
From S2P Require Import Prelude Effects GoText JobTypes Checkpoint JobCalls Stream.

#[local] Open Scope prog_scope.

(** [HeartbeatPayload]. *)
Record HeartbeatPayload : Type := MkHeartbeat {
  hb_ActiveJobs : Z;
  hb_MaxJobs : Z;
  hb_Models : list string;
  hb_Capabilities : list string;
  hb_ProtocolVersion : Z;
  hb_OllamaStatus : string;
  hb_Uptime : Z;
}.

(** The bodies the client posts. *)
Inductive gateway_body : Type :=
  | VerifyBody (message signature : string)
  | HeartbeatBody (h : HeartbeatPayload)
  | ResponseBody (sessionID seq totalChunks : Z) (payload : bytes) (signature correlationID : string)
  | NoBody.

(** [wsOutgoing]. *)
Record wsOutgoing : Type := MkOut { out_Type : string; out_JobID : Z; out_Slots : Z; out_Error : string }.
(** [wsIncoming], the payload still encoded. *)
Record wsIncoming : Type := MkIn { in_Type : string; in_JobID : Z; in_Payload : bytes }.

Section GatewayTypes.
Context `{AO : !AddressOps}.

(** [Keccak256] of a text, [time.Parse] of RFC 3339, the rendering of a
    duration, and [json.Unmarshal] of an incoming message and of its job. *)
Class GatewayCodecs := {
  KeccakText : string -> bytes;
  ParseRFC3339 : string -> result Z;
  FormatDuration : Z -> string;
  UnmarshalIncoming : bytes -> result wsIncoming;
  UnmarshalJob : bytes -> result JobPayload;
}.

(** [Token] and [SetToken] are the client's token under its lock, with its
    expiry; [Get] and [Post] answer with a status; [Messages] is what the
    socket delivers until a read fails; [Spawn] starts a goroutine and [Wait]
    waits for all of them. *)
Inductive GatewayE : Type -> Type :=
  | GwNow : GatewayE Z
  | Token : GatewayE (string * Z)
  | SetToken (token : string) (expiresAt : Z) : GatewayE unit
  | GwSign (hash : bytes) : GatewayE (result bytes)
  | MarshalBody (b : gateway_body) : GatewayE (result bytes)
  | Get (url token : string) : GatewayE (result Z)
  | Post (url : string) (body : bytes) (token : string) : GatewayE (result Z)
  | DecodeChallenge : GatewayE (result string)
  | DecodeAuth : GatewayE (result (string * string))
  | DecodeJob : GatewayE (result JobPayload)
  | ReadError : GatewayE unit
  | GwCloseBody : GatewayE unit
  | Connected : GatewayE bool
  | SetConnected (b : bool) : GatewayE unit
  | Enqueue (m : RedisResponsePublisher.PubSubMessage) : GatewayE bool
  | CtxDone : GatewayE bool
  | SleepOrDone (d : Z) : GatewayE bool
  | DialWS (url token : string) : GatewayE (result unit)
  | NextFrame : GatewayE (option RedisResponsePublisher.PubSubMessage)
  | MarshalFrame (m : RedisResponsePublisher.PubSubMessage) : GatewayE (result bytes)
  | WriteFrame (data : bytes) : GatewayE (result unit)
  | CloseWS : GatewayE unit
  | Messages : GatewayE (list bytes * error)
  | WriteWS (m : wsOutgoing) : GatewayE (result unit)
  | Spawn (jobID : Z) (job : JobPayload) : GatewayE unit
  | Wait : GatewayE unit
  | Handle (job : JobPayload) : GatewayE (result unit).
End GatewayTypes.

Module GatewayClient.
Section Client.
Context `{AO : !AddressOps} `{GC : !GatewayCodecs}.
(** [NewClient] trims the URL's trailing slashes. *)
Context (url : string).
Definition baseURL : string := trim_slashes url.

(** A status that is not the expected one, after its body was read. *)
Definition bad_status {A} (what : string) : prog GatewayE (result A) :=
  _ <- call ReadError ;; Ret (Err (errorf (what +:+ " failed"))).

(** The 65-byte signature with its last byte raised by 27. *)
Definition normalize_v (sig : bytes) : bytes :=
  let n := (String.length sig - 1)%nat in
  match String.get 64 sig with
  | Some v => String.substring 0 64 sig +:+
              String (Ascii.ascii_of_nat ((Ascii.nat_of_ascii v + 27) mod 256)) (String.substring 65 n sig)
  | None => sig
  end.

(** The prefix of EIP-191, between a byte 25 and a newline. *)
Definition eip191_prefix : string :=
  String (Ascii.ascii_of_nat 25) "Ethereum Signed Message:" +:+ String (Ascii.ascii_of_nat 10) EmptyString.

Definition Authenticate : prog GatewayE (result unit) :=
  _ <-? wrap_err "get challenge" (call (Get (baseURL +:+ "/api/auth/challenge") "")) ;;
  deferred
    (message <-? wrap_err "decode challenge" (call DecodeChallenge) ;;
     let hash := KeccakText (eip191_prefix +:+ FormatUint (Z.of_nat (String.length message)) +:+ message) in
     sig <-? wrap_err "sign challenge" (call (GwSign hash)) ;;
     b <- call (MarshalBody (VerifyBody message ("0x" +:+ EncodeToString (normalize_v sig)))) ;;
     let body := match b with Ok b => b | Err _ => EmptyString end in
     status <-? wrap_err "verify signature" (call (Post (baseURL +:+ "/api/auth/verify") body "")) ;;
     deferred
       (if negb (status =? 200) then bad_status "auth verify"
        else
          te <-? wrap_err "decode auth response" (call DecodeAuth) ;;
          expiry <- match ParseRFC3339 (snd te) with
                    | Ok t => Ret t
                    | Err _ => now <- call GwNow ;; Ret (now + 30 * Minute)
                    end ;;
          _ <- call (SetToken (fst te) expiry) ;;
          Ret (Ok tt)) (fun _ => call GwCloseBody)) (fun _ => call GwCloseBody).

Definition ensureAuth : prog GatewayE (result unit) :=
  te <- call Token ;;
  needsRefresh <- (if bool_decide (fst te = EmptyString) then Ret true
                   else now <- call GwNow ;; Ret (time_Sub (snd te) now <? 5 * Minute)) ;;
  if needsRefresh : bool then Authenticate else Ret (Ok tt).

Definition getToken : prog GatewayE string := te <- call Token ;; Ret (fst te).

(** What [SendHeartbeat], [SendDrain], [SendUndrain] and [PublishResponse] do
    once authenticated: post, and expect 204. *)
Definition post_expecting_no_content (what path : string) (body : bytes) : prog GatewayE (result unit) :=
  token <- getToken ;;
  status <-? wrap_err ("post " +:+ what) (call (Post (baseURL +:+ path) body token)) ;;
  deferred (if negb (status =? 204) then bad_status what else Ret (Ok tt)) (fun _ => call GwCloseBody).

Definition SendHeartbeat (payload : HeartbeatPayload) : prog GatewayE (result unit) :=
  _ <-? wrap_err "auth" ensureAuth ;;
  body <-? wrap_err "marshal heartbeat" (call (MarshalBody (HeartbeatBody payload))) ;;
  post_expecting_no_content "heartbeat" "/api/heartbeat" body.

Definition SendDrain : prog GatewayE (result unit) :=
  _ <-? wrap_err "auth" ensureAuth ;; post_expecting_no_content "drain" "/api/worker/drain" "".

Definition SendUndrain : prog GatewayE (result unit) :=
  _ <-? wrap_err "auth" ensureAuth ;; post_expecting_no_content "undrain" "/api/worker/undrain" "".

Definition PollJob (timeout : Z) : prog GatewayE (result (option JobPayload)) :=
  _ <-? wrap_err "auth" ensureAuth ;;
  token <- getToken ;;
  status <-? wrap_err "poll job" (call (Get (baseURL +:+ "/api/jobs/poll?timeout=" +:+ FormatDuration timeout) token)) ;;
  deferred
    (if status =? 204 then Ret (Ok None)
     else if negb (status =? 200) then bad_status "poll"
     else job <-? wrap_err "decode job payload" (call DecodeJob) ;; Ret (Ok (Some job)))
    (fun _ => call GwCloseBody).

Definition PublishResponse (jobID sessionID : Z) (correlationID signature : string) (payload : bytes)
    (sequence totalChunks : Z) : prog GatewayE (result unit) :=
  _ <-? wrap_err "auth" ensureAuth ;;
  body <-? wrap_err "marshal response"
    (call (MarshalBody (ResponseBody sessionID sequence totalChunks payload signature correlationID))) ;;
  post_expecting_no_content "response" ("/api/jobs/" +:+ FormatUint jobID +:+ "/response") body.

(** [gatewayResponsePublisher] of gateway mode: the terminal frame only; the
    flag is whether the failure is counted. *)
Definition gateway_PublishResponse (jobID sessionID : Z) (correlationID signature : string) (ciphertext : bytes)
    (totalFrames : Z) : prog GatewayE (result unit) :=
  let totalFrames := if totalFrames =? 0 then 1 else totalFrames in
  PublishResponse jobID sessionID correlationID signature ciphertext totalFrames totalFrames.
End Client.
End GatewayClient.

(** ** The frame stream *)
Module StreamPublisher.
Import RedisResponsePublisher.

Definition streamBufferSize : nat := 256.

(** [enqueue]: on the buffered channel, without blocking. *)
Definition enqueue (m : PubSubMessage) (q : list PubSubMessage) : bool * list PubSubMessage :=
  if bool_decide (length q < streamBufferSize)%nat then (true, q ++ [m]) else (false, q).

Section Publisher.
Context `{AO : !AddressOps} `{GC : !GatewayCodecs} `{FK : !FrameKinds}.
Context (url : string).

Definition PublishChunk (jobID sessionID : Z) (correlationID : string) (sequence : Z) (kind : string) (payload : bytes)
    : prog GatewayE unit :=
  now <- call GwNow ;;
  _ <- call (Enqueue (MkMsg MessageTypeChunk (Normalize kind) jobID sessionID sequence 0 payload "" correlationID (dur_secs now))) ;;
  Ret tt.

Definition PublishMetadata (jobID sessionID : Z) (correlationID : string) (payload : bytes) : prog GatewayE unit :=
  now <- call GwNow ;;
  _ <- call (Enqueue (MkMsg MessageTypeMetadata "" jobID sessionID 0 1 payload "" correlationID (dur_secs now))) ;;
  Ret tt.

(** [PublishError] only logs: the gateway's ingress takes no error frames. *)
Definition PublishError (jobID sessionID : Z) (correlationID : string) : prog GatewayE unit := Ret tt.

(** [PublishResponse]: on the queue while connected, over HTTP otherwise. *)
Definition PublishResponse (jobID sessionID : Z) (correlationID signature : string) (ciphertext : bytes) (totalFrames : Z)
    : prog GatewayE unit :=
  let totalFrames := if totalFrames =? 0 then 1 else totalFrames in
  connected <- call Connected ;;
  queued <- (if connected : bool then
               now <- call GwNow ;;
               call (Enqueue (MkMsg MessageTypeComplete "" jobID sessionID totalFrames totalFrames ciphertext signature
                 correlationID (dur_secs now)))
             else Ret false) ;;
  if queued : bool then Ret tt
  else
    _ <- GatewayClient.PublishResponse url jobID sessionID correlationID signature ciphertext totalFrames totalFrames ;;
    Ret tt.

Definition stream_url : string := Replace1 (GatewayClient.baseURL url) "http" "ws" +:+ "/api/stream/responses".

Definition dial : prog GatewayE (result unit) :=
  _ <-? wrap_err "auth" (GatewayClient.ensureAuth url) ;;
  token <- GatewayClient.getToken ;;
  call (DialWS stream_url token).

(** One turn of [pump]: whether it goes on. *)
Definition pump_once : prog GatewayE bool :=
  f <- call NextFrame ;;
  match f with
  | None => Ret false
  | Some msg =>
      d <- call (MarshalFrame msg) ;;
      match d with
      | Err _ => Ret true
      | Ok data => w <- call (WriteFrame data) ;; Ret (is_ok w)
      end
  end.
(** [pump], for as many turns as [fuel]. *)
Fixpoint pump (fuel : nat) : prog GatewayE unit :=
  match fuel with
  | O => Ret tt
  | S fuel => go <- pump_once ;; if go : bool then pump fuel else call CloseWS
  end.

(** One turn of [Run]'s loop: the next back-off, or that it is over. *)
Definition run_once (fuel : nat) (backoff : Z) : prog GatewayE (option Z) :=
  over <- call CtxDone ;;
  if over : bool then Ret None
  else
    conn <- dial ;;
    match conn with
    | Err _ =>
        cancelled <- call (SleepOrDone backoff) ;;
        if cancelled : bool then Ret None
        else Ret (Some (if backoff <? 30 * Second then backoff * 2 else backoff))
    | Ok _ =>
        _ <- call (SetConnected true) ;;
        _ <- pump fuel ;;
        _ <- call (SetConnected false) ;;
        Ret (Some Second)
    end.
(** [Run], for as many turns as [turns]. *)
Fixpoint Run (turns fuel : nat) (backoff : Z) : prog GatewayE unit :=
  match turns with
  | O => Ret tt
  | S turns =>
      next <- run_once fuel backoff ;;
      match next with Some b => Run turns fuel b | None => Ret tt end
  end.

(** *** Publishers and the connection loop at work

    A publisher's goroutine makes its calls one after the other. *)
Inductive publication : Type :=
  | PubChunk (jobID sessionID : Z) (correlationID : string) (sequence : Z) (kind : string) (payload : bytes)
  | PubMetadata (jobID sessionID : Z) (correlationID : string) (payload : bytes)
  | PubError (jobID sessionID : Z) (correlationID : string)
  | PubResponse (jobID sessionID : Z) (correlationID signature : string) (ciphertext : bytes) (totalFrames : Z).
Definition publish (x : publication) : prog GatewayE unit :=
  match x with
  | PubChunk j s c n k b => PublishChunk j s c n k b
  | PubMetadata j s c b => PublishMetadata j s c b
  | PubError j s c => PublishError j s c
  | PubResponse j s c sig ct n => PublishResponse j s c sig ct n
  end.
Fixpoint publish_all (xs : list publication) : prog GatewayE unit :=
  match xs with [] => Ret tt | x :: xs => _ <- publish x ;; publish_all xs end.

(** The frame of a publication, at a second. *)
Definition frame_of (x : publication) (sec : Z) : option PubSubMessage :=
  match x with
  | PubChunk j s c n k b => Some (MkMsg MessageTypeChunk (Normalize k) j s n 0 b "" c sec)
  | PubMetadata j s c b => Some (MkMsg MessageTypeMetadata "" j s 0 1 b "" c sec)
  | PubError _ _ _ => None
  | PubResponse j s c sig ct n => let n := if n =? 0 then 1 else n in Some (MkMsg MessageTypeComplete "" j s n n ct sig c sec)
  end.

(** The goroutines share the buffered channel and the flag; each call is one
    turn of one of them. A receive takes the oldest frame, when there is one
    and the select does not choose the end of the connection instead; with
    none, it waits. All else is answered by [answers]. *)
Definition answering : Type := forall X, GatewayE X -> X.
Record system : Type := MkSystem {
  frames : list PubSubMessage;
  connected : bool;
  threads : list (prog GatewayE unit);
  log : list (nat * called GatewayE);
}.
Definition respond (answers : answering) (q : list PubSubMessage) (up : bool) {X} (e : GatewayE X)
    : option (X * list PubSubMessage * bool) :=
  match e in GatewayE X return option (X * list PubSubMessage * bool) with
  | Enqueue m => let '(ok, q') := enqueue m q in Some (ok, q', up)
  | NextFrame =>
      match answers _ NextFrame, q with
      | None, _ => Some (None, q, up)
      | Some _, m :: q' => Some (Some m, q', up)
      | Some _, [] => None
      end
  | Connected => Some (up, q, up)
  | SetConnected b => Some (tt, q, b)
  | e => Some (answers _ e, q, up)
  end.
Definition turn (sys : system) (t : nat * answering) : system :=
  match threads sys !! t.1 with
  | Some (Vis e k) =>
      match respond t.2 (frames sys) (connected sys) e with
      | Some (x, q, up) => MkSystem q up (<[t.1 := k x]> (threads sys)) (log sys ++ [(t.1, Called e x)])
      | None => sys
      end
  | _ => sys
  end.
Definition calls (sys : system) : list (called GatewayE) := (log sys).*2.
Definition calls_of (i : nat) (sys : system) : list (called GatewayE) :=
  (filter (fun ic : nat * called GatewayE => ic.1 = i) (log sys)).*2.

(** What is put on the channel, with whether it was taken, and what the loop
    does with what it takes off. *)
Definition offered (tr : list (called GatewayE)) : list (PubSubMessage * bool) :=
  answered (fun Y e => match e in GatewayE Y return Y -> list (PubSubMessage * bool) with
                       | Enqueue m => fun ok => [(m, ok)] | _ => fun _ => [] end) tr.
Definition accepted (tr : list (called GatewayE)) : list PubSubMessage := (filter (fun mo => mo.2 = true) (offered tr)).*1.
Inductive pump_event : Type :=
  | Took (m : PubSubMessage)
  | Encoded (m : PubSubMessage) (r : result bytes)
  | Wrote (data : bytes) (r : result unit).
Definition pump_event_of Y (e : GatewayE Y) : Y -> list pump_event :=
  match e in GatewayE Y return Y -> list pump_event with
  | NextFrame => fun f => match f with Some m => [Took m] | None => [] end
  | MarshalFrame m => fun r => [Encoded m r]
  | WriteFrame data => fun r => [Wrote data r]
  | _ => fun _ => []
  end.
Definition pump_events (tr : list (called GatewayE)) : list pump_event := answered pump_event_of tr.
Definition taken_off (evs : list pump_event) : list PubSubMessage := omap (fun ev => match ev with Took m => Some m | _ => None end) evs.
(** What the socket took. *)
Definition socket (evs : list pump_event) : list bytes := omap (fun ev => match ev with Wrote d (Ok _) => Some d | _ => None end) evs.

Lemma pump_events_app tr tr' : pump_events (tr ++ tr') = pump_events tr ++ pump_events tr'.
Proof. apply answered_app. Qed.
Lemma accepted_app tr tr' : accepted (tr ++ tr') = accepted tr ++ accepted tr'.
Proof. unfold accepted, offered. by rewrite answered_app, filter_app, fmap_app. Qed.

(** *** What becomes of a frame *)
Inductive fate : Type := Sent (data : bytes) | WriteFailed | Unmarshallable | InHand.
Inductive pumped : list pump_event -> list (PubSubMessage * fate) -> Prop :=
  | pumped_nil : pumped [] []
  | pumped_took m : pumped [Took m] [(m, InHand)]
  | pumped_encoded m d : pumped [Took m; Encoded m (Ok d)] [(m, InHand)]
  | pumped_bad m e evs fs : pumped evs fs -> pumped (Took m :: Encoded m (Err e) :: evs) ((m, Unmarshallable) :: fs)
  | pumped_sent m d evs fs : pumped evs fs -> pumped (Took m :: Encoded m (Ok d) :: Wrote d (Ok tt) :: evs) ((m, Sent d) :: fs)
  | pumped_lost m d e evs fs : pumped evs fs ->
      pumped (Took m :: Encoded m (Ok d) :: Wrote d (Err e) :: evs) ((m, WriteFailed) :: fs).
Definition decided (fs : list (PubSubMessage * fate)) : Prop := Forall (fun mf => mf.2 <> InHand) fs.
Definition sent_data (mf : PubSubMessage * fate) : option bytes := match mf.2 with Sent d => Some d | _ => None end.
#[local] Hint Constructors pumped : core.

Lemma pumped_app evs fs evs' fs' : pumped evs fs -> decided fs -> pumped evs' fs' -> pumped (evs ++ evs') (fs ++ fs').
Proof. intros Hp Hd Hp'. induction Hp; inversion Hd; cbn; subst; auto; done. Qed.
Lemma pumped_taken evs fs : pumped evs fs -> taken_off evs = fs.*1.
Proof. induction 1; cbn; by f_equal. Qed.
Lemma pumped_socket evs fs : pumped evs fs -> socket evs = omap sent_data fs.
Proof. induction 1; cbn; by f_equal. Qed.
Lemma pumped_last evs fs fs1 m fs2 : pumped evs fs -> fs = fs1 ++ (m, InHand) :: fs2 -> fs2 = [].
Proof.
  intros Hp. revert fs1. induction Hp; intros [|x fs1] E; simplify_eq/=; try done; try (by destruct fs1); by eapply IHHp.
Qed.
Lemma pumped_evidence evs fs m f : pumped evs fs -> (m, f) ∈ fs ->
  match f with
  | Sent d => Encoded m (Ok d) ∈ evs /\ Wrote d (Ok tt) ∈ evs
  | WriteFailed => exists d e, Encoded m (Ok d) ∈ evs /\ Wrote d (Err e) ∈ evs
  | Unmarshallable => exists e, Encoded m (Err e) ∈ evs
  | InHand => True
  end.
Proof.
  induction 1 as [|m' |m' d|m' e evs fs Hp IH|m' d evs fs Hp IH|m' d e evs fs Hp IH]; intros Hin;
    [by apply elem_of_nil in Hin|by apply list_elem_of_singleton in Hin as [= <- ->]..| | |];
    (apply elem_of_cons in Hin as [[= <- ->]|Hin]; [set_solver|specialize (IH Hin)]); destruct f; set_solver.
Qed.

(** The loop deals with its frames one at a time. *)
Definition loop_part {A} (p : prog GatewayE A) : Prop :=
  throughout p (fun tr => exists fs, pumped (pump_events tr) fs) /\
  always p (fun tr _ => exists fs, pumped (pump_events tr) fs /\ decided fs).

Lemma loop_part_bind {A B} (p : prog GatewayE A) (f : A -> prog GatewayE B) :
  loop_part p -> (forall a, loop_part (f a)) -> loop_part (bind p f).
Proof.
  intros [Ht Ha] Hf. split.
  - apply throughout_bind; [exact Ht|]. eapply always_mono; [exact Ha|]. intros tr a (fs & Hp & Hd).
    eapply throughout_mono; [apply Hf|]. intros tr' (fs' & Hp'). exists (fs ++ fs'). rewrite pump_events_app. by apply pumped_app.
  - apply always_bind. eapply always_mono; [exact Ha|]. intros tr a (fs & Hp & Hd).
    eapply always_mono; [apply Hf|]. intros tr' b (fs' & Hp' & Hd'). exists (fs ++ fs').
    rewrite pump_events_app. split; [by apply pumped_app|by apply Forall_app].
Qed.

(** Nobody else takes frames off the channel. *)
Definition unpumped (X : Type) (e : GatewayE X) : Prop :=
  match e with NextFrame | MarshalFrame _ | WriteFrame _ => False | _ => True end.
Lemma unpumped_part {A} (p : prog GatewayE A) : uses unpumped p -> loop_part p.
Proof.
  intros Hp. assert (forall Y (e : GatewayE Y) y, unpumped Y e -> pump_event_of Y e y = []) as He by (by intros Y []).
  split.
  - eapply throughout_mono; [by apply (uses_throughout unpumped pump_event_of)|]. intros tr Htr. exists []. unfold pump_events. by rewrite Htr.
  - eapply always_mono; [by apply (uses_answered unpumped pump_event_of)|]. intros tr a Htr. exists []. unfold pump_events. rewrite Htr. by split; [|constructor].
Qed.

Lemma auth_unpumped : uses unpumped (GatewayClient.ensureAuth url).
Proof. unfold GatewayClient.ensureAuth, GatewayClient.Authenticate, GatewayClient.bad_status, try, wrap_err, deferred. use_calls; done. Qed.
Lemma post_unpumped what path body : uses unpumped (GatewayClient.post_expecting_no_content url what path body).
Proof. unfold GatewayClient.post_expecting_no_content, GatewayClient.getToken, GatewayClient.bad_status, try, wrap_err, deferred. use_calls; done. Qed.
Lemma publish_all_unpumped xs : uses unpumped (publish_all xs).
Proof.
  induction xs as [|x xs IH]; [done|]. cbn [publish_all]. apply uses_bind; [|intros _; exact IH].
  pose proof auth_unpumped. pose proof post_unpumped.
  destruct x; cbn [publish]; unfold PublishChunk, PublishMetadata, PublishError, PublishResponse, GatewayClient.PublishResponse, try, wrap_err; use_calls; done.
Qed.

Lemma pump_once_part : loop_part pump_once.
Proof.
  unfold pump_once. split; cbn.
  - split; [by exists []|]. intros [m|]; cbn; [|by repeat split; exists []]. split; [by exists [(m, InHand)]; constructor|].
    intros [d|e]; cbn.
    + split; [by exists [(m, InHand)]; constructor|]. intros [[]|e]; cbn; (split; [|done]).
      * exists [(m, Sent d)]. unfold pump_events. cbn. auto.
      * exists [(m, WriteFailed)]. unfold pump_events. cbn. auto.
    + split; [|done]. exists [(m, Unmarshallable)]. unfold pump_events. cbn. auto.
  - intros [m|]; cbn; [|exists []; split; [by constructor|by constructor]]. intros [d|e]; cbn.
    + intros [[]|e].
      * exists [(m, Sent d)]. split; [unfold pump_events; cbn; auto|by repeat constructor].
      * exists [(m, WriteFailed)]. split; [unfold pump_events; cbn; auto|by repeat constructor].
    + exists [(m, Unmarshallable)]. split; [unfold pump_events; cbn; auto|by repeat constructor].
Qed.
Lemma pump_part fuel : loop_part (pump fuel).
Proof.
  induction fuel as [|fuel IH]; cbn [pump]; [by apply unpumped_part|].
  apply loop_part_bind; [apply pump_once_part|]. intros [|]; [exact IH|]. by apply unpumped_part.
Qed.
Lemma run_once_part fuel b : loop_part (run_once fuel b).
Proof.
  unfold run_once. apply loop_part_bind; [by apply unpumped_part|]. intros [|]; [by apply unpumped_part|].
  apply loop_part_bind.
  { apply unpumped_part. pose proof auth_unpumped. unfold dial, GatewayClient.getToken, try, wrap_err. use_calls; done. }
  intros [u|e]; [|apply unpumped_part; use_calls; done].
  apply loop_part_bind; [by apply unpumped_part|]. intros _. apply loop_part_bind; [apply pump_part|]. intros _.
  apply unpumped_part. use_calls; done.
Qed.
Lemma Run_part turns fuel b : loop_part (Run turns fuel b).
Proof.
  revert b. induction turns as [|turns IH]; intros b; cbn [Run]; [by apply unpumped_part|].
  apply loop_part_bind; [apply run_once_part|]. intros [b'|]; [apply IH|]. by apply unpumped_part.
Qed.

(** *** The invariant of the shared channel *)
Definition start (ps : list (prog GatewayE unit)) : system := MkSystem [] false ps [].
Record stream_inv (ps : list (prog GatewayE unit)) (sys : system) : Prop := {
  si_runs i p : ps !! i = Some p -> exists q, threads sys !! i = Some q /\ reaches p (calls_of i sys) q;
  si_known : Forall (fun ic : nat * called GatewayE => is_Some (ps !! ic.1)) (log sys);
  si_threads : length (threads sys) = length ps;
  si_order : accepted (calls sys) = taken_off (pump_events (calls sys)) ++ frames sys;
  si_bound : (length (frames sys) <= streamBufferSize)%nat;
}.

Lemma respond_order answers q up X (e : GatewayE X) x q' up' : respond answers q up e = Some (x, q', up') ->
  (length q <= streamBufferSize)%nat ->
  q ++ accepted [Called e x] = taken_off (pump_events [Called e x]) ++ q' /\ (length q' <= streamBufferSize)%nat.
Proof.
  intros E Hl. destruct e; cbn in E; simplify_eq; try (split; [by rewrite app_nil_r|done]).
  - destruct (enqueue m q) as [ok q1] eqn:Eq. simplify_eq. unfold enqueue in Eq. case_bool_decide; simplify_eq; cbn.
    + rewrite length_app. cbn. split; [done|lia].
    + by rewrite app_nil_r.
  - destruct (answers _ NextFrame), q; simplify_eq; cbn in *; rewrite ?app_nil_r; (split; [done|lia]).
Qed.

Lemma calls_of_snoc i j c fr up th l :
  calls_of i (MkSystem fr up th (l ++ [(j, c)])) = calls_of i (MkSystem fr up th l) ++ if bool_decide (i = j) then [c] else [].
Proof.
  unfold calls_of. cbn [log]. rewrite filter_app, fmap_app. f_equal. rewrite filter_cons, filter_nil. cbn [fst].
  case_decide; case_bool_decide; subst; done.
Qed.

Lemma turn_inv ps sys t : stream_inv ps sys -> stream_inv ps (turn sys t).
Proof.
  intros [Hr Hk Hl Ho Hb]. unfold turn. destruct t as [i answers]. cbn [fst snd].
  destruct (threads sys !! i) as [[u|X e k]|] eqn:Et; try by split.
  destruct (respond answers (frames sys) (connected sys) e) as [[[x q] up]|] eqn:Er; [|by split].
  destruct (respond_order _ _ _ _ _ _ _ _ Er Hb) as [Hq Hb']. split; cbn [threads frames log].
  - intros j p Hp. destruct (Hr j p Hp) as (q0 & Hq0 & Hreach). rewrite calls_of_snoc. case_bool_decide as Hij.
    + subst j. exists (k x). rewrite list_lookup_insert_eq by (by eapply lookup_lt_Some). split; [done|].
      apply reaches_snoc. assert (Some q0 = Some (Vis e k)) as [= ->] by (by rewrite <- Hq0). exact Hreach.
    + exists q0. rewrite list_lookup_insert_ne by done. rewrite app_nil_r. by split.
  - apply Forall_app. split; [done|]. apply Forall_singleton. cbn. apply lookup_lt_is_Some. rewrite <- Hl. by eapply lookup_lt_Some.
  - by rewrite length_insert.
  - unfold calls in *. cbn [log]. rewrite fmap_app, accepted_app, pump_events_app. unfold taken_off in *. rewrite omap_app, Ho, <- !app_assoc.
    f_equal. exact Hq.
  - exact Hb'.
Qed.
Lemma turns_inv ps ts : stream_inv ps (foldl turn (start ps) ts).
Proof.
  assert (stream_inv ps (start ps)) as H0.
  { split; cbn; try done; [|lia]. intros i p Hp. exists p. split; [done|constructor]. }
  revert H0. generalize (start ps). induction ts as [|t ts IH]; intros sys H0; [done|]. apply IH. by apply turn_inv.
Qed.
(** The loop, thread 0, is alone at the other end of the channel. *)
Definition running (turns fuel : nat) (backoff : Z) (xss : list (list publication)) : list (prog GatewayE unit) :=
  Run turns fuel backoff :: (publish_all <$> xss).

Lemma pump_alone turns fuel b xss sys : stream_inv (running turns fuel b xss) sys ->
  pump_events (calls sys) = pump_events (calls_of 0 sys).
Proof.
  intros [Hr Hk _ _ _]. assert (forall i c, (i, c) ∈ log sys -> i <> 0%nat -> pump_events [c] = []) as Hq.
  { intros i c Hin Hi. rewrite Forall_forall in Hk. destruct (Hk _ Hin) as [p Hp]. cbn [fst] in Hp.
    destruct (Hr i p Hp) as (q & _ & Hreach). destruct i as [|i]; [done|].
    change ((publish_all <$> xss) !! i = Some p) in Hp. apply list_lookup_fmap_Some in Hp as (xs & -> & _).
    destruct (uses_reaches unpumped _ _ _ Hreach (publish_all_unpumped xs)) as [Hf _]. rewrite Forall_forall in Hf.
    specialize (Hf c). destruct c as [X e x]. destruct e; try done; destruct Hf; unfold calls_of; apply list_elem_of_fmap;
      eexists (_, _); (split; [reflexivity|]); apply list_elem_of_filter; (split; [|exact Hin]); done. }
  clear Hr Hk. unfold calls, calls_of. induction (log sys) as [|[i c] l IH]; [done|]. rewrite fmap_cons, filter_cons. cbn [fst snd].
  change (c :: l.*2) with ([c] ++ l.*2). rewrite pump_events_app, IH by (intros; eapply Hq; [by right|done]).
  case_decide as Hi; [rewrite fmap_cons; cbn [snd]; by rewrite <- pump_events_app|].
  rewrite (Hq i c) by (done || left). done.
Qed.

(** A publisher offers its frames in the order of its calls. *)
Definition untimed (m : PubSubMessage) : PubSubMessage :=
  MkMsg (Type_ m) (Kind m) (JobID m) (SessionID m) (Sequence m) (TotalChunks m) (Payload m) (Signature m) (CorrelationID m) 0.
Definition offers (xs : list publication) (tr : list (called GatewayE)) : Prop :=
  untimed <$> (offered tr).*1 `sublist_of` omap (fun x => frame_of x 0) xs.

Definition unoffering (X : Type) (e : GatewayE X) : Prop := match e with Enqueue _ => False | _ => True end.
Lemma fallback_unoffering j s c sig ct n m : uses unoffering (GatewayClient.PublishResponse url j s c sig ct n m).
Proof.
  unfold GatewayClient.PublishResponse, GatewayClient.ensureAuth, GatewayClient.Authenticate, GatewayClient.post_expecting_no_content,
    GatewayClient.getToken, GatewayClient.bad_status, try, wrap_err, deferred. use_calls; done.
Qed.
Lemma unoffering_none {A} (p : prog GatewayE A) : uses unoffering p ->
  throughout p (fun tr => offered tr = []) /\ always p (fun tr _ => offered tr = []).
Proof.
  intros Hp. split; [apply (uses_throughout unoffering)|apply (uses_answered unoffering)]; try done; by intros Y [].
Qed.

Lemma offers_more xs tr tr' : offers xs tr -> offered tr' = [] -> offers xs (tr ++ tr').
Proof. unfold offers, offered. intros Ht Hn. rewrite answered_app, Hn. by rewrite app_nil_r. Qed.
Lemma offers_none xs tr : offered tr = [] -> offers xs tr.
Proof. unfold offers. intros ->. apply sublist_nil_l. Qed.

Definition publishes (x : publication) (p : prog GatewayE unit) (tr0 : list (called GatewayE)) : Prop :=
  throughout p (fun tr => offers [x] (tr0 ++ tr)) /\ always p (fun tr _ => offers [x] (tr0 ++ tr)).
Lemma publishes_quiet x p tr0 : offers [x] tr0 -> uses unoffering p -> publishes x p tr0.
Proof.
  intros H0 Hp. destruct (unoffering_none p Hp) as [Ht Ha].
  split; [eapply throughout_mono; [exact Ht|]|eapply always_mono; [exact Ha|]]; intros; by apply offers_more.
Qed.
Lemma publishes_call x {X} (e : GatewayE X) k tr0 : offers [x] tr0 ->
  (forall y, publishes x (k y) (tr0 ++ [Called e y])) -> publishes x (Vis e k) tr0.
Proof.
  intros H0 Hk. split; [split; [by rewrite app_nil_r|]|]; intros y; destruct (Hk y) as [Ht Ha];
    [eapply throughout_mono; [exact Ht|]|eapply always_mono; [exact Ha|]]; intros; by rewrite cons_middle, app_assoc.
Qed.
Lemma publish_offers x : publishes x (publish x) [].
Proof.
  destruct x as [j s c n k b|j s c b|j s c|j s c sig ct n]; cbn [publish];
    unfold PublishChunk, PublishMetadata, PublishError, PublishResponse; cbn [bind call].
  1, 2: apply publishes_call; [by apply offers_none|]; intros t; apply publishes_call; [by apply offers_none|]; intros ok;
    (apply publishes_quiet; [|done]); unfold offers; cbn; done.
  - apply publishes_quiet; [by apply offers_none|done].
  - assert (forall tr0, offers [PubResponse j s c sig ct n] tr0 -> publishes (PubResponse j s c sig ct n)
      (_ <- GatewayClient.PublishResponse url j s c sig ct (if n =? 0 then 1 else n) (if n =? 0 then 1 else n) ;; Ret tt) tr0) as Hf.
    { intros tr0 H0. apply publishes_quiet; [exact H0|]. apply uses_bind; [apply fallback_unoffering|done]. }
    apply publishes_call; [by apply offers_none|]. intros [|]; cbn [bind]; [|by apply Hf, offers_none].
    apply publishes_call; [by apply offers_none|]. intros t. apply publishes_call; [by apply offers_none|].
    intros [|]; cbn [bind]; [apply publishes_quiet; [|done]|apply Hf]; unfold offers; cbn; done.
Qed.
Lemma offers_app xs ys tr tr' : offers xs tr -> offers ys tr' -> offers (xs ++ ys) (tr ++ tr').
Proof. unfold offers, offered. intros H1 H2. rewrite answered_app, !fmap_app, omap_app. by apply sublist_app. Qed.
Lemma publish_all_offers xs : throughout (publish_all xs) (offers xs).
Proof.
  induction xs as [|x xs IH]; cbn [publish_all]; [split; [apply offers_none|]; done|].
  destruct (publish_offers x) as [Ht Ha]. apply throughout_bind.
  - eapply throughout_mono; [exact Ht|]. intros tr Htr. rewrite <- (app_nil_r tr).
    apply (offers_app [x]); [exact Htr|]. by apply offers_none.
  - eapply always_mono; [exact Ha|]. intros tr [] Htr. eapply throughout_mono; [exact IH|]. intros tr'. by apply (offers_app [x]).
Qed.

(** [PublishResponse] queues its frame and is done, or, when the socket is
    down or the channel full, posts it. *)
Definition response_post (j s : Z) (c sig : string) (ct : bytes) (n : Z) (tr : list (called GatewayE)) : Prop :=
  let m := if n =? 0 then 1 else n in
  let frame sec := MkMsg MessageTypeComplete "" j s m m ct sig c sec in
  (exists t, tr = [Called Connected true; Called GwNow t; Called (Enqueue (frame (dur_secs t))) true]) \/
  (exists tr1 tr2 r, tr = tr1 ++ tr2 /\ runs (GatewayClient.PublishResponse url j s c sig ct m m) tr2 r /\
    (tr1 = [Called Connected false] \/
     exists t, tr1 = [Called Connected true; Called GwNow t; Called (Enqueue (frame (dur_secs t))) false])).
Lemma PublishResponse_always j s c sig ct n : always (PublishResponse j s c sig ct n) (fun tr _ => response_post j s c sig ct n tr).
Proof.
  unfold PublishResponse. set (m := if n =? 0 then 1 else n). unfold response_post. fold m. cbn [bind call always].
  assert (forall tr2, runs (_ <- GatewayClient.PublishResponse url j s c sig ct m m ;; Ret tt) tr2 tt ->
    exists r, runs (GatewayClient.PublishResponse url j s c sig ct m m) tr2 r) as Hf.
  { intros tr2 (tr1 & r & tr3 & -> & Hr & [-> _]%runs_ret_inv)%runs_bind. exists r. by rewrite app_nil_r. }
  intros [|]; cbn [bind always]; [intros t [|]; cbn [bind always]; [left; by exists t|]|];
    apply always_intro; intros tr [] [r Hr]%Hf; right.
  - exists [Called Connected true; Called GwNow t; Called (Enqueue (MkMsg MessageTypeComplete "" j s m m ct sig c (dur_secs t))) false], tr, r.
    split; [done|]. split; [exact Hr|]. right. by exists t.
  - exists [Called Connected false], tr, r. split; [done|]. split; [exact Hr|]. by left.
Qed.

Lemma accepted_offered tr : accepted tr `sublist_of` (offered tr).*1.
Proof. apply fmap_sublist, sublist_filter. Qed.
Lemma calls_of_accepted i sys : accepted (calls_of i sys) `sublist_of` accepted (calls sys).
Proof.
  unfold calls_of, calls. induction (log sys) as [|[j c] l IH]; [done|]. rewrite filter_cons, fmap_cons. cbn [fst snd].
  change (c :: l.*2) with ([c] ++ l.*2). rewrite accepted_app. case_decide; [|by apply sublist_inserts_l].
  rewrite fmap_cons. cbn [snd]. match goal with |- accepted (c :: ?k) `sublist_of` _ => change (c :: k) with ([c] ++ k) end.
  rewrite accepted_app. by apply sublist_app.
Qed.

(** What the gateway gets of it all: the frames taken off the channel, in
    order, with what became of each. *)
Record stream_post (xss : list (list publication)) (sys : system) (fs : list (PubSubMessage * fate)) : Prop := {
  sp_order : accepted (calls sys) = fs.*1 ++ frames sys;
  sp_socket : socket (pump_events (calls sys)) = omap sent_data fs;
  sp_fate m f : (m, f) ∈ fs ->
    match f with
    | Sent d => Encoded m (Ok d) ∈ pump_events (calls sys)
    | WriteFailed => exists d e, Encoded m (Ok d) ∈ pump_events (calls sys) /\ Wrote d (Err e) ∈ pump_events (calls sys)
    | Unmarshallable => exists e, Encoded m (Err e) ∈ pump_events (calls sys)
    | InHand => exists fs1, fs = fs1 ++ [(m, InHand)]
    end;
  sp_bound : (length (frames sys) <= streamBufferSize)%nat;
  sp_publisher i xs : xss !! i = Some xs ->
    accepted (calls_of (S i) sys) `sublist_of` accepted (calls sys) /\
    untimed <$> accepted (calls_of (S i) sys) `sublist_of` omap (fun x => frame_of x 0) xs;
}.

(** C27. The stream keeps the order of the frames it takes. Let the connection
    loop and any publishers, each making its calls one after the other, take
    turns call by call in any way, with any answers of the node, the clock, the
    encoder and the socket: the frames accepted on the channel are, in order,
    those the loop has taken off and those still on it, at most 256; of those
    taken off, the socket has taken the encodings of some, in the same order
    and each once, and each of the others failed to encode, or was lost with
    the write that broke its connection, or is the last and still in hand; and
    what is accepted from one publisher is, in order, some of what it
    published. A terminal frame is either put on the channel or, when the
    socket is down or the channel full, posted over HTTP, never both: only then
    can it arrive ahead of frames still on the channel (see
    [fallback_overtakes]). *)
Theorem frames_keep_their_order turns fuel backoff xss ts :
  let sys := foldl turn (start (running turns fuel backoff xss)) ts in
  (exists fs, stream_post xss sys fs) /\
  (forall j s c sig ct n tr u, runs (PublishResponse j s c sig ct n) tr u -> response_post j s c sig ct n tr).
Proof.
  intros sys. split; [|intros * Hr; exact (always_runs _ _ _ _ (PublishResponse_always _ _ _ _ _ _) Hr)].
  pose proof (turns_inv (running turns fuel backoff xss) ts) as Hinv. fold sys in Hinv.
  pose proof (pump_alone _ _ _ _ _ Hinv) as Hal. destruct Hinv as [Hr _ _ Ho Hb].
  destruct (Hr 0%nat _ eq_refl) as (q & _ & Hreach).
  destruct (throughout_reaches _ _ _ _ (proj1 (Run_part turns fuel backoff)) Hreach) as [fs Hp]. rewrite <- Hal in Hp.
  exists fs. split.
  - by rewrite Ho, (pumped_taken _ _ Hp).
  - by apply pumped_socket.
  - intros m f Hin. pose proof (pumped_evidence _ _ _ _ Hp Hin) as He. destruct f; [by destruct He|done|done|].
    apply list_elem_of_split in Hin as (fs1 & fs2 & E). exists fs1. by rewrite E, (pumped_last _ _ _ _ _ Hp E).
  - exact Hb.
  - intros i xs Hxs. split; [apply calls_of_accepted|].
    destruct (Hr (S i) (publish_all xs)) as (q' & _ & Hreach').
    { change ((publish_all <$> xss) !! i = Some (publish_all xs)). by rewrite list_lookup_fmap, Hxs. }
    etrans; [|exact (throughout_reaches _ _ _ _ (publish_all_offers xs) Hreach')]. apply fmap_sublist, accepted_offered.
Qed.
End Publisher.

(** ** A run: two chunks, the second lost with its connection, and a third
    that the terminal frame overtakes *)
#[local] Existing Instance plain_addresses.
#[local] Instance plain_codecs : @GatewayCodecs plain_addresses :=
  @Build_GatewayCodecs plain_addresses (fun s => s) (fun _ => Ok 0) (fun _ => EmptyString)
    (fun _ => Err (errorf "unexpected")) (fun _ => Err (errorf "unexpected")).
#[local] Instance plain_kinds : FrameKinds :=
  {| FrameKindText := "text"; FrameKindReasoning := "reasoning"; FrameKindArtifact := "artifact";
     FrameKindAudio := "audio"; FrameKindStats := "stats"; Normalize k := k |}.

(** Everything works, but that writing succeeds only when [up]. *)
Definition plain_answers (up : bool) : answering := fun X e =>
  match e in GatewayE X return X with
  | GwNow => 0
  | Token => ("jwt"%string, 10 * Hour)
  | Get _ _ | Post _ _ _ => Ok 204
  | NextFrame => Some (MkMsg MessageTypeChunk "" 0 0 0 0 "" "" "" 0)
  | MarshalFrame m => Ok (Payload m)
  | WriteFrame _ => if up then Ok tt else Err (errorf "broken pipe")
  | DialWS _ _ | WriteWS _ | Handle _ => Ok tt
  | GwSign _ | MarshalBody _ | DecodeChallenge => Ok EmptyString
  | DecodeAuth => Ok (EmptyString, EmptyString)
  | DecodeJob => Err (errorf "unexpected")
  | Messages => ([], errorf "EOF")
  | Enqueue _ | CtxDone | SleepOrDone _ | Connected => false
  | SetToken _ _ | ReadError | GwCloseBody | SetConnected _ | CloseWS | Spawn _ _ | Wait => tt
  end.
Definition demo_publishers : list (list publication) :=
  [[PubChunk 7 3 "c" 1 "text" "one"; PubChunk 7 3 "c" 2 "text" "two"]; [PubChunk 7 3 "c" 3 "text" "three"; PubResponse 7 3 "c" "sig" "all" 4]]%string.
Definition turns_of (n i : nat) (up : bool) : list (nat * answering) := replicate n (i, plain_answers up).
Definition demo_turns : list (nat * answering) :=
  turns_of 4 1 true ++ turns_of 9 0 true ++ turns_of 5 0 false ++ turns_of 9 2 true ++ turns_of 9 0 true.
Definition demo_system : system := foldl turn (start (running "http://gw" 2 8 Second demo_publishers)) demo_turns.

(** What reaches the gateway, over the socket or by a post. *)
Definition arrivals (tr : list (called GatewayE)) : list string :=
  answered (fun Y e => match e in GatewayE Y return Y -> list string with
                       | WriteFrame d => fun r => if is_ok r then [d] else []
                       | Post _ _ _ => fun r => if is_ok r then ["response"%string] else []
                       | _ => fun _ => [] end) tr.
Example fallback_overtakes :
  Payload <$> accepted (calls demo_system) = ["one"; "two"; "three"]%string /\
  arrivals (calls demo_system) = ["one"; "response"; "three"]%string.
Proof. vm_compute. done. Qed.

Lemma frames_keep_their_order_witness :
  (exists fs, stream_post demo_publishers demo_system fs) /\
  (exists t, calls_of 1 demo_system = [Called GwNow t; Called (Enqueue (MkMsg MessageTypeChunk "text" 7 3 1 0 "one" "" "c" 0)) true;
     Called GwNow t; Called (Enqueue (MkMsg MessageTypeChunk "text" 7 3 2 0 "two" "" "c" 0)) true]).
Proof.
  split; [exact (proj1 (frames_keep_their_order "http://gw" 2 8 Second demo_publishers demo_turns))|]. exists 0. vm_compute. done.
Defined.
End StreamPublisher.

(** ** The job stream *)
Module JobStream.
Section Stream.
Context `{AO : !AddressOps} `{GC : !GatewayCodecs}.
Context (url : string).

Definition wsTypeReady : string := "ready".
Definition wsTypeAck : string := "ack".
Definition wsTypeDone : string := "done".
Definition wsTypeJob : string := "job".

Definition jobs_url : string :=
  Replace1 (Replace1 (GatewayClient.baseURL url) "http://" "ws://") "https://" "wss://" +:+ "/api/jobs/stream".

(** A job a message carries, if it carries one. *)
Definition job_of (data : bytes) : option (Z * JobPayload) :=
  match UnmarshalIncoming data with
  | Err _ => None
  | Ok msg =>
      if negb (bool_decide (in_Type msg = wsTypeJob)) then None
      else match UnmarshalJob (in_Payload msg) with Err _ => None | Ok job => Some (in_JobID msg, job) end
  end.

Definition ack (jobID : Z) : wsOutgoing := MkOut wsTypeAck jobID 0 "".

(** The read loop of [streamOnce]; the last error is why reading ended. *)
Fixpoint receive (msgs : list bytes) (readErr : error) : prog GatewayE error :=
  match msgs with
  | [] => _ <- call Wait ;; _ <- call CloseWS ;; Ret (wrap "read" readErr)
  | data :: msgs =>
      match job_of data with
      | None => receive msgs readErr
      | Some (jobID, job) =>
          w <- call (WriteWS (ack jobID)) ;;
          match w with
          | Err e => _ <- call Wait ;; _ <- call CloseWS ;; Ret (wrap "send ack for job" e)
          | Ok _ => _ <- call (Spawn jobID job) ;; receive msgs readErr
          end
      end
  end.

Definition streamOnce (maxConcurrentJobs : Z) : prog GatewayE (bool * error) :=
  a <- wrap_err "auth" (GatewayClient.ensureAuth url) ;;
  match a with
  | Err e => Ret (false, e)
  | Ok _ =>
      token <- GatewayClient.getToken ;;
      d <- wrap_err "websocket dial" (call (DialWS jobs_url token)) ;;
      match d with
      | Err e => Ret (false, e)
      | Ok _ =>
          w <- call (WriteWS (MkOut wsTypeReady 0 maxConcurrentJobs "")) ;;
          match w with
          | Err e => _ <- call CloseWS ;; Ret (true, wrap "send ready" e)
          | Ok _ => ms <- call Messages ;; e <- receive (fst ms) (snd ms) ;; Ret (true, e)
          end
      end
  end.

(** The goroutine of a job. *)
Definition done (jobID : Z) (r : result unit) : wsOutgoing :=
  MkOut wsTypeDone jobID 0 (match r with Err e => err_msg e | Ok _ => EmptyString end).
Definition process (jobID : Z) (job : JobPayload) : prog GatewayE unit :=
  r <- call (Handle job) ;;
  _ <- call (WriteWS (done jobID r)) ;;
  Ret tt.

(** One turn of [StreamJobs]: the next back-off, or that it is over. *)
Definition stream_turn (maxConcurrentJobs backoff : Z) : prog GatewayE (option Z) :=
  over <- call CtxDone ;;
  if over : bool then Ret None
  else
    ce <- streamOnce maxConcurrentJobs ;;
    over <- call CtxDone ;;
    if over : bool then Ret None
    else
      let backoff := if fst ce : bool then Second else backoff in
      cancelled <- call (SleepOrDone backoff) ;;
      if cancelled : bool then Ret None
      else Ret (Some (if 30 * Second <? backoff * 2 then 30 * Second else backoff * 2)).

(** *** What a session does *)
Inductive event : Type :=
  | Acked (jobID : Z) (sent : bool)
  | Started (jobID : Z) (job : JobPayload)
  | Waited
  | Closed.
Definition event_of Y (e : GatewayE Y) : Y -> list event :=
  match e in GatewayE Y return Y -> list event with
  | WriteWS m => fun r => if bool_decide (out_Type m = wsTypeAck) then [Acked (out_JobID m) (is_ok r)] else []
  | Spawn jobID job => fun _ => [Started jobID job]
  | Wait => fun _ => [Waited]
  | CloseWS => fun _ => [Closed]
  | _ => fun _ => []
  end.
Definition events (tr : list (called GatewayE)) : list event := answered event_of tr.
Definition inbox (tr : list (called GatewayE)) : list (list bytes) :=
  answered (fun Y e => match e in GatewayE Y return Y -> list (list bytes) with
                       | Messages => fun me => [fst me] | _ => fun _ => [] end) tr.

Definition started (ij : Z * JobPayload) : list event := [Acked (fst ij) true; Started (fst ij) (snd ij)].

(** The jobs received become, one by one, an acknowledgement and a goroutine,
    until one cannot be acknowledged; then the session waits for them all. *)
Definition receive_post (msgs : list bytes) (tr : list (called GatewayE)) (e : error) : Prop :=
  exists taken left tail, omap job_of msgs = taken ++ left /\ events tr = flat_map started taken ++ tail /\
    match left with
    | [] => tail = [Waited; Closed]
    | (jobID, _) :: _ => tail = [Acked jobID false; Waited; Closed]
    end.

Lemma receive_always msgs e : always (receive msgs e) (receive_post msgs).
Proof.
  induction msgs as [|data msgs IH]; cbn [receive].
  { walk. exists [], [], [Waited; Closed]. done. }
  destruct (job_of data) as [[jobID job]|] eqn:Ej.
  2: { eapply always_mono; [exact IH|]. intros tr x (t & l & tl & Ho & He & Ht). exists t, l, tl. cbn. by rewrite Ej. }
  cbn [bind always call]. intros [[]|we]; cbn [bind always call].
  - intros []. eapply always_mono; [exact IH|]. intros tr x (t & l & tl & Ho & He & Ht).
    exists ((jobID, job) :: t), l, tl. cbn [omap list_omap]. rewrite Ej, Ho. split; [done|]. split; [|done].
    transitivity (started (jobID, job) ++ events tr); [done|]. by rewrite He, app_assoc.
  - intros [] []. exists [], ((jobID, job) :: omap job_of msgs), [Acked jobID false; Waited; Closed].
    cbn [omap list_omap]. by rewrite Ej.
Qed.

(** What authenticating does not do. *)
Definition quiet_call (X : Type) (e : GatewayE X) : Prop :=
  match e with WriteWS _ | Spawn _ _ | Wait | CloseWS | Messages => False | _ => True end.

Lemma auth_quiet : uses quiet_call (GatewayClient.ensureAuth url).
Proof.
  unfold GatewayClient.ensureAuth, GatewayClient.Authenticate, GatewayClient.bad_status, try, wrap_err, deferred. use_calls; done.
Qed.

Lemma quiet_events A (p : prog GatewayE A) : uses quiet_call p -> always p (fun tr _ => events tr = [] /\ inbox tr = []).
Proof. intros Hp. apply always_conj; apply (uses_answered quiet_call); try done; by intros Y []. Qed.

Record session_post (tr : list (called GatewayE)) (r : bool * error) : Prop := {
  se_none : inbox tr = [] -> events tr = [] \/ events tr = [Closed];
  se_some msgs : inbox tr = [msgs] -> fst r = true /\ receive_post msgs tr (snd r);
  se_once : (length (inbox tr) <= 1)%nat;
}.

Lemma session_app tr0 tr r : events tr0 = [] -> inbox tr0 = [] -> session_post tr r -> session_post (tr0 ++ tr) r.
Proof.
  intros He Hi [H1 H2 H3]. assert (events (tr0 ++ tr) = events tr /\ inbox (tr0 ++ tr) = inbox tr) as [Ev Ei].
  { unfold events, inbox in *. by rewrite !answered_app, He, Hi. }
  split; rewrite ?Ev, ?Ei; [done| |done]. intros msgs Hm. destruct (H2 msgs Hm) as [Hf (t & l & tl & Ho & Hev & Ht)].
  split; [done|]. exists t, l, tl. by rewrite Ev.
Qed.

Lemma receive_inbox msgs re : always (receive msgs re) (fun tr _ => inbox tr = []).
Proof.
  apply (uses_answered (fun X e => match e with Messages => False | _ => True end)); [|by intros Y []].
  induction msgs as [|d msgs IH]; cbn [receive]; [cbn; by repeat (split; [done|intros _])|].
  destruct (job_of d) as [[]|]; [|exact IH]. cbn. split; [done|]. intros [?|?]; cbn; (split; [done|]); intros _; [exact IH|by split].
Qed.

Lemma streamOnce_always n : always (streamOnce n) session_post.
Proof.
  unfold streamOnce, wrap_err, GatewayClient.getToken. apply always_bind, always_bind.
  eapply always_mono; [apply quiet_events, auth_quiet|]. intros tr0 [[]|e] [He Hi]; cbn [always].
  2: { rewrite !app_nil_r. split; [by left|by rewrite Hi|rewrite Hi; cbn; lia]. }
  cbn [bind always call]. intros [tok ex]. cbn [bind always call fst].
  assert (forall tr1 r, session_post tr1 r -> session_post ((tr0 ++ []) ++ tr1) r) as Happ.
  { intros. rewrite app_nil_r. by apply session_app. }
  intros [[]|e]; cbn [bind always call].
  2: { apply Happ. split; [by left|done|cbn; lia]. }
  intros [[]|e]; cbn [bind always call].
  2: { intros []. apply Happ. split; [by right|done|cbn; lia]. }
  intros [msgs re]. cbn [fst snd]. apply always_bind.
  eapply always_mono; [apply always_conj; [apply receive_always|apply receive_inbox]|].
  intros tr e ((t & l & tl & Ho & Hev & Ht) & Hn). cbn [always fst snd]. rewrite app_nil_r.
  set (hd := [Called Token (tok, ex); Called (DialWS jobs_url tok) (Ok tt);
              Called (WriteWS (MkOut wsTypeReady 0 n "")) (Ok tt); Called Messages (msgs, re)]).
  change (_ :: _ :: _ :: _ :: tr) with (hd ++ tr).
  assert (events (hd ++ tr) = events tr /\ inbox (hd ++ tr) = [msgs]) as [Ev Ei].
  { unfold events, inbox in *. rewrite !answered_app, Hn. done. }
  rewrite ?app_nil_r. apply (session_app tr0 (hd ++ tr)); [done|done|]. split; rewrite ?Ev, ?Ei; [done| |cbn; lia].
  intros msgs' [= <-]. split; [done|]. exists t, l, tl. by rewrite Ev.
Qed.

(** C28. A job received over the gateway's socket is acknowledged and then
    started, once, in the order received: a session that came up turns the
    messages it was given, those that are not a job or do not parse skipped,
    one by one into an acknowledgement that was sent and a goroutine for that
    very job, up to the first that cannot be acknowledged, which is not
    started; and it closes the socket only after waiting for all of them. A
    session that did not come up starts nothing. Each goroutine runs the
    handler once and then reports it done under the job's id, with the
    handler's error if there was one. *)
Theorem jobs_are_acked_then_run n tr r : runs (streamOnce n) tr r ->
  (inbox tr = [] -> events tr = [] \/ events tr = [Closed]) /\
  (forall msgs, inbox tr = [msgs] -> fst r = true /\ receive_post msgs tr (snd r)) /\
  (length (inbox tr) <= 1)%nat /\
  (forall jobID job, always (process jobID job) (fun tr' _ => exists res w,
     tr' = [Called (Handle job) res; Called (WriteWS (done jobID res)) w])).
Proof.
  intros Hr. destruct (always_runs _ _ _ _ (streamOnce_always n) Hr) as [H1 H2 H3]. split; [done|]. split; [done|].
  split; [done|]. intros jobID job. cbn. eauto.
Qed.
End Stream.

(** ** A session: a message that is no job, two jobs, the second's
    acknowledgement failing *)
#[local] Existing Instance plain_addresses.
Definition plain_job (id : Z) : @JobPayload plain_addresses :=
  MkJobPayload id 3 ("c"%string : @Address plain_addresses) ("w"%string : @Address plain_addresses) "m" 5 10 0 "" [].
Definition plain_gateway : @GatewayCodecs plain_addresses :=
  @Build_GatewayCodecs plain_addresses (fun s => s) (fun _ => Ok 0) (fun _ => EmptyString)
    (fun b => if bool_decide (b = "hello")%string then Ok (MkIn "hello" 0 "") else Ok (MkIn "job" (Z.of_nat (String.length b)) b))
    (fun b => Ok (plain_job (Z.of_nat (String.length b)))).
#[local] Existing Instance plain_gateway.

Definition demo_socket : handler GatewayE unit := fun X e w =>
  match e in GatewayE X return X * unit with
  | Token => (("jwt"%string, 10 * Hour), tt)
  | GwNow => (0, tt)
  | DialWS _ _ => (Ok tt, tt)
  | WriteWS m => (if bool_decide (out_JobID m = 2) then Err (errorf "broken pipe") else Ok tt, tt)
  | Messages => ((["hello"; "x"; "xx"; "xxx"]%string, errorf "EOF"), tt)
  | SetToken _ _ | ReadError | GwCloseBody | SetConnected _ | CloseWS | Spawn _ _ | Wait => (tt, tt)
  | Connected | Enqueue _ | CtxDone | SleepOrDone _ => (false, tt)
  | NextFrame => (None, tt)
  | _ => (Err (errorf "unexpected"), tt)
  end.
Definition demo_session : list (called GatewayE) * (bool * error) :=
  fst (interp demo_socket (streamOnce "http://gw" 4) tt).

Example demo_session_events :
  events demo_session.1 = [Acked 1 true; Started 1 (plain_job 1); Acked 2 false; Waited; Closed].
Proof. vm_compute. reflexivity. Qed.

Lemma jobs_are_acked_then_run_witness :
  exists taken left, taken ++ left = [(1, plain_job 1); (2, plain_job 2); (3, plain_job 3)] /\
    exists tail, events demo_session.1 = flat_map started taken ++ tail.
Proof.
  destruct (jobs_are_acked_then_run "http://gw" 4 demo_session.1 demo_session.2
    (interp_run demo_socket (streamOnce "http://gw" 4) tt)) as (_ & Hs & _).
  destruct (Hs ["hello"; "x"; "xx"; "xxx"]%string) as (_ & t & l & tl & Ho & He & _); [vm_compute; reflexivity|].
  exists t, l. split; [rewrite <- Ho; vm_compute; reflexivity|by exists tl].
Defined.
End JobStream.
