(* ===== verification/Registration.v ===== *)
(** The worker's registration, [internal/registration]: what the operator's
    [register] does on chain, the check of the sidecar at startup, and the
    synchronisation of the declared capabilities. *)
From S2P Require Import Prelude Effects Checkpoint JobCalls.

#[local] Open Scope prog_scope.

(** [RegistrationClient] and [ValidationClient]; [*big.Int] results that are
    checked for nil are options. *)
Inductive RegE : Type -> Type :=
  | IsWorkerRegistered : RegE (result bool)
  | GetWorkerEncryptionKey : RegE (result bytes)
  | GetMinWorkerStake : RegE (result (option Z))
  | RegisterWorker (key : bytes) (stake : Z) : RegE (result unit)
  | AddSupportedModel (modelID : Z) : RegE (result unit)
  | DeregisterWorker : RegE (result unit)
  | GetCapabilityMask (name : string) : RegE (result Z)
  | GetWorkerCapabilities : RegE (result Z)
  | SetCapabilities (mask : Z) : RegE (result unit).

Definition P256UncompressedPubKeyLength : Z := 65.
Definition P256UncompressedPrefix : Z := 4.

Definition byte_at (i : nat) (b : bytes) : option Z := (fun c => Z.of_nat (Ascii.nat_of_ascii c)) <$> String.get i b.

Definition validateEncryptionPubKey (key : bytes) : result unit :=
  if negb (Z.of_nat (String.length key) =? P256UncompressedPubKeyLength) then Err (errorf "encryption pubkey must be 65 bytes")
  else if negb (bool_decide (byte_at 0 key = Some P256UncompressedPrefix))
  then Err (errorf "encryption pubkey must start with 0x04 prefix") else Ok tt.

Definition key_mismatch : error :=
  errorf "local ECDH public key does not match on-chain key - deregister and re-register to reset".

Module RegistrationManager.

(** [RegistrationManager]: the models to register. *)
Record t : Type := MkManager { modelIDs : list Z }.

(** The loop over the models; the first failure rolls the registration back. *)
Fixpoint add_models (modelIDs : list Z) : prog RegE (result unit) :=
  match modelIDs with
  | [] => Ret (Ok tt)
  | modelID :: modelIDs =>
      r <- call (AddSupportedModel modelID) ;;
      match r with
      | Ok _ => add_models modelIDs
      | Err e =>
          let modelErr := wrap "add supported model" e in
          rollback <- call DeregisterWorker ;;
          Ret (Err (match rollback with
                    | Ok _ => modelErr
                    | Err rollbackErr => join modelErr (wrap "rollback deregister" rollbackErr)
                    end))
      end
  end.

(** The stake to register with: the operator's, or the contract's minimum. *)
Definition resolve_stake (stake : option Z) : prog RegE (result Z) :=
  stake <-? match stake with
            | Some stake => Ret (Ok stake)
            | None =>
                minStake <-? wrap_err "query min worker stake" (call GetMinWorkerStake) ;;
                Ret (match minStake with
                     | Some minStake =>
                         if minStake <=? 0 then Err (errorf "min worker stake from contract is nil or non-positive")
                         else Ok minStake
                     | None => Err (errorf "min worker stake from contract is nil or non-positive")
                     end)
            end ;;
  Ret (if stake <=? 0 then Err (errorf "stake must be positive") else Ok stake).

Definition EnsureRegistered (m : t) (ecdhPubKey : bytes) (stake : option Z) : prog RegE (result unit) :=
  match validateEncryptionPubKey ecdhPubKey with
  | Err e => Ret (Err (wrap "invalid encryption pubkey" e))
  | Ok _ =>
      registered <-? wrap_err "check registration status" (call IsWorkerRegistered) ;;
      if registered : bool then
        onChainKey <-? wrap_err "fetch on-chain encryption key" (call GetWorkerEncryptionKey) ;;
        Ret (if bool_decide (onChainKey = ecdhPubKey) then Ok tt else Err key_mismatch)
      else
        stake <-? resolve_stake stake ;;
        _ <-? wrap_err "register worker" (call (RegisterWorker ecdhPubKey stake)) ;;
        add_models (modelIDs m)
  end.

Definition Deregister : prog RegE (result unit) := wrap_err "deregister worker" (call DeregisterWorker).

(** [RegistrationValidator.Validate]. *)
Definition Validate (ecdhPubKey : bytes) : prog RegE (result unit) :=
  registered <-? wrap_err "check registration status" (call IsWorkerRegistered) ;;
  if negb registered then Ret (Err (errorf "worker is not registered on-chain")) else
  onChainKey <-? wrap_err "fetch on-chain encryption key" (call GetWorkerEncryptionKey) ;;
  Ret (if bool_decide (onChainKey = ecdhPubKey) then Ok tt else Err key_mismatch).

(** ** Capabilities *)
Definition SelfContainedCapability : string := "self-contained".
Definition SearchCapability : string := "search".

Definition DesiredCapabilities (search : bool) : list string :=
  SelfContainedCapability :: (if search then [SearchCapability] else []).

(** The masks of the wanted names, and whether every lookup succeeded. *)
Fixpoint resolve_masks (names : list string) (want : Z) (resolvedAll : bool) : prog RegE (Z * bool) :=
  match names with
  | [] => Ret (want, resolvedAll)
  | name :: names =>
      r <- call (GetCapabilityMask name) ;;
      match r with
      | Err _ => resolve_masks names want false
      | Ok mask => resolve_masks names (if mask =? 0 then want else Z.lor want mask) resolvedAll
      end
  end.

Definition EnsureCapabilities (names : list string) : prog RegE unit :=
  wr <- resolve_masks names 0 true ;;
  r <- call GetWorkerCapabilities ;;
  match r with
  | Err _ => Ret tt
  | Ok current =>
      let target := if snd wr then fst wr else Z.lor current (fst wr) in
      if target =? current then Ret tt
      else _ <- call (SetCapabilities target) ;; Ret tt
  end.

(** ** The chain behind the calls

    The worker's entry in the registry and its declared capabilities, once
    every transaction sent so far is decided. A transaction that returned no
    error took effect; one that returned an error may have been refused, have
    reverted, or have been mined after its sender gave up waiting, so it took
    effect or did not. The account's nonces keep its transactions in order. *)
Record registration : Type := MkReg { reg_key : bytes; reg_stake : Z; reg_models : list Z }.
Record account : Type := MkAccount { entry : option registration; caps : Z }.

Definition took_effect (r : result unit) (a b a' : account) : Prop :=
  match r with Ok _ => a' = b | Err _ => a' = a \/ a' = b end.

(** The effect of a call on the account, and what its answer says of it;
    [mask_of] is the contract's registry of capability names. *)
Definition chain_step (mask_of : string -> Z) (c : called RegE) (a a' : account) : Prop :=
  match c with
  | Called e x =>
      match e in RegE X return X -> Prop with
      | IsWorkerRegistered => fun r => (forall b, r = Ok b -> b = bool_decide (is_Some (entry a))) /\ a' = a
      | GetWorkerEncryptionKey => fun r => (forall k, r = Ok k -> reg_key <$> entry a = Some k) /\ a' = a
      | GetMinWorkerStake => fun _ => a' = a
      | RegisterWorker k s => fun r => took_effect r a (MkAccount (Some (MkReg k s [])) (caps a)) a'
      | AddSupportedModel m => fun r =>
          took_effect r a (MkAccount ((fun g => MkReg (reg_key g) (reg_stake g) (reg_models g ++ [m])) <$> entry a) (caps a)) a'
      | DeregisterWorker => fun r => took_effect r a (MkAccount None (caps a)) a'
      | GetCapabilityMask name => fun r => (forall mask, r = Ok mask -> mask = mask_of name) /\ a' = a
      | GetWorkerCapabilities => fun r => (forall mask, r = Ok mask -> mask = caps a) /\ a' = a
      | SetCapabilities mask => fun r => took_effect r a (MkAccount (entry a) mask) a'
      end x
  end.

Fixpoint chain (mask_of : string -> Z) (a : account) (tr : list (called RegE)) (a' : account) : Prop :=
  match tr with
  | [] => a' = a
  | c :: tr => exists a1, chain_step mask_of c a a1 /\ chain mask_of a1 tr a'
  end.

Section Chain.
Context (mask_of : string -> Z).

Lemma chain_app a tr1 tr2 a' : chain mask_of a (tr1 ++ tr2) a' -> exists a1, chain mask_of a tr1 a1 /\ chain mask_of a1 tr2 a'.
Proof.
  revert a. induction tr1 as [|c tr1 IH]; intros a; cbn; [by eauto|]. intros (a1 & Hs & Hc).
  destruct (IH a1 Hc) as (a2 & H1 & H2). exists a2. split; [by exists a1|done].
Qed.

(** The answers a rollback got. *)
Definition rollback_of Y (e : RegE Y) : Y -> list (result unit) :=
  match e with DeregisterWorker => fun r => [r] | _ => fun _ => [] end.
Definition rollbacks (tr : list (called RegE)) : list (result unit) := answered rollback_of tr.

(** What [a'] is when the models [ms] were to be added to [g]: some of them
    were, and the rollback returned an error. *)
Definition added (g : registration) (ms : list Z) : registration := MkReg (reg_key g) (reg_stake g) (reg_models g ++ ms).
Definition stranded (g : registration) (c : Z) (ms : list Z) (tr : list (called RegE)) (a' : account) : Prop :=
  exists e ms1 ms2, rollbacks tr = [Err e] /\ ms = ms1 ++ ms2 /\ a' = MkAccount (Some (added g ms1)) c.

Definition models_post (ms : list Z) (tr : list (called RegE)) (r : result unit) : Prop :=
  forall g c a', chain mask_of (MkAccount (Some g) c) tr a' ->
  match r with
  | Ok _ => a' = MkAccount (Some (added g ms)) c
  | Err _ => a' = MkAccount None c \/ stranded g c ms tr a'
  end.

Lemma add_models_always ms : always (add_models ms) (models_post ms).
Proof.
  induction ms as [|m ms IH]; cbn [add_models bind always call].
  { intros g c a' Hc. cbn in Hc. subst a'. unfold added. rewrite app_nil_r. by destruct g. }
  intros [[]|e]; cbn [bind always].
  - eapply always_mono; [exact IH|]. intros tr r Hp g c a' (a1 & Hs & Hc). cbn in Hs. subst a1. cbn in Hc.
    specialize (Hp _ _ _ Hc). destruct r as [[]|].
    + subst a'. unfold added. cbn. by rewrite <- app_assoc.
    + destruct Hp as [Hp|(e' & ms1 & ms2 & Hr & -> & ->)]; [by left|right]. exists e', (m :: ms1), ms2.
      split; [exact Hr|]. split; [done|]. unfold added. cbn. by rewrite <- app_assoc.
  - intros rb g c a' (a1 & Hs & a2 & Hs' & Hc). cbn in Hc. subst a2.
    assert (exists ms1 ms2, m :: ms = ms1 ++ ms2 /\ a1 = MkAccount (Some (added g ms1)) c) as (ms1 & ms2 & Em & ->).
    { destruct Hs as [->| ->]; [exists [], (m :: ms)|exists [m], ms]; (split; [done|]); unfold added; cbn; [rewrite app_nil_r|]; by destruct g. }
    destruct rb as [[]|e']; [by left|]. destruct Hs' as [->| ->]; [right|by left]. by exists e', ms1, ms2.
Qed.

(** What a registration that failed leaves: nothing, or an entry with some of
    the models because registering, or the rollback, returned an error. *)
Definition nothing_or_stranded (m : t) (key : bytes) (tr : list (called RegE)) (a a' : account) : Prop :=
  a' = a \/ entry a = None /\ exists s ms1 ms2, modelIDs m = ms1 ++ ms2 /\ a' = MkAccount (Some (MkReg key s ms1)) (caps a) /\
    ((ms1 = [] /\ exists e, Called (RegisterWorker key s) (Err e) ∈ tr) \/ (exists e, rollbacks tr = [Err e])).

Definition ensure_post (m : t) (key : bytes) (stake : option Z) (tr : list (called RegE)) (r : result unit) : Prop :=
  forall a a', chain mask_of a tr a' ->
  match r with
  | Ok _ => reg_key <$> entry a = Some key /\ a' = a \/
      entry a = None /\ exists s, 0 < s /\ (forall s', stake = Some s' -> s = s') /\
        a' = MkAccount (Some (MkReg key s (modelIDs m))) (caps a)
  | Err _ => nothing_or_stranded m key tr a a'
  end.

(** A call that was answered without an error. *)
Definition answered_ok (c : called RegE) : Prop :=
  match c with
  | Called e x =>
      match e in RegE X return X -> Prop with
      | IsWorkerRegistered => fun r => is_ok r = true
      | GetWorkerEncryptionKey => fun r => is_ok r = true
      | GetMinWorkerStake => fun r => is_ok r = true
      | RegisterWorker _ _ | AddSupportedModel _ | DeregisterWorker | SetCapabilities _ => fun r => is_ok r = true
      | GetCapabilityMask _ | GetWorkerCapabilities => fun r => is_ok r = true
      end x
  end.

(** Calls that read. *)
Definition reads (X : Type) (e : RegE X) : Prop :=
  match e with RegisterWorker _ _ | AddSupportedModel _ | DeregisterWorker | SetCapabilities _ => False | _ => True end.

Lemma chain_reads tr a a' : Forall (called_in reads) tr -> chain mask_of a tr a' -> a' = a.
Proof.
  intros Hq. revert a. induction Hq as [|[X e x] tr Hc _ IH]; intros a; cbn [chain]; [done|].
  intros (a1 & Hs & Hc'). rewrite (IH _ Hc'). destruct e; cbn in Hs; try done; tauto.
Qed.

Lemma reads_roll_nothing tr : Forall (called_in reads) tr -> answered rollback_of tr = [].
Proof. induction 1 as [|[X e x] tr He _ IH]; [done|]. cbn. unfold answered in IH. rewrite IH. by destruct e. Qed.

Lemma stake_always stake : always (resolve_stake stake) (fun tr r => Forall (called_in reads) tr /\
  forall s, r = Ok s -> 0 < s /\ forall s', stake = Some s' -> s = s').
Proof.
  unfold resolve_stake, wrap_err. destruct stake; walk; (split; [repeat constructor|]); intros s H; try (by case_match);
    repeat case_match; simplify_eq; reflect_Z; split; try lia; by intros ? [= ->].
Qed.

Lemma ensure_always m key stake : always (EnsureRegistered m key stake) (ensure_post m key stake).
Proof.
  unfold EnsureRegistered, wrap_err. destruct (validateEncryptionPubKey key) as [u|e0].
  2: { intros a a' Hc. cbn in Hc. subst a'. by left. }
  cbn. intros [[]|e]; cbn.
  3: { intros a a' Hc. left. by eapply chain_reads; [|exact Hc]; repeat constructor. }
  - intros [k|e]; cbn; intros a a' Hc; (assert (a' = a) as -> by (eapply chain_reads; [|exact Hc]; repeat constructor)).
    + case_bool_decide; [left|by left]. destruct Hc as (a1 & [_ ->] & a2 & [Hk _] & _). split; [|done]. rewrite (Hk _ eq_refl). by subst.
    + by left.
  - apply always_bind. eapply always_mono; [apply stake_always|]. intros tr0 [s|e] [Hq Hs]; cbn.
    2: { intros a a' (a1 & [_ ->] & Hc). left. rewrite app_nil_r in Hc. by eapply chain_reads. }
    destruct (Hs s eq_refl) as [Hp Hgiven].
    assert (forall a b, false = bool_decide (is_Some (entry a)) -> chain mask_of a tr0 b -> b = a /\ entry a = None) as Hfresh.
    { intros a b Hb H0. apply chain_reads in H0 as ->; [|done]. split; [done|]. symmetry in Hb. apply bool_decide_eq_false in Hb.
      destruct (entry a); [exfalso; by apply Hb|done]. }
    intros [[]|e]; cbn.
    2: { intros a a' (a1 & [Hb ->] & Hc). apply chain_app in Hc as (a2 & H0 & (a3 & H3 & H4)).
         destruct (Hfresh _ _ (Hb _ eq_refl) H0) as [-> Hn]. cbn in H3, H4. subst a'. destruct H3 as [->| ->]; [by left|right].
         split; [done|]. exists s, [], (modelIDs m). split; [done|]. split; [done|]. left. split; [done|]. exists e. set_solver. }
    eapply always_mono; [apply add_models_always|]. intros tr r Hm a a' (a1 & [Hb ->] & Hc).
    apply chain_app in Hc as (a2 & H0 & (a3 & H3 & H4)). destruct (Hfresh _ _ (Hb _ eq_refl) H0) as [-> Hn].
    cbn in H3. subst a3. specialize (Hm _ _ _ H4). destruct r as [[]|e]; cbn in Hm.
    + right. split; [done|]. exists s. done.
    + destruct Hm as [->|(e' & ms1 & ms2 & Hr & E1 & E2)]; [left; destruct a; cbn in *; by subst|right]. split; [done|].
      exists s, ms1, ms2. split; [done|]. split; [exact E2|]. right. exists e'.
      set (start := [Called IsWorkerRegistered (Ok false)]). set (sent := [Called (RegisterWorker key s) (Ok tt)]).
      change (answered rollback_of (start ++ tr0 ++ sent ++ tr) = [Err e']). unfold rollbacks in Hr.
      by rewrite !answered_app, (reads_roll_nothing tr0 Hq).
Qed.

Definition validate_post (key : bytes) (tr : list (called RegE)) (r : result unit) : Prop :=
  Forall (called_in reads) tr /\ forall a a', chain mask_of a tr a' ->
    (r = Ok tt -> reg_key <$> entry a = Some key) /\
    (reg_key <$> entry a = Some key -> Forall answered_ok tr -> r = Ok tt).

Lemma validate_always key : always (Validate key) (validate_post key).
Proof.
  unfold Validate, wrap_err. walk; (split; [repeat constructor|]); intros a' a'' (a1 & [Hb ->] & Hc);
    repeat match goal with H : chain _ _ (_ :: _) _ |- _ => destruct H as (? & [Hk ->] & _) end;
    (split; [|intros Ha Hok]); try done; try (by repeat match goal with H : Forall _ (_ :: _) |- _ => inversion_clear H end).
  - specialize (Hb _ eq_refl). apply negb_true_iff in Heqb as ->. symmetry in Hb. apply bool_decide_eq_false in Hb.
    destruct (entry a'); [destruct Hb; eauto|done].
  - intros H. case_bool_decide; [|done]. subst. by apply Hk.
  - specialize (Hk _ eq_refl). rewrite Ha in Hk. injection Hk as ->. by rewrite bool_decide_eq_true_2.
Qed.

(** C29. What registering leaves on chain. [EnsureRegistered] succeeds either
    having sent nothing, because the worker is registered under this very key,
    with whatever models that entry has, or having entered the worker under a
    well-formed key, with a positive stake, the operator's if one was given,
    and with every model. When it fails the account is as it was, or the worker
    is entered under this key with a first part of the models, and then either
    the registration or its rollback returned an error: an error can also come
    of a transaction that was mined after the wait for it was given up. The
    sidecar's check at startup accepts no other key, and accepts the account of
    a successful registration whenever its reads succeed; neither it nor a
    later registration looks at the models of an entry it finds
    ([stranded_registration_passes]). *)
Theorem registration_outcomes m key stake a tr r a' :
  runs (EnsureRegistered m key stake) tr r -> chain mask_of a tr a' ->
  match r with
  | Ok _ => (reg_key <$> entry a = Some key /\ a' = a \/
      entry a = None /\ exists s, 0 < s /\ (forall s', stake = Some s' -> s = s') /\
        a' = MkAccount (Some (MkReg key s (modelIDs m))) (caps a)) /\
      String.length key = 65%nat /\ byte_at 0 key = Some P256UncompressedPrefix
  | Err _ => nothing_or_stranded m key tr a a'
  end /\
  (forall key' tr' r' a'', runs (Validate key') tr' r' -> chain mask_of a' tr' a'' -> a'' = a' /\
    (r' = Ok tt -> reg_key <$> entry a' = Some key') /\
    (r = Ok tt -> key' = key -> Forall answered_ok tr' -> r' = Ok tt)).
Proof.
  intros Hr Hc. assert (always (EnsureRegistered m key stake) (fun _ r => r = Ok tt -> validateEncryptionPubKey key = Ok tt)) as Hv.
  { unfold EnsureRegistered. destruct (validateEncryptionPubKey key) as [[]|]; [|done]. apply always_intro. done. }
  pose proof (always_runs _ _ _ _ Hv Hr) as Hkey. pose proof (always_runs _ _ _ _ (ensure_always m key stake) Hr a a' Hc) as Hp. split.
  - destruct r as [[]|]; [|exact Hp]. split; [exact Hp|]. specialize (Hkey eq_refl). unfold validateEncryptionPubKey in Hkey.
    repeat case_match; try done. reflect_Z. unfold P256UncompressedPubKeyLength in *. split; [lia|done].
  - intros key' tr' r' a'' Hr' Hc'. destruct (always_runs _ _ _ _ (validate_always key') Hr') as [Hq Hv'].
    split; [by eapply chain_reads|]. destruct (Hv' _ _ Hc') as [H1 H2]. split; [exact H1|]. intros -> ->. apply H2.
    destruct Hp as [[? ->]|(_ & s & _ & _ & ->)]; done.
Qed.

(** ** Capabilities *)

(** The lookups of a trace, by name, and the masks declared. *)
Definition lookup_of Y (e : RegE Y) : Y -> list (string * bool) :=
  match e with GetCapabilityMask name => fun r => [(name, is_ok r)] | _ => fun _ => [] end.
Definition lookups (tr : list (called RegE)) : list (string * bool) := answered lookup_of tr.
Definition declaration_of Y (e : RegE Y) : Y -> list Z :=
  match e with SetCapabilities mask => fun _ => [mask] | _ => fun _ => [] end.
Definition declarations (tr : list (called RegE)) : list Z := answered declaration_of tr.

Definition masks (names : list string) : Z := foldr Z.lor 0 (mask_of <$> names).
Definition resolved (ls : list (string * bool)) : list string := fst <$> filter (fun l => snd l = true) ls.

Definition masks_post (names : list string) (want : Z) (resolvedAll : bool) (tr : list (called RegE)) (r : Z * bool) : Prop :=
  Forall (called_in reads) tr /\ fst <$> lookups tr = names /\ declarations tr = [] /\
  snd r = resolvedAll && forallb snd (lookups tr) /\
  forall a a', chain mask_of a tr a' -> fst r = Z.lor want (masks (resolved (lookups tr))).

Lemma masks_always names want all : always (resolve_masks names want all) (masks_post names want all).
Proof.
  revert want all. induction names as [|name names IH]; intros want all; cbn [resolve_masks bind always call].
  { split; [constructor|]. cbn. rewrite andb_true_r. repeat split. intros. by rewrite Z.lor_0_r. }
  intros [mask|e]; (eapply always_mono; [apply IH|]); intros tr r (Hq & Hn & Hd & Hall & Hw);
    (split; [by constructor|]); unfold lookups, declarations in *; rewrite (answered_cons lookup_of), (answered_cons declaration_of); cbn [answered flat_map lookup_of declaration_of app is_ok];
    (split; [by rewrite fmap_cons, Hn|]); (split; [exact Hd|]); (split; [rewrite Hall; cbn; by destruct all|]);
    intros a a' (a1 & [Hm ->] & Hc); rewrite (Hw _ _ Hc); unfold resolved; cbn [forallb snd].
  - rewrite filter_cons_True by done. rewrite (Hm _ eq_refl). cbn. rewrite Z.lor_assoc. f_equal.
    destruct (Z.eqb_spec (mask_of name) 0) as [->|_]; [by rewrite Z.lor_0_r|done].
  - by rewrite filter_cons_False.
Qed.

Lemma all_resolved ls : forallb snd ls = true -> resolved ls = fst <$> ls.
Proof.
  intros H. unfold resolved. rewrite filter_id; [done|]. rewrite forallb_forall in H. intros x Hx. apply H. by apply list_elem_of_In.
Qed.

Lemma ok_lookups tr : Forall answered_ok tr -> forallb snd (lookups tr) = true.
Proof.
  induction 1 as [|[X e x] tr Hc _ IH]; [done|]. unfold lookups in *. rewrite answered_cons, forallb_app, IH, andb_true_r.
  destruct e; cbn in *; try done. by rewrite Hc.
Qed.

(** What a synchronisation aims at, by what its lookups found. *)
Definition target (a : account) (ls : list (string * bool)) : Z :=
  if forallb snd ls then masks (fst <$> ls) else Z.lor (caps a) (masks (resolved ls)).

Definition sync_post (names : list string) (tr : list (called RegE)) (r : unit) : Prop :=
  fst <$> lookups tr = names /\ forall a a', chain mask_of a tr a' ->
  entry a' = entry a /\ (caps a' = caps a \/ caps a' = target a (lookups tr)) /\
  (Forall answered_ok tr -> caps a' = masks names) /\
  (declarations tr = [] /\ (Forall answered_ok tr -> caps a = masks names) \/ declarations tr = [target a (lookups tr)] /\ target a (lookups tr) <> caps a).

Lemma sync_always names : always (EnsureCapabilities names) (sync_post names).
Proof.
  unfold EnsureCapabilities. apply always_bind. eapply always_mono; [apply masks_always|].
  intros tr0 [want all] (Hq & Hn & Hd & Hall & Hw). cbn [always bind call fst snd andb] in *. subst all.
  assert (forall tr, lookups (tr0 ++ tr) = lookups tr0 ++ lookups tr) as Hl by (intros; apply answered_app).
  assert (forall tr, declarations (tr0 ++ tr) = declarations tr) as Hd' by (intros; unfold declarations in *; by rewrite answered_app, Hd).
  assert (forall a tr a', chain mask_of a (tr0 ++ tr) a' -> want = masks (resolved (lookups tr0)) /\ chain mask_of a tr a') as Hsplit.
  { intros a tr a' (a1 & H0 & H1)%chain_app. split; [by rewrite (Hw _ _ H0)|]. by rewrite <- (chain_reads _ _ _ Hq H0). }
  assert (forall a, want = masks (resolved (lookups tr0)) ->
    (if forallb snd (lookups tr0) then want else Z.lor (caps a) want) = target a (lookups tr0)) as Ht.
  { intros a ->. unfold target. destruct (forallb snd (lookups tr0)) eqn:E; [by rewrite (all_resolved _ E)|done]. }
  intros [current|e]; cbn [always].
  2: { split; [by rewrite Hl, app_nil_r|]. rewrite Hl, Hd'. intros a a' (Hm & a1 & [_ ->] & ->)%Hsplit. split; [done|].
       assert (~ Forall answered_ok (tr0 ++ [Called GetWorkerCapabilities (Err e)])) as Hno by (intros [_ Hf]%Forall_app; by inversion_clear Hf).
       split; [by left|]. split; [done|by left]. }
  destruct (Z.eqb_spec (if forallb snd (lookups tr0) then want else Z.lor current want) current) as [E|E]; cbn [always bind call].
  - split; [by rewrite Hl, app_nil_r|]. rewrite Hl, Hd', app_nil_r. intros a a' (Hm & a1 & [Hc ->] & ->)%Hsplit.
    rewrite (Hc _ eq_refl), (Ht _ Hm) in E. split; [done|]. split; [by left|].
    assert (Forall answered_ok (tr0 ++ [Called GetWorkerCapabilities (Ok current)]) -> caps a = masks names) as Hs.
    { intros [H _]%Forall_app. rewrite <- E. unfold target. by rewrite (ok_lookups _ H), Hn. }
    split; [exact Hs|by left].
  - intros s. split; [by rewrite Hl, app_nil_r|]. rewrite Hl, Hd', app_nil_r. intros a a' (Hm & a1 & [Hc ->] & a2 & Hs & ->)%Hsplit.
    rewrite (Hc _ eq_refl), (Ht _ Hm) in *. cbn in Hs.
    assert (a2 = a \/ a2 = MkAccount (entry a) (target a (lookups tr0))) as Hor by (destruct s; [by right|exact Hs]).
    split; [by destruct Hor as [->| ->]|]. split; [destruct Hor as [->| ->]; [by left|by right]|]. split; [|by right].
    intros [H H']%Forall_app. destruct s as [u|e]; [|by repeat match goal with H : Forall _ (_ :: _) |- _ => inversion_clear H end].
    rewrite Hs. cbn. unfold target. by rewrite (ok_lookups _ H), Hn.
Qed.

(** Synchronising the declared capabilities sends at most one transaction,
    and none when the chain is already in sync. When every call succeeds the
    worker declares exactly the wanted capabilities, those no longer wanted
    withdrawn; after a failed lookup it withdraws nothing and adds only wanted
    bits; whatever fails, its registration is untouched and the mask is the
    old one or the one aimed at. *)
Theorem capabilities_are_synchronised names a tr a' :
  runs (EnsureCapabilities names) tr tt -> chain mask_of a tr a' ->
  entry a' = entry a /\ (caps a' = caps a \/ caps a' = target a (lookups tr)) /\
  (Forall answered_ok tr -> caps a' = masks names /\ (declarations tr = [] <-> caps a = masks names)) /\
  (length (declarations tr) <= 1)%nat /\
  (forallb snd (lookups tr) = false -> forall i, Z.testbit (caps a) i = true -> Z.testbit (caps a') i = true) /\
  (forall i, Z.testbit (caps a') i = true -> Z.testbit (caps a) i = true \/
     exists name, name ∈ names /\ Z.testbit (mask_of name) i = true).
Proof.
  intros Hr Hc. destruct (always_runs _ _ _ _ (sync_always names) Hr) as [Hn H]. destruct (H _ _ Hc) as (He & Ht & Hok & Hd).
  split; [done|]. split; [done|]. split; [|split; [destruct Hd as [[-> _]|[-> _]]; cbn; lia|split]].
  - intros Ha. pose proof (Hok Ha) as Hm. split; [done|].
    assert (target a (lookups tr) = masks names) as Htm by (unfold target; by rewrite (ok_lookups _ Ha), Hn).
    rewrite Htm in Hd. destruct Hd as [[Hd Hs]|[Hd Hne]]; rewrite Hd.
    + split; [intros _; by apply Hs|done].
    + split; [done|]. intros E. by rewrite E in Hne.
  - intros Hf i Hi. destruct Ht as [->| ->]; [done|]. unfold target. by rewrite Hf, Z.lor_spec, Hi.
  - intros i Hi.
    assert (forall ns, Z.testbit (masks ns) i = true -> exists name, name ∈ ns /\ Z.testbit (mask_of name) i = true) as Hb.
    { induction ns as [|n ns IH]; cbn; [by rewrite Z.bits_0|]. rewrite Z.lor_spec. intros [Hi'|Hi']%orb_true_iff.
      - exists n. split; [by left|done].
      - destruct (IH Hi') as (n' & Hn' & ?). exists n'. split; [by right|done]. }
    destruct Ht as [Ht|Ht]; rewrite Ht in Hi; [by left|]. unfold target in Hi. destruct (forallb snd (lookups tr)).
    + right. destruct (Hb _ Hi) as (n & Hin & ?). exists n. by rewrite <- Hn.
    + rewrite Z.lor_spec in Hi. apply orb_true_iff in Hi as [Hi|Hi]; [by left|right]. destruct (Hb _ Hi) as (n & Hin & ?).
      exists n. split; [|done]. rewrite <- Hn. unfold resolved in Hin. apply list_elem_of_fmap in Hin as (l & -> & Hl).
      apply list_elem_of_fmap_2. by apply list_elem_of_filter in Hl as [_ ?].
Qed.
End Chain.

(** ** Runs against a chain *)
Definition demo_masks (name : string) : Z :=
  if bool_decide (name = SelfContainedCapability) then 1 else if bool_decide (name = SearchCapability) then 4 else 0.

(** A node that refuses to add one model, and to deregister if [stuck]. *)
Definition node (refused : option Z) (stuck : bool) : handler RegE account := fun X e a =>
  match e in RegE X return X * account with
  | IsWorkerRegistered => (Ok (bool_decide (is_Some (entry a))), a)
  | GetWorkerEncryptionKey => (match entry a with Some g => Ok (reg_key g) | None => Err (errorf "unknown worker") end, a)
  | GetMinWorkerStake => (Ok (Some 100), a)
  | RegisterWorker k s => (Ok tt, MkAccount (Some (MkReg k s [])) (caps a))
  | AddSupportedModel m =>
      if bool_decide (refused = Some m) then (Err (errorf "execution reverted"), a)
      else (Ok tt, MkAccount ((fun g => added g [m]) <$> entry a) (caps a))
  | DeregisterWorker => if stuck then (Err (errorf "execution reverted"), a) else (Ok tt, MkAccount None (caps a))
  | GetCapabilityMask name => (Ok (demo_masks name), a)
  | GetWorkerCapabilities => (Ok (caps a), a)
  | SetCapabilities mask => (Ok tt, MkAccount (entry a) mask)
  end.

Lemma node_chain {A} refused stuck (p : prog RegE A) a :
  chain demo_masks a (fst (fst (interp (node refused stuck) p a))) (snd (interp (node refused stuck) p a)).
Proof.
  revert a. induction p as [x|X e k IH]; intros a; [done|]. cbn [interp].
  destruct (node refused stuck X e a) as [x a1] eqn:E. specialize (IH x a1).
  destruct (interp (node refused stuck) (k x) a1) as [[tr r] a2]. cbn [fst snd chain] in *. exists a1. split; [|exact IH].
  destruct e; cbn in E; repeat case_match; simplify_eq; cbn; try done; try (by left); (split; [|done]); intros ? Hx; simplify_eq; try done; by match goal with E : entry _ = _ |- _ => rewrite E end.
Qed.

Definition demo_key : bytes := String (Ascii.ascii_of_nat 4) (String.string_of_list_ascii (repeat Ascii.zero 64)).
Definition outsider : account := MkAccount None 2.
Definition demo_register (refused : option Z) (stuck : bool) (a : account) :=
  interp (node refused stuck) (EnsureRegistered (MkManager [7; 8; 9]) demo_key None) a.

(** Registered; rolled back; and stranded, in which case the next attempt finds
    the worker registered under its key and reports success with one model of
    three. *)
Example demo_registrations :
  (snd (fst (demo_register None false outsider)), snd (demo_register None false outsider)) =
    (Ok tt, MkAccount (Some (MkReg demo_key 100 [7; 8; 9])) 2) /\
  snd (demo_register (Some 8) false outsider) = outsider /\
  snd (demo_register (Some 8) true outsider) = MkAccount (Some (MkReg demo_key 100 [7])) 2.
Proof. vm_compute. done. Qed.

Example stranded_registration_passes :
  let a := snd (demo_register (Some 8) true outsider) in
  snd (fst (demo_register None false a)) = Ok tt /\ reg_models <$> entry (snd (demo_register None false a)) = Some [7] /\
  snd (fst (interp (node None false) (Validate demo_key) a)) = Ok tt.
Proof. vm_compute. done. Qed.

(** A registration mined after the wait for it was given up leaves the worker
    entered without a model. *)
Definition lost_receipt : list (called RegE) :=
  [Called IsWorkerRegistered (Ok false); Called GetMinWorkerStake (Ok (Some 100));
   Called (RegisterWorker demo_key 100) (Err (errorf "context deadline exceeded"))].
Example lost_receipt_strands :
  runs (EnsureRegistered (MkManager [7; 8; 9]) demo_key None) lost_receipt
    (Err (wrap "register worker" (errorf "context deadline exceeded"))) /\
  chain demo_masks outsider lost_receipt (MkAccount (Some (MkReg demo_key 100 [])) 2).
Proof.
  split.
  - unfold lost_receipt. repeat (vm_compute; constructor).
  - cbn. exists outsider. split; [by split; [intros b [= <-]|]|]. exists outsider. split; [done|]. eexists. split; [by right|done].
Qed.

Lemma registration_outcomes_witness :
  (exists s, snd (demo_register None false outsider) = MkAccount (Some (MkReg demo_key s [7; 8; 9])) 2) /\
  nothing_or_stranded (MkManager [7; 8; 9]) demo_key (fst (fst (demo_register (Some 8) true outsider))) outsider
    (snd (demo_register (Some 8) true outsider)).
Proof.
  split.
  - destruct (registration_outcomes demo_masks (MkManager [7; 8; 9]) demo_key None outsider _ (Ok tt) _
      (interp_run (node None false) _ outsider) (node_chain None false _ outsider)) as [[[[? _]|(_ & s & _ & _ & E)] _] _]; [done|].
    exists s. exact E.
  - exact (proj1 (registration_outcomes demo_masks (MkManager [7; 8; 9]) demo_key None outsider _ _ _
      (interp_run (node (Some 8) true) _ outsider) (node_chain (Some 8) true _ outsider))).
Defined.

Definition demo_sync := interp (node None false) (EnsureCapabilities (DesiredCapabilities true)) outsider.

Lemma capabilities_are_synchronised_witness : caps (snd demo_sync) = 5 /\ (length (declarations (fst (fst demo_sync))) <= 1)%nat.
Proof.
  destruct (capabilities_are_synchronised demo_masks (DesiredCapabilities true) outsider (fst (fst demo_sync)) (snd demo_sync)
    (interp_run (node None false) _ outsider) (node_chain None false _ outsider)) as (_ & _ & Hok & Hl & _).
  split; [|exact Hl]. apply Hok. vm_compute. repeat constructor.
Defined.
End RegistrationManager.
