(* ===== verification/Sidecars.v ===== *)
(** The clients of the worker's HTTP sidecars: [internal/voice/client.go]
    (whisper and Kokoro) and [internal/search/client.go] (Tavily). *)
From S2P Require Import Prelude Effects GoText Checkpoint JobCalls.

#[local] Open Scope prog_scope.

(** [ttsRequest]; the speed is 1 in every request. *)
Record ttsRequest : Type := MkTTS { tts_Text : string; tts_Voice : string; tts_Speed : Z; tts_Stream : bool; tts_MaxBytes : Z }.

(** [tavilyRequest], and one result of a [tavilyResponse]. *)
Record tavilyRequest : Type := MkTavilyRequest { APIKey : string; Query : string; MaxResults : Z; SearchDepth : string }.
Record tavilyResult : Type := MkTavilyResult { res_Title : string; res_URL : string; res_Content : string }.

(** The JSON of requests and responses. *)
Class SidecarJSON := {
  MarshalTTS : ttsRequest -> result bytes;
  MarshalTavily : tavilyRequest -> result bytes;
  UnmarshalTranscription : bytes -> result string;
}.

(** An exchange with a sidecar. [ReadAll]: of the body, or of its first bytes
    up to a limit; [TakeBody] hands the open body to the caller. *)
Inductive HttpE : Type -> Type :=
  | NewRequest (method url : string) (body : bytes) : HttpE (result unit)
  | Do (timeout : Z) : HttpE (result Z)
  | ReadAll (limit : Z) : HttpE (result bytes)
  | Header (name : string) : HttpE string
  | DecodeResults : HttpE (result (list tavilyResult))
  | TakeBody : HttpE Z
  | CloseBody : HttpE unit.

Definition ErrBadAudio_ : error := errors_New ErrBadAudio "voice sidecar rejected the request".

Definition len (b : bytes) : Z := Z.of_nat (String.length b).

Module VoiceClient.

Definition maxTranscriptionBody : Z := Z.shiftl 1 20.
Definition readSlack : Z := 4096.

(** [Client]. *)
Record t : Type := MkClient { sttURL : string; ttsURL : string; sttTimeout : Z; ttsTimeout : Z }.

Definition New (sttURL ttsURL : string) (sttTimeout ttsTimeout : Z) : t :=
  MkClient (trim_slashes sttURL) (trim_slashes ttsURL)
    (if sttTimeout <=? 0 then 10 * Second else sttTimeout) (if ttsTimeout <=? 0 then 20 * Second else ttsTimeout).

(** [fmt.Errorf("%w: ...", ErrBadAudio, ...)]. *)
Definition bad_audio (s : string) : error := join ErrBadAudio_ (errorf s).

Definition ok_status (status : Z) : bool := (200 <=? status) && (status <? 300).

Definition rejects (status : Z) : bool := (status =? 400) || (status =? 413) || (status =? 422).

(** [classifyStatus]. *)
Definition classifyStatus (status : Z) : result unit :=
  if ok_status status then Ok tt
  else if rejects status then Err (bad_audio "status")
  else Err (errorf "voice sidecar status (retryable)").

Section Client.
Context `{SJ : !SidecarJSON}.
Context (c : t).

Definition Transcribe (audio : bytes) (format : string) : prog HttpE (result string) :=
  if bool_decide (sttURL c = EmptyString) then Ret (Err (bad_audio "STT sidecar URL not configured"))
  else if negb (bool_decide (format = EmptyString)) && negb (bool_decide (to_lower format = "wav")) then
    Ret (Err (bad_audio "sidecar only decodes WAV"))
  else if len audio =? 0 then Ret (Err (bad_audio "empty audio body"))
  else
    _ <-? wrap_err "build transcription request" (call (NewRequest "POST" (sttURL c +:+ "/v1/transcribe") audio)) ;;
    status <-? wrap_err "transcription request" (call (Do (sttTimeout c))) ;;
    deferred
      (respBody <-? wrap_err "read transcription response" (call (ReadAll maxTranscriptionBody)) ;;
       match classifyStatus status with
       | Err e => Ret (Err e)
       | Ok _ =>
           Ret (match UnmarshalTranscription respBody with
                | Err e => Err (bad_audio ("undecodable transcription body: " +:+ err_msg e))
                | Ok text => Ok text
                end)
       end) (fun _ => call CloseBody).

(** The exchange both synthesis calls start with. *)
Definition speak (path : string) (r : ttsRequest) : prog HttpE (result Z) :=
  match MarshalTTS r with
  | Err e => Ret (Err (wrap "build speech request" e))
  | Ok body =>
      _ <-? wrap_err "build speech request" (call (NewRequest "POST" (ttsURL c +:+ path) body)) ;;
      wrap_err "speech request" (call (Do (ttsTimeout c)))
  end.

(** What a refused request returns, its body read for the message. *)
Definition refused {A} (zero : A) (status : Z) : prog HttpE (result A) :=
  _ <- call (ReadAll maxTranscriptionBody) ;;
  Ret (match classifyStatus status with Err e => Err e | Ok _ => Ok zero end).

Definition SynthesizeSettled (text voice : string) (maxBytes : Z) : prog HttpE (result (bytes * bool)) :=
  if bool_decide (ttsURL c = EmptyString) then Ret (Err (bad_audio "TTS sidecar URL not configured"))
  else
    status <-? speak "/v1/tts.mp3" (MkTTS text voice 1 false maxBytes) ;;
    deferred
      (if negb (ok_status status) then refused (EmptyString, false) status
       else
         audio <-? wrap_err "read speech response" (call (ReadAll (i64_wrap (maxBytes + readSlack)))) ;;
         if len audio =? 0 then Ret (Err (bad_audio "sidecar returned no audio"))
         else if (0 <? maxBytes) && (maxBytes <? len audio) then Ret (Err (bad_audio "sidecar returned bytes over the limit"))
         else truncated <- call (Header "X-Audio-Truncated") ;;
              Ret (Ok (audio, bool_decide (truncated = "true")))) (fun _ => call CloseBody).

(** The stream's [Close] closes the body and ends the request's context. *)
Definition Synthesize (text voice : string) : prog HttpE (result Z) :=
  if bool_decide (ttsURL c = EmptyString) then Ret (Err (bad_audio "TTS sidecar URL not configured"))
  else
    status <-? speak "/v1/tts" (MkTTS text voice 1 true 0) ;;
    if negb (ok_status status) then deferred (refused 0 status) (fun _ => call CloseBody)
    else stream <- call TakeBody ;; Ret (Ok stream).
End Client.

(** ** What the calls say

    The statuses of a trace, and the bodies read of it. *)
Definition status_of Y (e : HttpE Y) : Y -> list Z :=
  match e with Do _ => fun r => match r with Ok s => [s] | Err _ => [] end | _ => fun _ => [] end.
Definition statuses (tr : list (called HttpE)) : list Z := answered status_of tr.
Definition read_of Y (e : HttpE Y) : Y -> list bytes :=
  match e with ReadAll _ => fun r => match r with Ok b => [b] | Err _ => [] end | _ => fun _ => [] end.
Definition bodies (tr : list (called HttpE)) : list bytes := answered read_of tr.

(** The body is [body]: reading yields its first bytes, up to the limit. *)
Definition serves (body : bytes) (c : called HttpE) : Prop :=
  match c with
  | Called e x =>
      match e in HttpE X return X -> Prop with
      | ReadAll limit => fun r => forall b, r = Ok b -> b = String.substring 0 (Z.to_nat limit) body
      | _ => fun _ => True
      end x
  end.

(** No error of the transport is the sentinel of this package. *)
Definition foreign (c : called HttpE) : Prop :=
  match c with
  | Called e x =>
      match e in HttpE X return X -> Prop with
      | NewRequest _ _ _ => fun r => forall err, r = Err err -> errors_Is err ErrBadAudio = false
      | Do _ => fun r => forall err, r = Err err -> errors_Is err ErrBadAudio = false
      | ReadAll _ => fun r => forall err, r = Err err -> errors_Is err ErrBadAudio = false
      | _ => fun _ => True
      end x
  end.

Section Spec.
Context `{SJ : !SidecarJSON}.
Context (c : t).

(** The statuses the sidecars' contract gives a meaning. *)
Definition success (status : Z) : Prop := 200 <= status < 300.
Definition at_fault (status : Z) : Prop := status = 400 \/ status = 413 \/ status = 422.

Lemma success_iff status : ok_status status = true <-> success status.
Proof. unfold ok_status, success. rewrite andb_true_iff, Z.leb_le, Z.ltb_lt. done. Qed.
Lemma at_fault_iff status : rejects status = true <-> at_fault status.
Proof. unfold rejects, at_fault. rewrite !orb_true_iff, !Z.eqb_eq. tauto. Qed.

(** What is wrong with a request itself, whoever sends it again. *)
Definition deterministic (audio : bytes) (format : string) (tr : list (called HttpE)) : Prop :=
  sttURL c = EmptyString \/ format <> EmptyString /\ to_lower format <> "wav"%string \/ audio = EmptyString \/
  exists status body, statuses tr = [status] /\ bodies tr = [body] /\
    (at_fault status \/ success status /\ is_ok (UnmarshalTranscription body) = false).

Definition transcribe_post (audio : bytes) (format : string) (tr : list (called HttpE)) (r : result string) : Prop :=
  Forall foreign tr ->
  match r with
  | Ok text => sttURL c <> EmptyString /\ audio <> EmptyString /\ exists status body,
      statuses tr = [status] /\ success status /\ bodies tr = [body] /\ UnmarshalTranscription body = Ok text
  | Err e => errors_Is e ErrBadAudio = true <-> deterministic audio format tr
  end.

Lemma len_zero b : len b = 0 <-> b = EmptyString.
Proof. unfold len. destruct b; cbn; split; (done || lia). Qed.

(** Once the request was sent only its answer counts. *)
Lemma sent_deterministic audio format tr : sttURL c <> EmptyString ->
  negb (bool_decide (format = EmptyString)) && negb (bool_decide (to_lower format = "wav"%string)) = false ->
  audio <> EmptyString ->
  deterministic audio format tr <-> exists status body, statuses tr = [status] /\ bodies tr = [body] /\
    (at_fault status \/ success status /\ is_ok (UnmarshalTranscription body) = false).
Proof.
  intros Hu Hf Ha. unfold deterministic. split; [|by do 3 right].
  intros [?|[[H1 H2]|[?|?]]]; try done. by rewrite !bool_decide_eq_false_2 in Hf by done.
Qed.

Lemma ok_not_rejected status : ok_status status = true -> rejects status = false.
Proof. unfold ok_status, rejects. intros H. reflect_Z. repeat (apply orb_false_iff; split); apply Z.eqb_neq; lia. Qed.

Lemma classify_ok status u : classifyStatus status = Ok u -> ok_status status = true.
Proof. unfold classifyStatus. by destruct (ok_status status), (rejects status). Qed.
Lemma classify_err status e : classifyStatus status = Err e -> errors_Is e ErrBadAudio = rejects status /\ ok_status status = false.
Proof. unfold classifyStatus. by destruct (ok_status status), (rejects status); intros [= <-]. Qed.

Ltac foreign_calls :=
  repeat match goal with H : Forall foreign (_ :: _) |- _ => apply Forall_cons in H as [? H] end.

Lemma transcribe_always audio format : always (Transcribe c audio format) (transcribe_post audio format).
Proof.
  unfold Transcribe, wrap_err. case_bool_decide as Hu; [by intros _; split; [left|]|].
  destruct (negb _ && negb _) eqn:Hf.
  { intros _. split; [intros _; right; left|done]. apply andb_true_iff in Hf as [H1 H2]. by reflect_Z. }
  destruct (Z.eqb_spec (len audio) 0) as [Ha%len_zero|Ha]; [by intros _; split; [intros _; do 2 right; left|]|].
  rewrite len_zero in Ha. walk; unfold transcribe_post; intros Hall; foreign_calls;
    lazymatch goal with
    | |- errors_Is _ _ = true <-> _ => rewrite (sent_deterministic _ _ _ Hu Hf Ha)
    | _ => idtac
    end.
  - apply classify_ok, success_iff in Heqr. destruct (UnmarshalTranscription a1) as [text|e] eqn:Ej; [by eauto 10|].
    rewrite (sent_deterministic _ _ _ Hu Hf Ha). split; [|done]. intros _. exists a0, a1. rewrite Ej. eauto.
  - destruct (classify_err _ _ Heqr) as [-> Hs]. rewrite at_fault_iff. split; [by eauto 10|].
    by intros (s & b & [= <-] & _ & [?|[?%success_iff _]]); [|rewrite Hs in *].
  - rewrite errors_Is_wrap. cbn in *. split; [|by intros (s & b & _ & [=] & _)]. match goal with H : forall _, _ |- _ => by rewrite (H _ eq_refl) end.
  - rewrite errors_Is_wrap. cbn in *. split; [|by intros (s & b & [=] & _)]. match goal with H : forall _, _ |- _ => by rewrite (H _ eq_refl) end.
  - rewrite errors_Is_wrap. cbn in *. split; [|by intros (s & b & [=] & _)]. match goal with H : forall _, _ |- _ => by rewrite (H _ eq_refl) end.
Qed.

(** A transcription error carries [ErrBadAudio], which makes the pipeline
    give the job up, exactly when sending the same request again cannot
    help: no sidecar is configured, the clip is empty or not a WAV, or the
    sidecar answered 400, 413 or 422, or with a success that does not parse.
    A success is the text of an answer the sidecar gave with a 2xx status to a
    non-empty clip. *)
Theorem transcription_errors_are_classified audio format tr r :
  runs (Transcribe c audio format) tr r -> Forall foreign tr ->
  match r with
  | Ok text => sttURL c <> EmptyString /\ audio <> EmptyString /\ exists status body,
      statuses tr = [status] /\ success status /\ bodies tr = [body] /\ UnmarshalTranscription body = Ok text
  | Err e => errors_Is e ErrBadAudio = true <-> deterministic audio format tr
  end.
Proof. intros Hr. exact (always_runs _ _ _ _ (transcribe_always audio format) Hr). Qed.

(** The settled answer of a body the sidecar served. *)
Definition settled_post (maxBytes : Z) (tr : list (called HttpE)) (r : result (bytes * bool)) : Prop :=
  forall body, Forall (serves body) tr ->
  match r with
  | Ok (audio, _) => audio = body /\ 0 < len body <= maxBytes /\ exists status, statuses tr = [status] /\ ok_status status = true
  | Err e => forall status, statuses tr = [status] -> ok_status status = true -> bodies tr <> [] ->
      errors_Is e ErrBadAudio = true /\ (len body = 0 \/ maxBytes < len body)
  end.

Lemma substring_all (b : bytes) n : (String.length b <= n)%nat -> String.substring 0 n b = b.
Proof.
  revert n. induction b as [|x b IH]; intros [|n]; cbn; intros; try done; [lia|]. f_equal. apply IH. lia.
Qed.
Lemma length_substring (b : bytes) n : String.length (String.substring 0 n b) = Nat.min n (String.length b).
Proof. revert n. induction b as [|x b IH]; intros [|n]; cbn; try done. by rewrite IH. Qed.

Lemma settled_always text voice maxBytes : 0 < maxBytes -> maxBytes <= i64_max - readSlack ->
  always (SynthesizeSettled c text voice maxBytes) (settled_post maxBytes).
Proof.
  intros H0 Hm. unfold SynthesizeSettled, speak, refused, wrap_err, try, deferred.
  rewrite (i64_wrap_id (maxBytes + readSlack)) by (unfold is_i64, i64_min, i64_max, readSlack in *; lia).
  case_bool_decide as Hu; [by intros served Hs status [=]|]. walk; intros served Hs; repeat match goal with H : Forall _ (_ :: _) |- _ => apply Forall_cons in H as [? H] end; cbn in *.
  all: try (by intros ? [=]); try (by intros ? _ _ []); try (by intros ? [=] _ []).
  1: { apply negb_true_iff in Heqb. destruct (classifyStatus a1) eqn:E; [apply classify_ok in E; congruence|].
       intros status [= <-]. by rewrite Heqb. }
  all: match goal with H : forall b, Ok ?x = Ok b -> _ |- _ => pose proof (H _ eq_refl) as Hx end; rewrite ?negb_false_iff in *; reflect_Z.
  all: assert (len a2 = Z.min (maxBytes + readSlack) (len served)) as Hlen
         by (subst a2; unfold len; rewrite length_substring; unfold readSlack in *; lia).
  all: unfold readSlack in *.
  - intros _ _ _ _. split; [done|lia].
  - intros _ _ _ _. split; [done|lia].
  - lia.
  - assert (len served <= maxBytes) by lia. rewrite Hx. split; [apply substring_all; unfold len in *; lia|]. 
    assert (0 <= len served) by (unfold len; lia). split; [lia|]. eauto.
Qed.

(** A settled recording is the whole of what the sidecar served: it is never
    empty, never over the limit and never cut off, even though the read stops
    at a bound, because that bound is above the limit; and when the sidecar
    answered with a success that could be read, the only reasons to refuse it are that it
    is empty or over the limit, and the refusal is final. *)
Theorem settled_audio_is_whole text voice maxBytes tr r body : 0 < maxBytes <= i64_max - readSlack ->
  runs (SynthesizeSettled c text voice maxBytes) tr r -> Forall (serves body) tr ->
  match r with
  | Ok (audio, _) => audio = body /\ 0 < len body <= maxBytes /\ exists status, statuses tr = [status] /\ ok_status status = true
  | Err e => forall status, statuses tr = [status] -> ok_status status = true -> bodies tr <> [] ->
      errors_Is e ErrBadAudio = true /\ (len body = 0 \/ maxBytes < len body)
  end.
Proof. intros [H0 Hm] Hr. exact (always_runs _ _ _ _ (settled_always text voice maxBytes H0 Hm) Hr body). Qed.
End Spec.

(** ** Runs against a sidecar *)
Definition plain_sidecar_json : SidecarJSON := {|
  MarshalTTS := fun r => Ok (tts_Text r);
  MarshalTavily := fun r => Ok (Query r);
  UnmarshalTranscription := fun b => if bool_decide (b = "{"%string) then Err (errorf "unexpected end of JSON input") else Ok b |}.
#[local] Existing Instance plain_sidecar_json.

Definition demo_sidecar (status : Z) (body : bytes) : handler HttpE unit := fun X e w =>
  match e in HttpE X return X * unit with
  | NewRequest _ _ _ => (Ok tt, tt)
  | Do _ => (Ok status, tt)
  | ReadAll limit => (Ok (String.substring 0 (Z.to_nat limit) body), tt)
  | Header _ => ("true"%string, tt)
  | DecodeResults => (Ok [MkTavilyResult "t" "u" "c"], tt)
  | TakeBody => (7, tt)
  | CloseBody => (tt, tt)
  end.
Definition demo_voice : t := New "http://127.0.0.1:8100/" "http://127.0.0.1:8101" 0 0.
Definition demo_transcribe (status : Z) (body : bytes) := interp (demo_sidecar status body) (Transcribe demo_voice "RIFF" "WAV") tt.
Definition demo_settled (body : bytes) := interp (demo_sidecar 200 body) (SynthesizeSettled demo_voice "hi" "af" 4) tt.

Lemma demo_foreign status body {A} (p : prog HttpE A) : Forall foreign (fst (fst (interp (demo_sidecar status body) p tt))).
Proof.
  induction p as [a|X e k IH]; [constructor|]. destruct e; cbn; match goal with |- context [interp ?h ?q tt] =>
    let E := fresh in destruct (interp h q tt) as [[tr a] []] eqn:E; constructor; [done|]; specialize (IH _ : Forall foreign (fst (fst (interp h q tt)))); rewrite E in IH; exact IH end.
Qed.

Example demo_voices :
  snd (fst (demo_transcribe 200 "hello")) = Ok "hello"%string /\
  (match snd (fst (demo_transcribe 413 "too large")) with Err e => errors_Is e ErrBadAudio | _ => false end) = true /\
  (match snd (fst (demo_transcribe 503 "loading")) with Err e => errors_Is e ErrBadAudio | _ => true end) = false /\
  snd (fst (demo_settled "mp3!")) = Ok ("mp3!"%string, true) /\
  is_ok (snd (fst (demo_settled "mp3!!"))) = false.
Proof. vm_compute. by repeat split. Qed.

Lemma transcription_errors_are_classified_witness :
  exists e, snd (fst (demo_transcribe 413 "too large")) = Err e /\ (errors_Is e ErrBadAudio = true <->
    deterministic demo_voice "RIFF" "WAV" (fst (fst (demo_transcribe 413 "too large")))).
Proof.
  eexists. split; [vm_compute; reflexivity|].
  exact (transcription_errors_are_classified demo_voice "RIFF" "WAV" (fst (fst (demo_transcribe 413 "too large"))) (Err _)
    (interp_run (demo_sidecar 413 "too large") _ tt) (demo_foreign 413 "too large" _)).
Defined.

Lemma settled_audio_is_whole_witness : snd (fst (demo_settled "mp3!")) = Ok ("mp3!"%string, true) /\ 0 < len "mp3!" <= 4.
Proof.
  split; [vm_compute; reflexivity|].
  refine (proj1 (proj2 (settled_audio_is_whole demo_voice "hi" "af" 4 (fst (fst (demo_settled "mp3!"))) (Ok ("mp3!"%string, true)) "mp3!" _ _ _))).
  - split; [lia|vm_compute; discriminate].
  - exact (interp_run (demo_sidecar 200 "mp3!") (SynthesizeSettled demo_voice "hi" "af" 4) tt).
  - vm_compute. repeat constructor. by intros ? [= <-].
Defined.
End VoiceClient.

Module TavilyClient.

(** [TavilyClient]; [timeout] is its HTTP client's. *)
Record t : Type := MkTavily { baseURL : string; apiKey : string; timeout : Z }.

Definition NewTavilyClient (baseURL apiKey : string) (timeout : Z) : t := MkTavily baseURL apiKey timeout.

Fixpoint number_from (position : Z) (rs : list tavilyResult) : list Source :=
  match rs with
  | [] => []
  | r :: rs => MkSource position (res_Title r) (res_URL r) (res_Content r) :: number_from (position + 1) rs
  end.

Definition Search `{SJ : !SidecarJSON} (c : t) (query : string) (maxResults : Z) : prog HttpE (result (list Source)) :=
  match MarshalTavily (MkTavilyRequest (apiKey c) query maxResults "basic") with
  | Err e => Ret (Err (wrap "marshal tavily request" e))
  | Ok body =>
      _ <-? wrap_err "build tavily request" (call (NewRequest "POST" (baseURL c +:+ "/search") body)) ;;
      status <-? wrap_err "tavily request" (call (Do (timeout c))) ;;
      deferred
        (if negb (status =? 200) then Ret (Err (errorf "tavily returned status"))
         else
           results <-? wrap_err "decode tavily response" (call DecodeResults) ;;
           Ret (Ok (number_from 1 results))) (fun _ => call CloseBody)
  end.
End TavilyClient.
