(* ===== verification/Lifecycle.v ===== *)
(** The life of the worker process, [internal/service/service.go] with
    [internal/heartbeat] and the operator's drain commands of
    [internal/cli/drain.go]: what it advertises, how it marks itself as
    draining, and in which order it starts and stops its parts. *)
From S2P Require Import Prelude Effects Gateway.

#[local] Open Scope prog_scope.

(** The hash a Redis heartbeat writes; the field names are those of pkg/types. *)
Record HeartbeatHash : Type := MkHash {
  hh_LastHeartbeat : Z;
  hh_ActiveJobs : Z;
  hh_MaxJobs : Z;
  hh_LatencyMs : Z;
  hh_GPUUtil : Z;
  hh_Models : list string;
  hh_OllamaStatus : string;
  hh_Uptime : Z;
  hh_Capabilities : list string;
  hh_ProtocolVersion : Z;
}.

(** What the process asks of its parts. [AwaitJobs] and [AwaitCancelledJobs]
    answer whether the jobs returned in time, [StopMonitor], [StopScheduler]
    and [StopReconciler] whether they stopped before the shutdown's deadline. *)
Inductive LifeE : Type -> Type :=
  | StartMetricsServer : LifeE unit
  | StartMonitor : LifeE unit
  | StartReconciler : LifeE unit
  | StartScheduler : LifeE unit
  | GoHeartbeatLoop : LifeE unit
  | GoStreamJobs : LifeE unit
  | GoStreamPublisher : LifeE unit
  | GoSessionWatcher : LifeE unit
  | GoJobWatcher : LifeE unit
  | GoAsynq : LifeE unit
  | AwaitSignal : LifeE unit
  | SignalOrServer : LifeE (option (option error))
  | CancelRun : LifeE unit
  | SendDrain : LifeE (result unit)
  | SendUndrain : LifeE (result unit)
  | GetDisputeWindow (timeout : Z) : LifeE (result Z)
  | SetDraining (ttl : Z) : LifeE (result unit)
  | Undraining : LifeE (result unit)
  | ReadAnswer : LifeE (option string)
  | AwaitJobs : LifeE bool
  | CancelJobs : LifeE unit
  | AwaitCancelledJobs (grace : Z) : LifeE bool
  | ShutdownMetricsServer : LifeE (result unit)
  | ShutdownAsynq : LifeE unit
  | ZeroAll : LifeE (result unit)
  | StopMonitor : LifeE bool
  | StopScheduler : LifeE bool
  | StopReconciler : LifeE bool
  | CloseReleaseStore : LifeE (result unit)
  | CloseRedis : LifeE (result unit)
  | CloseChainClient : LifeE unit
  | CloseCoordinator : LifeE unit
  | ShutdownExpired : LifeE (option error)
  | LoadActiveJobs : LifeE Z
  | SinceStart : LifeE Z
  | LifeNow : LifeE Z
  | ProbeRequest (url : string) : LifeE (result unit)
  | Probe : LifeE (result Z)
  | CloseProbe : LifeE unit
  | ExecPipeline (worker : string) (fields : HeartbeatHash) (ttl : Z) : LifeE (result unit).

(** ** Heartbeats *)
Module Heartbeat.

Definition OllamaStatusReady : string := "ready".
Definition OllamaStatusUnreachable : string := "unreachable".

(** [Monitor] with its [MonitorConfig]; a nil list of capabilities is the empty
    one. *)
Record Monitor : Type := MkMonitor {
  Interval : Z;
  OllamaURL : string;
  mon_workerAddr : string;
  mon_modelIDs : list string;
  mon_capabilities : list string;
  mon_maxJobs : Z;
}.

Definition KeyTTL (interval : Z) : Z := i64_wrap (3 * interval).

Definition CheckOllama (ollamaURL : string) : prog LifeE string :=
  r <- call (ProbeRequest (ollamaURL +:+ "/api/tags")) ;;
  match r with
  | Err _ => Ret OllamaStatusUnreachable
  | Ok _ =>
      r <- call Probe ;;
      match r with
      | Err _ => Ret OllamaStatusUnreachable
      | Ok status =>
          _ <- call CloseProbe ;;
          Ret (if status =? 200 then OllamaStatusReady else OllamaStatusUnreachable)
      end
  end.

Section Heartbeat.
Context (protocolVersion : Z).

(** [emit]. *)
Definition emit (m : Monitor) : prog LifeE (result unit) :=
  ollamaStatus <- CheckOllama (OllamaURL m) ;;
  activeJobs <- call LoadActiveJobs ;;
  now <- call LifeNow ;;
  uptime <- call SinceStart ;;
  wrap_err "write heartbeat" (call (ExecPipeline (mon_workerAddr m)
    (MkHash (dur_secs now) activeJobs (mon_maxJobs m) 0 0 (mon_modelIDs m) ollamaStatus (dur_secs uptime)
       (mon_capabilities m) protocolVersion) (KeyTTL (Interval m)))).

(** [gatewayHeartbeatPayload], of a service's configuration and counter. *)
Definition gatewayHeartbeatPayload (maxJobs : Z) (models caps : list string) (activeJobs : Z)
    (ollamaStatus : string) (uptime : Z) : HeartbeatPayload :=
  MkHeartbeat activeJobs maxJobs models caps protocolVersion ollamaStatus (dur_secs uptime).

(** A turn of [gatewayHeartbeatLoop]: what it sends. *)
Definition gateway_beat (ollamaURL : string) (maxJobs : Z) (models caps : list string) : prog LifeE HeartbeatPayload :=
  ollamaStatus <- CheckOllama ollamaURL ;;
  uptime <- call SinceStart ;;
  activeJobs <- call LoadActiveJobs ;;
  Ret (gatewayHeartbeatPayload maxJobs models caps activeJobs ollamaStatus uptime).

(** The hash a beat writes, under the worker's key, with its life. *)
Definition written_of Y (e : LifeE Y) : Y -> list (HeartbeatHash * Z) :=
  match e with ExecPipeline _ fields ttl => fun _ => [(fields, ttl)] | _ => fun _ => [] end.
Definition written (tr : list (called LifeE)) : list (HeartbeatHash * Z) := answered written_of tr.

(** What is measured for a beat. *)
Inductive measure : Type := Jobs (n : Z) | Uptime (d : Z) | Runtime (status : option Z).
Definition measure_of Y (e : LifeE Y) : Y -> list measure :=
  match e with
  | LoadActiveJobs => fun n => [Jobs n]
  | SinceStart => fun d => [Uptime d]
  | ProbeRequest _ => fun r => match r with Ok _ => [] | Err _ => [Runtime None] end
  | Probe => fun r => [Runtime (match r with Ok s => Some s | Err _ => None end)]
  | _ => fun _ => []
  end.
Definition measures (tr : list (called LifeE)) : list measure := answered measure_of tr.

Definition status_text (s : option Z) : string :=
  if bool_decide (s = Some 200) then OllamaStatusReady else OllamaStatusUnreachable.

Definition emit_post (m : Monitor) (tr : list (called LifeE)) (r : result unit) : Prop :=
  exists s n d now, measures tr = [Runtime s; Jobs n; Uptime d] /\
    written tr = [(MkHash now n (mon_maxJobs m) 0 0 (mon_modelIDs m) (status_text s) (dur_secs d) (mon_capabilities m) protocolVersion,
                   KeyTTL (Interval m))].

Lemma status_text_of status : (if status =? 200 then OllamaStatusReady else OllamaStatusUnreachable) = status_text (Some status).
Proof. unfold status_text. destruct (Z.eqb_spec status 200) as [->|Hs]; [done|]. rewrite bool_decide_eq_false_2; [done|congruence]. Qed.

Lemma emit_always m : always (emit m) (emit_post m).
Proof. unfold emit, CheckOllama, wrap_err. walk; rewrite ?status_text_of; do 4 eexists; by split. Qed.

Definition beat_post (maxJobs : Z) (models caps : list string) (tr : list (called LifeE)) (p : HeartbeatPayload) : Prop :=
  exists s n d, measures tr = [Runtime s; Uptime d; Jobs n] /\
    p = MkHeartbeat n maxJobs models caps protocolVersion (status_text s) (dur_secs d).

Lemma beat_always url maxJobs models caps : always (gateway_beat url maxJobs models caps) (beat_post maxJobs models caps).
Proof. unfold gateway_beat, CheckOllama. walk; rewrite ?status_text_of; do 3 eexists; by split. Qed.
End Heartbeat.

(** Both heartbeats advertise the same worker: from the same measurements the
    hash written to Redis and the payload posted to the gateway agree field
    for field, and the model is advertised as ready exactly when it answered
    the probe with a 200. *)
Theorem heartbeats_agree pv m tr1 r tr2 p :
  runs (emit pv m) tr1 r -> runs (gateway_beat pv (OllamaURL m) (mon_maxJobs m) (mon_modelIDs m) (mon_capabilities m)) tr2 p ->
  measures tr1 ≡ₚ measures tr2 ->
  (exists now, written tr1 = [(MkHash now (hb_ActiveJobs p) (hb_MaxJobs p) 0 0 (hb_Models p) (hb_OllamaStatus p)
    (hb_Uptime p) (hb_Capabilities p) (hb_ProtocolVersion p), KeyTTL (Interval m))]) /\
  (hb_OllamaStatus p = OllamaStatusReady <-> Runtime (Some 200) ∈ measures tr2).
Proof.
  intros H1 H2 Hp. destruct (always_runs _ _ _ _ (emit_always pv m) H1) as (s & n & d & now & M1 & W).
  destruct (always_runs _ _ _ _ (beat_always pv _ _ _ _) H2) as (s2 & n2 & d2 & M2 & ->). rewrite M1, M2 in Hp.
  assert (s = s2 /\ n = n2 /\ d = d2) as (-> & -> & ->).
  { repeat split; [assert (Runtime s ∈ [Runtime s2; Uptime d2; Jobs n2]) by (rewrite <- Hp; set_solver)
                  |assert (Jobs n ∈ [Runtime s2; Uptime d2; Jobs n2]) by (rewrite <- Hp; set_solver)
                  |assert (Uptime d ∈ [Runtime s2; Uptime d2; Jobs n2]) by (rewrite <- Hp; set_solver)]; set_solver. }
  split; [by exists now|]. rewrite M2. cbn. unfold status_text. case_bool_decide as E; subst.
  - split; [intros _; by left|done].
  - split; [done|]. intros H. assert (Some 200 = s2) by set_solver. congruence.
Qed.

(** A heartbeat key survives a missed beat. *)
Lemma KeyTTL_covers interval : 0 < interval -> 3 * interval <= i64_max -> KeyTTL interval = 3 * interval.
Proof. intros H0 H. unfold KeyTTL. apply i64_wrap_id. unfold is_i64, i64_min. lia. Qed.
End Heartbeat.

(** ** Draining *)
Module Drain.

Definition shutdownDrainTimeout : Z := 10 * Second.
Definition drainTTLFallback : Z := 24 * Hour.
Definition defaultDrainSlack : Z := 2 * Hour.
Definition drainTTLLookupTimeout : Z := 4 * Second.

(** The drain settings, the same variables in the service's configuration and
    in the command's, and whether there is a chain client. *)
Record config : Type := MkDrainConfig { DrainTTLOverride : Z; DrainSlack : Z; has_chain : bool }.

Definition drainSlack (c : config) : Z := if 0 <? DrainSlack c then DrainSlack c else defaultDrainSlack.

(** [Service.computeDrainTTL]. *)
Definition computeDrainTTL (c : config) : prog LifeE Z :=
  if 0 <? DrainTTLOverride c then Ret (DrainTTLOverride c)
  else if negb (has_chain c) then Ret drainTTLFallback
  else
    r <- call (GetDisputeWindow drainTTLLookupTimeout) ;;
    Ret (match r with Err _ => drainTTLFallback | Ok disputeWindow => i64_wrap (disputeWindow + drainSlack c) end).

(** [markDrainOnShutdown]; [gw] and [redis]: whether the client is there. *)
Definition markDrainOnShutdown (c : config) (gw redis gatewayMode : bool) : prog LifeE unit :=
  if gatewayMode then
    if negb gw then Ret tt else _ <- call SendDrain ;; Ret tt
  else if negb redis then Ret tt
  else ttl <- computeDrainTTL c ;; _ <- call (SetDraining ttl) ;; Ret tt.

(** ** The operator's commands, [DrainHandler] *)
Definition DrainTTLFallback : Z := 24 * Hour.
Definition cli_drainTTLLookupTimeout : Z := 5 * Second.

Definition cli_computeDrainTTL (c : config) : prog LifeE Z :=
  if 0 <? DrainTTLOverride c then Ret (DrainTTLOverride c)
  else
    let slack := if DrainSlack c <=? 0 then 2 * Hour else DrainSlack c in
    if negb (has_chain c) then Ret DrainTTLFallback
    else
      r <- call (GetDisputeWindow cli_drainTTLLookupTimeout) ;;
      Ret (match r with Err _ => DrainTTLFallback | Ok dw => i64_wrap (dw + slack) end).

Definition Drain (c : config) (gateway redis : bool) : prog LifeE (result unit) :=
  if gateway then wrap_err "send drain via gateway" (call SendDrain)
  else if negb redis then Ret (Err (errorf "drain requires either a Redis client (direct mode) or a gateway client"))
  else
    ttl <- cli_computeDrainTTL c ;;
    wrap_err "set drain marker" (call (SetDraining ttl)).

(** [confirmUndrain]: [ReadAnswer] is the line read from the standard input,
    [None] without input. *)
Definition confirmUndrain (c : config) (stdin : bool) : prog LifeE (result unit) :=
  _ <- (if has_chain c then _ <- call (GetDisputeWindow 0) ;; Ret tt else Ret tt) ;;
  if negb stdin then Ret (Err (errorf "undrain not confirmed (no stdin available; pass --yes for unattended use)"))
  else
    line <- call ReadAnswer ;;
    Ret (match line with
         | None => Err (errorf "undrain not confirmed (no input)")
         | Some line =>
             let answer := GoText.TrimSpace (to_lower line) in
             if negb (bool_decide (answer = "y"%string)) && negb (bool_decide (answer = "yes"%string))
             then Err (errorf "undrain aborted by operator") else Ok tt
         end).

Definition Undrain (c : config) (gateway redis skipConfirm stdin : bool) : prog LifeE (result unit) :=
  _ <-? (if skipConfirm then Ret (Ok tt) else confirmUndrain c stdin) ;;
  if gateway then wrap_err "send undrain via gateway" (call SendUndrain)
  else if negb redis then Ret (Err (errorf "undrain requires either a Redis client (direct mode) or a gateway client"))
  else wrap_err "delete drain marker" (call Undraining).

(** ** One marker

    The answers about the dispute window, and the life a marker should get. *)
Definition window_of Y (e : LifeE Y) : Y -> list (result Z) :=
  match e with GetDisputeWindow _ => fun r => [r] | _ => fun _ => [] end.
Definition windows (tr : list (called LifeE)) : list (result Z) := answered window_of tr.
Definition marker_of Y (e : LifeE Y) : Y -> list Z :=
  match e with SetDraining ttl => fun _ => [ttl] | _ => fun _ => [] end.
Definition markers (tr : list (called LifeE)) : list Z := answered marker_of tr.

Definition marker_ttl (c : config) (ws : list (result Z)) : Z :=
  if 0 <? DrainTTLOverride c then DrainTTLOverride c
  else match ws with Ok dw :: _ => i64_wrap (dw + drainSlack c) | _ => drainTTLFallback end.

Definition marked (c : config) (tr : list (called LifeE)) : Prop := markers tr = [marker_ttl c (windows tr)].

Lemma service_marks c : always (markDrainOnShutdown c false true false) (fun tr _ => marked c tr).
Proof.
  unfold markDrainOnShutdown, computeDrainTTL, marked. cbn.
  destruct (0 <? DrainTTLOverride c) eqn:Eo; cbn; [intros ?; unfold markers, marker_ttl; cbn; by rewrite Eo|].
  destruct (has_chain c); cbn; unfold marker_ttl; rewrite Eo; [|done]. by intros [] ?.
Qed.

Lemma command_marks c : always (Drain c false true) (fun tr _ => marked c tr).
Proof.
  unfold Drain, cli_computeDrainTTL, marked, wrap_err. cbn.
  destruct (0 <? DrainTTLOverride c) eqn:Eo; cbn; [intros []; unfold markers, marker_ttl; cbn; by rewrite Eo|].
  assert ((if DrainSlack c <=? 0 then 2 * Hour else DrainSlack c) = drainSlack c) as ->.
  { unfold drainSlack. destruct (Z.leb_spec (DrainSlack c) 0), (Z.ltb_spec 0 (DrainSlack c)); (done || lia). }
  destruct (has_chain c); cbn; unfold marker_ttl; rewrite Eo; [by intros [] []|by intros []].
Qed.

(** A worker that drains itself on a signal and one the operator drains get
    the same marker: under the same settings and the same answer about the
    dispute window both write one marker, with the same life. It is the
    override if there is one, the fallback if the window could not be read,
    and otherwise outlives the window. *)
Theorem drain_paths_agree c tr1 tr2 r :
  runs (markDrainOnShutdown c false true false) tr1 tt -> runs (Drain c false true) tr2 r -> windows tr1 = windows tr2 ->
  markers tr1 = markers tr2 /\ exists ttl, markers tr1 = [ttl] /\
    (0 < DrainTTLOverride c -> ttl = DrainTTLOverride c) /\
    (DrainTTLOverride c <= 0 -> forall dw, windows tr1 = [Ok dw] -> 0 <= dw -> dw + drainSlack c <= i64_max -> dw < ttl) /\
    (DrainTTLOverride c <= 0 -> (windows tr1 = [] \/ exists e, windows tr1 = [Err e]) -> ttl = drainTTLFallback).
Proof.
  intros H1 H2 Hw. pose proof (always_runs _ _ _ _ (service_marks c) H1) as M1.
  pose proof (always_runs _ _ _ _ (command_marks c) H2) as M2. unfold marked in *. rewrite M1, M2, Hw. split; [done|].
  eexists. split; [done|]. unfold marker_ttl. split; [intros H; by rewrite (proj2 (Z.ltb_lt _ _) H)|].
  split; intros H; rewrite (proj2 (Z.ltb_ge _ _) H).
  - intros dw -> Hd Hb. assert (0 < drainSlack c) by (unfold drainSlack, defaultDrainSlack; destruct (Z.ltb_spec 0 (DrainSlack c)); [done|vm_compute; done]).
    rewrite i64_wrap_id; [lia|]. unfold is_i64, i64_min in *. lia.
  - by intros [->|[e ->]].
Qed.

Definition demo_answers (w : result Z) : handler LifeE unit := fun X e u =>
  match e in LifeE X return X * unit with
  | GetDisputeWindow _ => (w, tt)
  | SendDrain | SendUndrain | SetDraining _ | Undraining => (Ok tt, tt)
  | ShutdownMetricsServer | ZeroAll | CloseReleaseStore | CloseRedis | ProbeRequest _ | ExecPipeline _ _ _ => (Ok tt, tt)
  | SignalOrServer | ShutdownExpired => (None, tt)
  | ReadAnswer => (Some " yes"%string, tt)
  | AwaitJobs | AwaitCancelledJobs _ | StopMonitor | StopScheduler | StopReconciler => (true, tt)
  | LoadActiveJobs | SinceStart | LifeNow => (0, tt)
  | Probe => (Ok 200, tt)
  | _ => (tt, tt)
  end.
Definition demo_config : config := MkDrainConfig 0 0 true.
Definition service_drain := interp (demo_answers (Ok (24 * Hour))) (markDrainOnShutdown demo_config false true false) tt.
Definition command_drain := interp (demo_answers (Ok (24 * Hour))) (Drain demo_config false true) tt.

Example demo_undrain :
  snd (fst (interp (demo_answers (Ok 0)) (Undrain demo_config false true false true) tt)) = Ok tt /\
  is_ok (snd (fst (interp (demo_answers (Ok 0)) (Undrain demo_config false true false false) tt))) = false.
Proof. vm_compute. done. Qed.

Lemma drain_paths_agree_witness :
  markers (fst (fst service_drain)) = markers (fst (fst command_drain)) /\
  exists ttl, markers (fst (fst service_drain)) = [ttl] /\ 24 * Hour < ttl.
Proof.
  destruct (drain_paths_agree demo_config (fst (fst service_drain)) (fst (fst command_drain)) (Ok tt)
    (interp_run _ _ _) (interp_run _ _ _) eq_refl) as [E (ttl & Ht & _ & Hdw & _)].
  split; [exact E|]. exists ttl. split; [exact Ht|]. apply Hdw; [vm_compute; discriminate|reflexivity| |]; vm_compute; discriminate.
Defined.
End Drain.

(** ** The process *)
Module Service.

Definition jobCancelGrace : Z := 10 * Second.

(** [Service]: which parts it was built with, and its drain settings. *)
Record Service : Type := MkService {
  metricsServer : bool;
  asynqServer : bool;
  monitor : bool;
  gwClient : bool;
  streamPub : bool;
  watchers : bool;
  releaseScheduler : bool;
  releaseReconciler : bool;
  releaseStore : bool;
  redis : bool;
  chainClient : bool;
  coordinator : bool;
  drain : Drain.config;
}.

(** [if x != nil { ... }]. *)
Definition when (b : bool) (p : prog LifeE unit) : prog LifeE unit := if b then p else Ret tt.
Definition ignore {A} (p : prog LifeE A) : prog LifeE unit := _ <- p ;; Ret tt.

(** [errors.Join], of errors that may be nil. *)
Definition Join (e1 e2 : option error) : option error :=
  match e1, e2 with
  | Some e1, Some e2 => Some (join e1 e2)
  | Some e, None | None, Some e => Some e
  | None, None => None
  end.

Definition startMetricsServer (s : Service) : prog LifeE unit := when (metricsServer s) (call StartMetricsServer).

Definition startReleaseSubsystem (s : Service) : prog LifeE unit :=
  if negb (releaseScheduler s) && negb (releaseReconciler s) then Ret tt
  else
    _ <- when (releaseReconciler s) (call StartReconciler) ;;
    when (releaseScheduler s) (call StartScheduler).

Definition shutdown (s : Service) : prog LifeE (option error) :=
  _ <- when (metricsServer s) (ignore (call ShutdownMetricsServer)) ;;
  _ <- when (asynqServer s) (call ShutdownAsynq) ;;
  z <- call ZeroAll ;;
  let shutdownErr := match z with Err e => Some (wrap "zero session keys" e) | Ok _ => None end in
  _ <- when (monitor s) (ignore (call StopMonitor)) ;;
  _ <- when (releaseScheduler s) (ignore (call StopScheduler)) ;;
  _ <- when (releaseReconciler s) (ignore (call StopReconciler)) ;;
  _ <- when (releaseStore s) (ignore (call CloseReleaseStore)) ;;
  _ <- when (redis s) (ignore (call CloseRedis)) ;;
  _ <- when (chainClient s) (call CloseChainClient) ;;
  _ <- when (coordinator s) (call CloseCoordinator) ;;
  expired <- call ShutdownExpired ;;
  Ret (match expired with
       | Some e => Join shutdownErr (Some (wrap "shutdown timeout exceeded" e))
       | None => shutdownErr
       end).

Definition mark (s : Service) (gatewayMode : bool) : prog LifeE unit :=
  Drain.markDrainOnShutdown (drain s) (gwClient s) (redis s) gatewayMode.

(** [runGatewayMode]. *)
Definition runGatewayMode (s : Service) : prog LifeE (option error) :=
  _ <- startReleaseSubsystem s ;;
  _ <- call GoHeartbeatLoop ;;
  _ <- call GoStreamJobs ;;
  _ <- call AwaitSignal ;;
  _ <- mark s true ;;
  shutdown s.

(** [runSortitionMode]; [cancelJobs] is deferred too. *)
Definition runSortitionMode (s : Service) : prog LifeE (option error) :=
  _ <- startReleaseSubsystem s ;;
  deferred
    (_ <- when (monitor s) (call StartMonitor) ;;
     _ <- when (gwClient s) (call GoHeartbeatLoop) ;;
     _ <- when (streamPub s) (call GoStreamPublisher) ;;
     _ <- call GoSessionWatcher ;;
     _ <- call GoJobWatcher ;;
     _ <- call AwaitSignal ;;
     _ <- mark s (gwClient s) ;;
     jobsDone <- call AwaitJobs ;;
     _ <- (if jobsDone : bool then Ret tt
           else _ <- call CancelJobs ;; ignore (call (AwaitCancelledJobs jobCancelGrace))) ;;
     shutdown s)
    (fun _ => call CancelJobs).

(** The default mode of [Run]. *)
Definition runDirectMode (s : Service) : prog LifeE (option error) :=
  _ <- call StartMonitor ;;
  _ <- startReleaseSubsystem s ;;
  _ <- call GoAsynq ;;
  ended <- call SignalOrServer ;;
  runErr <- match ended with
            | None => Ret None
            | Some err =>
                _ <- call CancelRun ;;
                Ret (Some (match err with
                           | Some e => wrap "asynq server" e
                           | None => errorf "asynq server exited unexpectedly"
                           end))
            end ;;
  _ <- mark s false ;;
  shutdownErr <- shutdown s ;;
  Ret (match shutdownErr with Some e => Join runErr (Some e) | None => runErr end).

Definition Run (s : Service) : prog LifeE (option error) :=
  _ <- startMetricsServer s ;;
  if watchers s then runSortitionMode s
  else if gwClient s then runGatewayMode s
  else runDirectMode s.

(** ** What the process does, in order *)
Inductive part : Type :=
  | Metrics | Asynq | HeartbeatMonitor | GatewayHeartbeat | JobStream | ResponseStream | Sessions | Jobs
  | Scheduler | Reconciler | Store | Redis | Chain | Coordinator.

(** [Waited b]: it waited for the running jobs, which returned or did not. *)
Inductive action : Type :=
  | Up (p : part) | Stopping | Drained | Waited (returned : bool) | Cancelled | KeysZeroed | Down (p : part).

Definition action_of Y (e : LifeE Y) : Y -> list action :=
  match e with
  | StartMetricsServer => fun _ => [Up Metrics]
  | StartMonitor => fun _ => [Up HeartbeatMonitor]
  | StartReconciler => fun _ => [Up Reconciler]
  | StartScheduler => fun _ => [Up Scheduler]
  | GoHeartbeatLoop => fun _ => [Up GatewayHeartbeat]
  | GoStreamJobs => fun _ => [Up JobStream]
  | GoStreamPublisher => fun _ => [Up ResponseStream]
  | GoSessionWatcher => fun _ => [Up Sessions]
  | GoJobWatcher => fun _ => [Up Jobs]
  | GoAsynq => fun _ => [Up Asynq]
  | AwaitSignal | SignalOrServer => fun _ => [Stopping]
  | SendDrain | SetDraining _ => fun _ => [Drained]
  | AwaitJobs => fun b => [Waited b]
  | CancelJobs => fun _ => [Cancelled]
  | AwaitCancelledJobs _ => fun b => [Waited b]
  | ZeroAll => fun _ => [KeysZeroed]
  | ShutdownMetricsServer => fun _ => [Down Metrics]
  | ShutdownAsynq => fun _ => [Down Asynq]
  | StopMonitor => fun _ => [Down HeartbeatMonitor]
  | StopScheduler => fun _ => [Down Scheduler]
  | StopReconciler => fun _ => [Down Reconciler]
  | CloseReleaseStore => fun _ => [Down Store]
  | CloseRedis => fun _ => [Down Redis]
  | CloseChainClient => fun _ => [Down Chain]
  | CloseCoordinator => fun _ => [Down Coordinator]
  | _ => fun _ => []
  end.
Definition actions (tr : list (called LifeE)) : list action := answered action_of tr.

(** What goes wrong: the queue server ended, the keys could not be zeroed, or
    the shutdown ran out of time. *)
Definition fault_of Y (e : LifeE Y) : Y -> list (option error) :=
  match e with
  | SignalOrServer => fun r => match r with Some err => [err] | None => [] end
  | ZeroAll => fun r => match r with Err e => [Some e] | Ok _ => [] end
  | ShutdownExpired => fun r => match r with Some e => [Some e] | None => [] end
  | _ => fun _ => []
  end.
Definition faults (tr : list (called LifeE)) : list (option error) := answered fault_of tr.

Definition finishes {A} (p : prog LifeE A) (Q : list action -> list (option error) -> A -> Prop) : Prop :=
  always p (fun tr a => Q (actions tr) (faults tr) a).

(** A step that does [l] and cannot go wrong. *)
Definition does {A} (l : list action) (p : prog LifeE A) : Prop := finishes p (fun acts fs _ => acts = l /\ fs = []).

Lemma does_bind {A B} l (p : prog LifeE A) (f : A -> prog LifeE B) Q :
  does l p -> (forall a, finishes (f a) (fun acts fs b => Q (l ++ acts) fs b)) -> finishes (bind p f) Q.
Proof.
  intros Hp Hf. apply always_bind. eapply always_mono; [exact Hp|]. intros tr a [Ha Hfs].
  eapply always_mono; [apply Hf|]. intros tr' b Hq. unfold actions, faults in *. rewrite !answered_app, Ha, Hfs. exact Hq.
Qed.

Definition on (b : bool) (l : list action) : list action := if b then l else [].

Lemma does_when b l (p : prog LifeE unit) : does l p -> does (on b l) (when b p).
Proof. by destruct b. Qed.

Definition downs (s : Service) : list action :=
  on (metricsServer s) [Down Metrics] ++ on (asynqServer s) [Down Asynq] ++ [KeysZeroed] ++
  on (monitor s) [Down HeartbeatMonitor] ++ on (releaseScheduler s) [Down Scheduler] ++
  on (releaseReconciler s) [Down Reconciler] ++ on (releaseStore s) [Down Store] ++ on (redis s) [Down Redis] ++
  on (chainClient s) [Down Chain] ++ on (coordinator s) [Down Coordinator].

Definition shutdown_post (s : Service) (acts : list action) (fs : list (option error)) (r : option error) : Prop :=
  acts = downs s /\ (r = None <-> fs = []).

Ltac step := eapply does_bind; [first [eapply does_when|idtac]; intros ?; unfold actions, faults; cbn; split; reflexivity|intros _].

Lemma shutdown_finishes s : finishes (shutdown s) (shutdown_post s).
Proof.
  unfold shutdown. do 2 step. intros z. cbn [bind].
  match goal with |- always ?p _ => change (finishes p (fun acts fs r => shutdown_post s
    (on (metricsServer s) [Down Metrics] ++ on (asynqServer s) [Down Asynq] ++ [KeysZeroed] ++ acts)
    (match z with Err e => [Some e] | Ok _ => [] end ++ fs) r)) end.
  do 7 step. intros [e|]; cbn [bind always]; (split; [unfold actions; cbn; by rewrite ?app_nil_r|]); unfold faults; cbn;
    by destruct z.
Qed.

Lemma mark_does s b : finishes (mark s b) (fun acts fs _ => (acts = [] \/ acts = [Drained]) /\ fs = []).
Proof.
  unfold mark, Drain.markDrainOnShutdown, Drain.computeDrainTTL. destruct b; [destruct (gwClient s)|destruct (redis s)]; cbn.
  - intros ?; split; [by right|done].
  - split; [by left|done].
  - case_match; [intros ?; split; [by right|done]|]. destruct (negb _); cbn; [intros ?; split; [by right|done]|].
    intros [] ?; (split; [by right|done]).
  - split; [by left|done].
Qed.

(** [l ++ d] with [d] the attempt at the drain marker. *)
Lemma marked_bind {B} s b (f : unit -> prog LifeE B) Q :
  (forall d, d = [] \/ d = [Drained] -> finishes (f tt) (fun acts fs r => Q (d ++ acts) fs r)) -> finishes (bind (mark s b) f) Q.
Proof.
  intros Hf. apply always_bind. eapply always_mono; [apply mark_does|]. intros tr [] [Ha Hfs].
  eapply always_mono; [apply (Hf (actions tr) Ha)|]. intros tr' r Hq. unfold actions, faults in *.
  rewrite !answered_app, Hfs. exact Hq.
Qed.

Definition ups (s : Service) : list action :=
  on (metricsServer s) [Up Metrics] ++
  (if watchers s then
     on (releaseReconciler s) [Up Reconciler] ++ on (releaseScheduler s) [Up Scheduler] ++
     on (monitor s) [Up HeartbeatMonitor] ++ on (gwClient s) [Up GatewayHeartbeat] ++
     on (streamPub s) [Up ResponseStream] ++ [Up Sessions; Up Jobs]
   else if gwClient s then
     on (releaseReconciler s) [Up Reconciler] ++ on (releaseScheduler s) [Up Scheduler] ++ [Up GatewayHeartbeat; Up JobStream]
   else
     [Up HeartbeatMonitor] ++ on (releaseReconciler s) [Up Reconciler] ++ on (releaseScheduler s) [Up Scheduler] ++ [Up Asynq]).

(** How the running jobs are waited for: only the chain watcher's are. *)
Definition waits (s : Service) (w : list action) : Prop :=
  if watchers s then w = [Waited true] \/ exists b, w = [Waited false; Cancelled; Waited b] else w = [].

Definition run_post (s : Service) (acts : list action) (fs : list (option error)) (r : option error) : Prop :=
  (exists d w, (d = [] \/ d = [Drained]) /\ waits s w /\
     acts = ups s ++ [Stopping] ++ d ++ w ++ downs s ++ on (watchers s) [Cancelled]) /\
  (r = None <-> fs = []).

Lemma release_does s :
  does (on (releaseReconciler s) [Up Reconciler] ++ on (releaseScheduler s) [Up Scheduler]) (startReleaseSubsystem s).
Proof. unfold startReleaseSubsystem. destruct (releaseScheduler s), (releaseReconciler s); by split. Qed.

Lemma finishes_mono {A} (p : prog LifeE A) Q Q' : finishes p Q -> (forall acts fs a, Q acts fs a -> Q' acts fs a) -> finishes p Q'.
Proof. intros Hp Hq. eapply always_mono; [exact Hp|]. intros tr a. apply Hq. Qed.

Lemma finishes_bind {A B} (p : prog LifeE A) (f : A -> prog LifeE B) Q :
  finishes p (fun acts fs a => finishes (f a) (fun acts' fs' b => Q (acts ++ acts') (fs ++ fs') b)) -> finishes (bind p f) Q.
Proof.
  intros Hp. apply always_bind. eapply always_mono; [exact Hp|]. intros tr a Ha. eapply always_mono; [exact Ha|].
  intros tr' b. unfold actions, faults. by rewrite !answered_app.
Qed.

Ltac flat_lists := repeat (progress (cbn [app]; rewrite <- ?app_assoc)).

Lemma sortition_finishes s : watchers s = true -> finishes (runSortitionMode s) (fun acts fs r => run_post s (on (metricsServer s) [Up Metrics] ++ acts) fs r).
Proof.
  intros Ew. unfold runSortitionMode, deferred. eapply does_bind; [apply release_does|intros _].
  apply finishes_bind. do 6 step. apply marked_bind. intros d Hd [] ; cbn [bind].
  - eapply always_mono; [apply shutdown_finishes|]. intros tr r [Ha Hr] [].
    split; [exists d, [Waited true]|by rewrite app_nil_r]. split; [done|]. unfold waits, ups. rewrite Ew. split; [by left|].
    change (actions (Called AwaitJobs true :: tr)) with (Waited true :: actions tr). rewrite Ha. by flat_lists.
  - intros [] b. eapply always_mono; [apply shutdown_finishes|]. intros tr r [Ha Hr] [].
    split; [exists d, [Waited false; Cancelled; Waited b]|by rewrite app_nil_r]. split; [done|]. unfold waits, ups. rewrite Ew.
    split; [by right; exists b|].
    change (actions (Called AwaitJobs false :: _)) with (Waited false :: Cancelled :: Waited b :: actions tr). rewrite Ha. by flat_lists.
Qed.

Lemma direct_finishes s : watchers s = false -> gwClient s = false ->
  finishes (runDirectMode s) (fun acts fs r => run_post s (on (metricsServer s) [Up Metrics] ++ acts) fs r).
Proof.
  intros Ew Eg. unfold runDirectMode. step. eapply does_bind; [apply release_does|intros _]. step.
  assert (forall runErr fs0, (runErr = None <-> fs0 = []) -> finishes (_ <- mark s false ;; shutdownErr <- shutdown s ;;
    Ret (match shutdownErr with Some e => Join runErr (Some e) | None => runErr end)) (fun acts fs r => run_post s
      (on (metricsServer s) [Up Metrics] ++ [Up HeartbeatMonitor] ++
        (on (releaseReconciler s) [Up Reconciler] ++ on (releaseScheduler s) [Up Scheduler]) ++ [Up Asynq] ++ [Stopping] ++ acts) (fs0 ++ fs) r)) as Hrest.
  { intros runErr fs0 H0. apply marked_bind. intros d Hd. apply finishes_bind. eapply finishes_mono; [apply shutdown_finishes|].
    intros acts fs r [-> Hr]. cbn. rewrite !app_nil_r. split; [exists d, []|].
    - split; [done|]. unfold waits, ups. rewrite Ew, Eg. split; [done|]. rewrite app_nil_r. by rewrite <- !app_assoc.
    - rewrite app_nil. destruct r as [e|]; [|rewrite H0; naive_solver].
      split; [by destruct runErr|]. intros [_ H]. by apply Hr in H. }
  intros [err|]; cbn [bind].
  - intros []. assert (forall e : error, Some e = None <-> [err] = []) as He by (intros; split; [intros [=]|intros [=]]). exact (Hrest _ [err] (He _)).
  - exact (Hrest None [] ltac:(done)).
Qed.

Lemma run_finishes s : finishes (Run s) (run_post s).
Proof.
  unfold Run, startMetricsServer. step. destruct (watchers s) eqn:Ew; [by apply sortition_finishes|].
  destruct (gwClient s) eqn:Eg; [|by apply direct_finishes].
  unfold runGatewayMode. eapply does_bind; [apply release_does|intros _]. do 3 step. apply marked_bind. intros d Hd.
  eapply finishes_mono; [apply shutdown_finishes|]. intros acts fs r [-> Hr]. split; [|done].
  exists d, []. unfold waits, ups, on. rewrite Ew, Eg, app_nil_r. split; [done|]. split; [done|]. by rewrite <- !app_assoc.
Qed.

(** ** In which order *)
#[global] Instance part_eq_dec : EqDecision part.
Proof. solve_decision. Defined.
#[global] Instance action_eq_dec : EqDecision action.
Proof. solve_decision. Defined.

(** No [a] comes after a [b]; and so, [before a a], [a] comes at most once. *)
Fixpoint before (a b : action) (l : list action) : Prop :=
  match l with
  | [] => True
  | x :: l => (x = b -> a ∉ l) /\ before a b l
  end.
#[global] Instance before_dec a b l : Decision (before a b l).
Proof. induction l as [|x l IH]; cbn; apply _. Defined.
Definition once (a : action) (l : list action) : Prop := a ∈ l /\ before a a l.

Lemma before_sublist a b l l' : l `sublist_of` l' -> before a b l' -> before a b l.
Proof.
  induction 1 as [|x l l' Hl IH|x l l' Hl IH]; cbn; [done| |tauto]. intros [H1 H2]. split; [|by apply IH].
  intros Hx Hin. apply (H1 Hx). by eapply elem_of_sublist.
Qed.

(** The parts that are stopped or closed, those of them that work with the
    resources, and the resources; a started part that is neither ends with its
    context. *)
Definition has (s : Service) (p : part) : bool :=
  match p with
  | Metrics => metricsServer s | Asynq => asynqServer s | HeartbeatMonitor => monitor s
  | Scheduler => releaseScheduler s | Reconciler => releaseReconciler s | Store => releaseStore s
  | Redis => redis s | Chain => chainClient s | Coordinator => coordinator s
  | GatewayHeartbeat | JobStream | ResponseStream | Sessions | Jobs => false
  end.
Definition is_user (p : part) : bool := match p with Asynq | HeartbeatMonitor | Scheduler | Reconciler => true | _ => false end.
Definition is_resource (p : part) : bool := match p with Store | Redis | Chain | Coordinator => true | _ => false end.
Definition ends_with_context (p : part) : bool :=
  match p with GatewayHeartbeat | JobStream | ResponseStream | Sessions | Jobs => true | _ => false end.

Record ordered (l : list action) : Prop := {
  od_stop : before Stopping Stopping l;
  od_up p : before (Up p) (Up p) l /\ before (Up p) Stopping l;
  od_down p : before (Down p) (Down p) l /\ before Stopping (Down p) l;
  od_users p q : is_user p = true -> is_resource q = true -> before (Down p) (Down q) l;
  od_keys : before KeysZeroed KeysZeroed l /\ before Stopping KeysZeroed l /\ before (Down Asynq) KeysZeroed l /\
    forall q, is_resource q = true -> before KeysZeroed (Down q) l;
  od_drain : before Drained Drained l /\ before Stopping Drained l /\ before Drained KeysZeroed l /\
    forall p, before Drained (Down p) l;
  od_jobs b : before Stopping (Waited b) l /\ before (Waited b) KeysZeroed l /\ forall p, before (Waited b) (Down p) l;
}.

Lemma ordered_sublist l l' : l `sublist_of` l' -> ordered l' -> ordered l.
Proof. intros Hl [H1 H2 H3 H4 H5 H6 H7]. split; intros; repeat split; intros; (eapply before_sublist; [exact Hl|]); naive_solver. Qed.

Definition all_ups (w gw : bool) : list action :=
  Up Metrics :: if w then [Up Reconciler; Up Scheduler; Up HeartbeatMonitor; Up GatewayHeartbeat; Up ResponseStream; Up Sessions; Up Jobs]
  else if gw then [Up Reconciler; Up Scheduler; Up GatewayHeartbeat; Up JobStream]
  else [Up HeartbeatMonitor; Up Reconciler; Up Scheduler; Up Asynq].
Definition all_downs : list action :=
  [Down Metrics; Down Asynq; KeysZeroed; Down HeartbeatMonitor; Down Scheduler; Down Reconciler; Down Store; Down Redis; Down Chain; Down Coordinator].

Lemma on_sublist b l : on b l `sublist_of` l.
Proof. destruct b; [done|]. apply sublist_nil_l. Qed.
Lemma ups_sublist s : ups s `sublist_of` all_ups (watchers s) (gwClient s).
Proof.
  unfold ups, all_ups. destruct (metricsServer s), (watchers s), (gwClient s), (releaseReconciler s), (releaseScheduler s), (monitor s), (streamPub s);
    vm_compute; repeat constructor.
Qed.
Lemma downs_sublist s : downs s `sublist_of` all_downs.
Proof.
  unfold downs, all_downs.
  do 2 (apply (sublist_app _ [_]); [apply on_sublist|]). apply (sublist_app _ [_]); [done|].
  do 6 (apply (sublist_app _ [_]); [apply on_sublist|]). apply on_sublist.
Qed.

Ltac orders := refine (bool_decide_unpack _ _); vm_compute; exact I.
Lemma full_ordered s w : waits s w ->
  ordered (all_ups (watchers s) (gwClient s) ++ [Stopping; Drained] ++ w ++ all_downs ++ on (watchers s) [Cancelled]).
Proof.
  unfold waits. destruct (watchers s); [intros [->|[[] ->]]|intros ->; destruct (gwClient s)].
  all: split; [orders|intros []; split; orders|intros []; split; orders|intros [] [] [=] [=]; orders|..].
  all: try (split; [orders|split; [orders|split; [orders|intros [] [=]; orders]]]; fail).
  all: try (split; [orders|split; [orders|split; [orders|intros []; orders]]]; fail).
  all: intros []; (split; [orders|split; [orders|intros []; orders]]).
Qed.

(** What an orderly life looks like, from the first start to the last close. *)
Record orderly (s : Service) (l : list action) : Prop := {
  or_stop : once Stopping l;
  or_up p : before (Up p) (Up p) l /\ before (Up p) Stopping l;
  or_started p : Up p ∈ l -> has s p = true \/ ends_with_context p = true;
  or_down p : if has s p then once (Down p) l /\ before Stopping (Down p) l else Down p ∉ l;
  or_users p q : is_user p = true -> is_resource q = true -> before (Down p) (Down q) l;
  or_keys : once KeysZeroed l /\ before Stopping KeysZeroed l /\ before (Down Asynq) KeysZeroed l /\
    forall q, is_resource q = true -> before KeysZeroed (Down q) l;
  or_drain : before Drained Drained l /\ before Stopping Drained l /\ before Drained KeysZeroed l /\
    forall p, before Drained (Down p) l;
  or_jobs : if watchers s
    then (Waited true ∈ l /\ Waited false ∉ l \/ exists l1 b l2, l = l1 ++ [Waited false; Cancelled; Waited b] ++ l2) /\
         forall b, before Stopping (Waited b) l /\ before (Waited b) KeysZeroed l /\ forall p, before (Waited b) (Down p) l
    else forall b, Waited b ∉ l;
}.

(** In the default mode the service has the monitor and the queue server it
    starts; [New] builds no other. *)
Definition whole (s : Service) : Prop :=
  watchers s = false -> gwClient s = false -> monitor s = true /\ asynqServer s = true.

Lemma elem_of_on a b l : a ∈ on b l <-> b = true /\ a ∈ l.
Proof. destruct b; cbn; [tauto|]. rewrite elem_of_nil. naive_solver. Qed.
Lemma down_has s p : Down p ∈ downs s <-> has s p = true.
Proof.
  unfold downs. repeat setoid_rewrite elem_of_app. repeat setoid_rewrite elem_of_on. repeat setoid_rewrite list_elem_of_singleton.
  split; [intros H; destruct_or?; destruct_and?; simplify_eq; done|destruct p; cbn; intros H; first [discriminate H|auto 20]].
Qed.
Lemma up_has s p : whole s -> Up p ∈ ups s -> has s p = true \/ ends_with_context p = true.
Proof.
  unfold ups, whole. intros Hw. repeat setoid_rewrite elem_of_app. repeat setoid_rewrite elem_of_on.
  destruct (watchers s), (gwClient s); try (destruct (Hw eq_refl eq_refl)); repeat setoid_rewrite elem_of_app;
    repeat setoid_rewrite elem_of_on; repeat setoid_rewrite elem_of_cons; repeat setoid_rewrite elem_of_nil;
    intros Hin; repeat (destruct_or? || destruct_and?); simplify_eq/=; cbn; auto.
Qed.

Lemma only_ups s : Forall (fun a => match a with Up _ => True | _ => False end) (ups s).
Proof.
  unfold ups, on. destruct (metricsServer s), (watchers s), (gwClient s), (releaseReconciler s), (releaseScheduler s), (monitor s), (streamPub s);
    cbn; repeat constructor.
Qed.
Lemma only_downs s : Forall (fun a => match a with Down _ | KeysZeroed => True | _ => False end) (downs s).
Proof.
  assert (forall b p, Forall (fun a => match a with Down _ | KeysZeroed => True | _ => False end) (on b [Down p])) as Hon by (intros [] p; repeat constructor).
  unfold downs. rewrite !Forall_app. repeat split; auto.
Qed.

(** Membership in a run's actions, by its phases. *)
Lemma acts_elem s d w a : let acts := ups s ++ [Stopping] ++ d ++ w ++ downs s ++ on (watchers s) [Cancelled] in
  d = [] \/ d = [Drained] -> waits s w -> a ∈ acts ->
  match a with Up _ => a ∈ ups s | Down _ => a ∈ downs s | Waited _ => a ∈ w | _ => True end.
Proof.
  intros acts Hd Hw. unfold acts. rewrite !elem_of_app, elem_of_on, !list_elem_of_singleton.
  pose proof (only_ups s) as Hu. pose proof (only_downs s) as Hdn. rewrite Forall_forall in Hu, Hdn.
  assert (a ∈ d -> a = Drained) as Hd' by (destruct Hd as [-> | ->]; set_solver).
  assert (a ∈ w -> match a with Waited _ | Cancelled => True | _ => False end) as Hw'.
  { unfold waits in Hw. destruct (watchers s); [destruct Hw as [->|[b ->]]|subst w]; set_unfold; naive_solver. }
  specialize (Hu a). specialize (Hdn a). destruct a; naive_solver.
Qed.

Lemma run_is_orderly s d w : whole s -> d = [] \/ d = [Drained] -> waits s w ->
  orderly s (ups s ++ [Stopping] ++ d ++ w ++ downs s ++ on (watchers s) [Cancelled]).
Proof.
  intros Hs Hd Hw. set (acts := _ ++ _).
  assert (ordered acts) as [H1 H2 H3 H4 H5 H6 H7].
  { eapply ordered_sublist; [|exact (full_ordered s w Hw)]. unfold acts. apply sublist_app; [apply ups_sublist|].
    change ([Stopping; Drained] ++ w ++ all_downs ++ on (watchers s) [Cancelled])
      with ([Stopping] ++ [Drained] ++ w ++ all_downs ++ on (watchers s) [Cancelled]).
    apply sublist_app; [done|]. apply sublist_app; [destruct Hd as [-> | ->]; [apply sublist_nil_l|done]|].
    apply sublist_app; [done|]. by apply sublist_app; [apply downs_sublist|]. }
  assert (forall a, a ∈ acts -> match a with Up _ => a ∈ ups s | Down _ => a ∈ downs s | Waited _ => a ∈ w | _ => True end) as Hin
    by (intros a; by apply acts_elem).
  split; auto.
  - split; [|done]. unfold acts. rewrite !elem_of_app. right; left. by apply list_elem_of_singleton.
  - intros p Hp. by apply up_has, (Hin (Up p)).
  - intros p. destruct (has s p) eqn:Ep; [|intros Hp; apply (Hin (Down p)), down_has in Hp; congruence].
    apply down_has in Ep. split; [split; [|apply H3]|apply H3]. unfold acts. rewrite !elem_of_app. do 4 right. by left.
  - split; [split; [|apply H5]|apply H5]. unfold acts, downs. rewrite !elem_of_app. do 4 right. left. right; right; left. by apply list_elem_of_singleton.
  - unfold waits in Hw. destruct (watchers s) eqn:Ew; [|subst w; intros b Hb; apply (Hin (Waited b)) in Hb; by apply elem_of_nil in Hb].
    split; [|exact H7]. destruct Hw as [->|[b ->]].
    { left. split; [unfold acts; rewrite !elem_of_app; do 3 right; left; by apply list_elem_of_singleton|].
      intros Hf. apply (Hin (Waited false)) in Hf. by apply list_elem_of_singleton in Hf. }
    right.
    exists (ups s ++ [Stopping] ++ d), b, (downs s ++ on true [Cancelled]). unfold acts. by rewrite <- !app_assoc.
Qed.


(** ** Runs *)
Definition demo_parts (answers : bool) (keys : result unit) : handler LifeE unit := fun X e w =>
  match e in LifeE X return X * unit with
  | SignalOrServer => (None, tt)
  | SendDrain | SendUndrain | SetDraining _ | Undraining => (Err (errorf "connection refused"), tt)
  | GetDisputeWindow _ => (Ok (24 * Hour), tt)
  | ReadAnswer => (Some "Yes "%string, tt)
  | AwaitJobs => (answers, tt)
  | AwaitCancelledJobs _ => (true, tt)
  | ShutdownMetricsServer | CloseReleaseStore | CloseRedis => (Err (errorf "closed"), tt)
  | ZeroAll => (keys, tt)
  | StopMonitor | StopScheduler | StopReconciler => (false, tt)
  | ShutdownExpired => (None, tt)
  | LoadActiveJobs => (2, tt)
  | SinceStart => (90 * Second, tt)
  | LifeNow => (1000 * Second, tt)
  | ProbeRequest _ => (Ok tt, tt)
  | Probe => (Ok 200, tt)
  | ExecPipeline _ _ _ => (Ok tt, tt)
  | _ => (tt, tt)
  end.
Definition sortition_service : Service :=
  MkService true false true false false true true true true true true true (Drain.MkDrainConfig 0 0 true).
Definition gateway_service : Service :=
  MkService true false false true false false true true true false true true (Drain.MkDrainConfig 0 0 true).
Definition demo_life (answers : bool) (keys : result unit) (s : Service) := interp (demo_parts answers keys) (Run s) tt.

Example demo_lives :
  actions (fst (fst (demo_life false (Ok tt) sortition_service))) =
    [Up Metrics; Up Reconciler; Up Scheduler; Up HeartbeatMonitor; Up Sessions; Up Jobs; Stopping; Drained;
     Waited false; Cancelled; Waited true; Down Metrics; KeysZeroed; Down HeartbeatMonitor; Down Scheduler;
     Down Reconciler; Down Store; Down Redis; Down Chain; Down Coordinator; Cancelled] /\
  snd (fst (demo_life true (Err (errorf "disk full")) sortition_service)) =
    Some (wrap "zero session keys" (errorf "disk full")).
Proof. vm_compute. done. Qed.

(** Gateway mode zeroes the keys without waiting for the jobs of the stream. *)
Example gateway_jobs_are_not_awaited :
  actions (fst (fst (demo_life true (Ok tt) gateway_service))) =
    [Up Metrics; Up Reconciler; Up Scheduler; Up GatewayHeartbeat; Up JobStream; Stopping; Drained;
     Down Metrics; KeysZeroed; Down Scheduler; Down Reconciler; Down Store; Down Chain; Down Coordinator].
Proof. vm_compute. done. Qed.

End Service.
