(* ===== verification/Operator.v ===== *)
(** The operator's commands, [internal/cli/handler.go] and
    [internal/cli/settlement.go]: registering and preparing the release state
    of a fresh worker, adding models, stake and suspension, and the withdrawal.
    What they print is left out. *)
From S2P Require Import Prelude Effects GoText Checkpoint JobCalls Chain Registration.

#[local] Open Scope prog_scope.

(** What the commands call. [Reg]: the registration client; [OpHead] and
    [NonceAt]: the reads a seed is taken from; [StatDir] answers whether the
    directory of the release state belongs to the user; [Ask] is the line
    typed in answer to a question, [None] when there is none. *)
Inductive OpE : Type -> Type :=
  | Reg {X : Type} (e : RegE X) : OpE X
  | LoadECDHKey : OpE (result bytes)
  | OpHead : OpE (result HeadInfo)
  | NonceAt (block : Z) : OpE (result Z)
  | StatDir : OpE (result bool)
  | OpenReleaseStore : OpE (result unit)
  | SeedReconcileBlock (block : Z) : OpE (result bool)
  | CloseReleaseStore : OpE unit
  | IsWorkerSuspended : OpE (result bool)
  | GetSuspendedUntil : OpE (result Z)
  | Balance : OpE (result Z)
  | GetWorkerStake : OpE (result Z)
  | OpMinWorkerStake : OpE (result Z)
  | OpReinstate : OpE (result unit)
  | OpTopUpStake (amount : Z) : OpE (result unit)
  | Ask : OpE (option string)
  | WorkerBalance : OpE (result (option Z))
  | OpWithdraw : OpE (result unit).


Module Operator.

(** [ReconcileSeed]: the reconciler's depth behind the head, and whether the
    job registry's address is set. *)
Record ReconcileSeed : Type := MkSeed { Confirmations : Z; has_JobRegistry : bool }.

(** [Handler]. *)
Record Handler : Type := MkHandler {
  ModelIDs : list Z;
  ModelNames : list string;
  WorkerStake : option Z;
  Seed : option ReconcileSeed;
  Yes : bool;
}.

(** A pair of a block and an error. *)
Definition freshWorkerSafeHead (h : Handler) : prog OpE (Z * option error) :=
  match Seed h with
  | None => Ret (0, None)
  | Some s =>
      r <- call (Reg IsWorkerRegistered) ;;
      match r with
      | Err e => Ret (0, Some e)
      | Ok true => Ret (0, None)
      | Ok false =>
          r <- call OpHead ;;
          match r with
          | Err e => Ret (0, Some e)
          | Ok head =>
              if Number head <? Confirmations s then Ret (0, None)
              else
                let safeHead := u64_wrap (Number head - Confirmations s) in
                r <- call (NonceAt safeHead) ;;
                match r with
                | Err e => Ret (0, Some e)
                | Ok nonce => if negb (nonce =? 0) then Ret (0, None) else Ret (safeHead, None)
                end
          end
      end
  end.

Definition storeReconcileBlock (s : ReconcileSeed) (block : Z) : prog OpE (result unit) :=
  if negb (has_JobRegistry s) then Ret (Err (errorf "JOB_REGISTRY_ADDRESS is not set"))
  else
    own <-? call StatDir ;;
    if negb own then Ret (Err (errorf "belongs to another user"))
    else
      _ <-? call OpenReleaseStore ;;
      deferred (_ <-? call (SeedReconcileBlock block) ;; Ret (Ok tt)) (fun _ => call CloseReleaseStore).

(** [seedReconcileBlock]: an error is only printed. *)
Definition seedReconcileBlock (h : Handler) (block : Z) (err : option error) : prog OpE unit :=
  match err, Seed h with
  | None, Some s => if block =? 0 then Ret tt else _ <- storeReconcileBlock s block ;; Ret tt
  | _, _ => Ret tt
  end.

Definition Register (h : Handler) : prog OpE (result unit) :=
  match ModelIDs h with
  | [] => Ret (Err (errorf "SUPPORTED_MODELS is required for registration"))
  | _ =>
      ecdhKey <-? wrap_err "load/generate ECDH key" (call LoadECDHKey) ;;
      seed <- freshWorkerSafeHead h ;;
      _ <-? wrap_err "registration"
        (lift (@Reg) (RegistrationManager.EnsureRegistered (RegistrationManager.MkManager (ModelIDs h)) ecdhKey (WorkerStake h))) ;;
      _ <- seedReconcileBlock h (fst seed) (snd seed) ;;
      Ret (Ok tt)
  end.

(** The loop of [AddModels]: how many were added, and how many were not. *)
Fixpoint add_each (modelIDs : list Z) (added failed : Z) : prog OpE (Z * Z) :=
  match modelIDs with
  | [] => Ret (added, failed)
  | modelID :: modelIDs =>
      r <- call (Reg (AddSupportedModel modelID)) ;;
      match r with
      | Err _ => add_each modelIDs added (failed + 1)
      | Ok _ => add_each modelIDs (added + 1) failed
      end
  end.

Definition AddModels (h : Handler) : prog OpE (result unit) :=
  match ModelIDs h with
  | [] => Ret (Err (errorf "SUPPORTED_MODELS is required for add-models"))
  | _ =>
      if negb (bool_decide (length (ModelNames h) = length (ModelIDs h))) then
        Ret (Err (errorf "ModelNames length does not match ModelIDs length"))
      else
        counts <- add_each (ModelIDs h) 0 0 ;;
        Ret (if 0 <? snd counts then Err (errorf "model(s) not added") else Ok tt)
  end.

Definition Deregister : prog OpE (result unit) :=
  wrap_err "deregistration" (lift (@Reg) RegistrationManager.Deregister).

(** ** Stake and suspension *)
Definition lcaiToWei (n : Z) : Z := n * 1000000000000000000.
Definition gasBufferLCAI : Z := 50.

(** [cooldown]: what is left of it, as a duration. *)
Definition cooldown (until : Z) (head : HeadInfo) : Z := i64_wrap (i64_wrap (i64_wrap until - Timestamp head) * Second).

Definition Reinstate : prog OpE (result unit) :=
  registered <-? wrap_err "read registration" (call (Reg IsWorkerRegistered)) ;;
  if negb registered then Ret (Err (errorf "worker is not registered - there is nothing to reinstate")) else
  suspended <-? wrap_err "read suspension" (call IsWorkerSuspended) ;;
  if negb suspended then Ret (Err (errorf "worker is not suspended - there is nothing to reinstate")) else
  stake <-? wrap_err "read stake" (call GetWorkerStake) ;;
  minStake <-? wrap_err "read the minimum stake" (call OpMinWorkerStake) ;;
  if stake <? minStake then Ret (Err (errorf "stake is below the on-chain minimum; nothing was sent")) else
  until <-? wrap_err "read the cooldown end" (call GetSuspendedUntil) ;;
  head <-? wrap_err "read the latest block" (call OpHead) ;;
  if 0 <? cooldown until head then Ret (Err (errorf "the suspension cooldown is still running; nothing was sent")) else
  r <- call OpReinstate ;;
  Ret (match r with
       | Err e => if str_contains (err_msg e) "reverted"
                  then Err (MkError (err_msg e +:+ " - the chain rejects reinstate while the suspension cooldown is still running") (err_is e) (err_code e))
                  else Err e
       | Ok _ => Ok tt
       end).

(** [confirm], of the line [ask] returned. *)
Definition confirm (line : option string) : bool :=
  match line with
  | None => false
  | Some line => let a := to_lower (TrimSpace line) in bool_decide (a = "y"%string) || bool_decide (a = "yes"%string)
  end.

Definition TopUpStake (h : Handler) (amount : Z) : prog OpE (result unit) :=
  registered <-? wrap_err "read registration" (call (Reg IsWorkerRegistered)) ;;
  if negb registered then Ret (Err (errorf "worker is not registered - there is no stake to top up")) else
  bal <-? wrap_err "read balance" (call Balance) ;;
  if bal <=? amount then Ret (Err (errorf "topping up needs gas on top; nothing was sent")) else
  stake <-? wrap_err "read stake" (call GetWorkerStake) ;;
  minStake <-? wrap_err "read the minimum stake" (call OpMinWorkerStake) ;;
  suspended <-? wrap_err "read suspension" (call IsWorkerSuspended) ;;
  confirmed <- (if Yes h then Ret true else line <- call Ask ;; Ret (confirm line)) ;;
  if negb confirmed then Ret (Err (errorf "top-up not confirmed, nothing was sent")) else
  call (OpTopUpStake amount).

(** [Withdraw]: the balance read afterwards is only printed. *)
Definition Withdraw : prog OpE (result unit) :=
  preBalance <-? wrap_err "read pre-withdraw balance" (call WorkerBalance) ;;
  match preBalance with
  | None => Ret (Ok tt)
  | Some b =>
      if b =? 0 then Ret (Ok tt)
      else
        _ <-? wrap_err "withdraw tx" (call OpWithdraw) ;;
        _ <- call WorkerBalance ;;
        Ret (Ok tt)
  end.

(** [Status]: it fails only when the registration cannot be read. *)
Definition Status : prog OpE (result unit) :=
  registered <-? wrap_err "check registration status" (call (Reg IsWorkerRegistered)) ;;
  if negb registered then Ret (Ok tt) else
  onChainKey <- call (Reg GetWorkerEncryptionKey) ;;
  match onChainKey with
  | Err _ => Ret (Ok tt)
  | Ok _ => _ <- call LoadECDHKey ;; Ret (Ok tt)
  end.

Definition Keygen : prog OpE (result unit) :=
  _ <-? wrap_err "load/generate ECDH key" (call LoadECDHKey) ;; Ret (Ok tt).

(** ** What the commands may send *)

(** The blocks stored as the reconcile cursor, and the stake transactions. *)
Definition seed_of Y (e : OpE Y) : Y -> list Z :=
  match e with SeedReconcileBlock block => fun _ => [block] | _ => fun _ => [] end.
Definition seeded (tr : list (called OpE)) : list Z := answered seed_of tr.

Inductive stake_tx : Type := ReinstateTx | TopUpTx (amount : Z).
Definition stake_of Y (e : OpE Y) : Y -> list stake_tx :=
  match e with OpReinstate => fun _ => [ReinstateTx] | OpTopUpStake amount => fun _ => [TopUpTx amount] | _ => fun _ => [] end.
Definition sent (tr : list (called OpE)) : list stake_tx := answered stake_of tr.

(** Calls of the registration client. *)
Definition registering (X : Type) (e : OpE X) : Prop := match e with Reg _ => True | _ => False end.

Lemma lift_registering {A} (p : prog RegE A) : uses registering (lift (@Reg) p).
Proof. induction p as [a|X e k IH]; [done|]. by split. Qed.

Section Seed.
(** The worker's key: the transactions it had sent by a block, and the blocks
    its jobs complete in. Completing a job takes a transaction of the key. *)
Context (nonce_at : Z -> Z) (completed : Z -> Prop).

Record key_history : Prop := {
  nonce_mono a b : a <= b -> nonce_at a <= nonce_at b;
  completed_sent c : completed c -> 0 < nonce_at c;
}.

Definition truthful (c : called OpE) : Prop :=
  match c with
  | Called e x => match e in OpE X return X -> Prop with
                  | NonceAt block => fun r => forall n, r = Ok n -> n = nonce_at block
                  | _ => fun _ => True
                  end x
  end.

Definition fresh_post (h : Handler) (tr : list (called OpE)) (r : Z * option error) : Prop :=
  seeded tr = [] /\ (Forall truthful tr -> fst r <> 0 -> snd r = None /\ 0 < fst r /\ nonce_at (fst r) = 0 /\
    exists s head, Seed h = Some s /\ Called OpHead (Ok head) ∈ tr /\ Confirmations s <= Number head /\
      fst r = u64_wrap (Number head - Confirmations s)).

Lemma fresh_always h : always (freshWorkerSafeHead h) (fresh_post h).
Proof.
  unfold freshWorkerSafeHead. destruct (Seed h) as [s|] eqn:Es; [|by split].
  walk; (split; [done|]); try done. intros Ht Hb. reflect_Z. cbn [fst snd] in *.
  pose proof (u64_wrap_range (Number a - Confirmations s)) as Hr. unfold is_u64 in Hr.
  split; [done|]. split; [lia|]. split.
  - apply Forall_cons in Ht as [_ [_ [Hn _]%Forall_cons]%Forall_cons]. cbn in Hn. rewrite <- (Hn _ eq_refl). by subst.
  - exists s, a. split; [done|]. split; [set_solver|]. by split.
Qed.

Definition stored_post (block : Z) (err : option error) (tr : list (called OpE)) (r : unit) : Prop :=
  forall b, b ∈ seeded tr -> b = block /\ block <> 0 /\ err = None.

Lemma stored_always h block err : always (seedReconcileBlock h block err) (stored_post block err).
Proof.
  unfold seedReconcileBlock, storeReconcileBlock, try, deferred. destruct err as [e|]; [by intros ? []%elem_of_nil|]. destruct (Seed h) as [s|]; [|by intros ? []%elem_of_nil].
  destruct (Z.eqb_spec block 0) as [|Hb]; [by intros ? []%elem_of_nil|]. walk; intros x; unfold seeded; cbn; set_solver.
Qed.

Definition register_post (h : Handler) (tr : list (called OpE)) (r : result unit) : Prop :=
  Forall truthful tr -> forall b, b ∈ seeded tr -> r = Ok tt /\ 0 < b /\ nonce_at b = 0 /\
    exists s head, Seed h = Some s /\ Called OpHead (Ok head) ∈ tr /\ Confirmations s <= Number head /\
      b = u64_wrap (Number head - Confirmations s).

Lemma seeded_app tr tr' : seeded (tr ++ tr') = seeded tr ++ seeded tr'.
Proof. apply answered_app. Qed.

Lemma register_always h : always (Register h) (register_post h).
Proof.
  unfold Register, wrap_err, try. destruct (ModelIDs h) as [|m ms]; [by intros _ b []%elem_of_nil|]. cbn [bind call always].
  intros [key|e]; cbn [bind always]; [|by intros _ b []%elem_of_nil].
  apply always_bind. eapply always_mono; [apply fresh_always|]. intros tr0 [b0 e0] [Hs0 Hf]. cbn [fst snd] in *.
  apply always_bind. apply always_bind.
  eapply always_mono; [apply (uses_answered registering seed_of _ (lift_registering _)); by intros ? []|].
  intros tr1 r1 Hs1. assert (seeded (Called LoadECDHKey (Ok key) :: tr0 ++ tr1 ++ []) = []) as Hnone.
  { change (seeded ([Called LoadECDHKey (Ok key)] ++ tr0 ++ tr1 ++ []) = []). rewrite !seeded_app, Hs0. unfold seeded at 2. by rewrite Hs1. }
  destruct r1 as [[]|e1]; cbn [always].
  2: { rewrite !app_nil_r in *. intros _ b. rewrite Hnone. by intros []%elem_of_nil. }
  cbn [bind]. apply always_bind. eapply always_mono; [apply stored_always|]. intros tr2 [] Hst. cbn [always].
  intros Ht b Hb. 
  change (Called LoadECDHKey (Ok key) :: tr0 ++ (tr1 ++ []) ++ tr2 ++ []) with ([Called LoadECDHKey (Ok key)] ++ tr0 ++ (tr1 ++ []) ++ tr2 ++ []) in *.
  rewrite app_nil_r in *.
  assert (b ∈ seeded tr2) as [-> [Hb0 _]]%Hst.
  { rewrite !seeded_app, Hs0 in Hb. unfold seeded at 2 in Hb. rewrite Hs1 in Hb. rewrite app_nil_r in Hb. exact Hb. }
  apply Forall_app in Ht as [_ [Ht0 _]%Forall_app]. destruct (Hf Ht0 Hb0) as (_ & Hp & Hn & s & head & ? & ? & ? & ?).
  split; [done|]. split; [done|]. split; [done|]. exists s, head. split; [done|]. split; [set_solver|]. by split.
Qed.

(** C30. Preparing the release state of a fresh worker hides no job from its
    reconciler: a cursor is stored only after the registration went through,
    at the safe head read before it, and every job of the worker completes after
    that block, because by then its key, whose transactions only grow in
    number, had sent none. *)
Theorem fresh_seed_hides_no_job h tr r : key_history -> runs (Register h) tr r -> Forall truthful tr ->
  forall b, b ∈ seeded tr -> r = Ok tt /\ 0 < b /\ (forall c, completed c -> b < c) /\
    exists s head, Seed h = Some s /\ Called OpHead (Ok head) ∈ tr /\ Confirmations s <= Number head /\
      b = u64_wrap (Number head - Confirmations s).
Proof.
  intros [Hmono Hpos] Hr Ht b Hb. destruct (always_runs _ _ _ _ (register_always h) Hr Ht b Hb) as (-> & Hb0 & Hn & Hs).
  split; [done|]. split; [done|]. split; [|done]. intros c Hc. specialize (Hpos c Hc).
  destruct (Z.lt_ge_cases b c) as [|Hle]; [done|]. specialize (Hmono c b Hle). lia.
Qed.
End Seed.

(** What a run of [Reinstate] that sends its transaction has read, and the same
    for a top-up. *)
Definition reinstate_reads (stake minStake until : Z) (head : HeadInfo) : list (called OpE) :=
  [Called (Reg IsWorkerRegistered) (Ok true); Called IsWorkerSuspended (Ok true); Called GetWorkerStake (Ok stake);
   Called OpMinWorkerStake (Ok minStake); Called GetSuspendedUntil (Ok until); Called OpHead (Ok head)].
Definition top_up_reads (bal stake minStake : Z) (suspended : bool) : list (called OpE) :=
  [Called (Reg IsWorkerRegistered) (Ok true); Called Balance (Ok bal); Called GetWorkerStake (Ok stake);
   Called OpMinWorkerStake (Ok minStake); Called IsWorkerSuspended (Ok suspended)].

Definition reinstate_post (tr : list (called OpE)) (r : result unit) : Prop :=
  sent tr = [] /\ is_ok r = false \/
  exists stake minStake until head answer,
    tr = reinstate_reads stake minStake until head ++ [Called OpReinstate answer] /\ is_ok r = is_ok answer /\
    minStake <= stake /\ cooldown until head <= 0.

Lemma reinstate_always : always Reinstate reinstate_post.
Proof.
  unfold Reinstate, wrap_err, try. walk; try (by left); right; reflect_Z; subst.
  exists a1, a2, a3, a4, x. split; [done|]. split; [|by split]. destruct x as [|e]; [done|by destruct (str_contains _ _)].
Qed.

Definition top_up_post (h : Handler) (amount : Z) (tr : list (called OpE)) (r : result unit) : Prop :=
  sent tr = [] /\ is_ok r = false \/
  exists bal stake minStake suspended line answer,
    tr = top_up_reads bal stake minStake suspended ++ (if Yes h then [] else [Called Ask line]) ++ [Called (OpTopUpStake amount) answer] /\
    r = answer /\ amount < bal /\ (Yes h = false -> confirm line = true).

Lemma top_up_always h amount : always (TopUpStake h amount) (top_up_post h amount).
Proof.
  unfold TopUpStake, wrap_err, try. walk; try (by left); right; reflect_Z; subst; reflect_Z.
  - exists a0, a1, a2, a3, None, x. match goal with H : Yes h = _ |- _ => rewrite H end. by repeat split.
  - exists a0, a1, a2, a3, x, x0. match goal with H : Yes h = _ |- _ => rewrite H end. by repeat split.
Qed.

Lemma cooldown_over until head : is_i64 until -> 0 <= Timestamp head <= i64_max -> cooldown until head <= 0 ->
  until <= Timestamp head \/ i64_max / Second < until - Timestamp head.
Proof.
  intros Hu Ht Hc. destruct (Z.le_gt_cases until (Timestamp head)) as [|Hlt]; [by left|right].
  destruct (Z.lt_ge_cases (i64_max / Second) (until - Timestamp head)) as [|Hle]; [done|]. exfalso.
  unfold is_i64, i64_min, i64_max in *. unfold cooldown in Hc. rewrite (i64_wrap_id until) in Hc by (unfold is_i64, i64_min, i64_max; lia).
  rewrite (i64_wrap_id (until - _)) in Hc by (unfold is_i64, i64_min, i64_max; lia).
  assert ((until - Timestamp head) * Second <= i64_max).
  { unfold i64_max. pose proof (Z.mul_div_le (2 ^ 63 - 1) Second). unfold Second in *. nia. }
  rewrite i64_wrap_id in Hc; unfold is_i64, i64_min, i64_max, Second in *; lia.
Qed.

(** The commands that move stake check first and send once: [Reinstate]
    sends its transaction, its last call, only after it read that the worker
    is registered and suspended, holds the minimum stake and is past its
    cooldown (windows of 292 years apart, which wrap); [TopUpStake] sends
    exactly the amount asked for, once, only for a registered worker whose
    balance exceeds it and, unless told not to ask, after a yes. In every
    other case nothing was sent and the command fails. *)
Theorem stake_commands_check_first h amount tr1 r1 tr2 r2 :
  runs Reinstate tr1 r1 -> runs (TopUpStake h amount) tr2 r2 ->
  (sent tr1 = [] /\ is_ok r1 = false \/
   exists stake minStake until head answer,
     tr1 = reinstate_reads stake minStake until head ++ [Called OpReinstate answer] /\ is_ok r1 = is_ok answer /\
     minStake <= stake /\
     (is_i64 until -> 0 <= Timestamp head <= i64_max ->
        until <= Timestamp head \/ i64_max / Second < until - Timestamp head)) /\
  (sent tr2 = [] /\ is_ok r2 = false \/
   exists bal stake minStake suspended line,
     tr2 = top_up_reads bal stake minStake suspended ++ (if Yes h then [] else [Called Ask line]) ++ [Called (OpTopUpStake amount) r2] /\
     amount < bal /\ (Yes h = false -> confirm line = true)).
Proof.
  intros H1 H2. split.
  - destruct (always_runs _ _ _ _ reinstate_always H1) as [?|(s & m & u & hd & x & E & Hx & Hs & Hc)]; [by left|right].
    exists s, m, u, hd, x. split; [done|]. split; [done|]. split; [done|]. intros. by apply cooldown_over.
  - destruct (always_runs _ _ _ _ (top_up_always h amount) H2) as [?|(b & s & m & su & l & x & E & -> & Hb & Hc)]; [by left|right].
    by exists b, s, m, su, l.
Qed.

(** [AddModels] tries every model once, in order, whatever fails. *)
Definition added_of Y (e : OpE Y) : Y -> list (Z * bool) :=
  match e with Reg e => match e with AddSupportedModel m => fun r => [(m, is_ok r)] | _ => fun _ => [] end | _ => fun _ => [] end.

Lemma add_each_always ms a f : always (add_each ms a f) (fun tr r =>
  fst <$> answered added_of tr = ms /\
  r = (a + Z.of_nat (length (filter (fun m => snd m = true) (answered added_of tr))),
       f + Z.of_nat (length (filter (fun m => snd m = false) (answered added_of tr))))).
Proof.
  revert a f. induction ms as [|m ms IH]; intros a f; cbn [add_each bind call always]; [split; [done|f_equal; cbn; lia]|].
  intros [[]|e]; (eapply always_mono; [apply IH|]); intros tr r [Hm ->]; rewrite (answered_cons added_of); cbn [answered flat_map added_of app is_ok];
    (split; [by rewrite fmap_cons, Hm|]).
  - rewrite (filter_cons_True (fun m => snd m = true)), (filter_cons_False (fun m => snd m = false)) by done. f_equal. cbn [length]. lia.
  - rewrite (filter_cons_False (fun m => snd m = true)), (filter_cons_True (fun m => snd m = false)) by done. f_equal. cbn [length]. lia.
Qed.

(** ** Runs *)
Definition demo_chain (until nonce : Z) : handler OpE unit := fun X e w =>
  match e in OpE X return X * unit with
  | Reg e => (match e in RegE X return X with
              | IsWorkerRegistered => Ok false
              | GetWorkerEncryptionKey => Err (errorf "unknown worker")
              | GetMinWorkerStake => Ok (Some 100)
              | RegisterWorker _ _ | AddSupportedModel _ | DeregisterWorker | SetCapabilities _ => Ok tt
              | GetCapabilityMask _ | GetWorkerCapabilities => Ok 0
              end, tt)
  | LoadECDHKey => (Ok RegistrationManager.demo_key, tt)
  | OpHead => (Ok (MkHead 50 1000), tt)
  | NonceAt _ => (Ok nonce, tt)
  | StatDir => (Ok true, tt)
  | OpenReleaseStore => (Ok tt, tt)
  | SeedReconcileBlock _ => (Ok true, tt)
  | CloseReleaseStore => (tt, tt)
  | IsWorkerSuspended => (Ok true, tt)
  | GetSuspendedUntil => (Ok until, tt)
  | Balance => (Ok 1000, tt)
  | GetWorkerStake => (Ok 100, tt)
  | OpMinWorkerStake => (Ok 100, tt)
  | OpReinstate | OpTopUpStake _ => (Ok tt, tt)
  | Ask => (Some " Y "%string, tt)
  | WorkerBalance => (Ok (Some 5), tt)
  | OpWithdraw => (Ok tt, tt)
  end.
(** The same chain, the worker registered. *)
Definition demo_registered (until : Z) : handler OpE unit := fun X e w =>
  match e in OpE X return X * unit with
  | Reg e => (match e in RegE X return X with
              | IsWorkerRegistered => Ok true
              | GetWorkerEncryptionKey => Ok EmptyString
              | GetMinWorkerStake => Ok None
              | RegisterWorker _ _ | AddSupportedModel _ | DeregisterWorker | SetCapabilities _ => Ok tt
              | GetCapabilityMask _ | GetWorkerCapabilities => Ok 0
              end, tt)
  | e => demo_chain until 0 _ e tt
  end.
Definition demo_operator : Handler := MkHandler [7] ["qwen"%string] None (Some (MkSeed 5 true)) false.
Definition demo_register := interp (demo_chain 0 0) (Register demo_operator) tt.
Definition demo_reinstate (until : Z) := interp (demo_registered until) Reinstate tt.
Definition demo_top_up := interp (demo_registered 0) (TopUpStake demo_operator 40) tt.

Example demo_commands :
  seeded (fst (fst demo_register)) = [45] /\ sent (fst (fst (demo_reinstate 1000))) = [ReinstateTx] /\
  sent (fst (fst (demo_reinstate 1001))) = [] /\ sent (fst (fst demo_top_up)) = [TopUpTx 40].
Proof. vm_compute. done. Qed.

(** A key whose first transaction is in block 46. *)
Definition demo_nonces (b : Z) : Z := Z.max 0 (b - 45).

Lemma fresh_seed_hides_no_job_witness : seeded (fst (fst demo_register)) = [45] /\ forall c, 60 <= c -> 45 < c.
Proof.
  split; [vm_compute; reflexivity|].
  assert (key_history demo_nonces (fun c => 60 <= c)) as Hk by (split; unfold demo_nonces; intros; lia).
  exact (proj1 (proj2 (proj2 (fresh_seed_hides_no_job demo_nonces _ demo_operator (fst (fst demo_register)) (Ok tt) Hk
    (interp_run (demo_chain 0 0) (Register demo_operator) tt)
    ltac:(vm_compute; repeat constructor; by intros ? [= <-]) 45 ltac:(vm_compute; constructor))))).
Defined.

Lemma stake_commands_check_first_witness :
  exists stake minStake until head answer,
    fst (fst (demo_reinstate 1000)) = reinstate_reads stake minStake until head ++ [Called OpReinstate answer] /\ minStake <= stake.
Proof.
  destruct (stake_commands_check_first demo_operator 40 (fst (fst (demo_reinstate 1000))) (snd (fst (demo_reinstate 1000)))
    (fst (fst demo_top_up)) (snd (fst demo_top_up)) (interp_run (demo_registered 1000) Reinstate tt)
    (interp_run (demo_registered 0) (TopUpStake demo_operator 40) tt)) as [[[_ H]|(s & m & u & hd & x & E & _ & Hs & _)] _].
  - vm_compute in H. discriminate.
  - by exists s, m, u, hd, x.
Defined.
End Operator.
