(* ===== verification/Settlement.v ===== *)
(** The operator's [release] command, [Handler.Release] of
    [internal/cli/settlement.go]: one pass of the reconciler and, unless asked
    otherwise, one cycle of the scheduler, over the store the sidecar uses.
    What it prints is left out. *)
From S2P Require Import Prelude ReleaseStore Chain ReleaseConfig Scheduler Reconciler.

Module ReleaseCommand.
Section Command.
Context `{!AddressOps} {S C : Type} `{!Store S} `{!SettlementClient C}.
Context (cfg : Config) (workerAddr : Address).

(** The fields of [Handler] the command uses; both may be nil. *)
Record Handler : Type := MkHandler { settlementClient : option C; releaseStore : option S }.

(** What the command did: the traces of its two parts, and the store and the
    chain it leaves. *)
Record outcome : Type := MkOutcome {
  scan_trace : list Reconciler.event;
  cycle_trace : list Scheduler.event;
  o_store : S;
  o_chain : C;
}.

(** The exit status after a cycle. *)
Definition verdict (r : Scheduler.CycleResult) : result unit :=
  if Scheduler.Paused r then Err (errorf "release cycle paused: contract paused")
  else if 0 <? Scheduler.Failed r then Err (errorf "release cycle: per-job release(s) failed")
  else Ok tt.

(** [Release]; the result is [None] when the reconciler runs out of fuel, and
    there is no outcome when nothing was started. *)
Definition Release (fuel : nat) (reconcileOnly : bool) (h : Handler) : option (result unit) * option outcome :=
  match settlementClient h, releaseStore h with
  | None, _ => (Some (Err (errorf "Release: Settlement client not configured")), None)
  | Some _, None => (Some (Err (errorf "Release: release store not configured")), None)
  | Some c, Some s =>
      let '(r, w) := Reconciler.Run cfg workerAddr fuel (Reconciler.MkWorld s c []) in
      let stopped r := (Some r, Some (MkOutcome (Reconciler.w_trace w) [] (Reconciler.w_store w) (Reconciler.w_chain w))) in
      match r with
      | None => (None, snd (stopped (Ok tt)))
      | Some (Err e) => stopped (Err (wrap "reconcile" e))
      | Some (Ok _) =>
          if reconcileOnly then stopped (Ok tt)
          else
            let '(r, w') := Scheduler.RunOnce cfg workerAddr (Scheduler.MkWorld (Reconciler.w_store w) (Reconciler.w_chain w) []) in
            match r with
            | Err e => (Some (Err (wrap "release cycle" e)),
                        Some (MkOutcome (Reconciler.w_trace w) (Scheduler.w_trace w') (Scheduler.w_store w') (Scheduler.w_chain w')))
            | Ok res =>
                let '(p, s') := Pending (Scheduler.w_store w') in
                (Some (match p with Err e => Err (wrap "read pending after cycle" e) | Ok _ => verdict res end),
                 Some (MkOutcome (Reconciler.w_trace w) (Scheduler.w_trace w') s' (Scheduler.w_chain w')))
            end
      end
  end.

Context `{!StoreView S, !StoreLaws S}.

(** Where a completed job is once the command is done: still pending, released
    or given up for good in the cycle, or found with nothing to release. *)
Definition dealt_with (j : Z) (o : outcome) (jobs : list Z) : Prop :=
  j ∈ jobs \/ Scheduler.settled workerAddr j (cycle_trace o) \/
  exists info, Reconciler.ECallState j (Ok info) ∈ scan_trace o /\ Reconciler.nothing_to_release workerAddr info = true.

(** C5. The operator's [release] command, when it exits with success, has read
    every block from the stored cursor up to the safe head, left the cursor
    there, and lost no completed job on the way through both parts: each job
    it fetched, and each it already knew, is still pending, was released or
    found unpayable by the cycle, or has nothing to release. *)
Theorem release_command_loses_no_job fuel only h s c v o safeHead :
  settlementClient h = Some c -> releaseStore h = Some s ->
  store_view s = Some v -> 0 <= v_cursor v < u64_max -> 0 <= StartBlock cfg ->
  Reconciler.target cfg (Reconciler.MkWorld s c []) v = Some safeHead ->
  Reconciler.scan_fits cfg (Reconciler.start_of cfg (v_cursor v)) safeHead ->
  Release fuel only h = (Some (Ok tt), Some o) ->
  exists v', store_view (o_store o) = Some v' /\ v_cursor v' = safeHead /\
    Reconciler.tiles cfg (Reconciler.ranges (scan_trace o)) (Reconciler.start_of cfg (v_cursor v)) (safeHead + 1) /\
    (forall lo hi evs ev, Reconciler.ECallFilter lo hi (Ok evs) ∈ scan_trace o -> ev ∈ evs ->
       dealt_with (ev_JobID ev) o (v_jobs v')) /\
    (forall j, j ∈ v_jobs v -> dealt_with j o (v_jobs v')).
Proof.
  intros Hclient Hstore Hv Hc Hsb Ht Hfit. unfold Release. rewrite Hclient, Hstore.
  destruct (Reconciler.Run cfg workerAddr fuel _) as [[[[]|e]|] w] eqn:Er; try done.
  destruct (Reconciler.pass_covers cfg workerAddr _ (Reconciler.MkWorld s c []) v w safeHead Hv eq_refl Hc Hsb Ht Hfit Er)
    as (v1 & Hv1 & Hcur & Htiles & Hev & Hold).
  destruct only.
  { intros [= <-]. exists v1. split; [done|]. split; [done|]. split; [done|]. split.
    - intros lo hi evs ev H1 H2. destruct (Hev _ _ _ _ H1 H2) as [?|?]; [by left|by right; right].
    - intros j Hj. left. by apply Hold. }
  destruct (Scheduler.RunOnce cfg workerAddr _) as [[res|e] w'] eqn:Es; [|done].
  destruct (Scheduler.run_keeps cfg workerAddr
    (Scheduler.MkWorld (Reconciler.w_store w) (Reconciler.w_chain w) []) v1 _ _ Hv1 eq_refl Es) as (v2 & Hv2 & Hj & _ & Hc2).
  destruct (law_Pending _ v2 Hv2) as [Hp _]. destruct (Pending (Scheduler.w_store w')) as [p s'].
  intros [= Hverdict <-]. destruct p as [jobs|e]; [|done]. destruct Hp as (v3 & Hs3 & Hv3).
  unfold spec_Pending in Hs3. injection Hs3 as _ <-.
  exists v2. split; [done|]. split; [by rewrite Hc2|]. split; [done|]. split.
  - intros lo hi evs ev H1 H2. destruct (Hev _ _ _ _ H1 H2) as [Hin|?]; [|by right; right].
    destruct (Hj _ Hin) as [?|?]; [by left|by right; left].
  - intros j Hin. destruct (Hj _ (Hold _ Hin)) as [?|?]; [by left|by right; left].
Qed.

End Command.

(** ** A run over a file store *)
#[local] Existing Instances plain_addresses plain_addresses_laws.
#[local] Existing Instance Reconciler.demo_client.

Definition demo_store : FileStore.FileStore := Reconciler.w_store (Reconciler.demo_world []).
Definition demo_handler := MkHandler (Some (Reconciler.MkDemoChain 15 [])) (Some demo_store).
Definition demo_release := Release Reconciler.demo_cfg Reconciler.demo_addr 20 false demo_handler.
Definition demo_outcome : outcome := Eval vm_compute in
  default (MkOutcome [] [] demo_store (Reconciler.MkDemoChain 15 [])) (snd demo_release).

(** The three jobs are recorded and released at once. *)
Example demo_released :
  fst demo_release = Some (Ok tt) /\ (snd demo_release ≫= fun o => store_view (o_store o)) = Some (View [] 10 1000 0).
Proof. vm_compute. done. Qed.

(** Without a client or a store the command fails and starts nothing. *)
Example not_configured (only : bool) (h : Handler) : settlementClient h = None \/ releaseStore h = None ->
  exists e, Release (C := Reconciler.demo_chain) (S := FileStore.FileStore) Reconciler.demo_cfg Reconciler.demo_addr 20 only h = (Some (Err e), None).
Proof. unfold Release. destruct h as [[c|] [s|]]; cbn; intros [?|?]; try done; by eexists. Qed.

Lemma release_command_loses_no_job_witness :
  exists v', store_view (o_store demo_outcome) = Some v' /\ v_cursor v' = 10 /\
    dealt_with Reconciler.demo_addr 106 demo_outcome (v_jobs v').
Proof.
  destruct (release_command_loses_no_job Reconciler.demo_cfg Reconciler.demo_addr 20 false demo_handler demo_store (Reconciler.MkDemoChain 15 [])
    (View [] 0 0 0) demo_outcome 10) as (v' & Hv & Hc & _ & Hev & _);
    [reflexivity|reflexivity|reflexivity|split; [discriminate|reflexivity]|discriminate|reflexivity|exact Reconciler.demo_fits|vm_compute; reflexivity|].
  exists v'. split; [exact Hv|]. split; [exact Hc|].
  apply (Hev 6 9 (filter (fun ev => 6 <= ev_BlockNumber ev /\ ev_BlockNumber ev <= 9) Reconciler.demo_events)
    (MkJobCompleted 106 Reconciler.demo_addr 6)); [|vm_compute; constructor].
  vm_compute. repeat (first [apply list_elem_of_here | apply list_elem_of_further]).
Defined.
End ReleaseCommand.
