(* ===== verification/Dial.v ===== *)
(** Connecting to the chain, [internal/chain/dial.go]: the list of endpoints
    and the transport that moves a request from one that does not answer to the
    next. *)
From Stdlib Require Import Ascii.
From S2P Require Import Prelude Effects GoText.

#[local] Open Scope prog_scope.

(** [net/url], as far as the code looks at it. *)
Class URLs := {
  URL : Type;
  Parse : string -> result URL;
  Scheme : URL -> string;
  Host : URL -> string;
}.

Module Dial.
Definition DefaultRPCTimeout : Z := 15 * Second.

(** What [DialRPC] connects with: the failover transport over its endpoints,
    with the time one endpoint gets and the ceiling for a call, or go-ethereum's
    own client for the one endpoint it was given. *)
Inductive dialled {U : URLs} : Type :=
  | Failover (targets : list URL) (perEndpoint callTimeout : Z)
  | Plain (u : URL).

Section DialRPC.
Context {U : URLs}.

Fixpoint parse_targets (raws : list string) (targets : list URL) : result (list URL) :=
  match raws with
  | [] => Ok targets
  | raw :: raws =>
      let raw := TrimSpace raw in
      if bool_decide (raw = EmptyString) then parse_targets raws targets
      else
        match Parse raw with
        | Err e => Err (wrap "RPC_URL" e)
        | Ok u => parse_targets raws (targets ++ [u])
        end
  end.

Definition is_http (u : URL) : bool := bool_decide (Scheme u = "http"%string) || bool_decide (Scheme u = "https"%string).

(** The loop that looks for an endpoint that is not http(s). *)
Fixpoint other_scheme (targets : list URL) : option URL :=
  match targets with
  | [] => None
  | u :: targets => if is_http u then other_scheme targets else Some u
  end.

Definition DialRPC (rpcURL : string) (timeout : Z) : result dialled :=
  match parse_targets (Split rpcURL ","%char) [] with
  | Err e => Err e
  | Ok [] => Err (errorf "RPC_URL is empty")
  | Ok targets =>
      match other_scheme targets with
      | Some u => if (1 <? length targets)%nat
                  then Err (errorf "RPC_URL: only http(s) endpoints can be listed together") else Ok (Plain u)
      | None => Ok (Failover targets timeout (i64_wrap (timeout * (Z.of_nat (length targets) + 1))))
      end
  end.

(** A transport is only ever built over a non-empty list of http(s) endpoints,
    each one the operator listed. *)
Lemma parse_targets_nonempty raws ts ts' : parse_targets raws ts = Ok ts' -> exists more, ts' = ts ++ more.
Proof.
  revert ts. induction raws as [|raw raws IH]; intros ts; cbn; [intros [= <-]; exists []; by rewrite app_nil_r|].
  case_bool_decide; [apply IH|]. destruct (Parse (TrimSpace raw)) as [u|e]; [|done].
  intros (more & ->)%IH. exists (u :: more). by rewrite <- app_assoc.
Qed.

Lemma other_scheme_none ts : other_scheme ts = None <-> Forall (fun u => is_http u = true) ts.
Proof.
  induction ts as [|u ts IH]; cbn; [done|]. rewrite Forall_cons. destruct (is_http u); [tauto|]. split; [done|by intros [? _]].
Qed.

Lemma dialled_transport url timeout targets per ceiling : DialRPC url timeout = Ok (Failover targets per ceiling) ->
  targets <> [] /\ Forall (fun u => is_http u = true) targets /\ per = timeout.
Proof.
  unfold DialRPC. destruct (parse_targets _ _) as [[|u ts]|e]; try done.
  destruct (other_scheme (u :: ts)) eqn:E; [by destruct (1 <? _)%nat|]. intros [= <- <- _].
  split; [done|]. by rewrite <- other_scheme_none.
Qed.
End DialRPC.
End Dial.

(** What one request does to the outside: the index of the endpoint that
    answered last, which requests share, the body of the request, and the
    exchange with an endpoint, whose answer is a status. *)
Inductive DialE : Type -> Type :=
  | LoadCurrent : DialE Z
  | StoreCurrent (idx : Z) : DialE unit
  | CompareAndSwap (old new : Z) : DialE bool
  | GetBody : DialE (result unit)
  | Exchange (idx : Z) : DialE (result Z)
  | DiscardBody : DialE unit
  | CallerGone : DialE bool.

Module FailoverTransport.

(** The response handed on: which endpoint's, and its status. *)
Definition response : Type := Z * Z.

(** The end of an attempt that failed: unless the caller is gone, the shared
    index moves past the endpoint and [next] tries the one after it. *)
Definition fail_over {A} (n idx : Z) (e : error) (next : error -> prog DialE (option A * option error))
    : prog DialE (option A * option error) :=
  gone <- call CallerGone ;;
  if gone : bool then Ret (None, Some e)
  else
    _ <- (if 1 <? n then _ <- call (CompareAndSwap idx (Z.rem (idx + 1) n)) ;; Ret tt else Ret tt) ;;
    next e.

(** An attempt at endpoint [idx]. *)
Definition exchange (n idx : Z) (last : bool) (next : error -> prog DialE (option response * option error))
    : prog DialE (option response * option error) :=
  r <- call (Exchange idx) ;;
  match r with
  | Ok status =>
      if (status <? 500) || last then
        _ <- (if status <? 500 then call (StoreCurrent idx) else Ret tt) ;;
        Ret (Some (idx, status), None)
      else _ <- call DiscardBody ;; fail_over n idx (errorf "endpoint answered a server error") next
  | Err e => fail_over n idx e next
  end.

(** The loop of [RoundTrip]: [i] attempts made, [left] to make. [rewindable]:
    the request has a [GetBody]. *)
Fixpoint attempts (n : Z) (rewindable : bool) (start i : Z) (togo : nat) (lastErr : option error)
    : prog DialE (option response * option error) :=
  match togo with
  | O => Ret (None, lastErr)
  | S togo =>
      let idx := Z.rem (start + i) n in
      let next e := attempts n rewindable start (i + 1) togo (Some e) in
      if 0 <? i then
        if negb rewindable then Ret (None, lastErr)
        else
          r <- call GetBody ;;
          match r with
          | Err e => Ret (None, Some e)
          | Ok _ => exchange n idx (i =? n - 1) next
          end
      else exchange n idx (i =? n - 1) next
  end.

(** [RoundTrip] over [n] endpoints. *)
Definition RoundTrip (n : nat) (rewindable : bool) : prog DialE (option response * option error) :=
  start <- call LoadCurrent ;;
  attempts (Z.of_nat n) rewindable start 0 n None.

(** ** What a request does

    The endpoints tried, with their answers; the values written to the shared
    index; whether the caller was gone, and whether the body could be sent
    again. *)
Definition tried_of Y (e : DialE Y) : Y -> list (Z * result Z) :=
  match e with Exchange idx => fun r => [(idx, r)] | _ => fun _ => [] end.
Definition tried (tr : list (called DialE)) : list (Z * result Z) := answered tried_of tr.
Definition write_of Y (e : DialE Y) : Y -> list Z :=
  match e with StoreCurrent idx => fun _ => [idx] | CompareAndSwap _ new => fun _ => [new] | _ => fun _ => [] end.
Definition writes (tr : list (called DialE)) : list Z := answered write_of tr.
Definition stop_of Y (e : DialE Y) : Y -> list unit :=
  match e with
  | CallerGone => fun gone => if gone : bool then [tt] else []
  | GetBody => fun r => match r with Ok _ => [] | Err _ => [tt] end
  | _ => fun _ => []
  end.
Definition stops (tr : list (called DialE)) : list unit := answered stop_of tr.

(** An endpoint that did not answer, or answered a server error. *)
Definition down (r : result Z) : Prop := match r with Ok status => 500 <= status | Err _ => True end.

(** The endpoints in the order they are tried from [start]. *)
Definition ring (n start i : Z) (k : nat) : list Z := (fun j => Z.rem (start + i + Z.of_nat j) n) <$> seq 0 k.

(** The attempts made from the [i]th on: a part of the ring, the last one the
    first that answers. *)
Record tour (n : Z) (rewindable : bool) (start i : Z) (togo : nat) (tr : list (called DialE))
    (r : option response * option error) : Prop := {
  t_order : exists k, (k <= togo)%nat /\ fst <$> tried tr = ring n start i k;
  t_writes : Forall (fun idx => 0 <= idx < n) (writes tr);
  t_result : match r with
    | (Some (idx, status), e) => e = None /\ exists pre, tried tr = pre ++ [(idx, Ok status)] /\
        Forall (fun t => down (snd t)) pre /\
        (status < 500 /\ last (writes tr) = Some idx \/ 500 <= status /\ fst <$> tried tr = ring n start i togo)
    | (None, e) => Forall (fun t => down (snd t)) (tried tr) /\
        (stops tr <> [] \/ rewindable = false \/ fst <$> tried tr = ring n start i togo)
    end;
}.

Lemma ring_S n start i k : ring n start i (S k) = Z.rem (start + i) n :: ring n start (i + 1) k.
Proof.
  unfold ring. cbn [seq]. rewrite fmap_cons, Z.add_0_r. f_equal.
  rewrite <- fmap_S_seq, <- list_fmap_compose. apply list_fmap_ext. intros ? j _. cbn. f_equal. lia.
Qed.

Lemma rem_range n x : 0 < n -> 0 <= x -> 0 <= Z.rem x n < n.
Proof. intros. apply Z.rem_bound_pos; lia. Qed.

(** Calls that are neither attempts nor writes do not count. *)
Lemma tour_after n rw start i togo tr0 r0 tr r :
  down r0 -> tried tr0 = [(Z.rem (start + i) n, r0)] -> Forall (fun idx => 0 <= idx < n) (writes tr0) -> stops tr0 = [] ->
  tour n rw start (i + 1) togo tr r -> tour n rw start i (S togo) (tr0 ++ tr) r.
Proof.
  intros Hd Ht Hw Hs [(k & Hk & Ho) W R]. unfold tried, writes, stops in *. split.
  - exists (S k). split; [lia|]. unfold tried. rewrite answered_app, Ht, ring_S. cbn. by rewrite Ho.
  - unfold writes. rewrite answered_app. by apply Forall_app.
  - unfold tried, writes, stops. rewrite !answered_app, Ht, Hs, ring_S. cbn [app fmap list_fmap fst].
    destruct r as [[[idx status]|] e].
    + destruct R as (-> & pre & -> & Hp & Hl). split; [done|]. eexists (_ :: pre). split; [done|]. split; [by constructor|].
      destruct Hl as [[? Hl]|[? Hl]]; [left|right]; (split; [done|]).
      * by rewrite last_app, Hl.
      * by rewrite Hl.
    + destruct R as [Hp Hl]. split; [by constructor|]. destruct Hl as [?|[?|Hl]]; [by left|by right; left|]. right; right. by rewrite Hl.
Qed.

Section Tour.
Context (n : Z) (rw : bool) (start i : Z) (togo : nat) (next : error -> prog DialE (option response * option error)).
Context (Hn : 0 < n) (Hstart : 0 <= start) (Hi : 0 <= i) (Hsum : i + Z.of_nat (S togo) = n).
Context (Hnext : forall e, always (next e) (tour n rw start (i + 1) togo)).
Abbreviation idx := (Z.rem (start + i) n).

Lemma idx_range : 0 <= idx < n.
Proof. apply rem_range; lia. Qed.

Lemma fail_over_tour tr0 r0 e : down r0 -> tried tr0 = [(idx, r0)] -> writes tr0 = [] -> stops tr0 = [] ->
  always (fail_over n idx e next) (fun tr => tour n rw start i (S togo) (tr0 ++ tr)).
Proof.
  intros Hd Ht Hw Hs [|]; cbn [always bind].
  - split; unfold tried, writes, stops in *; rewrite ?answered_app, ?Ht, ?Hw, ?Hs.
    + exists 1%nat. split; [lia|]. by rewrite ring_S.
    + constructor.
    + split; [by repeat constructor|by left].
  - pose proof idx_range. assert (0 <= Z.rem (idx + 1) n < n) by (apply rem_range; lia).
    assert (forall tr1, tried tr1 = [] -> Forall (fun idx => 0 <= idx < n) (writes tr1) -> stops tr1 = [] -> forall tr r,
      tour n rw start (i + 1) togo tr r -> tour n rw start i (S togo) (tr0 ++ tr1 ++ tr) r) as Hmove.
    { intros tr1 H1 H2 H3 tr r. rewrite app_assoc. apply (tour_after _ _ _ _ _ _ r0 _ _ Hd);
        unfold tried, writes, stops in *; rewrite answered_app; [by rewrite Ht, H1|by rewrite Hw|by rewrite Hs]. }
    destruct (1 <? n); cbn [always bind call].
    + intros sw. eapply always_mono; [apply Hnext|]. apply (Hmove [Called CallerGone false; Called (CompareAndSwap idx (Z.rem (idx + 1) n)) sw]); [done|by constructor; [|constructor]|done].
    + eapply always_mono; [apply Hnext|]. apply (Hmove [Called CallerGone false]); [done|constructor|done].
Qed.

Lemma exchange_tour tr0 : tried tr0 = [] -> writes tr0 = [] -> stops tr0 = [] ->
  always (exchange n idx (i =? n - 1) next) (fun tr => tour n rw start i (S togo) (tr0 ++ tr)).
Proof.
  intros Ht Hw Hs x. pose proof idx_range. cbn [bind].
  assert (forall tr1 r0, down r0 -> tried tr1 = [(idx, r0)] -> writes tr1 = [] -> stops tr1 = [] -> forall e,
    always (fail_over n idx e next) (fun tr => tour n rw start i (S togo) (tr0 ++ tr1 ++ tr))) as Hfail.
  { intros tr1 r0 Hd H1 H2 H3 e. eapply always_mono; [apply (fail_over_tour (tr0 ++ tr1) r0 e Hd)|];
      unfold tried, writes, stops in *; rewrite ?answered_app, ?Ht, ?Hw, ?Hs; [done..|]. intros tr r. by rewrite <- app_assoc. }
  destruct x as [status|e]; [|by apply (Hfail [Called (Exchange idx) (Err e)] (Err e))].
  assert (fst <$> [(idx, Ok (A := Z) status)] = ring n start i 1) as H1 by by rewrite ring_S.
  destruct (Z.ltb_spec status 500) as [Hup|Hdown]; cbn [orb].
  - intros u. split; unfold tried, writes, stops in *; rewrite ?answered_app, ?Ht, ?Hw, ?Hs.
    + exists 1%nat. split; [lia|]. exact H1.
    + by constructor; [|constructor].
    + split; [done|]. exists []. by split; [|split; [|left]].
  - destruct (Z.eqb_spec i (n - 1)) as [Hl|Hl].
    + assert (togo = 0%nat) as -> by lia.
      split; unfold tried, writes, stops in *; rewrite ?answered_app, ?Ht, ?Hw, ?Hs; [by exists 1%nat|constructor|].
      split; [done|]. exists []. by split; [|split; [|right]].
    + intros u. by apply (Hfail [Called (Exchange idx) (Ok status); Called DiscardBody u] (Ok status)).
Qed.
End Tour.

Lemma attempts_tour n rw start togo : 0 < n -> 0 <= start -> forall i e, 0 <= i -> i + Z.of_nat togo = n ->
  always (attempts n rw start i togo e) (tour n rw start i togo).
Proof.
  intros Hn Hst. induction togo as [|togo IH]; intros i e Hi Hsum.
  { split; [by exists 0%nat|constructor|]. split; [constructor|by right; right]. }
  cbn [attempts]. set (next := fun e => attempts n rw start (i + 1) togo (Some e)).
  assert (forall e, always (next e) (tour n rw start (i + 1) togo)) as Hnext by (intros; apply IH; lia).
  pose proof (exchange_tour n rw start i togo next Hn Hst Hi Hsum Hnext) as Hgo.
  destruct (0 <? i); [|exact (Hgo [] eq_refl eq_refl eq_refl)].
  destruct rw; cbn [negb].
  - intros [u|e']; cbn [bind always].
    + exact (Hgo [Called GetBody (Ok u)] eq_refl eq_refl eq_refl).
    + split; [by exists 0%nat; split; [lia|]|constructor|by split; [constructor|left]].
  - split; [by exists 0%nat; split; [lia|]|constructor|by split; [constructor|right; left]].
Qed.

(** The ring visits every endpoint, each once. *)
Lemma ring_NoDup n start k : 0 < n -> 0 <= start -> Z.of_nat k <= n -> NoDup (ring n start 0 k).
Proof.
  intros Hn Hs Hk. unfold ring. apply NoDup_fmap_2_strong; [|apply NoDup_ListNoDup, seq_NoDup].
  intros x y Hx%elem_of_seq Hy%elem_of_seq E. rewrite !Z.rem_mod_nonneg in E by lia.
  assert (forall a b, 0 <= a -> a < b -> b < n -> (start + 0 + a) mod n = (start + 0 + b) mod n -> False) as Hinj.
  { intros a b Ha Hab Hb Em. apply (f_equal (fun z => z - (start + 0 + a) mod n)) in Em. 
    assert ((start + 0 + b - (start + 0 + a)) mod n = 0) as Hm by (rewrite Zminus_mod; rewrite Z.sub_diag in Em; rewrite <- Em; apply Z.mod_0_l; lia).
    rewrite Z.mod_small in Hm by lia. lia. }
  destruct (Z.lt_trichotomy (Z.of_nat x) (Z.of_nat y)) as [|[|]]; [exfalso|lia|exfalso].
  - apply (Hinj (Z.of_nat x) (Z.of_nat y)); [lia..|done].
  - apply (Hinj (Z.of_nat y) (Z.of_nat x)); [lia..|done].
Qed.

Lemma ring_complete n start idx : 0 <= start -> 0 <= idx < n -> idx ∈ ring n start 0 (Z.to_nat n).
Proof.
  intros Hs Hi. unfold ring. apply list_elem_of_fmap. exists (Z.to_nat ((idx - start) mod n)).
  pose proof (Z.mod_pos_bound (idx - start) n ltac:(lia)). split.
  - rewrite Z2Nat.id by lia. rewrite Z.rem_mod_nonneg, Z.add_0_r, Zplus_mod_idemp_r by lia.
    rewrite (Z.add_comm start), Z.sub_add, Z.mod_small; lia.
  - apply elem_of_seq. lia.
Qed.

(** What a request relies on: the shared index is one of an endpoint, as every
    write leaves it. *)
Definition index_in_range (n : nat) (c : called DialE) : Prop :=
  match c with Called e x => match e in DialE Y return Y -> Prop with
    | LoadCurrent => fun idx => 0 <= idx < Z.of_nat n
    | _ => fun _ => True
    end x end.

(** Endpoint [idx] answers every request. *)
Definition live (idx : Z) (c : called DialE) : Prop :=
  match c with Called e x => match e in DialE Y return Y -> Prop with
    | Exchange i => fun r => i = idx -> exists status, r = Ok status /\ status < 500
    | _ => fun _ => True
    end x end.

Definition roundtrip_post (n : nat) (rewindable : bool) (tr : list (called DialE)) (r : option response * option error) : Prop :=
  Forall (index_in_range n) tr -> exists start, 0 <= start < Z.of_nat n /\ tour (Z.of_nat n) rewindable start 0 n tr r.

Lemma roundtrip_always n rewindable : (0 < n)%nat -> always (RoundTrip n rewindable) (roundtrip_post n rewindable).
Proof.
  intros Hn start. destruct (decide (0 <= start < Z.of_nat n)) as [Hs|Hs].
  - eapply always_mono; [apply attempts_tour; lia|]. intros tr r T _. exists start. split; [done|].
    destruct T as [O W R]. by split.
  - apply always_intro. intros tr r _ [? _]%Forall_cons. by destruct Hs.
Qed.

Lemma live_up idx tr : Forall (live idx) tr -> forall r, (idx, r) ∈ tried tr -> exists status, r = Ok status /\ status < 500.
Proof.
  induction 1 as [|c tr Hc _ IH]; [by intros r ?%elem_of_nil|]. intros r. unfold tried, answered. cbn [flat_map].
  rewrite elem_of_app. intros [Hin|Hin]; [|by apply IH]. destruct c as [X e x]. destruct e; cbn in Hin; try by apply elem_of_nil in Hin.
  apply list_elem_of_singleton in Hin as [= <- ->]. by apply Hc.
Qed.

(** The endpoint of a live answer is never taken for a failed one. *)
Lemma live_reached n rw start idx tr r : 0 < n -> 0 <= start < n -> 0 <= idx < n ->
  Forall (live idx) tr -> stops tr = [] -> rw = true -> tour n rw start 0 (Z.to_nat n) tr r ->
  exists i status, r = (Some (i, status), None) /\ status < 500.
Proof.
  intros Hn Hs Hi Hl Hst Hrw [_ _ R].
  assert (forall ts, Forall (fun t => down (snd t)) ts -> (forall t, t ∈ ts -> t ∈ tried tr) -> idx ∉ fst <$> ts) as Hnot.
  { intros ts Hd Hsub ([i r'] & -> & Hin)%list_elem_of_fmap. cbn in *.
    destruct (live_up i tr Hl r' (Hsub _ Hin)) as (s & -> & ?). rewrite Forall_forall in Hd. specialize (Hd _ Hin). cbn in Hd. lia. }
  assert (forall ts, Forall (fun t => down (snd t)) ts -> tried tr = ts -> fst <$> tried tr = ring n start 0 (Z.to_nat n) -> False) as Hall.
  { intros ts Hd Ht Hr. apply (Hnot ts Hd); [by intros; rewrite Ht|]. rewrite <- Ht, Hr. by apply ring_complete; lia. }
  destruct r as [[[i status]|] e].
  - destruct R as (-> & pre & Ht & Hp & [[? _]|[Hd Hr]]); [by exists i, status|]. exfalso.
    apply (Hall (pre ++ [(i, Ok status)])); [|done|done]. apply Forall_app. by repeat constructor.
  - destruct R as [Hp [?|[?|Hr]]]; [done|by subst|]. by destruct (Hall (tried tr)).
Qed.

(** *** The body of each attempt

    The attempts and the bodies made anew, in order. *)
Inductive body_event : Type := Sent (idx : Z) (r : result Z) | Rewound.
Definition body_of Y (e : DialE Y) : Y -> list body_event :=
  match e with
  | Exchange idx => fun r => [Sent idx r]
  | GetBody => fun r => match r with Ok _ => [Rewound] | Err _ => [] end
  | _ => fun _ => []
  end.
Definition bodies (tr : list (called DialE)) : list body_event := answered body_of tr.

Lemma tried_bodies tr : tried tr = omap (fun b => match b with Sent idx r => Some (idx, r) | Rewound => None end) (bodies tr).
Proof.
  unfold tried, bodies, answered. induction tr as [|[X e x] tr IH]; [done|]. cbn [flat_map]. rewrite omap_app, <- IH. f_equal.
  destruct e; try done. by destruct x.
Qed.

(** Every attempt has a body made anew just before it. *)
Fixpoint anew (evs : list body_event) : Prop :=
  match evs with
  | [] => True
  | Rewound :: Sent _ _ :: evs => anew evs
  | _ => False
  end.
(** So has every attempt but the first, and there is no other when the body
    cannot be made anew. *)
Definition own_body (rewindable : bool) (evs : list body_event) : Prop :=
  exists idx r rest, evs = Sent idx r :: rest /\ anew rest /\ (rewindable = false -> rest = []).

Section Bodies.
Context (n : Z) (rw : bool) (start : Z).

Lemma exchange_bodies idx final (next : error -> prog DialE (option response * option error)) :
  (forall e, always (next e) (fun tr _ => anew (bodies tr) /\ (rw = false -> bodies tr = []))) ->
  always (exchange n idx final next) (fun tr _ => own_body rw (bodies tr)).
Proof.
  intros Hnext. unfold exchange, fail_over. cbn [bind call always]. intros r.
  assert (forall tr0, bodies tr0 = [Sent idx r] -> forall e, always (next e) (fun tr _ => own_body rw (bodies (tr0 ++ tr)))) as Hgo.
  { intros tr0 H0 e. eapply always_mono; [apply Hnext|]. intros tr a [Ha Hf]. exists idx, r, (bodies tr).
    unfold bodies in *. by rewrite answered_app, H0. }
  assert (own_body rw [Sent idx r]) as Hone by (by exists idx, r, []).
  destruct r as [status|e]; cbn [bind call always]; [destruct (_ || final) eqn:El; cbn [bind call always]|].
  - destruct (status <? 500); cbn [bind call always]; [intros ?|]; exact Hone.
  - intros u [|]; cbn [bind call always]; [exact Hone|].
    set (gone := Called CallerGone false). set (first := Called (Exchange idx) (Ok status)).
    destruct (1 <? n); cbn [bind call always]; [intros sw|exact (Hgo [first; Called DiscardBody u; gone] eq_refl _)].
    exact (Hgo [first; Called DiscardBody u; gone; Called (CompareAndSwap idx (Z.rem (idx + 1) n)) sw] eq_refl _).
  - intros [|]; cbn [bind call always]; [exact Hone|].
    set (gone := Called CallerGone false). set (first := Called (Exchange idx) (Err e)).
    destruct (1 <? n); cbn [bind call always]; [intros sw|exact (Hgo [first; gone] eq_refl _)].
    exact (Hgo [first; gone; Called (CompareAndSwap idx (Z.rem (idx + 1) n)) sw] eq_refl _).
Qed.

Lemma attempts_bodies togo : forall i e, 0 <= i ->
  always (attempts n rw start i togo e) (fun tr _ =>
    if 0 <? i then anew (bodies tr) /\ (rw = false -> bodies tr = []) else (0 < togo)%nat -> own_body rw (bodies tr)).
Proof.
  induction togo as [|togo IH]; intros i e Hi; cbn [attempts]; [by destruct (0 <? i); [|intros ?%Nat.lt_irrefl]|].
  assert (forall e, always (attempts n rw start (i + 1) togo (Some e)) (fun tr _ => anew (bodies tr) /\ (rw = false -> bodies tr = []))) as Hnext.
  { intros e0. specialize (IH (i + 1) (Some e0) ltac:(lia)). destruct (Z.ltb_spec 0 (i + 1)); [exact IH|lia]. }
  pose proof (exchange_bodies (Z.rem (start + i) n) (i =? n - 1) _ Hnext) as Hx.
  destruct (0 <? i); [|eapply always_mono; [exact Hx|]; by intros].
  destruct rw; cbn [negb bind call always]; [|done]. intros [u|e']; cbn [bind call always]; [|done].
  eapply always_mono; [exact Hx|]. intros tr a (idx & r & rest & E & Ha & _). split; [|done].
  change (anew (Rewound :: bodies tr)). rewrite E. exact Ha.
Qed.
End Bodies.

(** C34. A request reaches an endpoint that answers, if there is one. It tries
    the endpoints in a ring from the one that answered last, none twice, and
    stops at the first that answers below 500, which it makes the one to start
    from; it returns a server error only when every endpoint failed, and fails
    only then, or when its caller is gone or its body cannot be sent again.
    Whatever the requests running beside it do, the shared index stays that of
    an endpoint. Every attempt after the first goes out with a body made anew
    just before it, so a request whose body cannot be is sent exactly once. A
    request whose caller waits and whose body can be sent again succeeds as
    soon as one endpoint is up. *)
Theorem failover_reaches_a_live_endpoint n rewindable tr r : (0 < n)%nat ->
  runs (RoundTrip n rewindable) tr r -> Forall (index_in_range n) tr ->
  NoDup (fst <$> tried tr) /\ Forall (fun idx => 0 <= idx < Z.of_nat n) (writes tr) /\
  match r with
  | (Some (idx, status), e) => e = None /\ exists pre, tried tr = pre ++ [(idx, Ok status)] /\ Forall (fun t => down (snd t)) pre /\
      (status < 500 /\ last (writes tr) = Some idx \/ 500 <= status /\ length (tried tr) = n)
  | (None, e) => Forall (fun t => down (snd t)) (tried tr) /\ (stops tr <> [] \/ rewindable = false \/ length (tried tr) = n)
  end /\
  (forall idx, 0 <= idx < Z.of_nat n -> Forall (live idx) tr -> stops tr = [] -> rewindable = true ->
     exists i status, r = (Some (i, status), None) /\ status < 500) /\
  own_body rewindable (bodies tr) /\ (rewindable = false -> length (tried tr) = 1%nat).
Proof.
  intros Hn Hr Hrange.
  assert (own_body rewindable (bodies tr)) as Hb.
  { assert (always (RoundTrip n rewindable) (fun tr _ => own_body rewindable (bodies tr))) as Hall;
      [|exact (always_runs _ _ _ _ Hall Hr)].
    intros start. eapply always_mono; [apply (attempts_bodies (Z.of_nat n) rewindable start n 0 None); done|].
    intros tr' a Ha. exact (Ha Hn). }
  destruct (always_runs _ _ _ _ (roundtrip_always n rewindable Hn) Hr Hrange) as (start & Hs & T).
  pose proof T as [(k & Hk & Ho) W R]. split; [rewrite Ho; apply ring_NoDup; lia|]. split; [done|]. split.
  - assert (fst <$> tried tr = ring (Z.of_nat n) start 0 n -> length (tried tr) = n) as Hlen.
    { intros E. apply (f_equal length) in E. unfold ring in E. by rewrite !length_fmap, length_seq in E. }
    destruct r as [[[idx status]|] e]; [|by destruct R as [? [?|[?|?]]]; auto].
    destruct R as (-> & pre & ? & ? & [?|[? ?]]); (split; [done|]); exists pre; auto 6.
  - split; [|split; [exact Hb|]].
    + intros idx Hi Hl Hst Hrw. apply (live_reached (Z.of_nat n) rewindable start idx tr r); [lia|lia|done..|].
      by rewrite Nat2Z.id.
    + intros Hrw. rewrite tried_bodies. destruct Hb as (idx & x & rest & -> & _ & Hz). by rewrite (Hz Hrw).
Qed.

(** ** Three endpoints, of which the first two are down *)
Definition demo_endpoints : handler DialE Z := fun X e cur =>
  match e in DialE X return X * Z with
  | LoadCurrent => (cur, cur)
  | StoreCurrent idx => (tt, idx)
  | CompareAndSwap old new => if cur =? old then (true, new) else (false, cur)
  | GetBody => (Ok tt, cur)
  | Exchange idx => (if idx =? 0 then Err (errorf "no route to host") else if idx =? 1 then Ok 503 else Ok 200, cur)
  | DiscardBody => (tt, cur)
  | CallerGone => (false, cur)
  end.

Example demo_roundtrip :
  interp demo_endpoints (RoundTrip 2 true) 0 = ((fst (fst (interp demo_endpoints (RoundTrip 2 true) 0)), (Some (1, 503), None)), 1) /\
  snd (interp demo_endpoints (RoundTrip 3 true) 0) = 2.
Proof. vm_compute. done. Qed.

Lemma failover_reaches_a_live_endpoint_witness :
  exists i status, snd (fst (interp demo_endpoints (RoundTrip 3 true) 0)) = (Some (i, status), None) /\ status < 500.
Proof.
  refine (proj1 (proj2 (proj2 (proj2 (failover_reaches_a_live_endpoint 3 true (fst (fst (interp demo_endpoints (RoundTrip 3 true) 0))) _ _
    (interp_run demo_endpoints (RoundTrip 3 true) 0) _)))) 2 _ _ _ eq_refl).
  - lia.
  - vm_compute. repeat first [apply Forall_nil_2 | apply Forall_cons_2]; done.
  - lia.
  - vm_compute. repeat first [apply Forall_nil_2 | apply Forall_cons_2]; try done. intros _. by exists 200.
  - reflexivity.
Defined.
End FailoverTransport.

(** ** Connecting *)
Definition plain_urls : URLs := {| URL := string; Parse := fun s => Ok s; Scheme := fun s => match String.index 0 ":" s with Some n => String.substring 0 n s | None => EmptyString end; Host := fun s => s |}.

Example demo_dial :
  @Dial.DialRPC plain_urls "http://a:8545, https://b ,," Second = Ok (Dial.Failover (U := plain_urls) ["http://a:8545"; "https://b"]%string Second (3 * Second)) /\
  is_ok (@Dial.DialRPC plain_urls "ws://a,http://b" Second) = false /\ is_ok (@Dial.DialRPC plain_urls " , " Second) = false /\
  @Dial.DialRPC plain_urls "ws://a" Second = Ok (Dial.Plain (U := plain_urls) "ws://a"%string).
Proof. vm_compute. done. Qed.
