(* ===== verification/EnvText.v ===== *)
(** Reading numbers, booleans, durations and hexadecimal from text: the
    functions of Go's [strconv], [math/big] and [time] the configuration uses,
    and the helpers of [internal/config/config.go] around them. *)
From Stdlib Require Import Ascii SpecFloat.
From S2P Require Import Prelude GoText.

Abbreviation chars := (list Ascii.ascii).
Abbreviation explode := String.list_ascii_of_string.
Abbreviation implode := String.string_of_list_ascii.

(** ** Integers and booleans *)
Fixpoint parse_decimal (v : Z) (cs : chars) : option Z :=
  match cs with
  | [] => Some v
  | c :: cs => match digit_value c with None => None | Some d => parse_decimal (v * 10 + d) cs end
  end.

(** [big.Int.SetString(s, 10)]: a sign and at least one digit. *)
Definition SetString (s : string) : option Z :=
  let '(neg, cs) := match explode s with
                    | "-"%char :: cs => (true, cs)
                    | "+"%char :: cs => (false, cs)
                    | cs => (false, cs)
                    end in
  match cs with
  | [] => None
  | _ => match parse_decimal 0 cs with
         | None => None
         | Some v => Some (if neg : bool then - v else v)
         end
  end.

Definition IsInt64 (v : Z) : bool := (i64_min <=? v) && (v <=? i64_max).
Definition IsUint64 (v : Z) : bool := (0 <=? v) && (v <=? u64_max).

(** [strconv.Atoi] where an int has 64 bits. *)
Definition Atoi (s : string) : result Z := ParseInt s.

(** [strconv.ParseBool]. *)
Definition ParseBool (s : string) : result bool :=
  if bool_decide (s ∈ ["1"; "t"; "T"; "TRUE"; "true"; "True"]%string) then Ok true
  else if bool_decide (s ∈ ["0"; "f"; "F"; "FALSE"; "false"; "False"]%string) then Ok false
  else Err (errorf "invalid syntax").

(** ** Durations *)
Definition two63 : Z := 2 ^ 63.

(** [leadingInt]: the digits at the front, and what follows them. *)
Fixpoint leadingInt (x : Z) (cs : chars) : option (Z * chars) :=
  match cs with
  | [] => Some (x, [])
  | c :: cs' =>
      match digit_value c with
      | None => Some (x, cs)
      | Some d =>
          if two63 / 10 <? x then None
          else let x := x * 10 + d in if two63 <? x then None else leadingInt x cs'
      end
  end.

(** Go's [float64], as the specification of IEEE 754 has it. *)
Definition float64 (n : Z) : spec_float := binary_normalize 53 1024 n 0 false.
Definition fmul : spec_float -> spec_float -> spec_float := SFmul 53 1024.
Definition fdiv : spec_float -> spec_float -> spec_float := SFdiv 53 1024.
(** [uint64(f)] for a float that is not negative. *)
Definition truncate (f : spec_float) : Z :=
  match f with
  | S754_finite false m e => if 0 <=? e then Z.pos m * 2 ^ e else Z.pos m / 2 ^ (- e)
  | _ => 0
  end.

(** [leadingFraction]: the digits after a point and their scale. *)
Fixpoint leadingFraction (x : Z) (scale : spec_float) (overflow : bool) (cs : chars) : Z * spec_float * chars :=
  match cs with
  | [] => (x, scale, [])
  | c :: cs' =>
      match digit_value c with
      | None => (x, scale, cs)
      | Some d =>
          if overflow then leadingFraction x scale true cs'
          else if (two63 - 1) / 10 <? x then leadingFraction x scale true cs'
          else
            let y := x * 10 + d in
            if two63 <? y then leadingFraction x scale true cs'
            else leadingFraction y (fmul scale (float64 10)) false cs'
      end
  end.

(** The text up to the next digit or point. *)
Definition is_dot (c : Ascii.ascii) : bool := bool_decide (c = "."%char).
Fixpoint take_unit (cs : chars) : chars * chars :=
  match cs with
  | [] => ([], [])
  | c :: cs' =>
      if is_dot c || match digit_value c with Some _ => true | None => false end then ([], cs)
      else let '(u, rest) := take_unit cs' in (c :: u, rest)
  end.

Definition Microsecond : Z := 1000.
Definition Millisecond : Z := 1000000.
(** [unitMap]; the two signs for micro are U+00B5 and U+03BC in UTF-8. *)
Definition micro_sign : string := implode [Ascii.ascii_of_nat 194; Ascii.ascii_of_nat 181; "s"%char].
Definition micro_mu : string := implode [Ascii.ascii_of_nat 206; Ascii.ascii_of_nat 188; "s"%char].
Definition unit_of (u : string) : option Z :=
  if bool_decide (u = "ns"%string) then Some 1
  else if bool_decide (u ∈ ["us"%string; micro_sign; micro_mu]) then Some Microsecond
  else if bool_decide (u = "ms"%string) then Some Millisecond
  else if bool_decide (u = "s"%string) then Some Second
  else if bool_decide (u = "m"%string) then Some Minute
  else if bool_decide (u = "h"%string) then Some Hour
  else None.

(** One number with its unit: the nanoseconds, and what follows. *)
Definition component (cs : chars) : option (Z * chars) :=
  match leadingInt 0 cs with
  | None => None
  | Some (v, rest) =>
      let pre := negb (bool_decide (length rest = length cs)) in
      let '(f, scale, post, rest) :=
        match rest with
        | c :: rest' =>
            if is_dot c then
              let '(f, scale, rest'') := leadingFraction 0 (float64 1) false rest' in
              (f, scale, negb (bool_decide (length rest'' = length rest')), rest'')
            else (0, float64 1, false, rest)
        | [] => (0, float64 1, false, rest)
        end in
      if negb pre && negb post then None
      else
        let '(u, rest) := take_unit rest in
        match unit_of (implode u) with
        | None => None
        | Some unit =>
            if two63 / unit <? v then None
            else
              let v := v * unit in
              let v := if 0 <? f then v + truncate (fmul (float64 f) (fdiv (float64 unit) scale)) else v in
              if two63 <? v then None else Some (v, rest)
        end
  end.

(** The loop of [time.ParseDuration]; every turn consumes a character. *)
Fixpoint components (fuel : nat) (d : Z) (cs : chars) : option Z :=
  match cs with
  | [] => Some d
  | _ =>
      match fuel with
      | O => None
      | S fuel =>
          match component cs with
          | None => None
          | Some (v, rest) => let d := u64_wrap (d + v) in if two63 <? d then None else components fuel d rest
          end
      end
  end.

Definition ParseDuration (s : string) : result Z :=
  let '(neg, cs) := match explode s with
                    | "-"%char :: cs => (true, cs)
                    | "+"%char :: cs => (false, cs)
                    | cs => (false, cs)
                    end in
  if bool_decide (cs = ["0"%char]) then Ok 0
  else if bool_decide (cs = []) then Err (errorf "time: invalid duration")
  else
    match components (length cs) 0 cs with
    | None => Err (errorf "time: invalid duration")
    | Some d =>
        if neg : bool then Ok (i64_wrap (- d))
        else if i64_max <? d then Err (errorf "time: invalid duration") else Ok d
    end.

Example durations :
  (ParseDuration "8h", ParseDuration "1h30m", ParseDuration "1.5s", ParseDuration "-100ms", ParseDuration "0", ParseDuration ".5m")
    = (Ok (8 * Hour), Ok (90 * Minute), Ok 1500000000, Ok (-100 * Millisecond), Ok 0, Ok (30 * Second)) /\
  is_ok (ParseDuration "8") = false /\ is_ok (ParseDuration "") = false /\ is_ok (ParseDuration "1hour") = false /\
  is_ok (ParseDuration ".s") = false /\ is_ok (ParseDuration "9223372036854775808ns") = false /\
  ParseDuration "-9223372036854775808ns" = Ok i64_min /\ is_ok (ParseDuration "99999999h") = false.
Proof. vm_compute. done. Qed.

(** The fuel is enough: every number with its unit takes up characters. *)
Lemma leadingInt_length cs : forall x v rest, leadingInt x cs = Some (v, rest) -> (length rest <= length cs)%nat.
Proof.
  induction cs as [|c cs IH]; intros x v rest; cbn; [by intros [= _ <-]|].
  destruct (digit_value c); [|by intros [= _ <-]]. destruct (_ <? _); [done|]. destruct (_ <? _); [done|].
  intros ?%IH. lia.
Qed.
Lemma leadingFraction_length cs : forall x sc o f sc' rest, leadingFraction x sc o cs = (f, sc', rest) -> (length rest <= length cs)%nat.
Proof.
  induction cs as [|c cs IH]; intros x sc o f sc' rest; cbn; [by intros [= _ _ <-]|].
  destruct (digit_value c); [|by intros [= _ _ <-]]. destruct o; [intros ?%IH; lia|].
  destruct (_ <? _); [intros ?%IH; lia|]. destruct (_ <? _); intros ?%IH; lia.
Qed.
Lemma take_unit_length cs : forall u rest, take_unit cs = (u, rest) -> (length u + length rest = length cs)%nat.
Proof.
  induction cs as [|c cs IH]; intros u rest; cbn; [by intros [= <- <-]|].
  destruct (_ || _); [by intros [= <- <-]|]. destruct (take_unit cs) as [u' rest'] eqn:E. intros [= <- <-].
  specialize (IH _ _ eq_refl). cbn. lia.
Qed.

Lemma component_consumes cs v rest : component cs = Some (v, rest) -> (length rest < length cs)%nat.
Proof.
  unfold component. destruct (leadingInt 0 cs) as [[v0 rest0]|] eqn:E0; [|done]. apply leadingInt_length in E0.
  destruct (match rest0 with [] => _ | _ => _ end) as [[[f sc] post] rest1] eqn:E1.
  assert (length rest1 <= length rest0)%nat as H1.
  { destruct rest0 as [|c rest0]; [by simplify_eq|]. destruct (is_dot c); [|by simplify_eq].
    destruct (leadingFraction _ _ _ _) as [[f' sc'] rest''] eqn:E2. apply leadingFraction_length in E2. simplify_eq/=. lia. }
  destruct (_ && _); [done|]. destruct (take_unit rest1) as [u rest2] eqn:E2. apply take_unit_length in E2.
  destruct (unit_of (implode u)) as [unit|] eqn:Eu; [|done]. destruct (_ <? _); [done|].
  assert (u <> []) by (intros ->; vm_compute in Eu; discriminate). destruct u; [done|]. cbn in E2.
  destruct (two63 <? _); [done|]. intros [= _ <-]. lia.
Qed.

Lemma components_fuel fuel1 : forall fuel2 cs d, (length cs <= fuel1)%nat -> (length cs <= fuel2)%nat ->
  components fuel1 d cs = components fuel2 d cs.
Proof.
  induction fuel1 as [|fuel1 IH]; intros fuel2 cs d H1 H2; [by destruct cs; [destruct fuel2|cbn in H1; lia]|].
  destruct cs as [|c cs]; [by destruct fuel2|]. destruct fuel2 as [|fuel2]; [cbn in H2; lia|].
  cbn [components]. destruct (component (c :: cs)) as [[v rest]|] eqn:E; [|done].
  apply component_consumes in E. cbn [length] in *. destruct (_ <? _); [done|]. apply IH; lia.
Qed.

Lemma components_range fuel : forall d cs v, 0 <= d <= two63 -> components fuel d cs = Some v -> 0 <= v <= two63.
Proof.
  induction fuel as [|fuel IH]; intros d [|c cs] v Hd; cbn [components]; try done; try (by intros [= <-]).
  destruct (component (c :: cs)) as [[v' rest]|]; [|done]. destruct (Z.ltb_spec two63 (u64_wrap (d + v'))); [done|].
  apply IH. pose proof (u64_wrap_range (d + v')) as Hr. unfold is_u64 in Hr. lia.
Qed.

(** A duration is an [int64]. *)
Lemma ParseDuration_range s d : ParseDuration s = Ok d -> is_i64 d.
Proof.
  unfold ParseDuration. destruct (match explode s with [] => _ | _ => _ end) as [neg cs].
  case_bool_decide; [by intros [= <-]|]. case_bool_decide; [done|].
  destruct (components (length cs) 0 cs) as [d'|] eqn:E; [|done].
  apply components_range in E; [|unfold two63; lia]. destruct neg; [intros [= <-]; apply i64_wrap_range|].
  destruct (Z.ltb_spec i64_max d'); [done|]. intros [= <-]. unfold is_i64, i64_min. lia.
Qed.

(** ** Hexadecimal *)
Definition hexNibble (c : Ascii.ascii) : option Z :=
  let n := Z.of_nat (Ascii.nat_of_ascii c) in
  if (48 <=? n) && (n <=? 57) then Some (n - 48)
  else if (97 <=? n) && (n <=? 102) then Some (n - 97 + 10)
  else if (65 <=? n) && (n <=? 70) then Some (n - 65 + 10)
  else None.

(** [hexDecode]: the bytes of an even number of hexadecimal digits. *)
Fixpoint hex_pairs (cs : chars) : option chars :=
  match cs with
  | [] => Some []
  | c1 :: c2 :: cs =>
      match hexNibble c1, hexNibble c2 with
      | Some hi, Some lo =>
          match hex_pairs cs with
          | Some b => Some (Ascii.ascii_of_nat (Z.to_nat (Z.lor (Z.shiftl hi 4) lo)) :: b)
          | None => None
          end
      | _, _ => None
      end
  | [_] => None
  end.

Definition hexDecode (s : string) : result chars :=
  let cs := explode s in
  if negb (Nat.even (length cs)) then Err (errorf "odd-length hex string")
  else match hex_pairs cs with Some b => Ok b | None => Err (errorf "invalid hex character") end.

(** [hex.EncodeToString]. *)
Definition hex_digit (d : Z) : Ascii.ascii :=
  Ascii.ascii_of_nat (Z.to_nat (if d <? 10 then 48 + d else 87 + d)).
Definition EncodeToString (b : chars) : string :=
  implode (flat_map (fun c => let n := Z.of_nat (Ascii.nat_of_ascii c) in [hex_digit (Z.shiftr n 4); hex_digit (Z.land n 15)]) b).

Lemma hexNibble_digit d : 0 <= d < 16 -> hexNibble (hex_digit d) = Some d.
Proof.
  intros. assert (exists k, (k < 16)%nat /\ d = Z.of_nat k) as (k & Hk & ->) by (exists (Z.to_nat d); lia).
  do 16 (destruct k as [|k]; [done|]). lia.
Qed.

Lemma hex_pairs_encode b : hex_pairs (flat_map (fun c => let n := Z.of_nat (Ascii.nat_of_ascii c) in
  [hex_digit (Z.shiftr n 4); hex_digit (Z.land n 15)]) b) = Some b.
Proof.
  induction b as [|c b IH]; [done|]. cbn [flat_map app hex_pairs].
  set (n := Z.of_nat (Ascii.nat_of_ascii c)). assert (0 <= n < 256) as Hn by (pose proof (Ascii.nat_ascii_bounded c); lia).
  assert (0 <= Z.shiftr n 4 < 16).
  { rewrite Z.shiftr_div_pow2 by lia. split; [apply Z.div_pos; lia|apply Z.div_lt_upper_bound; lia]. }
  assert (0 <= Z.land n 15 < 16).
  { change 15 with (Z.ones 4). rewrite Z.land_ones by lia. apply Z.mod_pos_bound. lia. }
  rewrite !hexNibble_digit by done. cbn in IH |- *. rewrite IH. do 2 f_equal.
  assert (Z.lor (Z.shiftl (Z.shiftr n 4) 4) (Z.land n 15) = n) as ->.
  { rewrite <- (Z.ldiff_ones_r n 4) by lia. change 15 with (Z.ones 4). apply Z.lor_ldiff_and. }
  unfold n. by rewrite Nat2Z.id, Ascii.ascii_nat_embedding.
Qed.

Lemma length_encode b : length (explode (EncodeToString b)) = (2 * length b)%nat.
Proof.
  unfold EncodeToString. rewrite String.list_ascii_of_string_of_list_ascii. induction b as [|c b IH]; [done|]. cbn [flat_map app length]. lia.
Qed.

Lemma hexDecode_encode b : hexDecode (EncodeToString b) = Ok b.
Proof.
  unfold hexDecode. rewrite length_encode, Nat.even_mul. cbn [Nat.even orb negb].
  unfold EncodeToString. by rewrite String.list_ascii_of_string_of_list_ascii, hex_pairs_encode.
Qed.

(** A string from its start to its end. *)
Lemma substring_whole s : String.substring 0 (String.length s) s = s.
Proof. induction s as [|c s IH]; [done|]. cbn. by rewrite IH. Qed.
Lemma length_explode s : length (explode s) = String.length s.
Proof. induction s as [|c s IH]; [done|]. cbn. by rewrite IH. Qed.
