(* ===== verification/RedisUrl.v ===== *)
(** The Redis URL of the configuration, [RedisOptions] of
    [internal/config/config.go] with its caller in [internal/service/service.go]:
    the URL may hold a password, and its errors end up in the log. *)
From S2P Require Import Prelude.

(** The client options and the URL parser of the Redis library. An error has a
    text, and a [*url.Error] the text of the error inside it. *)
Class RedisLib : Type := {
  Options : Type;
  ParseURL : string -> Options + (string * option string);
  put_Password : string -> Options -> Options;
}.

Module RedisUrl.
Section RedisUrl.
Context `{RedisLib}.

(** [redisURLFaultByPrefix]. *)
Definition redisURLFaultByPrefix : list (string * string) :=
  [("net/url: invalid control character", "control character");
   ("missing protocol scheme", "missing scheme");
   ("first path segment in URL cannot contain colon", "missing scheme");
   ("net/url: invalid userinfo", "bad character in user or password");
   ("invalid port", "bad port");
   ("invalid URL escape", "bad percent-escape");
   ("invalid character", "bad host");
   ("invalid IP-literal", "bad host");
   ("missing ']' in host", "bad host");
   ("invalid host", "bad host");
   ("redis: invalid URL scheme", "bad scheme, want redis, rediss or unix");
   ("redis: invalid database number", "bad database number");
   ("redis: invalid URL path", "bad path, want /<database number>");
   ("redis: empty unix socket path", "empty unix socket path");
   ("redis: unexpected option", "unknown query option");
   ("redis: invalid ", "bad query option value")]%string.

Definition redisURLFault (err : string * option string) : string :=
  let msg := default (fst err) (snd err) in
  match List.find (fun f => String.prefix (fst f) msg) redisURLFaultByPrefix with
  | Some f => snd f
  | None => "malformed URL"
  end.

Definition fault_error (fault : string) : error :=
  errorf ("invalid REDIS_URL: " +:+ fault +:+
          " (URL not shown, it may hold a password; a password's special characters must be percent-encoded)").

Definition RedisOptions (redisURL password : string) : result Options :=
  match ParseURL redisURL with
  | inr err => Err (fault_error (redisURLFault err))
  | inl opts => Ok (if bool_decide (password = EmptyString) then opts else put_Password password opts)
  end.

(** [redisOptions] of the service. *)
Definition redisOptions (redisURL password : string) : result Options :=
  match RedisOptions redisURL password with Err e => Err (wrap "parse Redis URL" e) | Ok opts => Ok opts end.

(** Every error there can be. *)
Definition faults : list string := remove_dups (redisURLFaultByPrefix.*2) ++ ["malformed URL"%string].
Definition possible_errors : list error := fault_error <$> faults.

Lemma fault_is_fixed err : redisURLFault err ∈ faults.
Proof.
  unfold redisURLFault, faults. cbv zeta. rewrite elem_of_app, elem_of_remove_dups.
  destruct (List.find _ redisURLFaultByPrefix) as [f|] eqn:E; [|right; by left].
  left. apply List.find_some in E as [Hin _]. apply list_elem_of_fmap. exists f. split; [done|]. by apply list_elem_of_In.
Qed.

(** Nothing of the Redis URL or password reaches the log through an error:
    whatever the library says of a URL, the error is one of thirteen texts fixed
    in the source, carries no other error inside it, and does not depend on the
    password; and a URL that parses is used with the configured password in
    place of its own. *)
Theorem redis_errors_reveal_nothing redisURL password :
  (forall e, redisOptions redisURL password = Err e ->
     e ∈ wrap "parse Redis URL" <$> possible_errors /\ err_is e = [] /\ err_code e = None /\
     forall password', redisOptions redisURL password' = Err e) /\
  (forall opts, ParseURL redisURL = inl opts ->
     redisOptions redisURL EmptyString = Ok opts /\
     (password <> EmptyString -> redisOptions redisURL password = Ok (put_Password password opts))) /\
  length possible_errors = 13%nat.
Proof.
  unfold redisOptions, RedisOptions. split; [|split; [|reflexivity]].
  - intros e. destruct (ParseURL redisURL) as [opts|err]; [done|]. intros [= <-]. split; [|done].
    apply list_elem_of_fmap. eexists. split; [done|]. unfold possible_errors. apply list_elem_of_fmap. eexists. split; [done|]. apply fault_is_fixed.
  - intros opts ->. split; [done|]. intros Hp. by rewrite bool_decide_eq_false_2.
Qed.
End RedisUrl.

(** A library that answers with its whole input in the error. *)
#[local] Instance leaky : RedisLib := {|
  Options := string;
  ParseURL := fun s => if String.prefix "redis://" s then inl s
                       else inr (("parse " +:+ s)%string, Some ("invalid port " +:+ s)%string);
  put_Password := fun _ o => o;
|}.
Example leak_stopped : RedisOptions "secret" "pw" = Err (fault_error "bad port").
Proof. vm_compute. reflexivity. Qed.
End RedisUrl.
