(* ===== verification/Preflight.v ===== *)
(** The operator's [preflight] command, [internal/cli/preflight.go]: the checks
    that tell whether a worker is ready to start. Of each printed line the
    status and the name of the check are kept. *)
From S2P Require Import Prelude Effects GoText Checkpoint Chain JobCalls Registration Operator.

#[local] Open Scope prog_scope.

(** [PreflightChain], the key loader, the gateway and the HTTP probes, whose
    bodies are decoded by a call of their own. *)
Inductive PreE : Type -> Type :=
  | PreNow : PreE Z
  | PreChainID : PreE (result Z)
  | PreHead : PreE (result HeadInfo)
  | PreIsWorkerRegistered : PreE (result bool)
  | PreGetMinWorkerStake : PreE (result (option Z))
  | PreIsWorkerSuspended : PreE (result bool)
  | PreGetOffenseCount : PreE (result Z)
  | PreGetSuspendedUntil : PreE (result Z)
  | PreGetWorkerStake : PreE (result Z)
  | PreBalance : PreE (result Z)
  | PreLoadECDHKey : PreE (result bytes)
  | PreGetWorkerEncryptionKey : PreE (result bytes)
  | IsModelWhitelisted (id : Z) : PreE (result bool)
  | IsModelEnabled (id : Z) : PreE (result bool)
  | WorkerSupportsModel (id : Z) : PreE (result bool)
  | PreAuthenticate : PreE (result unit)
  | PreGet (url : string) : PreE (result Z)
  | DecodeTags : PreE (result (list string))
  | DecodeVersion : PreE (result string)
  | PreCloseBody : PreE unit.

Module Preflight.
Definition headStaleAfter : Z := 60 * Second.

(** [publishedMinStakeLCAI]. *)
Definition publishedMinStakeLCAI (chainID : Z) : option Z :=
  if chainID =? 8200 then Some 5000 else if chainID =? 9200 then Some 50000 else None.

Record PreflightHandler : Type := MkPreflight {
  ChainID : Z;
  ModelIDs : list Z;
  ModelNames : list string;
  has_LoadECDHKey : bool;
  has_Gateway : bool;
  OllamaURL : string;
  BeaconURL : string;
}.

(** ** The report *)
Inductive status : Type := PASS | WARN | FAIL | SKIP.
Record report : Type := MkReport { passed : Z; warned : Z; failed : Z; lines : list (status * string) }.

Definition line (s : status) (name : string) (r : report) : list (status * string) := lines r ++ [(s, name)].
Definition pass (name : string) (r : report) : report := MkReport (passed r + 1) (warned r) (failed r) (line PASS name r).
Definition warn (name : string) (r : report) : report := MkReport (passed r) (warned r + 1) (failed r) (line WARN name r).
Definition failf (name : string) (r : report) : report := MkReport (passed r) (warned r) (failed r + 1) (line FAIL name r).
Definition skip (name : string) (r : report) : report := MkReport (passed r) (warned r) (failed r) (line SKIP name r).

Section Checks.
Context (h : PreflightHandler).

Definition checkRPC (now : Z) (r : report) : prog PreE (bool * report) :=
  id <- call PreChainID ;;
  match id with
  | Err _ => Ret (false, failf "rpc" r)
  | Ok id =>
      if negb (i64_wrap id =? ChainID h) then Ret (false, failf "rpc" r)
      else
        head <- call PreHead ;;
        match head with
        | Err _ => Ret (false, failf "rpc" r)
        | Ok head =>
            let lag := Round (Sub now (Timestamp head * Second)) Second in
            Ret (true, if headStaleAfter <? lag then warn "rpc" r else pass "rpc" r)
        end
  end.

Definition checkSuspension (r : report) : prog PreE report :=
  suspended <- call PreIsWorkerSuspended ;;
  match suspended with
  | Err _ => Ret (failf "suspended" r)
  | Ok suspended =>
      _ <- call PreGetOffenseCount ;;
      if negb suspended then Ret (pass "suspended" r)
      else
        until <- call PreGetSuspendedUntil ;;
        match until with
        | Err _ => Ret (failf "suspended" r)
        | Ok _ => _ <- call PreHead ;; Ret (failf "suspended" r)
        end
  end.

Definition checkStake (minStake : Z) (r : report) : prog PreE report :=
  stake <- call PreGetWorkerStake ;;
  Ret (match stake with
       | Err _ => failf "stake" r
       | Ok stake => if stake <? minStake then failf "stake" r else pass "stake" r
       end).

Definition checkBalance (registered : bool) (minStake : option Z) (r : report) : prog PreE report :=
  bal <- call PreBalance ;;
  Ret (match bal with
       | Err _ => failf "balance" r
       | Ok bal =>
           let buffer := Operator.lcaiToWei Operator.gasBufferLCAI in
           if registered then
             if bal =? 0 then failf "balance" r
             else if bal <? buffer then warn "balance" r else pass "balance" r
           else
             match minStake with
             | None => skip "balance" r
             | Some minStake =>
                 if bal <? minStake then failf "balance" r
                 else if bal <? minStake + buffer then warn "balance" r else pass "balance" r
             end
       end).

Definition checkECDH (registered : bool) (r : report) : prog PreE report :=
  if negb (has_LoadECDHKey h) then Ret (skip "ecdh" r)
  else
    key <- call PreLoadECDHKey ;;
    match key with
    | Err e => Ret (if errors_Is e ErrNotExist && negb registered then warn "ecdh" r else failf "ecdh" r)
    | Ok key =>
        if negb registered then Ret (pass "ecdh" r)
        else
          onChain <- call PreGetWorkerEncryptionKey ;;
          Ret (match onChain with
               | Err _ => failf "ecdh" r
               | Ok onChain => if negb (bool_decide (onChain = key)) then failf "ecdh" r else pass "ecdh" r
               end)
    end.

(** One model of [checkModels]. *)
Definition checkModel (registered : bool) (id : Z) (r : report) : prog PreE report :=
  whitelisted <- call (IsModelWhitelisted id) ;;
  match whitelisted with
  | Ok true =>
      enabled <- call (IsModelEnabled id) ;;
      match enabled with
      | Ok true =>
          if negb registered then Ret (pass "model" r)
          else
            supported <- call (WorkerSupportsModel id) ;;
            Ret (match supported with Ok true => pass "model" r | _ => failf "model" r end)
      | _ => Ret (failf "model" r)
      end
  | _ => Ret (failf "model" r)
  end.

Fixpoint check_models (registered : bool) (ids : list Z) (r : report) : prog PreE report :=
  match ids with
  | [] => Ret r
  | id :: ids => r <- checkModel registered id r ;; check_models registered ids r
  end.

Definition checkModels (registered : bool) (r : report) : prog PreE report :=
  match ModelIDs h with
  | [] => Ret (skip "model" r)
  | _ =>
      if negb (bool_decide (length (ModelNames h) = length (ModelIDs h))) then Ret (failf "model" r)
      else check_models registered (ModelIDs h) r
  end.

(** The part of [checkChain] about the stake: the minimum it read, if any. *)
Definition check_min_stake (registered : bool) (r : report) : prog PreE (option Z * report) :=
  answer <- call PreGetMinWorkerStake ;;
  match answer with
  | Err _ => Ret (None, failf "stake" r)
  | Ok None => Ret (None, r)
  | Ok (Some minStake) =>
      let r := match publishedMinStakeLCAI (ChainID h) with
               | Some pub => if negb (minStake =? Operator.lcaiToWei pub) then warn "stake" r else r
               | None => r
               end in
      r <- (if registered then checkStake minStake r else Ret (skip "stake" r)) ;;
      Ret (Some minStake, r)
  end.

Definition checkChain (r : report) : prog PreE report :=
  registered <- call PreIsWorkerRegistered ;;
  match registered with
  | Err _ => Ret (failf "registered" r)
  | Ok registered =>
      r <- (if registered : bool then checkSuspension (pass "registered" r) else Ret (failf "registered" r)) ;;
      mr <- check_min_stake registered r ;;
      r <- checkBalance registered (fst mr) (snd mr) ;;
      r <- checkECDH registered r ;;
      checkModels registered r
  end.

Definition checkGateway (r : report) : prog PreE report :=
  if negb (has_Gateway h) then Ret (skip "gateway" r)
  else
    auth <- call PreAuthenticate ;;
    Ret (match auth with Err _ => failf "gateway" r | Ok _ => pass "gateway" r end).

(** [GatewayPing.Authenticate], what stands behind [PreAuthenticate] when no
    signing key is loaded. *)
Definition GatewayPing_Authenticate (url : string) : prog PreE (result unit) :=
  resp <- call (PreGet (trim_slashes url +:+ "/api/auth/challenge")) ;;
  match resp with
  | Err e => Ret (Err e)
  | Ok code =>
      deferred (Ret (if negb (code =? 200) then Err (errorf "challenge endpoint returned an error") else Ok tt))
        (fun _ => call PreCloseBody)
  end.

(** The models Ollama does not have, by name or as [:latest]. *)
Definition is_present (present : list string) (name : string) : bool :=
  bool_decide (name ∈ present) || bool_decide ((name +:+ ":latest") ∈ present).

Definition missing_models (present : list string) : list string :=
  filter (fun name => is_present present name = false) (ModelNames h).

Definition checkOllama (r : report) : prog PreE report :=
  if bool_decide (OllamaURL h = EmptyString) then Ret (skip "ollama" r)
  else
    resp <- call (PreGet (trim_slashes (OllamaURL h) +:+ "/api/tags")) ;;
    match resp with
    | Err _ => Ret (failf "ollama" r)
    | Ok code =>
        deferred
          (if negb (code =? 200) then Ret (failf "ollama" r)
           else
             tags <- call DecodeTags ;;
             Ret (match tags with
                  | Err _ => failf "ollama" r
                  | Ok present =>
                      let r := foldl (fun r _ => failf "ollama" r) r (missing_models present) in
                      match missing_models present with [] => pass "ollama" r | _ => r end
                  end)) (fun _ => call PreCloseBody)
    end.

Definition checkBeacon (r : report) : prog PreE report :=
  if bool_decide (BeaconURL h = EmptyString) then Ret (skip "beacon" r)
  else
    resp <- call (PreGet (trim_slashes (BeaconURL h) +:+ "/eth/v1/node/version")) ;;
    match resp with
    | Err _ => Ret (failf "beacon" r)
    | Ok code =>
        deferred
          (if negb (code =? 200) then Ret (failf "beacon" r)
           else
             v <- call DecodeVersion ;;
             Ret (match v with Err _ => failf "beacon" r | Ok _ => pass "beacon" r end)) (fun _ => call PreCloseBody)
    end.

(** The node, and the checks that need it. *)
Definition check_node (now : Z) (r : report) : prog PreE report :=
  rc <- checkRPC now r ;;
  if fst rc then checkChain (snd rc) else Ret (skip "chain" (snd rc)).

Definition Run : prog PreE (bool * report) :=
  now <- call PreNow ;;
  r <- check_node now (MkReport 0 0 0 []) ;;
  r <- checkGateway r ;;
  r <- checkOllama r ;;
  r <- checkBeacon r ;;
  Ret (failed r =? 0, r).

End Checks.

(** ** What a report without a failure says

    [clean P r tr r']: the checks between the reports [r] and [r'] add failures
    only, and every one of them is a line; when there is none, [P] was read. *)
#[global] Instance status_eq_dec : EqDecision status.
Proof. solve_decision. Defined.

Definition failures (r : report) : list (status * string) := filter (fun l => fst l = FAIL) (lines r).
Definition counted (r : report) : Prop := failed r = Z.of_nat (length (failures r)).

Record clean (P : list (called PreE) -> Prop) (r : report) (tr : list (called PreE)) (r' : report) : Prop := {
  cl_mono : failed r <= failed r';
  cl_counted : counted r -> counted r';
  cl_read : failed r' = failed r -> P tr;
}.

Lemma counted_line r s name p w : counted r -> s <> FAIL -> counted (MkReport p w (failed r) (line s name r)).
Proof.
  unfold counted, failures, line. cbn. intros -> Hs. by rewrite filter_app, filter_cons_False, filter_nil, app_nil_r by done.
Qed.
Lemma counted_failf r name : counted r -> counted (failf name r).
Proof.
  unfold counted, failures, failf, line. cbn. intros ->.
  rewrite filter_app, filter_cons_True, filter_nil, length_app by done. cbn. lia.
Qed.

(** The leaves: a failure, and a line that is none. *)
Lemma clean_failf P r tr name : clean P r tr (failf name r).
Proof. split; cbn; [lia|apply counted_failf|lia]. Qed.
Lemma clean_pass (P : list (called PreE) -> Prop) r tr name : P tr -> clean P r tr (pass name r).
Proof. intros HP. split; cbn; [lia|by intros; apply counted_line|done]. Qed.
Lemma clean_warn (P : list (called PreE) -> Prop) r tr name : P tr -> clean P r tr (warn name r).
Proof. intros HP. split; cbn; [lia|by intros; apply counted_line|done]. Qed.
Lemma clean_skip (P : list (called PreE) -> Prop) r tr name : P tr -> clean P r tr (skip name r).
Proof. intros HP. split; cbn; [lia|by intros; apply counted_line|done]. Qed.
Lemma clean_same (P : list (called PreE) -> Prop) r tr : P tr -> clean P r tr r.
Proof. intros HP. by split. Qed.

Lemma clean_mono (P Q : list (called PreE) -> Prop) r tr r' : clean P r tr r' -> (P tr -> Q tr) -> clean Q r tr r'.
Proof. intros [M C R] HPQ. split; auto. Qed.

Lemma clean_trans P Q r1 tr1 r2 tr2 r3 : clean P r1 tr1 r2 -> clean Q r2 tr2 r3 ->
  clean (fun _ => P tr1 /\ Q tr2) r1 (tr1 ++ tr2) r3.
Proof. intros [M1 C1 R1] [M2 C2 R2]. split; [lia|auto|]. intros E. split; [apply R1|apply R2]; lia. Qed.

Ltac leaf := repeat case_match; first [apply clean_failf | apply clean_pass | apply clean_warn | apply clean_skip | apply clean_same].

(** ** What the checks read *)
Section Ready.
Context (h : PreflightHandler).

Definition rpc_read (tr : list (called PreE)) : Prop :=
  exists id, Called PreChainID (Ok id) ∈ tr /\ i64_wrap id = ChainID h.
Definition active_read (tr : list (called PreE)) : Prop := Called PreIsWorkerSuspended (Ok false) ∈ tr.
Definition stake_read (minStake : Z) (tr : list (called PreE)) : Prop :=
  exists stake, Called PreGetWorkerStake (Ok stake) ∈ tr /\ minStake <= stake.
Definition gas_read (tr : list (called PreE)) : Prop := exists bal, Called PreBalance (Ok bal) ∈ tr /\ bal <> 0.
Definition key_read (tr : list (called PreE)) : Prop := has_LoadECDHKey h = true ->
  exists key, Called PreLoadECDHKey (Ok key) ∈ tr /\ Called PreGetWorkerEncryptionKey (Ok key) ∈ tr.
Definition model_read (id : Z) (tr : list (called PreE)) : Prop :=
  Called (IsModelWhitelisted id) (Ok true) ∈ tr /\ Called (IsModelEnabled id) (Ok true) ∈ tr /\
  Called (WorkerSupportsModel id) (Ok true) ∈ tr.
Definition gateway_read (tr : list (called PreE)) : Prop := has_Gateway h = true -> Called PreAuthenticate (Ok tt) ∈ tr.
Definition ollama_read (tr : list (called PreE)) : Prop := OllamaURL h <> EmptyString ->
  Called (PreGet (trim_slashes (OllamaURL h) +:+ "/api/tags")) (Ok 200) ∈ tr /\
  exists present, Called DecodeTags (Ok present) ∈ tr /\ Forall (fun name => is_present present name = true) (ModelNames h).
Definition beacon_read (tr : list (called PreE)) : Prop := BeaconURL h <> EmptyString ->
  Called (PreGet (trim_slashes (BeaconURL h) +:+ "/eth/v1/node/version")) (Ok 200) ∈ tr /\
  exists version, Called DecodeVersion (Ok version) ∈ tr.

Ltac seen := repeat first [done | eexists | split]; try set_solver.

Lemma checkRPC_clean now r : always (checkRPC h now r) (fun tr rc =>
  clean rpc_read r tr (snd rc) /\ (fst rc = false -> failed r < failed (snd rc))).
Proof.
  unfold checkRPC, rpc_read. walk; cbn [fst snd]; (split; [leaf|done || (intros; cbn; lia)]); reflect_Z; seen.
Qed.

Lemma checkSuspension_clean r : always (checkSuspension r) (clean active_read r).
Proof. unfold checkSuspension, active_read. walk; leaf; reflect_Z; subst; set_solver. Qed.

Lemma checkStake_clean minStake r : always (checkStake minStake r) (clean (stake_read minStake) r).
Proof.
  intros [stake|e]; cbn [always bind]; [|leaf]. destruct (Z.ltb_spec stake minStake); leaf. exists stake. split; [left|done].
Qed.

(** The checks of a worker that is not registered read what they can. *)
Lemma checkBalance_clean registered minStake r :
  always (checkBalance registered minStake r) (clean (fun tr => registered = true -> gas_read tr) r).
Proof.
  intros [bal|e]; cbn [always bind]; [|leaf]. destruct registered; [|by leaf].
  destruct (Z.eqb_spec bal 0); [leaf|]. destruct (bal <? _); leaf; exists bal; (split; [left|done]).
Qed.

Lemma checkECDH_clean registered r : always (checkECDH h registered r) (clean (fun tr => registered = true -> key_read tr) r).
Proof.
  unfold checkECDH, key_read. destruct (has_LoadECDHKey h); cbn [negb]; [|by leaf].
  intros [key|e]; cbn [always bind]; [destruct registered; cbn [negb]; [|by leaf]|destruct registered; rewrite ?andb_false_r; by leaf].
  intros [onChain|e]; cbn [always bind]; [|leaf]. case_bool_decide; subst; cbn [negb]; leaf. intros _ _. exists key. set_solver.
Qed.

Lemma checkModel_clean registered id r : always (checkModel registered id r) (clean (fun tr => registered = true -> model_read id tr) r).
Proof. unfold checkModel, model_read. walk; leaf; try done; set_solver. Qed.

Definition models_read (ids : list Z) (tr : list (called PreE)) : Prop := forall id, id ∈ ids -> model_read id tr.

Lemma check_models_clean registered ids : forall r,
  always (check_models registered ids r) (clean (fun tr => registered = true -> models_read ids tr) r).
Proof.
  unfold models_read. induction ids as [|id ids IH]; intros r; cbn [check_models]; [leaf; by intros _ id ?%elem_of_nil|].
  apply always_bind. eapply always_mono; [apply checkModel_clean|]. intros tr r1 H1.
  eapply always_mono; [apply IH|]. intros tr' r2 H2. eapply clean_mono; [exact (clean_trans _ _ _ _ _ _ _ H1 H2)|].
  intros [Hm Hms] Hr i [->|Hi]%elem_of_cons; specialize (Hm Hr); unfold model_read in *; [set_solver|].
  specialize (Hms Hr i Hi). set_solver.
Qed.

Lemma checkModels_clean registered r :
  always (checkModels h registered r) (clean (fun tr => registered = true -> models_read (ModelIDs h) tr) r).
Proof.
  unfold checkModels. destruct (ModelIDs h) as [|id ids] eqn:E; [leaf; by intros _ id ?%elem_of_nil|].
  destruct (negb _); [leaf|]. apply check_models_clean.
Qed.

Lemma checkGateway_clean r : always (checkGateway h r) (clean gateway_read r).
Proof.
  unfold checkGateway, gateway_read. destruct (has_Gateway h); cbn [negb]; [|by leaf]. intros [[]|e]; cbn [always bind]; leaf. intros _. left.
Qed.

Lemma failures_of (names : list string) : forall r tr (P : list (called PreE) -> Prop), (names = [] -> P tr) -> clean P r tr (foldl (fun r _ => failf "ollama" r) r names).
Proof.
  induction names as [|x names IH]; intros r tr P HP; [apply clean_same; auto|]. cbn [foldl].
  destruct (IH (failf "ollama" r) tr (fun _ => True) ltac:(done)) as [M C _]. cbn [failed failf] in *.
  split; [lia|intros ?; by apply C, counted_failf|lia].
Qed.

Lemma checkOllama_clean r : always (checkOllama h r) (clean ollama_read r).
Proof.
  unfold checkOllama, ollama_read, deferred. case_bool_decide as Hu; [by leaf|].
  intros [code|e]; cbn [always bind]; [|leaf]. destruct (Z.eqb_spec code 200) as [->|]; cbn [negb bind always call]; [|intros []; leaf].
  intros [present|e]; cbn [always bind]; intros []; [|leaf]. destruct (missing_models h present) as [|m ms] eqn:E.
  - apply clean_pass. intros _. split; [left|]. exists present. split; [set_solver|]. apply Forall_forall. intros name Hn.
    destruct (is_present present name) eqn:Ep; [done|]. exfalso.
    assert (name ∈ missing_models h present) as Hm by by apply list_elem_of_filter.
    rewrite E in Hm. by apply elem_of_nil in Hm.
  - by apply failures_of.
Qed.

Lemma checkBeacon_clean r : always (checkBeacon h r) (clean beacon_read r).
Proof.
  unfold checkBeacon, beacon_read, deferred. case_bool_decide as Hu; [by leaf|].
  intros [code|e]; cbn [always bind]; [|leaf]. destruct (Z.eqb_spec code 200) as [->|]; cbn [negb bind always call]; [|intros []; leaf].
  intros [version|e]; cbn [always bind]; intros []; leaf. intros _. split; [left|]. exists version. set_solver.
Qed.

(** Everything a pass reads of the chain, and what it reads after the
    registration. *)
Definition min_stake_read (tr : list (called PreE)) : Prop :=
  exists m, Called PreGetMinWorkerStake (Ok m) ∈ tr /\ forall minStake, m = Some minStake -> stake_read minStake tr.
Record chain_read (tr : list (called PreE)) : Prop := {
  ch_registered : Called PreIsWorkerRegistered (Ok true) ∈ tr;
  ch_active : active_read tr;
  ch_stake : min_stake_read tr;
  ch_gas : gas_read tr;
  ch_key : key_read tr;
  ch_models : models_read (ModelIDs h) tr;
}.

(** What was read stays read. *)
Definition stable (P : list (called PreE) -> Prop) : Prop := forall tr tr', tr ⊆ tr' -> P tr -> P tr'.
Lemma reads_stable : stable active_read /\ stable min_stake_read /\ stable gas_read /\ stable key_read /\ stable (models_read (ModelIDs h)) /\
  stable rpc_read /\ stable gateway_read /\ stable ollama_read /\ stable beacon_read /\ stable chain_read.
Proof.
  assert (stable active_read) by (intros tr tr' Hs; unfold active_read; set_solver).
  assert (stable min_stake_read) by (intros tr tr' Hs (m & Hm & Hk); exists m; split; [set_solver|]; intros k Ek;
    destruct (Hk k Ek) as (stake & ? & ?); exists stake; split; [set_solver|done]).
  assert (stable gas_read) by (intros tr tr' Hs (b & ? & ?); exists b; split; [set_solver|done]).
  assert (stable key_read) by (intros tr tr' Hs Hk Hl; destruct (Hk Hl) as (k & ? & ?); exists k; set_solver).
  assert (stable (models_read (ModelIDs h))) by (intros tr tr' Hs Hm id Hi; destruct (Hm id Hi) as (? & ? & ?); unfold model_read; set_solver).
  assert (stable rpc_read) by (intros tr tr' Hs (id & ? & ?); exists id; split; [set_solver|done]).
  assert (stable gateway_read) by (intros tr tr' Hs Hg Hh; specialize (Hg Hh); set_solver).
  assert (stable ollama_read) by (intros tr tr' Hs Ho Hh; destruct (Ho Hh) as (? & p & ? & ?); split; [set_solver|]; exists p; split; [set_solver|done]).
  assert (stable beacon_read) by (intros tr tr' Hs Ho Hh; destruct (Ho Hh) as (? & p & ?); split; [set_solver|]; exists p; set_solver).
  repeat (split; [done|]). intros tr tr' Hs [? ? ? ? ? ?]. split; [set_solver|eauto..].
Qed.

Definition tail_read (registered : bool) (tr : list (called PreE)) : Prop :=
  registered = true -> min_stake_read tr /\ gas_read tr /\ key_read tr /\ models_read (ModelIDs h) tr.

Lemma check_min_stake_clean registered r :
  always (check_min_stake h registered r) (fun tr mr => clean (fun tr => registered = true -> min_stake_read tr) r tr (snd mr)).
Proof.
  intros [[minStake|]|e]; cbn [always bind snd]; [|leaf; intros _; exists None; split; [left|done]|leaf].
  match goal with |- context [checkStake minStake ?r2] => set (rw := r2) end.
  assert (clean (fun _ => True) r [Called PreGetMinWorkerStake (Ok (Some minStake))] rw) as Hw by (unfold rw; by leaf).
  apply always_bind. destruct registered; cbn [always snd app].
  - eapply always_mono; [apply checkStake_clean|]. intros tr2 r2 H2. rewrite app_nil_r.
    eapply clean_mono; [exact (clean_trans _ _ _ _ _ _ _ Hw H2)|]. intros [_ (stake & ? & ?)] _.
    exists (Some minStake). split; [left|]. intros k [= <-]. exists stake. split; [set_solver|done].
  - eapply clean_mono; [exact (clean_trans _ (fun _ => True) _ _ _ [] _ Hw (clean_skip (fun _ => True) rw [] "stake" I))|done].
Qed.

Lemma after_registered_clean registered r :
  always (mr <- check_min_stake h registered r ;;
          r <- checkBalance registered (fst mr) (snd mr) ;; r <- checkECDH h registered r ;; checkModels h registered r)
    (clean (tail_read registered) r).
Proof.
  apply always_bind. eapply always_mono; [apply check_min_stake_clean|]. intros tr0 [m r0] H0. cbn [fst snd] in *.
  apply always_bind. eapply always_mono; [apply checkBalance_clean|]. intros tr1 r1 H1.
  apply always_bind. eapply always_mono; [apply checkECDH_clean|]. intros tr2 r2 H2.
  eapply always_mono; [apply checkModels_clean|]. intros tr3 r3 H3.
  pose proof (clean_trans _ _ _ _ _ _ _ H0 (clean_trans _ _ _ _ _ _ _ H1 (clean_trans _ _ _ _ _ _ _ H2 H3))) as Hall.
  eapply clean_mono; [exact Hall|]. destruct reads_stable as (_ & S1 & S2 & S3 & S4 & _).
  intros (R0 & R1 & R2 & R3) Hr. split; [eapply S1; [|by apply R0]|]; [set_solver|].
  split; [eapply S2; [|by apply R1]|]; [set_solver|]. split; [eapply S3; [|by apply R2]|eapply S4; [|by apply R3]]; set_solver.
Qed.

Lemma checkChain_clean r : always (checkChain h r) (clean chain_read r).
Proof.
  intros [[|]|e]; cbn [always bind]; [| |leaf].
  - apply always_bind. eapply always_mono; [apply checkSuspension_clean|]. intros tr1 r1 H1.
    eapply always_mono; [apply after_registered_clean|]. intros tr2 r2 H2.
    pose proof (clean_pass (fun _ => True) r [Called PreIsWorkerRegistered (Ok true)] "registered" I) as H0.
    eapply clean_mono; [exact (clean_trans _ _ _ _ _ _ _ H0 (clean_trans _ _ _ _ _ _ _ H1 H2))|].
    destruct reads_stable as (S0 & S1 & S2 & S3 & S4 & _). intros (_ & Ha & Ht). destruct (Ht eq_refl) as (? & ? & ? & ?).
    assert (forall P, stable P -> P tr2 -> P (Called PreIsWorkerRegistered (Ok true) :: tr1 ++ tr2)) as Hs by (intros P HP; apply HP; set_solver).
    split; [left|eapply S0; [|exact Ha]; set_solver|by apply Hs..].
  - eapply always_mono; [apply after_registered_clean|]. intros tr2 r2 [M C _]. cbn [failed failf] in M.
    split; [lia|intros; apply C, counted_failf; done|lia].
Qed.

(** Everything a pass reads. *)
Record ready (tr : list (called PreE)) : Prop := {
  rd_rpc : rpc_read tr;
  rd_chain : chain_read tr;
  rd_gateway : gateway_read tr;
  rd_ollama : ollama_read tr;
  rd_beacon : beacon_read tr;
}.

Lemma check_node_clean now r : always (check_node h now r) (clean (fun tr => rpc_read tr /\ chain_read tr) r).
Proof.
  apply always_bind. eapply always_mono; [apply checkRPC_clean|]. intros tr0 [go r0] [H0 Hgo]. cbn [fst snd] in *.
  destruct reads_stable as (_ & _ & _ & _ & _ & S5 & _ & _ & _ & S9). destruct go.
  - eapply always_mono; [apply checkChain_clean|]. intros tr1 r1 H1.
    eapply clean_mono; [exact (clean_trans _ _ _ _ _ _ _ H0 H1)|]. intros [R0 R1].
    split; [eapply S5; [|exact R0]|eapply S9; [|exact R1]]; set_solver.
  - specialize (Hgo eq_refl). destruct H0 as [M C _]. cbn [always]. split; cbn [failed skip]; [lia|intros; apply (counted_line r0 SKIP); [by apply C|done]|lia].
Qed.

Definition run_post (tr : list (called PreE)) (a : bool * report) : Prop :=
  (fst a = true <-> failures (snd a) = []) /\ (fst a = true -> ready tr).

Lemma run_always : always (Run h) run_post.
Proof.
  intros now. cbn [bind].
  apply always_bind. eapply always_mono; [apply check_node_clean|]. intros tr0 r0 H0.
  apply always_bind. eapply always_mono; [apply checkGateway_clean|]. intros tr1 r1 H1.
  apply always_bind. eapply always_mono; [apply checkOllama_clean|]. intros tr2 r2 H2.
  apply always_bind. eapply always_mono; [apply checkBeacon_clean|]. intros tr3 r3 H3.
  destruct (clean_trans _ _ _ _ _ _ _ H0 (clean_trans _ _ _ _ _ _ _ H1 (clean_trans _ _ _ _ _ _ _ H2 H3))) as [_ C R].
  specialize (C eq_refl). unfold counted in C. split; cbn [fst snd].
  - rewrite Z.eqb_eq, C. split; [|by intros ->]. intros E. by destruct (failures r3).
  - intros E%Z.eqb_eq. destruct (R E) as ([R0 R1] & R2 & R3 & R4).
    destruct reads_stable as (_ & _ & _ & _ & _ & S5 & S6 & S7 & S8 & S9). rewrite app_nil_r.
    split; [eapply S5; [|exact R0]|eapply S9; [|exact R1]|eapply S6; [|exact R2]|eapply S7; [|exact R3]|eapply S8; [|exact R4]]; set_solver.
Qed.

(** The chain's answers to the startup check are those [preflight] read. *)
Definition agrees (onChain : bytes) (c : called RegE) : Prop :=
  match c with Called e x => match e in RegE Y return Y -> Prop with
    | IsWorkerRegistered => fun r => r = Ok true
    | GetWorkerEncryptionKey => fun r => r = Ok onChain
    | _ => fun _ => True
    end x end.

Lemma validates key : always (RegistrationManager.Validate key) (fun tr r => Forall (agrees key) tr -> r = Ok tt).
Proof.
  unfold RegistrationManager.Validate, wrap_err, try. walk; repeat match goal with H : Forall _ (_ :: _) |- _ => apply Forall_cons in H as [? H] end;
    cbn in *; simplify_eq; try done; by rewrite bool_decide_eq_true_2.
Qed.

(** C35. [preflight] vouches for the worker: it reports success exactly when no
    line says FAIL, and then it has read that the node serves the configured
    chain, that the worker is registered, not suspended, staked to the minimum
    and can pay gas, that the key published on chain is the local one, that
    every configured model is whitelisted, enabled, added to the worker and
    pulled, and that the gateway and the beacon answer, as far as they are
    configured. A worker it vouches for passes the check at startup while the
    chain says the same. *)
Theorem preflight_vouches_for_the_worker tr ok r : runs (Run h) tr (ok, r) ->
  (ok = true <-> failures r = []) /\
  (ok = true -> ready tr /\
     (has_LoadECDHKey h = true -> exists key, Called PreLoadECDHKey (Ok key) ∈ tr /\
        forall tr' r', runs (RegistrationManager.Validate key) tr' r' -> Forall (agrees key) tr' -> r' = Ok tt)).
Proof.
  intros Hr. destruct (always_runs _ _ _ _ run_always Hr) as [Hf Hok]. split; [exact Hf|]. intros Ht. specialize (Hok Ht).
  split; [done|]. intros Hl. destruct (ch_key _ (rd_chain _ Hok) Hl) as (key & Hk & _). exists key. split; [done|].
  intros tr' r' Hr'. exact (always_runs _ _ _ _ (validates key) Hr').
Qed.
End Ready.

(** ** A run *)
Definition demo_node (suspended : bool) : handler PreE unit := fun X e w =>
  match e in PreE X return X * unit with
  | PreNow => (1010 * Second, tt)
  | PreChainID => (Ok 8200, tt)
  | PreHead => (Ok (MkHead 50 1000), tt)
  | PreIsWorkerRegistered => (Ok true, tt)
  | PreGetMinWorkerStake => (Ok (Some (Operator.lcaiToWei 5000)), tt)
  | PreIsWorkerSuspended => (Ok suspended, tt)
  | PreGetOffenseCount => (Ok 0, tt)
  | PreGetSuspendedUntil => (Ok 2000, tt)
  | PreGetWorkerStake => (Ok (Operator.lcaiToWei 6000), tt)
  | PreBalance => (Ok 5, tt)
  | PreLoadECDHKey => (Ok "key"%string, tt)
  | PreGetWorkerEncryptionKey => (Ok "key"%string, tt)
  | IsModelWhitelisted _ => (Ok true, tt)
  | IsModelEnabled _ => (Ok true, tt)
  | WorkerSupportsModel _ => (Ok true, tt)
  | PreAuthenticate => (Ok tt, tt)
  | PreGet _ => (Ok 200, tt)
  | DecodeTags => (Ok ["qwen:latest"%string], tt)
  | DecodeVersion => (Ok "teku"%string, tt)
  | PreCloseBody => (tt, tt)
  end.
Definition demo_preflight : PreflightHandler := MkPreflight 8200 [7] ["qwen"%string] true true "http://o/" "".
Definition demo_checks (suspended : bool) := interp (demo_node suspended) (Run demo_preflight) tt.

Example demo_reports :
  fst (snd (fst (demo_checks false))) = true /\ failures (snd (snd (fst (demo_checks true)))) = [(FAIL, "suspended"%string)] /\
  lines (snd (snd (fst (demo_checks false)))) =
    [(PASS, "rpc"); (PASS, "registered"); (PASS, "suspended"); (PASS, "stake"); (WARN, "balance"); (PASS, "ecdh");
     (PASS, "model"); (PASS, "gateway"); (PASS, "ollama"); (SKIP, "beacon")]%string.
Proof. vm_compute. done. Qed.

Lemma preflight_vouches_for_the_worker_witness : ready demo_preflight (fst (fst (demo_checks false))) /\ failures (snd (snd (fst (demo_checks false)))) = [].
Proof.
  destruct (preflight_vouches_for_the_worker demo_preflight (fst (fst (demo_checks false))) true (snd (snd (fst (demo_checks false))))
    (interp_run (demo_node false) (Run demo_preflight) tt)) as [Hf Hr].
  split; [exact (proj1 (Hr eq_refl))|]. by apply Hf.
Defined.
End Preflight.
