(* ===== verification/Watch.v ===== *)
(** The operator's [watch] daemon, [internal/cli/watch.go]: what it checks each
    interval, and the messages it posts when a check starts failing and when it
    recovers. *)
From S2P Require Import Prelude Effects GoText Chain JobCalls Registration Operator Preflight.

#[local] Open Scope prog_scope.

(** [SessionClaim]. *)
Record SessionClaim `{AddressOps} : Type := MkClaim { ReqID : Z; cl_Worker : Address; Block : Z }.
Arguments MkClaim {_} _ _ _.

(** The messages of the webhook, and what they say of a check. *)
Inductive title : Type := Failing | StillFailing (since : Z) | Recovered (since : Z).
Record webhookMessage : Type := MkMessage { m_check : string; m_title : title; m_desc : string }.

(** What the daemon asks of the outside. [HGet] answers [None] for a missing
    key; [Post] is the exchange with the webhook, answered by a status. *)
Inductive AlertE `{AddressOps} : Type -> Type :=
  | WNow : AlertE Z
  | HttpGet (url : string) : AlertE (result Z)
  | CloseResponse : AlertE unit
  | HGet : AlertE (option (result Z))
  | WHead : AlertE (result HeadInfo)
  | WIsWorkerRegistered : AlertE (result bool)
  | WIsWorkerSuspended : AlertE (result bool)
  | WGetSuspendedUntil : AlertE (result Z)
  | WGetWorkerStake : AlertE (result Z)
  | WGetMinWorkerStake : AlertE (result Z)
  | SessionClaims (from to : Z) : AlertE (result (list SessionClaim))
  | EligibleAt (reqID block : Z) : AlertE (result bool)
  | RequiredCapabilities (reqID : Z) : AlertE (result Z)
  | BuildRequest (m : webhookMessage) : AlertE (result unit)
  | Post (m : webhookMessage) : AlertE (result Z).

Module WatchHandler.
Definition claimGraceBlocks : Z := 5.
Definition maxClaimScan : Z := 100.

(** [checkState]; [since] is [None] for the zero time. *)
Record checkState : Type := MkState { alerted : bool; lastAlert : Z; since : option Z }.
Definition no_state : checkState := MkState false 0 None.
Abbreviation checks := (gmap string checkState).
Definition state_of (cs : checks) (check : string) : checkState := default no_state (cs !! check).

Record claimTracker : Type := MkTracker { scanned : Z; missed : Z }.

Section Watch.
Context `{AddressOps}.

Record t : Type := MkWatch {
  WorkerAddr : Address;
  LivenessURL : string;
  OllamaURL : string;
  has_Heartbeat : bool;
  HeartbeatMaxAge : Z;
  MissedClaims : Z;
  Cooldown : Z;
}.
Context (h : t).

(** [notify]; the status is judged by its hundreds. *)
Definition notify (m : webhookMessage) : prog AlertE bool :=
  _ <- call WNow ;;
  r <- call (BuildRequest m) ;;
  match r with
  | Err _ => Ret false
  | Ok _ =>
      r <- call (Post m) ;;
      match r with
      | Err _ => Ret false
      | Ok status => _ <- call CloseResponse ;; Ret (Z.quot status 100 =? 2)
      end
  end.

(** [observe] of one check's state. *)
Definition observe_state (check problem : string) (st : checkState) : prog AlertE checkState :=
  now <- call WNow ;;
  if negb (bool_decide (problem = EmptyString)) then
    let began := default now (since st) in
    let st := MkState (alerted st) (lastAlert st) (Some began) in
    if alerted st && (Sub now (lastAlert st) <? Cooldown h) then Ret st
    else
      let title := if alerted st then StillFailing (Round (Sub now began) Second) else Failing in
      ok <- notify (MkMessage check title problem) ;;
      Ret (if ok : bool then MkState true now (since st) else st)
  else
    match since st with
    | None => Ret st
    | Some began =>
        let cleared := MkState false (lastAlert st) None in
        if alerted st then
          ok <- notify (MkMessage check (Recovered (Round (Sub now began) Second)) "back to normal") ;;
          Ret (if ok : bool then cleared else st)
        else Ret cleared
    end.

Definition observe (check problem : string) (cs : checks) : prog AlertE checks :=
  st <- observe_state check problem (state_of cs check) ;;
  Ret (<[check := st]> cs).

Definition probe (target : string) : prog AlertE string :=
  r <- call (HttpGet target) ;;
  match r with
  | Err _ => Ret "unreachable"%string
  | Ok status => _ <- call CloseResponse ;; Ret (if status =? 200 then EmptyString else "returned another status"%string)
  end.

Definition checkHeartbeat : prog AlertE string :=
  r <- call HGet ;;
  match r with
  | None => Ret "no heartbeat in Redis"%string
  | Some (Err _) => Ret "cannot read heartbeat"%string
  | Some (Ok lastBeat) =>
      now <- call WNow ;;
      Ret (if HeartbeatMaxAge h <? Sub now (lastBeat * Second) then "last heartbeat too old"%string else EmptyString)
  end.

(** ** Sessions claimed by others *)
Definition missedClaim (cl : SessionClaim) : prog AlertE bool :=
  if Block cl <=? claimGraceBlocks then Ret false
  else
    r <- call (RequiredCapabilities (ReqID cl)) ;;
    match r with
    | Err _ => Ret false
    | Ok caps =>
        if negb (caps =? 0) then Ret false
        else
          r <- call (EligibleAt (ReqID cl) (u64_wrap (Block cl - claimGraceBlocks))) ;;
          Ret (match r with Err _ => false | Ok eligible => eligible end)
    end.

(** The loop over the claims of a range. *)
Fixpoint count_missed (claims : list SessionClaim) (n : Z) : prog AlertE Z :=
  match claims with
  | [] => Ret n
  | cl :: claims =>
      if bool_decide (cl_Worker cl = WorkerAddr h) then count_missed claims 0
      else
        m <- missedClaim cl ;;
        count_missed claims (if m : bool then n + 1 else n)
  end.

(** The first block of the next range. *)
Definition claims_from (scanned head : Z) : Z :=
  let from := u64_wrap (scanned + 1) in
  if maxClaimScan <=? u64_wrap (head - from) then u64_wrap (head - maxClaimScan + 1) else from.

Definition checkClaims (head : Z) (c : claimTracker) : prog AlertE (result string * claimTracker) :=
  let c := if scanned c =? 0 then MkTracker head (missed c) else c in
  let judged c := (Ok (if MissedClaims h <=? missed c then "session(s) in a row went to other workers"%string else EmptyString), c) in
  if scanned c <? head then
    let from := claims_from (scanned c) head in
    r <- call (SessionClaims from head) ;;
    match r with
    | Err e => Ret (Err e, c)
    | Ok claims => n <- count_missed claims (missed c) ;; Ret (judged (MkTracker head n))
    end
  else Ret (judged c).

(** ** The worker's chain state *)
Definition finding : Type := string * string.

Definition suspension (head : HeadInfo) : prog AlertE (result string) :=
  suspended <-? call WIsWorkerSuspended ;;
  if negb suspended then Ret (Ok EmptyString)
  else
    until <-? call WGetSuspendedUntil ;;
    Ret (Ok (if 0 <? Operator.cooldown until head then "worker is suspended by WorkerRegistry"%string
             else "suspension cooldown ended but the worker is still suspended"%string)).

Definition stake_problem : prog AlertE (result string) :=
  stake <-? call WGetWorkerStake ;;
  minStake <-? call WGetMinWorkerStake ;;
  Ret (Ok (if stake <? minStake then "stake below the on-chain minimum"%string else EmptyString)).

(** [chainFindings], with the claim tracker it leaves. *)
Definition chainFindings (c : claimTracker) : prog AlertE (result (list finding) * claimTracker) :=
  r <- call WHead ;;
  match r with
  | Err e => Ret (Err e, c)
  | Ok head =>
      now <- call WNow ;;
      let rpc := if Preflight.headStaleAfter <? Round (Sub now (Timestamp head * Second)) Second
                 then "head is old - chain stalled or RPC lagging"%string else EmptyString in
      let out := [("rpc"%string, rpc)] in
      r <- call WIsWorkerRegistered ;;
      match r with
      | Err e => Ret (Err e, c)
      | Ok false => Ret (Ok (out ++ [("registered"%string, "worker is not registered on-chain"%string)]), c)
      | Ok true =>
          r <- suspension head ;;
          match r with
          | Err e => Ret (Err e, c)
          | Ok suspended =>
              r <- stake_problem ;;
              match r with
              | Err e => Ret (Err e, c)
              | Ok stake =>
                  let out := out ++ [("registered"%string, EmptyString); ("suspended"%string, suspended); ("stake"%string, stake)] in
                  if 0 <? MissedClaims h then
                    rc <- checkClaims (Number head) c ;;
                    Ret (match fst rc with
                         | Err e => Err e
                         | Ok problem => Ok (out ++ [("claims"%string, problem)])
                         end, snd rc)
                  else Ret (Ok out, c)
              end
          end
      end
  end.

Fixpoint observe_all (fs : list finding) (cs : checks) : prog AlertE checks :=
  match fs with
  | [] => Ret cs
  | (check, problem) :: fs => cs <- observe check problem cs ;; observe_all fs cs
  end.

Definition Tick (cs : checks) (c : claimTracker) : prog AlertE (checks * claimTracker) :=
  cs <- (if bool_decide (LivenessURL h = EmptyString) then Ret cs
         else problem <- probe (LivenessURL h) ;; observe "liveness" problem cs) ;;
  cs <- (if has_Heartbeat h then problem <- checkHeartbeat ;; observe "heartbeat" problem cs else Ret cs) ;;
  problem <- probe (trim_slashes (OllamaURL h) +:+ "/api/tags") ;;
  cs <- observe "ollama" problem cs ;;
  rc <- chainFindings c ;;
  cs <- (match fst rc with
         | Err e => observe "rpc" ("chain read failed: " +:+ err_msg e) cs
         | Ok findings => observe_all findings cs
         end) ;;
  Ret (cs, snd rc).

(** ** What the operator was told

    The messages the webhook accepted, and those that were tried. *)
Definition accepted_of Y (e : AlertE Y) : Y -> list webhookMessage :=
  match e with
  | Post m => fun r => match r with Ok status => if Z.quot status 100 =? 2 then [m] else [] | Err _ => [] end
  | _ => fun _ => []
  end.
Definition accepted (tr : list (called AlertE)) : list webhookMessage := answered accepted_of tr.
Definition attempted_of Y (e : AlertE Y) : Y -> list webhookMessage :=
  match e with BuildRequest m => fun _ => [m] | _ => fun _ => [] end.
Definition attempted (tr : list (called AlertE)) : list webhookMessage := answered attempted_of tr.

(** What the operator believes of a check: [Some t] when the last message they
    got, sent in the observation at [t], was an alert. *)
Definition hear (now : Z) (told : option Z) (m : webhookMessage) : option Z :=
  match m_title m with Recovered _ => None | _ => Some now end.

(** An observation of a check, as its run shows it: when it was made, the
    messages accepted and the messages tried. *)
Record observation : Type := MkObs {
  o_check : string; o_problem : string; o_now : Z; o_accepted : list webhookMessage; o_tried : list webhookMessage;
}.

(** A message is sent for the reason it gives. *)
Definition justified (o : observation) (told : option Z) (m : webhookMessage) : Prop :=
  m_check m = o_check o /\
  match m_title m with
  | Failing => o_problem o <> EmptyString /\ m_desc m = o_problem o /\ told = None
  | StillFailing _ => o_problem o <> EmptyString /\ m_desc m = o_problem o /\
      exists last, told = Some last /\ Cooldown h <= Sub (o_now o) last
  | Recovered _ => o_problem o = EmptyString /\ told <> None
  end.

(** After an observation the operator knows how the check is, unless the
    webhook did not accept the message. *)
Record faithful (told : option Z) (o : observation) : Prop := {
  f_once : (length (o_tried o) <= 1)%nat;
  f_tried : forall m, m ∈ o_tried o -> justified o told m;
  f_accepted : o_accepted o = [] \/ o_accepted o = o_tried o;
  f_known : o_accepted o = o_tried o ->
    (foldl (hear (o_now o)) told (o_accepted o) = None <-> o_problem o = EmptyString);
}.

(** [st] is what the operator was told. *)
Definition view (st : checkState) (told : option Z) : Prop :=
  match told with
  | Some last => alerted st = true /\ lastAlert st = last /\ since st <> None
  | None => alerted st = false
  end.

Definition observed (check problem : string) (told : option Z) (tr : list (called AlertE)) (st : checkState) : Prop :=
  exists now, (exists rest, tr = Called WNow now :: rest) /\
    let o := MkObs check problem now (accepted tr) (attempted tr) in
    faithful told o /\ view st (foldl (hear now) told (accepted tr)).

Definition notify_post (m : webhookMessage) (tr : list (called AlertE)) (ok : bool) : Prop :=
  attempted tr = [m] /\ accepted tr = (if ok then [m] else []).

Lemma notify_always m : always (notify m) (notify_post m).
Proof.
  unfold notify. walk; split; try done. unfold accepted. cbn. by destruct (_ =? 2).
Qed.

(** An observation that sends nothing, and one that tries a message. *)
Lemma observed_quietly check problem told now st : view st told ->
  (told = None <-> problem = EmptyString) -> observed check problem told [Called WNow now] st.
Proof.
  intros Hv Hk. exists now. split; [by exists []|]. split; [|done].
  split; cbn; [lia|by intros m ?%elem_of_nil|by left|done].
Qed.

Lemma observed_notifying check problem told now m st1 st2 : justified (MkObs check problem now [] [m]) told m ->
  view st1 told -> view st2 (hear now told m) -> (hear now told m = None <-> problem = EmptyString) ->
  always (ok <- notify m ;; Ret (if ok : bool then st2 else st1))
    (fun tr => observed check problem told (Called WNow now :: tr)).
Proof.
  intros Hj Hv1 Hv2 Hk. apply always_bind. eapply always_mono; [apply notify_always|]. intros tr ok [Ht Ha].
  cbn [always]. rewrite app_nil_r. exists now. split; [by exists tr|].
  change (accepted (Called WNow now :: tr)) with (accepted tr). change (attempted (Called WNow now :: tr)) with (attempted tr).
  rewrite Ht, Ha. destruct ok; (split; [|done]); split; cbn; try done; try lia.
  - by intros m' ->%list_elem_of_singleton.
  - by right.
  - by intros m' ->%list_elem_of_singleton.
  - by left.
Qed.

Lemma observe_always check problem st told : view st told ->
  always (observe_state check problem st) (observed check problem told).
Proof.
  intros Hv now. cbn [bind]. case_bool_decide as Hp; cbn [negb].
  - destruct (since st) as [began|] eqn:Es; destruct told as [last|]; cbn in Hv; [..|by destruct Hv as (_ & _ & ?)|].
    + destruct Hv as (Ha & Hl & Hs). rewrite Ha.
      apply (observed_notifying check problem (Some last) now); [by split|by split|done|done].
    + rewrite Hv. by apply observed_quietly.
    + by apply observed_quietly.
  - assert (view (MkState (alerted st) (lastAlert st) (Some (default now (since st)))) told) as Hv'.
    { destruct told; [|done]. by destruct Hv as (? & ? & ?). }
    destruct told as [last|]; cbn in Hv.
    + destruct Hv as (Ha & Hl & _). rewrite Ha in *. cbn [andb lastAlert]. rewrite Hl in *.
      destruct (Z.ltb_spec (Sub now last) (Cooldown h)).
      * by apply observed_quietly.
      * apply (observed_notifying check problem (Some last) now); [|done|done|done].
        split; [done|]. cbn. eauto.
    + rewrite Hv in *. cbn [andb]. by apply (observed_notifying check problem None now).
Qed.

(** ** A history of observations

    Everything the daemon did with its checks since it started, whatever the
    order of the checks. *)
Inductive history : list observation -> checks -> Prop :=
  | history_nil : history [] ∅
  | history_snoc os cs check problem now rest cs' :
      history os cs -> runs (observe check problem cs) (Called WNow now :: rest) cs' ->
      history (os ++ [MkObs check problem now (accepted rest) (attempted rest)]) cs'.

(** What the operator believes of a check after the observations. *)
Definition told (check : string) (os : list observation) : option Z :=
  foldl (fun w o => if bool_decide (o_check o = check) then foldl (hear (o_now o)) w (o_accepted o) else w) None os.

Lemma told_snoc check os o : told check (os ++ [o]) =
  if bool_decide (o_check o = check) then foldl (hear (o_now o)) (told check os) (o_accepted o) else told check os.
Proof. unfold told. by rewrite foldl_app. Qed.

Definition remembered (os : list observation) (cs : checks) : Prop :=
  (forall check, view (state_of cs check) (told check os)) /\
  (forall os1 o os2, os = os1 ++ o :: os2 -> faithful (told (o_check o) os1) o).

Lemma observe_in_map check problem cs w : view (state_of cs check) w ->
  always (observe check problem cs) (fun tr cs' => exists st, cs' = <[check := st]> cs /\ observed check problem w tr st).
Proof.
  intros Hv. unfold observe. apply always_bind. eapply always_mono; [by apply observe_always|].
  intros tr st Ho. cbn [always]. rewrite app_nil_r. by exists st.
Qed.

Lemma state_of_insert cs check st check' :
  state_of (<[check := st]> cs) check' = if bool_decide (check = check') then st else state_of cs check'.
Proof.
  unfold state_of. case_bool_decide as E; [subst; by rewrite lookup_insert_eq|by rewrite lookup_insert_ne].
Qed.

(** The time a trace starts with. *)
Definition clock (tr : list (called AlertE)) : Z :=
  match tr with
  | Called e x :: _ => match e in AlertE Y return Y -> Z with WNow => fun now => now | _ => fun _ => 0 end x
  | [] => 0
  end.

Lemma history_remembered os cs : history os cs -> remembered os cs.
Proof.
  induction 1 as [|os cs check problem now rest cs' _ [Hv Hf] Hr].
  - split; [intros check; unfold state_of; by rewrite lookup_empty|]. intros [|] ? ? [=].
  - destruct (always_runs _ _ _ _ (observe_in_map check problem cs _ (Hv check)) Hr) as (st & -> & now' & [rest' Ht] & Hfa & Hst).
    apply (f_equal clock) in Ht. cbn in Ht. subst now'.
    split.
    + intros check'. rewrite told_snoc, state_of_insert. cbn [o_check]. case_bool_decide as E; [by subst|done].
    + intros os1 o os2 E. destruct (decide (os2 = [])) as [->|Hn].
      * apply app_inj_tail in E as [<- <-]. exact Hfa.
      * destruct (exists_last Hn) as (os2' & o' & ->). rewrite app_comm_cons, app_assoc in E. apply app_inj_tail in E as [-> _].
        by apply (Hf os1 o os2').
Qed.

(** C36. The daemon remembers exactly what the operator was told, and tells them
    what they need to know. Over any history of observations, a check counts as
    alerted exactly when the last message the webhook accepted about it was an
    alert. Each observation tries at most one message: a first alert only when
    the check fails and no alert stands, a repeated one only when it still fails
    and the last alert is a cooldown old, a recovery only when it passes and an
    alert stands; and unless the webhook refused that message, afterwards an
    alert stands exactly when the check fails. *)
Theorem operator_knows_the_checks os cs : history os cs ->
  (forall check, alerted (state_of cs check) = true <-> told check os <> None) /\
  (forall os1 o os2, os = os1 ++ o :: os2 -> faithful (told (o_check o) os1) o).
Proof.
  intros [Hv Hf]%history_remembered. split; [|done]. intros check. specialize (Hv check).
  destruct (told check os); cbn in Hv; [destruct Hv as [-> _]|rewrite Hv]; done.
Qed.

(** ** The claims of others

    What the chain answers about a request: the capabilities it requires, and
    whether the worker was eligible for it at a block. *)
Section Claims.
Context (caps : Z -> result Z) (eligible : Z -> Z -> result bool).

Definition truthful (c : called AlertE) : Prop :=
  match c with Called e x => match e in AlertE Y return Y -> Prop with
    | RequiredCapabilities id => fun r => r = caps id
    | EligibleAt id block => fun r => r = eligible id block
    | _ => fun _ => True
    end x end.

(** A claim this worker could have made: it was known to be eligible for a
    request without required capabilities five blocks before. *)
Definition could_have_claimed (cl : SessionClaim) : Prop :=
  claimGraceBlocks < Block cl /\ caps (ReqID cl) = Ok 0 /\ eligible (ReqID cl) (u64_wrap (Block cl - claimGraceBlocks)) = Ok true.
#[global] Instance could_have_claimed_dec cl : Decision (could_have_claimed cl).
Proof. unfold could_have_claimed. apply _. Defined.

Definition own (cl : SessionClaim) : Prop := cl_Worker cl = WorkerAddr h.
Definition misses (cls : list SessionClaim) : Z := Z.of_nat (length (filter could_have_claimed cls)).

(** The missed claims since the worker's last own one: [n] were counted before
    the claims [cls]. *)
Definition streak (n : Z) (cls : list SessionClaim) (m : Z) : Prop :=
  (Forall (fun cl => ~ own cl) cls /\ m = n + misses cls) \/
  (exists pre cl post, cls = pre ++ cl :: post /\ own cl /\ Forall (fun cl => ~ own cl) post /\ m = misses post).

Lemma missedClaim_always cl : always (missedClaim cl) (fun tr m => Forall truthful tr -> (m = true <-> could_have_claimed cl)).
Proof.
  unfold missedClaim, could_have_claimed. walk; reflect_Z;
    repeat match goal with Ht : Forall truthful (_ :: _) |- _ => apply Forall_cons in Ht as [? Ht] end; cbn in *;
    repeat match goal with E : Ok _ = _ |- _ => rewrite <- E | E : Err _ = _ |- _ => rewrite <- E end.
  - split; [done|lia].
  - split; [done|]. by intros (_ & [= ?] & _).
  - subst. destruct (eligible _ _) as [[]|]; split; try done; by intros (_ & _ & ?).
  - split; [done|]. by intros (_ & ? & _).
Qed.

Lemma misses_cons cl cls : misses (cl :: cls) = (if decide (could_have_claimed cl) then 1 else 0) + misses cls.
Proof. unfold misses. rewrite filter_cons. destruct (decide _); cbn [length]; lia. Qed.

Lemma count_missed_always cls : forall n, always (count_missed cls n) (fun tr m => Forall truthful tr -> streak n cls m).
Proof.
  induction cls as [|cl cls IH]; intros n; cbn [count_missed].
  { intros _. left. split; [constructor|]. unfold misses. cbn. lia. }
  case_bool_decide as Hown.
  - eapply always_mono; [apply IH|]. intros tr m Hs Ht. right. destruct (Hs Ht) as [[Hn ->]|(pre & c & post & -> & ? & ? & ->)].
    + exists [], cl, cls. split; [done|]. split; [done|]. split; [done|lia].
    + by exists (cl :: pre), c, post.
  - apply always_bind. eapply always_mono; [apply missedClaim_always|]. intros tr b Hb.
    eapply always_mono; [apply IH|]. intros tr' m Hs [Ht Ht']%Forall_app. specialize (Hb Ht).
    destruct (Hs Ht') as [[Hn ->]|(pre & c & post & -> & ? & ? & ->)].
    + left. split; [by constructor|]. rewrite misses_cons. destruct (decide _) as [Hc|Hc]; [rewrite (proj2 Hb Hc); lia|].
      destruct b; [by destruct Hc; apply Hb|lia].
    + right. by exists (cl :: pre), c, post.
Qed.

(** ** The readings since the start

    The ranges of logs read, the claims in them, and the tracker left. *)
Definition range_of Y (e : AlertE Y) : Y -> list (Z * Z) :=
  match e with SessionClaims from to => fun r => match r with Ok _ => [(from, to)] | Err _ => [] end | _ => fun _ => [] end.
Definition ranges (tr : list (called AlertE)) : list (Z * Z) := answered range_of tr.
Definition claims_of Y (e : AlertE Y) : Y -> list SessionClaim :=
  match e with SessionClaims _ _ => fun r => match r with Ok cls => cls | Err _ => [] end | _ => fun _ => [] end.
Definition claims_in (tr : list (called AlertE)) : list SessionClaim := answered claims_of tr.

Inductive readings : list (Z * Z) -> list SessionClaim -> claimTracker -> Prop :=
  | readings_nil : readings [] [] (MkTracker 0 0)
  | readings_snoc rs cls c head tr r c' :
      readings rs cls c -> 0 <= head < u64_max -> Forall truthful tr -> runs (checkClaims head c) tr (r, c') ->
      readings (rs ++ ranges tr) (cls ++ claims_in tr) c'.

(** Ranges that follow one another up to [last]: each at most a hundred blocks,
    starting right after the one before it, or later when it is a full hundred. *)
Inductive in_order : list (Z * Z) -> Z -> Prop :=
  | in_order_nil last : in_order [] last
  | in_order_snoc rs last from to : in_order rs last -> last < from -> from <= to -> to - from < maxClaimScan ->
      (rs <> [] -> from = last + 1 \/ to - from = maxClaimScan - 1) -> in_order (rs ++ [(from, to)]) to.

(** A pass reads nothing, or one range of logs. *)
Definition pass_post (head : Z) (c : claimTracker) (tr : list (called AlertE)) (rc : result string * claimTracker) : Prop :=
  Forall truthful tr ->
  let started := if scanned c =? 0 then head else scanned c in
  (ranges tr = [] /\ claims_in tr = [] /\ snd rc = MkTracker started (missed c) \/
   started < head /\ ranges tr = [(claims_from started head, head)] /\ scanned (snd rc) = head /\
     streak (missed c) (claims_in tr) (missed (snd rc))) /\
  (forall problem, fst rc = Ok problem -> (problem <> EmptyString <-> MissedClaims h <= missed (snd rc))).

Definition reads_logs (X : Type) (e : AlertE X) : Prop := match e with SessionClaims _ _ => False | _ => True end.

Lemma count_missed_quiet cls : forall n, uses reads_logs (count_missed cls n).
Proof.
  induction cls as [|cl cls IH]; intros n; cbn [count_missed]; [done|]. case_bool_decide; [apply IH|].
  apply uses_bind; [|intros; apply IH]. unfold missedClaim. destruct (_ <=? _); [done|]. split; [done|].
  intros [c|e]; [|done]. cbn. destruct (negb _); [done|]. split; [done|]. by intros [].
Qed.

Lemma count_missed_reads_nothing cls n : always (count_missed cls n) (fun tr _ => ranges tr = [] /\ claims_in tr = []).
Proof.
  apply always_conj; [apply (uses_answered reads_logs range_of)|apply (uses_answered reads_logs claims_of)];
    try apply count_missed_quiet; by intros Y [] y.
Qed.

Lemma checkClaims_always head c : always (checkClaims head c) (pass_post head c).
Proof.
  unfold checkClaims. set (c0 := if scanned c =? 0 then _ else c).
  assert (scanned c0 = (if scanned c =? 0 then head else scanned c) /\ missed c0 = missed c) as [Hs Hm] by (unfold c0; by destruct (scanned c =? 0)).
  assert (forall n, (if MissedClaims h <=? n then "session(s) in a row went to other workers"%string else EmptyString) <> EmptyString <-> MissedClaims h <= n) as Hj.
  { intros n. destruct (Z.leb_spec (MissedClaims h) n); split; (done || lia). }
  assert (c0 = MkTracker (scanned c0) (missed c0)) as Hc0 by by destruct c0.
  destruct (Z.ltb_spec (scanned c0) head) as [Hlt|Hge].
  2: { intros _. split; [left|]; cbn [fst snd].
       - split; [done|]. split; [done|]. by rewrite Hc0, Hs, Hm.
       - intros p [= <-]. apply Hj. }
  intros [cls|e]; cbn [always bind].
  - apply always_bind. eapply always_mono; [apply always_conj; [apply count_missed_always|apply count_missed_reads_nothing]|].
    intros tr n (Hn & Hr & Hc) [_ Ht]%Forall_cons. rewrite app_nil_r in *. cbn [fst snd scanned missed].
    split; [right|intros p [= <-]; apply Hj].
    unfold ranges, claims_in, answered in *. cbn [flat_map range_of claims_of]. rewrite Hr, Hc, !app_nil_r. rewrite <- Hs.
    split; [done|]. split; [done|]. split; [done|]. rewrite <- Hm. by apply Hn.
  - intros _. cbn [fst snd]. split; [left; split; [done|]; split; [done|]; by rewrite Hc0, Hs, Hm|done].
Qed.

Lemma streak_app n cls m cls' m' : streak n cls m -> streak m cls' m' -> streak n (cls ++ cls') m'.
Proof.
  assert (forall l l', misses (l ++ l') = misses l + misses l') as Happ.
  { intros. unfold misses. rewrite filter_app, length_app. lia. }
  intros H1 [[Hn ->]|(pre & cl & post & -> & ? & ? & ->)].
  - destruct H1 as [[Hn' ->]|(pre & cl & post & -> & ? & ? & ->)].
    + left. split; [by apply Forall_app|]. rewrite Happ. lia.
    + right. exists pre, cl, (post ++ cls'). rewrite <- app_assoc. split; [done|]. split; [done|]. split; [by apply Forall_app|]. by rewrite Happ.
  - right. exists (cls ++ pre), cl, post. by rewrite <- app_assoc.
Qed.

Lemma claims_from_bounds last head : 0 <= last -> last < head -> head < u64_max ->
  last < claims_from last head <= head /\ head - claims_from last head < maxClaimScan /\
  (claims_from last head = last + 1 \/ head - claims_from last head = maxClaimScan - 1).
Proof.
  intros H0 H1 H2. unfold claims_from, maxClaimScan. rewrite (u64_wrap_id (last + 1)) by (unfold is_u64; lia).
  rewrite (u64_wrap_id (head - (last + 1))) by (unfold is_u64; lia).
  destruct (Z.leb_spec 100 (head - (last + 1))); [|lia]. rewrite u64_wrap_id by (unfold is_u64; lia). lia.
Qed.

Record read_so_far (rs : list (Z * Z)) (cls : list SessionClaim) (c : claimTracker) : Prop := {
  rf_order : in_order rs (scanned c);
  rf_started : rs <> [] -> 0 < scanned c;
  rf_range : 0 <= scanned c;
  rf_streak : streak 0 cls (missed c);
}.

Lemma readings_read rs cls c : readings rs cls c -> read_so_far rs cls c.
Proof.
  induction 1 as [|rs cls c head tr r c' _ [Ho Hst H0 Hk] Hh Ht Hr].
  - split; cbn; [constructor|done|lia|]. left. split; [constructor|done].
  - destruct (always_runs _ _ _ _ (checkClaims_always head c) Hr Ht) as [[(-> & -> & Ec)|(Hlt & -> & Hs & Hm)] _]; cbn [fst snd] in *.
    + rewrite !app_nil_r. subst c'. destruct (Z.eqb_spec (scanned c) 0) as [Hz|Hz]; split; cbn [scanned missed]; try done; try lia.
      * destruct rs; [constructor|]. by specialize (Hst ltac:(done)); lia.
      * intros Hn. by specialize (Hst Hn); lia.
    + destruct (Z.eqb_spec (scanned c) 0) as [Hz|Hz]; [lia|].
      destruct (claims_from_bounds (scanned c) head) as ([? ?] & ? & ?); [lia..|].
      split; rewrite ?Hs; [|lia|lia|by eapply streak_app].
      apply in_order_snoc with (scanned c); [done..|lia|lia|auto].
Qed.

(** The alert about missed claims counts what it says. Over all the passes
    since the start the logs are read in order, in ranges that neither overlap
    nor leave a gap, except that after an outage only the last hundred blocks
    are read; the count is the number of claims other workers made since the
    worker's own last one, for requests it was known to be eligible for five
    blocks before and that require no capability; and a pass reports a problem
    exactly when the count has reached the configured limit. *)
Theorem missed_claims_are_counted rs cls c head tr problem c' : readings rs cls c -> 0 <= head < u64_max ->
  Forall truthful tr -> runs (checkClaims head c) tr (Ok problem, c') ->
  in_order (rs ++ ranges tr) (scanned c') /\ streak 0 (cls ++ claims_in tr) (missed c') /\
  (problem <> EmptyString <-> MissedClaims h <= missed c').
Proof.
  intros Hrs Hh Ht Hr. destruct (readings_read _ _ _ (readings_snoc _ _ _ _ _ _ _ Hrs Hh Ht Hr)) as [Ho _ _ Hk].
  split; [done|]. split; [done|]. exact (proj2 (always_runs _ _ _ _ (checkClaims_always head c) Hr Ht) problem eq_refl).
Qed.
End Claims.
End Watch.

(** ** Runs *)
#[local] Existing Instances plain_addresses plain_addresses_laws.

(** A watched worker whose chain is fine but which is not registered; two other
    workers' claims are in every range of logs. *)
Definition demo_watched (now status : Z) : handler AlertE unit := fun X e w =>
  match e in AlertE X return X * unit with
  | WNow => (now * Second, tt)
  | HttpGet _ => (Ok 200, tt)
  | CloseResponse => (tt, tt)
  | HGet => (Some (Ok now), tt)
  | WHead => (Ok (MkHead 50 now), tt)
  | WIsWorkerRegistered => (Ok false, tt)
  | WIsWorkerSuspended => (Ok false, tt)
  | WGetSuspendedUntil => (Ok 0, tt)
  | WGetWorkerStake => (Ok 100, tt)
  | WGetMinWorkerStake => (Ok 100, tt)
  | SessionClaims from to => (Ok [MkClaim 1 "b"%string to; MkClaim 2 "c"%string to; MkClaim 3 "a"%string to; MkClaim 4 "b"%string to], tt)
  | EligibleAt reqID _ => (Ok (negb (reqID =? 2)), tt)
  | RequiredCapabilities _ => (Ok 0, tt)
  | BuildRequest _ => (Ok tt, tt)
  | Post _ => (Ok status, tt)
  end.
Definition demo_watch : t := @MkWatch plain_addresses "a"%string "http://w/healthz" "http://o" true (60 * Second) 1 (10 * Minute).
Definition demo_tick (now status : Z) (cs : checks) : list (called AlertE) * checks :=
  let '((tr, (cs, _)), _) := interp (demo_watched now status) (Tick demo_watch cs (MkTracker 0 0)) tt in (tr, cs).

(** An alert, its repetition withheld and then sent, and a webhook that refuses
    the first alert. *)
Example demo_ticks :
  let '(tr1, cs1) := demo_tick 1000 204 ∅ in
  let '(tr2, cs2) := demo_tick 1060 204 cs1 in
  let '(tr3, _) := demo_tick 1600 204 cs2 in
  let '(tr4, cs4) := demo_tick 1000 500 ∅ in
  (m_title <$> accepted tr1, attempted tr2, m_title <$> accepted tr3) = ([Failing], [], [StillFailing (600 * Second)]) /\
  (length (attempted tr4), accepted tr4, alerted (state_of cs4 "registered")) = (1%nat, [], false).
Proof. vm_compute. done. Qed.

Definition demo_observation (now : Z) (problem : string) (cs : checks) :=
  interp (demo_watched now 200) (observe demo_watch "ollama" problem cs) tt.
Definition demo_failing := Eval vm_compute in demo_observation 1000 "unreachable" ∅.
Definition demo_passing := Eval vm_compute in demo_observation 1090 "" (snd (fst demo_failing)).

Lemma operator_knows_the_checks_witness : exists os, history demo_watch os (snd (fst demo_passing)) /\ length os = 2%nat /\
  (alerted (state_of (snd (fst demo_passing)) "ollama") = true <-> told "ollama" os <> None).
Proof.
  assert (interp (demo_watched 1000 200) (observe demo_watch "ollama" "unreachable" ∅) tt = demo_failing) as E1 by (vm_compute; reflexivity).
  assert (interp (demo_watched 1090 200) (observe demo_watch "ollama" "" (snd (fst demo_failing))) tt = demo_passing) as E2 by (vm_compute; reflexivity).
  pose proof (interp_run (demo_watched 1000 200) (observe demo_watch "ollama" "unreachable" ∅) tt) as H1. rewrite E1 in H1.
  pose proof (interp_run (demo_watched 1090 200) (observe demo_watch "ollama" "" (snd (fst demo_failing))) tt) as H2. rewrite E2 in H2.
  assert (fst (fst demo_failing) = Called WNow (1000 * Second) :: tail (fst (fst demo_failing))) as T1 by (vm_compute; reflexivity).
  assert (fst (fst demo_passing) = Called WNow (1090 * Second) :: tail (fst (fst demo_passing))) as T2 by (vm_compute; reflexivity).
  rewrite T1 in H1. rewrite T2 in H2.
  pose proof (history_snoc demo_watch _ _ _ _ _ _ _ (history_snoc demo_watch _ _ _ _ _ _ _ (history_nil demo_watch) H1) H2) as Hh.
  eexists. split; [exact Hh|]. split; [reflexivity|]. exact (proj1 (operator_knows_the_checks demo_watch _ _ Hh) "ollama"%string).
Defined.

Definition demo_pass := Eval vm_compute in interp (demo_watched 1000 200) (checkClaims demo_watch 60 (MkTracker 50 0)) tt.

Lemma missed_claims_are_counted_witness :
  in_order ([] ++ ranges (fst (fst demo_pass))) 60 /\ missed (snd (snd (fst demo_pass))) = 1 /\
  exists problem, fst (snd (fst demo_pass)) = Ok problem /\ problem <> EmptyString.
Proof.
  assert (readings demo_watch (fun _ => Ok 0) (fun id _ => Ok (negb (id =? 2))) [] [] (MkTracker 50 0)) as Hrs.
  { refine (readings_snoc _ _ _ [] [] (MkTracker 0 0) 50 [] (Ok EmptyString) _ (readings_nil _ _ _) ltac:(done) ltac:(constructor) _). constructor. }
  destruct (missed_claims_are_counted demo_watch (fun _ => Ok 0) (fun id _ => Ok (negb (id =? 2))) [] [] (MkTracker 50 0) 60
    (fst (fst demo_pass)) "session(s) in a row went to other workers" (MkTracker 60 1) Hrs ltac:(done)) as (Ho & _ & Hp).
  - repeat first [apply Forall_nil_2 | apply Forall_cons_2]; reflexivity || exact I.
  - apply (interp_runs (demo_watched 1000 200) _ tt _ _ tt). vm_compute. reflexivity.
  - split; [exact Ho|]. split; [reflexivity|]. exists "session(s) in a row went to other workers"%string.
    split; [reflexivity|]. apply Hp. vm_compute. discriminate.
Defined.
End WatchHandler.
