(* ===== verification/AccountReads.v ===== *)
(** What the operator's commands and the watch daemon read of the chain: the
    preflight and registration reads of [internal/chain/client.go], and
    [ReadOnlyChain] of [internal/cli/watch.go], which reads the same without a
    signing key. *)
From S2P Require Import Prelude Chain ChainReads Watch.

(** A SessionClaimed log and the iterator over them. *)
Record ClaimLog `{AddressOps} : Type := MkClaimLog { cg_ReqId : Z; cg_Worker : Address; cg_BlockNumber : Z }.
Arguments MkClaimLog {_} _ _ _.

(** The node and the generated bindings of the registry, of AIConfig and of
    the session manager, over the state [N] they read. The model ids are
    opaque. *)
Class AccountBindings `{!AddressOps} (N : Type) := {
  eth_ChainID : io N Z;
  eth_BalanceAt : Address -> io N Z;
  eth_NonceAt : Address -> Z -> io N Z;
  eth_LatestHeader : io N (option Z * Z);
  ab_IsWorkerRegistered : Address -> io N bool;
  ab_GetWorkerCapabilities : Address -> io N Z;
  ab_GetCapabilityMask : string -> io N Z;
  ab_GetWorkerEncryptionKey : Address -> io N string;
  ab_IsWorkerSuspended : Address -> io N bool;
  ab_GetSuspendedUntil : Address -> io N Z;
  ab_GetOffenseCount : Address -> io N Z;
  ab_GetWorkerStake : Address -> io N Z;
  ab_IsModelWhitelisted : Z -> io N bool;
  ab_WorkerSupportsModel : Address -> Z -> io N bool;
  ab_GetMinWorkerStake : io N Z;
  ab_IsModelEnabled : Z -> io N bool;
  ab_FilterSessionClaimed : Z -> Z -> io N (list ClaimLog * option error);
  ab_EligibleNow : option Z -> Z -> Address -> io N bool;
  ab_GetRequiredCapabilities : Z -> io N Z;
}.

(** ** The signing client *)
Module AccountClient.
Section Client.
Context `{!AddressOps} {N : Type} `{!AccountBindings N}.

Definition IsWorkerRegistered (worker : Address) : io N bool := io_wrap "IsWorkerRegistered" (ab_IsWorkerRegistered worker).
Definition GetWorkerCapabilities (worker : Address) : io N Z := ab_GetWorkerCapabilities worker.
Definition GetCapabilityMask (name : string) : io N Z := ab_GetCapabilityMask name.
Definition GetMinWorkerStake : io N Z := io_wrap "GetMinWorkerStake" ab_GetMinWorkerStake.
Definition GetWorkerEncryptionKey (worker : Address) : io N string := io_wrap "GetWorkerEncryptionKey" (ab_GetWorkerEncryptionKey worker).
Definition ChainID : io N Z := io_wrap "ChainID" eth_ChainID.
Definition Balance (addr : Address) : io N Z := io_wrap "BalanceAt" (eth_BalanceAt addr).
Definition NonceAt (addr : Address) (block : Z) : io N Z := io_wrap "NonceAt" (eth_NonceAt addr block).
Definition IsWorkerSuspended (worker : Address) : io N bool := io_wrap "IsWorkerSuspended" (ab_IsWorkerSuspended worker).
Definition GetSuspendedUntil (worker : Address) : io N Z := io_wrap "GetSuspendedUntil" (ab_GetSuspendedUntil worker).
Definition GetOffenseCount (worker : Address) : io N Z := io_wrap "GetOffenseCount" (ab_GetOffenseCount worker).
Definition GetWorkerStake (worker : Address) : io N Z := io_wrap "GetWorkerStake" (ab_GetWorkerStake worker).
Definition IsModelWhitelisted (modelID : Z) : io N bool := io_wrap "IsModelWhitelisted" (ab_IsModelWhitelisted modelID).
Definition IsModelEnabled (modelID : Z) : io N bool := io_wrap "IsModelEnabled" (ab_IsModelEnabled modelID).
Definition WorkerSupportsModel (worker : Address) (modelID : Z) : io N bool :=
  io_wrap "WorkerSupportsModel" (ab_WorkerSupportsModel worker modelID).

(** [Head] of the client, on the same bindings. *)
Definition Head : io N HeadInfo :=
  let? header := eth_LatestHeader wrapping "HeaderByNumber(latest)" in
  match fst header with
  | None => io_err (errorf "HeaderByNumber returned nil block number")
  | Some n => io_ret (MkHead (big_Uint64 n) (i64_wrap (snd header)))
  end.
End Client.
End AccountClient.

(** ** The watch daemon's chain *)
Module ReadOnlyChain.
Section Reads.
Context `{!AddressOps} {N : Type} `{!AccountBindings N}.

Definition Head : io N HeadInfo :=
  let? header := eth_LatestHeader wrapping "latest header" in
  match fst header with
  | None => io_err (errorf "latest header has no block number")
  | Some n => io_ret (MkHead (big_Uint64 n) (i64_wrap (snd header)))
  end.

Definition IsWorkerRegistered (worker : Address) : io N bool := ab_IsWorkerRegistered worker.
Definition IsWorkerSuspended (worker : Address) : io N bool := ab_IsWorkerSuspended worker.
Definition GetSuspendedUntil (worker : Address) : io N Z := ab_GetSuspendedUntil worker.
Definition GetWorkerStake (worker : Address) : io N Z := ab_GetWorkerStake worker.
Definition GetMinWorkerStake : io N Z := ab_GetMinWorkerStake.

(** The claims before a failed iteration are returned beside the error. *)
Definition SessionClaims (from to : Z) : st N (list SessionClaim * option error) := fun w =>
  match ab_FilterSessionClaimed from to w with
  | (Err e, w') => (([], Some (wrap "filter SessionClaimed" e)), w')
  | (Ok (it, err), w') => (((fun l => MkClaim (big_Uint64 (cg_ReqId l)) (cg_Worker l) (cg_BlockNumber l)) <$> it, err), w')
  end.

Definition EligibleAt (reqID : Z) (worker : Address) (block : Z) : io N bool := ab_EligibleNow (Some block) reqID worker.
Definition RequiredCapabilities (reqID : Z) : io N Z := ab_GetRequiredCapabilities reqID.

(** ** The daemon and the worker see one chain

    Two reads agree when they answer the same values from the same states, and
    fail together. *)
Definition agree {A} (c1 c2 : io N A) : Prop := forall w,
  final c1 w = final c2 w /\
  match value c1 w, value c2 w with Ok a, Ok b => a = b | Err _, Err _ => True | _, _ => False end.

Lemma agree_wrap {A} s (c : io N A) : agree c (io_wrap s c).
Proof. intros w. unfold final, value, io_wrap. by destruct (c w) as [[]]. Qed.
Lemma agree_bind {A B} (c1 c2 : io N A) (f g : A -> io N B) : agree c1 c2 -> (forall a, agree (f a) (g a)) -> agree (io_bind c1 f) (io_bind c2 g).
Proof.
  intros Hc Hf w. specialize (Hc w). unfold final, value, io_bind in *. destruct (c1 w) as [[a|e] w1], (c2 w) as [[b|e'] w2]; cbn in Hc;
    destruct Hc as [-> Hr]; try done. subst. apply Hf.
Qed.
Lemma agree_wraps {A} s s' (c : io N A) : agree (io_wrap s c) (io_wrap s' c).
Proof. intros w. unfold final, value, io_wrap. by destruct (c w) as [[]]. Qed.

(** The watch daemon judges the worker by the values the worker's own client
    reads: each read both have answers the same from the same chain. *)
Theorem daemon_reads_what_the_worker_reads worker :
  agree Head AccountClient.Head /\
  agree (IsWorkerRegistered worker) (AccountClient.IsWorkerRegistered worker) /\
  agree (IsWorkerSuspended worker) (AccountClient.IsWorkerSuspended worker) /\
  agree (GetSuspendedUntil worker) (AccountClient.GetSuspendedUntil worker) /\
  agree (GetWorkerStake worker) (AccountClient.GetWorkerStake worker) /\
  agree GetMinWorkerStake AccountClient.GetMinWorkerStake.
Proof.
  repeat split_and; try apply agree_wrap. apply agree_bind; [apply agree_wraps|]. intros [[n|] t] w; by split.
Qed.
End Reads.
End ReadOnlyChain.
