(* ===== verification/Config.v ===== *)
(** The worker's configuration, [internal/config]: reading every setting from
    the environment, validating it, model identifiers and the options of single
    models, and the loader of the release settings the operator's command has
    of its own. *)
From Stdlib Require Import Ascii.
From S2P Require Import Prelude GoText EnvText Checkpoint JobCalls ReleaseConfig Dial.

(** [strconv.ParseFloat] as the bits of a [float64]; [net.SplitHostPort] and
    the loopback test of [net.IP]; [crypto.Keccak256]. *)
Class ConfigText := {
  ParseFloat : string -> result Z;
  SplitHost : string -> result string;
  IsLoopbackIP : string -> bool;
  Keccak256 : string -> bytes;
}.

(** Comparisons of a float with constants; none holds of a NaN. *)
Definition inf_bits : Z := 0x7FF0000000000000.
Definition two_bits : Z := 0x4000000000000000.
Definition float_negative (v : Z) : bool := let m := v - 2 ^ 63 in (0 <? m) && (m <=? inf_bits).
Definition float_above_two (v : Z) : bool := (two_bits <? v) && (v <=? inf_bits).

(** A loader: it appends to the list of errors it is handed. *)
Abbreviation ld := (st (list string)).
Definition complain (msg : string) : ld unit := fun errs => (tt, errs ++ [msg]).
Arguments complain _%_string.
Definition complain_if (c : bool) (msg : string) : ld unit := if c then complain msg else st_ret tt.
Arguments complain_if _ _%_string.

Module Config.
(** ** Loaders only add complaints *)
Class Grows {X} (l : ld X) : Prop := grows errs : exists more, snd (l errs) = errs ++ more.

#[global] Instance ret_grows {X} (x : X) : Grows (st_ret x).
Proof. intros errs. exists []. by rewrite app_nil_r. Qed.
#[global] Instance bind_grows {X Y} (l : ld X) (f : X -> ld Y) : Grows l -> (forall x, Grows (f x)) -> Grows (st_bind l f).
Proof.
  intros Hl Hf errs. unfold st_bind. destruct (Hl errs) as [m Hm]. destruct (l errs) as [x e]. cbn in Hm. subst e.
  destruct (Hf x (errs ++ m)) as [m' Hm']. exists (m ++ m'). by rewrite app_assoc.
Qed.
#[global] Instance complain_grows msg : Grows (complain msg).
Proof. intros errs. by exists [msg]. Qed.
#[global] Instance complain_if_grows c msg : Grows (complain_if c msg).
Proof. unfold complain_if. destruct c; apply _. Qed.
#[global] Instance if_grows {X} (c : bool) (l l' : ld X) : Grows l -> Grows l' -> Grows (if c then l else l').
Proof. by destruct c. Qed.

Ltac grow := repeat first [apply _ | progress (intros; cbv zeta) | case_match].

(** A loader that ends without a complaint never complained. *)
Definition silent {X} (l : ld X) (x : X) : Prop := l [] = (x, []).

Lemma silent_bind {X Y} (l : ld X) (f : X -> ld Y) y : (forall x, Grows (f x)) ->
  silent (st_bind l f) y -> exists x, silent l x /\ silent (f x) y.
Proof.
  unfold silent, st_bind. intros Hf. destruct (l []) as [x errs]. intros E.
  assert (errs = []) as ->.
  { destruct (Hf x errs) as [more Hm]. rewrite E in Hm. cbn in Hm. symmetry in Hm. by apply app_nil in Hm as [? _]. }
  by exists x.
Qed.

Lemma silent_ret {X} (x y : X) : silent (st_ret x) y -> y = x.
Proof. by intros [= <-]. Qed.

Ltac hush :=
  repeat match goal with
  | H : silent (st_bind _ _) _ |- _ => apply silent_bind in H as (? & ? & H); [|intros; try apply _; grow]
  | H : silent (st_ret _) _ |- _ => apply silent_ret in H
  end.

(** A check without complaints passed every test. *)
Ltac no_complaints H := cbv zeta in H; repeat (apply fail_if_nil in H as [? H]).
Ltac no_earlier_complaints := split;
  [intros H; no_complaints H; cbv zeta; split; [exact H|]; repeat (apply fail_if_nil; split; [assumption|]); reflexivity
  |intros [-> H]; exact H].

Section Load.
Context `{A : AddressOps} `{U : URLs} `{T : ConfigText}.
Context (Getenv : string -> string).

(** ** Helpers *)
Definition is_empty (s : string) : bool := bool_decide (s = EmptyString).
Definition envOrDefault (key defaultVal : string) : string :=
  if is_empty (Getenv key) then defaultVal else Getenv key.

Definition parseDuration (key defaultVal : string) : ld Z :=
  match ParseDuration (envOrDefault key defaultVal) with
  | Err _ => let! _ := complain (key +:+ ": invalid duration") in st_ret 0
  | Ok d => st_ret d
  end.

Definition parseBool (key : string) (defaultVal : bool) : ld bool :=
  let raw := TrimSpace (Getenv key) in
  if is_empty raw then st_ret defaultVal
  else if bool_decide (to_lower raw ∈ ["true"; "1"; "yes"; "on"]%string) then st_ret true
  else if bool_decide (to_lower raw ∈ ["false"; "0"; "no"; "off"]%string) then st_ret false
  else let! _ := complain (key +:+ ": invalid boolean") in st_ret defaultVal.

Definition parseUint64 (key : string) (defaultVal : Z) : ld Z :=
  let raw := Getenv key in
  if is_empty raw then st_ret defaultVal
  else
    match SetString raw with
    | None => let! _ := complain (key +:+ ": invalid integer") in st_ret defaultVal
    | Some v =>
        if v <? 0 then let! _ := complain (key +:+ ": must be non-negative") in st_ret defaultVal
        else if negb (IsUint64 v) then let! _ := complain (key +:+ ": overflows uint64") in st_ret defaultVal
        else st_ret v
    end.

(** An int has 64 bits, so the last check of [parseInt] never fails. *)
Definition parseInt (key : string) (defaultVal : Z) : ld Z :=
  let raw := Getenv key in
  if is_empty raw then st_ret defaultVal
  else
    match SetString raw with
    | None => let! _ := complain (key +:+ ": invalid integer") in st_ret defaultVal
    | Some v => if negb (IsInt64 v) then let! _ := complain (key +:+ ": overflows int64") in st_ret defaultVal
                else st_ret v
    end.

(** The required chain id, a required and an optional address, and the gas
    price cap, as both loaders read them. *)
Definition load_chain_id : ld Z :=
  let raw := Getenv "CHAIN_ID" in
  if is_empty raw then let! _ := complain "CHAIN_ID is required" in st_ret 0
  else
    match SetString raw with
    | None => let! _ := complain "CHAIN_ID: invalid integer" in st_ret 0
    | Some v => if negb (IsInt64 v) then let! _ := complain "CHAIN_ID: overflows int64" in st_ret 0 else st_ret v
    end.

Definition optional_address (key : string) : ld Address :=
  let raw := Getenv key in
  if is_empty raw then st_ret zero_address
  else if negb (IsHexAddress raw) then let! _ := complain (key +:+ ": invalid hex address") in st_ret zero_address
  else st_ret (HexToAddress raw).

Definition required_address (key : string) : ld Address :=
  if is_empty (Getenv key) then let! _ := complain (key +:+ " is required") in st_ret zero_address
  else optional_address key.

Definition load_max_gas : ld (option Z) :=
  let raw := Getenv "MAX_GAS_PRICE" in
  if is_empty raw then st_ret (Some (100 * 1000000000))
  else
    match SetString raw with
    | None => let! _ := complain "MAX_GAS_PRICE: invalid decimal wei value" in st_ret None
    | Some v => if v <=? 0 then let! _ := complain "MAX_GAS_PRICE: must be positive" in st_ret None else st_ret (Some v)
    end.

(** The entries of a comma-separated list, without the empty ones. *)
Definition split_models (raw : string) : list string :=
  filter (fun m => m <> EmptyString) (TrimSpace <$> Split raw ","%char).

Definition load_models : ld (list string) :=
  let raw := Getenv "SUPPORTED_MODELS" in
  if is_empty raw then let! _ := complain "SUPPORTED_MODELS is required" in st_ret []
  else
    let! _ := complain_if (bool_decide (split_models raw = [])) "SUPPORTED_MODELS: no valid model entries after parsing" in
    st_ret (split_models raw).

(** ** The options of single models *)

(** One [key=value] of an entry: the options and keys so far, and whether the
    entry is still good. *)
Record entry_state : Type := MkEntry { e_opts : ClientOptions; e_seen : list string; e_ok : bool }.
Definition spoil (s : entry_state) : entry_state := MkEntry (e_opts s) (e_seen s) false.

Definition set_option (key value : string) (o : ClientOptions) : option ClientOptions :=
  if bool_decide (key = "num_predict"%string) then
    match Atoi value with
    | Ok v => if (v =? 0) || (v <? -2) then None
              else Some (MkOptions (KeepAlive o) v (NumCtx o) (Think o) (ThinkLevel o) (Temperature o) (Format o))
    | Err _ => None
    end
  else if bool_decide (key = "num_ctx"%string) then
    match Atoi value with
    | Ok v => if v <=? 0 then None
              else Some (MkOptions (KeepAlive o) (NumPredict o) v (Think o) (ThinkLevel o) (Temperature o) (Format o))
    | Err _ => None
    end
  else if bool_decide (key = "temperature"%string) then
    match ParseFloat value with
    | Ok v => if float_negative v || float_above_two v then None
              else Some (MkOptions (KeepAlive o) (NumPredict o) (NumCtx o) (Think o) (ThinkLevel o) (Some v) (Format o))
    | Err _ => None
    end
  else if bool_decide (key = "think"%string) then
    if bool_decide (value ∈ ["low"; "medium"; "high"]%string)
    then Some (MkOptions (KeepAlive o) (NumPredict o) (NumCtx o) (Think o) value (Temperature o) (Format o)) else None
  else None.

Definition parse_pair (name kv : string) (s : entry_state) : ld entry_state :=
  let malformed := let! _ := complain ("MODEL_OPTIONS: " +:+ name +:+ ": malformed option") in st_ret (spoil s) in
  match Cut (TrimSpace kv) "="%char with
  | None => malformed
  | Some (key, value) =>
      if is_empty key || is_empty value then malformed
      else if bool_decide (key ∈ e_seen s) then
        let! _ := complain ("MODEL_OPTIONS: " +:+ name +:+ ": duplicate key") in st_ret (spoil s)
      else
        let s := MkEntry (e_opts s) (key :: e_seen s) (e_ok s) in
        match set_option key value (e_opts s) with
        | None => let! _ := complain ("MODEL_OPTIONS: " +:+ name +:+ ": bad option " +:+ key) in st_ret (spoil s)
        | Some o => st_ret (MkEntry o (e_seen s) (e_ok s))
        end
  end.

Fixpoint parse_pairs (name : string) (pairs : list string) (s : entry_state) : ld entry_state :=
  match pairs with
  | [] => st_ret s
  | kv :: pairs => let! s := parse_pair name kv s in parse_pairs name pairs s
  end.

(** One entry [name:key=value,...]. *)
Definition parse_entry (supported : list string) (entry : string) (out : gmap string ClientOptions)
    : ld (gmap string ClientOptions) :=
  let entry := TrimSpace entry in
  if is_empty entry then st_ret out
  else
    let malformed := let! _ := complain "MODEL_OPTIONS: malformed entry" in st_ret out in
    match cutLast entry ":"%char with
    | None => malformed
    | Some (name, pairs) =>
        let name := TrimSpace name in
        if is_empty name || negb (str_contains pairs "=") then malformed
        else if negb (bool_decide (name ∈ supported)) then
          let! _ := complain ("MODEL_OPTIONS: model " +:+ name +:+ " is not in SUPPORTED_MODELS") in st_ret out
        else if bool_decide (is_Some (out !! name)) then
          let! _ := complain ("MODEL_OPTIONS: duplicate entry for model " +:+ name) in st_ret out
        else
          let! s := parse_pairs name (Split pairs ","%char) (MkEntry no_options [] true) in
          st_ret (if e_ok s then <[name := e_opts s]> out else out)
    end.

Fixpoint parse_entries (supported entries : list string) (out : gmap string ClientOptions) : ld (gmap string ClientOptions) :=
  match entries with
  | [] => st_ret out
  | entry :: entries => let! out := parse_entry supported entry out in parse_entries supported entries out
  end.

(** [parseModelOptions]; a nil map is the empty one. *)
Definition parseModelOptions (raw : string) (supported : list string) : ld (gmap string ClientOptions) :=
  let raw := TrimSpace raw in
  if is_empty raw then st_ret ∅
  else
    let! out := parse_entries supported (Split raw ";"%char) ∅ in
    fun errs => (if bool_decide (errs = []) then out else ∅, errs).

(** ** [Config], its fields in the groups [Load] reads them in *)
Record Plain : Type := MkPlain {
  WorkerKeystorePath : string;
  WorkerKeystorePassword : string;
  EncryptionKeystorePath : string;
  RPCURL : string;
  RedisURL : string;
  RedisPassword : string;
  OllamaURL : string;
  TavilyAPIKey : string;
  TavilyURL : string;
  BeaconAPIURL : string;
  SessionKeyFile : string;
  WorkerGatewayURL : string;
  MetricsListenAddr : string;
  OllamaKeepAlive : string;
  LogLevel : string;
  LogFormat : string;
}.
Record Chain : Type := MkChain {
  ChainID : Z;
  WorkerRegistryAddress : Address;
  AIConfigAddress : Address;
  JobRegistryAddress : Address;
  GasPriceMultiplierBps : Z;
  MaxGasPrice : option Z;
  SupportedModels : list string;
}.
Record Timing : Type := MkTiming {
  HeartbeatInterval : Z;
  ShutdownTimeout : Z;
  DrainTTLOverride : Z;
  DrainSlack : Z;
  OllamaTimeout : Z;
  SearchEnabled : bool;
  SearchTimeout : Z;
  SearchMaxResults : Z;
  AckTxTimeout : Z;
  BlobTxTimeout : Z;
  BlobFetchTimeout : Z;
  ReceiptPollInterval : Z;
  RedisPublishTimeout : Z;
  MaxConcurrentJobs : Z;
  BlobFetchRetries : Z;
  AckOverlapEnabled : bool;
}.
Record Generation : Type := MkGeneration {
  OllamaStream : bool;
  OllamaNumPredict : Z;
  OllamaNumCtx : Z;
  OllamaThink : bool;
  OllamaReasoningNumPredict : Z;
  StreamChunkTokens : Z;
  StreamChunkInterval : Z;
  StreamReasoning : bool;
  ModelOptions : gmap string ClientOptions;
}.
Record Guard : Type := MkGuard {
  DeadlineGuardEnabled : bool;
  SettleReserve : Z;
  CompletionReserve : Z;
  MinInferenceBudget : Z;
}.
Record Voice : Type := MkVoice {
  STTEnabled : bool;
  STTSidecarURL : string;
  STTTimeout : Z;
  TTSEnabled : bool;
  TTSSidecarURL : string;
  TTSVoice : string;
  SpeechModelName : string;
  TTSMaxChars : Z;
  TTSTimeout : Z;
}.
Record Upkeep : Type := MkUpkeep {
  StuckNonceThreshold : Z;
  StuckNonceMaxBumps : Z;
  StuckNonceAutoReplace : bool;
  MetricsAllowPublic : bool;
  CheckpointTTL : Z;
  CheckpointMaxBytes : Z;
}.
Record Release : Type := MkRelease {
  ReleaseEnabled : bool;
  ReleaseStatePath : string;
  ReleaseInterval : Z;
  ReleaseProbeInterval : Z;
  ReleaseBatchThreshold : Z;
  ReleaseMaxBatchSize : Z;
  ReleaseTxTimeout : Z;
  ReleaseStartBlock : Z;
  ReleaseChunkSize : Z;
  ReleaseConfirmations : Z;
  ReleaseReconcileInterval : Z;
  ReleaseBackoffBase : Z;
  ReleaseBackoffMax : Z;
  ReleasePausedCycleBackoff : Z;
  ReleaseStaleDisputeWarnAfter : Z;
  ReleaseDisputeWindowOverride : Z;
  ReleaseDisputeWindowCacheTTL : Z;
}.
Record Sortition : Type := MkSortition {
  SortitionEnabled : bool;
  SessionManagerAddress : Address;
  SortitionStateDir : string;
  SortitionChunkSize : Z;
  SortitionPollInterval : Z;
  SortitionConfirmations : Z;
  SortitionSessionLookbackBlocks : Z;
  SortitionSessionRetryLimit : Z;
}.
Record t : Type := MkConfig {
  plain : Plain; chain : Chain; timing : Timing; generation : Generation; guard : Guard; voice : Voice;
  upkeep : Upkeep; release : Release; sortition : Sortition;
}.

(** The strings that are read as they are. *)
Definition load_plain : Plain := {|
  WorkerKeystorePath := Getenv "WORKER_KEYSTORE_PATH";
  WorkerKeystorePassword := Getenv "WORKER_KEYSTORE_PASSWORD";
  EncryptionKeystorePath := envOrDefault "ENCRYPTION_KEYSTORE_PATH" "data/worker-encryption.key";
  RPCURL := envOrDefault "RPC_URL" "http://localhost:8545";
  RedisURL := envOrDefault "REDIS_URL" "redis://localhost:6379";
  RedisPassword := Getenv "REDIS_PASSWORD";
  OllamaURL := envOrDefault "OLLAMA_URL" "http://localhost:11434";
  TavilyAPIKey := Getenv "TAVILY_API_KEY";
  TavilyURL := envOrDefault "TAVILY_URL" "https://api.tavily.com";
  BeaconAPIURL := envOrDefault "BEACON_API_URL" "http://localhost:3500";
  SessionKeyFile := envOrDefault "SESSION_KEY_FILE" "data/session-keys.enc";
  WorkerGatewayURL := Getenv "WORKER_GATEWAY_URL";
  MetricsListenAddr := envOrDefault "WORKER_METRICS_ADDR" "127.0.0.1:9101";
  OllamaKeepAlive := envOrDefault "OLLAMA_KEEP_ALIVE" "-1";
  LogLevel := envOrDefault "LOG_LEVEL" "info";
  LogFormat := envOrDefault "LOG_FORMAT" "json";
|}.

Definition load_chain : ld Chain :=
  let! chainID := load_chain_id in
  let! registry := required_address "WORKER_REGISTRY_ADDRESS" in
  let! aiConfig := required_address "AI_CONFIG_ADDRESS" in
  let! jobRegistry := required_address "JOB_REGISTRY_ADDRESS" in
  let! bps := parseInt "GAS_PRICE_MULTIPLIER_BPS" 11000 in
  let! maxGas := load_max_gas in
  let! models := load_models in
  st_ret (MkChain chainID registry aiConfig jobRegistry bps maxGas models).

Definition load_timing : ld Timing :=
  let! heartbeat := parseDuration "HEARTBEAT_INTERVAL" "10s" in
  let! shutdown := parseDuration "SHUTDOWN_TIMEOUT" "30s" in
  let! drainTTL := parseDuration "LIGHTCHAIN_DRAIN_TTL" "0s" in
  let! _ := complain_if (drainTTL <? 0) "LIGHTCHAIN_DRAIN_TTL: must be >= 0" in
  let! drainSlack := parseDuration "LIGHTCHAIN_DRAIN_SLACK" "2h" in
  let! _ := complain_if (drainSlack <? 0) "LIGHTCHAIN_DRAIN_SLACK: must be >= 0" in
  let! ollama := parseDuration "OLLAMA_TIMEOUT" "120s" in
  let! searchEnabled := parseBool "SEARCH_ENABLED" false in
  let! search := parseDuration "SEARCH_TIMEOUT" "10s" in
  let! results := parseInt "SEARCH_MAX_RESULTS" 5 in
  let! ack := parseDuration "ACK_TX_TIMEOUT" "15s" in
  let! blobTx := parseDuration "BLOB_TX_TIMEOUT" "90s" in
  let! blobFetch := parseDuration "BLOB_FETCH_TIMEOUT" "10s" in
  let! receipt := parseDuration "RECEIPT_POLL_INTERVAL" "2s" in
  let! publish := parseDuration "REDIS_PUBLISH_TIMEOUT" "5s" in
  let! jobs := parseInt "MAX_CONCURRENT_JOBS" 2 in
  let! retries := parseInt "BLOB_FETCH_RETRIES" 3 in
  let! overlap := parseBool "ACK_OVERLAP_ENABLED" true in
  st_ret (MkTiming heartbeat shutdown drainTTL drainSlack ollama searchEnabled search results ack blobTx blobFetch
            receipt publish jobs retries overlap).

Definition load_generation (models : list string) : ld Generation :=
  let! stream := parseBool "OLLAMA_STREAM" true in
  let! predict := parseInt "OLLAMA_NUM_PREDICT" 1024 in
  let! ctx := parseInt "OLLAMA_NUM_CTX" 0 in
  let! think := parseBool "OLLAMA_THINK" false in
  let! reasoning := parseInt "OLLAMA_REASONING_NUM_PREDICT" 4096 in
  let! tokens := parseInt "STREAM_CHUNK_TOKENS" 32 in
  let! interval := parseDuration "STREAM_CHUNK_INTERVAL" "100ms" in
  let! shown := parseBool "STREAM_REASONING" true in
  let! options := parseModelOptions (Getenv "MODEL_OPTIONS") models in
  st_ret (MkGeneration stream predict ctx think reasoning tokens interval shown options).

Definition load_guard : ld Guard :=
  let! enabled := parseBool "DEADLINE_GUARD_ENABLED" true in
  let! settle := parseDuration "DEADLINE_SETTLE_RESERVE" "25s" in
  let! completion := parseDuration "DEADLINE_COMPLETION_RESERVE" "12s" in
  let! budget := parseDuration "DEADLINE_MIN_INFERENCE_BUDGET" "10s" in
  st_ret (MkGuard enabled settle completion budget).

Definition load_voice : ld Voice :=
  let! stt := parseBool "STT_ENABLED" false in
  let! sttTimeout := parseDuration "STT_TIMEOUT" "10s" in
  let! tts := parseBool "TTS_ENABLED" false in
  let! chars := parseInt "TTS_MAX_CHARS" 4000 in
  let! ttsTimeout := parseDuration "TTS_TIMEOUT" "20s" in
  st_ret (MkVoice stt (envOrDefault "STT_SIDECAR_URL" "http://127.0.0.1:8100") sttTimeout
            tts (envOrDefault "TTS_SIDECAR_URL" "http://127.0.0.1:8101") (envOrDefault "TTS_VOICE" "af_heart")
            (envOrDefault "SPEECH_MODEL_NAME" "tts-piper") chars ttsTimeout).

Definition load_upkeep : ld Upkeep :=
  let! threshold := parseInt "WORKER_STUCK_NONCE_THRESHOLD" 5 in
  let! bumps := parseInt "WORKER_STUCK_NONCE_MAX_BUMPS" 3 in
  let! replace := parseBool "WORKER_STUCK_NONCE_AUTOREPLACE" true in
  let! public := parseBool "WORKER_METRICS_ALLOW_PUBLIC" false in
  let! ttl := parseDuration "WORKER_CHECKPOINT_TTL" "2h" in
  let! maxBytes := parseInt "WORKER_CHECKPOINT_MAX_BYTES" 262144 in
  st_ret (MkUpkeep threshold bumps replace public ttl maxBytes).

Definition load_release : ld Release :=
  let! enabled := parseBool "RELEASE_ENABLED" true in
  let! interval := parseDuration "RELEASE_INTERVAL" "8h" in
  let! probe := parseDuration "RELEASE_PROBE_INTERVAL" "5m" in
  let! threshold := parseInt "RELEASE_BATCH_THRESHOLD" 20 in
  let! batch := parseInt "RELEASE_MAX_BATCH_SIZE" 50 in
  let! timeout := parseDuration "RELEASE_TX_TIMEOUT" "120s" in
  let! start := parseUint64 "RELEASE_RECONCILE_START_BLOCK" 0 in
  let! chunk := parseUint64 "RELEASE_RECONCILE_CHUNK_SIZE" 5000 in
  let! confirmations := parseUint64 "RELEASE_RECONCILE_CONFIRMATIONS" 5 in
  let! reconcile := parseDuration "RELEASE_RECONCILE_INTERVAL" "1h" in
  let! base := parseDuration "RELEASE_BACKOFF_BASE" "15m" in
  let! cap := parseDuration "RELEASE_BACKOFF_MAX" "24h" in
  let! paused := parseDuration "RELEASE_PAUSED_CYCLE_BACKOFF" "1h" in
  let! stale := parseDuration "RELEASE_STALE_DISPUTE_WARN_AFTER" "168h" in
  let! window := parseDuration "RELEASE_DISPUTE_WINDOW_OVERRIDE" "0s" in
  let! cache := parseDuration "RELEASE_DISPUTE_WINDOW_CACHE_TTL" "15m" in
  st_ret (MkRelease enabled (envOrDefault "RELEASE_STATE_PATH" "./release_state.json") interval probe threshold batch
            timeout start chunk confirmations reconcile base cap paused stale window cache).

Definition load_sortition : ld Sortition :=
  let! enabled := parseBool "SORTITION_ENABLED" false in
  let! manager := optional_address "SESSION_MANAGER_ADDRESS" in
  let! chunk := parseUint64 "SORTITION_CHUNK_SIZE" 5000 in
  let! poll := parseDuration "SORTITION_POLL_INTERVAL" "1s" in
  let! confirmations := parseUint64 "SORTITION_CONFIRMATIONS" 0 in
  let! lookback := parseUint64 "SORTITION_SESSION_LOOKBACK_BLOCKS" 2000 in
  let! retries := parseInt "SORTITION_SESSION_RETRY_LIMIT" 10 in
  st_ret (MkSortition enabled manager (envOrDefault "SORTITION_STATE_DIR" "data/sortition-state") chunk poll
            confirmations lookback retries).

(** [joinStrings], with the separator both loaders use. *)
Definition bullet : string := String (Ascii.ascii_of_nat 10) "  - ".
Fixpoint joinStrings (items : list string) : string :=
  match items with [] => EmptyString | [e] => e | e :: items => e +:+ bullet +:+ joinStrings items end.

(** The end of every loader: all complaints in one error. *)
Definition settled {X} (what : string) (l : ld X) : result X :=
  let '(x, errs) := l [] in
  match errs with [] => Ok x | _ => Err (errorf (what +:+ ":" +:+ bullet +:+ joinStrings errs)) end.

Definition load_all : ld t :=
  let! chain := load_chain in
  let! timing := load_timing in
  let! generation := load_generation (SupportedModels chain) in
  let! guard := load_guard in
  let! voice := load_voice in
  let! upkeep := load_upkeep in
  let! release := load_release in
  let! sortition := load_sortition in
  st_ret (MkConfig load_plain chain timing generation guard voice upkeep release sortition).

Definition Load : result t := settled "config load errors" load_all.

(** ** Validation: the complaints about a loaded configuration, in order *)
Definition sidecar_url_ok (raw : string) : bool :=
  match Parse raw with
  | Err _ => false
  | Ok u => negb (is_empty (Host u)) && Dial.is_http u
  end.

(** [metrics.ValidateListenAddr]. *)
Definition listen_addr_ok (addr : string) (allowPublic : bool) : bool :=
  if is_empty addr then true
  else
    match SplitHost addr with
    | Err _ => false
    | Ok host =>
        allowPublic || bool_decide (host ∈ ["127.0.0.1"; "localhost"; "::1"]%string) ||
        negb (bool_decide (host ∈ [""; "0.0.0.0"; "::"]%string)) && IsLoopbackIP host
    end.

Definition is_zero (a : Address) : bool := @bool_decide (a = zero_address) (Address_eq_dec a zero_address).

Definition check_chain (p : Plain) (c : Chain) (errs : list string) : list string :=
  let errs := fail_if (is_empty (WorkerKeystorePath p)) "WORKER_KEYSTORE_PATH is required" errs in
  let errs := fail_if (is_empty (WorkerKeystorePassword p)) "WORKER_KEYSTORE_PASSWORD is required" errs in
  let errs := fail_if (ChainID c <=? 0) "CHAIN_ID must be positive" errs in
  let errs := fail_if (is_zero (WorkerRegistryAddress c)) "WORKER_REGISTRY_ADDRESS must be a non-zero address" errs in
  let errs := fail_if (is_zero (AIConfigAddress c)) "AI_CONFIG_ADDRESS must be a non-zero address" errs in
  let errs := fail_if (is_zero (JobRegistryAddress c)) "JOB_REGISTRY_ADDRESS must be a non-zero address" errs in
  fail_if (bool_decide (SupportedModels c = [])) "SUPPORTED_MODELS: at least one model is required" errs.

Definition check_timing (p : Plain) (c : Chain) (g : Timing) (errs : list string) : list string :=
  let errs := fail_if (HeartbeatInterval g <=? 0) "HEARTBEAT_INTERVAL must be positive" errs in
  let errs := fail_if (ShutdownTimeout g <=? 0) "SHUTDOWN_TIMEOUT must be positive" errs in
  let errs := fail_if (GasPriceMultiplierBps c <=? 0) "GAS_PRICE_MULTIPLIER_BPS must be positive" errs in
  let errs := fail_if (MaxConcurrentJobs g <=? 0) "MAX_CONCURRENT_JOBS must be positive" errs in
  let errs := fail_if (OllamaTimeout g <=? 0) "OLLAMA_TIMEOUT must be positive" errs in
  let errs := if SearchEnabled g then
                let errs := fail_if (is_empty (TavilyAPIKey p)) "TAVILY_API_KEY is required when SEARCH_ENABLED=true" errs in
                let errs := fail_if (SearchTimeout g <=? 0) "SEARCH_TIMEOUT must be positive" errs in
                fail_if (SearchMaxResults g <=? 0) "SEARCH_MAX_RESULTS must be positive" errs
              else errs in
  let errs := fail_if (AckTxTimeout g <=? 0) "ACK_TX_TIMEOUT must be positive" errs in
  let errs := fail_if (BlobTxTimeout g <=? 0) "BLOB_TX_TIMEOUT must be positive" errs in
  let errs := fail_if (BlobFetchTimeout g <=? 0) "BLOB_FETCH_TIMEOUT must be positive" errs in
  let errs := fail_if (BlobFetchRetries g <=? 0) "BLOB_FETCH_RETRIES must be positive" errs in
  let errs := fail_if (ReceiptPollInterval g <=? 0) "RECEIPT_POLL_INTERVAL must be positive" errs in
  fail_if (RedisPublishTimeout g <=? 0) "REDIS_PUBLISH_TIMEOUT must be positive" errs.

Definition check_generation (g : Generation) (errs : list string) : list string :=
  let errs := fail_if ((OllamaNumPredict g =? 0) || (OllamaNumPredict g <? -2)) "OLLAMA_NUM_PREDICT must be positive, -1 or -2" errs in
  let errs := fail_if (OllamaNumCtx g <? 0) "OLLAMA_NUM_CTX must be >= 0" errs in
  let errs := fail_if (StreamChunkTokens g <=? 0) "STREAM_CHUNK_TOKENS must be positive" errs in
  fail_if (StreamChunkInterval g <=? 0) "STREAM_CHUNK_INTERVAL must be positive" errs.

Definition check_guard (g : Guard) (errs : list string) : list string :=
  if DeadlineGuardEnabled g then
    let errs := fail_if (SettleReserve g <=? 0) "DEADLINE_SETTLE_RESERVE must be positive" errs in
    let errs := fail_if (CompletionReserve g <=? 0) "DEADLINE_COMPLETION_RESERVE must be positive" errs in
    let errs := fail_if (MinInferenceBudget g <=? 0) "DEADLINE_MIN_INFERENCE_BUDGET must be positive" errs in
    fail_if (SettleReserve g <=? CompletionReserve g) "DEADLINE_SETTLE_RESERVE must be > DEADLINE_COMPLETION_RESERVE" errs
  else errs.

Definition check_voice (v : Voice) (errs : list string) : list string :=
  let errs := if STTEnabled v then
                let errs := fail_if (negb (sidecar_url_ok (STTSidecarURL v))) "STT_SIDECAR_URL: must be a parseable http(s) URL" errs in
                fail_if (STTTimeout v <=? 0) "STT_TIMEOUT must be positive" errs
              else errs in
  if TTSEnabled v then
    let errs := fail_if (negb (sidecar_url_ok (TTSSidecarURL v))) "TTS_SIDECAR_URL: must be a parseable http(s) URL" errs in
    let errs := fail_if (TTSTimeout v <=? 0) "TTS_TIMEOUT must be positive" errs in
    fail_if (TTSMaxChars v <? 0) "TTS_MAX_CHARS must be >= 0" errs
  else errs.

Definition check_upkeep (p : Plain) (u : Upkeep) (errs : list string) : list string :=
  let errs := fail_if (negb (bool_decide (LogFormat p = "json"%string)) && negb (bool_decide (LogFormat p = "text"%string)))
                "LOG_FORMAT: must be json or text" errs in
  let errs := fail_if (StuckNonceThreshold u <=? 0) "WORKER_STUCK_NONCE_THRESHOLD must be positive" errs in
  let errs := fail_if (StuckNonceMaxBumps u <=? 0) "WORKER_STUCK_NONCE_MAX_BUMPS must be positive" errs in
  fail_if (negb (listen_addr_ok (MetricsListenAddr p) (MetricsAllowPublic u))) "WORKER_METRICS_ADDR" errs.

Definition check_release (r : Release) (errs : list string) : list string :=
  let errs := fail_if (is_empty (ReleaseStatePath r)) "RELEASE_STATE_PATH must not be empty" errs in
  if ReleaseEnabled r then
    let errs := fail_if (ReleaseInterval r <=? 0) "RELEASE_INTERVAL must be positive" errs in
    let errs := fail_if (ReleaseProbeInterval r <=? 0) "RELEASE_PROBE_INTERVAL must be positive" errs in
    let errs := fail_if (ReleaseInterval r <? ReleaseProbeInterval r) "RELEASE_PROBE_INTERVAL must be at most RELEASE_INTERVAL" errs in
    let errs := fail_if (ReleaseBatchThreshold r <? 1) "RELEASE_BATCH_THRESHOLD must be at least 1" errs in
    let errs := fail_if (ReleaseMaxBatchSize r <? 1) "RELEASE_MAX_BATCH_SIZE must be at least 1" errs in
    let errs := fail_if (ReleaseTxTimeout r <=? 0) "RELEASE_TX_TIMEOUT must be positive" errs in
    let errs := fail_if (ReleaseChunkSize r =? 0) "RELEASE_RECONCILE_CHUNK_SIZE must be at least 1" errs in
    let errs := fail_if (ReleaseReconcileInterval r <=? 0) "RELEASE_RECONCILE_INTERVAL must be positive" errs in
    let errs := fail_if (ReleaseBackoffBase r <=? 0) "RELEASE_BACKOFF_BASE must be positive" errs in
    let errs := fail_if (ReleaseBackoffMax r <? ReleaseBackoffBase r) "RELEASE_BACKOFF_MAX must be at least RELEASE_BACKOFF_BASE" errs in
    let errs := fail_if (ReleasePausedCycleBackoff r <=? 0) "RELEASE_PAUSED_CYCLE_BACKOFF must be positive" errs in
    fail_if (ReleaseDisputeWindowCacheTTL r <? 0) "RELEASE_DISPUTE_WINDOW_CACHE_TTL must be at least 0" errs
  else errs.

Definition check_sortition (s : Sortition) (errs : list string) : list string :=
  fail_if (SortitionEnabled s && is_zero (SessionManagerAddress s)) "SESSION_MANAGER_ADDRESS is required when SORTITION_ENABLED=true" errs.

Definition Validate (c : t) : list string :=
  let errs := check_chain (plain c) (chain c) [] in
  let errs := check_timing (plain c) (chain c) (timing c) errs in
  let errs := check_generation (generation c) errs in
  let errs := check_guard (guard c) errs in
  let errs := check_voice (voice c) errs in
  let errs := check_upkeep (plain c) (upkeep c) errs in
  let errs := check_release (release c) errs in
  check_sortition (sortition c) errs.

(** [buildReleaseConfig] of [internal/service/service.go]. *)
Definition buildReleaseConfig (r : Release) : ReleaseConfig.Config := {|
  ReleaseConfig.Enabled := ReleaseEnabled r;
  ReleaseConfig.StatePath := ReleaseStatePath r;
  ReleaseConfig.Interval := ReleaseInterval r;
  ReleaseConfig.ProbeInterval := ReleaseProbeInterval r;
  ReleaseConfig.BatchThreshold := ReleaseBatchThreshold r;
  ReleaseConfig.MaxBatchSize := ReleaseMaxBatchSize r;
  ReleaseConfig.TxTimeout := ReleaseTxTimeout r;
  ReleaseConfig.StartBlock := ReleaseStartBlock r;
  ReleaseConfig.ChunkSize := ReleaseChunkSize r;
  ReleaseConfig.Confirmations := ReleaseConfirmations r;
  ReleaseConfig.ReconcileInterval := ReleaseReconcileInterval r;
  ReleaseConfig.BackoffBase := ReleaseBackoffBase r;
  ReleaseConfig.BackoffMax := ReleaseBackoffMax r;
  ReleaseConfig.PausedCycleBackoff := ReleasePausedCycleBackoff r;
  ReleaseConfig.StaleDisputeWarnAfter := ReleaseStaleDisputeWarnAfter r;
  ReleaseConfig.DisputeWindowOverride := ReleaseDisputeWindowOverride r;
  ReleaseConfig.DisputeWindowCacheTTL := ReleaseDisputeWindowCacheTTL r;
|}.

(** ** [ConfigFromEnv] of [internal/release/config.go] *)
Definition override {X} (what key : string) (parse : string -> result X) (target : X) : ld X :=
  let v := Getenv key in
  if is_empty v then st_ret target
  else
    match parse v with
    | Err _ => let! _ := complain (key +:+ ": invalid " +:+ what) in st_ret target
    | Ok x => st_ret x
    end.
Definition overrideBool (key : string) (target : bool) : ld bool := override "bool" key ParseBool target.
Definition overrideDuration (key : string) (target : Z) : ld Z := override "duration" key ParseDuration target.
Definition overrideInt (key : string) (target : Z) : ld Z := override "int" key Atoi target.
Definition overrideUint64 (key : string) (target : Z) : ld Z := override "uint64" key ParseUint target.
Definition overrideString (key target : string) : string := if is_empty (Getenv key) then target else Getenv key.

Definition release_from_env : ld ReleaseConfig.Config :=
  let d := DefaultConfig in
  let! enabled := overrideBool "RELEASE_ENABLED" (Enabled d) in
  let path := overrideString "RELEASE_STATE_PATH" (StatePath d) in
  let! interval := overrideDuration "RELEASE_INTERVAL" (Interval d) in
  let! probe := overrideDuration "RELEASE_PROBE_INTERVAL" (ProbeInterval d) in
  let! threshold := overrideInt "RELEASE_BATCH_THRESHOLD" (BatchThreshold d) in
  let! batch := overrideInt "RELEASE_MAX_BATCH_SIZE" (MaxBatchSize d) in
  let! timeout := overrideDuration "RELEASE_TX_TIMEOUT" (TxTimeout d) in
  let! start := overrideUint64 "RELEASE_RECONCILE_START_BLOCK" (StartBlock d) in
  let! chunk := overrideUint64 "RELEASE_RECONCILE_CHUNK_SIZE" (ChunkSize d) in
  let! confirmations := overrideUint64 "RELEASE_RECONCILE_CONFIRMATIONS" (Confirmations d) in
  let! reconcile := overrideDuration "RELEASE_RECONCILE_INTERVAL" (ReconcileInterval d) in
  let! base := overrideDuration "RELEASE_BACKOFF_BASE" (BackoffBase d) in
  let! cap := overrideDuration "RELEASE_BACKOFF_MAX" (BackoffMax d) in
  let! paused := overrideDuration "RELEASE_PAUSED_CYCLE_BACKOFF" (PausedCycleBackoff d) in
  let! stale := overrideDuration "RELEASE_STALE_DISPUTE_WARN_AFTER" (StaleDisputeWarnAfter d) in
  let! window := overrideDuration "RELEASE_DISPUTE_WINDOW_OVERRIDE" (DisputeWindowOverride d) in
  let! cache := overrideDuration "RELEASE_DISPUTE_WINDOW_CACHE_TTL" (DisputeWindowCacheTTL d) in
  st_ret (ReleaseConfig.MkConfig enabled path interval probe threshold batch timeout start chunk confirmations reconcile
            base cap paused stale window cache).

Definition ConfigFromEnv : result ReleaseConfig.Config := settled "release config from env" release_from_env.

(** ** The loaders only add complaints *)
#[global] Instance parseDuration_grows k d : Grows (parseDuration k d).
Proof. unfold parseDuration. grow. Qed.
#[global] Instance parseBool_grows k d : Grows (parseBool k d).
Proof. unfold parseBool. grow. Qed.
#[global] Instance parseUint64_grows k d : Grows (parseUint64 k d).
Proof. unfold parseUint64. grow. Qed.
#[global] Instance parseInt_grows k d : Grows (parseInt k d).
Proof. unfold parseInt. grow. Qed.
#[global] Instance chain_id_grows : Grows load_chain_id.
Proof. unfold load_chain_id. grow. Qed.
#[global] Instance optional_address_grows k : Grows (optional_address k).
Proof. unfold optional_address. grow. Qed.
#[global] Instance required_address_grows k : Grows (required_address k).
Proof. unfold required_address. grow. Qed.
#[global] Instance max_gas_grows : Grows load_max_gas.
Proof. unfold load_max_gas. grow. Qed.
#[global] Instance models_grows : Grows load_models.
Proof. unfold load_models. grow. Qed.
#[global] Instance parse_pair_grows n kv s : Grows (parse_pair n kv s).
Proof. unfold parse_pair. grow. Qed.
#[global] Instance parse_pairs_grows n kvs s : Grows (parse_pairs n kvs s).
Proof. revert s. induction kvs; intros s; cbn [parse_pairs]; apply _. Qed.
#[global] Instance parse_entry_grows ms e out : Grows (parse_entry ms e out).
Proof. unfold parse_entry. grow. Qed.
#[global] Instance parse_entries_grows ms es out : Grows (parse_entries ms es out).
Proof. revert out. induction es; intros out; cbn [parse_entries]; apply _. Qed.
#[global] Instance parseModelOptions_grows raw ms : Grows (parseModelOptions raw ms).
Proof. unfold parseModelOptions. cbv zeta. apply if_grows; [apply _|]. apply bind_grows; [apply _|]. intros out errs. exists []. by rewrite app_nil_r. Qed.
#[global] Instance override_grows {X} w k (p : string -> result X) x : Grows (override w k p x).
Proof. unfold override. grow. Qed.

Lemma settled_ok {X} what (l : ld X) x : settled what l = Ok x -> silent l x.
Proof. unfold settled, silent. destruct (l []) as [x' [|e errs]]; [by intros [= ->]|done]. Qed.

(** ** The two loaders of the release settings *)
Lemma durations_agree key text d x y : ParseDuration text = Ok d ->
  silent (parseDuration key text) x -> silent (overrideDuration key d) y -> x = y.
Proof.
  unfold silent, parseDuration, overrideDuration, override, envOrDefault. intros Hd.
  destruct (is_empty (Getenv key)); [rewrite Hd; by intros [= <-] [= <-]|].
  destruct (ParseDuration (Getenv key)); [by intros [= <-] [= <-]|done].
Qed.

Lemma parse_decimal_digits cs : forall v r, parse_digits v cs = Some r -> parse_decimal v cs = Some r.
Proof.
  induction cs as [|c cs IH]; intros v r; cbn; [done|]. destruct (digit_value c); [|done]. destruct (_ <? _); [done|]. apply IH.
Qed.

Lemma ParseUint_decimal s n : ParseUint s = Ok n -> explode s <> [] /\ parse_decimal 0 (explode s) = Some n.
Proof.
  unfold ParseUint. destruct (explode s) as [|c cs]; [done|].
  destruct (parse_digits 0 (c :: cs)) as [v|] eqn:Ed; [|done]. intros [= <-]. split; [done|]. by apply parse_decimal_digits.
Qed.

(** [SetString] by the sign in front. *)
Lemma SetString_minus cs : cs <> [] -> SetString (String "-" (implode cs)) = (Z.opp <$> parse_decimal 0 cs).
Proof.
  intros Hn. unfold SetString. cbn [String.list_ascii_of_string]. rewrite String.list_ascii_of_string_of_list_ascii.
  destruct cs; [done|]. by destruct (parse_decimal _ _).
Qed.
Lemma SetString_plus cs : cs <> [] -> SetString (String "+" (implode cs)) = parse_decimal 0 cs.
Proof.
  intros Hn. unfold SetString. cbn [String.list_ascii_of_string]. rewrite String.list_ascii_of_string_of_list_ascii.
  destruct cs; [done|]. by destruct (parse_decimal _ _).
Qed.
Lemma SetString_digits c cs v : c <> "-"%char -> c <> "+"%char -> parse_decimal 0 (c :: cs) = Some v -> SetString (String c (implode cs)) = Some v.
Proof.
  intros H1 H2 Hv. unfold SetString. cbn [String.list_ascii_of_string]. rewrite String.list_ascii_of_string_of_list_ascii.
  destruct c as [[] [] [] [] [] [] [] []]; try congruence; by rewrite Hv.
Qed.

Lemma ParseUint_SetString s n : ParseUint s = Ok n -> SetString s = Some n.
Proof.
  intros [Hn Hd]%ParseUint_decimal. destruct s as [|c s]; [done|]. rewrite <- (String.string_of_list_ascii_of_string s).
  cbn [String.list_ascii_of_string] in Hd. apply SetString_digits; [| |done]; intros ->; done.
Qed.

Lemma Atoi_SetString s n : Atoi s = Ok n -> SetString s = Some n.
Proof.
  unfold Atoi. destruct s as [|c s]; [done|]. intros Hp.
  assert (forall neg (digits : string), match ParseUint digits with
      | Err e => Err e
      | Ok un => let n := if neg : bool then - un else un in
                 if (n <? i64_min) || (i64_max <? n) then Err (errorf "value out of range") else Ok n
      end = Ok n -> explode digits <> [] /\ exists un, parse_decimal 0 (explode digits) = Some un /\ n = if neg then - un else un) as Hv.
  { intros neg digits. destruct (ParseUint digits) as [un|] eqn:Eu; [|done]. apply ParseUint_decimal in Eu as [? Eu].
    cbv zeta. destruct (_ || _); [done|]. intros [= <-]. eauto. }
  destruct (decide (c = "-"%char)) as [->|Hm]; [|destruct (decide (c = "+"%char)) as [->|Hplus]].
  - destruct (Hv true s Hp) as (Hn & un & Ed & ->). rewrite <- (String.string_of_list_ascii_of_string s), SetString_minus by done. by rewrite Ed.
  - destruct (Hv false s Hp) as (Hn & un & Ed & ->). by rewrite <- (String.string_of_list_ascii_of_string s), SetString_plus.
  - assert (explode (String c s) <> [] /\ exists un, parse_decimal 0 (explode (String c s)) = Some un /\ n = un) as (_ & un & Ed & ->).
    { apply (Hv false (String c s)). rewrite <- Hp. by destruct c as [[] [] [] [] [] [] [] []]. }
    rewrite <- (String.string_of_list_ascii_of_string s). by apply SetString_digits.
Qed.

Lemma ints_agree key d x y : silent (parseInt key d) x -> silent (overrideInt key d) y -> x = y.
Proof.
  unfold silent, parseInt, overrideInt, override. destruct (is_empty (Getenv key)); [by intros [= <-] [= <-]|].
  destruct (Atoi (Getenv key)) as [n|] eqn:E; [|done]. apply Atoi_SetString in E as ->.
  destruct (negb _); [done|]. by intros [= <-] [= <-].
Qed.

Lemma uints_agree key d x y : silent (parseUint64 key d) x -> silent (overrideUint64 key d) y -> x = y.
Proof.
  unfold silent, parseUint64, overrideUint64, override. destruct (is_empty (Getenv key)); [by intros [= <-] [= <-]|].
  destruct (ParseUint (Getenv key)) as [n|] eqn:E; [|done]. apply ParseUint_SetString in E as ->.
  destruct (n <? 0); [done|]. destruct (negb _); [done|]. by intros [= <-] [= <-].
Qed.

Lemma bools_agree key d x y : silent (parseBool key d) x -> silent (overrideBool key d) y -> x = y.
Proof.
  unfold silent, parseBool, overrideBool, override, ParseBool, is_empty.
  destruct (decide (Getenv key = EmptyString)) as [->|Hn]; [by intros [= <-] [= <-]|].
  rewrite (bool_decide_eq_false_2 (Getenv key = EmptyString)) by done. intros Hx Hy.
  assert (Getenv key ∈ ["1"; "t"; "T"; "TRUE"; "true"; "True"; "0"; "f"; "F"; "FALSE"; "false"; "False"]%string) as Hin.
  { clear Hx. case_bool_decide as H1; [clear -H1; set_solver|]. case_bool_decide as H2; [clear -H2; set_solver|done]. }
  revert Hx Hy. rewrite !elem_of_cons, elem_of_nil in Hin.
  repeat (destruct Hin as [->|Hin]; [vm_compute; congruence|]). done.
Qed.

Lemma strings_agree key d : envOrDefault key d = overrideString key d.
Proof. done. Qed.

Lemma release_settings_agree r rc : silent load_release r -> silent release_from_env rc -> buildReleaseConfig r = rc.
Proof.
  unfold load_release, release_from_env. intros Hr Hc. cbv zeta in Hc. hush. subst r rc. unfold buildReleaseConfig. cbn.
  repeat match goal with
  | H1 : silent (parseDuration ?k _) ?x, H2 : silent (overrideDuration ?k _) ?y |- _ =>
      rewrite (fun E => durations_agree k _ _ x y E H1 H2) by (vm_compute; reflexivity); clear H1 H2
  | H1 : silent (parseInt ?k _) ?x, H2 : silent (overrideInt ?k _) ?y |- _ => rewrite (ints_agree k _ x y H1 H2); clear H1 H2
  | H1 : silent (parseUint64 ?k _) ?x, H2 : silent (overrideUint64 ?k _) ?y |- _ => rewrite (uints_agree k _ x y H1 H2); clear H1 H2
  | H1 : silent (parseBool ?k _) ?x, H2 : silent (overrideBool ?k _) ?y |- _ => rewrite (bools_agree k _ x y H1 H2); clear H1 H2
  end.
  by rewrite strings_agree.
Qed.

(** What [Load] did, group by group. *)
Lemma Load_groups c : Load = Ok c ->
  plain c = load_plain /\ silent load_chain (chain c) /\ silent load_timing (timing c) /\
  silent (load_generation (SupportedModels (chain c))) (generation c) /\ silent load_guard (guard c) /\
  silent load_voice (voice c) /\ silent load_upkeep (upkeep c) /\ silent load_release (release c) /\ silent load_sortition (sortition c).
Proof.
  intros Hl%settled_ok. unfold load_all in Hl.
  assert (Grows load_chain /\ Grows load_timing /\ (forall ms, Grows (load_generation ms)) /\ Grows load_guard /\ Grows load_voice /\
    Grows load_upkeep /\ Grows load_release /\ Grows load_sortition) as (?&?&?&?&?&?&?&?).
  { unfold load_chain, load_timing, load_generation, load_guard, load_voice, load_upkeep, load_release, load_sortition. repeat split; intros; apply _. }
  hush. by subst c.
Qed.

(** The complaints about the release settings are those of the release package. *)
Lemma check_release_nil r errs : check_release r errs = [] <-> errs = [] /\ ReleaseConfig.Config_Validate (buildReleaseConfig r) = [].
Proof.
  unfold check_release, ReleaseConfig.Config_Validate, is_empty. cbn. destruct (ReleaseEnabled r); cbn [negb]; rewrite !fail_if_nil; split; intros; destruct_and!; repeat split; assumption.
Qed.

(** Validation passes when every group does. *)
Lemma check_nil_chain p c errs : check_chain p c errs = [] <-> errs = [] /\ check_chain p c [] = [].
Proof. unfold check_chain. no_earlier_complaints. Qed.
Lemma check_nil_timing p c g errs : check_timing p c g errs = [] <-> errs = [] /\ check_timing p c g [] = [].
Proof. unfold check_timing. destruct (SearchEnabled g); no_earlier_complaints. Qed.
Lemma check_nil_generation g errs : check_generation g errs = [] <-> errs = [] /\ check_generation g [] = [].
Proof. unfold check_generation. no_earlier_complaints. Qed.
Lemma check_nil_guard g errs : check_guard g errs = [] <-> errs = [] /\ check_guard g [] = [].
Proof. unfold check_guard. destruct (DeadlineGuardEnabled g); no_earlier_complaints. Qed.
Lemma check_nil_voice v errs : check_voice v errs = [] <-> errs = [] /\ check_voice v [] = [].
Proof. unfold check_voice. destruct (TTSEnabled v), (STTEnabled v); no_earlier_complaints. Qed.
Lemma check_nil_upkeep p u errs : check_upkeep p u errs = [] <-> errs = [] /\ check_upkeep p u [] = [].
Proof. unfold check_upkeep. no_earlier_complaints. Qed.

Lemma Validate_nil c : Validate c = [] ->
  check_chain (plain c) (chain c) [] = [] /\ check_timing (plain c) (chain c) (timing c) [] = [] /\
  check_generation (generation c) [] = [] /\ check_guard (guard c) [] = [] /\ check_voice (voice c) [] = [] /\
  check_upkeep (plain c) (upkeep c) [] = [] /\ ReleaseConfig.Config_Validate (buildReleaseConfig (release c)) = [] /\
  (SortitionEnabled (sortition c) = true -> SessionManagerAddress (sortition c) <> zero_address).
Proof.
  unfold Validate, check_sortition. cbv zeta. rewrite fail_if_nil. intros [Hs H].
  apply check_release_nil in H as [H ?]. apply check_nil_upkeep in H as [H ?]. apply check_nil_voice in H as [H ?].
  apply check_nil_guard in H as [H ?]. apply check_nil_generation in H as [H ?]. apply check_nil_timing in H as [H ?].
  repeat (split; [done|]). intros He. rewrite He in Hs. unfold is_zero in Hs. by apply bool_decide_eq_false in Hs.
Qed.

(** The sidecar and the operator's [release] command read the same release
    settings: whenever both loaders accept the environment they produce the
    same settings, defaults included, so that the command releases by the rules
    the sidecar runs under; and settings the sidecar validated are valid for
    the command. *)
Theorem release_loaders_agree c rc : Load = Ok c -> ConfigFromEnv = Ok rc ->
  buildReleaseConfig (release c) = rc /\ (Validate c = [] -> ReleaseConfig.Config_Validate rc = []).
Proof.
  intros (_ & _ & _ & _ & _ & _ & _ & Hr & _)%Load_groups Hc%settled_ok.
  pose proof (release_settings_agree _ _ Hr Hc) as <-. split; [done|]. intros (_ & _ & _ & _ & _ & _ & Hv & _)%Validate_nil. exact Hv.
Qed.

(** ** What a validated configuration guarantees *)

(** Numbers are in range, whether or not they are validated. *)
Lemma parseDuration_range key text d x : ParseDuration text = Ok d -> silent (parseDuration key text) x -> is_i64 x.
Proof.
  unfold silent, parseDuration, envOrDefault. intros Hd. destruct (is_empty (Getenv key)).
  - rewrite Hd. intros [= <-]. by eapply ParseDuration_range.
  - destruct (ParseDuration (Getenv key)) eqn:E; [|done]. intros [= <-]. by eapply ParseDuration_range.
Qed.
Lemma parseInt_range key d x : is_i64 d -> silent (parseInt key d) x -> is_i64 x.
Proof.
  unfold silent, parseInt. intros Hd. destruct (is_empty (Getenv key)); [by intros [= <-]|].
  destruct (SetString (Getenv key)) as [v|]; [|done]. destruct (IsInt64 v) eqn:E; [|done]. intros [= <-].
  unfold IsInt64 in E. reflect_Z. by split.
Qed.
Lemma parseUint64_range key d x : is_u64 d -> silent (parseUint64 key d) x -> is_u64 x.
Proof.
  unfold silent, parseUint64. intros Hd. destruct (is_empty (Getenv key)); [by intros [= <-]|].
  destruct (SetString (Getenv key)) as [v|]; [|done]. destruct (v <? 0); [done|]. destruct (IsUint64 v) eqn:E; [|done].
  intros [= <-]. unfold IsUint64 in E. reflect_Z. by split.
Qed.

(** The options of a model that may be applied to a request. *)
Record sound_options (o : ClientOptions) : Prop := {
  so_predict : NumPredict o = 0 \/ -2 <= NumPredict o;
  so_ctx : 0 <= NumCtx o;
  so_level : ThinkLevel o ∈ [""; "low"; "medium"; "high"]%string;
  so_temperature : forall v, Temperature o = Some v -> float_negative v = false /\ float_above_two v = false;
  so_rest : KeepAlive o = EmptyString /\ Think o = None /\ Format o = None;
}.

Lemma set_option_sound key value o o' : sound_options o -> set_option key value o = Some o' -> sound_options o'.
Proof.
  intros [? ? ? ? ?]. unfold set_option. repeat (case_bool_decide; [|try done]).
  - destruct (Atoi value) as [v|]; [|done]. destruct (_ || _) eqn:E; [done|]. intros [= <-]. reflect_Z. split; cbn; auto with lia.
  - destruct (Atoi value) as [v|]; [|done]. destruct (Z.leb_spec v 0); [done|]. intros [= <-]. split; cbn; auto with lia.
  - destruct (ParseFloat value) as [v|]; [|done]. destruct (_ || _) eqn:E; [done|]. intros [= <-]. reflect_Z. split; cbn; auto. by intros ? [= <-].
  - intros [= <-]. split; cbn; auto. set_solver.
Qed.

Lemma parse_pairs_sound name kvs : forall s errs, sound_options (e_opts s) -> sound_options (e_opts (fst (parse_pairs name kvs s errs))).
Proof.
  induction kvs as [|kv kvs IH]; intros s errs Hs; [done|]. cbn [parse_pairs]. unfold st_bind.
  assert (sound_options (e_opts (fst (parse_pair name kv s errs)))) as H1.
  { unfold parse_pair, st_bind, st_ret, complain. destruct (Cut _ _) as [[key value]|]; [|done].
    destruct (_ || _); [done|]. case_bool_decide; [done|]. cbn [e_opts]. destruct (set_option key value (e_opts s)) eqn:E; [|done].
    by eapply set_option_sound. }
  destruct (parse_pair name kv s errs) as [s' errs']. by apply IH.
Qed.

(** Options are for supported models only. *)
Definition sound_map (supported : list string) (out : gmap string ClientOptions) : Prop :=
  forall name o, out !! name = Some o -> name ∈ supported /\ sound_options o.

Lemma no_options_sound : sound_options no_options.
Proof. split; cbn; auto; [lia|set_solver|done]. Qed.

Lemma parse_entry_sound ms e out errs : sound_map ms out -> sound_map ms (fst (parse_entry ms e out errs)).
Proof.
  intros Hs. unfold parse_entry, st_bind, st_ret, complain. destruct (is_empty _); [done|].
  destruct (cutLast _ _) as [[name kvs]|]; [|done]. destruct (_ || _); [done|].
  case_bool_decide as Hin; cbn [negb]; [|done]. case_bool_decide; [done|].
  pose proof (parse_pairs_sound (TrimSpace name) (Split kvs ","%char) (MkEntry no_options [] true) errs no_options_sound) as Hp.
  destruct (parse_pairs _ _ _ errs) as [s errs']. cbn [fst] in *. destruct (e_ok s); [|done].
  intros n o. destruct (decide (n = TrimSpace name)) as [->|]; [rewrite lookup_insert_eq; by intros [= <-]|rewrite lookup_insert_ne by done; apply Hs].
Qed.

Lemma parse_entries_sound ms es : forall out errs, sound_map ms out -> sound_map ms (fst (parse_entries ms es out errs)).
Proof.
  induction es as [|e es IH]; intros out errs Hs; [done|]. cbn [parse_entries]. unfold st_bind.
  pose proof (parse_entry_sound ms e out errs Hs) as H1. destruct (parse_entry ms e out errs) as [out' errs']. by apply IH.
Qed.

Lemma parseModelOptions_sound raw ms errs : sound_map ms (fst (parseModelOptions raw ms errs)).
Proof.
  assert (sound_map ms ∅) as H0 by by intros n o ?%lookup_empty_Some.
  unfold parseModelOptions, st_bind. cbv zeta. destruct (is_empty _); [done|].
  pose proof (parse_entries_sound ms (Split (TrimSpace raw) ";"%char) ∅ errs H0) as H1.
  destruct (parse_entries _ _ _ errs) as [out errs']. cbn [fst] in *. by case_bool_decide.
Qed.

(** The parts of a usable configuration. *)
Record usable_chain (c : Chain) : Prop := {
  uc_id : 0 < ChainID c <= i64_max;
  uc_addresses : Forall (fun a => a <> zero_address) [WorkerRegistryAddress c; AIConfigAddress c; JobRegistryAddress c];
  uc_multiplier : 0 < GasPriceMultiplierBps c <= i64_max;
  uc_max_gas : exists g, MaxGasPrice c = Some g /\ 0 < g;
  uc_models : SupportedModels c <> [] /\ EmptyString ∉ SupportedModels c;
}.
Record usable_timing (p : Plain) (g : Timing) : Prop := {
  ut_durations : Forall (fun d => 0 < d <= i64_max)
    [HeartbeatInterval g; ShutdownTimeout g; OllamaTimeout g; AckTxTimeout g; BlobTxTimeout g; BlobFetchTimeout g;
     ReceiptPollInterval g; RedisPublishTimeout g];
  ut_drain : 0 <= DrainTTLOverride g <= i64_max /\ 0 <= DrainSlack g <= i64_max;
  ut_counts : 0 < MaxConcurrentJobs g <= i64_max /\ 0 < BlobFetchRetries g <= i64_max;
  ut_search : SearchEnabled g = true ->
    TavilyAPIKey p <> EmptyString /\ 0 < SearchTimeout g <= i64_max /\ 0 < SearchMaxResults g <= i64_max;
}.
Record usable_voice (v : Voice) : Prop := {
  uv_stt : STTEnabled v = true -> sidecar_url_ok (STTSidecarURL v) = true /\ 0 < STTTimeout v <= i64_max;
  uv_tts : TTSEnabled v = true ->
    sidecar_url_ok (TTSSidecarURL v) = true /\ 0 < TTSTimeout v <= i64_max /\ 0 <= TTSMaxChars v <= i64_max;
}.
Record usable_upkeep (p : Plain) (u : Upkeep) : Prop := {
  uu_nonce : 0 < StuckNonceThreshold u <= i64_max /\ 0 < StuckNonceMaxBumps u <= i64_max;
  uu_metrics : listen_addr_ok (MetricsListenAddr p) (MetricsAllowPublic u) = true;
  uu_format : LogFormat p ∈ ["json"; "text"]%string;
}.
Record usable_generation (models : list string) (g : Generation) : Prop := {
  ug_predict : 0 < OllamaNumPredict g \/ OllamaNumPredict g = -1 \/ OllamaNumPredict g = -2;
  ug_ctx : 0 <= OllamaNumCtx g;
  ug_chunks : 0 < StreamChunkTokens g /\ 0 < StreamChunkInterval g;
  ug_options : sound_map models (ModelOptions g);
}.
(** The completion floor lies below the settlement reserve, so a job the guard
    lets through can reach both. *)
Definition usable_guard (g : Guard) : Prop :=
  DeadlineGuardEnabled g = true ->
  0 < CompletionReserve g < SettleReserve g /\ SettleReserve g <= i64_max /\ 0 < MinInferenceBudget g <= i64_max.

(** Every number of a configuration, by the Go type that holds it: [int],
    [int64] and [time.Duration], and [uint64]. The gas price cap is a [big.Int]. *)
Definition signed (c : t) : list Z :=
  [ChainID (chain c); GasPriceMultiplierBps (chain c)] ++
  (let g := timing c in
   [HeartbeatInterval g; ShutdownTimeout g; DrainTTLOverride g; DrainSlack g; OllamaTimeout g; SearchTimeout g;
    SearchMaxResults g; AckTxTimeout g; BlobTxTimeout g; BlobFetchTimeout g; ReceiptPollInterval g;
    RedisPublishTimeout g; MaxConcurrentJobs g; BlobFetchRetries g]) ++
  (let g := generation c in
   [OllamaNumPredict g; OllamaNumCtx g; OllamaReasoningNumPredict g; StreamChunkTokens g; StreamChunkInterval g]) ++
  [SettleReserve (guard c); CompletionReserve (guard c); MinInferenceBudget (guard c)] ++
  [STTTimeout (voice c); TTSMaxChars (voice c); TTSTimeout (voice c)] ++
  (let u := upkeep c in [StuckNonceThreshold u; StuckNonceMaxBumps u; CheckpointTTL u; CheckpointMaxBytes u]) ++
  (let r := release c in
   [ReleaseInterval r; ReleaseProbeInterval r; ReleaseBatchThreshold r; ReleaseMaxBatchSize r; ReleaseTxTimeout r;
    ReleaseReconcileInterval r; ReleaseBackoffBase r; ReleaseBackoffMax r; ReleasePausedCycleBackoff r;
    ReleaseStaleDisputeWarnAfter r; ReleaseDisputeWindowOverride r; ReleaseDisputeWindowCacheTTL r]) ++
  [SortitionPollInterval (sortition c); SortitionSessionRetryLimit (sortition c)].
Definition unsigned (c : t) : list Z :=
  [ReleaseStartBlock (release c); ReleaseChunkSize (release c); ReleaseConfirmations (release c);
   SortitionChunkSize (sortition c); SortitionConfirmations (sortition c); SortitionSessionLookbackBlocks (sortition c)].

Record usable (c : t) : Prop := {
  us_keystore : WorkerKeystorePath (plain c) <> EmptyString /\ WorkerKeystorePassword (plain c) <> EmptyString;
  us_chain : usable_chain (chain c);
  us_timing : usable_timing (plain c) (timing c);
  us_generation : usable_generation (SupportedModels (chain c)) (generation c);
  us_guard : usable_guard (guard c);
  us_voice : usable_voice (voice c);
  us_upkeep : usable_upkeep (plain c) (upkeep c);
  us_release : ReleaseStatePath (release c) <> EmptyString /\
    (ReleaseEnabled (release c) = true -> ReleaseConfig.valid (buildReleaseConfig (release c)));
  us_sortition : SortitionEnabled (sortition c) = true -> SessionManagerAddress (sortition c) <> zero_address;
  us_machine : Forall is_i64 (signed c) /\ Forall is_u64 (unsigned c);
}.

(** Each number that was read is in its range; the range of a duration by the
    text of its default. *)
Ltac ranges :=
  repeat match goal with
  | H : silent (parseDuration ?k _) ?x |- _ =>
      let R := fresh "R" in assert (is_i64 x) as R by (refine (parseDuration_range k _ _ x _ H); vm_compute; reflexivity); clear H
  | H : silent (parseInt ?k _) ?x |- _ =>
      let R := fresh "R" in assert (is_i64 x) as R by (refine (parseInt_range k _ x _ H); done); clear H
  | H : silent (parseUint64 ?k _) ?x |- _ =>
      let R := fresh "R" in assert (is_u64 x) as R by (refine (parseUint64_range k _ x _ H); done); clear H
  | H : silent (parseBool _ _) _ |- _ => clear H
  | H : silent (complain_if ?c _) _ |- _ => destruct c eqn:?; [done|clear H]
  end.

Lemma max_gas_positive x : silent load_max_gas x -> exists g, x = Some g /\ 0 < g.
Proof.
  unfold silent, load_max_gas. destruct (is_empty _); [intros [= <-]; by eexists|].
  destruct (SetString _) as [v|]; [|done]. destruct (Z.leb_spec v 0); [done|]. intros [= <-]. eauto.
Qed.

Lemma models_nonempty x : silent load_models x -> EmptyString ∉ x.
Proof.
  unfold silent, load_models, st_bind. destruct (is_empty _); [done|].
  destruct (complain_if _ _ _) as [[] errs]. intros [= <- _]. unfold split_models. rewrite list_elem_of_filter. by intros [].
Qed.

Lemma chain_id_range x : silent load_chain_id x -> is_i64 x.
Proof.
  unfold silent, load_chain_id. destruct (is_empty _); [done|]. destruct (SetString _) as [v|]; [|done].
  destruct (IsInt64 v) eqn:E; [|done]. intros [= <-]. unfold IsInt64 in E. reflect_Z. by split.
Qed.

Lemma usable_chain_ok p c : silent load_chain c -> check_chain p c [] = [] -> 0 < GasPriceMultiplierBps c -> usable_chain c.
Proof.
  unfold load_chain, check_chain, is_zero. intros Hl Hc Hg. hush. subst c. cbn in *. rewrite !fail_if_nil in Hc.
  destruct Hc as (Hm & Hj & Ha & Hw & Hid & _). apply bool_decide_eq_false in Hm, Hj, Ha, Hw. ranges.
  repeat match goal with
  | H : silent load_chain_id ?x |- _ => apply chain_id_range in H
  | H : silent load_max_gas ?x |- _ => apply max_gas_positive in H
  | H : silent load_models ?x |- _ => apply models_nonempty in H
  end.
  reflect_Z. unfold is_i64 in *. split; cbn; try done; try lia. repeat (apply Forall_cons_2; [done|]). done.
Qed.

Lemma usable_timing_ok p c g : silent load_timing g -> check_timing p c g [] = [] -> usable_timing p g /\ 0 < GasPriceMultiplierBps c.
Proof.
  unfold load_timing, check_timing. intros Hl Hc. hush. subst g. cbn in *.
  match type of Hc with context [if ?b then fail_if _ _ _ else _] => destruct b end; rewrite !fail_if_nil in Hc;
    destruct_and!; ranges; reflect_Z; unfold is_i64, is_empty in *;
    (split; [split; cbn; [repeat (apply Forall_cons_2; [lia|]); done|lia|lia|]|lia]); [|done].
  intros _. rewrite bool_decide_eq_false in *. split; [done|lia].
Qed.

Lemma usable_voice_ok v : silent load_voice v -> check_voice v [] = [] -> usable_voice v.
Proof.
  unfold load_voice, check_voice. intros Hl Hc. hush. subst v. cbn in *.
  split; cbn; intros ->; [destruct x1|]; rewrite !fail_if_nil in Hc; destruct_and!; ranges; reflect_Z; unfold is_i64 in *;
    rewrite ?negb_false_iff in *; repeat split; try assumption; lia.
Qed.

Lemma usable_upkeep_ok p u : silent load_upkeep u -> check_upkeep p u [] = [] -> usable_upkeep p u.
Proof.
  unfold load_upkeep, check_upkeep. intros Hl Hc. hush. subst u. cbn in *. rewrite !fail_if_nil in Hc.
  destruct Hc as (Ha & Hb & Ht & Hf & _). rewrite negb_false_iff in Ha.
  assert (LogFormat p ∈ ["json"; "text"]%string) as Hl.
  { apply andb_false_iff in Hf as [Hf|Hf]; rewrite negb_false_iff, bool_decide_eq_true in Hf; rewrite Hf; set_solver. }
  clear Hf. ranges. reflect_Z. unfold is_i64 in *. split; cbn; [split; lia|done|done].
Qed.

(** The range of every number, read group by group. *)
Lemma machine_numbers c : Load = Ok c -> Forall is_i64 (signed c) /\ Forall is_u64 (unsigned c).
Proof.
  intros (_ & Hc & Ht & Hg & Hd & Hv & Hu & Hr & Hs)%Load_groups. destruct c as [p c g n d v u r s]. cbn in *.
  unfold load_chain, load_timing, load_generation, load_guard, load_voice, load_upkeep, load_release, load_sortition in *.
  hush. subst. ranges. match goal with H : silent load_chain_id _ |- _ => apply chain_id_range in H end.
  split; cbn; repeat (apply Forall_cons_2; [done|]); done.
Qed.

Lemma usable_generation_ok ms g : silent (load_generation ms) g -> check_generation g [] = [] -> usable_generation ms g.
Proof.
  unfold load_generation, check_generation. intros Hl Hc. hush. subst g. cbn in *. rewrite !fail_if_nil in Hc.
  match goal with H : silent (parseModelOptions ?r ms) ?x |- _ => pose proof (parseModelOptions_sound r ms []) as Hs; rewrite H in Hs end.
  destruct_and!. reflect_Z. split; cbn; try done; lia.
Qed.

Lemma usable_guard_ok g : silent load_guard g -> check_guard g [] = [] -> usable_guard g.
Proof.
  unfold load_guard, check_guard, usable_guard. intros Hl Hc. hush. subst g. cbn in *. intros ->. rewrite !fail_if_nil in Hc.
  destruct_and!. ranges. reflect_Z. unfold is_i64 in *. lia.
Qed.

Lemma Validate_paths c : Validate c = [] ->
  (WorkerKeystorePath (plain c) <> EmptyString /\ WorkerKeystorePassword (plain c) <> EmptyString) /\
  ReleaseStatePath (release c) <> EmptyString.
Proof.
  unfold Validate, check_sortition. cbv zeta. rewrite fail_if_nil. intros [_ H].
  assert (ReleaseStatePath (release c) <> EmptyString) as Hp.
  { unfold check_release in H. destruct (ReleaseEnabled _); no_complaints H; unfold is_empty in *;
      rewrite bool_decide_eq_false in *; done. }
  split; [|done]. apply check_release_nil in H as [H _]. apply check_nil_upkeep in H as [H _]. apply check_nil_voice in H as [H _].
  apply check_nil_guard in H as [H _]. apply check_nil_generation in H as [H _]. apply check_nil_timing in H as [H _].
  unfold check_chain, is_empty in H. cbv zeta in H. rewrite !fail_if_nil in H. destruct_and!. rewrite bool_decide_eq_false in *. done.
Qed.

Lemma loaded_usable c : Load = Ok c -> Validate c = [] -> usable c.
Proof.
  intros Hl Hv. pose proof (machine_numbers c Hl) as Hm.
  apply Load_groups in Hl as (_ & Hc & Ht & Hg & Hd & Hvo & Hu & Hr & Hs). pose proof (Validate_paths c Hv) as [Hk Hp].
  apply Validate_nil in Hv as (Vc & Vt & Vg & Vd & Vv & Vu & Vr & Vs).
  destruct (usable_timing_ok _ _ _ Ht Vt) as [Ut Hb].
  split; [done|by eapply usable_chain_ok|done|by apply usable_generation_ok|by apply usable_guard_ok|by apply usable_voice_ok
    |by apply usable_upkeep_ok| |done|done].
  split; [done|]. intros He. by apply ReleaseConfig.Validate_spec.
Qed.

(** C32. A configuration that loads and validates is one the worker can run on.
    The key store has a path and a password; the chain id, the gas multiplier
    and the gas price cap are positive and the contract addresses are set; at
    least one model is served and none without a name; the timeouts, intervals
    and counts of the job pipeline, of stuck-nonce repair and, where they are
    enabled, of the web search and of the voice sidecars are positive (the
    drain settings and the limit on spoken text non-negative), and the
    sidecars' addresses can be dialled; per-model options are for supported
    models only and in range (a temperature neither below zero nor above two,
    which a NaN is not either); with the deadline guard on the completion floor
    lies below the settlement reserve; with release on its settings satisfy
    what its loops rely on; with sortition on its contract is set; and every
    number fits the Go type that holds it. The reasoning budget, the checkpoint
    limits and sortition's poll interval and retry limit are not validated, so
    for those only the last holds. *)
Theorem loaded_config_is_usable c : Load = Ok c -> Validate c = [] -> usable c.
Proof. apply loaded_usable. Qed.
End Load.

(** ** A concrete environment *)
Definition demo_env (key : string) : string :=
  default EmptyString (list_to_map (M := gmap string string) [
    ("WORKER_KEYSTORE_PATH", "key.json"); ("WORKER_KEYSTORE_PASSWORD", "pw"); ("CHAIN_ID", "9200");
    ("WORKER_REGISTRY_ADDRESS", "0xa"); ("AI_CONFIG_ADDRESS", "0xb"); ("JOB_REGISTRY_ADDRESS", "0xc");
    ("SUPPORTED_MODELS", "llama3:8b, ,qwen3"); ("MODEL_OPTIONS", "llama3:8b:num_ctx=8192;qwen3:think=low,num_predict=-1");
    ("RELEASE_INTERVAL", "4h30m"); ("RELEASE_BATCH_THRESHOLD", "10")]%string !! key).
Definition plain_text : ConfigText := {|
  ParseFloat := fun _ => Ok 0; SplitHost := fun s => Ok s; IsLoopbackIP := fun _ => true;
  Keccak256 := fun s => implode (explode s ++ replicate (32 - String.length s) Ascii.zero);
|}.
#[local] Existing Instances plain_addresses plain_urls plain_text.

Definition demo_config : t := fst (load_all demo_env []).
Definition demo_release : ReleaseConfig.Config := fst (release_from_env demo_env []).

Lemma release_loaders_agree_witness : buildReleaseConfig (release demo_config) = demo_release /\ ReleaseConfig.Config_Validate demo_release = [].
Proof.
  destruct (release_loaders_agree demo_env demo_config demo_release) as [H1 H2]; [vm_compute; reflexivity|vm_compute; reflexivity|].
  split; [exact H1|]. apply H2. vm_compute. reflexivity.
Defined.

Lemma loaded_config_is_usable_witness : usable demo_config.
Proof. apply (loaded_config_is_usable demo_env); vm_compute; reflexivity. Defined.

(** Spellings one loader of the release settings takes and the other refuses. *)
Definition with_setting (k v key : string) : string := if bool_decide (key = k) then v else demo_env key.
Example loaders_disagree :
  (forall kv, kv ∈ [("RELEASE_ENABLED", "yes"); ("RELEASE_RECONCILE_CHUNK_SIZE", "+5000"); ("RELEASE_ENABLED", " true ")]%string ->
    is_ok (Load (with_setting kv.1 kv.2)) = true /\ is_ok (ConfigFromEnv (with_setting kv.1 kv.2)) = false) /\
  is_ok (Load (with_setting "RELEASE_ENABLED" "t")) = false /\ is_ok (ConfigFromEnv (with_setting "RELEASE_ENABLED" "t")) = true.
Proof.
  split; [|vm_compute; done]. intros kv Hin. rewrite !elem_of_cons, elem_of_nil in Hin.
  destruct Hin as [->|[->|[->|[]]]]; vm_compute; done.
Qed.

(** A poll interval that no ticker accepts passes both. *)
Example negative_poll_interval :
  let loaded := load_all (with_setting "SORTITION_POLL_INTERVAL" "-1s") [] in
  snd loaded = [] /\ Validate (fst loaded) = [] /\ SortitionPollInterval (sortition (fst loaded)) = - Second.
Proof. vm_compute. repeat split; reflexivity. Qed.

(** A temperature that is not a number passes the range check. *)
Example nan_passes : float_negative 0x7FF8000000000001 = false /\ float_above_two 0x7FF8000000000001 = false.
Proof. done. Qed.
End Config.
