(* ===== verification/Models.v ===== *)
(** Model identifiers: the 32 bytes a model has on chain, by name or in
    hexadecimal ([ParseModelID] of [internal/config/config.go], the operator's
    [internal/cli/models.go]), the tables the sidecar builds of them at its
    start ([New] of [internal/service/service.go]), and the lookup of a queued
    job's model in these tables. *)
From Stdlib Require Import Ascii.
From S2P Require Import Prelude GoText Checkpoint JobCalls Inference Dial EnvText Config.

Module Models.
Section Ids.
Context `{T : ConfigText}.

(** A model id: 32 bytes. [copy] into an array cuts or leaves zeros. *)
Abbreviation modelID := chars.
Definition to_array (b : chars) : modelID := resize 32 Ascii.zero b.

Definition ParseModelID (s : string) : result modelID :=
  if String.prefix "0x" s || String.prefix "0X" s then
    let hex := String.substring 2 (String.length s - 2) s in
    if negb (String.length hex =? 64)%nat then Err (errorf "ParseModelID: hex model ID must be 64 hex chars")
    else
      match hexDecode hex with
      | Err e => Err (wrap "ParseModelID: invalid hex" e)
      | Ok b => Ok (to_array b)
      end
  else Ok (to_array (explode (Keccak256 s))).

Definition modelIDToHex (id : modelID) : string := "0x" +:+ EncodeToString id.

(** [ParseAndDeduplicateModelIDs]; [seen] and [ids] hold the same elements. *)
Fixpoint dedup_ids (models : list string) (ids : list modelID) : result (list modelID) :=
  match models with
  | [] => Ok ids
  | s :: models =>
      match ParseModelID s with
      | Err e => Err (wrap "parse model" e)
      | Ok id => if bool_decide (id ∈ ids) then Err (errorf "duplicate model ID") else dedup_ids models (ids ++ [id])
      end
  end.
Definition ParseAndDeduplicateModelIDs (models : list string) : result (list modelID) := dedup_ids models [].

(** The sidecar parses all ids and only then looks for duplicates. *)
Fixpoint parse_ids (models : list string) : result (list modelID) :=
  match models with
  | [] => Ok []
  | s :: models =>
      match ParseModelID s with
      | Err e => Err (wrap "parse model ID" e)
      | Ok id => match parse_ids models with Err e => Err e | Ok ids => Ok (id :: ids) end
      end
  end.
Fixpoint has_duplicate (ids seen : list modelID) : bool :=
  match ids with
  | [] => false
  | id :: ids => bool_decide (id ∈ seen) || has_duplicate ids (id :: seen)
  end.

(** The ids for the chain, their text for the heartbeat, and the names behind
    both spellings of each. *)
Record tables : Type := MkTables { modelIDs : list modelID; modelHexStrings : list string; names : gmap string string }.
Definition add_name (m : gmap string string) (entry : modelID * string) : gmap string string :=
  let modelHex := modelIDToHex entry.1 in
  <[TrimPrefix "0x" (to_lower modelHex) := entry.2]> (<[to_lower modelHex := entry.2]> m).
Definition build_tables (supported : list string) : result tables :=
  match parse_ids supported with
  | Err e => Err e
  | Ok ids =>
      if has_duplicate ids [] then Err (errorf "duplicate model ID in SUPPORTED_MODELS")
      else Ok (MkTables ids (modelIDToHex <$> ids) (foldl add_name ∅ (zip ids supported)))
  end.

(** ** Parsing *)
Lemma ParseModelID_length s id : ParseModelID s = Ok id -> length id = 32%nat.
Proof.
  unfold ParseModelID, to_array. destruct (_ || _).
  - destruct (negb _); [done|]. destruct (hexDecode _); [|done]. intros [= <-]. apply length_resize.
  - intros [= <-]. apply length_resize.
Qed.

Lemma ParseModelID_hex id : length id = 32%nat -> ParseModelID (modelIDToHex id) = Ok id.
Proof.
  intros Hl. unfold ParseModelID, modelIDToHex. set (hex := EncodeToString id).
  assert (String.length hex = 64%nat) as Hx by (unfold hex; rewrite <- length_explode, length_encode, Hl; done).
  change (String.prefix "0x" ("0x" +:+ hex)) with (String.prefix "" hex).
  replace (String.prefix "" hex) with true by by destruct hex. cbn [orb].
  change (String.substring 2 (String.length ("0x" +:+ hex) - 2) ("0x" +:+ hex)) with (String.substring 0 (String.length hex - 0) hex).
  rewrite Nat.sub_0_r, substring_whole, Hx. cbn [Nat.eqb negb]. unfold hex. rewrite hexDecode_encode.
  unfold to_array. by rewrite resize_all_alt.
Qed.

(** ** Duplicates *)
Lemma dedup_ids_spec models : forall ids out, NoDup ids -> dedup_ids models ids = Ok out <->
  exists new, parse_ids models = Ok new /\ out = ids ++ new /\ NoDup out.
Proof.
  induction models as [|s models IH]; intros ids out Hn; cbn [dedup_ids parse_ids].
  - split; [intros [= <-]; exists []; by rewrite app_nil_r|]. intros (new & [= <-] & -> & _). by rewrite app_nil_r.
  - destruct (ParseModelID s) as [id|e]; [|split; [done|by intros (? & ? & _)]].
    case_bool_decide as Hin.
    + split; [done|]. intros (new & Hp & -> & Hd). destruct (parse_ids models); [|done]. injection Hp as <-.
      apply NoDup_app in Hd as (_ & Hd & _). exfalso. apply (Hd id Hin). left.
    + rewrite IH by (apply NoDup_app; split; [done|split; [|apply NoDup_singleton]]; intros x ? ->%list_elem_of_singleton; done).
      split.
      * intros (new & -> & -> & Hd). exists (id :: new). by rewrite <- app_assoc in Hd |- *.
      * intros (new & Hp & -> & Hd). destruct (parse_ids models) as [rest|]; [|done]. injection Hp as <-.
        exists rest. by rewrite <- app_assoc.
Qed.

Lemma has_duplicate_false ids : forall seen, NoDup seen -> has_duplicate ids seen = false <-> NoDup (ids ++ seen).
Proof.
  induction ids as [|id ids IH]; intros seen Hn; cbn [has_duplicate app]; [done|].
  rewrite NoDup_cons. rewrite orb_false_iff, bool_decide_eq_false. split.
  - intros [Hs Hd]. rewrite IH in Hd by by apply NoDup_cons. rewrite <- Permutation_middle, NoDup_cons in Hd. done.
  - intros [Hi Hd]. rewrite elem_of_app in Hi. split; [tauto|]. rewrite IH.
    + rewrite <- Permutation_middle, NoDup_cons, elem_of_app. done.
    + apply NoDup_cons. split; [tauto|]. by apply NoDup_app in Hd as (_ & _ & ?).
Qed.

(** Model ids survive printing and parsing, the operator's command accepts
    a list of them exactly when none is repeated and keeps their order, and for
    any list of names the sidecar accepts the same lists as the command and
    derives the same ids. *)
Theorem model_ids_agree models ids :
  (Forall (fun id => length id = 32%nat) ids ->
     ParseAndDeduplicateModelIDs (modelIDToHex <$> ids) = Ok ids <-> NoDup ids) /\
  (ParseAndDeduplicateModelIDs models = Ok ids <-> exists t, build_tables models = Ok t /\ modelIDs t = ids).
Proof.
  split.
  - intros Hl. unfold ParseAndDeduplicateModelIDs. rewrite dedup_ids_spec by constructor.
    assert (parse_ids (modelIDToHex <$> ids) = Ok ids) as ->.
    { induction Hl as [|id ids Hi _ IH]; [done|]. cbn. rewrite ParseModelID_hex by done. by rewrite IH. }
    split; [by intros (? & _ & _ & ?)|]. intros. by exists ids.
  - unfold ParseAndDeduplicateModelIDs, build_tables. rewrite dedup_ids_spec by constructor.
    destruct (parse_ids models) as [new|e]; [|split; [by intros (? & ? & _)|by intros (? & ? & _)]].
    pose proof (has_duplicate_false new [] (NoDup_nil_2)) as Hd. rewrite app_nil_r in Hd.
    split.
    + intros (new' & [= <-] & -> & Hn). apply Hd in Hn as ->. by eexists.
    + intros (t & Ht & <-). destruct (has_duplicate new []); [done|]. injection Ht as <-. exists new. cbn. repeat split; try done. by apply Hd.
Qed.

(** ** The lookup of a queued job's model *)

(** The text of bytes in hexadecimal is in lower case and has no letter x. *)
Definition plain_hex (c : Ascii.ascii) : Prop := ascii_lower c = c /\ c <> "x"%char /\ c <> "X"%char.
Lemma hex_digit_plain n : plain_hex (hex_digit (Z.land n 15)).
Proof.
  assert (exists k, (k < 16)%nat /\ Z.land n 15 = Z.of_nat k) as (k & Hk & ->).
  { change 15 with (Z.ones 4). rewrite Z.land_ones by lia. pose proof (Z.mod_pos_bound n (2 ^ 4)). exists (Z.to_nat (n mod 2 ^ 4)). lia. }
  do 16 (destruct k as [|k]; [done|]). lia.
Qed.
Lemma byte_high (c : Ascii.ascii) : Z.shiftr (Z.of_nat (Ascii.nat_of_ascii c)) 4 = Z.land (Z.shiftr (Z.of_nat (Ascii.nat_of_ascii c)) 4) 15.
Proof.
  change 15 with (Z.ones 4). rewrite Z.land_ones, Z.shiftr_div_pow2 by lia. symmetry. apply Z.mod_small.
  pose proof (Ascii.nat_ascii_bounded c). split; [apply Z.div_pos; lia|apply Z.div_lt_upper_bound; lia].
Qed.
Lemma EncodeToString_plain b : Forall plain_hex (explode (EncodeToString b)).
Proof.
  unfold EncodeToString. rewrite String.list_ascii_of_string_of_list_ascii. induction b as [|c b IH]; [by apply Forall_nil_2|].
  cbn [flat_map app]. apply Forall_cons_2; [rewrite byte_high; apply hex_digit_plain|]. by apply Forall_cons_2; [apply hex_digit_plain|].
Qed.

Lemma to_lower_plain s : Forall plain_hex (explode s) -> to_lower s = s.
Proof.
  induction s as [|c s IH]; [done|]. cbn. intros [[-> _] H]%Forall_cons_1. by rewrite IH.
Qed.
Lemma TrimPrefix_plain x s : x = "x"%char \/ x = "X"%char -> Forall plain_hex (explode s) -> TrimPrefix (String "0" (String x "")) s = s.
Proof.
  intros Hx Hs. unfold TrimPrefix. replace (String.prefix _ s) with false; [done|]. symmetry.
  destruct s as [|c [|c' s]]; [done|by cbn; case_match|]. cbn in Hs |- *.
  apply Forall_cons_1 in Hs as [_ [[_ [? ?]] _]%Forall_cons_1].
  repeat (case_match; try done); subst; destruct Hx; congruence.
Qed.
Lemma TrimPrefix_0x s : TrimPrefix "0x" ("0x" +:+ s) = s.
Proof.
  unfold TrimPrefix. change (String.prefix "0x" ("0x" +:+ s)) with (String.prefix "" s). replace (String.prefix "" s) with true by by destruct s.
  change (String.substring _ _ _) with (String.substring 0 (String.length s - 0) s). by rewrite Nat.sub_0_r, substring_whole.
Qed.

Lemma normalize_hex b : Inference.normalizeModelLookupKey (EncodeToString b) = EncodeToString b.
Proof.
  unfold Inference.normalizeModelLookupKey. rewrite (TrimPrefix_plain "x"), (TrimPrefix_plain "X") by auto using EncodeToString_plain.
  apply to_lower_plain, EncodeToString_plain.
Qed.
Lemma normalize_modelIDToHex b : Inference.normalizeModelLookupKey (modelIDToHex b) = EncodeToString b.
Proof.
  unfold Inference.normalizeModelLookupKey, modelIDToHex. rewrite TrimPrefix_0x, (TrimPrefix_plain "X") by auto using EncodeToString_plain.
  apply to_lower_plain, EncodeToString_plain.
Qed.
Lemma to_lower_modelIDToHex b : to_lower (modelIDToHex b) = modelIDToHex b.
Proof. unfold modelIDToHex. change (to_lower ("0x" +:+ ?s)) with ("0x" +:+ to_lower s). by rewrite to_lower_plain by apply EncodeToString_plain. Qed.
Lemma EncodeToString_inj b b' : EncodeToString b = EncodeToString b' -> b = b'.
Proof. intros H. pose proof (hexDecode_encode b) as H1. rewrite H, hexDecode_encode in H1. by injection H1. Qed.

Lemma add_name_alt m e : add_name m e = <[EncodeToString e.1 := e.2]> (<[modelIDToHex e.1 := e.2]> m).
Proof. unfold add_name. rewrite to_lower_modelIDToHex. unfold modelIDToHex at 1. by rewrite TrimPrefix_0x. Qed.

Lemma names_inv l k v : foldl add_name ∅ l !! k = Some v -> exists id, (id, v) ∈ l /\ Inference.normalizeModelLookupKey k = EncodeToString id.
Proof.
  induction l as [|[id n] l IH] using rev_ind; [done|]. rewrite foldl_snoc, add_name_alt. cbn [fst snd].
  intros [[<- <-]|[_ [[<- <-]|[_ H]]%lookup_insert_Some]]%lookup_insert_Some.
  - exists id. split; [set_solver|apply normalize_hex].
  - exists id. split; [set_solver|apply normalize_modelIDToHex].
  - apply IH in H as (id' & ? & ?). exists id'. split; [set_solver|done].
Qed.

Lemma pair_unique {X Y} (l : list (X * Y)) x y y' : NoDup l.*1 -> (x, y) ∈ l -> (x, y') ∈ l -> y = y'.
Proof.
  intros Hn [i Hi]%list_elem_of_lookup [j Hj]%list_elem_of_lookup.
  assert (i = j) as <- by (eapply (NoDup_lookup l.*1 i j x Hn); by rewrite list_lookup_fmap, ?Hi, ?Hj). congruence.
Qed.

(** The keys of one id are there, with its name. *)
Lemma names_dom l id v : (id, v) ∈ l -> exists w, foldl add_name ∅ l !! modelIDToHex id = Some w.
Proof.
  induction l as [|[id' n] l IH] using rev_ind; [by intros ?%not_elem_of_nil|]. rewrite foldl_snoc, add_name_alt. cbn [fst snd]. intros Hin.
  destruct (decide (modelIDToHex id = EncodeToString id')) as [->|]; [rewrite lookup_insert_eq; eauto|rewrite lookup_insert_ne by done].
  destruct (decide (modelIDToHex id = modelIDToHex id')) as [->|Hne]; [rewrite lookup_insert_eq; eauto|rewrite lookup_insert_ne by done].
  apply IH. apply elem_of_app in Hin as [|[= -> ->]%list_elem_of_singleton]; done.
Qed.

Lemma table_inv entries k v : Inference.model_table entries !! k = Some v ->
  exists k', (k', v) ∈ entries /\ Inference.normalizeModelLookupKey k' = k.
Proof.
  unfold Inference.model_table. induction entries as [|[k' n] l IH] using rev_ind; [done|]. rewrite foldl_snoc. cbn [fst snd].
  intros [[<- <-]|[_ H]]%lookup_insert_Some; [exists k'; split; [set_solver|done]|].
  apply IH in H as (k1 & ? & ?). exists k1. split; [set_solver|done].
Qed.
Lemma table_dom entries k v : (k, v) ∈ entries -> exists w, Inference.model_table entries !! Inference.normalizeModelLookupKey k = Some w.
Proof.
  unfold Inference.model_table. induction entries as [|[k' n] l IH] using rev_ind; [by intros ?%not_elem_of_nil|]. rewrite foldl_snoc. cbn [fst snd].
  intros Hin. destruct (decide (Inference.normalizeModelLookupKey k = Inference.normalizeModelLookupKey k')) as [->|Hne];
    [rewrite lookup_insert_eq; eauto|rewrite lookup_insert_ne by done].
  apply IH. apply elem_of_app in Hin as [|[= -> ->]%list_elem_of_singleton]; done.
Qed.

Lemma build_tables_names supported t : build_tables supported = Ok t ->
  NoDup (modelIDs t) /\ length (modelIDs t) = length supported /\ names t = foldl add_name ∅ (zip (modelIDs t) supported).
Proof.
  unfold build_tables. destruct (parse_ids supported) as [ids|] eqn:E; [|done]. destruct (has_duplicate ids []) eqn:Hd; [done|].
  intros [= <-]. cbn. apply has_duplicate_false in Hd; [|constructor]. rewrite app_nil_r in Hd. repeat split; [done|].
  clear Hd. revert ids E. induction supported as [|s l IH]; intros ids; cbn [parse_ids]; [by intros [= <-]|].
  destruct (ParseModelID s); [|done]. destruct (parse_ids l) as [rest|]; [|done]. intros [= <-]. cbn. by rewrite (IH rest).
Qed.

(** What the tables answer, for any order of the entries. *)
Lemma tables_resolve `{AO : !AddressOps} h supported t entries :
  build_tables supported = Ok t -> supported <> [] ->
  entries ≡ₚ map_to_list (names t) -> modelIDToName h = Inference.model_table entries ->
  (forall i id name spelling, modelIDs t !! i = Some id -> supported !! i = Some name ->
     Inference.normalizeModelLookupKey spelling = EncodeToString id -> Inference.resolveModelName h spelling = Ok name) /\
  (forall spelling, Inference.looksLikeHexModelID spelling = true ->
     (forall id, id ∈ modelIDs t -> Inference.normalizeModelLookupKey spelling <> EncodeToString id) ->
     is_ok (Inference.resolveModelName h spelling) = false).
Proof.
  intros (Hn & Hl & Hm)%build_tables_names Hs He Ht. set (l := zip (modelIDs t) supported) in *.
  assert (NoDup l.*1) as Hl1 by (unfold l; by rewrite fst_zip by lia).
  assert (forall k v, (k, v) ∈ entries <-> foldl add_name ∅ l !! k = Some v) as Hin by (intros k v; by rewrite He, elem_of_map_to_list, Hm).
  assert (forall id name, (id, name) ∈ l -> modelIDToName h !! EncodeToString id = Some name) as Hfound.
  { intros id name H. destruct (names_dom l id name H) as [w Hw]. apply Hin in Hw.
    destruct (table_dom _ _ _ Hw) as [w' Hw']. rewrite normalize_modelIDToHex in Hw'. rewrite Ht, Hw'. f_equal.
    apply table_inv in Hw' as (k & Hk & Hk'). apply Hin, names_inv in Hk as (id' & Hid & Hk). rewrite Hk in Hk'.
    apply EncodeToString_inj in Hk' as ->. by apply (pair_unique l id). }
  assert (modelIDToName h <> ∅) as Hne.
  { destruct supported as [|s0 rest]; [done|]. destruct (modelIDs t) as [|id0 ids0] eqn:Ei; [done|].
    intros H0. specialize (Hfound id0 s0). rewrite H0, lookup_empty in Hfound. discriminate Hfound. unfold l. cbn. left. }
  unfold Inference.resolveModelName. rewrite bool_decide_eq_false_2 by done. split.
  - intros i id name spelling Hi Hname ->. rewrite (Hfound id name); [done|].
    apply list_elem_of_lookup. exists i. unfold l. by rewrite lookup_zip_with, Hi; cbn; rewrite Hname.
  - intros spelling Hx Hnone. destruct (modelIDToName h !! _) as [v|] eqn:E; [|by rewrite Hx].
    rewrite Ht in E. apply table_inv in E as (k & Hk & Hk'). apply Hin, names_inv in Hk as (id & Hid & Hk).
    exfalso. apply (Hnone id); [|by rewrite <- Hk', Hk]. apply list_elem_of_lookup in Hid as [i Hi]. unfold l in Hi.
    apply lookup_zip_with_Some in Hi as (? & ? & [= -> ->] & Hi & _). by eapply list_elem_of_lookup_2.
Qed.

(** A queued job that names a model the sidecar serves, by its id in any
    accepted spelling (with or without the prefix, in either case), runs the
    model configured under that id; and a job that names any other id in
    hexadecimal is refused rather than sent to the model runtime. This holds
    however the runtime orders the entries of the table it copies. *)
Theorem queued_models_resolve `{AO : !AddressOps} h supported t entries :
  build_tables supported = Ok t -> supported <> [] ->
  entries ≡ₚ map_to_list (names t) -> modelIDToName h = Inference.model_table entries ->
  (forall i id name spelling, modelIDs t !! i = Some id -> supported !! i = Some name ->
     Inference.normalizeModelLookupKey spelling = EncodeToString id -> Inference.resolveModelName h spelling = Ok name) /\
  (forall spelling, Inference.looksLikeHexModelID spelling = true ->
     (forall id, id ∈ modelIDs t -> Inference.normalizeModelLookupKey spelling <> EncodeToString id) ->
     is_ok (Inference.resolveModelName h spelling) = false).
Proof. apply tables_resolve. Qed.
End Ids.

(** ** A concrete list of models *)
#[local] Existing Instances plain_addresses Config.plain_text.
Definition demo_supported : list string := ["llama3:8b"; "0x00000000000000000000000000000000000000000000000000000000000000Af"]%string.
Definition demo_tables : tables := match build_tables demo_supported with Ok t => t | Err _ => MkTables [] [] ∅ end.
Definition demo_handler : JobHandler :=
  MkHandler (cfg Inference.demo_job_handler) (ollamaClient Inference.demo_job_handler) (deadline_client Inference.demo_job_handler)
    (async_ack_client Inference.demo_job_handler) (responsePublisher Inference.demo_job_handler) (checkpoints Inference.demo_job_handler)
    (releaseTracker Inference.demo_job_handler) (voiceEngine Inference.demo_job_handler) (searcher Inference.demo_job_handler) (priorJobs Inference.demo_job_handler)
    (Inference.model_table (map_to_list (names demo_tables))).

Example demo_ids : is_ok (build_tables ["a"; "b"; "a"]%string) = false /\ is_ok (ParseModelID "0xabc") = false /\
  modelHexStrings demo_tables !! 1%nat = Some "0x00000000000000000000000000000000000000000000000000000000000000af"%string.
Proof. vm_compute. done. Qed.

Lemma model_ids_agree_witness :
  ParseAndDeduplicateModelIDs (modelIDToHex <$> modelIDs demo_tables) = Ok (modelIDs demo_tables) /\
  ParseAndDeduplicateModelIDs demo_supported = Ok (modelIDs demo_tables).
Proof.
  split.
  - apply (proj1 (model_ids_agree [] (modelIDs demo_tables))); [vm_compute; repeat constructor|].
    vm_compute. repeat first [apply NoDup_nil_2 | apply NoDup_cons_2; [by intros ?%list_elem_of_singleton|] | apply NoDup_singleton].
  - apply (proj2 (model_ids_agree demo_supported (modelIDs demo_tables))). exists demo_tables. vm_compute. done.
Defined.

Lemma queued_models_resolve_witness :
  Inference.resolveModelName demo_handler "00000000000000000000000000000000000000000000000000000000000000aF" =
    Ok "0x00000000000000000000000000000000000000000000000000000000000000Af"%string /\
  is_ok (Inference.resolveModelName demo_handler "0x11000000000000000000000000000000000000000000000000000000000000af") = false.
Proof.
  destruct (queued_models_resolve demo_handler demo_supported demo_tables (map_to_list (names demo_tables))) as [H1 H2].
  - vm_compute. reflexivity.
  - done.
  - reflexivity.
  - reflexivity.
  - split.
    + refine (H1 1%nat _ _ _ eq_refl eq_refl _). vm_compute. reflexivity.
    + refine (H2 _ _ _); [vm_compute; reflexivity|]. intros id. vm_compute modelIDs.
      rewrite !elem_of_cons, elem_of_nil. intros [->|[->|[]]]; vm_compute; done.
Defined.
End Models.
