(* ===== verification/Metrics.v ===== *)
(** The labels of the worker's metrics, [internal/metrics]: how a model, a tier,
    an outcome and an error become label values, and how the pipeline counts a
    job ([processJob]'s deferred observer in [internal/pipeline/handler.go]).
    The Prometheus collectors themselves only record what they are given. *)
From Stdlib Require Import Ascii.
From S2P Require Import Prelude Effects GoText Checkpoint JobCalls JobTypes Deadline Stream Inference Pipeline EnvText Config Models.
Import CheckpointStore Deadline Stream Inference Pipeline.

#[local] Open Scope prog_scope.

Module Metrics.

(** ** The closed enumerations *)
Definition OutcomeOK : string := "ok".
Definition OutcomeError : string := "error".
Definition ReasonDecryptFailed : string := "decrypt_failed".
Definition ReasonOllamaUnreachable : string := "ollama_unreachable".
Definition ReasonOllamaTimeout : string := "ollama_timeout".
Definition ReasonBlobFetchFailed : string := "blob_fetch_failed".
Definition ReasonBlobSubmitFailed : string := "blob_submit_failed".
Definition ReasonRedisPublishFailed : string := "redis_publish_failed".
Definition ReasonSessionKeyUnavailable : string := "session_key_unavailable".
Definition ReasonCheckpointResume : string := "checkpoint_resume_failed".
Definition ReasonChainTxFailed : string := "chain_tx_failed".
Definition ReasonCtxCanceled : string := "ctx_canceled".
Definition ReasonUnknown : string := "unknown".
Definition ModelUnknown : string := "unknown".
Definition TierMax : string := "max".
Definition TierStandard : string := "standard".
Definition maxTierSuffix : string := "-max".

(** ** Models and tiers *)
Definition normalized (s : string) : string := to_lower (TrimSpace s).

(** [TierForModel]: the tier and the base model. *)
Definition TierForModel (model : string) : string * string :=
  let m := normalized model in
  match CutSuffix m maxTierSuffix with
  | Some base => (TierMax, base)
  | None => (TierStandard, m)
  end.

(** [Metrics]: the allowlist, and whether [Bind] was called. *)
Record Metrics : Type := MkMetrics { modelAllowlist : gset string; bound : bool }.

Definition New (allowlist : list string) : Metrics :=
  MkMetrics (foldl (fun allow m => let s := normalized m in
    if bool_decide (s = EmptyString) then allow else {[ s ]} ∪ allow) ∅ allowlist) false.

(** [Bind], up to the collectors it registers. *)
Definition Bind (m : Metrics) : result unit * Metrics :=
  if bound m then (Err (errorf "metrics: Bind called more than once"), m)
  else (Ok tt, MkMetrics (modelAllowlist m) true).

Definition NormalizeModel (m : Metrics) (modelID : string) : string :=
  let s := normalized modelID in
  if bool_decide (s = EmptyString) then ModelUnknown
  else if bool_decide (s ∈ modelAllowlist m) then s
  else ModelUnknown.

(** [StageRecorder] with the clock reading it started at; [End] yields the
    labels of its sample and the sample. *)
Record StageRecorder : Type := MkRecorder {
  sr_stage : string;
  sr_model : string;
  sr_tier : string;
  sr_delivery : string;
  sr_start : Z;
}.
Definition StartStage (stage model delivery : string) (now : Z) : StageRecorder :=
  MkRecorder stage model (fst (TierForModel model)) delivery now.
Definition End (r : StageRecorder) (outcome cache : string) (now : Z) : list string * Z :=
  ([sr_stage r; sr_model r; sr_tier r; cache; sr_delivery r; outcome], time_Sub now (sr_start r)).

(** ** Errors *)
Definition OutcomeFor (err : option error) : string :=
  match err with None => OutcomeOK | Some _ => OutcomeError end.

Definition ClassifyError (err : option error) : string :=
  match err with
  | None => ""
  | Some err =>
      if errors_Is err Canceled || errors_Is err DeadlineExceeded then ReasonCtxCanceled
      else
        let s := err_msg err in
        if str_contains s "stage 1" then ReasonChainTxFailed
        else if str_contains s "stage 2" then ReasonBlobFetchFailed
        else if str_contains s "stage 3" then ReasonSessionKeyUnavailable
        else if str_contains s "stage 4" then ReasonDecryptFailed
        else if str_contains s "stage 5" then
          if str_contains s "timeout" || str_contains s "deadline" then ReasonOllamaTimeout
          else ReasonOllamaUnreachable
        else if str_contains s "stage 6" then ReasonDecryptFailed
        else if str_contains s "stage 7" then ReasonRedisPublishFailed
        else if str_contains s "stage 8" then
          if str_contains s "submit blob" then ReasonBlobSubmitFailed else ReasonChainTxFailed
        else if str_contains s "checkpoint" then ReasonCheckpointResume
        else ReasonUnknown
  end.

(** ** How a job is counted *)
Section Job.
Context `{AO : !AddressOps} `{FK : !FrameKinds} `{PL : !Payloads} `{LP : !PromptLibs} `{LC : !CryptoLibs} `{EN : !Encodings}.

Definition modelLabel (h : JobHandler) (m : Metrics) (modelID : string) : string :=
  match resolveModelName h modelID with
  | Err _ => ModelUnknown
  | Ok name => NormalizeModel m name
  end.

(** The labels [JobsTotal] is incremented under when [processJob] returns:
    outcome, reason, model and tier. *)
Record job_labels : Type := MkLabels { jl_outcome : string; jl_reason : string; jl_model : string; jl_tier : string }.
Definition observed_job (h : JobHandler) (m : Metrics) (p : JobPayload) (r : result unit) : job_labels :=
  let model := modelLabel h m (ModelIDStr p) in
  let err := match r with Ok _ => None | Err e => Some e end in
  MkLabels (OutcomeFor err) (ClassifyError err) model (fst (TierForModel model)).

(** ** Where a job fails

    The stage an error's text names. *)
Definition stage_name (k : Z) : string := "stage " +:+ String (digit k) EmptyString.
Definition failed_at (ks : list Z) (e : error) : Prop := exists k rest, k ∈ ks /\ err_msg e = stage_name k +:+ rest.

(** Every error of a program satisfies [P]. *)
Definition fails {E A} (P : error -> Prop) (p : prog E (result A)) : Prop :=
  always p (fun _ r => match r with Ok _ => True | Err e => P e end).

Lemma fails_all {E A} (P : error -> Prop) (p : prog E (result A)) : (forall e, P e) -> fails P p.
Proof. intros HP. apply always_intro. by intros tr [a|e] _. Qed.
Lemma fails_bind {E A B} P (p : prog E A) (f : A -> prog E (result B)) : (forall a, fails P (f a)) -> fails P (bind p f).
Proof.
  intros Hf. apply always_bind, always_intro. intros tr a _. eapply always_mono; [apply Hf|]. by intros _ [].
Qed.
Lemma fails_try {E A B} P (p : prog E (result A)) (f : A -> prog E (result B)) :
  fails P p -> (forall a, fails P (f a)) -> fails P (try p f).
Proof.
  intros Hp Hf. apply always_bind. eapply always_mono; [exact Hp|]. intros tr [a|e] He; [|done].
  eapply always_mono; [apply Hf|]. by intros _ [].
Qed.
Lemma fails_wrap {E A} (P : error -> Prop) s (p : prog E (result A)) : (forall e, P (wrap s e)) -> fails P (wrap_err s p).
Proof. intros HP. apply fails_bind. intros [a|e]; [done|]. apply HP. Qed.
Lemma fails_mono {E A} (P Q : error -> Prop) (p : prog E (result A)) : fails P p -> (forall e, P e -> Q e) -> fails Q p.
Proof. intros Hp HPQ. eapply always_mono; [exact Hp|]. intros tr [a|e]; [done|apply HPQ]. Qed.

Lemma failed_at_intro ks k rest e : k ∈ ks -> err_msg e = stage_name k +:+ rest -> failed_at ks e.
Proof. by exists k, rest. Qed.
Lemma failed_at_join ks e e' : failed_at ks e -> failed_at ks (join e e').
Proof. intros (k & rest & Hk & He). exists k, (rest +:+ ": " +:+ err_msg e'). split; [done|]. cbn. by rewrite He, append_assoc. Qed.
Lemma failed_at_mono ks ks' e : failed_at ks e -> ks ⊆ ks' -> failed_at ks' e.
Proof. intros (k & rest & Hk & He) Hs. exists k, rest. auto. Qed.

(** The text of an error shows its stage; [stage_walk] goes through a program
    to each error it returns. *)
Ltac staged :=
  lazymatch goal with
  | |- failed_at _ (noRetry _) => apply failed_at_join; staged
  | |- failed_at _ (join _ _) => apply failed_at_join; staged
  | |- failed_at ?ks _ =>
      first [ eapply (failed_at_intro ks 1); [set_solver|reflexivity] | eapply (failed_at_intro ks 2); [set_solver|reflexivity]
            | eapply (failed_at_intro ks 3); [set_solver|reflexivity] | eapply (failed_at_intro ks 4); [set_solver|reflexivity]
            | eapply (failed_at_intro ks 5); [set_solver|reflexivity] | eapply (failed_at_intro ks 6); [set_solver|reflexivity]
            | eapply (failed_at_intro ks 8); [set_solver|reflexivity] ]
  end.
Ltac stage_walk :=
  repeat lazymatch goal with
  | |- failed_at _ _ => staged
  | |- fails _ (wrap_err _ _) => apply fails_wrap; intro
  | |- fails _ (try _ _) => apply fails_try; [|intro]
  | |- fails _ (bind _ _) => apply fails_bind; intro
  | |- fails _ (call _) => fail
  | |- fails _ (Ret (Ok _)) => exact I
  | |- fails _ (Ret (Err _)) => unfold fails; cbn [always]; staged
  | |- fails _ (Ret (match ?x with _ => _ end)) => destruct x
  | |- fails _ (match ?x with _ => _ end) => destruct x
  | |- fails _ _ => solve [auto 1]
  end.

Lemma gateInference_fails ctx g : fails (failed_at [5]) (gateInference ctx g).
Proof. unfold gateInference. by stage_walk. Qed.
Lemma transcribe_fails h ctx e : fails (failed_at [5]) (maybeTranscribeAudio h ctx e).
Proof. unfold maybeTranscribeAudio. by stage_walk. Qed.
Lemma inference_failure_fails g hist e : fails (failed_at [5]) (inference_failure g hist e).
Proof. unfold inference_failure. destruct hist; by stage_walk. Qed.
Lemma finish_fails h p k s resp sources e g : fails (failed_at [6]) (finish h p k s resp sources e g).
Proof. unfold finish. by stage_walk. Qed.
Lemma decrypt_fails p k b : fails (failed_at [4]) (decrypt_prompt p k b).
Proof. unfold decrypt_prompt. by stage_walk. Qed.
Lemma fails_at_mono ks ks' A (p : prog JobE (result A)) : fails (failed_at ks) p -> ks ⊆ ks' -> fails (failed_at ks') p.
Proof. intros Hp Hs. eapply fails_mono; [exact Hp|]. intros e He. by eapply failed_at_mono. Qed.

Lemma infer_fails h ctx p k name e sources b g : fails (failed_at [5; 6]) (infer h ctx p k name e sources b g).
Proof.
  unfold infer. apply fails_try; [apply (fails_at_mono [5]); [apply gateInference_fails|set_solver]|intros c].
  apply fails_try; [apply (fails_at_mono [5]); [apply transcribe_fails|set_solver]|intros e'].
  apply fails_try; [destruct (SelfContained e'); by stage_walk|intros hist].
  destruct (inferenceClientFor h name) as [[cl opts] ov]. apply fails_bind. intros s. apply fails_bind. intros r.
  destruct (snd r) as [[resp stats]|err]; [|apply (fails_at_mono [5]); [apply inference_failure_fails|set_solver]].
  apply fails_bind. intros s'. apply (fails_at_mono [6]); [apply finish_fails|set_solver].
Qed.

Lemma decode_failure_at {A} ks e (r : result A) : failed_at ks e -> r = decode_failure e ->
  match r with Ok _ => True | Err e => failed_at ks e end.
Proof. intros He ->. unfold decode_failure. destruct (errors_Is _ _); [by apply failed_at_join|done]. Qed.

Lemma runInferencePipeline_fails h ctx p blob b g : fails (failed_at [3; 4; 5; 6]) (runInferencePipeline h ctx p blob b g).
Proof.
  unfold runInferencePipeline. apply fails_try; [by stage_walk|intros k].
  apply fails_try; [apply (fails_at_mono [4]); [apply decrypt_fails|set_solver]|intros [k' prompt]].
  destruct (UnwrapSearch prompt) as [[t se]|err]; [|eapply decode_failure_at; [|reflexivity]; staged].
  apply fails_bind. intros [t' sources]. destruct (resolveModelName h (ModelIDStr p)) as [name|err]; [|by stage_walk].
  destruct (DecodeEnvelope t') as [e|err]; [|eapply decode_failure_at; [|reflexivity]; staged].
  destruct (SelfContained e && is_speech h name); [by stage_walk|].
  apply (fails_at_mono [5; 6]); [apply infer_fails|set_solver].
Qed.

(** ** The whole job

    An error of a job: it names a stage before 7 and the run did nothing that
    cannot be taken back, or it names stage 8. *)
Definition failure_post (tr : list (called JobE)) (e : error) : Prop :=
  (failed_at [1; 2; 3; 4; 5; 6] e /\ deeds tr = []) \/ failed_at [8] e.

Lemma obtain_fails h ctx p ck g : fails (failed_at [2; 3; 4; 5; 6]) (obtainCiphertext h ctx p ck g).
Proof.
  unfold obtainCiphertext. destruct (HasCiphertext ck); [done|]. destruct (PromptBlobHash p =? 0); [by stage_walk|].
  apply fails_try; [by stage_walk|intros blob].
  apply fails_try; [apply (fails_at_mono [3; 4; 5; 6]); [apply runInferencePipeline_fails|set_solver]|intros [ct n]].
  destruct (negb (checkpoints h)); [done|]. by stage_walk.
Qed.
Lemma await_fails h ctx j a : fails (failed_at [1]) (awaitAcknowledged h ctx j a).
Proof. unfold awaitAcknowledged. by stage_walk. Qed.
Lemma pickup_fails g : fails (failed_at [1]) (checkPickup g).
Proof. unfold checkPickup. by stage_walk. Qed.
Lemma settle_fails h ctx p ck ct g : fails (failed_at [8]) (settle h ctx p ck ct g).
Proof.
  unfold settle, ensureBlobSubmitted, gateBlobSubmit.
  apply fails_try; [destruct (HasVersionedHash ck); [done|]; apply fails_try; [|intros _]; by stage_walk|intros vh]. by stage_walk.
Qed.

(** Followed by a part that does nothing of note. *)
Definition staged_post (tr : list (called JobE)) (rd : result unit * bool) : Prop :=
  match rd with
  | (Ok _, _) => True
  | (Err e, false) => failed_at [1; 2; 3; 4; 5; 6] e /\ deeds tr = []
  | (Err e, true) => failed_at [8] e
  end.

(** A stage before 7, then the rest. *)
Lemma early_stage ks A (q : prog JobE (result A)) (f : result A -> prog JobE (result unit * bool)) :
  fails (failed_at ks) q -> ks ⊆ [1; 2; 3; 4; 5; 6] -> uses idle q ->
  (forall e, f (Err e) = Ret (Err e, false)) -> (forall a, always (f (Ok a)) staged_post) ->
  always (bind q f) staged_post.
Proof.
  intros Hq Hks Hu Herr Hok. apply always_bind. eapply always_mono; [apply always_conj; [exact Hq|by apply idle_deeds]|].
  intros tr [a|e] [He Hd]; cbn beta.
  - eapply always_mono; [apply Hok|]. intros tr' [[u|e] []]; cbn; [done|done|done|]. rewrite deeds_app, Hd. by intros [].
  - rewrite Herr. cbn. rewrite app_nil_r. split; [by eapply failed_at_mono|done].
Qed.

Lemma stages_staged h ctx p : always (stages h ctx p) staged_post.
Proof.
  unfold stages. apply (early_stage [1]); [apply pickup_fails|set_solver|apply acknowledges_idle, checkPickup_acknowledges|done|intros _].
  apply (early_stage [1]); [by stage_walk|set_solver| |done|intros ack].
  { unfold wrap_err. apply uses_bind; [apply acknowledges_idle, ensureAcknowledged_uses|]. by intros []. }
  apply always_bind. eapply always_mono; [apply readCheckpoint_quiet|]. intros tr ck [Hd _].
  eapply always_mono; [apply (early_stage [2; 3; 4; 5; 6]); [apply obtain_fails|set_solver|apply obtainCiphertext_idle|done|]|].
  - intros [ct n]. apply (early_stage [1]); [apply await_fails|set_solver|apply acknowledges_idle, awaitAcknowledged_uses|done|intros _].
    unfold conclude. apply always_bind, always_intro. intros trd _ _. apply always_bind.
    eapply always_mono; [apply settle_fails|]. by intros trs [u|e].
  - intros tr' [[u|e] []]; cbn; [done|done|done|]. rewrite deeds_app, Hd. by intros [].
Qed.

Lemma processJob_fails h ctx p : always (processJob h ctx p) (fun tr r => match r with Ok _ => True | Err e => failure_post tr e end).
Proof.
  unfold processJob. apply always_bind. eapply always_mono; [apply stages_staged|].
  intros tr [[u|e] []] H; cbn; rewrite ?app_nil_r; [done|done|right; by apply failed_at_join|by left].
Qed.

(** The reason a stage's failures are meant to be counted under. *)
Definition stage_reason (k : Z) (msg : string) : string :=
  if (k =? 1) then ReasonChainTxFailed
  else if k =? 2 then ReasonBlobFetchFailed
  else if k =? 3 then ReasonSessionKeyUnavailable
  else if k =? 5 then if str_contains msg "timeout" || str_contains msg "deadline" then ReasonOllamaTimeout else ReasonOllamaUnreachable
  else if k =? 8 then if str_contains msg "submit blob" then ReasonBlobSubmitFailed else ReasonChainTxFailed
  else ReasonDecryptFailed.

Definition cancelled (e : error) : bool := errors_Is e Canceled || errors_Is e DeadlineExceeded.
Definition names_none_before (k : Z) (msg : string) : Prop := forall j, 1 <= j < k -> str_contains msg (stage_name j) = false.

Lemma prefix_append p s : String.prefix p (p +:+ s) = true.
Proof.
  induction p as [|c p IH]; [by destruct s|]. change (String.prefix (String c p) (String c (p +:+ s)) = true). cbn [String.prefix].
  destruct (Ascii.ascii_dec c c); [exact IH|done].
Qed.
Lemma contains_prefix p s : str_contains (p +:+ s) p = true.
Proof.
  unfold str_contains. pose proof (prefix_append p s) as Hp. destruct p as [|c p]; [by destruct s|].
  change (String c p +:+ s) with (String c (p +:+ s)) in *. cbn [String.index]. by rewrite Hp.
Qed.

(** The text of a concrete stage's name; the stages one by one. *)
Ltac spell H :=
  match type of H with context [stage_name ?k] => let n := eval vm_compute in (stage_name k) in change (stage_name k) with n in H end.
Ltac each_stage Hk := repeat (apply elem_of_cons in Hk as [->|Hk]); [..|by apply elem_of_nil in Hk].

Lemma reason_of_stage e k rest : k ∈ [1; 2; 3; 4; 5; 6; 8] -> err_msg e = stage_name k +:+ rest -> cancelled e = false ->
  names_none_before k (err_msg e) -> ClassifyError (Some e) = stage_reason k (err_msg e).
Proof.
  intros Hk He Hc Hn. unfold ClassifyError. fold (cancelled e). rewrite Hc. cbn zeta.
  assert (str_contains (err_msg e) (stage_name k) = true) as Hs by (rewrite He; apply contains_prefix).
  pose proof (Hn 1) as H1. pose proof (Hn 2) as H2. pose proof (Hn 3) as H3. pose proof (Hn 4) as H4.
  pose proof (Hn 5) as H5. pose proof (Hn 6) as H6. pose proof (Hn 7) as H7. clear Hn He.
  spell H1; spell H2; spell H3; spell H4; spell H5; spell H6; spell H7.
  each_stage Hk; spell Hs; rewrite ?H1, ?H2, ?H3, ?H4, ?H5, ?H6, ?H7, Hs by lia; done.
Qed.

Lemma reason_is_known e k rest : k ∈ [1; 2; 3; 4; 5; 6; 8] -> err_msg e = stage_name k +:+ rest ->
  ClassifyError (Some e) ∉ [EmptyString; ReasonUnknown; ReasonCheckpointResume].
Proof.
  intros Hk He. assert (str_contains (err_msg e) (stage_name k) = true) as Hs by (rewrite He; apply contains_prefix).
  unfold ClassifyError. clear He. each_stage Hk; spell Hs; cbn zeta; rewrite Hs; repeat case_match; refine (bool_decide_unpack _ _); vm_compute; exact I.
Qed.

(** Every job is counted, and every failed one under the stage that failed: an
    attempt counts as [ok] exactly when it succeeded; a failed one counts as an
    [error] with a reason that is neither empty nor unknown, its error names a
    stage, and that stage is 8 or the attempt delivered, submitted and settled
    nothing. The reason is that stage's, unless the attempt was cancelled or
    the text of an inner error names an earlier stage. *)
Theorem failures_are_counted_by_stage h m ctx p tr r : runs (processJob h ctx p) tr r ->
  (jl_outcome (observed_job h m p r) = OutcomeOK <-> is_ok r = true) /\
  forall e, r = Err e -> let reason := jl_reason (observed_job h m p r) in
    reason ∉ [EmptyString; ReasonUnknown; ReasonCheckpointResume] /\
    exists k rest, err_msg e = stage_name k +:+ rest /\ (k = 8 \/ k ∈ [1; 2; 3; 4; 5; 6] /\ deeds tr = []) /\
      (cancelled e = false -> names_none_before k (err_msg e) -> reason = stage_reason k (err_msg e)).
Proof.
  intros Hr. split; [by destruct r|]. intros e -> reason.
  pose proof (always_runs _ _ _ _ (processJob_fails h ctx p) Hr) as H.
  assert (exists k rest, k ∈ [1; 2; 3; 4; 5; 6; 8] /\ err_msg e = stage_name k +:+ rest /\
    (k = 8 \/ k ∈ [1; 2; 3; 4; 5; 6] /\ deeds tr = [])) as (k & rest & Hk & He & Hd).
  { destruct H as [[(k & rest & Hk & He) Hd]|(k & rest & Hk & He)]; exists k, rest; repeat split; try done; [set_solver|by right|set_solver|].
    left. set_solver. }
  split; [by eapply reason_is_known|]. exists k, rest. repeat split; [done|done|]. intros Hc Hn. by eapply reason_of_stage.
Qed.

(** ** Which model

    Normalizing twice is normalizing once. *)
Lemma is_space_lower c : is_space (ascii_lower c) = is_space c.
Proof. destruct c as [[] [] [] [] [] [] [] []]; reflexivity. Qed.
Lemma ascii_lower_idem c : ascii_lower (ascii_lower c) = ascii_lower c.
Proof. destruct c as [[] [] [] [] [] [] [] []]; reflexivity. Qed.
Lemma list_lower s : String.list_ascii_of_string (to_lower s) = ascii_lower <$> String.list_ascii_of_string s.
Proof. induction s as [|c s IH]; [done|]. cbn. by rewrite IH. Qed.
Lemma to_lower_idem s : to_lower (to_lower s) = to_lower s.
Proof. induction s as [|c s IH]; [done|]. cbn. by rewrite ascii_lower_idem, IH. Qed.
Lemma drop_spaces_lower cs : drop_spaces (ascii_lower <$> cs) = ascii_lower <$> drop_spaces cs.
Proof. induction cs as [|c cs IH]; [done|]. cbn. rewrite is_space_lower. by destruct (is_space c). Qed.
Lemma drop_spaces_suffix cs : exists pre, cs = pre ++ drop_spaces cs.
Proof.
  induction cs as [|c cs [pre IH]]; [by exists []|]. cbn. destruct (is_space c); [|by exists []].
  exists (c :: pre). cbn. by rewrite <- IH.
Qed.
Lemma drop_spaces_idem cs : drop_spaces (drop_spaces cs) = drop_spaces cs.
Proof. induction cs as [|c cs IH]; [done|]. cbn. destruct (is_space c) eqn:E; [done|]. cbn. by rewrite E. Qed.
Lemma drop_spaces_prefix cs pre post : drop_spaces cs = cs -> cs = pre ++ post -> drop_spaces pre = pre.
Proof.
  intros Hd ->. destruct pre as [|c pre]; [done|]. cbn in *. destruct (is_space c); [|done].
  destruct (drop_spaces_suffix (pre ++ post)) as [l Hl]. rewrite Hd in Hl. apply (f_equal length) in Hl.
  rewrite (length_app l) in Hl. cbn [length] in Hl. lia.
Qed.

Lemma trim_space_idem cs : trim_space (trim_space cs) = trim_space cs.
Proof.
  unfold trim_space at 1. set (t := trim_space cs).
  assert (drop_spaces t = t) as ->.
  { destruct (drop_spaces_suffix (reverse (drop_spaces cs))) as [pre Hp]. apply (f_equal reverse) in Hp.
    rewrite reverse_involutive, reverse_app in Hp. by apply (drop_spaces_prefix (drop_spaces cs) t (reverse pre)); [apply drop_spaces_idem|]. }
  unfold t, trim_space. by rewrite reverse_involutive, drop_spaces_idem.
Qed.
Lemma TrimSpace_lower s : TrimSpace (to_lower s) = to_lower (TrimSpace s).
Proof.
  unfold TrimSpace, trim_space. rewrite list_lower, drop_spaces_lower, <- fmap_reverse, drop_spaces_lower, <- fmap_reverse.
  generalize (reverse (drop_spaces (reverse (drop_spaces (String.list_ascii_of_string s))))). intros cs.
  induction cs as [|c cs IH]; [done|]. cbn. by rewrite <- IH.
Qed.
Lemma TrimSpace_idem s : TrimSpace (TrimSpace s) = TrimSpace s.
Proof. unfold TrimSpace. by rewrite String.list_ascii_of_string_of_list_ascii, trim_space_idem. Qed.
Lemma normalized_idem s : normalized (normalized s) = normalized s.
Proof. unfold normalized. by rewrite TrimSpace_lower, to_lower_idem, TrimSpace_idem. Qed.

Lemma New_allowlist models s : s ∈ modelAllowlist (New models) <-> s <> EmptyString /\ exists m, m ∈ models /\ s = normalized m.
Proof.
  unfold New. cbn. assert (forall acc : gset string, s ∈ foldl (fun allow m => let s := normalized m in
    if bool_decide (s = EmptyString) then allow else {[ s ]} ∪ allow) acc models <->
    s ∈ acc \/ s <> EmptyString /\ exists m, m ∈ models /\ s = normalized m) as H; [|rewrite H; set_solver].
  induction models as [|m models IH]; intros acc; cbn [foldl]; [set_solver|]. rewrite IH. cbn zeta. case_bool_decide as E; set_solver.
Qed.

(** The model of a job is counted under a bounded set of labels: always a
    configured model's normalized name or [unknown]. A job that names a
    configured model by its id, in either spelling, is counted under that
    model's name and tier, and one that names any other id in hexadecimal as
    [unknown]. *)
Theorem queued_models_are_labelled `{T : !Config.ConfigText} h supported t entries :
  Models.build_tables supported = Ok t -> supported <> [] ->
  entries ≡ₚ map_to_list (Models.names t) -> modelIDToName h = model_table entries ->
  let label := modelLabel h (New supported) in
  (forall spelling, label spelling = ModelUnknown \/ exists name, name ∈ supported /\ label spelling = normalized name) /\
  (forall i id name spelling, Models.modelIDs t !! i = Some id -> supported !! i = Some name -> normalized name <> EmptyString ->
     normalizeModelLookupKey spelling = EnvText.EncodeToString id ->
     label spelling = normalized name /\ TierForModel (label spelling) = TierForModel name) /\
  (forall spelling, looksLikeHexModelID spelling = true ->
     (forall id, id ∈ Models.modelIDs t -> normalizeModelLookupKey spelling <> EnvText.EncodeToString id) -> label spelling = ModelUnknown).
Proof.
  intros Hb Hs He Ht label. destruct (Models.tables_resolve h supported t entries Hb Hs He Ht) as [Hres Hunk]. unfold label, modelLabel.
  split; [|split].
  - intros spelling. destruct (resolveModelName h spelling) as [name|e]; [|by left]. unfold NormalizeModel.
    repeat case_bool_decide; [by left| |by left]. right. by apply New_allowlist.
  - intros i id name spelling Hi Hname Hn Hk. rewrite (Hres i id name spelling Hi Hname Hk). unfold NormalizeModel.
    rewrite bool_decide_eq_false_2 by done.
    rewrite bool_decide_eq_true_2; [|apply New_allowlist; split; [done|]; exists name; split; [by eapply list_elem_of_lookup_2|done]].
    split; [done|]. unfold TierForModel. by rewrite normalized_idem.
  - intros spelling Hx Hnone. specialize (Hunk spelling Hx Hnone). by destruct (resolveModelName h spelling).
Qed.
End Job.

(** ** Concrete labels *)
#[local] Existing Instance plain_addresses.
#[local] Existing Instance demo_kinds.
#[local] Existing Instance demo_payloads.
#[local] Existing Instance demo_prompts.
#[local] Existing Instance demo_crypto.
#[local] Existing Instance demo_encodings.
#[local] Existing Instance Config.plain_text.

Example tiers : (TierForModel " AgentWorld-35B-MAX ", TierForModel "llama3:8b", TierForModel "-max", TierForModel "max") =
  ((TierMax, "agentworld-35b"), (TierStandard, "llama3:8b"), (TierMax, ""), (TierStandard, "max"))%string.
Proof. vm_compute. reflexivity. Qed.

(** The deadline guard refuses a job without calling the model, and the job is
    counted as a timeout of the model: the guard's text says deadline. *)
Example refusal_counts_as_model_timeout :
  ClassifyError (Some (noRetry (wrap "stage 5 (inference)" ErrJobDoomed_))) = ReasonOllamaTimeout.
Proof. vm_compute. reflexivity. Qed.

Definition demo_failed_run := run_attempt demo 0 (fresh_world true false).

Lemma failures_are_counted_by_stage_witness :
  jl_reason (observed_job demo_job_handler (New ["llama3"%string]) demo_payload (snd (fst demo_failed_run))) = ReasonBlobSubmitFailed /\
  exists e k rest, snd (fst demo_failed_run) = Err e /\ err_msg e = stage_name k +:+ rest.
Proof.
  split; [vm_compute; reflexivity|].
  destruct (failures_are_counted_by_stage demo_job_handler (New ["llama3"%string]) (TaskCtx (Some 0) (Some 3)) demo_payload
    (fst (fst demo_failed_run)) (snd (fst demo_failed_run)) (interp_run (world_handler demo) _ (fresh_world true false))) as [_ H].
  destruct (H (join (wrap "stage 8 (submit blob)" (errorf "blob pool full")) errAnswerDelivered_) ltac:(vm_compute; reflexivity))
    as [_ (k & rest & He & _)].
  exists (join (wrap "stage 8 (submit blob)" (errorf "blob pool full")) errAnswerDelivered_), k, rest.
  split; [vm_compute; reflexivity|exact He].
Defined.
End Metrics.
