(* ===== verification/OperatorConfig.v ===== *)
(** What the operator's commands read from the environment
    ([internal/config/registration.go]) and what [watch] reads on top of it
    ([internal/config/watch.go]), against what the sidecar reads: the commands
    and the sidecar of one worker share one environment file. *)
From S2P Require Import Prelude GoText EnvText Checkpoint JobCalls ReleaseConfig Lifecycle Dial Config.

Module RegistrationConfig.
Section Load.
Context `{A : AddressOps} `{U : URLs} `{T : ConfigText}.
Context (Getenv : string -> string).

Record t : Type := MkRegistration {
  WorkerKeystorePath : string;
  WorkerKeystorePassword : string;
  EncryptionKeystorePath : string;
  RPCURL : string;
  ChainID : Z;
  WorkerRegistryAddress : Address;
  AIConfigAddress : Address;
  JobRegistryAddress : Address;
  RedisURL : string;
  WorkerGatewayURL : string;
  RedisPassword : string;
  OllamaURL : string;
  BeaconAPIURL : string;
  DrainTTLOverride : Z;
  DrainSlack : Z;
  SupportedModels : list string;
  WorkerStake : option Z;
  GasPriceMultiplierBps : Z;
  MaxGasPrice : option Z;
  LogLevel : string;
  LogFormat : string;
}.

Definition optional_models : list string :=
  let raw := Getenv "SUPPORTED_MODELS" in if Config.is_empty raw then [] else Config.split_models raw.

Definition load_stake : ld (option Z) :=
  let raw := Getenv "WORKER_STAKE" in
  if Config.is_empty raw then st_ret None
  else
    match SetString raw with
    | None => let! _ := complain "WORKER_STAKE: invalid decimal wei value" in st_ret None
    | Some v => if v <? 0 then let! _ := complain "WORKER_STAKE: must be non-negative" in st_ret None else st_ret (Some v)
    end.

Definition load_drain_ttl : ld Z :=
  let raw := Getenv "LIGHTCHAIN_DRAIN_TTL" in
  if Config.is_empty raw then st_ret 0
  else
    match ParseDuration raw with
    | Err _ => let! _ := complain "LIGHTCHAIN_DRAIN_TTL: invalid duration" in st_ret 0
    | Ok d => if d <=? 0 then let! _ := complain "LIGHTCHAIN_DRAIN_TTL: must be positive" in st_ret 0 else st_ret d
    end.

Definition load_drain_slack : ld Z :=
  let raw := Getenv "LIGHTCHAIN_DRAIN_SLACK" in
  if Config.is_empty raw then st_ret 0
  else
    match ParseDuration raw with
    | Err _ => let! _ := complain "LIGHTCHAIN_DRAIN_SLACK: invalid duration" in st_ret 0
    | Ok d => if d <? 0 then let! _ := complain "LIGHTCHAIN_DRAIN_SLACK: must be >= 0" in st_ret 0 else st_ret d
    end.

Definition load_registration : ld t :=
  let! chainID := Config.load_chain_id Getenv in
  let! registry := Config.required_address Getenv "WORKER_REGISTRY_ADDRESS" in
  let! aiConfig := Config.required_address Getenv "AI_CONFIG_ADDRESS" in
  let! jobRegistry := Config.optional_address Getenv "JOB_REGISTRY_ADDRESS" in
  let! stake := load_stake in
  let! drainTTL := load_drain_ttl in
  let! drainSlack := load_drain_slack in
  let! bps := Config.parseInt Getenv "GAS_PRICE_MULTIPLIER_BPS" 11000 in
  let! maxGas := Config.load_max_gas Getenv in
  st_ret {|
    WorkerKeystorePath := Getenv "WORKER_KEYSTORE_PATH";
    WorkerKeystorePassword := Getenv "WORKER_KEYSTORE_PASSWORD";
    EncryptionKeystorePath := Config.envOrDefault Getenv "ENCRYPTION_KEYSTORE_PATH" "data/worker-encryption.key";
    RPCURL := Config.envOrDefault Getenv "RPC_URL" "http://localhost:8545";
    ChainID := chainID;
    WorkerRegistryAddress := registry;
    AIConfigAddress := aiConfig;
    JobRegistryAddress := jobRegistry;
    RedisURL := Getenv "REDIS_URL";
    WorkerGatewayURL := Getenv "WORKER_GATEWAY_URL";
    RedisPassword := Getenv "REDIS_PASSWORD";
    OllamaURL := Config.envOrDefault Getenv "OLLAMA_URL" "http://localhost:11434";
    BeaconAPIURL := Config.envOrDefault Getenv "BEACON_API_URL" "http://localhost:3500";
    DrainTTLOverride := drainTTL;
    DrainSlack := drainSlack;
    SupportedModels := optional_models;
    WorkerStake := stake;
    GasPriceMultiplierBps := bps;
    MaxGasPrice := maxGas;
    LogLevel := Config.envOrDefault Getenv "LOG_LEVEL" "info";
    LogFormat := Config.envOrDefault Getenv "LOG_FORMAT" "json";
  |}.
Definition LoadRegistration : result t := Config.settled "config load errors" load_registration.

Definition Validate (c : t) : list string :=
  let errs := fail_if (Config.is_empty (WorkerKeystorePath c)) "WORKER_KEYSTORE_PATH is required" [] in
  let errs := fail_if (Config.is_empty (WorkerKeystorePassword c)) "WORKER_KEYSTORE_PASSWORD is required" errs in
  let errs := fail_if (ChainID c <=? 0) "CHAIN_ID must be positive" errs in
  let errs := fail_if (Config.is_zero (WorkerRegistryAddress c)) "WORKER_REGISTRY_ADDRESS must be a non-zero address" errs in
  let errs := fail_if (Config.is_zero (AIConfigAddress c)) "AI_CONFIG_ADDRESS must be a non-zero address" errs in
  let errs := fail_if (GasPriceMultiplierBps c <=? 0) "GAS_PRICE_MULTIPLIER_BPS must be positive" errs in
  fail_if (negb (bool_decide (LogFormat c = "json"%string)) && negb (bool_decide (LogFormat c = "text"%string)))
    "LOG_FORMAT: must be json or text" errs.

Definition ValidateForSettlement (c : t) : list string :=
  fail_if (Config.is_zero (JobRegistryAddress c)) "JOB_REGISTRY_ADDRESS must be a non-zero address for balance/withdraw/release" [].

(** ** Against the sidecar's loader *)
Lemma silent_then {X Y} (l : ld X) (f : X -> ld Y) x y : Config.silent l x -> Config.silent (f x) y -> Config.silent (st_bind l f) y.
Proof. unfold Config.silent, st_bind. by intros ->. Qed.

Lemma silent_settled {X} what (l : ld X) x : Config.silent l x -> Config.settled what l = Ok x.
Proof. unfold Config.silent, Config.settled. by intros ->. Qed.

(** An address that was required and read is read when optional. *)
Lemma required_is_optional key a : Config.silent (Config.required_address Getenv key) a -> Config.silent (Config.optional_address Getenv key) a.
Proof. unfold Config.silent, Config.required_address. by destruct (Config.is_empty _). Qed.

Lemma models_are_optional ms : Config.silent (Config.load_models Getenv) ms -> optional_models = ms.
Proof.
  unfold Config.silent, Config.load_models, optional_models, st_bind. destruct (Config.is_empty _); [done|].
  destruct (complain_if _ _ _) as [[] errs]. by intros [= <- _].
Qed.

(** A drain setting the sidecar takes is taken by the command, with the same
    meaning: zero stands for the defaults of both. *)
Lemma drain_ttl_agrees d : Config.silent (Config.parseDuration Getenv "LIGHTCHAIN_DRAIN_TTL" "0s") d ->
  Getenv "LIGHTCHAIN_DRAIN_TTL" = EmptyString \/ 0 < d -> Config.silent load_drain_ttl d.
Proof.
  unfold Config.silent, Config.parseDuration, load_drain_ttl, Config.envOrDefault, Config.is_empty. case_bool_decide as He.
  - replace (ParseDuration "0s") with (Ok 0) by (vm_compute; reflexivity). done.
  - destruct (ParseDuration _) as [d'|]; [|done]. intros [= <-] [?|?]; [done|]. by rewrite (proj2 (Z.leb_gt d' 0)).
Qed.

Lemma drain_slack_agrees d : Config.silent (Config.parseDuration Getenv "LIGHTCHAIN_DRAIN_SLACK" "2h") d -> 0 <= d ->
  exists d', Config.silent load_drain_slack d' /\ (d' = d \/ d' = 0 /\ d = Drain.defaultDrainSlack).
Proof.
  unfold Config.silent, Config.parseDuration, load_drain_slack, Config.envOrDefault. destruct (Config.is_empty _).
  - replace (ParseDuration "2h") with (Ok Drain.defaultDrainSlack) by (vm_compute; reflexivity). intros [= <-] _. eauto.
  - destruct (ParseDuration _) as [d'|]; [|done]. intros [= <-] ?. rewrite (proj2 (Z.ltb_ge d' 0)) by done. eauto.
Qed.

(** Where the sidecar's settings and the command's have to be the same. *)
Record agree (c : Config.t) (rc : t) : Prop := {
  ag_key : (WorkerKeystorePath rc, WorkerKeystorePassword rc, EncryptionKeystorePath rc) =
    (Config.WorkerKeystorePath (Config.plain c), Config.WorkerKeystorePassword (Config.plain c), Config.EncryptionKeystorePath (Config.plain c));
  ag_nodes : (RPCURL rc, OllamaURL rc, BeaconAPIURL rc, WorkerGatewayURL rc, RedisPassword rc) =
    (Config.RPCURL (Config.plain c), Config.OllamaURL (Config.plain c), Config.BeaconAPIURL (Config.plain c),
     Config.WorkerGatewayURL (Config.plain c), Config.RedisPassword (Config.plain c));
  ag_chain : (ChainID rc, WorkerRegistryAddress rc, AIConfigAddress rc, JobRegistryAddress rc) =
    (Config.ChainID (Config.chain c), Config.WorkerRegistryAddress (Config.chain c), Config.AIConfigAddress (Config.chain c),
     Config.JobRegistryAddress (Config.chain c));
  ag_gas : (GasPriceMultiplierBps rc, MaxGasPrice rc) = (Config.GasPriceMultiplierBps (Config.chain c), Config.MaxGasPrice (Config.chain c));
  ag_redis : RedisURL rc = Config.RedisURL (Config.plain c) \/
    Getenv "REDIS_URL" = EmptyString /\ RedisURL rc = EmptyString /\ Config.RedisURL (Config.plain c) = "redis://localhost:6379"%string;
  ag_log : (LogLevel rc, LogFormat rc) = (Config.LogLevel (Config.plain c), Config.LogFormat (Config.plain c));
  ag_models : SupportedModels rc = Config.SupportedModels (Config.chain c);
  ag_drain : forall b, Drain.MkDrainConfig (DrainTTLOverride rc) (Drain.drainSlack (Drain.MkDrainConfig 0 (DrainSlack rc) b)) b =
    Drain.MkDrainConfig (Config.DrainTTLOverride (Config.timing c))
      (Drain.drainSlack (Drain.MkDrainConfig 0 (Config.DrainSlack (Config.timing c)) b)) b;
}.

(** What the commands ask of the environment beyond the sidecar: a stake that is
    a number and not negative, and an explicit lifetime of the drain marker that
    is positive. *)
Definition stake_readable : Prop :=
  Getenv "WORKER_STAKE" = EmptyString \/ exists v, SetString (Getenv "WORKER_STAKE") = Some v /\ 0 <= v.
Definition lifetime_readable (c : Config.t) : Prop :=
  Getenv "LIGHTCHAIN_DRAIN_TTL" = EmptyString \/ 0 < Config.DrainTTLOverride (Config.timing c).

Lemma commands_load c : Config.Load Getenv = Ok c -> stake_readable -> lifetime_readable c ->
  exists rc, LoadRegistration = Ok rc /\ agree c rc /\ (Config.Validate c = [] -> Validate rc = [] /\ ValidateForSettlement rc = []).
Proof.
  intros Hl Hstake Httl. pose proof (Config.Validate_nil c) as Hv. apply Config.Load_groups in Hl as (Hp & Hc & Ht & _).
  assert (exists stake, Config.silent load_stake stake) as [stake Hs].
  { unfold Config.silent, load_stake, Config.is_empty. case_bool_decide; [by eexists|]. destruct Hstake as [|(v & -> & ?)]; [done|].
    rewrite (proj2 (Z.ltb_ge v 0)) by done. by eexists. }
  unfold lifetime_readable in Httl. unfold Config.load_chain in Hc. unfold Config.load_timing in Ht. Config.hush.
  match goal with H : Config.silent (Config.parseDuration _ "LIGHTCHAIN_DRAIN_SLACK" _) ?d, H' : Config.silent (complain_if (?d <? 0) _) _ |- _ =>
    destruct (d <? 0) eqn:Hd; [done|]; apply Z.ltb_ge in Hd; destruct (drain_slack_agrees d H Hd) as (slack & Hslack & Hsame) end.
  rewrite Ht in Httl. cbn [Config.DrainTTLOverride] in Httl.
  match goal with H : Config.silent (Config.parseDuration _ "LIGHTCHAIN_DRAIN_TTL" _) _ |- _ => pose proof (drain_ttl_agrees _ H Httl) as Hdrain end.
  match goal with H : Config.silent (Config.load_models _) _ |- _ => pose proof (models_are_optional _ H) as Hmodels end.
  match goal with H : Config.silent (Config.required_address _ "JOB_REGISTRY_ADDRESS") _ |- _ => apply required_is_optional in H end.
  eexists. split; [|split].
  - apply silent_settled. unfold load_registration. repeat (eapply silent_then; [eassumption|]). reflexivity.
  - destruct c. cbn in *. subst. split; cbn; try done; [|intros b; f_equal].
    { unfold Config.envOrDefault, Config.is_empty. case_bool_decide; [by right|by left]. }
    unfold Drain.drainSlack. cbn. by destruct Hsame as [->|[-> ->]].
  - intros (Vc & Vt & _ & _ & _ & Vu & _)%Hv. unfold Config.check_chain, Config.check_timing, Config.check_upkeep in Vc, Vt, Vu.
    clear -Vc Vt Vu Hp Hc. destruct (Config.SearchEnabled (Config.timing c)); Config.no_complaints Vc; Config.no_complaints Vt; Config.no_complaints Vu;
      rewrite Hp, Hc in *; cbn in *; (split; [|by apply fail_if_nil]); unfold Validate; cbv zeta; cbn; repeat (apply fail_if_nil; split; [assumption|]); done.
Qed.

Lemma commands_need rc c : LoadRegistration = Ok rc -> Config.Load Getenv = Ok c -> stake_readable /\ lifetime_readable c.
Proof.
  intros Hl%Config.settled_ok (_ & _ & Ht & _)%Config.Load_groups. unfold load_registration in Hl. unfold Config.load_timing in Ht.
  assert (Config.Grows load_stake /\ Config.Grows load_drain_ttl /\ Config.Grows load_drain_slack) as (?&?&?).
  { unfold load_stake, load_drain_ttl, load_drain_slack. repeat split; Config.grow. }
  Config.hush. unfold stake_readable, lifetime_readable. rewrite Ht. cbn. split.
  - match goal with H : Config.silent load_stake _ |- _ => revert H end. unfold Config.silent, load_stake, Config.is_empty.
    case_bool_decide; [by left|]. destruct (SetString _) as [v|]; [|done]. destruct (Z.ltb_spec v 0); [done|]. right. eauto.
  - match goal with H : Config.silent load_drain_ttl _, H' : Config.silent (Config.parseDuration _ "LIGHTCHAIN_DRAIN_TTL" _) _ |- _ => revert H H' end.
    unfold Config.silent, load_drain_ttl, Config.parseDuration, Config.envOrDefault, Config.is_empty.
    case_bool_decide; [by left|]. destruct (ParseDuration _) as [d|]; [|done]. destruct (Z.leb_spec d 0); [done|]. intros _ [= <-]. by right.
Qed.

(** C33. An environment the sidecar loads is loaded by the operator's commands
    exactly when the stake they alone read is absent or a number that is not
    negative and a drain marker's lifetime is unset or positive. What they load
    then names the same key, nodes, contracts, gas price, models, logging and
    drain marker, and the same Redis if one is named, while without one the
    sidecar has a default and the commands none; and an environment that is
    valid for the sidecar is valid for every command. *)
Theorem operator_reads_the_sidecars_environment c : Config.Load Getenv = Ok c ->
  (is_ok LoadRegistration = true <-> stake_readable /\ lifetime_readable c) /\
  forall rc, LoadRegistration = Ok rc ->
    agree c rc /\ (Config.Validate c = [] -> Validate rc = [] /\ ValidateForSettlement rc = []).
Proof.
  intros Hl. pose proof (commands_load c Hl) as Hforth. split; [split|].
  - destruct LoadRegistration as [rc|] eqn:E; [|done]. intros _. by eapply commands_need.
  - intros [Hs Ht]. by destruct (Hforth Hs Ht) as (rc & -> & _).
  - intros rc Hrc. destruct (commands_need rc c Hrc Hl) as [Hs Ht]. destruct (Hforth Hs Ht) as (rc' & E & H).
    rewrite Hrc in E. by injection E as ->.
Qed.
End Load.
End RegistrationConfig.

Module WatchConfig.
Section Load.
Context `{A : AddressOps} `{U : URLs} `{T : ConfigText}.
Context (Getenv : string -> string).

Record t : Type := MkWatch {
  WebhookURL : string;
  Interval : Z;
  Cooldown : Z;
  MissedClaims : Z;
  WorkerAddress : Address;
  MetricsAddr : string;
  HeartbeatInterval : Z;
  RedisURL : string;
  RedisPassword : string;
  SessionManagerAddress : Address;
}.

(** The address to watch must not read as unset. *)
Definition watched_address : ld Address :=
  let raw := Getenv "WATCH_WORKER_ADDRESS" in
  if Config.is_empty raw then st_ret zero_address
  else if negb (IsHexAddress raw) || Config.is_zero (HexToAddress raw)
  then let! _ := complain "WATCH_WORKER_ADDRESS: must be a non-zero hex address" in st_ret zero_address
  else st_ret (HexToAddress raw).

Definition load_watch : ld t :=
  let webhook := Getenv "WATCH_WEBHOOK_URL" in
  let! interval := Config.parseDuration Getenv "WATCH_INTERVAL" "30s" in
  let! cooldown := Config.parseDuration Getenv "WATCH_COOLDOWN" "1h" in
  let! missed := Config.parseInt Getenv "WATCH_MISSED_CLAIMS" 3 in
  let! heartbeat := Config.parseDuration Getenv "HEARTBEAT_INTERVAL" "10s" in
  let! _ := if Config.is_empty webhook then complain "WATCH_WEBHOOK_URL is required"
            else complain_if (negb (Config.sidecar_url_ok webhook)) "WATCH_WEBHOOK_URL: must be an http(s) URL" in
  let! _ := complain_if (interval <=? 0) "WATCH_INTERVAL: must be positive" in
  let! _ := complain_if (cooldown <? 0) "WATCH_COOLDOWN: must be >= 0" in
  let! _ := complain_if (missed <? 0) "WATCH_MISSED_CLAIMS: must be >= 0" in
  let! _ := complain_if (heartbeat <=? 0) "HEARTBEAT_INTERVAL: must be positive" in
  let! manager := Config.optional_address Getenv "SESSION_MANAGER_ADDRESS" in
  let! worker := watched_address in
  st_ret (MkWatch webhook interval cooldown missed worker (Config.envOrDefault Getenv "WORKER_METRICS_ADDR" "127.0.0.1:9101")
            heartbeat (Config.envOrDefault Getenv "REDIS_URL" "redis://localhost:6379") (Getenv "REDIS_PASSWORD") manager).

Definition LoadWatch : result t := Config.settled "watch config errors" load_watch.

#[global] Instance watched_address_grows : Config.Grows watched_address.
Proof. unfold watched_address. Config.grow. Qed.

Lemma complain_if_silent c msg x : Config.silent (complain_if c msg) x -> c = false.
Proof. unfold Config.silent, complain_if. by destruct c. Qed.

Lemma webhook_ok w x : Config.silent (if Config.is_empty w then complain "WATCH_WEBHOOK_URL is required"
    else complain_if (negb (Config.sidecar_url_ok w)) "WATCH_WEBHOOK_URL: must be an http(s) URL") x -> Config.sidecar_url_ok w = true.
Proof. unfold Config.silent, complain_if. destruct (Config.is_empty w); [done|]. by destruct (Config.sidecar_url_ok w). Qed.

(** The watcher of a worker looks where that worker is: with settings both
    accept, it reads the metrics at the address the sidecar serves them on,
    expects its heartbeat in the sidecar's Redis at the sidecar's interval, and
    its claims in the same contract; it always has an [http(s)] webhook, a
    positive interval and a cooldown and claim limit that are not negative, and
    an address it was told to watch is not the zero address. *)
Theorem watch_looks_at_the_sidecar w : LoadWatch = Ok w ->
  (Config.sidecar_url_ok (WebhookURL w) = true /\ 0 < Interval w /\ 0 <= Cooldown w /\ 0 <= MissedClaims w /\
   0 < HeartbeatInterval w /\ (WorkerAddress w = zero_address <-> Getenv "WATCH_WORKER_ADDRESS" = EmptyString)) /\
  (forall c, Config.Load Getenv = Ok c ->
     MetricsAddr w = Config.MetricsListenAddr (Config.plain c) /\ HeartbeatInterval w = Config.HeartbeatInterval (Config.timing c) /\
     RedisURL w = Config.RedisURL (Config.plain c) /\ RedisPassword w = Config.RedisPassword (Config.plain c) /\
     SessionManagerAddress w = Config.SessionManagerAddress (Config.sortition c)).
Proof.
  intros Hw%Config.settled_ok. unfold load_watch in Hw. cbv zeta in Hw. Config.hush. subst w. cbn. split.
  - repeat match goal with H : Config.silent (complain_if _ _) _ |- _ => apply complain_if_silent in H end.
    match goal with H : Config.silent (if _ then _ else _) _ |- _ => apply webhook_ok in H end.
    match goal with H : Config.silent watched_address _ |- _ => revert H end. unfold Config.silent, watched_address, Config.is_empty, Config.is_zero.
    reflect_Z. case_bool_decide; [intros [= <-]; repeat split; done|].
    destruct (_ || _) eqn:E; [done|]. apply orb_false_iff in E as [_ E%bool_decide_eq_false]. intros [= <-]. repeat split; done.
  - intros c (-> & _ & Ht & _ & _ & _ & _ & _ & Hs)%Config.Load_groups. unfold Config.load_timing in Ht. unfold Config.load_sortition in Hs.
    Config.hush. rewrite Ht, Hs. cbn. unfold Config.silent in *. repeat split; congruence.
Qed.
End Load.
End WatchConfig.

(** ** A concrete environment *)
#[local] Existing Instances plain_addresses plain_urls Config.plain_text.
Definition operator_env : string -> string :=
  fun key => if bool_decide (key = "WATCH_WEBHOOK_URL"%string) then "https://hook"%string else Config.demo_env key.

Lemma operator_reads_the_sidecars_environment_witness :
  exists rc, RegistrationConfig.LoadRegistration Config.demo_env = Ok rc /\
    RegistrationConfig.agree Config.demo_env Config.demo_config rc /\
    RegistrationConfig.Validate rc = [] /\ RegistrationConfig.ValidateForSettlement rc = [].
Proof.
  destruct (RegistrationConfig.operator_reads_the_sidecars_environment Config.demo_env Config.demo_config) as [_ H]; [vm_compute; reflexivity|].
  exists (fst (RegistrationConfig.load_registration Config.demo_env [])).
  destruct (H (fst (RegistrationConfig.load_registration Config.demo_env []))) as [H1 H2]; [vm_compute; reflexivity|].
  split; [vm_compute; reflexivity|]. split; [exact H1|]. apply H2. vm_compute. reflexivity.
Defined.

Definition demo_watch : WatchConfig.t := fst (WatchConfig.load_watch operator_env []).
Lemma watch_looks_at_the_sidecar_witness : 0 < WatchConfig.Interval demo_watch /\
  WatchConfig.MetricsAddr demo_watch = Config.MetricsListenAddr (Config.plain (fst (Config.load_all operator_env []))).
Proof.
  destruct (WatchConfig.watch_looks_at_the_sidecar operator_env demo_watch) as [H1 H2]; [vm_compute; reflexivity|].
  split; [apply H1|]. refine (proj1 (H2 (fst (Config.load_all operator_env [])) _)). vm_compute. reflexivity.
Defined.

(** The two loaders differ on an explicit lifetime of zero. *)
Example zero_drain_ttl :
  is_ok (Config.Load (Config.with_setting "LIGHTCHAIN_DRAIN_TTL" "0s")) = true /\
  is_ok (RegistrationConfig.LoadRegistration (Config.with_setting "LIGHTCHAIN_DRAIN_TTL" "0s")) = false.
Proof. vm_compute. done. Qed.
