(* ===== verification/Init.v ===== *)
(** The operator's guided setup, [internal/cli/init.go]: the worker's key, the
    registration with its stake, the models it does not serve yet, and the
    preflight, each step skipped when it is already done. What it prints is
    left out. *)
From S2P Require Import Prelude Effects GoText Checkpoint Chain JobCalls Registration Operator Preflight.

#[local] Open Scope prog_scope.

(** The files and keys of [EnsureKey], go-ethereum's keystore among them, and
    the calls of the commands that [Run] is made of. A private key is its
    hexadecimal text. *)
Inductive InitE : Type -> Type :=
  | ReadKeystore : InitE (result bytes)
  | DecryptKey (data : bytes) : InitE (result string)
  | ReadKeyFile (file : string) : InitE (result string)
  | HexToECDSA (text : string) : InitE (result string)
  | GenerateKey : InitE (result string)
  | MkdirAll : InitE (result unit)
  | MkdirTemp : InitE (result string)
  | ImportECDSA (dir key : string) : InitE (result string)
  | RenameKeystore (path : string) : InitE (result unit)
  | RemoveAll (dir : string) : InitE unit
  | Op {X : Type} (e : OpE X) : InitE X
  | Pre {X : Type} (e : PreE X) : InitE X.

Module InitHandler.

(** [InitHandler]; [ModelIDs] and [ModelNames] are parallel. *)
Record t : Type := MkInit {
  Generate : bool;
  ImportKeyFile : string;
  ChainID : Z;
  Models : list (Z * string);
  WorkerStake : option Z;
  Preflight : Preflight.PreflightHandler;
  Yes : bool;
  ReconcileSeed : option Operator.ReconcileSeed;
}.

(** ** The worker's key *)

(** Where a new key comes from. *)
Inductive key_source : Type := Generated | ImportFrom (file : string).

(** The loop of [EnsureKey] over the lines typed in; its end is the end of the
    input. *)
Fixpoint key_prompt (lines : list string) : result key_source :=
  match lines with
  | [] => Err (errorf "no answer to the key prompt")
  | answer :: lines =>
      let a := to_lower (TrimSpace answer) in
      if bool_decide (a = "g"%string) || bool_decide (a = "generate"%string) then Ok Generated
      else if bool_decide (a = "i"%string) || bool_decide (a = "import"%string) then
        match lines with
        | [] => Err (errorf "no key file given")
        | file :: lines => if bool_decide (TrimSpace file = EmptyString) then key_prompt lines else Ok (ImportFrom (TrimSpace file))
        end
      else key_prompt lines
  end.

Definition choose_key (h : t) (stdin : list string) : result key_source :=
  if negb (bool_decide (ImportKeyFile h = EmptyString)) then Ok (ImportFrom (ImportKeyFile h))
  else if Generate h then Ok Generated
  else key_prompt stdin.

(** The parse error is dropped: it quotes the file. *)
Definition new_key (s : key_source) : prog InitE (result string) :=
  match s with
  | ImportFrom file =>
      raw <-? wrap_err "read key file" (call (ReadKeyFile file)) ;;
      r <- call (HexToECDSA (TrimPrefix "0x" (TrimSpace raw))) ;;
      Ret (match r with Err _ => Err (errorf "the file does not hold a hex private key") | Ok key => Ok key end)
  | Generated => wrap_err "generate worker key" (call GenerateKey)
  end.

Definition writeKeystore (key : string) : prog InitE (result unit) :=
  _ <-? wrap_err "create keystore directory" (call MkdirAll) ;;
  tmp <-? wrap_err "create keystore directory" (call MkdirTemp) ;;
  deferred
    (path <-? wrap_err "encrypt worker key" (call (ImportECDSA tmp key)) ;;
     wrap_err "write keystore" (call (RenameKeystore path)))
    (fun _ => call (RemoveAll tmp)).

Definition EnsureKey (h : t) (stdin : list string) : prog InitE (result string) :=
  r <- call ReadKeystore ;;
  match r with
  | Ok data =>
      stored <- call (DecryptKey data) ;;
      Ret (match stored with Err _ => Err (errorf "cannot open the worker key") | Ok key => Ok key end)
  | Err e =>
      if negb (errors_Is e ErrNotExist) then Ret (Err (wrap "read worker key" e))
      else
        match choose_key h stdin with
        | Err e => Ret (Err e)
        | Ok source =>
            key <-? new_key source ;;
            _ <-? writeKeystore key ;;
            Ret (Ok key)
        end
  end.

(** ** The steps of [Run] *)
Fixpoint check_models (ids : list Z) : prog InitE (result unit) :=
  match ids with
  | [] => Ret (Ok tt)
  | id :: ids =>
      whitelisted <-? wrap_err "read model" (call (Pre (IsModelWhitelisted id))) ;;
      if negb whitelisted then Ret (Err (errorf "model is not on this network's model list"))
      else
        enabled <-? wrap_err "read model" (call (Pre (IsModelEnabled id))) ;;
        if negb enabled then Ret (Err (errorf "model is on the list but disabled"))
        else check_models ids
  end.
Definition checkModels (h : t) : prog InitE (result unit) := check_models (fst <$> Models h).

(** The [Handler] of a command of [init]. *)
Definition command (models : list (Z * string)) (stake : option Z) (seed : option Operator.ReconcileSeed) : Operator.Handler :=
  Operator.MkHandler (fst <$> models) (snd <$> models) stake seed false.

Definition register (h : t) : prog InitE (result unit) :=
  stake <-? match WorkerStake h with
            | Some stake => Ret (Ok stake)
            | None => wrap_err "read the minimum stake" (call (Op OpMinWorkerStake))
            end ;;
  bal <-? wrap_err "read balance" (call (Op Balance)) ;;
  if bal <=? stake then Ret (Err (errorf "registering stakes and needs gas on top"))
  else
    confirmed <- (if Yes h then Ret true else line <- call (Op Ask) ;; Ret (Operator.confirm line)) ;;
    if negb confirmed then Ret (Err (errorf "registration not confirmed, nothing was staked"))
    else wrap_err "registration failed" (lift (@Op) (Operator.Register (command (Models h) (Some stake) (ReconcileSeed h)))).

(** The models the worker does not serve yet. *)
Fixpoint missing_models (models : list (Z * string)) (out : list (Z * string)) : prog InitE (result (list (Z * string))) :=
  match models with
  | [] => Ret (Ok out)
  | m :: models =>
      added <-? wrap_err "read the worker's models" (call (Pre (WorkerSupportsModel (fst m)))) ;;
      missing_models models (if added : bool then out else out ++ [m])
  end.

Definition addMissingModels (h : t) : prog InitE (result unit) :=
  missing <-? missing_models (Models h) [] ;;
  match missing with
  | [] => Ret (Ok tt)
  | _ => wrap_err "add models" (lift (@Op) (Operator.AddModels (command missing None None)))
  end.

Definition Run (h : t) : prog InitE (result unit) :=
  match Models h with
  | [] => Ret (Err (errorf "SUPPORTED_MODELS is empty"))
  | _ =>
      id <- call (Pre PreChainID) ;;
      match id with
      | Err _ => Ret (Err (errorf "cannot reach the chain RPC"))
      | Ok id =>
          if negb (i64_wrap id =? ChainID h) then Ret (Err (errorf "RPC_URL points at another network"))
          else
            _ <-? checkModels h ;;
            registered <-? wrap_err "read registration" (call (Op (Reg IsWorkerRegistered))) ;;
            _ <-? (if registered : bool then Ret (Ok tt) else register h) ;;
            _ <-? addMissingModels h ;;
            pf <- lift (@Pre) (Preflight.Run (Preflight h)) ;;
            Ret (if fst pf : bool then Ok tt else Err (errorf "preflight found problems"))
      end
  end.

(** ** The key on disk

    The keys put in place of the keystore, each from the file it was imported
    to. *)
Fixpoint placed (pending : list (string * string)) (tr : list (called InitE)) : list string :=
  match tr with
  | [] => []
  | Called e x :: tr =>
      (match e in InitE X return X -> list string with
       | ImportECDSA _ key => fun r => match r with Ok path => placed ((path, key) :: pending) tr | Err _ => placed pending tr end
       | RenameKeystore path => fun r =>
           match r with
           | Ok _ => (snd <$> filter (fun p => fst p = path) pending) ++ placed pending tr
           | Err _ => placed pending tr
           end
       | _ => fun _ => placed pending tr
       end) x
  end.

Definition key_post (tr : list (called InitE)) (r : result string) : Prop :=
  match r with
  | Ok key =>
      (exists data, Called ReadKeystore (Ok data) ∈ tr /\ Called (DecryptKey data) (Ok key) ∈ tr /\ placed [] tr = []) \/
      (exists e, Called ReadKeystore (Err e) ∈ tr /\ errors_Is e ErrNotExist = true /\ placed [] tr = [key])
  | Err _ => placed [] tr = []
  end.

(** [init] never replaces a worker key: it writes a keystore only after the
    read of the keystore said that there is none, a failed run has put no key
    in place, and the key it goes on with is the one the keystore then holds,
    the stored one or the new one; a run that asks nothing reads no line. *)
Theorem worker_key_is_never_replaced h stdin tr r : runs (EnsureKey h stdin) tr r ->
  key_post tr r /\
  (Generate h = true \/ ImportKeyFile h <> EmptyString -> forall stdin', runs (EnsureKey h stdin') tr r).
Proof.
  intros Hr. split.
  - refine (always_runs _ key_post _ _ _ Hr). clear Hr. unfold EnsureKey, new_key, writeKeystore.
    destruct (choose_key h stdin) as [[|file]|]; walk; unfold key_post; cbn;
      try match goal with |- match match ?y with _ => _ end with _ => _ end => destruct y end; cbn; try done;
      try (left; eexists; split; [left|split; [right; left|done]]);
      right; eexists; (split; [left|split; [by apply negb_false_iff|]]); by rewrite decide_True.
  - intros Ha stdin'. enough (choose_key h stdin' = choose_key h stdin) as He by (unfold EnsureKey; by rewrite He).
    unfold choose_key. case_bool_decide; cbn; [|done]. destruct Ha as [->|]; done.
Qed.

(** ** What [Run] spends *)
Inductive tx : Type := TxRegister (stake : Z) | TxAddModel (id : Z) | TxDeregister.
Definition reg_tx Y (e : RegE Y) : Y -> list tx :=
  match e with
  | RegisterWorker _ stake => fun _ => [TxRegister stake]
  | AddSupportedModel id => fun _ => [TxAddModel id]
  | DeregisterWorker => fun _ => [TxDeregister]
  | _ => fun _ => []
  end.
Definition op_tx Y (e : OpE Y) : Y -> list tx := match e with Reg e => reg_tx _ e | _ => fun _ => [] end.
Definition init_tx Y (e : InitE Y) : Y -> list tx := match e with Op e => op_tx _ e | _ => fun _ => [] end.
Definition spent (tr : list (called InitE)) : list tx := answered init_tx tr.

Lemma spent_app tr tr' : spent (tr ++ tr') = spent tr ++ spent tr'.
Proof. apply answered_app. Qed.

Lemma spent_op tr : spent (lift_called (@Op) <$> tr) = answered op_tx tr.
Proof. induction tr as [|[X e x] tr IH]; [done|]. change (init_tx X (Op e) x ++ spent (lift_called (@Op) <$> tr) = op_tx X e x ++ answered op_tx tr). by rewrite IH. Qed.
Lemma spent_pre tr : spent (lift_called (@Pre) <$> tr) = [].
Proof. by induction tr as [|[X e x] tr IH]. Qed.

(** A registration stakes what it was told to. *)
Definition stakes (s : Z) X (e : RegE X) : Prop := match e with RegisterWorker _ s' => s' = s | _ => True end.
Definition op_stakes (s : Z) X (e : OpE X) : Prop := match e with Reg e => stakes s _ e | _ => True end.

Lemma add_models_stakes s ids : uses (stakes s) (RegistrationManager.add_models ids).
Proof. induction ids as [|id ids IH]; cbn; [done|]. split; [done|]. by intros [[]|e]. Qed.
Lemma ensure_stakes s m key : uses (stakes s) (RegistrationManager.EnsureRegistered m key (Some s)).
Proof.
  unfold RegistrationManager.EnsureRegistered, RegistrationManager.resolve_stake, wrap_err, try.
  destruct (validateEncryptionPubKey key); [|done]. cbn. split; [done|]. intros [[]|e]; cbn; [|destruct (s <=? 0); cbn|done].
  - split; [done|]. by intros [].
  - done.
  - split; [done|]. intros [[]|e]; cbn; [|done]. apply add_models_stakes.
Qed.
Lemma lift_stakes {A} s (p : prog RegE A) : uses (stakes s) p -> uses (op_stakes s) (lift (@Reg) p).
Proof. exact (uses_lift (@Reg) (op_stakes s) p). Qed.
Lemma fresh_stakes s h : uses (op_stakes s) (Operator.freshWorkerSafeHead h).
Proof. unfold Operator.freshWorkerSafeHead. use_calls; exact I. Qed.
Lemma seed_stakes s h b e : uses (op_stakes s) (Operator.seedReconcileBlock h b e).
Proof. unfold Operator.seedReconcileBlock, Operator.storeReconcileBlock, try, deferred. use_calls; exact I. Qed.
Lemma register_stakes s models seed : uses (op_stakes s) (Operator.Register (command models (Some s) seed)).
Proof.
  unfold Operator.Register, wrap_err, try. destruct (Operator.ModelIDs _) as [|m ms]; [done|].
  apply uses_bind; [by apply uses_bind; [|intros []]|intros [key|e]; [|done]]. apply uses_bind; [apply fresh_stakes|]. intros seeded.
  apply uses_bind; [apply uses_bind; [apply lift_stakes, ensure_stakes|by intros []]|]. intros [[]|e]; [|done].
  apply uses_bind; [apply seed_stakes|done].
Qed.

Lemma stakes_spent s tr : Forall (called_in (op_stakes s)) tr -> forall s', TxRegister s' ∈ answered op_tx tr -> s' = s.
Proof.
  induction 1 as [|[X e x] tr Hc _ IH]; intros s'; cbn; [by intros ?%not_elem_of_nil|]. rewrite elem_of_app. intros [Hin|]; [|by apply IH].
  destruct e as [Y e| | | | | | | | | | | | | | | | |]; try by apply not_elem_of_nil in Hin. destruct e; cbn in *;
    try (by apply not_elem_of_nil in Hin); apply list_elem_of_singleton in Hin; congruence.
Qed.

(** What was read before anything is spent: the right network, every model
    whitelisted and enabled, the registration; and before a registration the
    balance above the stake, the stake the configured one or the contract's
    minimum, and a yes unless told not to ask. *)
Definition model_read (tr : list (called InitE)) (id : Z) : Prop :=
  Called (Pre (IsModelWhitelisted id)) (Ok true) ∈ tr /\ Called (Pre (IsModelEnabled id)) (Ok true) ∈ tr.
Record checked (h : t) (tr : list (called InitE)) : Prop := {
  ck_network : exists id, Called (Pre PreChainID) (Ok id) ∈ tr /\ i64_wrap id = ChainID h;
  ck_models : forall id, id ∈ fst <$> Models h -> model_read tr id;
  ck_registered : exists b, Called (Op (Reg IsWorkerRegistered)) (Ok b) ∈ tr;
}.
Record funded (h : t) (s : Z) (tr : list (called InitE)) : Prop := {
  fu_stake : WorkerStake h = Some s \/ WorkerStake h = None /\ Called (Op OpMinWorkerStake) (Ok s) ∈ tr;
  fu_balance : exists bal, Called (Op Balance) (Ok bal) ∈ tr /\ s < bal;
  fu_asked : Yes h = false -> exists line, Called (Op Ask) line ∈ tr /\ Operator.confirm line = true;
}.

(** Answers that leave nothing to do. *)
Definition done_reg X (e : RegE X) : X -> Prop := match e with IsWorkerRegistered => fun r => r = Ok true | _ => fun _ => True end.
Definition done_op X (e : OpE X) : X -> Prop := match e with Reg e => done_reg _ e | _ => fun _ => True end.
Definition done_pre X (e : PreE X) : X -> Prop := match e with WorkerSupportsModel _ => fun r => r = Ok true | _ => fun _ => True end.
Definition done_init X (e : InitE X) : X -> Prop :=
  match e with Op e => done_op _ e | Pre e => done_pre _ e | _ => fun _ => True end.
Definition already_done (c : called InitE) : Prop := match c with Called e x => done_init _ e x end.

Definition models_post (ids : list Z) (tr : list (called InitE)) (r : result unit) : Prop :=
  spent tr = [] /\ (r = Ok tt -> forall id, id ∈ ids -> model_read tr id).

Lemma check_models_always ids : always (check_models ids) (models_post ids).
Proof.
  induction ids as [|id ids IH]; [split; [done|by intros _ ? ?%not_elem_of_nil]|]. cbn [check_models]. unfold wrap_err, try.
  walk; try (split; [done|done]). reflect_Z. subst. eapply always_mono; [exact IH|]. intros tr r [Hs Hr]. split; [done|].
  intros Hok i [->|Hi]%elem_of_cons; [by split; [left|right; left]|]. destruct (Hr Hok i Hi). split; by do 2 right.
Qed.

Definition register_post (h : t) (tr : list (called InitE)) (r : result unit) : Prop :=
  spent tr = [] \/ exists s tr0 tr1, tr = tr0 ++ tr1 /\ spent tr0 = [] /\ funded h s tr0 /\ forall s', TxRegister s' ∈ spent tr1 -> s' = s.

Lemma spends_register h s : always (wrap_err "registration failed" (lift (@Op) (Operator.Register (command (Models h) (Some s) (ReconcileSeed h)))))
  (fun tr _ => forall s', TxRegister s' ∈ spent tr -> s' = s).
Proof.
  apply always_bind. eapply always_mono; [apply always_lift, uses_always, (register_stakes s)|].
  intros tr r (tr' & -> & Hu). destruct r; cbn [always]; rewrite app_nil_r, spent_op; by apply stakes_spent.
Qed.

Lemma init_register_always h : always (register h) (register_post h).
Proof.
  unfold register, try.
  assert (forall s tr0, spent tr0 = [] -> (WorkerStake h = Some s \/ WorkerStake h = None /\ Called (Op OpMinWorkerStake) (Ok s) ∈ tr0) ->
    always (bind (wrap_err "read balance" (call (Op Balance))) (fun r => match r with Err e => Ret (Err e) | Ok bal =>
      if bal <=? s then Ret (Err (errorf "registering stakes and needs gas on top"))
      else bind (if Yes h then Ret true else line <- call (Op Ask) ;; Ret (Operator.confirm line)) (fun confirmed =>
        if negb confirmed then Ret (Err (errorf "registration not confirmed, nothing was staked"))
        else wrap_err "registration failed" (lift (@Op) (Operator.Register (command (Models h) (Some s) (ReconcileSeed h))))) end))
    (fun tr r => register_post h (tr0 ++ tr) r)) as Hrest.
  { intros s tr0 Hs0 Hst. unfold wrap_err at 1. walk; try (left; by rewrite spent_app, Hs0); reflect_Z;
      (eapply always_mono; [apply spends_register|]); intros tr r Hs; right.
    - exists s, (tr0 ++ [Called (Op Balance) (Ok a)]), tr. rewrite <- app_assoc, spent_app, Hs0. split; [done|]. split; [done|]. split; [|done].
      split; [destruct Hst as [?|[? ?]]; [by left|right; set_solver]|exists a; split; [set_solver|done]|congruence].
    - exists s, (tr0 ++ [Called (Op Balance) (Ok a); Called (Op Ask) x]), tr. rewrite <- app_assoc, spent_app, Hs0. split; [done|]. split; [done|]. split; [|done].
      split; [destruct Hst as [?|[? ?]]; [by left|right; set_solver]|exists a; split; [set_solver|done]|].
      intros _. exists x. split; [set_solver|]. done. }
  destruct (WorkerStake h) as [s|] eqn:Es; [exact (Hrest s [] eq_refl (or_introl eq_refl))|]. cbn [bind wrap_err call always]. unfold wrap_err at 1. cbn [bind always].
  intros [s|e]; cbn [bind always]; [|by left]. apply (Hrest s [Called (Op OpMinWorkerStake) (Ok s)]); [done|]. right. split; [done|set_solver].
Qed.

Definition no_stake (tr : list (called InitE)) : Prop := forall s, TxRegister s ∉ spent tr.

(** The models found missing are those the chain says the worker lacks. *)
Lemma missing_always models : forall out, always (missing_models models out) (fun tr r => spent tr = [] /\
  forall ms, r = Ok ms -> Forall already_done tr -> ms = out).
Proof.
  induction models as [|m models IH]; intros out; cbn [missing_models]; [by split; [|intros ms [= <-]]|]. unfold wrap_err, try.
  cbn [bind call always]. intros [added|e]; cbn [bind always]; [|by split].
  eapply always_mono; [apply IH|]. intros tr r [Hs Hr]. split; [done|]. intros ms Hms [Hd Ht]%Forall_cons.
  specialize (Hr ms Hms Ht). cbn in Hd. by injection Hd as ->.
Qed.

Lemma add_each_adds ids : forall a f, always (Operator.add_each ids a f) (fun tr _ => forall s, TxRegister s ∉ answered op_tx tr).
Proof.
  induction ids as [|id ids IH]; intros a f; cbn [Operator.add_each]; [by intros s ?%not_elem_of_nil|]. cbn [bind call always].
  intros [[]|e]; cbn [bind]; (eapply always_mono; [apply IH|]); intros tr r H s; cbn; rewrite elem_of_cons; intros [?|?]; [done|by apply (H s)|done|by apply (H s)].
Qed.

Definition add_post (tr : list (called InitE)) (r : result unit) : Prop :=
  no_stake tr /\ (Forall already_done tr -> spent tr = []).

Lemma add_missing_always h : always (addMissingModels h) add_post.
Proof.
  unfold addMissingModels, try. apply always_bind. eapply always_mono; [apply missing_always|]. intros tr r [Hs Hr]. unfold add_post, no_stake.
  destruct r as [ms|e]; cbn [always]; [|rewrite app_nil_r, Hs; by split; [intros s ?%not_elem_of_nil|]].
  specialize (Hr ms eq_refl). destruct ms as [|m ms]; cbn [always]; [rewrite app_nil_r, Hs; by split; [intros s ?%not_elem_of_nil|]|].
  assert (always (Operator.AddModels (command (m :: ms) None None)) (fun tr _ => forall s, TxRegister s ∉ answered op_tx tr)) as Ha.
  { unfold Operator.AddModels. cbn [command Operator.ModelIDs Operator.ModelNames fmap list_fmap]. case_match; [by intros s ?%not_elem_of_nil|].
    apply always_bind. eapply always_mono; [apply (add_each_adds (fst m :: (fst <$> ms)))|]. intros tr' r' H'. cbn [always]. by rewrite app_nil_r. }
  apply always_bind. eapply always_mono; [apply always_lift, Ha|]. intros tr' r (tr1 & -> & H'). destruct r; cbn [always];
    rewrite app_nil_r, spent_app, Hs, spent_op; (split; [done|]); intros [Hd _]%Forall_app; by specialize (Hr Hd).
Qed.

(** Nothing is spent before the checks, and no stake without the funds. *)
Definition spends_after_checks (h : t) (tr : list (called InitE)) : Prop :=
  spent tr = [] \/ exists tr0 tr1, tr = tr0 ++ tr1 /\ spent tr0 = [] /\ checked h tr0 /\
    forall s, TxRegister s ∈ spent tr1 -> exists tr2 tr3, tr1 = tr2 ++ tr3 /\ spent tr2 = [] /\ funded h s tr2.

(** The part of a run after the checks. *)
Lemma tail_always h : always (addm <-? addMissingModels h ;; pf <- lift (@Pre) (Preflight.Run (Preflight h)) ;;
    Ret (if fst pf : bool then Ok tt else Err (errorf "preflight found problems")))
  (fun tr r => add_post tr r /\ (r = Ok tt -> exists tr0 tr1, tr = tr0 ++ (lift_called (@Pre) <$> tr1) /\ Preflight.ready (Preflight h) tr1)).
Proof.
  unfold try. apply always_bind. eapply always_mono; [apply add_missing_always|]. intros tr r [Hn Hd].
  destruct r as [[]|e]; cbn [always]; [|rewrite app_nil_r; by split].
  apply always_bind. eapply always_mono; [apply always_lift, Preflight.run_always|]. intros tr' [ok rep] (tr1 & -> & Hr). cbn [always fst].
  rewrite app_nil_r. split.
  - unfold add_post, no_stake in *. rewrite spent_app, spent_pre, app_nil_r. split; [done|]. by intros [? _]%Forall_app; apply Hd.
  - intros Hok. exists tr, tr1. split; [done|]. destruct Hr as [_ Hr]. destruct ok; [by apply Hr|done].
Qed.

Definition run_post (h : t) (tr : list (called InitE)) (r : result unit) : Prop :=
  spends_after_checks h tr /\ (Forall already_done tr -> spent tr = []) /\
  (r = Ok tt -> exists tr0 tr1, tr = tr0 ++ (lift_called (@Pre) <$> tr1) /\ Preflight.ready (Preflight h) tr1).

Lemma register_then_tail h tr0 : spent tr0 = [] -> checked h tr0 ->
  always (_ <-? register h ;; _ <-? addMissingModels h ;; pf <- lift (@Pre) (Preflight.Run (Preflight h)) ;;
    Ret (if fst pf : bool then Ok tt else Err (errorf "preflight found problems")))
  (fun tr r => spends_after_checks h (tr0 ++ tr) /\
    (r = Ok tt -> exists tr1 tr2, tr = tr1 ++ (lift_called (@Pre) <$> tr2) /\ Preflight.ready (Preflight h) tr2)).
Proof.
  intros Hs0 Hc. unfold try at 1. apply always_bind. eapply always_mono; [apply init_register_always|]. intros tr r Hr.
  assert (forall tr', no_stake tr' -> spends_after_checks h (tr0 ++ tr ++ tr')) as Hsp.
  { intros tr' Hn. right. exists tr0, (tr ++ tr'). split; [done|]. split; [done|]. split; [done|]. intros s Hin. rewrite spent_app, elem_of_app in Hin.
    destruct Hin as [Hin|Hin]; [|by apply Hn in Hin]. destruct Hr as [Hr|(s0 & ta & tb & -> & Ha & Hf & Hb)]; [rewrite Hr in Hin; by apply not_elem_of_nil in Hin|].
    rewrite spent_app, Ha in Hin. apply Hb in Hin as ->. exists ta, (tb ++ tr'). by rewrite <- app_assoc. }
  destruct r as [[]|e]; cbn [always]; [|split; [apply Hsp; by intros s ?%not_elem_of_nil|done]].
  eapply always_mono; [apply tail_always|]. intros tr' r [[Hn _] Hok]. split; [by apply Hsp|].
  intros E. destruct (Hok E) as (t1 & t2 & -> & ?). exists (tr ++ t1), t2. by rewrite app_assoc.
Qed.

Lemma idle_post h tr r : spent tr = [] -> r <> Ok tt -> run_post h tr r.
Proof. by repeat split; [left| |]. Qed.

Lemma init_run_always h : always (Run h) (run_post h).
Proof.
  unfold Run. destruct (Models h) as [|m ms] eqn:Em; [by apply idle_post|]. cbn [bind call always]. intros [id|e]; cbn [bind always]; [|by apply idle_post].
  destruct (Z.eqb_spec (i64_wrap id) (ChainID h)) as [Hid|]; cbn [negb always]; [|by apply idle_post].
  unfold try at 1. apply always_bind. eapply always_mono; [apply check_models_always|]. intros tr0 r0 [Hs0 Hm].
  destruct r0 as [[]|e]; cbn [always]; [|apply idle_post; [cbn; by rewrite app_nil_r|done]]. specialize (Hm eq_refl).
  unfold try at 1, wrap_err at 1. cbn [bind call always]. intros [registered|e]; cbn [bind always].
  2: { apply idle_post; [|done]. change (spent ([Called (Pre PreChainID) (Ok id)] ++ tr0 ++ [Called (Op (Reg IsWorkerRegistered)) (Err e)]) = []). by rewrite !spent_app, Hs0. }
  set (pre := [Called (Pre PreChainID) (Ok id)] ++ tr0 ++ [Called (Op (Reg IsWorkerRegistered)) (Ok registered)]).
  assert (spent pre = []) as Hsp by (unfold pre; by rewrite !spent_app, Hs0).
  assert (checked h pre) as Hc.
  { split; [exists id; split; [left|done]|intros i Hi; destruct (Hm i Hi); split; unfold pre; set_solver|exists registered; unfold pre; set_solver]. }
  assert (forall tr, Called (Pre PreChainID) (Ok id) :: tr0 ++ Called (Op (Reg IsWorkerRegistered)) (Ok registered) :: tr = pre ++ tr) as Hcat
    by (intros; unfold pre; by rewrite <- !app_assoc).
  destruct registered.
  - cbn [try bind]. eapply always_mono; [apply tail_always|]. intros tr r [[Hn Hd] Hok]. rewrite Hcat. split; [|split].
    + right. exists pre, tr. split; [done|]. split; [done|]. split; [done|]. by intros s Hin%Hn.
    + intros [_ Ht]%Forall_app. by rewrite spent_app, Hsp, (Hd Ht).
    + intros E. destruct (Hok E) as (t1 & t2 & -> & ?). exists (pre ++ t1), t2. by rewrite app_assoc.
  - eapply always_mono; [apply (register_then_tail h pre Hsp Hc)|]. intros tr r [Ha Hok]. rewrite Hcat. split; [done|]. split.
    + intros [Hd _]%Forall_app. unfold pre in Hd. rewrite !Forall_app in Hd. destruct Hd as (_ & _ & [Hd _]%Forall_cons). discriminate Hd.
    + intros E. destruct (Hok E) as (t1 & t2 & -> & ?). exists (pre ++ t1), t2. by rewrite app_assoc.
Qed.

(** C37. [init] spends nothing until it has checked and skips what is done: no
    transaction is sent before the node was found to serve the configured
    chain, every model to be whitelisted and enabled, and the registration was
    read; a registration stakes exactly the configured stake or the contract's
    minimum, from a balance that exceeds it, and after a yes unless told not to
    ask; when the worker is registered and serves its models already, nothing
    is sent at all; and [init] reports success only after a preflight that
    found everything ready. *)
Theorem init_spends_only_when_checked h tr r : runs (Run h) tr r ->
  (spent tr = [] \/ exists tr0 tr1, tr = tr0 ++ tr1 /\ spent tr0 = [] /\ checked h tr0 /\
     forall s, TxRegister s ∈ spent tr1 -> exists tr2 tr3, tr1 = tr2 ++ tr3 /\ spent tr2 = [] /\ funded h s tr2) /\
  (Forall already_done tr -> spent tr = []) /\
  (r = Ok tt -> exists tr0 tr1, tr = tr0 ++ (lift_called (@Pre) <$> tr1) /\ Preflight.ready (Preflight h) tr1).
Proof. intros Hr. exact (always_runs _ _ _ _ (init_run_always h) Hr). Qed.

(** ** A run *)
Definition demo_init (registered : bool) : handler InitE unit := fun X e w =>
  match e in InitE X return X * unit with
  | ReadKeystore => (if registered then Ok "{}"%string else Err (errors_New ErrNotExist "no such file"), tt)
  | DecryptKey _ => (Ok "k"%string, tt)
  | ReadKeyFile _ => (Ok " 0xab "%string, tt)
  | HexToECDSA text => (Ok text, tt)
  | GenerateKey => (Ok "new"%string, tt)
  | MkdirAll => (Ok tt, tt)
  | MkdirTemp => (Ok "tmp"%string, tt)
  | ImportECDSA _ _ => (Ok "tmp/f"%string, tt)
  | RenameKeystore _ => (Ok tt, tt)
  | RemoveAll _ => (tt, tt)
  | Op e => (if registered then Operator.demo_registered 0 _ e else Operator.demo_chain 0 0 _ e) tt
  | Pre e => Preflight.demo_node false _ e tt
  end.
Definition demo_setup : t := MkInit false "" 8200 [(7, "qwen"%string)] None Preflight.demo_preflight false None.
Definition demo_run (registered : bool) := fst (interp (demo_init registered) (Run demo_setup) tt).
Definition demo_key := fst (interp (demo_init false) (EnsureKey demo_setup ["x"; " I "; "/tmp/key"; "y"]%string) tt).

Example demo_inits : spent (fst (demo_run false)) = [TxRegister 100; TxAddModel 7] /\ spent (fst (demo_run true)) = [] /\
  snd demo_key = Ok "ab"%string /\ key_prompt ["i"; ""; "what?"]%string = Err (errorf "no answer to the key prompt").
Proof. vm_compute. done. Qed.

Lemma worker_key_is_never_replaced_witness : placed [] (fst demo_key) = ["ab"%string].
Proof.
  destruct (proj1 (worker_key_is_never_replaced demo_setup ["x"; " I "; "/tmp/key"; "y"]%string (fst demo_key) (Ok "ab"%string)
    (interp_run (demo_init false) _ tt))) as [(data & _ & _ & H)|(e & _ & _ & H)]; [|exact H].
  vm_compute in H. discriminate H.
Defined.

Lemma init_spends_only_when_checked_witness :
  spent (fst (demo_run true)) = [] /\
  exists tr0 tr1, fst (demo_run false) = tr0 ++ tr1 /\ spent tr0 = [] /\ checked demo_setup tr0.
Proof.
  split.
  - apply (proj1 (proj2 (init_spends_only_when_checked demo_setup (fst (demo_run true)) (snd (demo_run true))
      (interp_run (demo_init true) _ tt)))). vm_compute. repeat first [apply Forall_nil_2 | apply Forall_cons_2]; done.
  - destruct (proj1 (init_spends_only_when_checked demo_setup (fst (demo_run false)) (snd (demo_run false)) (interp_run (demo_init false) _ tt)))
      as [H|(tr0 & tr1 & E & Hs & Hc & _)]; [vm_compute in H; discriminate|by exists tr0, tr1].
Defined.
End InitHandler.
