(* ===== verification/Construct.v ===== *)
(** Building the worker, [New] and [Main] of [internal/service/service.go]: the
    keys, the chain client, the check of the registration, the stores, the job
    handler with its publisher, and the intake of the mode the configuration
    asks for. What is built is Lifecycle's [Service], which [Main] then runs.
    Loggers, metrics and time limits are left out. *)
From Stdlib Require Import Ascii.
From S2P Require Import Prelude Effects GoText Checkpoint Chain ReleaseConfig ReleaseStore JobCalls Ollama Inference JobWatcher SessionWatcher Registration Lifecycle Dial EnvText Config Models.

#[local] Open Scope prog_scope.

Section Calls.
Context `{A : AddressOps}.

(** What [New] calls. [Bind]: the bindings of a contract; [NewRedisClient]
    connects lazily and does not fail; [StartupReconcile] is the reconciler's
    first pass; [Life], [Reg] and [Llm] are the calls of the parts. *)
Inductive NewE : Type -> Type :=
  | ReadWorkerKeystore (path : string) : NewE (result bytes)
  | DecryptWorkerKey (json : bytes) (password : string) : NewE (result Address)
  | LoadOrGenerate (path password : string) : NewE (result bytes)
  | NewSubpoolCoordinator : NewE unit
  | ConnectRPC (rpcURL : string) : NewE (result unit)
  | Bind (contract : string) (at_ : Address) : NewE (result unit)
  | NewSessionKeyStore (path password : string) : NewE (result unit)
  | ParseRedisURL (url password : string) : NewE (result unit)
  | NewRedisClient : NewE unit
  | BindMetrics : NewE (result unit)
  | OpenFileStore (path : string) (id : FileStore.StoreIdentity) : NewE (result unit)
  | StartupReconcile : NewE (result unit)
  | Authenticate (url : string) : NewE (result unit)
  | PendingNonceAt : NewE (result Z)
  | NonceAt : NewE (result Z)
  | Seed (pending latest : Z) : NewE unit
  | NewCursorStore (dir : string) : NewE (result unit)
  | Reg {X : Type} (e : RegE X) : NewE X
  | Llm {X : Type} (e : OllamaE X) : NewE X
  | Life {X : Type} (e : LifeE X) : NewE X.
End Calls.

Module Construct.

(** How [New] ends: with a service, with an error, or by the panic of a method
    called on a nil pointer. *)
Inductive outcome (X : Type) : Type := Built (x : X) | Failed (e : error) | Panicked.
Arguments Built {X} x.
Arguments Failed {X} e.
Arguments Panicked {X}.

Inductive blobs : Type := RedisBlobs | BeaconBlobs.

Section New.
Context `{A : AddressOps} {U : URLs} {T : ConfigText} {J : OllamaJSON}.
Context (Getenv : string -> string) (range : gmap string string -> list (string * string)) (protocolVersion : Z).

(** [if err != nil { cleanup; return nil, err }]. *)
Definition need {X Y} (p : prog NewE (result X)) (cleanup : prog NewE unit) (k : X -> prog NewE (outcome Y)) : prog NewE (outcome Y) :=
  r <- p ;;
  match r with
  | Ok x => k x
  | Err e => _ <- cleanup ;; Ret (Failed e)
  end.

Definition nothing : prog NewE unit := Ret tt.
Definition close_chain : prog NewE unit := call (Life CloseChainClient).
Definition close_both (redis : bool) : prog NewE unit :=
  _ <- (if redis then _ <- call (Life CloseRedis) ;; Ret tt else Ret tt) ;;
  close_chain.

(** A binding of [NewChainClient]; its failure closes the connection. *)
Definition bind_contract (name : string) (at_ : Address) : prog NewE (result unit) :=
  r <- call (Bind name at_) ;;
  match r with
  | Ok _ => Ret (Ok tt)
  | Err e => _ <- call (Life CloseChainClient) ;; Ret (Err (wrap ("bind " +:+ name) e))
  end.
Definition bind_if_set (name : string) (at_ : Address) : prog NewE (result unit) :=
  if bool_decide (at_ = zero_address) then Ret (Ok tt) else bind_contract name at_.

(** [NewChainClient], with [DialRPC]; the key is not nil. *)
Definition NewChainClient (rpcURL : string) (chainID : Z) (registry aiConfig jobRegistry sessionManager : Address) (gasMulBps : Z)
    : prog NewE (result unit) :=
  if chainID <=? 0 then Ret (Err (errorf "chainID must be positive"))
  else if gasMulBps <=? 0 then Ret (Err (errorf "gasMulBps must be positive"))
  else
    _ <-? wrap_err "dial RPC"
            (match Dial.DialRPC rpcURL Dial.DefaultRPCTimeout with
             | Err e => Ret (Err e)
             | Ok _ => call (ConnectRPC rpcURL)
             end) ;;
    _ <-? bind_contract "WorkerRegistry" registry ;;
    _ <-? bind_contract "AIConfig" aiConfig ;;
    _ <-? bind_if_set "JobRegistry" jobRegistry ;;
    bind_if_set "SessionManager" sessionManager.

Section Configured.
Context (c : Config.t).
Abbreviation plain := (Config.plain c).
Abbreviation chain := (Config.chain c).
Abbreviation timing := (Config.timing c).
Abbreviation generation := (Config.generation c).
Abbreviation guard := (Config.guard c).
Abbreviation voice := (Config.voice c).
Abbreviation sortition := (Config.sortition c).

(** ** The parts *)

(** The signing key's address and the ECDH key's public half. *)
Definition load_keys : prog NewE (result (Address * bytes)) :=
  json <-? wrap_err "read keystore" (call (ReadWorkerKeystore (Config.WorkerKeystorePath plain))) ;;
  addr <-? wrap_err "decrypt Ethereum keystore" (call (DecryptWorkerKey json (Config.WorkerKeystorePassword plain))) ;;
  ecdh <-? wrap_err "load ECDH keystore" (call (LoadOrGenerate (Config.EncryptionKeystorePath plain) (Config.WorkerKeystorePassword plain))) ;;
  Ret (Ok (addr, ecdh)).

Definition connect : prog NewE (result unit) :=
  NewChainClient (Config.RPCURL plain) (Config.ChainID chain) (Config.WorkerRegistryAddress chain) (Config.AIConfigAddress chain)
    (Config.JobRegistryAddress chain) (Config.SessionManagerAddress sortition) (Config.GasPriceMultiplierBps chain).

Definition ollama_client : OllamaClient.t :=
  OllamaClient.MkOllama (Config.OllamaURL plain)
    (MkOptions (Config.OllamaKeepAlive plain) (Config.OllamaNumPredict generation) (Config.OllamaNumCtx generation)
       (Some (Config.OllamaThink generation)) "" None None).

(** The models are looked at, and those that think get their allowance. *)
Definition model_options : prog NewE (gmap string ClientOptions) :=
  _ <- lift (@Llm A) (OllamaClient.VerifyModels ollama_client (Config.SupportedModels chain)) ;;
  if 0 <? Config.OllamaReasoningNumPredict generation then
    thinking <- lift (@Llm A) (OllamaClient.ThinkingModels ollama_client (Config.SupportedModels chain)) ;;
    Ret (OllamaClient.WithReasoningAllowance (Config.ModelOptions generation) (fst thinking)
           (Config.OllamaNumPredict generation) (Config.OllamaReasoningNumPredict generation))
  else Ret (Config.ModelOptions generation).

(** [redisOptions] and [redis.NewClient]. *)
Definition dial_redis : prog NewE (result bool) :=
  _ <-? wrap_err "parse Redis URL" (call (ParseRedisURL (Config.RedisURL plain) (Config.RedisPassword plain))) ;;
  _ <- call NewRedisClient ;;
  Ret (Ok true).

(** The switch over [BLOB_MODE]. *)
Definition open_blobs : prog NewE (result (blobs * bool)) :=
  let mode := to_lower (TrimSpace (Getenv "BLOB_MODE")) in
  if bool_decide (mode = "redis"%string) then _ <-? dial_redis ;; Ret (Ok (RedisBlobs, true))
  else if Config.is_empty mode || bool_decide (mode = "beacon"%string) then Ret (Ok (BeaconBlobs, false))
  else Ret (Err (errorf "unsupported BLOB_MODE")).

Definition external : bool := negb (Config.is_empty (Config.WorkerGatewayURL plain)).
Definition sorting : bool := Config.SortitionEnabled sortition.
Definition internal_redis (redis : bool) : prog NewE (result bool) :=
  if negb external && negb redis then dial_redis else Ret (Ok redis).

Definition identity (worker : Address) : FileStore.StoreIdentity :=
  FileStore.MkIdentity (u64_wrap (Config.ChainID chain)) (Config.JobRegistryAddress chain) worker.

Definition capabilities : list string :=
  if Config.SearchEnabled timing && negb (Config.is_empty (Config.TavilyAPIKey plain)) then [RegistrationManager.SearchCapability] else [].

(** ** The job handler

    The [HandlerConfig] of the first handler, and that of gateway mode, whose
    publisher cannot stream. *)
Definition direct_config (opts : gmap string ClientOptions) : HandlerConfig := {|
  AckTxTimeout := Config.AckTxTimeout timing;
  BlobTxTimeout := Config.BlobTxTimeout timing;
  ChainID := Some (Config.ChainID chain);
  JobRegistryAddr := Config.JobRegistryAddress chain;
  AckOverlapEnabled := Config.AckOverlapEnabled timing;
  StreamEnabled := Config.OllamaStream generation;
  StreamReasoning := Config.StreamReasoning generation;
  StreamChunkTokens := Config.StreamChunkTokens generation;
  StreamChunkInterval := Config.StreamChunkInterval generation;
  ModelOptions := opts;
  DeadlineGuardEnabled := Config.DeadlineGuardEnabled guard;
  SettleReserve := Config.SettleReserve guard;
  CompletionReserve := Config.CompletionReserve guard;
  MinInferenceBudget := Config.MinInferenceBudget guard;
  STTEnabled := Config.STTEnabled voice;
  TTSEnabled := Config.TTSEnabled voice;
  TTSVoice := Config.TTSVoice voice;
  SpeechModelName := Config.SpeechModelName voice;
  TTSMaxChars := Config.TTSMaxChars voice;
  TTSTimeout := Config.TTSTimeout voice;
  SearchMaxResults := Config.SearchMaxResults timing;
  SearchTimeout := Config.SearchTimeout timing;
|}.
Definition gateway_config (opts : gmap string ClientOptions) : HandlerConfig := {|
  AckTxTimeout := Config.AckTxTimeout timing;
  BlobTxTimeout := Config.BlobTxTimeout timing;
  ChainID := Some (Config.ChainID chain);
  JobRegistryAddr := Config.JobRegistryAddress chain;
  AckOverlapEnabled := Config.AckOverlapEnabled timing;
  StreamEnabled := false;
  StreamReasoning := false;
  StreamChunkTokens := 0;
  StreamChunkInterval := 0;
  ModelOptions := opts;
  DeadlineGuardEnabled := Config.DeadlineGuardEnabled guard;
  SettleReserve := Config.SettleReserve guard;
  CompletionReserve := Config.CompletionReserve guard;
  MinInferenceBudget := Config.MinInferenceBudget guard;
  STTEnabled := Config.STTEnabled voice;
  TTSEnabled := Config.TTSEnabled voice;
  TTSVoice := Config.TTSVoice voice;
  SpeechModelName := Config.SpeechModelName voice;
  TTSMaxChars := Config.TTSMaxChars voice;
  TTSTimeout := Config.TTSTimeout voice;
  SearchMaxResults := Config.SearchMaxResults timing;
  SearchTimeout := Config.SearchTimeout timing;
|}.

(** [NewJobHandler] over the worker's chain and model clients: a nil publisher
    is replaced by the one over Redis, if there is a Redis client. [range] is
    the order in which the runtime yields the table's entries. *)
Definition NewJobHandler (redis : bool) (cfg : HandlerConfig) (ModelIDToName : gmap string string) (publisher : option bool)
    (checkpoints searcher : bool) : JobHandler := {|
  cfg := cfg;
  ollamaClient := MkClient (OllamaClient.opts ollama_client) true true true;
  deadline_client := true;
  async_ack_client := true;
  responsePublisher := match publisher with None => if redis then Some true else None | Some _ => publisher end;
  checkpoints := checkpoints;
  releaseTracker := false;
  voiceEngine := false;
  searcher := searcher;
  priorJobs := false;
  modelIDToName := Inference.model_table (range ModelIDToName);
|}.

(** [SetReleaseTracker], [SetVoiceEngine] when there is an engine, and
    [SetPriorJobLister]. *)
Definition installed (engine : bool) (h : JobHandler) : JobHandler :=
  MkHandler (cfg h) (ollamaClient h) (deadline_client h) (async_ack_client h) (responsePublisher h) (checkpoints h) true engine (searcher h)
    true (modelIDToName h).

(** The handler of the mode; [gateway]: the one over the gateway's HTTP
    publisher. Checkpoints are kept in Redis. *)
Definition job_handler (opts : gmap string ClientOptions) (tbl : Models.tables) (redis gateway : bool) : JobHandler :=
  installed (Config.STTEnabled voice || Config.TTSEnabled voice)
    (NewJobHandler redis (if gateway then gateway_config opts else direct_config opts) (Models.names tbl)
       (if gateway then Some false else if sorting && external then Some true else None) redis (Config.SearchEnabled timing)).

(** ** The service *)
Record built : Type := MkBuilt {
  service : Service.Service;
  pipeline_handler : JobHandler;
  blob_io : blobs;
  heartbeat_monitor : option Heartbeat.Monitor;
  asynq_queue : option string;
  session_watcher : option SessionWatcher.config;
  job_watcher : option JobWatcher.config;
  advertisedModels : list string;
  advertisedCaps : list string;
  release_settings : ReleaseConfig.Config;
}.

Definition buildMetricsServer : bool := negb (Config.is_empty (Config.MetricsListenAddr plain)).

(** The [Service] literals; the stores and the chain client are always there. *)
Definition service_of (monitor asynq gw stream watchers redis : bool) : Service.Service :=
  let r := Config.ReleaseEnabled (Config.release c) in
  Service.MkService buildMetricsServer asynq monitor gw stream watchers r r true redis true true
    (Drain.MkDrainConfig (Config.DrainTTLOverride timing) (Config.DrainSlack timing) true).

(** The coordinator learns of transactions an earlier process left. *)
Definition seed_coordinator : prog NewE unit :=
  pending <- call PendingNonceAt ;;
  latest <- call NonceAt ;;
  match pending, latest with
  | Ok p, Ok l => call (Seed p l)
  | _, _ => Ret tt
  end.

Definition checksumHexNoPrefix (worker : Address) : string :=
  let hex := Hex worker in String.substring 2 (String.length hex - 2) hex.
Definition monitor_of (worker : Address) (tbl : Models.tables) : Heartbeat.Monitor :=
  Heartbeat.MkMonitor (Config.HeartbeatInterval timing) (Config.OllamaURL plain) (checksumHexNoPrefix worker)
    (Models.modelHexStrings tbl) capabilities (Config.MaxConcurrentJobs timing).

(** The chain watchers; a mask that cannot be read is the empty one. *)
Definition watchers (worker : Address) : prog NewE (SessionWatcher.config * JobWatcher.config) :=
  _ <- lift (@Reg A) (RegistrationManager.EnsureCapabilities (RegistrationManager.DesiredCapabilities
         (Config.SearchEnabled timing && negb (Config.is_empty (Config.TavilyAPIKey plain))))) ;;
  caps <- call (Reg GetWorkerCapabilities) ;;
  let ownCaps := match caps with Ok m => m | Err _ => 0 end in
  Ret (SessionWatcher.NewSessionWatcher (Config.MaxConcurrentJobs timing) (Config.SortitionChunkSize sortition)
         (Config.SortitionConfirmations sortition) (Some ownCaps) (Config.SortitionSessionLookbackBlocks sortition),
       JobWatcher.NewJobWatcher worker (Config.MaxConcurrentJobs timing) (Config.SortitionChunkSize sortition)
         (Config.SortitionConfirmations sortition) (Config.SortitionSessionRetryLimit sortition)
         (Config.SortitionSessionLookbackBlocks sortition)).

(** The end of [New] in gateway mode, and in the other two. *)
Definition finish_gateway (tbl : Models.tables) (opts : gmap string ClientOptions) (b : blobs) (redis : bool) : prog NewE (outcome built) :=
  need (wrap_err "authenticate with worker-gateway" (call (Authenticate (Config.WorkerGatewayURL plain)))) (close_both redis) (fun _ =>
  _ <- seed_coordinator ;;
  Ret (Built (MkBuilt (service_of false false true false false redis) (job_handler opts tbl redis true) b None None None None
                (Models.modelHexStrings tbl) capabilities (Config.buildReleaseConfig (Config.release c))))).

Definition finish_direct (worker : Address) (tbl : Models.tables) (opts : gmap string ClientOptions) (b : blobs) (redis : bool)
    : prog NewE (outcome built) :=
  let done_ ws := Ret (Built (MkBuilt
    (service_of redis (negb sorting) (sorting && external) (sorting && external) sorting redis) (job_handler opts tbl redis false) b
    (if redis then Some (monitor_of worker tbl) else None) (if sorting then None else Some ("worker:" +:+ to_lower (Hex worker)))
    (fst <$> ws) (snd <$> ws) (Models.modelHexStrings tbl) capabilities (Config.buildReleaseConfig (Config.release c)))) in
  need (if redis : bool
        then wrap_err "initial heartbeat write failed - check Redis config" (lift (@Life A) (Heartbeat.emit protocolVersion (monitor_of worker tbl)))
        else Ret (Ok tt)) (close_both true) (fun _ =>
  _ <- seed_coordinator ;;
  if sorting then
    cursors <- call (NewCursorStore (Config.SortitionStateDir sortition)) ;;
    match cursors with
    | Ok _ => ws <- watchers worker ;; done_ (Some ws)
    | Err e =>
        (* [redisClient.Close()], also on a client that was never made: the
           call is made, and panics *)
        _ <- call (Life CloseRedis) ;;
        if redis then _ <- close_chain ;; Ret (Failed (wrap "open sortition cursor store" e)) else Ret Panicked
    end
  else done_ None).

(** The release store and the startup pass, the gateway of the external
    profile, and the end. *)
Definition equip (worker : Address) (tbl : Models.tables) (opts : gmap string ClientOptions) (b : blobs) (redis : bool)
    : prog NewE (outcome built) :=
  need (wrap_err "metrics.Bind" (call BindMetrics)) close_chain (fun _ =>
  need (wrap_err "open release store" (call (OpenFileStore (Config.ReleaseStatePath (Config.release c)) (identity worker)))) (close_both redis) (fun _ =>
  _ <- (if Config.ReleaseEnabled (Config.release c) then _ <- call StartupReconcile ;; Ret tt else Ret tt) ;;
  need (if sorting && external
        then wrap_err "authenticate with worker-gateway" (call (Authenticate (Config.WorkerGatewayURL plain)))
        else Ret (Ok tt)) (close_both redis) (fun _ =>
  if external && negb sorting then finish_gateway tbl opts b redis else finish_direct worker tbl opts b redis))).

(** From the connection to the chain on. *)
Definition assemble (worker : Address) (ecdh : bytes) (tbl : Models.tables) : prog NewE (outcome built) :=
  need (wrap_err "connect to chain" connect) (call (Life CloseCoordinator)) (fun _ =>
  need (wrap_err "validate registration" (lift (@Reg A) (RegistrationManager.Validate ecdh))) close_chain (fun _ =>
  need (wrap_err "create session key store" (call (NewSessionKeyStore (Config.SessionKeyFile plain) (Config.WorkerKeystorePassword plain))))
    close_chain (fun _ =>
  opts <- model_options ;;
  need open_blobs close_chain (fun '(b, redis) =>
  need (internal_redis redis) close_chain (fun redis => equip worker tbl opts b redis))))).

Definition New : prog NewE (outcome built) :=
  need load_keys nothing (fun '(worker, ecdh) =>
  match Models.build_tables (Config.SupportedModels chain) with
  | Err e => Ret (Failed e)
  | Ok tbl => _ <- call NewSubpoolCoordinator ;; assemble worker ecdh tbl
  end).
End Configured.

(** [Main]: the exit code, or the panic. *)
Definition Main : prog NewE (option Z) :=
  match Config.Load Getenv with
  | Err _ => Ret (Some 1)
  | Ok c =>
      match Config.Validate c with
      | _ :: _ => Ret (Some 1)
      | [] =>
          o <- New c ;;
          match o with
          | Panicked => Ret None
          | Failed _ => Ret (Some 1)
          | Built b =>
              r <- lift (@Life A) (Service.Run (service b)) ;;
              Ret (Some (match r with Some _ => 1 | None => 0 end))
          end
      end
  end.
End New.

(** ** What is open

    What the trace opened and closed, in order: the coordinator's goroutine,
    the connection to the chain, the Redis client and the release store. *)
Inductive event : Type := Opened (p : Service.part) | Closed (p : Service.part).

Section Accounts.
Context `{A : AddressOps}.

Definition life_event Y (e : LifeE Y) : Y -> list event :=
  match e with
  | CloseReleaseStore => fun _ => [Closed Service.Store]
  | CloseRedis => fun _ => [Closed Service.Redis]
  | CloseChainClient => fun _ => [Closed Service.Chain]
  | CloseCoordinator => fun _ => [Closed Service.Coordinator]
  | _ => fun _ => []
  end.
Definition new_event Y (e : NewE Y) : Y -> list event :=
  match e with
  | NewSubpoolCoordinator => fun _ => [Opened Service.Coordinator]
  | ConnectRPC _ => fun r => if is_ok r then [Opened Service.Chain] else []
  | NewRedisClient => fun _ => [Opened Service.Redis]
  | OpenFileStore _ _ => fun r => if is_ok r then [Opened Service.Store] else []
  | Life e => life_event _ e
  | _ => fun _ => []
  end.
Definition events (tr : list (called NewE)) : list event := answered new_event tr.

(** What is open after them, [None] when something is opened twice or closed
    without being open. *)
Fixpoint held (evs : list event) (open : list Service.part) : option (list Service.part) :=
  match evs with
  | [] => Some open
  | Opened p :: evs => if bool_decide (p ∈ open) then None else held evs (open ++ [p])
  | Closed p :: evs => if bool_decide (p ∈ open) then held evs (filter (.≠ p) open) else None
  end.

Lemma held_app evs evs' h : held (evs ++ evs') h = h' ← held evs h; held evs' h'.
Proof.
  revert h. induction evs as [|[p|p] evs IH]; intros h; cbn; [done| |]; case_bool_decide; rewrite ?IH; done.
Qed.
Lemma events_app tr tr' : events (tr ++ tr') = events tr ++ events tr'.
Proof. apply answered_app. Qed.

(** A step that accounts for what it opens and closes. *)
Definition acct {X} (p : prog NewE X) (h : list Service.part) (Q : list Service.part -> list (called NewE) -> X -> Prop) : Prop :=
  always p (fun tr x => exists h', held (events tr) h = Some h' /\ Q h' tr x).

Lemma acct_mono {X} (p : prog NewE X) h (Q Q' : list Service.part -> list (called NewE) -> X -> Prop) :
  acct p h Q -> (forall h' tr x, Q h' tr x -> Q' h' tr x) -> acct p h Q'.
Proof. intros Hp Hq. eapply always_mono; [exact Hp|]. intros tr x (h' & ? & ?). exists h'. auto. Qed.

Lemma acct_bind {X Y} (p : prog NewE X) (f : X -> prog NewE Y) h Q :
  acct p h (fun h1 tr x => acct (f x) h1 (fun h2 tr' y => Q h2 (tr ++ tr') y)) -> acct (bind p f) h Q.
Proof.
  intros Hp. apply always_bind. eapply always_mono; [exact Hp|]. intros tr x (h1 & H1 & Hf).
  eapply always_mono; [exact Hf|]. intros tr' y (h2 & H2 & Hq). exists h2. by rewrite events_app, held_app, H1.
Qed.

(** A step that opens and closes nothing. *)
Definition quiet {X} (p : prog NewE X) : Prop := always p (fun tr _ => events tr = []).

Lemma acct_quiet {X} (p : prog NewE X) h (Q : list Service.part -> list (called NewE) -> X -> Prop) :
  quiet p -> (forall tr x, Q h tr x) -> acct p h Q.
Proof. intros Hp Hq. eapply always_mono; [exact Hp|]. intros tr x He. exists h. by rewrite He. Qed.

Lemma quiet_bind {X Y} (p : prog NewE X) (f : X -> prog NewE Y) : quiet p -> (forall x, quiet (f x)) -> quiet (bind p f).
Proof.
  intros Hp Hf. apply always_bind. eapply always_mono; [exact Hp|]. intros tr x He.
  eapply always_mono; [apply Hf|]. intros tr' y He'. by rewrite events_app, He, He'.
Qed.
Lemma quiet_wrap {X} s (p : prog NewE (result X)) : quiet p -> quiet (wrap_err s p).
Proof. intros Hp. apply quiet_bind; [done|by intros []]. Qed.
Lemma quiet_lift {E X} (h : forall Y, E Y -> NewE Y) (p : prog E X) :
  (forall Y (e : E Y) y, new_event Y (h _ e) y = []) -> quiet (lift h p).
Proof. intros He. induction p as [x|Y e k IH]; cbn; [done|]. intros y. eapply always_mono; [apply IH|]. intros tr x Hx. cbn. by rewrite He. Qed.

(** The closing calls are those of Lifecycle. *)
Definition closes (a : Service.action) : list event :=
  match a with
  | Service.Down (Service.Store as p) | Service.Down (Service.Redis as p) | Service.Down (Service.Chain as p)
  | Service.Down (Service.Coordinator as p) => [Closed p]
  | _ => []
  end.
Lemma life_events tr : events (lift_called (@Life A) <$> tr) = flat_map closes (Service.actions tr).
Proof.
  induction tr as [|[X e x] tr IH]; [done|]. change (life_event X e x ++ events (lift_called (@Life A) <$> tr) =
    flat_map closes (Service.action_of X e x ++ Service.actions tr)).
  rewrite flat_map_app, IH. f_equal. by destruct e.
Qed.

(** What a service's parts hold, and that its shutdown lets go of it. *)
Definition parts (s : Service.Service) : list Service.part :=
  [Service.Coordinator; Service.Chain] ++ (if Service.redis s then [Service.Redis] else []) ++ [Service.Store].

Lemma run_releases s : Service.releaseStore s = true -> Service.chainClient s = true -> Service.coordinator s = true ->
  acct (lift (@Life A) (Service.Run s)) (parts s) (fun h _ _ => h = []).
Proof.
  intros H1 H2 H3. eapply always_mono; [apply always_lift, Service.run_finishes|]. intros tr r (tr' & -> & (d & w & Hd & Hw & Ha) & _).
  exists []. split; [|done]. rewrite life_events, Ha. unfold Service.waits in Hw. unfold Service.ups, Service.downs, Service.on, parts.
  rewrite H1, H2, H3. destruct Hd as [-> | ->]; destruct s as [m a mo g st w0 rs rr ? re ? ? ?]; cbn in *;
    destruct w0; [destruct Hw as [->|[b ->]]|subst w|destruct Hw as [->|[b ->]]|subst w];
    destruct m, a, mo, g, st, rs, rr, re; reflexivity.
Qed.
End Accounts.

(** ** Nothing is left open, nothing is closed twice *)
Section Whole.
Context `{A : AddressOps} {U : URLs} {T : ConfigText} {J : OllamaJSON}.
Context (Getenv : string -> string) (range : gmap string string -> list (string * string)) (protocolVersion : Z) (c : Config.t).

Definition bind_failed (tr : list (called NewE)) : Prop := exists e, Called BindMetrics (Err e) ∈ tr.
Definition cursors_failed (tr : list (called NewE)) : Prop := exists dir e, Called (NewCursorStore dir) (Err e) ∈ tr.

Definition open_post (h : list Service.part) (tr : list (called NewE)) (o : outcome built) : Prop :=
  match o with
  | Built b => h = parts (service b) /\ Service.releaseStore (service b) = true /\ Service.chainClient (service b) = true /\
      Service.coordinator (service b) = true
  | Failed _ => Service.Chain ∉ h /\ (Service.Redis ∈ h -> bind_failed tr)
  | Panicked => False
  end.

(** The panic comes of closing a Redis client that was never made. *)
Definition nil_closed (h : list Service.part) (tr : list (called NewE)) : Prop :=
  exists evs h', events tr = evs ++ [Closed Service.Redis] /\ held evs h = Some h' /\ Service.Redis ∉ h'.

(** How [New], or what is left of it, ends from what is open: [h]. *)
Definition ends_post (h : list Service.part) (tr : list (called NewE)) (o : outcome built) : Prop :=
  match o with
  | Panicked => sorting c = true /\ external c = true /\ cursors_failed tr /\ nil_closed h tr
  | _ => exists h', held (events tr) h = Some h' /\ open_post h' tr o
  end.
Definition ends (p : prog NewE (outcome built)) (h : list Service.part) : Prop := always p (ends_post h).

Lemma ends_app h h1 tr tr' o : held (events tr) h = Some h1 -> ends_post h1 tr' o -> ends_post h (tr ++ tr') o.
Proof.
  intros Hh. assert (forall evs, held (events tr ++ evs) h = held evs h1) as Happ by (intros; by rewrite held_app, Hh).
  destruct o as [b|e|]; cbn.
  - intros (h' & Hh' & Hp). exists h'. by rewrite events_app, Happ.
  - intros (h' & Hh' & Hc & Hb). exists h'. rewrite events_app, Happ. split; [done|]. split; [done|].
    intros Hr. destruct (Hb Hr) as [e' ?]. exists e'. set_solver.
  - intros (? & ? & (dir & e & ?) & evs & h' & He & Hh' & Hr). split; [done|]. split; [done|]. split; [exists dir, e; set_solver|].
    exists (events tr ++ evs), h'. by rewrite events_app, He, <- app_assoc, Happ.
Qed.

Lemma ends_ret o h : open_post h [] o -> ends (Ret o) h.
Proof. destruct o; cbn; try done; intros Hp; by exists h. Qed.

Lemma open_bind {X} (p : prog NewE X) (f : X -> prog NewE (outcome built)) h :
  acct p h (fun h1 _ x => ends (f x) h1) -> ends (bind p f) h.
Proof.
  intros Hp. apply always_bind. eapply always_mono; [exact Hp|]. intros tr x (h1 & Hh & Hf). eapply always_mono; [exact Hf|].
  intros tr' o. by apply ends_app.
Qed.

(** A step that may fail, with its cleanup. *)
Lemma open_need {X} (p : prog NewE (result X)) cleanup (k : X -> prog NewE (outcome built)) h :
  acct p h (fun h1 tr r => match r with
    | Ok x => ends (k x) h1
    | Err e => acct cleanup h1 (fun h2 _ _ => Service.Chain ∉ h2 /\ (Service.Redis ∈ h2 -> bind_failed tr))
    end) -> ends (need p cleanup k) h.
Proof.
  intros Hp. unfold need. apply always_bind. eapply always_mono; [exact Hp|]. intros tr [x|e] (h1 & Hh & Hr).
  - eapply always_mono; [exact Hr|]. intros tr' o. by apply ends_app.
  - apply always_bind. eapply always_mono; [exact Hr|]. intros tr' [] (h2 & Hh2 & H1 & H2). exists h2.
    rewrite app_nil_r, events_app, held_app, Hh. split; [exact Hh2|]. split; [done|].
    intros Hi. destruct (H2 Hi) as [e' He]. exists e'. rewrite elem_of_app. by left.
Qed.

Definition chained (redis : bool) : list Service.part := [Service.Coordinator; Service.Chain] ++ (if redis then [Service.Redis] else []).

Lemma closes_chain h redis tr : h = chained redis \/ h = chained redis ++ [Service.Store] -> (redis = true -> bind_failed tr) ->
  acct close_chain h (fun h2 _ _ => Service.Chain ∉ h2 /\ (Service.Redis ∈ h2 -> bind_failed tr)).
Proof.
  intros [-> | ->] Hr; destruct redis; intros []; (eexists; split; [vm_compute; reflexivity|]); (split; [set_solver|]);
    intros Hi; auto; exfalso; set_solver.
Qed.
Lemma closes_both h redis tr : h = chained redis \/ h = chained redis ++ [Service.Store] ->
  acct (close_both redis) h (fun h2 _ _ => Service.Chain ∉ h2 /\ (Service.Redis ∈ h2 -> bind_failed tr)).
Proof.
  unfold close_both. intros [-> | ->]; destruct redis; cbn; repeat (intros []; cbn); intros;
    (eexists; split; [vm_compute; reflexivity|]); split; try set_solver; intros; exfalso; set_solver.
Qed.

Lemma emit_quiet m : quiet (lift (@Life A) (Heartbeat.emit protocolVersion m)).
Proof.
  unfold Heartbeat.emit, Heartbeat.CheckOllama, wrap_err. cbn. intros [|]; cbn; [intros [|]; cbn|]; intros; repeat (case_match; cbn); intros; try done;
    repeat match goal with |- forall _, _ => intro end; try (case_match; done).
Qed.

Lemma quiet_reg {X} (p : prog RegE X) : quiet (lift (@Reg A) p).
Proof. by apply quiet_lift. Qed.
Lemma quiet_llm {X} (p : prog OllamaE X) : quiet (lift (@Llm A) p).
Proof. by apply quiet_lift. Qed.
Lemma quiet_options : quiet (model_options c).
Proof.
  unfold model_options. apply quiet_bind; [apply quiet_llm|]. intros. case_match; [|done]. by apply quiet_bind; [apply quiet_llm|].
Qed.
Lemma quiet_keys : quiet (load_keys c).
Proof. unfold load_keys, wrap_err, try. cbn. intros [|]; cbn; [|done]. intros [|]; cbn; [|done]. by intros [|]. Qed.
Lemma quiet_seed : quiet seed_coordinator.
Proof. unfold seed_coordinator. cbn. by intros [] []. Qed.
Lemma quiet_watchers w : quiet (watchers c w).
Proof. unfold watchers. apply quiet_bind; [apply quiet_reg|]. intros [] []; done. Qed.

(** The connection is open exactly when there is a client. *)
Lemma chain_client_acct :
  acct (connect c) [Service.Coordinator] (fun h _ r => h = if is_ok r then chained false else [Service.Coordinator]).
Proof.
  unfold connect, NewChainClient, bind_if_set, bind_contract, wrap_err, try.
  unfold acct. walk; by (eexists; split; [vm_compute; reflexivity|]).
Qed.

Lemma dial_redis_acct : acct (dial_redis c) (chained false) (fun h _ r => h = chained (is_ok r) /\ (forall b, r = Ok b -> b = true)).
Proof.
  unfold acct, dial_redis, wrap_err, try. walk; (eexists; split; [vm_compute; reflexivity|]); (split; [done|]); try done. by intros ? [= <-].
Qed.

Lemma blobs_acct : acct (open_blobs Getenv c) (chained false) (fun h _ r => match r with Ok (_, redis) => h = chained redis | Err _ => h = chained false end).
Proof.
  unfold open_blobs, try. case_bool_decide; [|case_match; by exists (chained false)]. apply acct_bind.
  eapply acct_mono; [apply dial_redis_acct|]. intros h tr [b|e] [-> Hb]; cbn; (eexists; split; [done|]); done.
Qed.

Lemma internal_acct redis : acct (internal_redis c redis) (chained redis) (fun h _ r =>
  match r with Ok b => h = chained b /\ (b = false -> external c = true) | Err _ => h = chained false end).
Proof.
  unfold internal_redis. destruct (external c) eqn:Ex, redis; cbn [negb andb]; try (eexists; split; [done|]; cbn; done).
  eapply acct_mono; [apply dial_redis_acct|]. intros h tr [b|e] [-> Hb]; cbn; [|done]. by rewrite (Hb b eq_refl).
Qed.

Ltac settle_quiet := eapply acct_quiet; [auto using quiet_wrap, quiet_reg, quiet_seed, quiet_options, quiet_watchers, emit_quiet|].

Lemma finish_direct_acct w tbl opts b redis : (redis = false -> external c = true) ->
  ends (finish_direct range protocolVersion c w tbl opts b redis) (chained redis ++ [Service.Store]).
Proof.
  intros Hx. unfold finish_direct. cbv zeta.
  match goal with |- ends (need ?p ?cl ?k) ?h => assert (ends (k tt) h) as Hrest end.
  { apply open_bind. settle_quiet. intros _ []. destruct (sorting c) eqn:Es; [|by apply ends_ret; destruct redis].
    unfold ends. cbn [bind call always]. intros [[]|e]; cbn [bind call always].
    - match goal with |- always ?t _ => assert (ends t (chained redis ++ [Service.Store])) as Ht end.
      { apply open_bind. settle_quiet. intros _ [s j]. by apply ends_ret; destruct redis. }
      eapply always_mono; [exact Ht|]. intros tr' o. by apply (ends_app _ _ [_]).
    - intros r. destruct redis; cbn [bind call always].
      + intros []. eexists. split; [vm_compute; reflexivity|]. split; [set_solver|]. intros Hr. exfalso. set_solver.
      + split; [done|]. split; [auto|]. split; [eexists _, _; left|].
        exists [], (chained false ++ [Service.Store]). split; [done|]. split; [done|]. set_solver. }
  apply open_need. destruct redis; [|by eexists].
  eapply acct_quiet; [apply quiet_wrap, emit_quiet|]. intros tr [[]|e]; [exact Hrest|by apply closes_both; right].
Qed.

Lemma finish_gateway_acct tbl opts b redis :
  ends (finish_gateway range c tbl opts b redis) (chained redis ++ [Service.Store]).
Proof.
  unfold finish_gateway. apply open_need. eapply acct_quiet; [by apply quiet_wrap|]. intros tr [[]|e]; [|by apply closes_both; right].
  apply open_bind. settle_quiet. intros _ []. by apply ends_ret; destruct redis.
Qed.

Lemma store_acct path id redis : acct (wrap_err "open release store" (call (OpenFileStore path id))) (chained redis)
  (fun h _ r => h = chained redis ++ (if is_ok r then [Service.Store] else [])).
Proof. destruct redis; intros [[]|e]; by (eexists; split; [vm_compute; reflexivity|]). Qed.

Lemma equip_acct w tbl opts b redis : (redis = false -> external c = true) ->
  ends (equip range protocolVersion c w tbl opts b redis) (chained redis).
Proof.
  intros Hx. unfold equip. apply open_need. unfold wrap_err at 1. intros [[]|e]; cbn [bind].
  2: { eexists. split; [done|]. eapply closes_chain; [by left|]. intros _. eexists. left. }
  eexists. split; [done|]. apply open_need. eapply acct_mono; [apply store_acct|]. intros h tr [[]|e] ->; cbn [is_ok].
  2: { apply closes_both. left. by rewrite app_nil_r. }
  apply open_bind. eapply acct_quiet; [destruct (Config.ReleaseEnabled _); by repeat intros []|]. intros _ []. apply open_need.
  eapply acct_quiet; [destruct (_ && _); [by apply quiet_wrap|done]|]. intros tr1 [[]|e]; [|by apply closes_both; right].
  destruct (_ && _); [apply finish_gateway_acct|by apply finish_direct_acct].
Qed.

Lemma assemble_acct w ecdh tbl : ends (assemble Getenv range protocolVersion c w ecdh tbl) [Service.Coordinator].
Proof.
  unfold assemble. apply open_need. unfold wrap_err at 1. apply acct_bind. eapply acct_mono; [apply chain_client_acct|].
  intros h tr [[]|e] ->; cbn [is_ok]; eexists; (split; [done|]).
  2: { intros []. eexists. split; [vm_compute; reflexivity|]. split; [by intros ?%not_elem_of_nil|by intros ?%not_elem_of_nil]. }
  assert (forall tr', acct close_chain (chained false) (fun h2 _ _ => Service.Chain ∉ h2 /\ (Service.Redis ∈ h2 -> bind_failed tr'))) as Hc
    by (intros; by apply (closes_chain _ false); [left|]).
  apply open_need. settle_quiet. intros ? [[]|e]; [|apply Hc]. apply open_need. eapply acct_quiet; [by apply quiet_wrap|]. intros ? [[]|e]; [|apply Hc].
  apply open_bind. settle_quiet. intros _ opts. apply open_need. eapply acct_mono; [apply blobs_acct|]. intros h tr' [[b redis]|e] ->; [|apply Hc].
  apply open_need. eapply acct_mono; [apply internal_acct|]. intros h tr'' [redis'|e]; [|intros ->; apply Hc]. intros [-> Hx]. by apply equip_acct.
Qed.

Lemma new_acct : ends (New Getenv range protocolVersion c) [].
Proof.
  unfold New. apply open_need. eapply acct_quiet; [apply quiet_keys|]. intros tr [[w ecdh]|e].
  2: { eexists. split; [done|]. split; by intros ?%not_elem_of_nil. }
  destruct (Models.build_tables _) as [tbl|e]; [|apply ends_ret; by split; intros ?%not_elem_of_nil].
  apply open_bind. intros []. eexists. split; [done|]. apply assemble_acct.
Qed.
End Whole.

(** ** What a built worker has *)
Section Serves.
Context `{A : AddressOps} {U : URLs} {T : ConfigText} {J : OllamaJSON}.
Context (Getenv : string -> string) (range : gmap string string -> list (string * string)) (protocolVersion : Z).

(** A step of [New] that did not end it. *)
Lemma need_built {X Y} (p : prog NewE (result X)) cleanup (k : X -> prog NewE (outcome Y)) tr y :
  runs (need p cleanup k) tr (Built y) -> exists tr1 x tr2, tr = tr1 ++ tr2 /\ runs p tr1 (Ok x) /\ runs (k x) tr2 (Built y).
Proof.
  unfold need. intros (tr1 & [x|e] & tr2 & -> & Hp & Hk)%runs_bind; [by exists tr1, x, tr2|].
  by apply runs_bind in Hk as (? & ? & ? & _ & _ & [_ [=]]%runs_ret_inv).
Qed.

(** Which intake the configuration asks for, and that the worker has it, with
    the heartbeat and the publisher of that mode. *)
Definition wired (c : Config.t) (b : built) : Prop :=
  let s := service b in
  match sorting c, external c with
  | true, true => Service.watchers s = true /\ Service.gwClient s = true /\ Service.streamPub s = true
  | true, false => Service.watchers s = true /\ Service.gwClient s = false /\ Service.streamPub s = false /\ Service.monitor s = true /\ Service.redis s = true
  | false, true => Service.watchers s = false /\ Service.gwClient s = true
  | false, false => Service.watchers s = false /\ Service.gwClient s = false /\ Service.asynqServer s = true /\
      Service.monitor s = true /\ Service.redis s = true
  end /\
  is_Some (responsePublisher (pipeline_handler b)) /\
  (responsePublisher (pipeline_handler b) = Some true <-> sorting c = true \/ external c = false) /\
  (Service.watchers s = true <-> is_Some (session_watcher b) /\ is_Some (job_watcher b)) /\
  (Service.asynqServer s = true <-> is_Some (asynq_queue b)).

Lemma finish_gateway_wired c tbl opts b redis tr o : sorting c = false -> external c = true ->
  runs (finish_gateway range c tbl opts b redis) tr (Built o) -> wired c o.
Proof.
  intros Es Ex (tr1 & [] & tr2 & -> & _ & Hr)%need_built. apply runs_bind in Hr as (? & [] & ? & _ & _ & [_ [= ->]]%runs_ret_inv).
  unfold wired. rewrite Es, Ex. cbn. repeat split; try done; try (by intros []); try (by intros [? _]); try by intros [? ?].
Qed.

Lemma finish_direct_wired c w tbl opts b redis tr o : (external c = false -> redis = true) -> negb (sorting c) && external c = false ->
  runs (finish_direct range protocolVersion c w tbl opts b redis) tr (Built o) -> wired c o.
Proof.
  intros Hx Hm (tr1 & [] & tr2 & -> & _ & Hr)%need_built. apply runs_bind in Hr as (? & [] & ? & _ & _ & Hr). unfold wired.
  destruct (sorting c) eqn:Es.
  - apply runs_bind in Hr as (? & [[]|e] & ? & _ & _ & Hr).
    + apply runs_bind in Hr as (? & ws & ? & _ & _ & [_ [= ->]]%runs_ret_inv). cbn. rewrite Es.
      destruct (external c) eqn:Ex; [|rewrite (Hx eq_refl)]; cbn; repeat split; try done; try (by intros []); try (by left); try (by right); try (by eexists);
        try by intros [? ?]; destruct redis.
    + apply runs_bind in Hr as (? & rc & ? & _ & _ & Hr).
      destruct redis; [apply runs_bind in Hr as (? & [] & ? & _ & _ & Hr)|]; by apply runs_ret_inv in Hr as [_ [=]].
  - destruct (external c) eqn:Ex; [done|]. rewrite (Hx eq_refl) in Hr. apply runs_ret_inv in Hr as [_ [= ->]]. cbn. rewrite Es, Ex. cbn.
    repeat split; try done; try (by intros []); try (by right); try (by eexists); try by intros [[? ?] _].
Qed.

(** ** What [New] made sure of *)
Record started (c : Config.t) (tr : list (called NewE)) (b : built) : Prop := {
  st_registered : exists path password key, Called (LoadOrGenerate path password) (Ok key) ∈ tr /\
    Called (Reg IsWorkerRegistered) (Ok true) ∈ tr /\ Called (Reg GetWorkerEncryptionKey) (Ok key) ∈ tr;
  st_stores : (exists path password, Called (NewSessionKeyStore path password) (Ok tt) ∈ tr) /\
    exists path id, Called (OpenFileStore path id) (Ok tt) ∈ tr;
  st_heartbeat : Service.monitor (service b) = true -> exists w f ttl, Called (Life (ExecPipeline w f ttl)) (Ok tt) ∈ tr;
  st_gateway : external c = true -> exists url, Called (Authenticate url) (Ok tt) ∈ tr;
  st_models : exists tbl, Models.build_tables (Config.SupportedModels (Config.chain c)) = Ok tbl /\
    advertisedModels b = Models.modelHexStrings tbl /\ modelIDToName (pipeline_handler b) = Inference.model_table (range (Models.names tbl));
}.

Lemma keys_loaded c tr w key : runs (load_keys c) tr (Ok (w, key)) -> exists path password, Called (LoadOrGenerate path password) (Ok key) ∈ tr.
Proof.
  intros (t1 & json & t2 & -> & _ & H)%runs_try. apply runs_try in H as (t3 & addr & t4 & -> & _ & H).
  apply runs_try in H as (t5 & ecdh & t6 & -> & Hl%runs_wrap%runs_call & [_ [= <- <-]]%runs_ret_inv). subst. eexists _, _. rewrite !elem_of_app. right. right. left. left.
Qed.
Lemma validated key tr : runs (lift (@Reg A) (RegistrationManager.Validate key)) tr (Ok tt) ->
  Called (Reg IsWorkerRegistered) (Ok true) ∈ tr /\ Called (Reg GetWorkerEncryptionKey) (Ok key) ∈ tr.
Proof.
  intros (tr' & -> & Hr)%runs_lift. enough (Called IsWorkerRegistered (Ok true) ∈ tr' /\ Called GetWorkerEncryptionKey (Ok key) ∈ tr') as [H1 H2]
    by (split; [exact (list_elem_of_fmap_2 (lift_called (@Reg A)) _ _ H1)|exact (list_elem_of_fmap_2 (lift_called (@Reg A)) _ _ H2)]).
  cut (always (RegistrationManager.Validate key) (fun tr r => r = Ok tt -> Called IsWorkerRegistered (Ok true) ∈ tr /\ Called GetWorkerEncryptionKey (Ok key) ∈ tr));
    [intros Ha; by apply (always_runs _ _ _ _ Ha Hr)|].
  unfold RegistrationManager.Validate, wrap_err. walk; try done. apply negb_false_iff in Heqb as ->. case_bool_decide; [|done]. subst.
  split; [left|right; left].
Qed.

Lemma heartbeat_written m tr : runs (lift (@Life A) (Heartbeat.emit protocolVersion m)) tr (Ok tt) ->
  exists w f ttl, Called (Life (ExecPipeline w f ttl)) (Ok tt) ∈ tr.
Proof.
  intros (tr' & -> & (t1 & ? & t2 & -> & _ & Hr)%runs_bind)%runs_lift. do 3 (apply runs_bind in Hr as (? & ? & ? & -> & _ & Hr)).
  apply runs_wrap, runs_call in Hr as ->. eexists _, _, _. rewrite !fmap_app, !elem_of_app. do 4 right. left.
Qed.

Lemma redis_dialled c redis tr r : runs (internal_redis c redis) tr (Ok r) -> external c = false -> r = true.
Proof.
  unfold internal_redis. intros Hr Hx. rewrite Hx in Hr. destruct redis; [by apply runs_ret_inv in Hr as [_ [= ->]]|].
  apply runs_try in Hr as (? & ? & ? & _ & _ & Hr). by apply runs_bind in Hr as (? & [] & ? & _ & _ & [_ [= ->]]%runs_ret_inv).
Qed.

(** What is true of the end of [New]. *)
Record finished (c : Config.t) (tbl : Models.tables) (tr : list (called NewE)) (b : built) : Prop := {
  fi_heartbeat : Service.monitor (service b) = true -> exists w f ttl, Called (Life (ExecPipeline w f ttl)) (Ok tt) ∈ tr;
  fi_models : advertisedModels b = Models.modelHexStrings tbl;
  fi_table : modelIDToName (pipeline_handler b) = Inference.model_table (range (Models.names tbl));
}.

Lemma finish_gateway_finished c tbl opts b redis tr o : runs (finish_gateway range c tbl opts b redis) tr (Built o) ->
  finished c tbl tr o /\ exists url, Called (Authenticate url) (Ok tt) ∈ tr.
Proof.
  intros (tr1 & [] & tr2 & -> & Ha%runs_wrap%runs_call & Hr)%need_built. apply runs_bind in Hr as (? & [] & ? & -> & _ & [-> [= ->]]%runs_ret_inv).
  split; [by split|]. subst. eexists. rewrite elem_of_app. left. left.
Qed.
Lemma finish_direct_finished c w tbl opts b redis tr o : runs (finish_direct range protocolVersion c w tbl opts b redis) tr (Built o) ->
  finished c tbl tr o.
Proof.
  intros (tr1 & [] & tr2 & -> & Hb & Hr)%need_built.
  assert (redis = true -> exists w f ttl, Called (Life (ExecPipeline w f ttl)) (Ok tt) ∈ tr1 ++ tr2) as Hw.
  { intros ->. apply runs_wrap, heartbeat_written in Hb as (w0 & f & ttl & ?). exists w0, f, ttl. rewrite elem_of_app. by left. }
  apply runs_bind in Hr as (? & [] & ? & _ & _ & Hr).
  destruct (sorting c); [|apply runs_ret_inv in Hr as [_ [= ->]]; by split]. apply runs_bind in Hr as (? & [[]|e] & ? & _ & _ & Hr).
  - apply runs_bind in Hr as (? & ws & ? & _ & _ & [_ [= ->]]%runs_ret_inv). by split.
  - apply runs_bind in Hr as (? & rc & ? & _ & _ & Hr).
    destruct redis; [apply runs_bind in Hr as (? & [] & ? & _ & _ & Hr)|]; by apply runs_ret_inv in Hr as [_ [=]].
Qed.

Lemma equip_built c w tbl opts b redis tr o : (external c = false -> redis = true) ->
  runs (equip range protocolVersion c w tbl opts b redis) tr (Built o) ->
  wired c o /\ finished c tbl tr o /\ (external c = true -> exists url, Called (Authenticate url) (Ok tt) ∈ tr) /\
  exists path id, Called (OpenFileStore path id) (Ok tt) ∈ tr.
Proof.
  intros Hx (t1 & [] & t2 & -> & _ & Hr)%need_built. apply need_built in Hr as (t3 & [] & t4 & -> & Hs%runs_wrap%runs_call & Hr).
  apply runs_bind in Hr as (t5 & [] & t6 & -> & _ & Hr). apply need_built in Hr as (t7 & [] & t8 & -> & Ha & Hr).
  assert (forall tr', finished c tbl t8 o -> finished c tbl (tr' ++ t8) o) as Hf.
  { intros tr' [Hh Hm Ht]. split; [|done|done]. intros (w0 & f & ttl & ?)%Hh. exists w0, f, ttl. rewrite elem_of_app. by right. }
  assert (exists path id, Called (OpenFileStore path id) (Ok tt) ∈ t1 ++ t3 ++ t5 ++ t7 ++ t8) as Ho.
  { subst. eexists _, _. rewrite !elem_of_app. right. left. left. }
  destruct (external c && negb (sorting c)) eqn:Em.
  - apply andb_true_iff in Em as [Ex Es%negb_true_iff]. split; [by eapply finish_gateway_wired|].
    apply finish_gateway_finished in Hr as [Hfin [url Hu]]. split; [rewrite !app_assoc; by apply Hf|]. split; [|done].
    intros _. exists url. rewrite !elem_of_app. tauto.
  - split; [eapply finish_direct_wired; [done| |done]; by destruct (sorting c), (external c)|].
    split; [rewrite !app_assoc; by eapply Hf, finish_direct_finished|]. split; [|done]. intros Ex. rewrite Ex in *. destruct (sorting c); [|done].
    apply runs_wrap, runs_call in Ha as ->. eexists. rewrite !elem_of_app. do 3 right. left. left.
Qed.

Lemma new_built c tr b : runs (New Getenv range protocolVersion c) tr (Built b) -> wired c b /\ started c tr b.
Proof.
  intros (t1 & [w key] & t2 & -> & (path & password & Hk)%keys_loaded & Hr)%need_built. destruct (Models.build_tables _) as [tbl|] eqn:Et; [|by apply runs_ret_inv in Hr as [_ [=]]].
  apply runs_bind in Hr as (t3 & [] & t4 & -> & _ & Hr). apply need_built in Hr as (t5 & [] & t6 & -> & _ & Hr).
  apply need_built in Hr as (t7 & [] & t8 & -> & [Hv1 Hv2]%runs_wrap%validated & Hr).
  apply need_built in Hr as (t9 & [] & t10 & -> & Hs%runs_wrap%runs_call & Hr). apply runs_bind in Hr as (t11 & opts & t12 & -> & _ & Hr).
  apply need_built in Hr as (t13 & [bl redis] & t14 & -> & _ & Hr). apply need_built in Hr as (t15 & redis' & t16 & -> & Hi & Hr).
  apply equip_built in Hr as (Hw & [Hb Hm Ht] & Hg & path' & id & Ho); [|by apply (redis_dialled _ _ _ _ Hi)].
  split; [done|]. split.
  - exists path, password, key. rewrite !elem_of_app. tauto.
  - split; [subst; eexists _, _; rewrite !elem_of_app; do 4 right; left; left|]. exists path', id. rewrite !elem_of_app. tauto.
  - intros (w0 & f & ttl & ?)%Hb. exists w0, f, ttl. rewrite !elem_of_app. tauto.
  - intros (url & ?)%Hg. exists url. rewrite !elem_of_app. tauto.
  - by exists tbl.
Qed.

(** ** The worker's life *)
Lemma life_acct c : always (o <- New Getenv range protocolVersion c ;;
    match o with
    | Panicked => Ret None
    | Failed _ => Ret (Some 1)
    | Built b => r <- lift (@Life A) (Service.Run (service b)) ;; Ret (Some (match r with Some _ => 1 | None => 0 end))
    end) (fun tr code => code = Some 0 -> held (events tr) [] = Some []).
Proof.
  apply always_bind. eapply always_mono; [apply new_acct|]. intros tr [b|e|]; [|done..].
  intros (h & Hh & -> & H1 & H2 & H3). apply always_bind. eapply always_mono; [by apply run_releases|].
  intros tr' r (h' & Hh' & ->). cbn. intros _. by rewrite app_nil_r, events_app, held_app, Hh.
Qed.

(** C38. What building the worker leaves open. A construction that fails has
    closed nothing twice and nothing it had not opened, and leaves no connection
    to the chain open, and a Redis client only if the metrics could not be bound;
    the coordinator's goroutine and the release store's lock it leaves to the
    exit of the process. One that succeeds has closed nothing, and however the
    service then runs and ends, its shutdown closes every part it was built
    with, so a process that exits with 0 has left nothing open. The one other
    end is a panic: in the external profile, when the cursor store cannot be
    opened, the cleanup closes a Redis client that was never made, after
    nothing else was closed out of turn. *)
Theorem everything_opened_is_closed c :
  (forall tr o, runs (New Getenv range protocolVersion c) tr o ->
     match o with
     | Built b => held (events tr) [] = Some (parts (service b)) /\
         forall tr' r, runs (lift (@Life A) (Service.Run (service b))) tr' r -> held (events (tr ++ tr')) [] = Some []
     | Failed _ => exists h, held (events tr) [] = Some h /\ Service.Chain ∉ h /\ (Service.Redis ∈ h -> bind_failed tr)
     | Panicked => sorting c = true /\ external c = true /\ cursors_failed tr /\ nil_closed [] tr
     end) /\
  (forall tr, runs (Main Getenv range protocolVersion) tr (Some 0) -> held (events tr) [] = Some []).
Proof.
  split.
  - intros tr o Hr. pose proof (always_runs _ _ _ _ (new_acct Getenv range protocolVersion c) Hr) as Hp.
    destruct o as [b|e|]; [|exact Hp..]. destruct Hp as (h & Hh & -> & H1 & H2 & H3). split; [done|]. intros tr' r Hr'.
    destruct (always_runs _ _ _ _ (run_releases _ H1 H2 H3) Hr') as (h' & Hh' & ->). by rewrite events_app, held_app, Hh.
  - unfold Main. intros tr Hr. destruct (Config.Load _) as [c'|e]; [|by apply runs_ret_inv in Hr as [_ [=]]].
    destruct (Config.Validate c') as [|]; [|by apply runs_ret_inv in Hr as [_ [=]]].
    exact (always_runs _ _ _ _ (life_acct c') Hr eq_refl).
Qed.

(** What a service brings up. *)
Definition serves (c : Config.t) (s : Service.Service) (acts : list Service.action) : Prop :=
  (Service.Up Service.Asynq ∈ acts <-> sorting c = false /\ external c = false) /\
  (Service.Up Service.JobStream ∈ acts <-> sorting c = false /\ external c = true) /\
  (Service.Up Service.Jobs ∈ acts /\ Service.Up Service.Sessions ∈ acts <-> sorting c = true) /\
  (Service.Up Service.HeartbeatMonitor ∈ acts \/ Service.Up Service.GatewayHeartbeat ∈ acts) /\
  (Service.Up Service.HeartbeatMonitor ∈ acts -> Service.monitor s = true) /\
  (Service.Up Service.ResponseStream ∈ acts <-> sorting c = true /\ external c = true).
Definition is_up (a : Service.action) : Prop := match a with Service.Up _ => True | _ => False end.

Lemma run_ups s tr r : runs (Service.Run s) tr r -> forall p, Service.Up p ∈ Service.actions tr <-> Service.Up p ∈ Service.ups s.
Proof.
  intros Hr p. destruct (always_runs _ _ _ _ (Service.run_finishes s) Hr) as [(d & w & Hd & Hw & ->) _].
  assert (Service.Up p ∉ d) as Hd' by (destruct Hd as [-> | ->]; set_solver).
  assert (Service.Up p ∉ w) as Hw' by (unfold Service.waits in Hw; destruct (Service.watchers s); [destruct Hw as [->|[b ->]]|subst w]; set_solver).
  assert (Service.Up p ∉ Service.downs s ++ Service.on (Service.watchers s) [Service.Cancelled]) as Hs.
  { assert (forall b a, ~ is_up a -> Forall (fun a => ~ is_up a) (Service.on b [a])) as Hon by (intros [] a Ha; [by apply Forall_singleton|by apply Forall_nil_2]).
    assert (Forall (fun a => ~ is_up a) (Service.downs s ++ Service.on (Service.watchers s) [Service.Cancelled])) as Hf
      by (unfold Service.downs; rewrite !Forall_app; repeat split; try (apply Hon; by intros []); apply Forall_singleton; by intros []).
    intros Hin. by apply (proj1 (Forall_forall _ _) Hf _ Hin). }
  rewrite !elem_of_app in *. rewrite elem_of_cons, elem_of_nil. naive_solver.
Qed.

(** The services [New] builds have what the default mode starts. *)
Lemma built_is_whole c b : wired c b -> Service.whole (service b).
Proof. intros [Hm _] Hw Hg. destruct (sorting c), (external c); destruct_and!; by try congruence. Qed.

Lemma wired_serves c b tr r : wired c b -> runs (Service.Run (service b)) tr r -> serves c (service b) (Service.actions tr).
Proof.
  intros (Hm & _) Hr. pose proof (run_ups _ _ _ Hr) as Hu. unfold serves. rewrite !Hu. clear Hu Hr.
  unfold Service.ups. destruct (service b) as [m a mo g st w rs rr ? re ? ? ?]. cbn in *.
  destruct (sorting c), (external c); destruct_and!; subst; cbn [andb negb];
    repeat (progress rewrite ?elem_of_app, ?Service.elem_of_on, ?elem_of_cons, ?elem_of_nil); repeat split; intuition congruence.
Qed.

(** C39. A worker is only built registered and able to serve. When [New] returns
    a service, the chain has answered that the worker is registered under the
    very ECDH key it loaded, the session keys and the release store are open,
    a first heartbeat was written if it has a monitor, and the gateway has
    accepted it if one is configured. Its parts are those of the configured
    mode, its handler can publish an answer in every mode and streams it unless the gateway's
    endpoint takes it, and finds every configured model under its id. When such
    a service runs it starts the intake of its mode and no other, at least one heartbeat, and
    never a monitor it was built without. *)
Theorem built_worker_can_serve c tr b : runs (New Getenv range protocolVersion c) tr (Built b) ->
  started c tr b /\ wired c b /\
  (forall tr' r, runs (Service.Run (service b)) tr' r -> serves c (service b) (Service.actions tr')) /\
  ((forall m, range m ≡ₚ map_to_list m) -> forall tbl i id name spelling,
     Models.build_tables (Config.SupportedModels (Config.chain c)) = Ok tbl ->
     Models.modelIDs tbl !! i = Some id -> Config.SupportedModels (Config.chain c) !! i = Some name ->
     Inference.normalizeModelLookupKey spelling = EnvText.EncodeToString id ->
     Inference.resolveModelName (pipeline_handler b) spelling = Ok name).
Proof.
  intros Hr. destruct (new_built _ _ _ Hr) as [Hw Hs]. split; [done|]. split; [done|]. split; [intros tr' r Hr'; by eapply wired_serves|].
  intros Hrange tbl i id name spelling Ht Hi Hn Hsp. destruct Hs as [_ _ _ _ (tbl' & Ht' & _ & Htab)]. rewrite Ht in Ht'. injection Ht' as <-.
  assert (Config.SupportedModels (Config.chain c) <> []) as Hne by (by intros E; rewrite E in Hn).
  by apply (proj1 (Models.tables_resolve _ _ _ _ Ht Hne (Hrange _) Htab) i id name spelling).
Qed.
End Serves.

(** ** Runs *)
#[local] Existing Instances plain_addresses plain_urls Config.plain_text OllamaClient.plain_json.

(** A node and a gateway that answer; [cursors]: whether the cursor store opens. *)
Definition demo_world (cursors : bool) : handler NewE unit := fun X e w =>
  match e in NewE X return X * unit with
  | ReadWorkerKeystore _ => (Ok "{}"%string, tt)
  | DecryptWorkerKey _ _ => (Ok "0xME"%string, tt)
  | LoadOrGenerate _ _ => (Ok RegistrationManager.demo_key, tt)
  | NewSubpoolCoordinator | NewRedisClient | Seed _ _ => (tt, tt)
  | ConnectRPC _ | Bind _ _ | NewSessionKeyStore _ _ | ParseRedisURL _ _ | BindMetrics | OpenFileStore _ _ | StartupReconcile
  | Authenticate _ => (Ok tt, tt)
  | PendingNonceAt => (Ok 9, tt)
  | NonceAt => (Ok 7, tt)
  | NewCursorStore _ => (if cursors then Ok tt else Err (errorf "permission denied"), tt)
  | Reg e => (fst (RegistrationManager.node None false _ e
      (RegistrationManager.MkAccount (Some (RegistrationManager.MkReg RegistrationManager.demo_key 100 [])) 0)), tt)
  | Llm e => OllamaClient.demo_server [] None _ e tt
  | Life e => Service.demo_parts true (Ok tt) _ e tt
  end.

Definition sortition_env (gateway : string) (key : string) : string :=
  if bool_decide (key = "SORTITION_ENABLED"%string) then "true"
  else if bool_decide (key = "SESSION_MANAGER_ADDRESS"%string) then "0xd"
  else if bool_decide (key = "WORKER_GATEWAY_URL"%string) then gateway
  else Config.demo_env key.
Definition config_of (env : string -> string) : Config.t := fst (Config.load_all env []).
Definition demo_new (env : string -> string) (cursors : bool) :=
  fst (interp (demo_world cursors) (New env map_to_list 1 (config_of env)) tt).
Definition demo_main (env : string -> string) (cursors : bool) := fst (interp (demo_world cursors) (Main env map_to_list 1) tt).

Example demo_lives_end :
  snd (demo_main Config.demo_env true) = Some 0 /\ snd (demo_main (sortition_env "") true) = Some 0 /\
  snd (demo_main (sortition_env "") false) = Some 1 /\ snd (demo_main (sortition_env "http://gw") true) = Some 0.
Proof. vm_compute. done. Qed.

(** In the external profile the cleanup of a failed cursor store closes a Redis
    client that was never made. *)
Example nil_redis_is_closed :
  Config.Validate (config_of (sortition_env "http://gw")) = [] /\ snd (demo_new (sortition_env "http://gw") false) = Panicked /\
  events (fst (demo_new (sortition_env "http://gw") false)) =
    [Opened Service.Coordinator; Opened Service.Chain; Opened Service.Store; Closed Service.Redis] /\
  held (events (fst (demo_new (sortition_env "http://gw") false))) [] = None.
Proof. vm_compute. done. Qed.

(** Metrics that cannot be bound leave the Redis client open. *)
Definition unbound : handler NewE unit := fun X e w =>
  match e in NewE X return X * unit with
  | BindMetrics => (Err (errorf "already bound"), tt)
  | e => demo_world true _ e tt
  end.
Example redis_left_open :
  held (events (fst (fst (interp unbound (New Config.demo_env map_to_list 1 (config_of Config.demo_env)) tt)))) [] =
    Some [Service.Coordinator; Service.Redis].
Proof. vm_compute. done. Qed.

Lemma demo_main_runs env cursors code : snd (demo_main env cursors) = code -> runs (Main env map_to_list 1) (fst (demo_main env cursors)) code.
Proof. intros <-. apply interp_run. Qed.
Lemma demo_new_runs env cursors o : snd (demo_new env cursors) = o -> runs (New env map_to_list 1 (config_of env)) (fst (demo_new env cursors)) o.
Proof. intros <-. apply interp_run. Qed.

Lemma everything_opened_is_closed_witness :
  held (events (fst (demo_main (sortition_env "http://gw") true))) [] = Some [] /\
  exists h, held (events (fst (demo_new (sortition_env "") false))) [] = Some h /\ Service.Chain ∉ h.
Proof.
  split.
  - apply (proj2 (everything_opened_is_closed (sortition_env "http://gw") map_to_list 1 (config_of (sortition_env "http://gw")))).
    apply demo_main_runs. vm_compute. reflexivity.
  - destruct (proj1 (everything_opened_is_closed (sortition_env "") map_to_list 1 (config_of (sortition_env ""))) _
      (Failed (wrap "open sortition cursor store" (errorf "permission denied")))
      (demo_new_runs (sortition_env "") false _ ltac:(vm_compute; reflexivity))) as (h & Hh & Hc & _).
    exists h. split; [exact Hh|exact Hc].
Defined.

Definition unbuilt : built :=
  MkBuilt Service.gateway_service Inference.demo_job_handler BeaconBlobs None None None None [] [] Config.demo_release.
Definition demo_built : built := match snd (demo_new Config.demo_env true) with Built b => b | _ => unbuilt end.

Lemma built_worker_can_serve_witness :
  Service.Up Service.Asynq ∈ Service.actions (fst (fst (Service.demo_life true (Ok tt) (service demo_built)))) /\
  responsePublisher (pipeline_handler demo_built) = Some true.
Proof.
  assert (snd (demo_new Config.demo_env true) = Built demo_built) as E by (vm_compute; reflexivity).
  destruct (built_worker_can_serve Config.demo_env map_to_list 1 (config_of Config.demo_env) (fst (demo_new Config.demo_env true)) demo_built
    (demo_new_runs _ _ _ E)) as (_ & (_ & _ & Hp & _) & Hs & _). split.
  - apply (proj1 (Hs _ _ (interp_run (Service.demo_parts true (Ok tt)) _ tt))). vm_compute. split; reflexivity.
  - apply Hp. right. vm_compute. reflexivity.
Defined.
End Construct.
