(* ===== verification/Loops.v ===== *)
(** The background loops: the goroutines that repeat the worker's passes on a
    ticker ([Start] of the watchers, of the heartbeat monitor and of the release
    scheduler, [StartPeriodic] of the reconciler, the coordinator's [janitor],
    [gatewayHeartbeatLoop], and [Run] of the operator's watch daemon). What a
    select receives, turn after turn, is a list. *)
From S2P Require Import Prelude Effects Chain ReleaseConfig ReleaseStore Scheduler Reconciler Coordinator Scan JobWatcher SessionWatcher Gateway Lifecycle Watch Dial EnvText Config.

#[local] Open Scope prog_scope.

(** What a select of a loop receives: a tick, the close of the loop's own stop
    channel, or the end of its context. *)
Inductive wake : Type := Ticked (now : Z) | Closed | CtxDone.

(** [time.NewTicker] panics on an interval that is not positive; some loops
    look at theirs first and decline to start. *)
Inductive start : Type := Declined | Panicked | Started.
Definition NewTicker (d : Z) : start := if d <=? 0 then Panicked else Started.
Definition guarded (d : Z) : start := if d <=? 0 then Declined else NewTicker d.

Section Loop.
Context {E : Type -> Type} {S : Type} (body : S -> prog E S).

(** [for { select { case <-ticker.C: body; case <-done: return } }]; whether
    the loop has returned. *)
Fixpoint on_ticks (ws : list wake) (s : S) : prog E (S * bool) :=
  match ws with
  | [] => Ret (s, false)
  | Ticked _ :: ws => s <- body s ;; on_ticks ws s
  | _ :: _ => Ret (s, true)
  end.

(** [for { body; select { case <-done: return; case <-ticker.C: } }]. *)
Fixpoint rounds (ws : list wake) (s : S) : prog E (S * bool) :=
  s <- body s ;;
  match ws with
  | [] => Ret (s, false)
  | Ticked _ :: ws => rounds ws s
  | _ :: _ => Ret (s, true)
  end.

(** The ticks before the loop is told to stop, and whether it is. *)
Fixpoint ticks (ws : list wake) : nat := match ws with Ticked _ :: ws => Datatypes.S (ticks ws) | _ => O end.
Fixpoint stops (ws : list wake) : bool := match ws with [] => false | Ticked _ :: ws => stops ws | _ :: _ => true end.

(** Runs of the body, one after the other. *)
Inductive turns : S -> list (list (called E)) -> S -> Prop :=
  | turns_nil s : turns s [] s
  | turns_cons s tr s1 trs s2 : runs (body s) tr s1 -> turns s1 trs s2 -> turns s (tr :: trs) s2.

(** A loop is its body, once per tick and never after it is told to stop. *)
Lemma on_ticks_turns ws s tr r : runs (on_ticks ws s) tr r ->
  exists trs, tr = concat trs /\ length trs = ticks ws /\ turns s trs (fst r) /\ snd r = stops ws.
Proof.
  revert s tr. induction ws as [|[now| |] ws IH]; intros s tr; cbn [on_ticks ticks stops].
  2: { intros (tr1 & s1 & tr2 & -> & H1 & (trs & -> & Hl & Ht & Hs)%IH)%runs_bind. exists (tr1 :: trs). cbn. rewrite Hl.
       repeat split; [|done]. by econstructor. }
  all: intros [-> ->]%runs_ret_inv; exists []; repeat split; constructor.
Qed.
Lemma rounds_turns ws s tr r : runs (rounds ws s) tr r ->
  exists trs, tr = concat trs /\ length trs = Datatypes.S (ticks ws) /\ turns s trs (fst r) /\ snd r = stops ws.
Proof.
  revert s tr. induction ws as [|[now| |] ws IH]; intros s tr; cbn [rounds ticks stops]; intros (tr1 & s1 & tr2 & -> & H1 & H2)%runs_bind.
  2: { apply IH in H2 as (trs & -> & Hl & Ht & Hs). exists (tr1 :: trs). cbn. rewrite Hl. repeat split; [|done]. by econstructor. }
  all: apply runs_ret_inv in H2 as [-> ->]; exists [tr1]; repeat split; econstructor; [done|constructor].
Qed.
End Loop.

Module Loops.

(** ** Heartbeats *)
Section Heartbeats.
Context (protocolVersion : Z).
Import Heartbeat.

(** [Monitor.Start], and its goroutine. *)
Definition Monitor_Start (m : Monitor) : start := guarded (Interval m).
Definition monitor_loop (m : Monitor) (ws : list wake) : prog LifeE (unit * bool) :=
  let beat _ := _ <- emit protocolVersion m ;; Ret tt in
  _ <- beat tt ;;
  on_ticks beat ws tt.

(** [gatewayHeartbeatLoop]; the payloads it has sent. *)
Definition gatewayHeartbeatLoop_start (interval : Z) : start := NewTicker interval.
Definition gateway_turn (ollamaURL : string) (maxJobs : Z) (models caps : list string) (sent : list HeartbeatPayload)
    : prog LifeE (list HeartbeatPayload) :=
  payload <- gateway_beat protocolVersion ollamaURL maxJobs models caps ;;
  Ret (sent ++ [payload]).
Definition gatewayHeartbeatLoop (ollamaURL : string) (maxJobs : Z) (models caps : list string) (ws : list wake)
    : prog LifeE (list HeartbeatPayload * bool) :=
  rounds (gateway_turn ollamaURL maxJobs models caps) ws [].
End Heartbeats.

(** ** Chain watchers

    A poll interval of zero is the default; a negative one is kept. *)
Definition poll_interval (PollInterval : Z) : Z := if PollInterval =? 0 then 30 * Second else PollInterval.
Definition watcher_Start (PollInterval : Z) : start := NewTicker (poll_interval PollInterval).

Section Watchers.
Context `{!AddressOps}.

(** [JobWatcher.Start]; the jobs it waits for at its end are goroutines of the
    pipeline. *)
Definition job_loop (cfg : JobWatcher.config) (fuel : nat) (ws : list wake) (retries : gmap Z Z) : prog WatchE (gmap Z Z * bool) :=
  on_ticks (fun retries => r <- JobWatcher.runOnce cfg fuel retries ;; Ret (snd r)) ws retries.

(** [SessionWatcher.Start]. *)
Definition session_loop (cfg : SessionWatcher.config) (range : gmap Z (option Z) -> list Z) (fuel : nat) (ws : list wake)
    (w : SessionWatcher.state) : prog SessE (SessionWatcher.state * bool) :=
  on_ticks (fun w => r <- SessionWatcher.RunOnce cfg range fuel w ;; Ret (snd r)) ws w.

(** [WatchHandler.Run]. *)
Definition WatchHandler_Run (h : WatchHandler.t) (ws : list wake) (s : WatchHandler.checks * WatchHandler.claimTracker)
    : prog AlertE (WatchHandler.checks * WatchHandler.claimTracker * bool) :=
  rounds (fun s => WatchHandler.Tick h (fst s) (snd s)) ws s.
End Watchers.

(** ** Settlement

    The same loop around a pass over a state. *)
Fixpoint each_tick {W} (pass : Z -> W -> W) (ws : list wake) (w : W) : W * bool :=
  match ws with
  | [] => (w, false)
  | Ticked now :: ws => each_tick pass ws (pass now w)
  | _ :: _ => (w, true)
  end.

Definition Scheduler_Start (cfg : ReleaseConfig.Config) : start := guarded (ReleaseConfig.ProbeInterval cfg).
Definition Reconciler_StartPeriodic (cfg : ReleaseConfig.Config) : start := guarded (ReleaseConfig.ReconcileInterval cfg).

(** [janitor]: each pass is given the tick's own time. *)
Definition defaultJanitorInterval : Z := 30 * Second.
Definition janitor (ws : list wake) (c : Coordinator.t) : Coordinator.t * bool := each_tick Coordinator.reapStale ws c.

Section Settlement.
Context `{!AddressOps} {S C : Type} `{!Store S} `{!SettlementClient C} `{!StoreView S, !StoreLaws S}.
Context (cfg : ReleaseConfig.Config) (workerAddr : Address).
Import Scheduler.
#[local] Abbreviation world := (@Scheduler.world _ S C).

(** The goroutine of [Scheduler.Start], and that of [StartPeriodic]. *)
Definition scheduler_loop (ws : list wake) (w : world) : world * bool :=
  each_tick (fun _ w => final (tick cfg workerAddr) w) ws w.
Definition reconciler_loop (fuel : nat) (ws : list wake) (w : @Reconciler.world _ S C) : @Reconciler.world _ S C * bool :=
  each_tick (fun _ w => final (Reconciler.Run cfg workerAddr fuel) w) ws w.

(** No pending job is lost: it is still there, or the trace says why it is not. *)
Definition kept (w w' : world) : Prop :=
  (exists l, w_trace w' = l ++ w_trace w) /\
  forall v, store_view (w_store w) = Some v -> exists v', store_view (w_store w') = Some v' /\
    (forall j, j ∈ v_jobs v -> j ∈ v_jobs v' \/ settled workerAddr j (w_trace w')) /\
    (forall j, j ∈ v_jobs v' -> j ∈ v_jobs v) /\ v_cursor v' = v_cursor v.

Lemma kept_same w w' : (forall v, store_view (w_store w) = Some v -> store_view (w_store w') = Some v) -> w_trace w' = w_trace w -> kept w w'.
Proof. intros Hv Ht. split; [by exists []|]. intros v ?%Hv. exists v. auto. Qed.
Lemma kept_trans w w1 w2 : kept w w1 -> kept w1 w2 -> kept w w2.
Proof.
  intros [[l Hl] H1] [[l' Hl'] H2]. split; [exists (l' ++ l); by rewrite Hl', Hl, app_assoc|]. intros v Hv.
  destruct (H1 v Hv) as (v1 & Hv1 & J1 & S1 & C1). destruct (H2 v1 Hv1) as (v2 & Hv2 & J2 & S2 & C2).
  exists v2. rewrite C2, C1. split; [done|]. split; [|auto]. intros j [Hj|Hj]%J1; [by apply J2|right]. rewrite Hl'. by apply settled_mono.
Qed.
Lemma cycle_kept head window pending w r w' : runReleaseCycle cfg workerAddr head window pending w = (r, w') -> kept w w'.
Proof.
  intros E. split; [|intros v Hv; by eapply cycle_keeps].
  pose proof (cycle_core_of _ _ _ _ _ _ _ _ E) as (w1 & r1 & [S1 _ _ _ _ _] & He). destruct (cs_trace _ _ _ _ _ _ _ S1) as [l Hl].
  apply ends_with_trace in He as [-> _]. rewrite Hl, app_assoc. by eexists.
Qed.

(** Programs that keep every job, whatever the store and the chain answer. *)
Definition keeps {A} (c : st world A) : Prop := forall w, kept w (final c w).

Lemma keeps_ret {A} (a : A) : keeps (st_ret a).
Proof. intros w. by apply kept_same. Qed.
Lemma keeps_bind {A B} (c : st world A) (f : A -> st world B) : keeps c -> (forall a, keeps (f a)) -> keeps (st_bind c f).
Proof.
  intros Hc Hf w. specialize (Hc w). unfold final, st_bind in *. destruct (c w) as [a w1]. eapply kept_trans; [exact Hc|]. apply Hf.
Qed.
Lemma keeps_io_bind {A B} (c : io world A) (f : A -> io world B) : keeps c -> (forall a, keeps (f a)) -> keeps (io_bind c f).
Proof.
  intros Hc Hf w. specialize (Hc w). unfold final, io_bind in *. destruct (c w) as [[a|e] w1]; [|exact Hc].
  eapply kept_trans; [exact Hc|]. apply Hf.
Qed.
Lemma keeps_emit e : keeps (emit (S := S) (C := C) e).
Proof. intros w. split; [by exists [e]|]. intros v Hv. exists v. auto. Qed.
Lemma keeps_chain {A} (c : io C A) : keeps (on_chain (S := S) c).
Proof. intros w. unfold final, on_chain. destruct (c (w_chain w)). by apply kept_same. Qed.
Lemma keeps_read {A} (op : io S A) (f : view -> A) : implements op (fun v => Some (f v, v)) -> keeps (on_store (C := C) op).
Proof.
  intros Hi w. apply kept_same; unfold final, on_store; [|by destruct (op (w_store w))]. intros v Hv.
  destruct (Hi _ v Hv) as [Hr _]. destruct (op (w_store w)) as [[a|e] s]; cbn; [by destruct Hr as (v' & [= _ <-] & Hv')|done].
Qed.
#[local] Hint Resolve keeps_ret keeps_emit keeps_chain : core.

Lemma tick_keeps : keeps (tick cfg workerAddr).
Proof.
  unfold tick, tick_steps. apply keeps_bind; [|auto]. apply keeps_io_bind; [auto|intros hd].
  apply keeps_io_bind; [exact (keeps_read _ v_gate law_GetNextAllowedAttempt)|intros gate]. destruct (Timestamp hd <? gate); [apply keeps_ret|].
  apply keeps_io_bind; [unfold disputeWindow; destruct (0 <? _); auto; apply keeps_ret|intros window].
  apply keeps_io_bind; [exact (keeps_read _ (fun v => sort_by_JobID (v_pending v)) law_Pending)|intros pending].
  apply keeps_bind; [auto|intros _]. apply keeps_io_bind; [exact (keeps_read _ v_last law_GetLastReleaseTs)|intros last].
  destruct (_ && _); [apply keeps_ret|]. apply keeps_bind; [|intros _; apply keeps_ret].
  intros w. unfold final. destruct (runReleaseCycle _ _ _ _ _ w) as [r w'] eqn:E. by eapply cycle_kept.
Qed.

(** However long the scheduler's goroutine runs and whatever it is answered, a
    job that was pending when it started is still pending, or was released, or
    its on-chain record was read as one that can never pay this worker. *)
Theorem scheduler_loop_loses_no_job ws w w' stopped v : scheduler_loop ws w = (w', stopped) ->
  store_view (w_store w) = Some v -> exists v', store_view (w_store w') = Some v' /\
    (forall j, j ∈ v_jobs v -> j ∈ v_jobs v' \/ settled workerAddr j (w_trace w')) /\
    (forall j, j ∈ v_jobs v' -> j ∈ v_jobs v) /\ v_cursor v' = v_cursor v.
Proof.
  intros E. enough (kept w w') as [_ Hk] by apply Hk. revert w E. unfold scheduler_loop.
  induction ws as [|[now| |] ws IH]; intros w; cbn [each_tick]; [by intros [= <- _]; apply kept_same| |by intros [= <- _]; apply kept_same..].
  intros Hk%IH. eapply kept_trans; [apply tick_keeps|exact Hk].
Qed.
End Settlement.

(** ** What the loops add up to *)

(** Every heartbeat loop beats at its start and on every tick: the monitor
    writes one hash each time, the gateway loop sends one payload. *)
Lemma turns_count {E S X} (body : S -> prog E S) (f : forall Y, E Y -> Y -> list X) :
  (forall s, always (body s) (fun tr _ => length (answered f tr) = 1%nat)) ->
  forall s trs s', turns body s trs s' -> length (answered f (concat trs)) = length trs.
Proof.
  intros Hb s trs s'. induction 1 as [|s tr s1 trs s2 Hr _ IH]; [done|]. cbn [concat length].
  rewrite answered_app, length_app, IH, (always_runs _ _ _ _ (Hb s) Hr). done.
Qed.

Theorem heartbeats_follow_the_ticks pv m ws tr r : runs (monitor_loop pv m ws) tr r ->
  length (Heartbeat.written tr) = Datatypes.S (ticks ws) /\ snd r = stops ws.
Proof.
  assert (forall s : unit, always (_ <- Heartbeat.emit pv m ;; Ret tt) (fun tr (_ : unit) => length (Heartbeat.written tr) = 1%nat)) as Hb.
  { intros _. apply always_bind. eapply always_mono; [apply Heartbeat.emit_always|]. intros t a (s & n & d & now & _ & Hw).
    cbn. by rewrite app_nil_r, Hw. }
  unfold monitor_loop. cbn zeta. intros (tr1 & [] & tr2 & -> & H1 & (trs & -> & Hl & Ht & Hs)%on_ticks_turns)%runs_bind.
  split; [|done]. unfold Heartbeat.written in *. rewrite answered_app, length_app, (always_runs _ _ _ _ (Hb tt) H1).
  by rewrite (turns_count _ _ Hb _ _ _ Ht), Hl.
Qed.

Theorem gateway_heartbeats_follow_the_ticks pv url maxJobs models caps ws tr r :
  runs (gatewayHeartbeatLoop pv url maxJobs models caps ws) tr r ->
  length (fst r) = Datatypes.S (ticks ws) /\ snd r = stops ws /\
  Forall (fun p => hb_MaxJobs p = maxJobs /\ hb_Models p = models /\ hb_Capabilities p = caps) (fst r).
Proof.
  intros (trs & -> & Hl & Ht & Hs)%rounds_turns. rewrite <- Hl. clear Hl. enough (forall sent out, turns (gateway_turn pv url maxJobs models caps) sent trs out ->
    exists new, out = sent ++ new /\ length new = length trs /\
      Forall (fun p => hb_MaxJobs p = maxJobs /\ hb_Models p = models /\ hb_Capabilities p = caps) new) as H.
  { destruct (H _ _ Ht) as (new & -> & Hn & Hf). auto. }
  clear. induction trs as [|tr trs IH]; intros sent out; inversion 1 as [|? ? s1 ? ? H1 H2]; subst; [exists []; by rewrite app_nil_r|].
  apply IH in H2 as (new & -> & Hn & Hf). apply runs_bind in H1 as (tr1 & p & tr2 & -> & Hp & [-> ->]%runs_ret_inv).
  destruct (always_runs _ _ _ _ (Heartbeat.beat_always pv _ _ _ _) Hp) as (st & n & d & _ & ->).
  exists (MkHeartbeat n maxJobs models caps pv (Heartbeat.status_text st) (dur_secs d) :: new).
  rewrite <- app_assoc. cbn. rewrite Hn. split; [done|]. split; [done|]. by constructor.
Qed.

(** A cursor that is stored stays stored. *)
Lemma observed_stays `{!AddressOps} events_at tr : forall v s', JobWatcher.observed events_at (Some v) tr s' -> exists v', s' = Some v'.
Proof.
  induction tr as [|[X e x] tr IH]; intros v s'; cbn; [by intros ->; eexists|]. destruct e; try apply IH; cbn.
  - destruct x as [[c f]|e]; [|apply IH]. intros [_ Ho]. by apply IH in Ho.
  - destruct x; apply IH.
  - intros [_ Ho]. by apply IH in Ho.
Qed.

(** However long the job watcher's goroutine runs, from a stored cursor on: it
    makes one pass per tick, the cursor never moves back, and every job of this
    worker in the blocks the cursor has moved over was settled in one of the
    passes. *)
Theorem job_loop_skips_no_job `{!AddressOps} cfg events_at fuel ws retries tr r c s' :
  (forall b ev, ev ∈ events_at b -> ChainReads.jse_BlockNumber ev = b) -> 0 < JobWatcher.chunk cfg -> 0 <= JobWatcher.confs cfg -> 1 <= JobWatcher.sessionRetryLimit cfg -> 0 <= c -> JobWatcher.counts_ok cfg retries ->
  runs (job_loop cfg fuel ws retries) tr r -> JobWatcher.observed events_at (Some c) tr s' ->
  (forall n, Ok n ∈ JobWatcher.heads tr -> JobWatcher.head_fits cfg fuel n) ->
  exists trs c', tr = concat trs /\ length trs = ticks ws /\ s' = Some c' /\ c <= c' /\
    forall b ev, c < b <= c' -> ev ∈ events_at b -> JobWatcher.mine cfg ev -> exists tr, tr ∈ trs /\ JobWatcher.settled cfg ev tr.
Proof.
  intros Hat Hch Hco Hl Hc Hr (trs & -> & Hlen & Ht & _)%on_ticks_turns Ho Hh.
  assert (exists c', s' = Some c' /\ JobWatcher.passes cfg events_at c retries trs c' (fst r)) as (c' & -> & Hp).
  { clear Hlen Hr Hc. revert c Ho Hh. induction Ht as [retries|retries tr retries1 trs retries2 H1 _ IH]; intros c Ho Hh.
    - exists c. cbn in Ho. split; [done|constructor].
    - cbn [concat] in Ho, Hh. apply JobWatcher.observed_app in Ho as (s1 & Ho1 & Ho2). destruct (observed_stays _ _ _ _ Ho1) as [c1 ->].
      destruct (IH c1 Ho2) as (c' & -> & Hp).
      { intros n Hn. apply Hh. unfold JobWatcher.heads in *. rewrite answered_app. apply elem_of_app. by right. }
      exists c'. split; [done|]. apply runs_bind in H1 as (tr1 & ro & tr2 & -> & H1 & [-> ->]%runs_ret_inv). rewrite app_nil_r in *.
      econstructor; [exact H1|exact Ho1| |exact Hp]. intros n Hn. apply Hh. unfold JobWatcher.heads in *. rewrite answered_app. apply elem_of_app. by left. }
  destruct (JobWatcher.passes_settle cfg events_at Hat c retries trs c' (fst r) Hch Hco Hl Hp Hc Hr) as (Hle & Hset & _).
  exists trs, c'. auto.
Qed.

(** ** The loops of a configured worker *)
Lemma guarded_positive d : 0 < d -> guarded d = Started.
Proof. intros Hd. unfold guarded, NewTicker. by rewrite (proj2 (Z.leb_gt _ _) Hd). Qed.

(** A configuration that loads and validates starts every loop of the worker:
    the heartbeat of either kind, and, when the release subsystem is enabled,
    the scheduler and the reconciler; none declines and none panics. The chain
    watchers start, too, unless their poll interval is negative, which panics
    their goroutine. *)
Theorem loaded_config_starts_every_loop `{!AddressOps} `{!URLs} `{!ConfigText} env c :
  Config.Load env = Ok c -> Config.Validate c = [] ->
  (forall m, Heartbeat.Interval m = Config.HeartbeatInterval (Config.timing c) -> Monitor_Start m = Started) /\
  gatewayHeartbeatLoop_start (Config.HeartbeatInterval (Config.timing c)) = Started /\
  (Config.ReleaseEnabled (Config.release c) = true ->
     Scheduler_Start (Config.buildReleaseConfig (Config.release c)) = Started /\
     Reconciler_StartPeriodic (Config.buildReleaseConfig (Config.release c)) = Started) /\
  watcher_Start (Config.SortitionPollInterval (Config.sortition c)) =
    (if Config.SortitionPollInterval (Config.sortition c) <? 0 then Panicked else Started).
Proof.
  intros Hl Hv. pose proof (Config.loaded_usable env c Hl Hv) as Hu. destruct (Config.us_release _ Hu) as [_ Hrel].
  pose proof (Config.ut_durations _ _ (Config.us_timing _ Hu)) as [[Hb _] _]%Forall_cons.
  split; [intros m E; unfold Monitor_Start; rewrite E; by apply guarded_positive|].
  split; [unfold gatewayHeartbeatLoop_start, NewTicker; by rewrite (proj2 (Z.leb_gt _ _) Hb)|]. split.
  - intros Hr%Hrel. destruct Hr as [_ [Hp _] _ _ _ _ Hrec _]. split; by apply guarded_positive.
  - unfold watcher_Start, poll_interval, NewTicker. destruct (Z.eqb_spec (Config.SortitionPollInterval (Config.sortition c)) 0) as [->|Hn]; [done|].
    destruct (Z.leb_spec (Config.SortitionPollInterval (Config.sortition c)) 0), (Z.ltb_spec (Config.SortitionPollInterval (Config.sortition c)) 0); done || lia.
Qed.

Example negative_poll_panics : watcher_Start (- Second) = Panicked /\ watcher_Start 0 = Started /\ guarded (- Second) = Declined.
Proof. vm_compute. done. Qed.

(** A signal between two ticks ends the loop; nothing runs after it. *)
Example janitor_stops : snd (janitor [Ticked 1; Ticked 2; Closed; Ticked 3] (Coordinator.NewSubpoolCoordinator 0)) = true /\
  ticks [Ticked 1; Ticked 2; Closed; Ticked 3] = 2%nat.
Proof. vm_compute. done. Qed.
End Loops.
