(* ===== verification/Payment.v ===== *)
(** Getting paid, end to end: the pipeline hands a settled job to the release
    store ([JobHandler.settle], [Tracker.MarkEligible]), and the scheduler takes
    it out again ([Scheduler.tick]), while other jobs run, and the reconciler
    and other processes work on the same file. The parts are those of their own
    files; here they share one store, operation by operation, as its lock makes
    them, and the jobs advance call by call. *)
From S2P Require Import Prelude Effects ReleaseStore Chain ReleaseConfig Scheduler Reconciler Checkpoint JobTypes JobCalls Inference Pipeline Loops.

Module Payment.

(** ** The operations of the store, as data *)
Inductive store_op : Type -> Type :=
  | OpAddEligible (jobID completedAt : Z) : store_op unit
  | OpPending : store_op (list PendingJob)
  | OpRemove (jobIDs : list Z) : store_op unit
  | OpRecordFailure (jobID backoffUntil : Z) : store_op unit
  | OpGetReconcileBlock : store_op Z
  | OpSetReconcileBlock (block : Z) : store_op unit
  | OpGetLastReleaseTs : store_op Z
  | OpSetLastReleaseTs (ts : Z) : store_op unit
  | OpGetNextAllowedAttempt : store_op Z
  | OpSetNextAllowedAttempt (ts : Z) : store_op unit.

Definition perform {S A} `{!Store S} (o : store_op A) : io S A :=
  match o in store_op A return io S A with
  | OpAddEligible j t => AddEligible j t
  | OpPending => Pending
  | OpRemove ids => Remove ids
  | OpRecordFailure j u => RecordFailure j u
  | OpGetReconcileBlock => GetReconcileBlock
  | OpSetReconcileBlock b => SetReconcileBlock b
  | OpGetLastReleaseTs => GetLastReleaseTs
  | OpSetLastReleaseTs t => SetLastReleaseTs t
  | OpGetNextAllowedAttempt => GetNextAllowedAttempt
  | OpSetNextAllowedAttempt t => SetNextAllowedAttempt t
  end.

Definition promise {A} (o : store_op A) : view -> option (A * view) :=
  match o in store_op A return view -> option (A * view) with
  | OpAddEligible j t => spec_AddEligible j t
  | OpPending => spec_Pending
  | OpRemove ids => spec_Remove ids
  | OpRecordFailure j u => spec_RecordFailure j u
  | OpGetReconcileBlock => spec_GetReconcileBlock
  | OpSetReconcileBlock b => spec_SetReconcileBlock b
  | OpGetLastReleaseTs => spec_GetLastReleaseTs
  | OpSetLastReleaseTs t => spec_SetLastReleaseTs t
  | OpGetNextAllowedAttempt => spec_GetNextAllowedAttempt
  | OpSetNextAllowedAttempt t => spec_SetNextAllowedAttempt t
  end.

(** The job an operation has recorded, and the jobs it takes away. *)
Definition recorded {A} (o : store_op A) (ok : bool) : list Z :=
  match o with OpAddEligible j _ => if ok then [j] else [] | _ => [] end.
Definition taken {A} (o : store_op A) : list Z := match o with OpRemove ids => ids | _ => [] end.

Lemma perform_promise {S A} `{!Store S, !StoreView S, !StoreLaws S} (o : store_op A) : implements (perform o) (promise o).
Proof.
  destruct o; cbn [perform promise];
    eauto using law_AddEligible, law_Pending, law_Remove, law_RecordFailure, law_GetReconcileBlock,
      law_SetReconcileBlock, law_GetLastReleaseTs, law_SetLastReleaseTs, law_GetNextAllowedAttempt, law_SetNextAllowedAttempt.
Qed.

Lemma added_job j t v : j ∈ v_jobs (snd (default (tt, v) (spec_AddEligible j t v))).
Proof.
  cbn. destruct (has_job j (v_pending v)) eqn:E; [|unfold v_jobs; cbn; rewrite fmap_app; set_solver].
  unfold has_job in E. apply existsb_exists in E as (p & Hp & <-%Z.eqb_eq). apply list_elem_of_fmap. exists p. by rewrite list_elem_of_In.
Qed.

(** A job stays until an operation takes it away. *)
Lemma promise_keeps {A} (o : store_op A) v a v' j : promise o v = Some (a, v') ->
  j ∈ v_jobs v \/ j ∈ recorded o true -> j ∈ v_jobs v' \/ j ∈ taken o.
Proof.
  destruct o; cbn [promise recorded taken]; intros Hs [Hj|Hj]; try by apply not_elem_of_nil in Hj.
  - left. injection Hs as _ <-. destruct (has_job _ _); [done|]. unfold v_jobs in *; cbn. rewrite fmap_app. set_solver.
  - apply list_elem_of_singleton in Hj as ->. left. pose proof (added_job jobID completedAt v) as Ha. by rewrite Hs in Ha.
  - left. by injection Hs as _ <-.
  - injection Hs as _ <-. unfold v_jobs in *; cbn. apply list_elem_of_fmap in Hj as (p & -> & Hp).
    destruct (decide (ReleaseStore.JobID p ∈ jobIDs)); [by right|left]. apply list_elem_of_fmap. exists p. split; [done|]. by apply list_elem_of_filter.
  - left. injection Hs as _ <-. destruct (bump_failure _ _ _) as [l|] eqn:E; [|done].
    unfold v_jobs in *; cbn. by rewrite (Scheduler.bump_failure_jobs _ _ _ _ E).
  - left. by injection Hs as _ <-.
  - left. unfold spec_SetReconcileBlock in Hs. destruct (_ <? _); [done|]. by injection Hs as _ <-.
  - left. by injection Hs as _ <-.
  - left. by injection Hs as _ <-.
  - left. by injection Hs as _ <-.
  - left. by injection Hs as _ <-.
Qed.

(** ** A store that others use, too

    Between two operations of one party the others go on: running jobs make
    their next call ([JobStep], the answers but the tracker's being any), and
    other parties, the reconciler, the operator's commands, another process,
    run an operation, having seen [seen] on chain by then. [schedule] is what
    happens before each coming operation; [added] are the jobs whose recording
    succeeded, by whomever; [removed] those this party took out; [evidence]
    what the others had seen when they took theirs out. *)
Definition answering : Type := forall X, JobE X -> X.
Inductive move `{!AddressOps} : Type :=
  | Operation {A : Type} (o : store_op A) (seen : list Scheduler.event)
  | JobStep (i : nat) (answers : answering).

(** A running job: the calls it has made, and what is left of its program. *)
Record process : Type := MkProcess { made : list (called JobE); left_ : prog JobE (result unit) }.
Definition start (p : prog JobE (result unit)) : process := MkProcess [] p.

Record shared `{!AddressOps} (S : Type) : Type := MkShared {
  store : S;
  schedule : list (list move);
  processes : list process;
  added : list Z;
  removed : list Z;
  evidence : list Scheduler.event;
}.
Arguments MkShared {_ S} _ _ _ _ _ _.
Arguments store {_ S} _.
Arguments schedule {_ S} _.
Arguments processes {_ S} _.
Arguments added {_ S} _.
Arguments removed {_ S} _.
Arguments evidence {_ S} _.

(** Who else takes a job out has its reasons: those for which a scheduler does
    ([ac_removed] below, which every scheduler keeps). *)
Definition justified `{!AddressOps} (workerAddr : Address) (m : move) : Prop :=
  match m with
  | Operation o seen => forall j, j ∈ taken o -> Scheduler.settled workerAddr j seen
  | JobStep _ _ => True
  end.

Section SharedStore.
Context `{!AddressOps} {S : Type} `{!Store S}.

(** The tracker's [MarkEligible] is the store's [AddEligible]; a job's other
    calls do not touch this store. *)
Definition MarkEligible (jobID completedAt : Z) : io S unit := AddEligible jobID completedAt.
Definition respond (answers : answering) (s : S) {X} (e : JobE X) : X * S * list Z :=
  match e in JobE X return X * S * list Z with
  | JobCalls.MarkEligible j t => let '(r, s') := MarkEligible j t s in (r, s', if is_ok r then [j] else [])
  | e => (answers _ e, s, [])
  end.
Definition job_step (i : nat) (answers : answering) (sh : shared S) : shared S :=
  match processes sh !! i with
  | Some (MkProcess tr (Vis e k)) =>
      let '(x, s, new) := respond answers (store sh) e in
      MkShared s (schedule sh) (<[i := MkProcess (tr ++ [Called e x]) (k x)]> (processes sh)) (new ++ added sh) (removed sh) (evidence sh)
  | _ => sh
  end.

Definition others_run (sh : shared S) (m : move) : shared S :=
  match m with
  | Operation o seen =>
      let '(r, s) := perform o (store sh) in
      MkShared s (schedule sh) (processes sh) (recorded o (is_ok r) ++ added sh) (removed sh) (seen ++ evidence sh)
  | JobStep i answers => job_step i answers sh
  end.
Definition let_others (sh : shared S) : shared S :=
  match schedule sh with
  | [] => sh
  | ms :: rest => fold_left others_run ms (MkShared (store sh) rest (processes sh) (added sh) (removed sh) (evidence sh))
  end.
Definition own_run {A} (o : store_op A) : io (shared S) A := fun sh =>
  let '(r, s) := perform o (store sh) in
  (r, MkShared s (schedule sh) (processes sh) (recorded o (is_ok r) ++ added sh) (taken o ++ removed sh) (evidence sh)).
Definition interleaved {A} (o : store_op A) : io (shared S) A := fun sh => own_run o (let_others sh).

#[export] Instance shared_store : Store (shared S) := {|
  AddEligible j t := interleaved (OpAddEligible j t);
  Pending := interleaved OpPending;
  Remove ids := interleaved (OpRemove ids);
  RecordFailure j u := interleaved (OpRecordFailure j u);
  GetReconcileBlock := interleaved OpGetReconcileBlock;
  SetReconcileBlock b := interleaved (OpSetReconcileBlock b);
  GetLastReleaseTs := interleaved OpGetLastReleaseTs;
  SetLastReleaseTs t := interleaved (OpSetLastReleaseTs t);
  GetNextAllowedAttempt := interleaved OpGetNextAllowedAttempt;
  SetNextAllowedAttempt t := interleaved (OpSetNextAllowedAttempt t);
|}.

Context `{!StoreView S, !StoreLaws S} (workerAddr : Address) (jobs : list (prog JobE (result unit))).

(** The jobs a run was told are recorded. *)
Definition mark_of Y (e : JobE Y) : Y -> list Z :=
  match e in JobE Y return Y -> list Z with
  | JobCalls.MarkEligible j _ => fun r => if is_ok r then [j] else []
  | _ => fun _ => []
  end.
Definition marks (tr : list (called JobE)) : list Z := answered mark_of tr.
Lemma elem_of_marks j t tr : Called (JobCalls.MarkEligible j t) (Ok tt) ∈ tr -> j ∈ marks tr.
Proof.
  intros Hin. unfold marks, answered. apply list_elem_of_In, in_flat_map. exists (Called (JobCalls.MarkEligible j t) (Ok tt)).
  split; [by apply list_elem_of_In|by left].
Qed.

(** The state of affairs: every job ever recorded is pending, or gone for a
    reason of this party, or for one another had seen; this party took out
    only what was gone; and each running job is on its way, every recording it
    was told of having happened. *)
Record accounted (gone : Z -> Prop) (sh : shared S) : Prop := {
  ac_view : exists v, store_view (store sh) = Some v /\
    forall j, j ∈ added sh -> j ∈ v_jobs v \/ gone j \/ Scheduler.settled workerAddr j (evidence sh);
  ac_removed j : j ∈ removed sh -> gone j;
  ac_runs i p : jobs !! i = Some p -> exists pr, processes sh !! i = Some pr /\ reaches p (made pr) (left_ pr) /\
    forall j, j ∈ marks (made pr) -> j ∈ added sh;
  ac_schedule : Forall (Forall (justified workerAddr)) (schedule sh);
}.

Lemma accounted_mono (gone gone' : Z -> Prop) sh : (forall j, gone j -> gone' j) -> accounted gone sh -> accounted gone' sh.
Proof. intros Hg [(v & Hv & Ha) Hr Hp Hs]. split; [|by auto|done..]. exists v. split; [done|]. intros j Hj. destruct (Ha j Hj) as [?|[?|?]]; auto. Qed.

(** One operation, by anybody. *)
Lemma performed {A} (o : store_op A) s r s' v : store_view s = Some v -> perform o s = (r, s') ->
  exists v', store_view s' = Some v' /\
    forall j, j ∈ v_jobs v \/ j ∈ recorded o (is_ok r) -> j ∈ v_jobs v' \/ j ∈ taken o.
Proof.
  intros Hv E. destruct r as [a|e].
  - destruct (implements_ok _ _ _ _ _ _ (perform_promise o) Hv E) as (v' & Hs & Hv'). exists v'. split; [done|].
    intros j. by apply (promise_keeps o v a).
  - pose proof (implements_err _ _ _ _ _ _ (perform_promise o) Hv E) as Hv'. exists v. split; [done|].
    intros j [Hj|Hj]; [by left|]. clear E. destruct o; by apply not_elem_of_nil in Hj.
Qed.

(** It keeps the account, when what it takes is gone or settled. *)
Lemma performed_view {A} (o : store_op A) (gone : Z -> Prop) seen s added evidence r s' :
  perform o s = (r, s') -> (forall j, j ∈ taken o -> gone j \/ Scheduler.settled workerAddr j (seen ++ evidence)) ->
  (exists v, store_view s = Some v /\ forall j, j ∈ added -> j ∈ v_jobs v \/ gone j \/ Scheduler.settled workerAddr j evidence) ->
  exists v, store_view s' = Some v /\
    forall j, j ∈ recorded o (is_ok r) ++ added -> j ∈ v_jobs v \/ gone j \/ Scheduler.settled workerAddr j (seen ++ evidence).
Proof.
  intros E Ht (v & Hv & Ha). destruct (performed _ _ _ _ _ Hv E) as (v' & Hv' & Hk). exists v'. split; [done|].
  intros j [Hj|Hj]%elem_of_app; [destruct (Hk j (or_intror Hj)); naive_solver|].
  destruct (Ha j Hj) as [Hin|[?|?]]; [destruct (Hk j (or_introl Hin)); naive_solver|by right; left|right; right].
  by apply Scheduler.settled_mono.
Qed.

Lemma job_step_accounted gone i answers sh : accounted gone sh -> accounted gone (job_step i answers sh).
Proof.
  intros [Hv Hr Hp Hs]. unfold job_step. destruct (processes sh !! i) as [[tr [u|X e k]]|] eqn:Ei; try by split.
  destruct (respond answers (store sh) e) as [[x s] new] eqn:E.
  assert ((exists v, store_view s = Some v /\ forall j, j ∈ new ++ added sh -> j ∈ v_jobs v \/ gone j \/ Scheduler.settled workerAddr j (evidence sh)) /\
    marks [Called e x] = new) as [Hv' Hnew].
  { destruct e; cbn in E; simplify_eq; try (split; [exact Hv|done]); unfold MarkEligible in E.
    destruct (AddEligible jobID completedAt (store sh)) as [r s'] eqn:Ea. simplify_eq. split; [|by destruct x as [[]|]].
    apply (performed_view (OpAddEligible jobID completedAt) gone [] _ _ _ _ _ Ea); [by intros j ?%not_elem_of_nil|exact Hv]. }
  split; cbn [store processes added removed evidence schedule]; [exact Hv'|exact Hr| |exact Hs].
  intros i' p Hi. destruct (Hp i' p Hi) as (pr & Hpr & Hreach & Hm). destruct (decide (i' = i)) as [->|Hne].
  - rewrite Ei in Hpr. injection Hpr as <-. exists (MkProcess (tr ++ [Called e x]) (k x)). rewrite list_lookup_insert_eq by (by eapply lookup_lt_Some). split; [done|].
    split; [by apply (reaches_snoc p tr e k x)|]. cbn [made]. intros j. unfold marks in *. rewrite answered_app, Hnew, !elem_of_app.
    intros [Hin|Hin]; [right; by apply Hm|by left].
  - exists pr. rewrite list_lookup_insert_ne by done. split; [done|]. split; [done|]. intros j Hin. rewrite elem_of_app. right. by apply Hm.
Qed.

Lemma others_accounted gone sh m : justified workerAddr m -> accounted gone sh -> accounted gone (others_run sh m).
Proof.
  destruct m as [A o seen|i answers]; [|intros _; apply job_step_accounted]. intros Hj [Hv Hr Hp Hs]. unfold others_run.
  destruct (perform o (store sh)) as [r s] eqn:E. split; cbn [store processes added removed evidence schedule]; [|done| |done].
  - eapply performed_view; [exact E| |exact Hv]. intros j Ht. right. apply Scheduler.settled_concat. left. by apply Hj.
  - intros i p Hi. destruct (Hp i p Hi) as (pr & Hpr & Hreach & Hm). exists pr. split; [done|]. split; [done|].
    intros j Hin. rewrite elem_of_app. right. by apply Hm.
Qed.
Lemma let_others_accounted gone sh : accounted gone sh -> accounted gone (let_others sh).
Proof.
  unfold let_others. destruct (schedule sh) as [|ms rest] eqn:Es; [done|]. intros [Hv Hr Hp Hs].
  rewrite Es in Hs. inversion Hs as [|? ? Hms Hrest]; subst.
  assert (accounted gone (MkShared (store sh) rest (processes sh) (added sh) (removed sh) (evidence sh))) as H0 by (by split).
  clear Hv Hr Hp Hs Es Hrest. revert H0.
  generalize (MkShared (store sh) rest (processes sh) (added sh) (removed sh) (evidence sh)).
  induction Hms as [|m ms Hm Hms IH]; [done|]. intros sh0 H0. apply IH. by apply others_accounted.
Qed.
Lemma interleaved_accounted {A} gone (o : store_op A) sh r sh' :
  interleaved o sh = (r, sh') -> (forall j, j ∈ taken o -> gone j) -> accounted gone sh -> accounted gone sh'.
Proof.
  unfold interleaved, own_run. intros E Ht [Hv Hr Hp Hs]%let_others_accounted. destruct (perform o _) as [r1 s] eqn:Ep.
  injection E as <- <-. split; cbn [store processes added removed evidence schedule]; [| | |done].
  - apply (performed_view o gone [] _ _ _ _ _ Ep); [|exact Hv]. intros j Hj. left. by apply Ht.
  - intros j [Hj|Hj]%elem_of_app; auto.
  - intros i p Hi. destruct (Hp i p Hi) as (pr & Hpr & Hreach & Hm). exists pr. split; [done|]. split; [done|].
    intros j Hin. rewrite elem_of_app. right. by apply Hm.
Qed.
End SharedStore.

(** ** The scheduler *)

(** An operation that takes nothing away, by the lemma for those. *)
Ltac harmless lem := first
  [ apply (lem _ (OpAddEligible _ _) eq_refl) | apply (lem _ OpPending eq_refl) | apply (lem _ (OpRecordFailure _ _) eq_refl)
  | apply (lem _ OpGetReconcileBlock eq_refl) | apply (lem _ (OpSetReconcileBlock _) eq_refl) | apply (lem _ OpGetLastReleaseTs eq_refl)
  | apply (lem _ (OpSetLastReleaseTs _) eq_refl) | apply (lem _ OpGetNextAllowedAttempt eq_refl)
  | apply (lem _ (OpSetNextAllowedAttempt _) eq_refl) ].

Section Parties.
Context `{!AddressOps} {S C : Type} `{!Store S} `{!SettlementClient C} `{!StoreView S, !StoreLaws S}.
Context (cfg : ReleaseConfig.Config) (workerAddr : Address) (jobs : list (prog JobE (result unit))).

Section TheScheduler.
Import Scheduler.
#[local] Abbreviation world := (@Scheduler.world _ (shared S) C).

Definition paid_or_owed (w : world) : Prop := accounted workerAddr jobs (fun j => settled workerAddr j (w_trace w)) (w_store w).

Lemma same_store w w' : w_store w' = w_store w -> (exists l, w_trace w' = l ++ w_trace w) -> paid_or_owed w -> paid_or_owed w'.
Proof.
  unfold paid_or_owed. intros -> [l ->]. apply accounted_mono. intros j. apply settled_mono.
Qed.

Lemma safe_emit e : safe paid_or_owed (emit (S := shared S) (C := C) e).
Proof. intros w. apply same_store; [done|by exists [e]]. Qed.
Lemma safe_chain {A} (c : io C A) : safe paid_or_owed (on_chain (S := shared S) c).
Proof. intros w. unfold final, on_chain. destruct (c (w_chain w)). apply same_store; [done|by exists []]. Qed.
Lemma op_paid {A} (o : store_op A) w r w' : on_store (C := C) (interleaved o) w = (r, w') ->
  (forall j, j ∈ taken o -> settled workerAddr j (w_trace w)) -> paid_or_owed w -> paid_or_owed w' /\ w_trace w' = w_trace w.
Proof.
  unfold on_store, paid_or_owed. destruct (interleaved o (w_store w)) as [r1 s] eqn:E. intros [= <- <-] Ht Ha. split; [|done].
  by eapply interleaved_accounted.
Qed.
Lemma safe_op {A} (o : store_op A) : taken o = [] -> safe paid_or_owed (on_store (C := C) (interleaved o)).
Proof.
  intros Ht w Hw. unfold final. destruct (on_store _ w) as [r w'] eqn:E. eapply op_paid; [exact E| |done].
  rewrite Ht. by intros j ?%not_elem_of_nil.
Qed.
Lemma safe_try {A} (o : store_op A) : taken o = [] -> safe paid_or_owed (try_store (C := C) (interleaved o)).
Proof. intros Ht. unfold try_store. safely. by apply safe_op. Qed.
#[local] Hint Resolve safe_emit safe_chain : safe.
#[local] Hint Extern 1 (safe _ (on_store _)) => (harmless (@safe_op)) : safe.
#[local] Hint Extern 1 (safe _ (try_store _)) => (harmless (@safe_try)) : safe.

Lemma safe_recordAttempt now : safe paid_or_owed (recordAttempt now).
Proof. unfold recordAttempt. safely. Qed.
Lemma safe_applyPauseBackoff now r : safe paid_or_owed (applyPauseBackoff cfg now r).
Proof. unfold applyPauseBackoff, recordAttemptWithBackoff. safely. Qed.
Lemma safe_recordPerJobFailure j now : safe paid_or_owed (recordPerJobFailure cfg j now).
Proof. unfold recordPerJobFailure. safely. Qed.

(** The steps of a cycle leave evidence in its trace whatever is known of the
    store, so also when nothing is. *)
#[local] Instance blind : StoreView (shared S) := {| store_view _ := None; store_healthy _ := True |}.
#[local] Instance blind_laws : StoreLaws (shared S).
Proof. by split. Qed.

Lemma partition_reads s cands window now b : safe (fun w : world => w_store w = s) (partition_loop cfg workerAddr window now cands b).
Proof.
  assert (forall e, safe (fun w : world => w_store w = s) (emit e)) as He by (intros e w Hw; exact Hw).
  assert (forall A (c : io C A), safe (fun w : world => w_store w = s) (on_chain c)) as Hc.
  { intros A c w Hw. unfold final, on_chain. by destruct (c (w_chain w)). }
  revert b. induction cands as [|p cands IH]; intros b; cbn [partition_loop]; unfold getJobState, traced, classify; safely.
Qed.
Lemma partition_evidence cands window now w b w' : partition cfg workerAddr cands window now w = (b, w') ->
  paid_or_owed w -> paid_or_owed w' /\ (forall j, j ∈ dropIDs b -> settled workerAddr j (w_trace w')).
Proof.
  unfold partition. intros E Hw. pose proof (safe_run _ _ _ _ _ (partition_reads (w_store w) cands (dur_secs window) now _) E eq_refl) as Hs.
  apply (step_partition cfg workerAddr (fun _ => True)) in E as ([[l Hl] _ _ _] & [_ Hd] & _); [|split; intros j ?%not_elem_of_nil; done|done].
  split; [|done]. eapply same_store; [exact Hs|by exists l|done].
Qed.

Lemma remove_paid ids w b w' : try_store (Remove ids) w = (b, w') -> (forall j, j ∈ ids -> settled workerAddr j (w_trace w)) ->
  paid_or_owed w -> paid_or_owed w' /\ w_trace w' = w_trace w.
Proof.
  unfold try_store, st_bind, st_ret. destruct (on_store (Remove ids) w) as [r w1] eqn:E. intros [= <- <-] Hs Hw.
  by apply (op_paid (OpRemove ids)) in E.
Qed.

(** A release that succeeded is evidence, and so is a state that cannot pay. *)
Lemma release_evidence id w r w' : releaseJob id w = (r, w') -> paid_or_owed w ->
  paid_or_owed w' /\ w_trace w' = ECallRelease id r :: w_trace w.
Proof.
  unfold releaseJob, traced, on_chain. intros E Hw. run_go. split; [|done]. eapply same_store; [| |exact Hw]; [done|by eexists [_]].
Qed.
Lemma batch_evidence ids w r w' : releaseJobs ids w = (r, w') -> paid_or_owed w ->
  paid_or_owed w' /\ w_trace w' = ECallReleaseBatch ids r :: w_trace w.
Proof.
  unfold releaseJobs, traced, on_chain. intros E Hw. run_go. split; [|done]. eapply same_store; [| |exact Hw]; [done|by eexists [_]].
Qed.
Lemma state_evidence id w r w' : getJobState id w = (r, w') -> paid_or_owed w ->
  paid_or_owed w' /\ w_trace w' = ECallState id r :: w_trace w.
Proof.
  unfold getJobState, traced, on_chain. intros E Hw. run_go. split; [|done]. eapply same_store; [| |exact Hw]; [done|by eexists [_]].
Qed.

#[local] Hint Resolve safe_recordAttempt safe_applyPauseBackoff safe_recordPerJobFailure : safe.

Lemma safe_fallback_release now id el out : safe paid_or_owed (fallback_release cfg now id el out).
Proof.
  unfold fallback_release. destruct el; cbn [negb]; [|safely]. intros w Hw. unfold final, st_bind at 1.
  destruct (releaseJob id w) as [rr w1] eqn:E. destruct (release_evidence _ _ _ _ E Hw) as [Hw1 T1].
  destruct rr as [[]|err]; [|carry_on].
  unfold st_bind at 1. destruct (try_store (Remove [id]) w1) as [b w2] eqn:E2.
  apply remove_paid in E2 as [Hw2 _]; [carry_on| |done].
  intros j ->%list_elem_of_singleton. rewrite T1. left. left.
Qed.
#[local] Hint Resolve safe_fallback_release : safe.

Lemma safe_fallback_job ws now id out : safe paid_or_owed (fallback_job cfg ws now id out).
Proof.
  unfold fallback_job. intros w Hw. unfold final, st_bind at 1.
  destruct (getJobState id w) as [rs w1] eqn:E. destruct (state_evidence _ _ _ _ E Hw) as [Hw1 T1].
  destruct rs as [info|err].
  2: { carry_on. }
  destruct (State info) eqn:Es; try by apply safe_fallback_release.
  all: unfold st_bind; destruct (try_store (Remove [id]) w1) as [b w2] eqn:E2; apply remove_paid in E2 as [Hw2 _]; [exact Hw2| |exact Hw1].
  all: intros j ->%list_elem_of_singleton; right; right; exists info; rewrite T1; split; [left|].
  all: unfold unpayable; rewrite Es; apply orb_true_r.
Qed.
Lemma safe_fallback_loop ws now batch out : safe paid_or_owed (fallback_loop cfg ws now batch out).
Proof.
  revert out. induction batch as [|id batch IH]; intros out; cbn [fallback_loop]; [apply safe_ret|].
  apply safe_bind; [apply safe_fallback_job|]. intros [[] r]; [apply safe_ret|apply IH].
Qed.

#[local] Hint Resolve safe_fallback_loop : safe.

Lemma drop_paid ids w n w' : remove_dropped ids w = (n, w') -> (forall j, j ∈ ids -> settled workerAddr j (w_trace w)) ->
  paid_or_owed w -> paid_or_owed w'.
Proof.
  unfold remove_dropped, st_bind, st_ret. destruct (bool_decide (ids = [])); [by intros [= _ <-]|].
  destruct (try_store (Remove ids) w) as [ok w1] eqn:E. intros [= _ <-] Hs Hw. by apply remove_paid in E as [? _].
Qed.

Lemma safe_cycle head window pending : safe paid_or_owed (runReleaseCycle cfg workerAddr head window pending).
Proof.
  intros w Hw. unfold final, runReleaseCycle. destruct (_ =? 0); [carry_on|].
  unfold st_bind at 1. destruct (partition _ _ _ _ _ w) as [b w1] eqn:E1. apply partition_evidence in E1 as [Hw1 Hd]; [|done].
  unfold st_bind at 1. destruct (remove_dropped (dropIDs b) w1) as [n w2] eqn:E2. apply drop_paid in E2; [|done..].
  destruct (bool_decide _); [carry_on|].
  unfold st_bind at 1. destruct (releaseJobs (releaseBatch b) w2) as [r w3] eqn:E3. apply batch_evidence in E3 as [Hw3 T3]; [|done].
  destruct r as [[]|err]; [|unfold perJobFallback; carry_on].
  unfold st_bind at 1. destruct (try_store (Remove (releaseBatch b)) w3) as [ok w4] eqn:E4.
  apply remove_paid in E4 as [Hw4 _]; [carry_on| |done].
  intros j Hj. right; left. exists (releaseBatch b). rewrite T3. split; [done|left].
Qed.

Lemma safe_tick : safe paid_or_owed (tick cfg workerAddr).
Proof. unfold tick, tick_steps, disputeWindow. pose proof safe_cycle. safely. Qed.
Lemma safe_RunOnce : safe paid_or_owed (RunOnce cfg workerAddr).
Proof. unfold RunOnce, disputeWindow. pose proof safe_cycle. safely. Qed.

(** However long the scheduler runs while others use its store, too. *)
Lemma loop_paid ws w w' stopped : Loops.scheduler_loop cfg workerAddr ws w = (w', stopped) -> paid_or_owed w -> paid_or_owed w'.
Proof.
  unfold Loops.scheduler_loop. revert w. induction ws as [|[now| |] ws IH]; intros w; cbn [Loops.each_tick]; try by intros [= <- _].
  intros E Hw. eapply IH; [exact E|]. by apply safe_tick.
Qed.
End TheScheduler.

(** ** The reconciler

    It takes nothing away, so it keeps any account, whoever else is at work. *)
Section TheReconciler.
Import Reconciler.
Context (gone : Z -> Prop).
Definition still_accounted (w : @Reconciler.world _ (shared S) C) : Prop := accounted workerAddr jobs gone (w_store w).

Lemma reconciler_emit e : safe still_accounted (emit e).
Proof. intros w Hw. exact Hw. Qed.
Lemma reconciler_chain {A} (c : io C A) : safe still_accounted (on_chain c).
Proof. intros w Hw. unfold final, on_chain. by destruct (c (w_chain w)). Qed.
Lemma reconciler_op {A} (o : store_op A) : taken o = [] -> safe still_accounted (on_store (C := C) (interleaved o)).
Proof.
  intros Ht w Hw. unfold final, on_store. destruct (interleaved o (w_store w)) as [r s] eqn:E.
  eapply interleaved_accounted; [exact E| |exact Hw]. rewrite Ht. by intros j ?%not_elem_of_nil.
Qed.
#[local] Hint Resolve reconciler_emit reconciler_chain : safe.
#[local] Hint Extern 1 (safe _ (on_store _)) => (harmless (@reconciler_op)) : safe.

Lemma safe_event_loop evs ferr : safe still_accounted (event_loop workerAddr evs ferr).
Proof. revert ferr. induction evs as [|ev rest IH]; intros ferr; cbn [event_loop]; unfold getJobState, traced; safely. Qed.
#[local] Hint Resolve safe_event_loop : safe.
Lemma safe_chunk lo hi : safe still_accounted (chunk workerAddr lo hi).
Proof. unfold chunk, filterJobCompleted, traced. safely. Qed.
#[local] Hint Resolve safe_chunk : safe.
Lemma safe_chunk_loop fuel lo sh : safe still_accounted (chunk_loop cfg workerAddr fuel lo sh).
Proof. revert lo. induction fuel as [|fuel IH]; intros lo; cbn [chunk_loop]; safely. Qed.
#[local] Hint Resolve safe_chunk_loop : safe.
Lemma safe_Run fuel : safe still_accounted (Run cfg workerAddr fuel).
Proof. unfold Run. safely. Qed.
End TheReconciler.

(** A reconciler that runs for as long as it likes beside the others loses no
    recorded job. *)
Theorem reconciler_takes_nothing gone fuel ws w w' stopped :
  Loops.reconciler_loop cfg workerAddr fuel ws w = (w', stopped) ->
  accounted workerAddr jobs gone (Reconciler.w_store w) -> accounted workerAddr jobs gone (Reconciler.w_store w').
Proof.
  unfold Loops.reconciler_loop. revert w. induction ws as [|[now| |] ws IH]; intros w; cbn [Loops.each_tick]; try by intros [= <- _].
  intros E Hw. eapply IH; [exact E|]. by apply (safe_Run gone).
Qed.

(** ** From the answer to the money *)
Section Answered.
Context `{FK : !Stream.FrameKinds} `{PL : !Stream.Payloads} `{LP : !Inference.PromptLibs} `{LC : !CryptoLibs} `{EN : !Encodings} `{FL : !Stream.FrameKindLaws FK}.
Context (h : JobHandler).

(** C6. An answered job is paid or owed, never forgotten. Let any number of
    jobs run, call by call, beside the scheduler and any other parties on the
    shared store, in any order and with any answers, for however long the
    scheduler runs; those others taking out a job only on such evidence as the
    scheduler would. Then every job whose recording ever succeeded is still
    pending, or was released, or was read on chain as one that can never pay
    this worker, by the scheduler or by whoever took it out; and the scheduler
    itself took out no others. A pipeline run among those jobs that reports
    success had the chain's word that its job is completed and handed it to the
    tracker, and if that recording succeeded the job is one of these. *)
Theorem answered_job_is_paid_or_owed ctx p i ws w v w' stopped :
  releaseTracker h = true -> jobs !! i = Some (Pipeline.processJob h ctx p) ->
  processes (Scheduler.w_store w) = start <$> jobs -> Forall (Forall (justified workerAddr)) (schedule (Scheduler.w_store w)) ->
  store_view (store (Scheduler.w_store w)) = Some v -> added (Scheduler.w_store w) = v_jobs v -> removed (Scheduler.w_store w) = [] ->
  Loops.scheduler_loop cfg workerAddr ws w = (w', stopped) ->
  let sh := Scheduler.w_store w' in
  let fine v' j := j ∈ v_jobs v' \/ Scheduler.settled workerAddr j (Scheduler.w_trace w' ++ evidence sh) in
  exists v', store_view (store sh) = Some v' /\ (forall j, j ∈ added sh -> fine v' j) /\
    (forall j, j ∈ removed sh -> Scheduler.settled workerAddr j (Scheduler.w_trace w')) /\
    exists pr, processes sh !! i = Some pr /\ (left_ pr = Ret (Ok tt) ->
      Pipeline.completed (made pr) /\
      exists t x, Called (JobCalls.MarkEligible (JobTypes.JobID p) t) x ∈ made pr /\ (x = Ok tt -> fine v' (JobTypes.JobID p))).
Proof.
  intros Ht Hi Hpr Hs Hv Ha Hrm E sh fine.
  apply loop_paid in E as [(v' & Hv' & Hall) Hr Hp _].
  2: { split; [|rewrite Hrm; by intros j ?%not_elem_of_nil| |exact Hs].
       - exists v. split; [exact Hv|]. rewrite Ha. by left.
       - intros k q Hq. exists (start q). rewrite Hpr, list_lookup_fmap, Hq. split; [done|]. split; [constructor|].
         by intros j ?%not_elem_of_nil. }
  fold sh in Hv', Hall, Hr, Hp.
  assert (forall j, j ∈ added sh -> fine v' j) as Hfine.
  { intros j [?|[?|?]]%Hall; [by left|right; apply Scheduler.settled_concat; by left|right; apply Scheduler.settled_concat; by right]. }
  exists v'. split; [done|]. split; [exact Hfine|]. split; [exact Hr|].
  destruct (Hp i _ Hi) as (pr & Hpr' & Hreach & Hm). exists pr. split; [done|]. intros Hend. rewrite Hend in Hreach.
  apply reaches_runs in Hreach.
  destruct (always_runs _ _ _ _ (Pipeline.processJob_always h ctx p) Hreach) as [_ _ _ _ Hok Hmark _ _].
  split; [by apply Hok|]. destruct (Pipeline.processJob_marks h ctx p _ _ Hreach) as (t & x & Hx); [by apply Hmark|].
  exists t, x. split; [exact Hx|]. intros ->. by eapply Hfine, Hm, elem_of_marks.
Qed.
End Answered.
End Parties.

(** ** A run of both

    The tracker records job 7 while the scheduler is in the middle of a tick
    that releases job 8; the next tick releases it. *)
#[local] Existing Instances plain_addresses plain_addresses_laws.
#[local] Existing Instance Scheduler.demo_client.
#[local] Existing Instances Inference.demo_kinds Inference.demo_payloads Inference.demo_prompts Inference.demo_crypto Inference.demo_encodings.

Definition demo_program : prog JobE (result unit) :=
  Pipeline.processJob Inference.demo_job_handler (TaskCtx (Some 0) (Some 3)) Pipeline.demo_payload.
Definition demo_answering : answering := fun X e => fst (Pipeline.world_handler CheckpointStore.demo X e (Pipeline.fresh_world false false)).
Definition demo_file : FileStore.FileStore :=
  FileStore.MkStore FileStore.demo_id true false
    (FileStore.MkFS (Some (FileStore.MkFile (FileStore.Json (FileStore.MkSnapshot 2 31337 "0xR" "0xW" [MkPendingJob 8 900 0 0] 40 0 0)) true)) None [] []).
Definition demo_shared : shared FileStore.FileStore :=
  MkShared demo_file [[]; replicate 20 (JobStep 0 demo_answering); replicate 60 (JobStep 0 demo_answering)] (start <$> [demo_program]) [8] [] [].
Definition demo_start : @Scheduler.world plain_addresses (shared FileStore.FileStore) Scheduler.demo_chain :=
  Scheduler.MkWorld demo_shared (Scheduler.demo_chain_with false []) [].
Definition demo_loop := Loops.scheduler_loop Reconciler.demo_cfg Scheduler.demo_addr [Loops.Ticked 0; Loops.Ticked 1] demo_start.
Definition demo_end := Eval vm_compute in fst demo_loop.

Lemma demo_looped : demo_loop = (demo_end, false).
Proof. vm_compute. reflexivity. Qed.

(** One tick earlier the job was recorded but not yet seen. *)
Example recorded_in_between :
  let w := fst (Loops.scheduler_loop Reconciler.demo_cfg Scheduler.demo_addr [Loops.Ticked 0] demo_start) in
  store_view (store (Scheduler.w_store w)) = Some (View [MkPendingJob 7 0 0 0] 40 1000 0) /\ added (Scheduler.w_store w) = [7; 8] /\
  removed (Scheduler.w_store w) = [8] /\ left_ <$> processes (Scheduler.w_store w) = [Ret (Ok tt)].
Proof. vm_compute. done. Qed.

Lemma answered_job_is_paid_or_owed_witness :
  exists v' pr, store_view (store (Scheduler.w_store demo_end)) = Some v' /\
    processes (Scheduler.w_store demo_end) = [pr] /\ Pipeline.completed (made pr) /\
    forall j, j ∈ [7; 8] -> j ∈ v_jobs v' \/ Scheduler.settled Scheduler.demo_addr j (Scheduler.w_trace demo_end ++ []).
Proof.
  destruct (answered_job_is_paid_or_owed Reconciler.demo_cfg Scheduler.demo_addr [demo_program] (FL := Inference.demo_kinds_laws)
    Inference.demo_job_handler (TaskCtx (Some 0) (Some 3)) Pipeline.demo_payload 0 [Loops.Ticked 0; Loops.Ticked 1] demo_start
    (View [MkPendingJob 8 900 0 0] 40 0 0) demo_end false) as (v' & Hv & Hall & _ & pr & Hpr & Hdone);
    [reflexivity|reflexivity|reflexivity|repeat constructor|reflexivity|reflexivity|reflexivity|exact demo_looped|].
  exists v', pr. split; [exact Hv|]. split; [|split].
  - revert Hpr. vm_compute. by intros [= <-].
  - apply Hdone. revert Hpr. vm_compute. by intros [= <-].
  - intros j Hj. apply Hall. vm_compute. exact Hj.
Defined.
End Payment.
