(* ===== verification/Commands.v ===== *)
(** The operator's commands, [cmd/cli/main.go] and [cmd/cli/watch.go]: what each
    loads, checks and connects to before it hands over to the handlers of the
    other files, and the exit code. Flag parsing is Go's [flag] package; time
    limits and what is printed are left out. *)
From Stdlib Require Import Ascii.
From S2P Require Import Prelude Effects GoText Checkpoint Chain ReleaseConfig ReleaseStore JobCalls Ollama Registration Operator Lifecycle Dial EnvText Preflight Watch Config Models OperatorConfig Init Construct.

#[local] Open Scope prog_scope.

Section Calls.
Context `{A : AddressOps}.

(** [ReleaseCycle] is the release command's handler (Settlement models it),
    [WatchLoop] the ticks of the watch handler until a signal, [CloseRPC]
    closes the connection of [watch]. *)
Inductive CmdE : Type -> Type :=
  | Sys {X : Type} (e : NewE X) : CmdE X
  | Ini {X : Type} (e : InitE X) : CmdE X
  | ReleaseCycle (cfg : ReleaseConfig.Config) (reconcileOnly : bool) : CmdE (result unit)
  | EphemeralKey : CmdE (result unit)
  | BindReadOnly (contract : string) (at_ : Address) : CmdE (result unit)
  | WatchLoop (h : WatchHandler.t) (interval : Z) (webhook : string) : CmdE unit
  | CloseRPC : CmdE unit
  | CloseRedisClient : CmdE unit.

Definition op {X} (p : prog OpE X) : prog CmdE X := lift (fun Y e => Ini (Op e)) p.
Definition pre {X} (p : prog PreE X) : prog CmdE X := lift (fun Y e => Ini (Pre e)) p.
Definition life {X} (p : prog LifeE X) : prog CmdE X := lift (fun Y e => Sys (Life e)) p.
End Calls.

(** What [flag.FlagSet.Parse] makes of the arguments of a command; with
    [ExitOnError] a bad flag ends the process with 2, a request for help with 0. *)
Record flags : Type := MkFlags { string_flag : string -> string; bool_flag : string -> bool; rest : list string }.
Inductive parsed : Type := Parsed (f : flags) | BadFlags | HelpWanted.

(** [json.Unmarshal] of a keystore file, its address field. *)
Class KeystoreJSON := { UnmarshalAddress : bytes -> result string }.

(** ** Amounts, [ParseLCAI] of [internal/cli/preflight.go] *)
Module Lcai.

(** [strings.Cut]. *)
Fixpoint Cut (sep : ascii) (cs : list ascii) : list ascii * list ascii :=
  match cs with
  | [] => ([], [])
  | c :: cs => if bool_decide (c = sep) then ([], cs) else let '(before, after) := Cut sep cs in (c :: before, after)
  end.

Definition is_digit (c : ascii) : bool := match digit_value c with Some _ => true | None => false end.
(** [big.Int.SetString], of digits. *)
Definition value (ds : list ascii) : Z := foldl (fun v c => v * 10 + default 0 (digit_value c)) 0 ds.

Definition ParseLCAI (s : string) : result Z :=
  let '(whole, frac) := Cut "."%char (String.list_ascii_of_string s) in
  let digits := whole ++ frac in
  if bool_decide (digits = []) || (18 <? length frac)%nat || negb (forallb is_digit digits)
  then Err (errorf "not an LCAI amount - use plain decimals such as 750 or 60.25")
  else
    let wei := value (digits ++ repeat "0"%char (18 - length frac)) in
    if wei =? 0 then Err (errorf "the amount must be more than 0 LCAI") else Ok wei.

Lemma value_app ds es : value (ds ++ es) = value ds * 10 ^ Z.of_nat (length es) + value es.
Proof.
  unfold value. rewrite foldl_app. generalize (foldl (fun v c => v * 10 + default 0 (digit_value c)) 0 ds). intros v. revert v.
  induction es as [|e es IH] using rev_ind; intros v; [cbn; lia|]. rewrite !foldl_snoc, IH, length_app. cbn [length].
  replace (Z.of_nat (length es + 1)) with (Z.succ (Z.of_nat (length es))) by lia. rewrite Z.pow_succ_r by lia. lia.
Qed.
Lemma value_zeros n : value (repeat "0"%char n) = 0.
Proof.
  induction n as [|n IH]; [done|]. change (repeat "0"%char (S n)) with (["0"%char] ++ repeat "0"%char n). by rewrite value_app, IH.
Qed.

(** The amount is the decimal that was typed: [whole.frac] times [10 ^ 18]. *)
Lemma ParseLCAI_exact s w : ParseLCAI s = Ok w ->
  let '(whole, frac) := Cut "."%char (String.list_ascii_of_string s) in
  w <> 0 /\ (length frac <= 18)%nat /\ Forall (fun c => is_digit c = true) (whole ++ frac) /\
  w * 10 ^ Z.of_nat (length frac) = value (whole ++ frac) * 10 ^ 18.
Proof.
  unfold ParseLCAI. destruct (Cut _ _) as [whole frac]. destruct (bool_decide _ || _ || _) eqn:E; [done|].
  apply orb_false_iff in E as [[_ Hl%Nat.ltb_ge]%orb_false_iff Hd%negb_false_iff]. rewrite value_app, value_zeros, repeat_length.
  destruct (Z.eqb_spec (value (whole ++ frac) * 10 ^ Z.of_nat (18 - length frac) + 0) 0) as [|Hn]; [done|]. intros [= <-].
  split; [done|]. split; [lia|]. split; [by apply Forall_forall; intros c Hc; apply (proj1 (forallb_forall _ _) Hd), list_elem_of_In|].
  rewrite Z.add_0_r, <- Z.mul_assoc, <- Z.pow_add_r by lia. do 2 f_equal. lia.
Qed.
End Lcai.

Module Commands.
Section Commands.
Context `{A : AddressOps} {U : URLs} {T : ConfigText} {J : OllamaJSON} {K : KeystoreJSON}.
(** The environment, the flag parser, the lines of the standard input, and
    what [run] needs of [Construct]. *)
Context (Getenv : string -> string) (parse_flags : string -> list string -> parsed) (stdin : list string)
  (range : gmap string string -> list (string * string)) (protocolVersion : Z).

Abbreviation cfg := RegistrationConfig.t.

(** ** Ends of a command

    [os.Exit] runs no deferred call. *)
Definition exit_on_error {X} (p : prog CmdE (result X)) (k : X -> prog CmdE Z) : prog CmdE Z :=
  r <- p ;; match r with Ok x => k x | Err _ => Ret 1 end.
Definition finish (p : prog CmdE (result unit)) (cleanup : prog CmdE unit) : prog CmdE Z :=
  exit_on_error p (fun _ => _ <- cleanup ;; Ret 0).
Definition nothing : prog CmdE unit := Ret tt.
Definition close_chain : prog CmdE unit := call (Sys (Life CloseChainClient)).

Definition with_flags (name : string) (args : list string) (k : flags -> prog CmdE Z) : prog CmdE Z :=
  match parse_flags name args with
  | Parsed f => k f
  | BadFlags => Ret 2
  | HelpWanted => Ret 0
  end.

(** ** What the commands share *)
Definition config_ok (c : cfg) : bool := match RegistrationConfig.Validate c with [] => true | _ => false end.
Definition loadAndValidateCfg (k : cfg -> prog CmdE Z) : prog CmdE Z :=
  match RegistrationConfig.LoadRegistration Getenv with
  | Err _ => Ret 1
  | Ok c => if config_ok c then k c else Ret 1
  end.
Definition loadAndValidateForSettlement (k : cfg -> prog CmdE Z) : prog CmdE Z :=
  loadAndValidateCfg (fun c => match RegistrationConfig.ValidateForSettlement c with [] => k c | _ => Ret 1 end).

(** [preflight --worker] and [watch] need no keystore. *)
Definition without_keystore (errs : list string) : list string := List.filter (fun e => negb (String.prefix "WORKER_KEYSTORE" e)) errs.

Definition loadSigningKey (c : cfg) : prog CmdE (result Address) :=
  json <-? call (Sys (ReadWorkerKeystore (RegistrationConfig.WorkerKeystorePath c))) ;;
  call (Sys (DecryptWorkerKey json (RegistrationConfig.WorkerKeystorePassword c))).

(** A model id as the number the contracts are called with. *)
Definition id_word (id : list ascii) : Z := foldl (fun n c => n * 256 + Z.of_nat (nat_of_ascii c)) 0 id.
Definition parseModels (c : cfg) : result (list (Z * string)) :=
  match Models.ParseAndDeduplicateModelIDs (RegistrationConfig.SupportedModels c) with
  | Err e => Err e
  | Ok ids => Ok (zip (id_word <$> ids) (RegistrationConfig.SupportedModels c))
  end.
Definition parse_optional (c : cfg) : result (list (Z * string)) :=
  match RegistrationConfig.SupportedModels c with [] => Ok [] | _ => parseModels c end.

(** [dialChain] and [tryDialChain]; the commands do not use sortition. *)
Definition dialChain (c : cfg) : prog CmdE (result unit) :=
  lift (@Sys A)
    (_ <- call NewSubpoolCoordinator ;;
     Construct.NewChainClient (RegistrationConfig.RPCURL c) (RegistrationConfig.ChainID c) (RegistrationConfig.WorkerRegistryAddress c)
       (RegistrationConfig.AIConfigAddress c) (RegistrationConfig.JobRegistryAddress c) zero_address (RegistrationConfig.GasPriceMultiplierBps c)).

Definition newReconcileSeed (c : cfg) : option Operator.ReconcileSeed :=
  match Config.ConfigFromEnv Getenv with
  | Err _ => None
  | Ok rc => Some (Operator.MkSeed (ReleaseConfig.Confirmations rc) (negb (Config.is_zero (RegistrationConfig.JobRegistryAddress c))))
  end.

(** A command that signs, connects and calls one handler. *)
Definition connected (c : cfg) (handler : prog CmdE (result unit)) : prog CmdE Z :=
  exit_on_error (dialChain c) (fun _ => finish handler close_chain).
Definition signing (k : cfg -> prog CmdE Z) : prog CmdE Z :=
  loadAndValidateCfg (fun c => exit_on_error (loadSigningKey c) (fun _ => k c)).

(** ** The commands *)
Definition runImportKey (args : list string) : prog CmdE Z :=
  with_flags "import-key" args (fun f =>
  if Config.is_empty (string_flag f "private-key") || Config.is_empty (string_flag f "password") then Ret 1
  else
    exit_on_error (call (Ini (HexToECDSA (TrimPrefix "0x" (string_flag f "private-key"))))) (fun key =>
    exit_on_error (call (Ini MkdirAll)) (fun _ =>
    exit_on_error (call (Ini (ImportECDSA (string_flag f "output") key))) (fun _ => Ret 0)))).

Definition runKeygen : prog CmdE Z := loadAndValidateCfg (fun _ => finish (op Operator.Keygen) nothing).

(** The [Handler] literals. *)
Definition handler_of (models : list (Z * string)) (stake : option Z) (seed : option Operator.ReconcileSeed) (yes : bool) : Operator.Handler :=
  Operator.MkHandler (fst <$> models) (snd <$> models) stake seed yes.

Definition runRegister : prog CmdE Z :=
  signing (fun c =>
  match parseModels c with
  | Err _ => Ret 1
  | Ok models => connected c (op (Operator.Register (handler_of models (RegistrationConfig.WorkerStake c) (newReconcileSeed c) false)))
  end).

Definition runAddModels : prog CmdE Z :=
  signing (fun c =>
  match parseModels c with
  | Err _ => Ret 1
  | Ok models => connected c (op (Operator.AddModels (handler_of models None None false)))
  end).

Definition runDeregister : prog CmdE Z := signing (fun c => connected c (op Operator.Deregister)).
Definition runReinstate : prog CmdE Z := signing (fun c => connected c (op Operator.Reinstate)).

Definition runTopUpStake (args : list string) : prog CmdE Z :=
  with_flags "top-up-stake" args (fun f =>
  match rest f with
  | [typed] =>
      match Lcai.ParseLCAI typed with
      | Err _ => Ret 1
      | Ok amount => signing (fun c => connected c (op (Operator.TopUpStake (handler_of [] None None (bool_flag f "yes")) amount)))
      end
  | _ => Ret 1
  end).

Definition runStatus : prog CmdE Z := signing (fun c => connected c (op Operator.Status)).

(** [Handler.Balance]. *)
Definition Balance : prog OpE (result unit) := _ <-? wrap_err "read worker balance" (call WorkerBalance) ;; Ret (Ok tt).

Definition settling (k : cfg -> Address -> prog CmdE Z) : prog CmdE Z :=
  loadAndValidateForSettlement (fun c => exit_on_error (loadSigningKey c) (k c)).
Definition runBalance : prog CmdE Z := settling (fun c _ => connected c (op Balance)).
Definition runWithdraw : prog CmdE Z := settling (fun c _ => connected c (op Operator.Withdraw)).

(** The store is closed before the connection. *)
Definition runRelease (args : list string) : prog CmdE Z :=
  with_flags "release" args (fun f =>
  settling (fun c worker =>
  exit_on_error (dialChain c) (fun _ =>
  match Config.ConfigFromEnv Getenv with
  | Err _ => Ret 1
  | Ok rc =>
      exit_on_error (call (Sys (OpenFileStore (ReleaseConfig.StatePath rc)
        (FileStore.MkIdentity (u64_wrap (RegistrationConfig.ChainID c)) (RegistrationConfig.JobRegistryAddress c) worker)))) (fun _ =>
      finish (call (ReleaseCycle rc (bool_flag f "reconcile-only")))
        (_ <- call (Sys (Life CloseReleaseStore)) ;; close_chain))
  end))).

(** [newPreflightHandler]. *)
Definition newPreflightHandler (c : cfg) (models : list (Z * string)) : Preflight.PreflightHandler :=
  Preflight.MkPreflight (RegistrationConfig.ChainID c) (fst <$> models) (snd <$> models) true
    (negb (Config.is_empty (RegistrationConfig.WorkerGatewayURL c))) (RegistrationConfig.OllamaURL c) (RegistrationConfig.BeaconAPIURL c).
(** Looking at an address: no ECDH key, the gateway is only pinged, and the
    defaults of the worker's own host do not apply. *)
Definition inspecting (h : Preflight.PreflightHandler) : Preflight.PreflightHandler :=
  Preflight.MkPreflight (Preflight.ChainID h) (Preflight.ModelIDs h) (Preflight.ModelNames h) false (Preflight.has_Gateway h)
    (if Config.is_empty (Getenv "OLLAMA_URL") then EmptyString else Preflight.OllamaURL h)
    (if Config.is_empty (Getenv "BEACON_API_URL") then EmptyString else Preflight.BeaconURL h).

Definition passed (p : prog CmdE (bool * Preflight.report)) : prog CmdE (result unit) :=
  r <- p ;; Ret (if fst r : bool then Ok tt else Err (errorf "preflight found problems")).

Definition runPreflight (args : list string) : prog CmdE Z :=
  with_flags "preflight" args (fun f =>
  let worker := string_flag f "worker" in
  let readOnly := negb (Config.is_empty worker) in
  match RegistrationConfig.LoadRegistration Getenv with
  | Err _ => Ret 1
  | Ok c =>
      let errs := RegistrationConfig.Validate c in
      match (if readOnly then without_keystore errs else errs) with
      | _ :: _ => Ret 1
      | [] =>
          exit_on_error (if readOnly
                         then if negb (IsHexAddress worker) then Ret (Err (errorf "--worker must be a hex address"))
                              else _ <-? call EphemeralKey ;; Ret (Ok (HexToAddress worker))
                         else loadSigningKey c) (fun _ =>
          match parse_optional c with
          | Err _ => Ret 1
          | Ok models =>
              let h := newPreflightHandler c models in
              connected c (passed (pre (Preflight.Run (if readOnly then inspecting h else h))))
          end)
      end
  end).

Definition runInit (args : list string) : prog CmdE Z :=
  with_flags "init" args (fun f =>
  loadAndValidateCfg (fun c =>
  match parse_optional c with
  | Err _ => Ret 1
  | Ok models =>
      let h := InitHandler.MkInit (bool_flag f "generate") (string_flag f "import-key-file") (RegistrationConfig.ChainID c) models
                 (RegistrationConfig.WorkerStake c) (newPreflightHandler c models) (bool_flag f "yes") (newReconcileSeed c) in
      exit_on_error (lift (@Ini A) (InitHandler.EnsureKey h stdin)) (fun _ =>
      connected c (lift (@Ini A) (InitHandler.Run h)))
  end)).

(** ** Draining *)
Definition newDrainHandler (c : cfg) : prog CmdE (result (Drain.config * bool * bool)) :=
  let settings := Drain.MkDrainConfig (RegistrationConfig.DrainTTLOverride c) (RegistrationConfig.DrainSlack c) in
  if negb (Config.is_empty (RegistrationConfig.WorkerGatewayURL c)) then Ret (Ok (settings false, true, false))
  else if Config.is_empty (RegistrationConfig.RedisURL c)
  then Ret (Err (errorf "drain/undrain require either WORKER_GATEWAY_URL or REDIS_URL"))
  else
    _ <-? call (Sys (ParseRedisURL (RegistrationConfig.RedisURL c) (RegistrationConfig.RedisPassword c))) ;;
    _ <- call (Sys NewRedisClient) ;;
    chain <- dialChain c ;;
    Ret (Ok (settings (is_ok chain), false, true)).

Definition runDrain : prog CmdE Z :=
  signing (fun c => exit_on_error (newDrainHandler c) (fun '(settings, gateway, redis) =>
    finish (life (Drain.Drain settings gateway redis)) nothing)).
Definition runUndrain (args : list string) : prog CmdE Z :=
  with_flags "undrain" args (fun f =>
  signing (fun c => exit_on_error (newDrainHandler c) (fun '(settings, gateway, redis) =>
    finish (life (Drain.Undrain settings gateway redis (bool_flag f "yes") true)) nothing))).

(** ** Watching *)

(** [KeystoreAddress] and [WatchWorkerAddress]. *)
Definition KeystoreAddress (path : string) : prog CmdE (result Address) :=
  raw <-? call (Sys (ReadWorkerKeystore path)) ;;
  Ret (match UnmarshalAddress raw with
       | Err e => Err (wrap "parse keystore" e)
       | Ok addr => if IsHexAddress addr then Ok (HexToAddress addr) else Err (errorf "keystore has no address field")
       end).
Definition WatchWorkerAddress (flag : string) (envAddr : Address) (keystorePath : string) : prog CmdE (result Address) :=
  if negb (Config.is_empty flag) then
    Ret (if IsHexAddress flag then Ok (HexToAddress flag) else Err (errorf "--worker must be a hex address"))
  else if negb (Config.is_zero envAddr) then Ret (Ok envAddr)
  else if negb (Config.is_empty keystorePath) then KeystoreAddress keystorePath
  else Ret (Err (errorf "watch needs --worker, WATCH_WORKER_ADDRESS or WORKER_KEYSTORE_PATH")).

(** [NewReadOnlyChain]: callers and filterers only. *)
Definition NewReadOnlyChain (registry aiConfig sessionManager : Address) : prog CmdE (result unit) :=
  _ <-? call (BindReadOnly "WorkerRegistryCaller" registry) ;;
  _ <-? call (BindReadOnly "AIConfigCaller" aiConfig) ;;
  if Config.is_zero sessionManager then Ret (Ok tt)
  else
    _ <-? call (BindReadOnly "SessionManagerCaller" sessionManager) ;;
    call (BindReadOnly "SessionManagerFilterer" sessionManager).

Definition watch_handler (c : cfg) (w : WatchConfig.t) (worker : Address) : WatchHandler.t :=
  WatchHandler.MkWatch worker ("http://" +:+ WatchConfig.MetricsAddr w +:+ "/healthz") (RegistrationConfig.OllamaURL c)
    (Config.is_empty (RegistrationConfig.WorkerGatewayURL c)) (Heartbeat.KeyTTL (WatchConfig.HeartbeatInterval w))
    (if Config.is_zero (WatchConfig.SessionManagerAddress w) then 0 else WatchConfig.MissedClaims w) (WatchConfig.Cooldown w).

Definition runWatch (args : list string) : prog CmdE Z :=
  with_flags "watch" args (fun f =>
  match RegistrationConfig.LoadRegistration Getenv with
  | Err _ => Ret 1
  | Ok c =>
      match without_keystore (RegistrationConfig.Validate c), WatchConfig.LoadWatch Getenv with
      | [], Ok w =>
          exit_on_error (WatchWorkerAddress (string_flag f "worker") (WatchConfig.WorkerAddress w) (RegistrationConfig.WorkerKeystorePath c)) (fun worker =>
          exit_on_error (match Dial.DialRPC (RegistrationConfig.RPCURL c) Dial.DefaultRPCTimeout with
                         | Err e => Ret (Err e)
                         | Ok _ => call (Sys (ConnectRPC (RegistrationConfig.RPCURL c)))
                         end) (fun _ =>
          exit_on_error (NewReadOnlyChain (RegistrationConfig.WorkerRegistryAddress c) (RegistrationConfig.AIConfigAddress c)
                           (WatchConfig.SessionManagerAddress w)) (fun _ =>
          let redis := Config.is_empty (RegistrationConfig.WorkerGatewayURL c) in
          exit_on_error (if redis then
                           _ <-? call (Sys (ParseRedisURL (WatchConfig.RedisURL w) (WatchConfig.RedisPassword w))) ;;
                           _ <- call (Sys NewRedisClient) ;; Ret (Ok tt)
                         else Ret (Ok tt)) (fun _ =>
          _ <- call (WatchLoop (watch_handler c w worker) (WatchConfig.Interval w) (WatchConfig.WebhookURL w)) ;;
          _ <- (if redis then call CloseRedisClient else Ret tt) ;;
          _ <- call CloseRPC ;;
          Ret 0))))
      | _, _ => Ret 1
      end
  end).

(** ** [main]

    [argv] without the program's name; a panic of [run] ends the process with
    2. *)
Definition run : prog CmdE Z :=
  code <- lift (@Sys A) (Construct.Main Getenv range protocolVersion) ;;
  Ret (match code with Some c => c | None => 2 end).

Definition main (argv : list string) : prog CmdE Z :=
  match argv with
  | [] => Ret 1
  | cmd :: args =>
      if bool_decide (cmd = "init"%string) then runInit args
      else if bool_decide (cmd = "run"%string) then run
      else if bool_decide (cmd = "import-key"%string) then runImportKey args
      else if bool_decide (cmd = "keygen"%string) then runKeygen
      else if bool_decide (cmd = "register"%string) then runRegister
      else if bool_decide (cmd = "add-models"%string) then runAddModels
      else if bool_decide (cmd = "reinstate"%string) then runReinstate
      else if bool_decide (cmd = "top-up-stake"%string) then runTopUpStake args
      else if bool_decide (cmd = "deregister"%string) then runDeregister
      else if bool_decide (cmd = "drain"%string) then runDrain
      else if bool_decide (cmd = "undrain"%string) then runUndrain args
      else if bool_decide (cmd = "status"%string) then runStatus
      else if bool_decide (cmd = "preflight"%string) then runPreflight args
      else if bool_decide (cmd = "watch"%string) then runWatch args
      else if bool_decide (cmd = "balance"%string) then runBalance
      else if bool_decide (cmd = "withdraw"%string) then runWithdraw
      else if bool_decide (cmd = "release"%string) then runRelease args
      else if bool_decide (cmd ∈ ["help"; "-h"; "--help"]%string) then Ret 0
      else Ret 1
  end.
End Commands.

(** ** What a command may send *)
Inductive transaction : Type :=
  | Registers | AddsModel (id : Z) | Deregisters | SetsCapabilities | Reinstates | TopsUp (amount : Z) | Withdraws | Releases.

Definition reg_sends X (e : RegE X) : option transaction :=
  match e with
  | RegisterWorker _ _ => Some Registers
  | AddSupportedModel id => Some (AddsModel id)
  | DeregisterWorker => Some Deregisters
  | SetCapabilities _ => Some SetsCapabilities
  | _ => None
  end.
Definition op_sends X (e : OpE X) : option transaction :=
  match e with
  | Operator.Reg e => reg_sends _ e
  | OpReinstate => Some Reinstates
  | OpTopUpStake amount => Some (TopsUp amount)
  | OpWithdraw => Some Withdraws
  | _ => None
  end.

Section Sends.
Context `{A : AddressOps}.
Definition cmd_sends X (e : CmdE X) : option transaction :=
  match e with
  | Sys (Reg e) => reg_sends _ e
  | Ini (Op e) => op_sends _ e
  | ReleaseCycle _ false => Some Releases
  | _ => None
  end.

Definition only (ok : transaction -> Prop) X (e : CmdE X) : Prop := forall t, cmd_sends X e = Some t -> ok t.
End Sends.

Section Spends.
Context `{A : AddressOps} {U : URLs} {T : ConfigText} {J : OllamaJSON} {K : KeystoreJSON}.
Context (Getenv : string -> string) (parse_flags : string -> list string -> parsed) (stdin : list string)
  (range : gmap string string -> list (string * string)) (protocolVersion : Z).

(** Registering, with the rollback of a registration whose models are refused. *)
Definition enrols (t : transaction) : Prop := match t with Registers | AddsModel _ | Deregisters => True | _ => False end.

Ltac sent := try exact I; match goal with H : _ = Some _ |- _ => cbn in H; simplify_eq; cbn; eauto end.

Lemma op_only ok {X} (p : prog OpE X) : uses (fun Y e => forall t, op_sends Y e = Some t -> ok t) p -> uses (only ok) (op p).
Proof. intros Hp. exact (uses_lift (fun Y e => Ini (Op e)) (only ok) p Hp). Qed.
Lemma pre_only ok {X} (p : prog PreE X) : uses (only ok) (pre p).
Proof. apply (uses_lift (fun Y e => Ini (Pre e)) (only ok) p), uses_all. by intros Y e t. Qed.
Lemma life_only ok {X} (p : prog LifeE X) : uses (only ok) (life p).
Proof. apply (uses_lift (fun Y e => Sys (Life e)) (only ok) p), uses_all. by intros Y e t. Qed.

Lemma reg_only ok {X} (p : prog RegE X) : uses (fun Y e => forall t, reg_sends Y e = Some t -> ok t) p ->
  uses (fun Y e => forall t, op_sends Y e = Some t -> ok t) (lift (@Operator.Reg) p).
Proof. exact (uses_lift (@Operator.Reg) (fun Y e => forall t, op_sends Y e = Some t -> ok t) p). Qed.

Lemma add_models_only ids : uses (fun Y e => forall t, reg_sends Y e = Some t -> enrols t) (RegistrationManager.add_models ids).
Proof. induction ids as [|id ids IH]; [done|]. cbn. split; [by intros ? [= <-]|]. intros [[]|e]; [exact IH|]. split; [by intros ? [= <-]|]. done. Qed.

Lemma register_only h : uses (fun Y e => forall t, op_sends Y e = Some t -> enrols t) (Operator.Register h).
Proof.
  unfold Operator.Register, Operator.freshWorkerSafeHead, Operator.seedReconcileBlock, Operator.storeReconcileBlock, wrap_err, try, deferred.
  assert (forall m key s, uses (fun Y e => forall t, op_sends Y e = Some t -> enrols t)
    (lift (@Operator.Reg) (RegistrationManager.EnsureRegistered m key s))) as He.
  { intros m key s. apply reg_only. unfold RegistrationManager.EnsureRegistered, RegistrationManager.resolve_stake, wrap_err, try.
    destruct (validateEncryptionPubKey key); [|done]. use_calls; try apply add_models_only; sent. }
  use_calls; try apply He; sent.
Qed.
Lemma add_each_only ids : forall a f, uses (fun Y e => forall t, op_sends Y e = Some t -> exists id, t = AddsModel id) (Operator.add_each ids a f).
Proof.
  induction ids as [|id ids IH]; intros a f; [done|]. cbn [Operator.add_each]. apply uses_bind; [|by intros [[]|e]].
  split; [|done]. intros t [= <-]. by exists id.
Qed.

(** Nothing in these steps is a transaction. *)
Ltac unsent := try exact I; by intros ?.
Lemma exit_only ok {X} (p : prog CmdE (result X)) k : uses (only ok) p -> (forall x, uses (only ok) (k x)) -> uses (only ok) (exit_on_error p k).
Proof. intros Hp Hk. apply uses_bind; [done|]. intros [x|e]; [apply Hk|done]. Qed.
Lemma finish_only ok p cleanup : uses (only ok) p -> uses (only ok) cleanup -> uses (only ok) (finish p cleanup).
Proof. intros Hp Hc. apply exit_only; [done|]. intros []. by apply uses_bind. Qed.
Lemma close_only ok : uses (only ok) close_chain.
Proof. by split. Qed.
Lemma dial_only ok c : uses (only ok) (dialChain c).
Proof.
  apply (uses_lift (@Sys A) (only ok)). unfold Construct.NewChainClient, Construct.bind_if_set, Construct.bind_contract, wrap_err, try.
  use_calls; unsent.
Qed.
Lemma signing_key_only ok c : uses (only ok) (loadSigningKey c).
Proof. unfold loadSigningKey, try. use_calls; unsent. Qed.
Lemma connected_only ok c p : uses (only ok) p -> uses (only ok) (connected c p).
Proof. intros Hp. apply exit_only; [apply dial_only|]. intros []. apply finish_only; [done|apply close_only]. Qed.

(** The configuration a transaction is sent under. *)
Definition configured (settles : bool) : Prop := exists c, RegistrationConfig.LoadRegistration Getenv = Ok c /\
  RegistrationConfig.Validate c = [] /\ (settles = true -> RegistrationConfig.JobRegistryAddress c <> zero_address).

Lemma config_only ok (k : RegistrationConfig.t -> prog CmdE Z) : (forall c, configured false -> RegistrationConfig.LoadRegistration Getenv = Ok c ->
    RegistrationConfig.Validate c = [] -> uses (only ok) (k c)) -> uses (only ok) (loadAndValidateCfg Getenv k).
Proof.
  intros Hk. unfold loadAndValidateCfg, config_ok. destruct (RegistrationConfig.LoadRegistration Getenv) as [c|e] eqn:E; [|done].
  destruct (RegistrationConfig.Validate c) eqn:Ev; [|done]. apply Hk; [by exists c|done|done].
Qed.
Lemma signing_only ok (k : RegistrationConfig.t -> prog CmdE Z) : (forall c, configured false -> uses (only ok) (k c)) -> uses (only ok) (signing Getenv k).
Proof. intros Hk. apply config_only. intros c Hc _ _. apply exit_only; [apply signing_key_only|]. intros _. by apply Hk. Qed.
Lemma settling_only ok (k : RegistrationConfig.t -> Address -> prog CmdE Z) : (forall c w, configured true -> uses (only ok) (k c w)) -> uses (only ok) (settling Getenv k).
Proof.
  intros Hk. apply config_only. intros c _ Hl Hv. unfold RegistrationConfig.ValidateForSettlement, fail_if, Config.is_zero.
  case_bool_decide as Hz; [done|]. apply exit_only; [apply signing_key_only|]. intros w. apply Hk. by exists c.
Qed.
Lemma flags_only ok name args (k : flags -> prog CmdE Z) : (forall f, parse_flags name args = Parsed f -> uses (only ok) (k f)) ->
  uses (only ok) (with_flags parse_flags name args k).
Proof. intros Hk. unfold with_flags. destruct (parse_flags name args) as [f| |] eqn:E; [by apply Hk|done|done]. Qed.

(** What the command [cmd] with these arguments may send. *)
Definition may_send (cmd : string) (args : list string) (t : transaction) : Prop :=
  configured (bool_decide (cmd ∈ ["withdraw"; "release"]%string)) /\
  match t with
  | Registers => cmd ∈ ["init"; "register"]%string
  | AddsModel _ => cmd ∈ ["init"; "register"; "add-models"]%string
  | Deregisters => cmd ∈ ["init"; "register"; "deregister"]%string
  | Reinstates => cmd = "reinstate"%string
  | TopsUp amount => cmd = "top-up-stake"%string /\ exists f typed, parse_flags cmd args = Parsed f /\ rest f = [typed] /\ Lcai.ParseLCAI typed = Ok amount
  | Withdraws => cmd = "withdraw"%string
  | Releases => cmd = "release"%string
  | SetsCapabilities => False
  end.

Lemma finishing_op ok c (p : prog OpE (result unit)) : uses (fun Y e => forall t, op_sends Y e = Some t -> ok t) p -> uses (only ok) (connected c (op p)).
Proof. intros Hp. apply connected_only, op_only, Hp. Qed.

Lemma init_run_only h : uses (only enrols) (lift (@Ini A) (InitHandler.Run h)).
Proof.
  apply (uses_lift (@Ini A) (only enrols)). unfold InitHandler.Run, InitHandler.register, InitHandler.addMissingModels, InitHandler.checkModels, wrap_err, try.
  assert (forall X (p : prog OpE X), uses (fun Y e => forall t, op_sends Y e = Some t -> enrols t) p ->
    uses (fun Y e => only enrols Y (Ini e)) (lift (@Op) p)) as Hop by (intros X p; exact (uses_lift (@Op) (fun Y e => only enrols Y (Ini e)) p)).
  assert (forall X (p : prog PreE X), uses (fun Y e => only enrols Y (Ini e)) (lift (@Pre) p)) as Hpre
    by (intros X p; apply (uses_lift (@Pre) (fun Y e => only enrols Y (Ini e)) p), uses_all; by intros Y e t).
  assert (forall ids, uses (fun Y e => only enrols Y (Ini e)) (InitHandler.check_models ids)) as Hcheck.
  { induction ids as [|id ids IH]; [done|]. cbn [InitHandler.check_models]. unfold wrap_err, try. use_calls; try apply IH; unsent. }
  assert (forall ms out, uses (fun Y e => only enrols Y (Ini e)) (InitHandler.missing_models ms out)) as Hmiss.
  { induction ms as [|m ms IH]; intros out; [done|]. cbn [InitHandler.missing_models]. unfold wrap_err, try. use_calls; try apply IH; unsent. }
  assert (forall h, uses (fun Y e => forall t, op_sends Y e = Some t -> enrols t) (Operator.AddModels h)) as Hadd.
  { intros h0. unfold Operator.AddModels. case_match; [done|]. case_match; [done|]. apply uses_bind; [|done].
    eapply uses_mono; [apply add_each_only|]. intros Y e He t Ht. by destruct (He t Ht) as [id ->]. }
  use_calls; try apply Hcheck; try apply Hpre; try apply Hmiss; try apply Hop; try apply register_only; try apply Hadd; unsent.
Qed.

Lemma ensure_key_only ok h : uses (only ok) (lift (@Ini A) (InitHandler.EnsureKey h stdin)).
Proof.
  apply (uses_lift (@Ini A) (only ok)). unfold InitHandler.EnsureKey, InitHandler.new_key, InitHandler.writeKeystore, wrap_err, try, deferred.
  use_calls; unsent.
Qed.

Lemma drain_handler_only ok c : uses (only ok) (newDrainHandler c).
Proof.
  unfold newDrainHandler, try. destruct (negb _); [done|]. destruct (Config.is_empty _); [done|].
  apply uses_bind; [by split; [intros ?|]|]. intros [[]|e]; [|done]. split; [by intros ?|]. intros []. refine (uses_bind _ (dialChain c) _ (dial_only _ _) _). done.
Qed.
Lemma drain_only ok : uses (only ok) (runDrain Getenv).
Proof.
  apply signing_only. intros c _. apply exit_only; [apply drain_handler_only|]. intros [[settings gateway] redis].
  by apply finish_only; [apply life_only|].
Qed.
Lemma undrain_only ok args : uses (only ok) (runUndrain Getenv parse_flags args).
Proof.
  apply flags_only. intros f _. apply signing_only. intros c _. apply exit_only; [apply drain_handler_only|]. intros [[settings gateway] redis].
  by apply finish_only; [apply life_only|].
Qed.
Lemma status_only ok : uses (only ok) (runStatus Getenv).
Proof. apply signing_only. intros c _. apply finishing_op. unfold Operator.Status, wrap_err, try. use_calls; sent. Qed.
Lemma preflight_only ok args : uses (only ok) (runPreflight Getenv parse_flags args).
Proof.
  apply flags_only. intros f _. cbv zeta. destruct (RegistrationConfig.LoadRegistration Getenv) as [c|]; [|done]. destruct (if _ : bool then _ else _); [|done].
  apply exit_only.
  - destruct (negb _); [|apply signing_key_only]. unfold try. use_calls; unsent.
  - intros w. destruct (parse_optional c); [|done]. apply connected_only, uses_bind; [apply pre_only|done].
Qed.
Lemma watch_only ok args : uses (only ok) (runWatch Getenv parse_flags args).
Proof.
  apply flags_only. intros f _. destruct (RegistrationConfig.LoadRegistration Getenv) as [c|]; [|done]. destruct (without_keystore _); [|done].
  destruct (WatchConfig.LoadWatch Getenv) as [w|]; [|done]. unfold WatchWorkerAddress, KeystoreAddress, NewReadOnlyChain, try, exit_on_error. cbv zeta.
  use_calls; unsent.
Qed.

(** Every command but [run], which runs the worker. *)
Lemma main_only cmd args : cmd <> "run"%string -> uses (only (may_send cmd args)) (main Getenv parse_flags stdin range protocolVersion (cmd :: args)).
Proof.
  intros Hrun. unfold main. case_bool_decide as E; [subst; unfold runInit|].
  { apply flags_only. intros f _. apply config_only. intros c Hc _ _. destruct (parse_optional c); [|done].
    apply exit_only; [apply ensure_key_only|]. intros _. apply connected_only. eapply uses_mono; [apply init_run_only|].
    intros Y e He t Ht. split; [exact Hc|]. specialize (He t Ht). destruct t; try done; set_solver. }
  case_bool_decide; [done|]. case_bool_decide as E1; [subst; unfold runImportKey|].
  { apply flags_only. intros f _. destruct (_ || _); [done|]. do 3 (apply exit_only; [by split; [intros ?|]|intros ?]). done. }
  case_bool_decide as E2; [subst; unfold runKeygen|].
  { apply config_only. intros c _ _ _. apply finish_only; [|done]. apply op_only. unfold Operator.Keygen, wrap_err, try. use_calls; sent. }
  case_bool_decide as E3; [subst; unfold runRegister|].
  { apply signing_only. intros c Hc. destruct (parseModels c); [|done]. apply finishing_op. eapply uses_mono; [apply register_only|].
    intros Y e He t Ht. split; [exact Hc|]. specialize (He t Ht). destruct t; try done; set_solver. }
  case_bool_decide as E4; [subst; unfold runAddModels|].
  { apply signing_only. intros c Hc. destruct (parseModels c); [|done]. apply finishing_op. unfold Operator.AddModels. case_match; [done|]. case_match; [done|].
    apply uses_bind; [|done]. eapply uses_mono; [apply add_each_only|]. intros Y e He t Ht. destruct (He t Ht) as [id ->]. split; [exact Hc|set_solver]. }
  case_bool_decide as E5; [subst; unfold runReinstate|].
  { apply signing_only. intros c Hc. apply finishing_op. unfold Operator.Reinstate, wrap_err, try. use_calls; sent. by split. }
  case_bool_decide as E6; [subst; unfold runTopUpStake|].
  { apply flags_only. intros f Hf. destruct (rest f) as [|typed [|? ?]] eqn:Er; [done| |done]. destruct (Lcai.ParseLCAI typed) as [amount|] eqn:Ea; [|done].
    apply signing_only. intros c Hc. apply finishing_op. unfold Operator.TopUpStake, wrap_err, try. use_calls; sent. split; [done|]. split; [done|]. by exists f, typed. }
  case_bool_decide as E7; [subst; unfold runDeregister|].
  { apply signing_only. intros c Hc. apply finishing_op. apply uses_bind; [|by intros [[]|e]]. apply reg_only, uses_bind; [|by intros [[]|e]].
    split; [|done]. intros t [= <-]. split; [done|set_solver]. }
  case_bool_decide as E8; [apply drain_only|]. case_bool_decide as E9; [apply undrain_only|]. case_bool_decide; [apply status_only|].
  case_bool_decide; [apply preflight_only|]. case_bool_decide; [apply watch_only|].
  case_bool_decide as E10; [subst; unfold runBalance|].
  { apply settling_only. intros c w Hc. apply finishing_op. unfold Balance, wrap_err, try. use_calls; sent. }
  case_bool_decide as E11; [subst; unfold runWithdraw|].
  { apply settling_only. intros c w Hc. apply finishing_op. unfold Operator.Withdraw, wrap_err, try. use_calls; sent. by split. }
  case_bool_decide as E12; [subst; unfold runRelease|by case_bool_decide].
  apply flags_only. intros f _. apply settling_only. intros c w Hc. apply exit_only; [apply dial_only|]. intros [].
  destruct (Config.ConfigFromEnv Getenv); [|done]. apply exit_only; [by split; [intros ?|]|]. intros []. apply finish_only; [|by repeat split; try intros ?].
  split; [|done]. intros t Ht. cbn in Ht. destruct (bool_flag f "reconcile-only"); simplify_eq. by split.
Qed.

(** ** What exit code 0 says *)
Lemma exit_zero {X} (p : prog CmdE (result X)) k tr : runs (exit_on_error p k) tr 0 ->
  exists tr1 x tr2, tr = tr1 ++ tr2 /\ runs p tr1 (Ok x) /\ runs (k x) tr2 0.
Proof.
  intros (tr1 & [x|e] & tr2 & -> & Hp & Hk)%runs_bind; [by exists tr1, x, tr2|]. by apply runs_ret_inv in Hk as [_ [=]].
Qed.
Lemma signing_zero k tr : runs (signing Getenv k) tr 0 ->
  exists c tr1 tr2, RegistrationConfig.LoadRegistration Getenv = Ok c /\ tr = tr1 ++ tr2 /\ runs (k c) tr2 0.
Proof.
  unfold signing, loadAndValidateCfg. destruct (RegistrationConfig.LoadRegistration Getenv) as [c|]; [|by intros [_ [=]]%runs_ret_inv].
  destruct (config_ok c); [|by intros [_ [=]]%runs_ret_inv]. intros (tr1 & w & tr2 & -> & _ & Hk)%exit_zero. by exists c, tr1, tr2.
Qed.
Lemma settling_zero k tr : runs (settling Getenv k) tr 0 -> exists c w tr1 tr2, tr = tr1 ++ tr2 /\ runs (k c w) tr2 0.
Proof.
  unfold settling, loadAndValidateForSettlement, loadAndValidateCfg.
  destruct (RegistrationConfig.LoadRegistration Getenv) as [c|]; [|by intros [_ [=]]%runs_ret_inv].
  destruct (config_ok c); [|by intros [_ [=]]%runs_ret_inv].
  destruct (RegistrationConfig.ValidateForSettlement c); [|by intros [_ [=]]%runs_ret_inv].
  intros (tr1 & w & tr2 & -> & _ & Hk)%exit_zero. by exists c, w, tr1, tr2.
Qed.
(** A connected command that ends well ran its handler and closed the
    connection after it. *)
Lemma connected_zero c p tr : runs (connected c p) tr 0 -> exists tr0 tr1, tr = tr0 ++ tr1 ++ [Called (Sys (Life CloseChainClient)) tt] /\
  runs p tr1 (Ok tt).
Proof.
  intros (tr0 & [] & tr1 & -> & _ & Hf)%exit_zero. apply exit_zero in Hf as (tr2 & [] & tr3 & -> & Hp & Hc).
  apply runs_bind in Hc as (tr4 & [] & tr5 & -> & ->%runs_call & [-> _]%runs_ret_inv). by exists tr0, tr2.
Qed.

(** A call of the handler was answered so; a call of it succeeded. *)
Definition got {X} (e : OpE X) (x : X) (tr : list (called CmdE)) : Prop := Called (Ini (Op e)) x ∈ tr.
Definition accepted {X} (e : OpE (result X)) (tr : list (called CmdE)) : Prop := exists x, got e (Ok x) tr.

(** A handler that ends well, and what its own run shows about the command's. *)
Lemma op_zero {X} (p : prog OpE X) tr x : runs (op p) tr x ->
  exists tr', runs p tr' x /\ forall Y (e : OpE Y) y, Called e y ∈ tr' -> got e y tr.
Proof.
  intros (tr' & -> & Hr)%runs_lift. exists tr'. split; [done|]. intros Y e y Hin.
  exact (list_elem_of_fmap_2 (lift_called (fun Y e => Ini (Op e))) _ _ Hin).
Qed.
Lemma got_app {X} (e : OpE X) x tr1 tr2 : got e x tr1 \/ got e x tr2 -> got e x (tr1 ++ tr2).
Proof. unfold got. by rewrite elem_of_app. Qed.
Lemma op_accepted {X} (e : OpE (result X)) (p : prog OpE (result unit)) tr :
  always p (fun tr r => r = Ok tt -> exists x, Called e (Ok x) ∈ tr) -> runs (op p) tr (Ok tt) -> accepted e tr.
Proof. intros Ha (tr' & Hr & Hin)%op_zero. destruct (always_runs _ _ _ _ Ha Hr eq_refl) as [x Hx]. exists x. by apply Hin. Qed.

(** The models the operator names, from the commands' configuration. *)
Definition named_models (models : list (Z * string)) : Prop :=
  exists c, RegistrationConfig.LoadRegistration Getenv = Ok c /\ parseModels c = Ok models.

(** What a command that exits with 0 has achieved: [deregister], [reinstate] and
    [top-up-stake] their transaction; [withdraw] too, unless the balance it
    read was empty; [add-models] every model it was told; [register] the
    registration and every model, unless the worker was registered before;
    [preflight] all its checks. *)
Definition achieved (cmd : string) (args : list string) (tr : list (called CmdE)) : Prop :=
  (cmd = "deregister"%string -> accepted (Operator.Reg DeregisterWorker) tr) /\
  (cmd = "reinstate"%string -> accepted OpReinstate tr) /\
  (cmd = "withdraw"%string -> accepted OpWithdraw tr \/ got WorkerBalance (Ok None) tr \/ got WorkerBalance (Ok (Some 0)) tr) /\
  (cmd = "add-models"%string -> exists models, named_models models /\
     forall m, m ∈ models.*1 -> accepted (Operator.Reg (AddSupportedModel m)) tr) /\
  (cmd = "register"%string -> exists models, named_models models /\
     (got (Operator.Reg IsWorkerRegistered) (Ok true) tr \/
      (exists key s, accepted (Operator.Reg (RegisterWorker key s)) tr) /\
      forall m, m ∈ models.*1 -> accepted (Operator.Reg (AddSupportedModel m)) tr)) /\
  (cmd = "top-up-stake"%string -> parse_flags cmd args <> HelpWanted -> exists f typed amount, parse_flags cmd args = Parsed f /\
     rest f = [typed] /\ Lcai.ParseLCAI typed = Ok amount /\ accepted (OpTopUpStake amount) tr) /\
  (cmd = "preflight"%string -> parse_flags cmd args <> HelpWanted -> exists h tr0 tr1 tr2,
     tr = tr0 ++ (lift_called (fun Y e => Ini (Pre e)) <$> tr1) ++ tr2 /\ Preflight.ready h tr1).

Lemma deregister_achieves tr : runs (runDeregister Getenv) tr 0 -> accepted (Operator.Reg DeregisterWorker) tr.
Proof.
  intros (c & tr1 & tr2 & _ & -> & (tr3 & tr4 & -> & Hr)%connected_zero)%signing_zero.
  apply (op_accepted (Operator.Reg DeregisterWorker)) in Hr as [x Hx]; [exists x; apply got_app; right; apply got_app; right; by apply got_app; left|].
  unfold Operator.Deregister, RegistrationManager.Deregister, wrap_err. cbn. intros [[]|e]; [|done]. intros _. exists tt. left.
Qed.
Lemma reinstate_achieves tr : runs (runReinstate Getenv) tr 0 -> accepted OpReinstate tr.
Proof.
  intros (c & tr1 & tr2 & _ & -> & (tr3 & tr4 & -> & Hr)%connected_zero)%signing_zero.
  apply (op_accepted OpReinstate) in Hr as [x Hx]; [exists x; apply got_app; right; apply got_app; right; by apply got_app; left|].
  unfold Operator.Reinstate, wrap_err. walk; try done. destruct x as [[]|e]; [|by destruct (str_contains _ _)]. exists tt. do 6 right. left.
Qed.
Lemma top_up_achieves args tr : runs (runTopUpStake Getenv parse_flags args) tr 0 -> parse_flags "top-up-stake" args <> HelpWanted ->
  exists f typed amount, parse_flags "top-up-stake" args = Parsed f /\ rest f = [typed] /\ Lcai.ParseLCAI typed = Ok amount /\ accepted (OpTopUpStake amount) tr.
Proof.
  unfold runTopUpStake, with_flags. destruct (parse_flags _ args) as [f| |]; [|by intros [_ [=]]%runs_ret_inv|done]. intros Hr _.
  destruct (rest f) as [|typed [|]] eqn:Er; try by apply runs_ret_inv in Hr as [_ [=]].
  destruct (Lcai.ParseLCAI typed) as [amount|] eqn:Ea; [|by apply runs_ret_inv in Hr as [_ [=]]].
  exists f, typed, amount. split; [done|]. split; [done|]. split; [done|]. apply signing_zero in Hr as (c & tr1 & tr2 & _ & -> & Hr).
  apply connected_zero in Hr as (tr3 & tr4 & -> & Hr). apply (op_accepted (OpTopUpStake amount)) in Hr as [x Hx]; [exists x; apply got_app; right; apply got_app; right; by apply got_app; left|].
  unfold Operator.TopUpStake, wrap_err. cbn [handler_of Operator.Yes]. destruct (bool_flag f "yes"); walk; try done; subst; exists tt;
    repeat first [left|right].
Qed.

Lemma withdraw_achieves tr : runs (runWithdraw Getenv) tr 0 ->
  accepted OpWithdraw tr \/ got WorkerBalance (Ok None) tr \/ got WorkerBalance (Ok (Some 0)) tr.
Proof.
  intros (c & w & tr1 & tr2 & -> & (tr3 & tr4 & -> & (tr' & Hr & Hin)%op_zero)%connected_zero)%settling_zero.
  assert (forall X (e : OpE X) x, Called e x ∈ tr' -> got e x (tr1 ++ tr3 ++ tr4 ++ [Called (Sys (Life CloseChainClient)) tt])) as Hgot
    by (intros X e x ?%Hin; apply got_app; right; apply got_app; right; by apply got_app; left).
  unfold Operator.Withdraw in Hr. apply runs_try in Hr as (t1 & b & t2 & -> & ->%runs_wrap%runs_call & Hr).
  destruct b as [b|]; [|right; left; apply Hgot; left]. destruct (Z.eqb_spec b 0) as [->|]; [right; right; apply Hgot; left|].
  apply runs_try in Hr as (t3 & x & t4 & -> & ->%runs_wrap%runs_call & _). left. exists x. apply Hgot. right. left.
Qed.

(** A registration that ends well, call by call. *)
Lemma add_models_zero ms tr : runs (RegistrationManager.add_models ms) tr (Ok tt) ->
  forall m, m ∈ ms -> Called (AddSupportedModel m) (Ok tt) ∈ tr.
Proof.
  revert tr. induction ms as [|m ms IH]; intros tr Hr m' Hm'; [by apply elem_of_nil in Hm'|]. cbn [RegistrationManager.add_models] in Hr.
  apply runs_bind in Hr as (t1 & [[]|e] & t2 & -> & ->%runs_call & Hr).
  - apply elem_of_cons in Hm' as [->|Hm']; [left|right; by apply IH].
  - apply runs_bind in Hr as (t3 & r & t4 & -> & _ & Hr). by apply runs_ret_inv in Hr as [_ [=]].
Qed.
Lemma ensure_zero m key stake tr : runs (RegistrationManager.EnsureRegistered m key stake) tr (Ok tt) ->
  Called IsWorkerRegistered (Ok true) ∈ tr \/
  (exists s, Called (RegisterWorker key s) (Ok tt) ∈ tr) /\
  forall id, id ∈ RegistrationManager.modelIDs m -> Called (AddSupportedModel id) (Ok tt) ∈ tr.
Proof.
  unfold RegistrationManager.EnsureRegistered. destruct (validateEncryptionPubKey key); [|by intros [_ [=]]%runs_ret_inv].
  intros (t1 & b & t2 & -> & ->%runs_wrap%runs_call & Hr)%runs_try. destruct b; [left; left|].
  apply runs_try in Hr as (t3 & s & t4 & -> & _ & (t5 & [] & t6 & -> & ->%runs_wrap%runs_call & Hr)%runs_try). right. split.
  - exists s. rewrite !elem_of_app. right; right; left. left.
  - intros id Hid. rewrite !elem_of_app. right; right; right. by apply (add_models_zero (RegistrationManager.modelIDs m)).
Qed.

Lemma register_achieves tr : runs (runRegister Getenv) tr 0 -> exists models, named_models models /\
  (got (Operator.Reg IsWorkerRegistered) (Ok true) tr \/
   (exists key s, accepted (Operator.Reg (RegisterWorker key s)) tr) /\
   forall m, m ∈ models.*1 -> accepted (Operator.Reg (AddSupportedModel m)) tr).
Proof.
  intros (c & tr1 & tr2 & Hc & -> & Hr)%signing_zero. destruct (parseModels c) as [models|] eqn:Hm; [|by apply runs_ret_inv in Hr as [_ [=]]].
  apply connected_zero in Hr as (tr3 & tr4 & -> & (tr' & Hr & Hin)%op_zero). exists models. split; [by exists c|].
  assert (forall X (e : OpE X) x, Called e x ∈ tr' -> got e x (tr1 ++ tr3 ++ tr4 ++ [Called (Sys (Life CloseChainClient)) tt])) as Hgot
    by (intros X e x ?%Hin; apply got_app; right; apply got_app; right; by apply got_app; left).
  assert (exists key t1 t2 t3, tr' = t1 ++ (lift_called (@Operator.Reg) <$> t2) ++ t3 /\
    runs (RegistrationManager.EnsureRegistered (RegistrationManager.MkManager models.*1) key (RegistrationConfig.WorkerStake c)) t2 (Ok tt))
    as (key & t1 & t2 & t3 & -> & He%ensure_zero).
  { unfold Operator.Register in Hr. cbn [handler_of Operator.ModelIDs Operator.WorkerStake] in Hr. destruct (models.*1) eqn:Ems; [by apply runs_ret_inv in Hr as [_ [=]]|].
    apply runs_try in Hr as (t1 & key & t2 & -> & _ & (t3 & seed & t4 & -> & _ & Hr)%runs_bind).
    apply runs_try in Hr as (t5 & [] & t6 & -> & (t7 & -> & Hr)%runs_wrap%runs_lift & _). exists key, (t1 ++ t3), t7, t6. by rewrite <- !app_assoc. }
  assert (forall X (e : RegE X) x, Called e x ∈ t2 -> got (Operator.Reg e) x (tr1 ++ tr3 ++ tr4 ++ [Called (Sys (Life CloseChainClient)) tt])) as Hreg.
  { intros X e x H2. apply Hgot. rewrite !elem_of_app. right; left. exact (list_elem_of_fmap_2 (lift_called (@Operator.Reg)) _ _ H2). }
  destruct He as [Hi|[[s Hs] Ha]]; [left; by apply Hreg|right]. split; [exists key, s, tt; by apply Hreg|].
  intros m Hm'. exists tt. apply Hreg. by apply Ha.
Qed.

Lemma add_models_achieves tr : runs (runAddModels Getenv) tr 0 -> exists models, named_models models /\
  forall m, m ∈ models.*1 -> accepted (Operator.Reg (AddSupportedModel m)) tr.
Proof.
  intros (c & tr1 & tr2 & Hc & -> & Hr)%signing_zero. destruct (parseModels c) as [models|] eqn:Hm; [|by apply runs_ret_inv in Hr as [_ [=]]].
  apply connected_zero in Hr as (tr3 & tr4 & -> & (tr' & Hr & Hin)%op_zero). exists models. split; [by exists c|]. intros m Hm'.
  unfold Operator.AddModels in Hr. cbn [handler_of Operator.ModelIDs Operator.ModelNames] in Hr. destruct (models.*1) as [|m0 ms] eqn:Ems; [by apply runs_ret_inv in Hr as [_ [=]]|].
  destruct (negb _); [by apply runs_ret_inv in Hr as [_ [=]]|]. rewrite <- Ems in *.
  apply runs_bind in Hr as (t1 & counts & t2 & -> & H1 & [-> Hn]%runs_ret_inv). destruct (Z.ltb_spec 0 (snd counts)) as [|Hz]; [done|].
  destruct (always_runs _ _ _ _ (Operator.add_each_always _ _ _) H1) as [Hall ->]. cbn [snd] in Hz.
  rewrite app_nil_r in Hin.
  rewrite <- Hall in Hm'. apply list_elem_of_fmap in Hm' as ((m' & b) & -> & Hb). destruct b.
  2: { destruct (filter _ (answered _ t1)) eqn:E in Hz; [|cbn [length] in Hz; lia].
       assert ((m', false) ∈ filter (fun m => snd m = false) (answered (@Operator.added_of) t1)) as Hf by by apply list_elem_of_filter.
       rewrite E in Hf. by apply elem_of_nil in Hf. }
  exists tt. apply got_app; right; apply got_app; right; apply got_app; left. apply Hin. clear -Hb.
  induction t1 as [|[X e x] t1 IH]; [by apply elem_of_nil in Hb|]. rewrite (answered_cons (@Operator.added_of)) in Hb.
  apply elem_of_app in Hb as [Hb|Hb]; [|right; by apply IH]. destruct e as [? r| | | | | | | | | | | | | | | | |]; try by apply elem_of_nil in Hb.
  destruct r; try by apply elem_of_nil in Hb. apply list_elem_of_singleton in Hb as [= -> Hx]. destruct x as [[]|]; [left|done].
Qed.

Lemma preflight_achieves args tr : runs (runPreflight Getenv parse_flags args) tr 0 -> parse_flags "preflight" args <> HelpWanted ->
  exists h tr0 tr1 tr2, tr = tr0 ++ (lift_called (fun Y e => Ini (Pre e)) <$> tr1) ++ tr2 /\ Preflight.ready h tr1.
Proof.
  unfold runPreflight, with_flags. destruct (parse_flags _ args) as [f| |]; [|by intros [_ [=]]%runs_ret_inv|done]. cbv zeta. intros Hr _.
  destruct (RegistrationConfig.LoadRegistration Getenv) as [c|]; [|by apply runs_ret_inv in Hr as [_ [=]]].
  destruct (if _ : bool then _ else _); [|by apply runs_ret_inv in Hr as [_ [=]]]. apply exit_zero in Hr as (tr1 & w & tr2 & -> & _ & Hr).
  destruct (parse_optional c) as [models|]; [|by apply runs_ret_inv in Hr as [_ [=]]]. apply connected_zero in Hr as (tr3 & tr4 & -> & Hr).
  apply runs_bind in Hr as (tr5 & [ok rep] & tr6 & -> & (tr' & -> & Hr)%runs_lift & [-> Hok]%runs_ret_inv). destruct ok; [|done].
  eexists _, (tr1 ++ tr3), tr', [Called (Sys (Life CloseChainClient)) tt]. split; [by rewrite app_nil_r, <- !app_assoc|].
  by apply (proj2 (always_runs _ _ _ _ (Preflight.run_always _) Hr)).
Qed.

(** C40. An operator's command sends only what it is for. Every command but
    [run] sends a transaction only under a configuration that loads and
    validates (with the job registry set, for the settlement commands), and of
    its kind only: registering, adding models and the rollback for [init] and
    [register], one stake or release operation each for the commands named
    after them, with exactly the amount that was typed for a top-up; all other
    commands, whatever they read, send nothing. Exit code 0 means, unless only
    the usage of a command was asked for: from [deregister], [reinstate] and
    [top-up-stake], that the transaction was accepted; from [withdraw], that it
    was, or the balance read was empty; from [add-models], that every model the
    operator named was; from [register], that the registration and every model
    was, or the worker was registered already; from [preflight], that every
    check passed. *)
Theorem commands_send_what_they_are_for cmd args tr code : cmd <> "run"%string ->
  runs (main Getenv parse_flags stdin range protocolVersion (cmd :: args)) tr code ->
  (forall X (e : CmdE X) x t, Called e x ∈ tr -> cmd_sends X e = Some t -> may_send cmd args t) /\
  (code = 0 -> achieved cmd args tr).
Proof.
  intros Hc Hr. split.
  - pose proof (always_runs _ _ _ _ (uses_always _ _ (main_only cmd args Hc)) Hr) as Hf. intros X e x t Hin Ht.
    exact (proj1 (Forall_forall _ _) Hf _ Hin t Ht).
  - intros ->. repeat split; intros ->; cbn in Hr.
    + by apply deregister_achieves.
    + by apply reinstate_achieves.
    + by apply withdraw_achieves.
    + by apply add_models_achieves.
    + by apply register_achieves.
    + by apply top_up_achieves.
    + by apply preflight_achieves.
Qed.
End Spends.

(** ** A run *)
#[local] Existing Instances plain_addresses plain_urls Config.plain_text OllamaClient.plain_json.
#[local] Instance plain_keystore : KeystoreJSON := {| UnmarshalAddress := fun b => Ok b |}.

Definition demo_flags (name : string) (args : list string) : parsed :=
  match args with
  | ["-h"]%string => HelpWanted
  | _ => Parsed (MkFlags (fun _ => EmptyString) (fun _ => true) args)
  end.
Definition demo_shell : handler CmdE unit := fun X e w =>
  match e in CmdE X return X * unit with
  | Sys e => Construct.demo_world true _ e tt
  | Ini e => InitHandler.demo_init true _ e tt
  | ReleaseCycle _ _ | EphemeralKey | BindReadOnly _ _ => (Ok tt, tt)
  | WatchLoop _ _ _ | CloseRPC | CloseRedisClient => (tt, tt)
  end.
Definition demo_command (argv : list string) := fst (interp demo_shell (main operator_env demo_flags [] map_to_list 1 argv) tt).

Example demo_exits :
  (fun argv => snd (demo_command argv)) <$>
    [["top-up-stake"; "0.00000000000000004"]; ["top-up-stake"; "1,5"]; ["top-up-stake"; "."]; ["preflight"]; ["status"]; ["balance"];
     ["withdraw"; "-h"]; ["release"; "-h"]; ["frobnicate"]; ["help"]]%string =
  [0; 1; 1; 1; 0; 0; 0; 0; 1; 0].
Proof. vm_compute. reflexivity. Qed.

Example demo_amounts :
  Lcai.ParseLCAI "60.25" = Ok 60250000000000000000 /\ Lcai.ParseLCAI ".5" = Ok 500000000000000000 /\
  is_ok (Lcai.ParseLCAI "0.0") = false /\ is_ok (Lcai.ParseLCAI "1.2.3") = false /\ is_ok (Lcai.ParseLCAI "-1") = false.
Proof. vm_compute. done. Qed.

Definition demo_top_up : list string := ["top-up-stake"; "0.00000000000000004"]%string.
Lemma demo_command_runs argv code : snd (demo_command argv) = code ->
  runs (main operator_env demo_flags [] map_to_list 1 argv) (fst (demo_command argv)) code.
Proof. intros <-. apply interp_run. Qed.
Lemma commands_send_what_they_are_for_witness :
  (exists typed amount, Lcai.ParseLCAI typed = Ok amount /\ accepted (OpTopUpStake amount) (fst (demo_command demo_top_up))) /\
  may_send operator_env demo_flags "top-up-stake" ["0.00000000000000004"%string] (TopsUp 40).
Proof.
  destruct (commands_send_what_they_are_for operator_env demo_flags [] map_to_list 1 "top-up-stake" ["0.00000000000000004"%string]
    (fst (demo_command demo_top_up)) 0) as [Hs Ha].
  - discriminate.
  - apply demo_command_runs. vm_compute. reflexivity.
  - split.
    + destruct (Ha eq_refl) as (_ & _ & _ & _ & _ & Ht & _). destruct (Ht eq_refl ltac:(discriminate)) as (f & typed & amount & _ & _ & Hp & Hacc).
      exists typed, amount. split; [exact Hp|exact Hacc].
    + apply (Hs (result unit) (Ini (Op (OpTopUpStake 40))) (Ok tt)); [|reflexivity]. vm_compute. repeat first [left|right].
Defined.
End Commands.
